(* ===== verification/_CoqProject ===== *)
-Q . S2P
Prelude.v
Slots.v
RustStr.v
F64.v
RegistryTypes.v
RegistrySnapshot.v
RegistryBuilder.v
RegistryProps.v
RegistryResolve.v
Types.v
Router.v
RouterProps.v
RouterSessions.v
Lcp.v
Scheduler.v
SchedulerProps.v
Usage.v
ClineUsage.v
AffinityStore.v
ClaudeBudget.v
ClaudeResetOrder.v
Account.v
AccountProps.v
AccountModels.v
Sha256.v
Json.v
Envelope.v
CatalogManager.v
CatalogProps.v
ScopedKeys.v
ScopedProps.v
Storage.v
RelayCooldown.v
CooldownProps.v
RelayRoute.v
RouteProps.v
RelayAffinity.v
SessionProps.v
RelayLoop.v
RelayProps.v
RelayCases.v
Payload.v
PrefixWatch.v
SignatureLedger.v
LedgerProps.v
Gate.v
Inbound.v
InboundProps.v
UsageQueue.v
Resp.v
RespProps.v
Sse.v
SseProps.v
Wire.v
Render.v
RenderProps.v
ToolSchema.v
ToolSchemaProps.v
Request.v
RequestProps.v
ResponsesStream.v
ResponsesProps.v
ResponsesDecode.v
ResponsesRequest.v
ResponsesRequestProps.v
ClaudeStream.v
ClaudeStreamProps.v
ClaudeDecode.v
Preamble.v
Kiro.v
KiroProps.v
GeminiDecode.v
Compat.v
CompatProps.v
StreamProps.v
ClaudeRequest.v
ClaudeRequestProps.v
Warmup.v
WarmupProps.v
Egress.v
