(* ===== verification/Prelude.v ===== *)
(** * Mahoquot proxy: a verification library

    The program is a Rust gateway that serves LLM requests from a pool of accounts
    of several providers.  A request names a model; the registry resolves the name
    to provider bindings, the relay gathers the accounts that can serve it and walks
    them until one answers - asking the session's own account first, else the
    scheduler's and the router's choice - the payload rules rewrite the body, the
    answer updates the account's health, quota and cooldowns, and usage records are
    queued for the management interface.  This library models the parts that carry
    that logic and proves what makes each of them correct.

    ** Files, in the order they build on each other

    - [Prelude] (this file): Rust's [Result] with [?] as a monad, machine integers
      ([u64], [i64], [u8] as [Z] with their wrapping and saturating operations
      written out), strict weak orders ([StrictWeak]) with stable insertion sort and
      [min_by]/[max_by], the iteration order of [BTreeMap], instants, and the
      tactics and hints of the development.  [Slots]: sorting some slots of a list
      in place.
    - [RustStr]: the functions of [str] and [char] that the source calls, on UTF-8
      byte strings, with decimal printing and parsing.  [F64]: doubles.
    - [RegistryTypes], [RegistrySnapshot], [RegistryBuilder]
      (crates/registry/src/lib.rs): identifiers, catalog sources, bindings and
      [merge_with], descriptors, contributions and [capability_profile]; alias
      following, [resolve], [validate], [validate_local_composition] and
      [compose_with_settings]; the builder, whose methods return the next builder
      together with their result, so what an error leaves behind is visible.
      [RegistryProps] and [RegistryResolve] hold their theorems.
    - [Types] (crates/types/src/lib.rs): [Health], [Strategy], and the trait
      [PoolMember] as a class.
    - [Router] (crates/router/src/lib.rs): [Router] and every public method;
      theorems in [RouterProps] (one selection, the invariant, the rotation) and
      [RouterSessions] (churn, session stickiness, size of the affinity map). They
      are proved for every [PoolMember].
    - [Lcp] (crates/router/src/lcp.rs): the conversation matcher.
    - [Scheduler] (crates/gateway/src/scheduler/), [SchedulerProps]:
      [select_candidate], reconciliation with its exhaustion hysteresis, the
      published snapshot, reservations, loading, and background persistence with its
      pending writes as part of the state.  [UsageReport] is the class of what it
      reads of an account.
    - [Usage] (crates/gateway/src/usage.rs 1-452): quota windows, the exhaustion
      tests and the merge of response headers into a polled snapshot. [ClineUsage]
      (cline_usage.rs): the daily budgets of Cline models.
    - [AffinityStore] (affinity_store.rs); [ClaudeBudget] (claude_budget.rs and
      claude_denial.rs); [ClaudeResetOrder] (claude_reset_order.rs): the durable
      session bindings, the monthly budget with its calendar, the classification of
      denials, and the order of Claude accounts.
    - [Account] (account.rs), [AccountProps]: the runtime state of an account and
      the operations of [AccountMember] that change it.  [Account] discharges the
      interfaces [PoolMember], [UsageReport] and [ClaudeAccount], so the theorems on
      the router, the scheduler and the reset order hold of it. [AccountModels]
      (account.rs, runtime_state.rs): which models an account serves, and the pool
      snapshot with its permissions.
    - [Json]: JSON values.
    - The relay (relay.rs): [RelayCooldown] - deadlines, benches, quota buckets and
      the exhaustion answer - with [CooldownProps]; [RelayRoute] - the shared
      [AppState], model resolution, the candidate list, the choice - with
      [RouteProps]; [RelayAffinity] - session identity, scopes and bindings - with
      [SessionProps]; [RelayLoop] - [handle_relay] from the candidate list to the
      answer, one iteration at a time - with [RelayProps]; [RelayCases] - whole
      requests through a small gateway.
    - [Payload] (relay_payload.rs), [PrefixWatch] (claude_prefix_watch.rs): payload
      rules, and the watch on prompt-cache prefixes.
    - [SignatureLedger] (compat/signature_ledger/), [LedgerProps]: the LRU store of
      thought signatures and its replay scopes.
    - [Gate] (management/gate.rs): failed attempts, bans and the check of the
      management key.
    - [UsageQueue], [Resp] (resp.rs), [RespProps]: the usage queue with its
      subscribers, and the RESP endpoint that serves it.
    - [Envelope] (crates/registry/src/envelope.rs): the signed envelope of a
      catalog, its canonical payload and its verification. [CatalogManager]
      (crates/gateway/src/registry/), [CatalogProps]: boot from the cache, updates,
      refreshes and their bounded fetches.
    - [Storage] (crates/registry/src/store.rs): the class [StorageBackend] with the
      memory and the local backend as instances, and the manager with its spool,
      proved against the class; the spool, the recovery data and the local backend
      are directory trees, in which keys can collide.
    - [Sha256] (request_history.rs): the digest that names inbound keys.
      [ScopedKeys] (management/scoped_keys.rs, settings.rs, store.rs, state.rs),
      [ScopedProps]: delegated keys, their document on disk and their counters in
      memory.  The counters are shared objects: an index entry names its counter by
      location, so a request that holds an old entry and the new index share it.
    - [Inbound] (inbound.rs, realtime.rs), [InboundProps]: the middleware in front
      of every route, composed with the gate and the scoped keys, and realtime
      secrets.
    - [Sse] (compat/events.rs), [SseProps]: the upstream event stream.  [Render]
      (compat/render.rs), [RenderProps]: the chat and Gemini streams and the
      aggregated bodies that are made of its events.  [ToolSchema]
      (compat/tool_schema.rs), [ToolSchemaProps]: the schemas of tools.
    - [Request] (compat/request.rs), [RequestProps]: chat requests as upstream
      requests, model suffixes and thinking levels.  [ResponsesRequest]
      (compat/responses.rs), [ResponsesRequestProps]: Responses requests as chat
      requests, and compaction capsules.
    - [Wire]: named events as bytes, and those bytes read back by [Sse].
      [ResponsesStream] (compat/responses.rs), [ResponsesProps], [ResponsesDecode]:
      events as a Responses stream, and that stream read back.  [ClaudeStream]
      (compat/claude.rs), [ClaudeStreamProps], [ClaudeDecode]: the decoder and the
      renderer of the Messages protocol, the protocol as an automaton, and a stream
      read back.
    - [Preamble] (compat/mod.rs, the first half): opening an upstream stream.
      [Kiro] (compat/kiro.rs), [KiroProps] and [GeminiDecode] (compat/gemini.rs):
      two more decoders.
    - [Compat] (compat/mod.rs, the second half), [CompatProps], [StreamProps]: the
      reply as a whole.  What is read is a [Source], what is written a [Surface];
      [SourceLaws] and [SurfaceLaws] say what one promises the streaming body, the
      body's theorems are proved against them, and the parsers and the four surfaces
      discharge them.
    - [ClaudeRequest] (compat/claude.rs, the first half), [ClaudeRequestProps]:
      Messages requests to and from the chat form, thinking, cache marks, and whole
      answers.
    - [Warmup] (warmup.rs, management/settings.rs), [WarmupProps]: probes that start
      an account's quota window, over the account, the usage and the scheduler, and
      the workers that send them as a step relation.
    - [Egress] (proxy_policy.rs, state.rs, loopback_guard.rs): proxies, sticky
      sessions and the cache of clients, with the steps other threads may take on
      it, and the clients of Claude accounts with an egress of their own.

    ** How the code is modelled

    A struct is a record and an enum an inductive type.  A method is a function from
    the state and its arguments to its value and the next state; the mutex around
    each structure makes a method one atomic step, so concurrent use is a sequence
    of steps, and the theorems quantify over all sequences.  Where the source
    releases the lock in the middle (the gate's verification, the scheduler's
    background writes) the halves are separate steps.  In the relay loop everything
    outside is the [Env] of an iteration: the clocks, the answers of each account,
    [interfere], what other requests did to the shared state, and whether Home
    decides at that moment. The clock is an argument.  [HashMap] is [gmap];
    [BTreeMap] is [gmap] read in key order.

    ** What the theorems show

    - The relay: every request that does not start under Home is answered within a
      bounded number of attempts (C1), a healthy account is reached (C2), a Claude
      denial is not failed over (C3), no attempt goes around the gates (C4).  The
      candidate list is exact (C14) and in priority order
      ([eligible_priority_order]), routes respect exclusions
      ([route_respects_exclusions]), a choice exists as long as it can
      ([select_index_correct]), holds are short ([hold_bounds]).  Caps do not walk
      forward ([cap_deadline_stable]), a rate limit blocks what it names
      ([rate_limit_blocks]) and no other quota group (C29), the exhaustion answer
      names the earliest reset ([exhaustion_retry_after]). Sessions keep their
      account ([session_binding_lives]) and their scopes apart ([scope_bytes_inj]).
      [RelayCases] shows the two places where a comment promises more.
    - Routing: what [select] returns on every branch (C10); the strict rotation
      serves every member equally often (C11); a session keeps its account (C12);
      the bookkeeping invariant (C13); the affinity map is bounded by selection
      ([affinity_bounded]) but not when bindings are forced ([forced_unbounded]).
    - Registry: exclusions hold (C17), claimed models and namespaces are not taken
      over by open providers ([resolve_claimed], [resolve_namespace_guard]); alias
      resolution succeeds on validated and built catalogs ([validate_resolves],
      [build_resolves]); composition preserves validity and leaves no provider
      without a model (C18, [compose_no_blackout]); merging does not depend on the
      order, but for the upstream name (C19); discovery only supplements
      ([discovery_keeps_catalog]); the contribution view terminates
      ([built_profile_terminates]).
    - Scheduling: the selection on every branch (C20), its stability
      ([selection_sticks]), the rest of exhausted accounts ([exhausted_parked]),
      exclusive reservations (C22), newest state wins on disk
      ([persist_newest_wins]), corrupt sidecars fail open
      ([corrupt_sidecar_fails_open]).
    - Accounts: benches are exact and isolated ([bench_history]), disabled accounts
      are never selected ([disabled_never_selected]), health recovers only for a
      reason ([health_transitions]); header readings land whole in one window
      ([header_window_lands]); a daily budget stays consistent ([tracker_preserved],
      [observe_correct]).
    - Stores: the ledger refines a recency list and recalls what it stored (C34,
      [insert_then_get]); the usage queue refines a FIFO ([queue_refines]); bindings
      survive a restart ([flush_load_roundtrip]).
    - Management: guesses are bounded (C7), the gate is sound (C6), an
      unauthenticated connection changes nothing ([unauthenticated_inert]), commands
      survive the wire ([resp_roundtrip]).
    - Conversations and requests: the matcher recognises a growing conversation
      ([bind_then_resolve]) within its bounds ([matcher_bounded]); Claude slots are
      reordered in place ([reorder_correct]); payload paths are set exactly
      ([set_path_correct]); the budget month is the calendar month
      ([month_start_correct]); appended messages are no prefix break
      ([append_not_break]).
    - Catalog updates: acceptance is exact ([verify_exact]), signatures are checked
      before anything is interpreted ([unsigned_not_interpreted]), the served
      version never goes back (C15) and survives a restart (C16).  Storage with its
      spool is a map for keys that do not collide on disk (C33), and keys cannot
      leave its root ([normalize_key_safe]).
    - Inbound keys: what the middleware lets through (C5), which identity a
      credential has ([authorizes_exact]), how long realtime secrets live
      ([secrets_bounded]); while no two keys share an id or a secret, usage of a
      scoped key is never handed back (C8), not even by a restart (C9); the digest
      is SHA-256 ([sha256_fips]).
    - Answers: the parser does not depend on the chunks ([chunking_irrelevant]),
      every stream ends exactly once ([stream_ends_once], [chat_stream_closes],
      [gemini_stream_closes]), its memory is bounded ([sse_memory_bounded]), framed
      events are read back ([frames_roundtrip]); streaming and aggregating agree
      (C25).  Tool schemas leave without unions and references (C27).
    - Requests: the thinking a request asks for is fitted to what the model can do
      ([thinking_fits]), at the nearest level it has ([clamp_level_nearest]); a
      model name and its suffix come apart in one way ([model_suffix_exact]).
    - Responses requests: an accepted request has calls and call outputs that match
      and no remote images, and is accepted exactly when its items match (C40);
      capsules open for the model that sealed them ([capsule_roundtrip]).
    - Responses streams: consistent with themselves and with the one-shot answer
      (C38), and what is sent reads back as the response it was made of (C39).
      Messages streams: accepted by the protocol (C31), and read back (C35).
    - Upstream streams: holding their start back changes no byte
      ([held_stream_whole]) and more bytes do not change a verdict
      ([verdict_cut_independent]); Kiro frames are read as the objects they carry
      however they are cut (C26), and a Kiro stream ends once whatever its bytes are
      ([kiro_ends_once]).
    - Streamed replies: every one ends, with one closing frame (C24); it is the
      rendering of the upstream's events, not of its chunks (C23); and it is metered
      as a collected one is (C30).
    - Messages requests: what every accepted one satisfies (C21), and a conversation
      survives the way through the chat form (C36).
    - Warmup: flights and workers agree under every interleaving (C32), the log
      counts the probes of a day ([probes_counted]), and a probed account rests
      (C28).
    - Egress: a request leaves by the proxy configured for it, whatever the cache
      went through (C37); sticky sessions rotate once per period
      ([sticky_rotates_once]) and their names are safe in a URL ([session_id_safe]).

    ** Bounds and fuel

    Alias following has [MAX_ALIAS_DEPTH] hops of room, which is the test of the
    source.  The loops of the source that remove an element per turn carry the
    length of the structure as fuel ([Lcp.evict], [evict_loop], [skip_stale],
    [Session.shed]), which is as many turns as they can take.  [Resp.serve] reads at
    least one byte per command, so the length of the input plus one is enough, and
    [serve_terminates] proves it.  The relay loop is an unbounded [loop] in the
    source: [run] carries fuel, and C1 proves that [(retry_limit + 1) * (candidates
    + 1)] iterations are enough for a request that does not start under Home, while
    [home_exhaustion_unbounded] shows that no number is for one that does, when Home
    dispatches exhausted credentials.  [capability_profile] has no bound in the
    source: [built_profile_terminates] proves that one more than [MAX_ALIAS_DEPTH]
    calls are enough on every built catalog, and [capability_profile_diverges] that
    none are on a cyclic contribution.  Sequence numbers are 64-bit and wrap;
    theorems that need them not to wrap say so with the number of calls. Tool
    schemas carry the levels that remain of the nesting limit, which is the test of
    the source: none left is its error.  The loops of [Kiro] take at least one byte
    per turn, so that the number of bytes plus one is enough ([decode_wire_fuel]).
    [Compat.polls] takes a number of polls; C24 proves that more polls than the body
    has frames see its end.

    ** Parameters

    Code outside the repository is a parameter: serde_json's parser and printer
    (also of the cached catalog package, with the round trip it relies on as a
    hypothesis), the [url] crate's host, environment variables, SipHash, Ed25519,
    the key a hash map lists first, the built-in catalog, the session hash of the
    matcher's caller, the digest of a block, bcrypt, and the text of an I/O error.
    A theorem that needs something of one of them has it as a hypothesis.

    ** Not modelled

    Network and file I/O, the HTTP handlers apart from those of the scoped keys, the
    translators of requests to Gemini, Kiro and the further providers (compat) and
    the decoders over generated protobuf messages (Cursor, Devin), OAuth and
    credential files, the parsers of quota polls, building an upstream request, the
    SQL of the request history, discovery, Home federation, WebSocket and media
    endpoints, the recovery commands of the egress supervisor and the timers of the
    refresh and warmup workers, the console and the terminal interface: most are I/O
    around the modelled parts, and the remaining translators and parsers have the
    shape of the modelled ones. *)

From Stdlib Require Import ZArith Lia.
From stdpp Require Import sorting gmap strings fin_maps numbers list.

(** ** Notation and automation of the development *)

Declare Scope rust_scope.
Delimit Scope rust_scope with rust.

Create HintDb mahoquot.
Create Rewrite HintDb mahoquot.

(** [case_if] splits on the boolean test of the first [if] it finds, keeping the
    equation; [bool_to_prop] turns the boolean comparisons of the code into the
    propositions they decide. *)
Ltac case_if :=
  match goal with
  | |- context [if ?b then _ else _] => destruct b eqn:?
  | H : context [if ?b then _ else _] |- _ => destruct b eqn:?
  end.

Ltac bool_to_prop :=
  repeat match goal with
  | H : (_ && _) = true |- _ => apply andb_true_iff in H as [? ?]
  | H : (_ || _) = false |- _ => apply orb_false_iff in H as [? ?]
  | H : (_ || _) = true |- _ => apply orb_true_iff in H
  | H : (_ && _) = false |- _ => apply andb_false_iff in H
  | H : negb _ = true |- _ => apply negb_true_iff in H
  | H : negb _ = false |- _ => apply negb_false_iff in H
  | H : bool_decide _ = true |- _ => apply bool_decide_eq_true_1 in H
  | H : bool_decide _ = false |- _ => apply bool_decide_eq_false_1 in H
  | H : Is_true _ |- _ => apply Is_true_true_1 in H
  | H : (_ <? _)%Z = true |- _ => apply Z.ltb_lt in H
  | H : (_ <? _)%Z = false |- _ => apply Z.ltb_ge in H
  | H : (_ <=? _)%Z = true |- _ => apply Z.leb_le in H
  | H : (_ <=? _)%Z = false |- _ => apply Z.leb_gt in H
  | H : (_ =? _)%Z = true |- _ => apply Z.eqb_eq in H
  | H : (_ =? _)%Z = false |- _ => apply Z.eqb_neq in H
  | H : (_ <? _)%nat = true |- _ => apply Nat.ltb_lt in H
  | H : (_ <? _)%nat = false |- _ => apply Nat.ltb_ge in H
  | H : (_ <=? _)%nat = true |- _ => apply Nat.leb_le in H
  | H : (_ <=? _)%nat = false |- _ => apply Nat.leb_gt in H
  | H : (_ =? _)%nat = true |- _ => apply Nat.eqb_eq in H
  | H : (_ =? _)%nat = false |- _ => apply Nat.eqb_neq in H
  end.

(** ** Fallible code: Rust's [Result] *)

Inductive result (E A : Type) : Type :=
  | Ok (a : A)
  | Err (e : E).
Arguments Ok {E A} a.
Arguments Err {E A} e.

Global Instance result_ret E : MRet (result E) := λ A a, Ok a.
Global Instance result_bind E : MBind (result E) :=
  λ A B f r, match r with Ok a => f a | Err e => Err e end.
Global Instance result_fmap E : FMap (result E) :=
  λ A B f r, match r with Ok a => Ok (f a) | Err e => Err e end.

(** [Option::ok_or]. *)
Definition ok_or {E A} (e : E) (o : option A) : result E A :=
  match o with Some x => Ok x | None => Err e end.

Lemma rfmap_Ok {E A B} (f : A → B) (r : result E A) b :
  (f <$> r) = Ok b → ∃ a, r = Ok a ∧ b = f a.
Proof. destruct r as [a|e]; cbn; [intros [= <-]; eauto | done]. Qed.

Lemma ok_or_Ok {E A} (e : E) (o : option A) x : ok_or e o = Ok x ↔ o = Some x.
Proof. destruct o; cbn; naive_solver. Qed.

Definition is_some {A} (o : option A) : bool :=
  match o with Some _ => true | None => false end.

Definition is_ok {E A} (r : result E A) : bool :=
  match r with Ok _ => true | Err _ => false end.

#[export] Instance Ok_inj {E A} : Inj (=) (=) (@Ok E A).
Proof. by intros ?? [= ->]. Qed.
#[export] Instance Err_inj {E A} : Inj (=) (=) (@Err E A).
Proof. by intros ?? [= ->]. Qed.

Lemma rbind_Ok {E A B} (f : A → result E B) (r : result E A) b :
  (r ≫= f) = Ok b → ∃ a, r = Ok a ∧ f a = Ok b.
Proof. destruct r as [a|e]; cbn; [eauto | done]. Qed.

(** The [for x in xs { step(x)?; }] loop: [step] runs in order and the first
    error ends the loop. *)
Fixpoint try_fold {E S A} (step : S → A → result E S) (s : S) (xs : list A)
  : result E S :=
  match xs with
  | [] => Ok s
  | x :: xs => s' ← step s x; try_fold step s' xs
  end.

Definition try_each {E A} (step : A → result E unit) (xs : list A) : result E unit :=
  try_fold (λ _ x, step x) tt xs.

Lemma try_each_Ok {E A} (step : A → result E unit) xs :
  try_each step xs = Ok tt ↔ Forall (λ x, step x = Ok tt) xs.
Proof.
  unfold try_each. induction xs as [|x xs IH]; cbn; [by split|].
  rewrite Forall_cons, <- IH.
  destruct (step x) as [[]|e]; cbn; [tauto|]. split; [done | by intros []].
Qed.

Lemma try_fold_app {E S A} (step : S → A → result E S) s xs ys :
  try_fold step s (xs ++ ys) = try_fold step s xs ≫= λ s', try_fold step s' ys.
Proof.
  revert s. induction xs as [|x xs IH]; intros s; [done|]. cbn. destruct (step s x); [apply IH|done].
Qed.

Lemma try_fold_ind {E S A} (P : S → Prop) (step : S → A → result E S) s xs s' :
  (∀ s x s', x ∈ xs → P s → step s x = Ok s' → P s') →
  P s → try_fold step s xs = Ok s' → P s'.
Proof.
  revert s. induction xs as [|x xs IH]; intros s Hstep Hs; cbn.
  - by intros [= <-].
  - destruct (step s x) as [s1|e] eqn:Hx; cbn; [|done]. intros Hr.
    eapply (IH s1); [|eapply Hstep; [left|done|done]|done].
    intros. eapply Hstep; [right|..]; eauto.
Qed.

(** ** Machine integers, as [Z] with their width written out *)

Definition u64_max : Z := 2 ^ 64 - 1.
Definition u32_max : Z := 2 ^ 32 - 1.
Definition u8_max : Z := 2 ^ 8 - 1.
Definition i64_max : Z := 2 ^ 63 - 1.
Definition i64_min : Z := - 2 ^ 63.

Definition wrap_u64 (z : Z) : Z := z mod 2 ^ 64.
Definition clamp_i64 (z : Z) : Z := Z.max i64_min (Z.min i64_max z).
Definition saturating_add_i64 (a b : Z) : Z := clamp_i64 (a + b).
Definition saturating_sub_i64 (a b : Z) : Z := clamp_i64 (a - b).
Definition saturating_add_u64 (a b : Z) : Z := Z.min u64_max (a + b).
Definition saturating_sub_u64 (a b : Z) : Z := Z.max 0 (a - b).
Definition saturating_add_u8 (a b : Z) : Z := Z.min u8_max (a + b).
Definition wrapping_add_u64 (a b : Z) : Z := wrap_u64 (a + b).
Definition wrapping_mul_u64 (a b : Z) : Z := wrap_u64 (a * b).

(** [a.wrapping_add(b)] at [u64]; [a.saturating_add(b)] and
    [a.saturating_sub(b)] at [i64]. *)
Infix "+%" := wrapping_add_u64 (at level 50, left associativity) : rust_scope.
Infix "+|" := saturating_add_i64 (at level 50, left associativity) : rust_scope.
Infix "-|" := saturating_sub_i64 (at level 50, left associativity) : rust_scope.

Definition is_u64 (z : Z) : Prop := (0 ≤ z ≤ u64_max)%Z.
Definition is_i64 (z : Z) : Prop := (i64_min ≤ z ≤ i64_max)%Z.

(** *** Monotonic instants and durations, in nanoseconds *)

Definition MS : Z := 1000000.
Definition SEC : Z := 1000 * MS.
(** [later.duration_since(earlier)], which saturates at zero. *)
Definition duration_since (later earlier : Z) : Z := Z.max 0 (later - earlier).
(** [now.checked_sub(d).unwrap_or(now)], for a clock whose earliest instant is
    [-2^63] seconds. *)
Definition instant_min : Z := - 2 ^ 63 * SEC.
Definition checked_sub_instant (now d : Z) : Z :=
  if (now - d <? instant_min)%Z then now else (now - d)%Z.

Lemma wrap_u64_range z : is_u64 (wrap_u64 z).
Proof.
  unfold is_u64, wrap_u64, u64_max.
  pose proof (Z.mod_pos_bound z (2 ^ 64) ltac:(lia)). lia.
Qed.

Lemma wrap_u64_small z : is_u64 z → wrap_u64 z = z.
Proof. unfold is_u64, wrap_u64, u64_max. intros. apply Z.mod_small. lia. Qed.

Lemma wrapping_succ_u64 z : (0 ≤ z < u64_max)%Z → wrapping_add_u64 z 1 = (z + 1)%Z.
Proof. intros. apply wrap_u64_small. unfold is_u64. lia. Qed.

Lemma clamp_i64_range z : is_i64 (clamp_i64 z).
Proof. unfold is_i64, clamp_i64, i64_min, i64_max. lia. Qed.

Lemma clamp_i64_id z : is_i64 z → clamp_i64 z = z.
Proof. unfold is_i64, clamp_i64, i64_min, i64_max. lia. Qed.

#[export] Hint Resolve wrap_u64_range clamp_i64_range : mahoquot.

(** ** Orders given as boolean tests

    The code orders by keys ([sort_by_key], [min_by_key], ...).  A strict weak
    order is what those functions need of the comparison; the instances below
    build the comparisons of the code out of integer and string keys. *)

Class StrictWeak {A : Type} (ltb : A → A → bool) : Prop := {
  sw_irrefl : ∀ x, ltb x x = false;
  sw_trans : ∀ x y z, ltb x y = true → ltb y z = true → ltb x z = true;
  sw_cotrans : ∀ x y z, ltb x z = true → ltb x y = true ∨ ltb y z = true;
}.

Definition on_key {A K : Type} (ltk : K → K → bool) (key : A → K) (x y : A) : bool :=
  ltk (key x) (key y).

(** Lexicographic product of two comparisons on the same type. *)
Definition lex {A : Type} (lt1 lt2 : A → A → bool) (x y : A) : bool :=
  lt1 x y || (negb (lt1 y x) && lt2 x y).

(** What is left when [y] does not come before [x]. *)
Lemma lex_false {A : Type} (lt1 lt2 : A → A → bool) (x y : A) :
  lex lt1 lt2 y x = false ↔ lt1 y x = false ∧ (lt1 x y = true ∨ lt2 y x = false).
Proof. unfold lex. destruct (lt1 y x), (lt1 x y), (lt2 y x); cbn; naive_solver. Qed.

Lemma StronglySorted_mono {A : Type} (R S : A → A → Prop) (l : list A) :
  (∀ x y, R x y → S x y) → StronglySorted R l → StronglySorted S l.
Proof.
  intros HRS. induction 1 as [|x l _ IH Hx]; constructor; [done|].
  eapply list.Forall_impl; [exact Hx|]. auto.
Qed.

(** [String]'s [Ord]: bytewise lexicographic. *)
Definition string_ltb (s t : string) : bool := negb (String.leb t s).

Definition bool_ltb (a b : bool) : bool := negb a && b.

Global Instance on_key_sw {A K} (ltk : K → K → bool) (key : A → K) :
  StrictWeak ltk → StrictWeak (on_key ltk key).
Proof. intros [Hi Ht Hc]. split; unfold on_key; eauto. Qed.

Global Instance Z_ltb_sw : StrictWeak Z.ltb.
Proof.
  split; intros.
  - apply Z.ltb_irrefl.
  - apply Z.ltb_lt in H, H0. apply Z.ltb_lt. lia.
  - rewrite !Z.ltb_lt in *. lia.
Qed.

Global Instance Nat_ltb_sw : StrictWeak Nat.ltb.
Proof.
  split; intros.
  - apply Nat.ltb_irrefl.
  - rewrite !Nat.ltb_lt in *. lia.
  - rewrite !Nat.ltb_lt in *. lia.
Qed.

Global Instance bool_ltb_sw : StrictWeak bool_ltb.
Proof.
  split.
  - by intros [].
  - by intros [] [] [].
  - intros [] [] []; cbn; intuition congruence.
Qed.

Lemma flip_sw {A} (ltb : A → A → bool) :
  StrictWeak ltb → StrictWeak (flip ltb).
Proof. intros [Hi Ht Hc]. split; unfold flip; eauto. intros x y z H. destruct (Hc _ y _ H); auto. Qed.

Lemma sw_asym {A} (ltb : A → A → bool) `{!StrictWeak ltb} x y :
  ltb x y = true → ltb y x = false.
Proof.
  intros H. destruct (ltb y x) eqn:E; [|done].
  pose proof (sw_trans x y x H E) as Hxx. by rewrite (sw_irrefl (ltb:=ltb)) in Hxx.
Qed.

Lemma sw_neg_trans {A} (ltb : A → A → bool) `{!StrictWeak ltb} x y z :
  ltb x y = false → ltb y z = false → ltb x z = false.
Proof.
  intros H1 H2. destruct (ltb x z) eqn:E; [|done].
  destruct (sw_cotrans x y z E); congruence.
Qed.

Global Instance string_ltb_sw : StrictWeak string_ltb.
Proof.
  assert (Htr : ∀ a b c, String.leb a b = true → String.leb b c = true →
                          String.leb a c = true).
  { intros a b c H1%Is_true_true H2%Is_true_true. apply Is_true_true.
    exact (transitivity (R:=String.le) H1 H2). }
  assert (Hcmp : ∀ a b, String.leb a b = false → String.leb b a = true).
  { intros a b H. destruct (String.leb_total a b); congruence. }
  split; unfold string_ltb; intros *; rewrite ?negb_true_iff, ?negb_false_iff.
  - destruct (String.leb_total x x); done.
  - intros Hyx Hzy. destruct (String.leb z x) eqn:E; [|done].
    rewrite (Htr z x y E (Hcmp _ _ Hyx)) in Hzy. done.
  - intros Hzx. destruct (String.leb y x) eqn:E; [right|by left].
    destruct (String.leb z y) eqn:E2; [|done]. by rewrite (Htr z y x) in Hzx.
Qed.

Lemma string_ltb_total s t : string_ltb s t = false → string_ltb t s = false → s = t.
Proof.
  unfold string_ltb. rewrite !negb_false_iff. intros. by apply String.leb_antisym.
Qed.

Global Instance lex_sw {A} (lt1 lt2 : A → A → bool) :
  StrictWeak lt1 → StrictWeak lt2 → StrictWeak (lex lt1 lt2).
Proof.
  intros H1 H2. split; unfold lex.
  - intros x. by rewrite (sw_irrefl (ltb:=lt1)), (sw_irrefl (ltb:=lt2)).
  - intros x y z. rewrite !orb_true_iff, !andb_true_iff, !negb_true_iff.
    intros [Hxy|[Hyx Hxy]] [Hyz|[Hzy Hyz]].
    + left. eapply sw_trans; eauto.
    + left. destruct (sw_cotrans x z y Hxy); congruence.
    + left. destruct (sw_cotrans y x z Hyz); congruence.
    + right. split; [eapply (sw_neg_trans lt1); eauto | eapply sw_trans; eauto].
  - intros x y z. rewrite !orb_true_iff, !andb_true_iff, !negb_true_iff.
    intros [Hxz|[Hzx Hxz]].
    + destruct (sw_cotrans x y z Hxz); auto.
    + destruct (lt1 x y) eqn:Hxy; [auto|]. destruct (lt1 y z) eqn:Hyz; [auto|].
      destruct (lt1 y x) eqn:Hyx.
      { destruct (sw_cotrans y z x Hyx); congruence. }
      destruct (lt1 z y) eqn:Hzy.
      { destruct (sw_cotrans z x y Hzy); congruence. }
      destruct (sw_cotrans x y z Hxz); auto.
Qed.

(** ** Iterator adaptors *)

(** [Iterator::position]: index of the first element that satisfies [p]. *)
Fixpoint position {A} (p : A → bool) (l : list A) : option nat :=
  match l with
  | [] => None
  | x :: l => if p x then Some 0%nat else S <$> position p l
  end.

Lemma position_Some {A} (p : A → bool) l i :
  position p l = Some i ↔
  ∃ x, l !! i = Some x ∧ p x = true ∧ ∀ j y, (j < i)%nat → l !! j = Some y → p y = false.
Proof.
  revert i. induction l as [|x l IH]; intros i; cbn.
  - split; [done|]. by intros (? & ? & _).
  - destruct (p x) eqn:Hx.
    + split.
      * intros [= <-]. exists x. repeat split; [done..|]. intros; lia.
      * intros (y & Hi & Hy & Hj). destruct i as [|i]; [done|].
        specialize (Hj 0%nat x ltac:(lia) eq_refl). congruence.
    + destruct i as [|i].
      * split; [by destruct (position p l)|]. intros (y & [= ->] & Hy & _). congruence.
      * rewrite fmap_Some. split.
        -- intros (i' & Hp & [= ->]). apply IH in Hp as (y & Hi & Hy & Hj).
           exists y. repeat split; [done..|]. intros [|j] z Hlt Hz; cbn in Hz.
           ++ congruence.
           ++ eapply (Hj j); [lia|done].
        -- intros (y & Hi & Hy & Hj). exists i. split; [|done].
           apply IH. exists y. repeat split; [done..|].
           intros j z Hlt Hz. apply (Hj (S j) z); [lia|done].
Qed.

Lemma position_None {A} (p : A → bool) l :
  position p l = None ↔ ∀ x, x ∈ l → p x = false.
Proof.
  induction l as [|x l IH]; cbn.
  - split; [|done]. intros _ x Hx. by apply elem_of_nil in Hx.
  - destruct (p x) eqn:Hx.
    + split; [done|]. intros H. rewrite (H x) in Hx; [done|left].
    + rewrite fmap_None, IH. split.
      * intros H y [->|Hy]%elem_of_cons; auto.
      * intros H y Hy. apply H. by right.
Qed.

Lemma existsb_false {A} (f : A → bool) l x : existsb f l = false → x ∈ l → f x = false.
Proof.
  intros Hf Hx. destruct (f x) eqn:E; [|done].
  rewrite <- Hf. symmetry. apply existsb_exists. exists x. split; [by apply list_elem_of_In|done].
Qed.

Lemma filter_all {A} (P : A → Prop) `{∀ x, Decision (P x)} (l : list A) :
  (∀ x, x ∈ l → P x) → filter P l = l.
Proof.
  induction l as [|x l IH]; intros Hall; [done|].
  rewrite filter_cons_True by (apply Hall; left). f_equal. apply IH. intros y Hy.
  apply Hall. by right.
Qed.

Lemma filter_none {A} (P : A → Prop) `{∀ x, Decision (P x)} (l : list A) :
  (∀ x, x ∈ l → ¬ P x) → filter P l = [].
Proof.
  induction l as [|x l IH]; intros Hall; [done|].
  rewrite filter_cons_False by (apply Hall; left). apply IH. intros y Hy.
  apply Hall. by right.
Qed.

(** [Iterator::min_by_key] keeps the first minimum, [max_by_key] the last maximum. *)
Section min_max.
Context {A : Type} (ltb : A → A → bool).

Fixpoint min_from (acc : A) (l : list A) : A :=
  match l with
  | [] => acc
  | x :: l => min_from (if ltb x acc then x else acc) l
  end.
Definition min_by (l : list A) : option A :=
  match l with [] => None | x :: l => Some (min_from x l) end.

Fixpoint max_from (acc : A) (l : list A) : A :=
  match l with
  | [] => acc
  | x :: l => max_from (if ltb x acc then acc else x) l
  end.
Definition max_by (l : list A) : option A :=
  match l with [] => None | x :: l => Some (max_from x l) end.

Context `{!StrictWeak ltb}.

Lemma min_from_elem acc l : min_from acc l = acc ∨ min_from acc l ∈ l.
Proof.
  revert acc. induction l as [|x l IH]; intros acc; cbn; [by left|].
  destruct (IH (if ltb x acc then x else acc)) as [->|H].
  - case_if; [right; left|by left].
  - right. by right.
Qed.

Lemma min_from_le acc l y :
  y = acc ∨ y ∈ l → ltb y (min_from acc l) = false.
Proof.
  revert acc y. induction l as [|x l IH]; intros acc y; cbn.
  - intros [->|Hy]; [apply (sw_irrefl (ltb:=ltb)) | by apply elem_of_nil in Hy].
  - intros [->|[->|Hy]%elem_of_cons].
    + destruct (ltb x acc) eqn:E; [|by apply IH; left].
      eapply (sw_neg_trans ltb); [by apply (sw_asym ltb) | by apply IH; left].
    + destruct (ltb x acc) eqn:E; [by apply IH; left|].
      eapply (sw_neg_trans ltb); [exact E | by apply IH; left].
    + apply IH. by right.
Qed.

Lemma min_by_Some l m : min_by l = Some m → m ∈ l ∧ ∀ y, y ∈ l → ltb y m = false.
Proof.
  destruct l as [|x l]; cbn; [done|]. intros [= <-]. split.
  - destruct (min_from_elem x l) as [->|]; [left|by right].
  - intros y [->|Hy]%elem_of_cons; apply min_from_le; auto.
Qed.

Lemma max_from_elem acc l : max_from acc l = acc ∨ max_from acc l ∈ l.
Proof.
  revert acc. induction l as [|x l IH]; intros acc; cbn; [by left|].
  destruct (IH (if ltb x acc then acc else x)) as [->|H].
  - case_if; [by left|right; left].
  - right. by right.
Qed.

Lemma max_from_ge acc l y :
  y = acc ∨ y ∈ l → ltb (max_from acc l) y = false.
Proof.
  revert acc y. induction l as [|x l IH]; intros acc y; cbn.
  - intros [->|Hy]; [apply (sw_irrefl (ltb:=ltb)) | by apply elem_of_nil in Hy].
  - intros [->|[->|Hy]%elem_of_cons].
    + destruct (ltb x acc) eqn:E; [by apply IH; left|].
      eapply (sw_neg_trans ltb); [by apply IH; left | done].
    + destruct (ltb x acc) eqn:E; [|by apply IH; left].
      eapply (sw_neg_trans ltb); [by apply IH; left | by apply (sw_asym ltb)].
    + apply IH. by right.
Qed.

Lemma max_by_Some l m : max_by l = Some m → m ∈ l ∧ ∀ y, y ∈ l → ltb m y = false.
Proof.
  destruct l as [|x l]; cbn; [done|]. intros [= <-]. split.
  - destruct (max_from_elem x l) as [->|]; [left|by right].
  - intros y [->|Hy]%elem_of_cons; apply max_from_ge; auto.
Qed.
End min_max.

Lemma min_by_None {A} (ltb : A → A → bool) l : min_by ltb l = None ↔ l = [].
Proof. by destruct l. Qed.

Lemma max_by_None {A} (ltb : A → A → bool) l : max_by ltb l = None ↔ l = [].
Proof. by destruct l. Qed.

(** [slice::sort_by] / [sort_by_key] are stable; insertion sort is the stable
    sort the rest of the development reasons with. *)
Section stable_sort.
Context {A : Type} (ltb : A → A → bool).

Fixpoint insert_sorted (x : A) (l : list A) : list A :=
  match l with
  | [] => [x]
  | y :: l => if ltb y x then y :: insert_sorted x l else x :: y :: l
  end.
Definition sort_by (l : list A) : list A := foldr insert_sorted [] l.

Lemma insert_sorted_Permutation x l : insert_sorted x l ≡ₚ x :: l.
Proof.
  induction l as [|y l IH]; cbn; [done|]. case_if; [|done].
  rewrite IH. apply Permutation_swap.
Qed.

Lemma sort_by_Permutation l : sort_by l ≡ₚ l.
Proof.
  induction l as [|x l IH]; cbn; [done|].
  by rewrite insert_sorted_Permutation, IH.
Qed.

Lemma sort_by_elem_of x l : x ∈ sort_by l ↔ x ∈ l.
Proof. by rewrite sort_by_Permutation. Qed.

Lemma sort_by_length l : length (sort_by l) = length l.
Proof. apply Permutation_length, sort_by_Permutation. Qed.

Context `{!StrictWeak ltb}.

Lemma insert_sorted_sorted x l :
  StronglySorted (λ a b, ltb b a = false) l →
  StronglySorted (λ a b, ltb b a = false) (insert_sorted x l).
Proof.
  induction l as [|y l IH]; cbn; intros Hs.
  - repeat constructor.
  - inversion Hs as [|? ? Hs' Hall]; subst.
    destruct (ltb y x) eqn:E.
    + constructor; [by apply IH|].
      rewrite insert_sorted_Permutation. constructor; [by apply (sw_asym ltb)|done].
    + constructor; [done|]. constructor; [done|].
      eapply Forall_impl; [exact Hall|]. cbn. intros z Hz.
      eapply (sw_neg_trans ltb); eauto.
Qed.

Lemma sort_by_sorted l : StronglySorted (λ a b, ltb b a = false) (sort_by l).
Proof. induction l as [|x l IH]; cbn; [constructor | by apply insert_sorted_sorted]. Qed.

(** The head of the sorted list is a minimum. *)
Lemma sort_by_head l x r y :
  sort_by l = x :: r → y ∈ l → ltb y x = false.
Proof.
  intros Hs Hy. pose proof (sort_by_sorted l) as HS. rewrite Hs in HS.
  inversion HS as [|? ? _ Hall]; subst.
  rewrite <- sort_by_elem_of, Hs in Hy. apply elem_of_cons in Hy as [->|Hy].
  - apply (sw_irrefl (ltb:=ltb)).
  - by eapply Forall_forall in Hall.
Qed.
End stable_sort.

(** A duplicate-free list of fewer than [n] numbers misses a number below [n]. *)
Lemma list_exist_not (l : list nat) (n : nat) :
  NoDup l → (length l < n)%nat → ∃ j, (j < n)%nat ∧ j ∉ l.
Proof.
  intros Hnd Hlen.
  destruct (decide (Exists (λ j, j ∉ l) (seq 0 n))) as [He|He].
  - apply Exists_exists in He as (j & Hj & Hjl). apply elem_of_seq in Hj.
    exists j. split; [lia|done].
  - apply not_Exists_Forall in He; [|solve_decision].
    assert (length (seq 0 n) ≤ length l)%nat; [|rewrite length_seq in *; lia].
    apply submseteq_length, NoDup_submseteq; [apply NoDup_seq|].
    intros j Hj. eapply list.Forall_forall in He; [|done]. cbn in He.
    by destruct (decide (j ∈ l)).
Qed.

Lemma length_filter_seq (i n : nat) :
  (i < n)%nat → length (filter (λ j, j = i) (seq 0 n)) = 1%nat.
Proof.
  intros Hi. assert (Hp : filter (λ j, j = i) (seq 0 n) ≡ₚ [i]); [|by rewrite Hp].
  apply NoDup_Permutation.
  - apply NoDup_filter, NoDup_seq.
  - apply NoDup_singleton.
  - intros j. rewrite list_elem_of_filter, elem_of_seq, list_elem_of_singleton. lia.
Qed.

(** ** Ordered iteration

    A [BTreeMap] keyed by strings is a [gmap]; what its iterators add is the
    key order, which [btree_entries] makes explicit. *)

Definition btree_entries {V} (m : gmap string V) : list (string * V) :=
  sort_by (on_key string_ltb fst) (map_to_list m).
Definition btree_values {V} (m : gmap string V) : list V := (btree_entries m).*2.
Definition btree_keys {V} (m : gmap string V) : list string := (btree_entries m).*1.
Definition btree_elements (s : gset string) : list string :=
  sort_by string_ltb (elements s).

Lemma elem_of_btree_entries {V} (m : gmap string V) k v :
  (k, v) ∈ btree_entries m ↔ m !! k = Some v.
Proof. unfold btree_entries. by rewrite sort_by_elem_of, elem_of_map_to_list. Qed.

Lemma elem_of_btree_values {V} (m : gmap string V) v :
  v ∈ btree_values m ↔ ∃ k, m !! k = Some v.
Proof.
  unfold btree_values. rewrite list_elem_of_fmap. split.
  - intros ([k v'] & -> & H%elem_of_btree_entries). eauto.
  - intros [k H%elem_of_btree_entries]. by exists (k, v).
Qed.

Lemma elem_of_btree_keys {V} (m : gmap string V) k :
  k ∈ btree_keys m ↔ is_Some (m !! k).
Proof.
  unfold btree_keys. rewrite list_elem_of_fmap. split.
  - intros ([k' v] & -> & H%elem_of_btree_entries). eauto.
  - intros [v H%elem_of_btree_entries]. by exists (k, v).
Qed.

Lemma NoDup_btree_keys {V} (m : gmap string V) : NoDup (btree_keys m).
Proof.
  unfold btree_keys, btree_entries. rewrite sort_by_Permutation.
  apply NoDup_fst_map_to_list.
Qed.

Lemma elem_of_btree_elements (s : gset string) x : x ∈ btree_elements s ↔ x ∈ s.
Proof. unfold btree_elements. by rewrite sort_by_elem_of, elem_of_elements. Qed.

#[export] Hint Rewrite @elem_of_btree_entries @elem_of_btree_values
  @elem_of_btree_keys elem_of_btree_elements : mahoquot.
