(* ===== verification/Slots.v ===== *)
(** * Sorting some slots of a list

    Both orderings of Claude accounts take the slots of the candidate list that hold
    accounts of a certain kind, sort what is in them and write it back: everything
    else keeps its place. *)

From stdpp Require Import list sorting.
From S2P Require Import Prelude.

(** The slots of [ordered] whose entry satisfies [p]. *)
Fixpoint slots_of (p : nat → bool) (slot : nat) (ordered : list nat) : list nat :=
  match ordered with
  | [] => []
  | index :: rest =>
      if p index then slot :: slots_of p (S slot) rest else slots_of p (S slot) rest
  end.

(** The entries of those slots, sorted, written back. *)
Definition sort_slots (p : nat → bool) (ltb : nat → nat → bool) (ordered : list nat) : list nat :=
  let slots := slots_of p 0 ordered in
  let claude := omap (λ slot, ordered !! slot) slots in
  foldl (λ l si, <[si.1 := si.2]> l) ordered (zip slots (sort_by ltb claude)).

Section slots.
Context (p : nat → bool).
Implicit Types (l cs : list nat).

(** The write-back as one pass: each slot takes the next entry. *)
Fixpoint refill (ordered claude : list nat) : list nat :=
  match ordered, claude with
  | [], _ => []
  | i :: rest, c :: cs =>
      if p i then c :: refill rest cs else i :: refill rest (c :: cs)
  | _, [] => ordered
  end.

Lemma slots_lookup l : ∀ pre,
  omap (λ slot, (pre ++ l) !! slot) (slots_of p (length pre) l) = filter (λ i, p i = true) l.
Proof.
  induction l as [|i l IH]; intros pre; [done|]. cbn [slots_of].
  specialize (IH (pre ++ [i])). rewrite <- (assoc_L (++)), length_app in IH. cbn in IH.
  rewrite Nat.add_1_r in IH. rewrite filter_cons.
  destruct (p i) eqn:E.
  - rewrite decide_True by done. cbn. rewrite lookup_app_r, Nat.sub_diag by lia. cbn.
    by rewrite IH.
  - rewrite decide_False by done. exact IH.
Qed.

Lemma refill_foldl l : ∀ pre cs,
  length cs = length (filter (λ i, p i = true) l) →
  foldl (λ l si, <[si.1 := si.2]> l) (pre ++ l) (zip (slots_of p (length pre) l) cs)
  = pre ++ refill l cs.
Proof.
  induction l as [|i l IH]; intros pre cs Hlen; cbn [slots_of].
  { by destruct cs. }
  rewrite filter_cons in Hlen. destruct (p i) eqn:E.
  - rewrite decide_True in Hlen by done. destruct cs as [|c cs]; [done|]. cbn.
    rewrite insert_app_r_alt, Nat.sub_diag by lia. cbn.
    specialize (IH (pre ++ [c]) cs). rewrite <- !(assoc_L (++)), length_app in IH. cbn in IH.
    rewrite Nat.add_1_r in IH. rewrite E. apply IH. cbn in Hlen. lia.
  - rewrite decide_False in Hlen by done.
    specialize (IH (pre ++ [i]) cs Hlen). rewrite <- !(assoc_L (++)), length_app in IH.
    cbn in IH. rewrite Nat.add_1_r in IH. rewrite IH. cbn. destruct cs as [|c cs].
    + by destruct l.
    + by rewrite E.
Qed.

Lemma refill_spec l : ∀ cs,
  length cs = length (filter (λ i, p i = true) l) →
  Forall (λ i, p i = true) cs →
  length (refill l cs) = length l ∧
  filter (λ i, p i = true) (refill l cs) = cs ∧
  filter (λ i, p i ≠ true) (refill l cs) = filter (λ i, p i ≠ true) l ∧
  (∀ k i, l !! k = Some i → p i = false → refill l cs !! k = Some i) ∧
  (∀ k i, l !! k = Some i → p i = true → ∃ j, refill l cs !! k = Some j ∧ p j = true).
Proof.
  induction l as [|i l IH]; intros cs Hlen Hall.
  { cbn in *. by destruct cs. }
  rewrite filter_cons in Hlen. destruct (p i) eqn:E.
  - rewrite decide_True in Hlen by done. destruct cs as [|c cs]; [done|].
    apply list.Forall_cons in Hall as [Hc Hall]. cbn in Hlen. injection Hlen as Hlen.
    destruct (IH cs Hlen Hall) as (IH1 & IH2 & IH3 & IH4 & IH5). cbn [refill]. rewrite E.
    rewrite (filter_cons_True _ c), !filter_cons_False by (rewrite ?Hc, ?E; tauto).
    rewrite IH2, IH3. cbn. split_and!; [lia|done..| |].
    + intros [|k] j Hj Hf; cbn in *; [congruence|by apply IH4].
    + intros [|k] j Hj Hf; cbn in *; [by eexists|by eapply IH5].
  - rewrite decide_False in Hlen by done.
    destruct (IH cs Hlen Hall) as (IH1 & IH2 & IH3 & IH4 & IH5).
    assert (Hr : refill (i :: l) cs = i :: refill l cs).
    { cbn. destruct cs; [|by rewrite E]. f_equal. by destruct l. }
    rewrite Hr, (filter_cons_False _ i), !filter_cons_True by (rewrite ?E; done).
    rewrite IH2, IH3. cbn. split_and!; [lia|done..| |].
    + intros [|k] j Hj Hf; cbn in *; [congruence|by apply IH4].
    + intros [|k] j Hj Hf; cbn in *; [congruence|by eapply IH5].
Qed.

Lemma filter_split (l : list nat) :
  l ≡ₚ filter (λ x, p x = true) l ++ filter (λ x, p x ≠ true) l.
Proof.
  induction l as [|x l IH]; [done|]. rewrite !filter_cons. destruct (p x) eqn:E.
  - rewrite decide_True, decide_False by tauto. cbn. by constructor.
  - rewrite decide_False, decide_True by done. rewrite <- Permutation_middle. by constructor.
Qed.

(** Sorting slots permutes the list, moves nothing outside the slots, keeps entries of
    the kind in them, and leaves those sorted. *)
Lemma sort_slots_spec ltb `{!StrictWeak ltb} l :
  let r := sort_slots p ltb l in
  r ≡ₚ l ∧
  (∀ k i, l !! k = Some i → p i = false → r !! k = Some i) ∧
  (∀ k i, l !! k = Some i → p i = true → ∃ j, r !! k = Some j ∧ p j = true) ∧
  StronglySorted (λ a b, ltb b a = false) (filter (λ i, p i = true) r).
Proof.
  cbn zeta. unfold sort_slots. pose proof (slots_lookup l []) as Hs. cbn [app length] in Hs.
  rewrite Hs. set (cs := sort_by ltb _).
  assert (Hlen : length cs = length (filter (λ i, p i = true) l)) by apply sort_by_length.
  assert (Hall : Forall (λ i, p i = true) cs).
  { apply list.Forall_forall. intros i Hi. unfold cs in Hi.
    rewrite sort_by_elem_of in Hi. by apply list_elem_of_filter in Hi as [? _]. }
  pose proof (refill_foldl l [] cs Hlen) as Hr. cbn [app length] in Hr. rewrite Hr.
  destruct (refill_spec l cs Hlen Hall) as (_ & H2 & H3 & H4 & H5).
  split_and!; [|done|done|].
  - etrans; [apply filter_split|]. rewrite H2, H3.
    etrans; [|symmetry; apply filter_split]. apply Permutation_app_tail, sort_by_Permutation.
  - rewrite H2. by apply sort_by_sorted.
Qed.

(** What does not tell the entries of the slots apart does not see the sort. *)
Lemma sort_slots_fmap {B} (f : nat → B) ltb `{!StrictWeak ltb} l :
  (∀ i j, i ∈ l → j ∈ l → p i = true → p j = true → f i = f j) →
  f <$> sort_slots p ltb l = f <$> l.
Proof.
  intros Hf. destruct (sort_slots_spec ltb l) as (Hp & H2 & H3 & _).
  apply list_eq_same_length with (length l); rewrite ?length_fmap; [done|by rewrite Hp|].
  intros k x y _. rewrite !list_lookup_fmap.
  destruct (l !! k) as [i|] eqn:Hi; [|by destruct (_ !! k)]. destruct (p i) eqn:Ei.
  - destruct (H3 k i Hi Ei) as (j & Hj & Ej). rewrite Hj. cbn. intros [= <-] [= <-].
    apply Hf; try done; [rewrite <- Hp|]; by eapply list_elem_of_lookup_2.
  - rewrite (H2 k i Hi Ei). cbn. congruence.
Qed.
End slots.
