(* ===== verification/RustStr.v ===== *)
(** * Rust string functions

    A [str] is the byte string of its UTF-8 encoding ([string], a list of
    8-bit [ascii]).  [split_chars] cuts it into characters, [code_point] decodes
    one, and the functions of [str] and [char] that the proxy calls are written
    on top: [trim], [to_ascii_lowercase], [strip_prefix], [starts_with],
    [split_once], [is_whitespace], [is_control], ... *)

From Stdlib Require Import Ascii String.
From stdpp Require Import base strings list.
From S2P Require Import Prelude.
Open Scope Z_scope.

Module RustStr.

Definition byte_of (a : ascii) : Z := Z.of_N (N_of_ascii a).

Definition is_continuation (a : ascii) : bool :=
  (128 <=? byte_of a) && (byte_of a <? 192).

Definition starts_continuation (s : string) : bool :=
  match s with String a _ => is_continuation a | EmptyString => false end.

(** [str::chars], each character as its bytes: a continuation byte belongs to
    the character before it. *)
Fixpoint split_chars (s : string) : list string :=
  match s with
  | EmptyString => []
  | String a s' =>
      match split_chars s' with
      | c :: cs => if starts_continuation c then String a c :: cs
                   else String a "" :: c :: cs
      | [] => [String a ""]
      end
  end.

Fixpoint concat_chars (cs : list string) : string :=
  match cs with [] => "" | c :: cs => c +:+ concat_chars cs end.

(** The scalar value of a one to four byte sequence. *)
Definition code_point (c : string) : Z :=
  match c with
  | String a EmptyString => byte_of a
  | String a (String b EmptyString) =>
      Z.lor (Z.shiftl (Z.land (byte_of a) 31) 6) (Z.land (byte_of b) 63)
  | String a (String b (String c EmptyString)) =>
      Z.lor (Z.shiftl (Z.land (byte_of a) 15) 12)
        (Z.lor (Z.shiftl (Z.land (byte_of b) 63) 6) (Z.land (byte_of c) 63))
  | String a (String b (String c (String d _))) =>
      Z.lor (Z.shiftl (Z.land (byte_of a) 7) 18)
        (Z.lor (Z.shiftl (Z.land (byte_of b) 63) 12)
          (Z.lor (Z.shiftl (Z.land (byte_of c) 63) 6) (Z.land (byte_of d) 63)))
  | EmptyString => 0
  end.

(** [char::is_whitespace] (the Unicode property White_Space) and
    [char::is_control] (the general category Cc). *)
Definition is_whitespace (c : string) : bool :=
  let p := code_point c in
  ((9 <=? p) && (p <=? 13)) || (p =? 32) || (p =? 133) || (p =? 160) ||
  (p =? 5760) || ((8192 <=? p) && (p <=? 8202)) || (p =? 8232) || (p =? 8233) ||
  (p =? 8239) || (p =? 8287) || (p =? 12288).

Definition is_control (c : string) : bool :=
  let p := code_point c in (p <=? 31) || ((127 <=? p) && (p <=? 159)).

Fixpoint drop_while {A} (p : A → bool) (l : list A) : list A :=
  match l with
  | [] => []
  | x :: l' => if p x then drop_while p l' else l
  end.

Definition trim_matches (p : string → bool) (s : string) : string :=
  concat_chars (reverse (drop_while p (reverse (drop_while p (split_chars s))))).
Definition trim (s : string) : string := trim_matches is_whitespace s.
Definition trim_start (s : string) : string :=
  concat_chars (drop_while is_whitespace (split_chars s)).
(** [trim_end_matches(c)] for an ASCII [c]. *)
Definition trim_end_matches (c : ascii) (s : string) : string :=
  concat_chars (reverse (drop_while (λ x, bool_decide (x = String c ""))
    (reverse (split_chars s)))).
Definition trim_start_matches (c : ascii) (s : string) : string :=
  concat_chars (drop_while (λ x, bool_decide (x = String c "")) (split_chars s)).

Definition is_empty (s : string) : bool :=
  match s with EmptyString => true | _ => false end.

Definition one_of (s : string) (l : list string) : bool := bool_decide (s ∈ l).
Definition strlen (s : string) : Z := Z.of_nat (String.length s).

Definition ascii_upper (a : ascii) : bool := (65 <=? byte_of a) && (byte_of a <=? 90).
Definition to_lower (a : ascii) : ascii :=
  if ascii_upper a then ascii_of_N (N_of_ascii a + 32) else a.

Fixpoint map_bytes (f : ascii → ascii) (s : string) : string :=
  match s with
  | EmptyString => ""
  | String a s => String (f a) (map_bytes f s)
  end.

Definition ascii_lower (a : ascii) : bool := (97 <=? byte_of a) && (byte_of a <=? 122).
Definition to_upper (a : ascii) : ascii :=
  if ascii_lower a then ascii_of_N (N_of_ascii a - 32) else a.
Definition to_ascii_uppercase (s : string) : string := map_bytes to_upper s.

Definition to_ascii_lowercase (s : string) : string := map_bytes to_lower s.
Definition eq_ignore_ascii_case (s t : string) : bool :=
  bool_decide (to_ascii_lowercase s = to_ascii_lowercase t).

(** [str::replace] of one ASCII character by another. *)
Definition replace_char (a b : ascii) (s : string) : string :=
  map_bytes (λ c, if bool_decide (c = a) then b else c) s.

Fixpoint strip_prefix (p s : string) : option string :=
  match p, s with
  | EmptyString, _ => Some s
  | String a p, String b s => if bool_decide (a = b) then strip_prefix p s else None
  | String _ _, EmptyString => None
  end.

Definition starts_with (s p : string) : bool :=
  match strip_prefix p s with Some _ => true | None => false end.

Definition reverse_str (s : string) : string :=
  string_of_list_ascii (reverse (list_ascii_of_string s)).
Definition strip_suffix (p s : string) : option string :=
  reverse_str <$> strip_prefix (reverse_str p) (reverse_str s).
Definition ends_with (s p : string) : bool :=
  match strip_suffix p s with Some _ => true | None => false end.

(** [str::contains]. *)
Fixpoint contains (s p : string) : bool :=
  starts_with s p ||
  match s with EmptyString => false | String _ s => contains s p end.

(** [str::split_once] at an ASCII character. *)
Fixpoint split_once (c : ascii) (s : string) : option (string * string) :=
  match s with
  | EmptyString => None
  | String a s =>
      if bool_decide (a = c) then Some ("", s)
      else '(l, r) ← split_once c s; Some (String a l, r)
  end.

(** [str::rsplit_once] at an ASCII character. *)
Fixpoint rsplit_once (c : ascii) (s : string) : option (string * string) :=
  match s with
  | EmptyString => None
  | String a s =>
      match rsplit_once c s with
      | Some (l, r) => Some (String a l, r)
      | None => if bool_decide (a = c) then Some ("", s) else None
      end
  end.

Definition is_ascii_digit (a : ascii) : bool := (48 <=? byte_of a) && (byte_of a <=? 57).

(** [str::bytes().all(p)]. *)
Fixpoint all_bytes (p : ascii → bool) (s : string) : bool :=
  match s with EmptyString => true | String a s => p a && all_bytes p s end.

(** *** Decimal numbers *)

Definition digit_val (a : ascii) : option Z :=
  if is_ascii_digit a then Some (byte_of a - 48) else None.
Fixpoint parse_digits (max acc : Z) (s : string) : option Z :=
  match s with
  | EmptyString => Some acc
  | String a s =>
      d ← digit_val a;
      let acc' := acc * 10 + d in
      if max <? acc' then None else parse_digits max acc' s
  end.
(** At least one digit, at most [max]. *)
Definition parse_magnitude (max : Z) (s : string) : option Z :=
  match s with EmptyString => None | _ => parse_digits max 0 s end.
(** [str::parse::<u64>()] (and [usize]): an optional [+], then decimal digits. *)
Definition parse_u64 (s : string) : option Z :=
  match s with
  | String "+"%char s => parse_magnitude u64_max s
  | s => parse_magnitude u64_max s
  end.
(** [str::parse::<i64>()]. *)
Definition parse_i64 (s : string) : option Z :=
  match s with
  | String "+"%char s => parse_magnitude i64_max s
  | String "-"%char s => Z.opp <$> parse_magnitude (2 ^ 63) s
  | s => parse_magnitude i64_max s
  end.

Definition digit_char (d : Z) : ascii := ascii_of_N (Z.to_N (d + 48)).
(** The decimal digits of a [u64], the shortest form, before [rest]. *)
Fixpoint show_digits (fuel : nat) (z : Z) (rest : string) : string :=
  match fuel with
  | O => rest
  | S fuel =>
      let s := String (digit_char (z mod 10)) rest in
      if z <? 10 then s else show_digits fuel (z / 10) s
  end.
Definition show_u64 (z : Z) : string := show_digits 20 z "".
Definition show_i64 (z : Z) : string :=
  if z <? 0 then String "-" (show_u64 (- z)) else show_u64 z.

(** [String::from_utf8] accepts the bytes. *)
Definition cont_byte (a : ascii) : bool := is_continuation a.
Definition byte_in (lo hi : Z) (a : ascii) : bool := (lo <=? byte_of a) && (byte_of a <=? hi).
Fixpoint valid_utf8 (s : string) : bool :=
  match s with
  | EmptyString => true
  | String a s1 =>
      if byte_in 0 127 a then valid_utf8 s1 else
      match s1 with
      | EmptyString => false
      | String b s2 =>
          if byte_in 194 223 a then cont_byte b && valid_utf8 s2 else
          match s2 with
          | EmptyString => false
          | String c s3 =>
              if byte_in 224 239 a then
                (if byte_of a =? 224 then byte_in 160 191 b
                 else if byte_of a =? 237 then byte_in 128 159 b else cont_byte b)
                && cont_byte c && valid_utf8 s3
              else
              match s3 with
              | EmptyString => false
              | String d s4 =>
                  byte_in 240 244 a &&
                  (if byte_of a =? 240 then byte_in 144 191 b
                   else if byte_of a =? 244 then byte_in 128 143 b else cont_byte b)
                  && cont_byte c && cont_byte d && valid_utf8 s4
              end
          end
      end
  end.

(** [str::split] at an ASCII character: at least one piece. *)
Fixpoint split (c : ascii) (s : string) : list string :=
  match s with
  | EmptyString => [""]
  | String a s =>
      if bool_decide (a = c) then "" :: split c s
      else match split c s with
           | p :: ps => String a p :: ps
           | [] => [String a ""]
           end
  end.

(** ** Laws *)

Lemma append_nil_r (s : string) : s +:+ "" = s.
Proof. induction s as [|a s IH]; [done|]. exact (f_equal (String a) IH). Qed.

Lemma append_assoc (s t u : string) : (s +:+ t) +:+ u = s +:+ (t +:+ u).
Proof. induction s as [|a s IH]; [done|]. exact (f_equal (String a) IH). Qed.

Lemma split_chars_concat s : concat_chars (split_chars s) = s.
Proof.
  induction s as [|a s IH]; cbn; [done|].
  destruct (split_chars s) as [|c cs]; cbn in *.
  - by rewrite <- IH.
  - destruct (starts_continuation c); cbn; by rewrite <- IH.
Qed.

Lemma drop_while_none {A} (p : A → bool) l :
  Forall (λ x, p x = false) l → drop_while p l = l.
Proof. destruct 1 as [|x l Hx _]; cbn; [done|by rewrite Hx]. Qed.

(** A string with no whitespace is its own trimming. *)
Lemma trim_id s : Forall (λ c, is_whitespace c = false) (split_chars s) → trim s = s.
Proof.
  intros Hs. unfold trim, trim_matches.
  rewrite (drop_while_none _ _ Hs), drop_while_none.
  - by rewrite reverse_involutive, split_chars_concat.
  - by rewrite reverse_Permutation.
Qed.

Lemma strip_prefix_Some p s r : strip_prefix p s = Some r ↔ s = p +:+ r.
Proof.
  revert s. induction p as [|a p IH]; intros s; cbn.
  - split; [by intros [= ->]|by intros ->].
  - destruct s as [|b s]; [done|]. cbn. case_bool_decide; subst.
    + rewrite IH. split; [by intros ->|by intros [= ->]].
    + split; [done|by intros [= ? ?]].
Qed.

Lemma starts_with_iff s p : starts_with s p = true ↔ ∃ r, s = p +:+ r.
Proof.
  unfold starts_with. destruct (strip_prefix p s) as [r|] eqn:E.
  - apply strip_prefix_Some in E. split; eauto.
  - split; [done|]. intros [r Hr%strip_prefix_Some]. congruence.
Qed.

Lemma split_once_Some c s l r : split_once c s = Some (l, r) → s = l +:+ String c r.
Proof.
  revert l. induction s as [|a s IH]; intros l; cbn; [done|].
  case_bool_decide; subst; [by intros [= <- <-]|].
  destruct (split_once c s) as [[l' r']|]; cbn; [|done].
  intros [= <- <-]. by rewrite (IH l' eq_refl) at 1.
Qed.

Lemma rsplit_once_None c s :
  all_bytes (λ a, negb (bool_decide (a = c))) s = true → rsplit_once c s = None.
Proof.
  induction s as [|a s IH]; cbn; [done|]. intros [Ha Hs]%andb_true_iff. rewrite (IH Hs).
  by case_bool_decide.
Qed.

Lemma rsplit_once_app c l r :
  all_bytes (λ a, negb (bool_decide (a = c))) r = true →
  rsplit_once c (l +:+ String c r) = Some (l, r).
Proof.
  intros Hr. induction l as [|a l IH].
  - change ("" +:+ String c r) with (String c r). cbn [rsplit_once].
    by rewrite (rsplit_once_None _ _ Hr), bool_decide_eq_true_2.
  - change (String a l +:+ String c r) with (String a (l +:+ String c r)). cbn [rsplit_once].
    by rewrite IH.
Qed.

Lemma rsplit_once_Some c s l r : rsplit_once c s = Some (l, r) → s = l +:+ String c r.
Proof.
  revert l. induction s as [|a s IH]; intros l; cbn; [done|].
  destruct (rsplit_once c s) as [[l' r']|].
  - intros [= <- <-]. by rewrite (IH l' eq_refl) at 1.
  - case_bool_decide; [|done]. intros [= <- <-]. by subst.
Qed.

Lemma split_nonempty c s : split c s ≠ [].
Proof.
  destruct s as [|a s]; cbn; [done|]. case_bool_decide; [done|]. by destruct (split c s).
Qed.

Lemma to_lower_idemp a : to_lower (to_lower a) = to_lower a.
Proof. destruct a as [[] [] [] [] [] [] [] []]; vm_compute; reflexivity. Qed.

Lemma to_ascii_lowercase_idemp s :
  to_ascii_lowercase (to_ascii_lowercase s) = to_ascii_lowercase s.
Proof.
  unfold to_ascii_lowercase. induction s as [|a s IH]; cbn; [done|].
  by rewrite to_lower_idemp, IH.
Qed.

(** *** Decimal round trip *)

Lemma digit_char_val d : 0 ≤ d ≤ 9 → digit_val (digit_char d) = Some d.
Proof.
  intros Hd. assert (E : byte_of (digit_char d) = d + 48).
  { unfold byte_of, digit_char. rewrite N_ascii_embedding by lia. lia. }
  unfold digit_val, is_ascii_digit. rewrite E.
  rewrite (proj2 (Z.leb_le 48 _)), (proj2 (Z.leb_le _ 57)) by lia. cbn. f_equal. lia.
Qed.

Lemma show_digits_parse max fuel : ∀ z rest,
  0 ≤ z < 10 ^ Z.of_nat fuel → z ≤ max → fuel ≠ O →
  parse_digits max 0 (show_digits fuel z rest) = parse_digits max z rest.
Proof.
  induction fuel as [|fuel IH]; intros z rest Hz Hm Hf; [done|]. cbn [show_digits].
  pose proof (Z.mod_pos_bound z 10 ltac:(lia)). pose proof (Z.div_mod z 10 ltac:(lia)).
  destruct (Z.ltb_spec z 10).
  - cbn [parse_digits]. rewrite Z.mod_small, digit_char_val by lia. cbn [mbind option_bind].
    replace (0 * 10 + z) with z by lia. by rewrite (proj2 (Z.ltb_ge max z)) by lia.
  - assert (Hp : 10 ^ Z.of_nat (S fuel) = 10 * 10 ^ Z.of_nat fuel)
      by (rewrite Nat2Z.inj_succ, Z.pow_succ_r; lia).
    assert (0 < z / 10) by (apply Z.div_str_pos; lia).
    assert (z / 10 < 10 ^ Z.of_nat fuel) by (apply Z.div_lt_upper_bound; lia).
    rewrite IH; [|lia..|intros ->; cbn in *; lia].
    cbn [parse_digits]. rewrite digit_char_val by lia. cbn [mbind option_bind].
    replace (z / 10 * 10 + z mod 10) with z by lia. by rewrite (proj2 (Z.ltb_ge max z)) by lia.
Qed.

Lemma digit_char_digit d : 0 ≤ d ≤ 9 → is_ascii_digit (digit_char d) = true.
Proof. intros Hd%digit_char_val. unfold digit_val in Hd. by destruct (is_ascii_digit _). Qed.

Lemma show_digits_head fuel : ∀ z rest,
  0 ≤ z → fuel ≠ O → ∃ a s, show_digits fuel z rest = String a s ∧ is_ascii_digit a = true.
Proof.
  induction fuel as [|fuel IH]; intros z rest Hz Hf; [done|]. cbn [show_digits].
  pose proof (Z.mod_pos_bound z 10 ltac:(lia)).
  assert (Hd : is_ascii_digit (digit_char (z mod 10)) = true) by (apply digit_char_digit; lia).
  destruct (Z.ltb_spec z 10); [by eexists _, _|].
  destruct fuel; [by eexists _, _|]. apply IH; [|done]. by apply Z.div_pos.
Qed.

Lemma parse_u64_digit a s :
  is_ascii_digit a = true → parse_u64 (String a s) = parse_digits u64_max 0 (String a s).
Proof. destruct a as [[] [] [] [] [] [] [] []]; vm_compute is_ascii_digit; done. Qed.

Lemma parse_show_u64 z : is_u64 z → parse_u64 (show_u64 z) = Some z.
Proof.
  intros [Hz Hm]. unfold show_u64.
  destruct (show_digits_head 20 z "" Hz) as (a & s & E & Ha); [done|].
  rewrite E, parse_u64_digit, <- E by done. rewrite show_digits_parse; [done| |done|done].
  unfold u64_max in Hm. split; [done|]. cbn. lia.
Qed.

Lemma all_bytes_app p a b : all_bytes p (a +:+ b) = all_bytes p a && all_bytes p b.
Proof.
  induction a as [|x a IH]; [done|].
  change (String x a +:+ b) with (String x (a +:+ b)). cbn [all_bytes]. by rewrite IH, andb_assoc.
Qed.

Lemma all_bytes_impl (p q : ascii → bool) s :
  (∀ a, p a = true → q a = true) → all_bytes p s = true → all_bytes q s = true.
Proof.
  intros Hpq. induction s as [|a s IH]; cbn; [done|]. intros [Ha Hs]%andb_true_iff.
  by rewrite Hpq, IH.
Qed.

Lemma show_u64_digits fuel : ∀ z rest,
  all_bytes is_ascii_digit rest = true → all_bytes is_ascii_digit (show_digits fuel z rest) = true.
Proof.
  induction fuel as [|fuel IH]; intros z rest Hr; [done|]. cbn [show_digits].
  assert (Hd : is_ascii_digit (digit_char (z mod 10)) = true).
  { apply digit_char_digit. pose proof (Z.mod_pos_bound z 10 ltac:(lia)). lia. }
  destruct (z <? 10); [|apply IH]; cbn [all_bytes]; by rewrite Hd.
Qed.

Lemma show_u64_inj a b : is_u64 a → is_u64 b → show_u64 a = show_u64 b → a = b.
Proof. intros Ha Hb E. apply parse_show_u64 in Ha, Hb. rewrite E in Ha. congruence. Qed.

(** Cutting after the first byte that is not a digit. *)
Lemma digits_cut d d' c s s' :
  all_bytes is_ascii_digit d = true → all_bytes is_ascii_digit d' = true →
  is_ascii_digit c = false → d +:+ String c s = d' +:+ String c s' → d = d' ∧ s = s'.
Proof.
  revert d'. induction d as [|a d IH]; intros [|a' d'] Hd Hd' Hc E; cbn in *.
  - by injection E.
  - injection E as -> _. by rewrite Hc in Hd'.
  - injection E as -> _. by rewrite Hc in Hd.
  - injection E as -> E. apply andb_true_iff in Hd as [_ Hd], Hd' as [_ Hd'].
    destruct (IH d' Hd Hd' Hc E) as [-> ->]. done.
Qed.

Lemma append_same_length (p q s t : string) :
  String.length p = String.length q → p +:+ s = q +:+ t → p = q ∧ s = t.
Proof.
  revert q. induction p as [|a p IH]; intros [|b q] Hl E; cbn in *; try done.
  injection E as -> E. injection Hl as Hl. destruct (IH q Hl E) as [-> ->]. done.
Qed.

(** *** Substrings *)

Abbreviation chars := list_ascii_of_string.

Lemma chars_app s t : chars (s +:+ t) = chars s ++ chars t.
Proof.
  induction s as [|a s IH]; [done|].
  change (a :: chars (s +:+ t) = a :: (chars s ++ chars t)). by rewrite IH.
Qed.

Lemma chars_length s : length (chars s) = String.length s.
Proof. induction s; cbn; congruence. Qed.

Lemma strlen_app a b : strlen (a +:+ b) = strlen a + strlen b.
Proof. unfold strlen. rewrite <- !chars_length, chars_app, length_app. lia. Qed.

Lemma strlen_nonneg a : 0 ≤ strlen a.
Proof. unfold strlen. lia. Qed.

Lemma chars_inj s t : chars s = chars t → s = t.
Proof.
  intros E. rewrite <- (string_of_list_ascii_of_string s), E. apply string_of_list_ascii_of_string.
Qed.

Lemma contains_iff s p : contains s p = true ↔ ∃ l r, chars s = l ++ chars p ++ r.
Proof.
  induction s as [|a s IH]; cbn [contains].
  - rewrite orb_false_r, starts_with_iff. split.
    + intros [r Hr]. exists [], (chars r). by rewrite Hr, chars_app.
    + intros (l & r & Hl). exists "". symmetry in Hl.
      apply app_eq_nil in Hl as [_ [Hp _]%app_eq_nil]. by apply (chars_inj p "") in Hp as ->.
  - rewrite orb_true_iff, starts_with_iff, IH. split.
    + intros [[r Hr]|(l & r & Hl)].
      * exists [], (chars r). by rewrite Hr, chars_app.
      * exists (a :: l), r. cbn. by rewrite Hl.
    + intros ([|b l] & r & Hl); cbn in Hl.
      * left. exists (string_of_list_ascii r). apply chars_inj.
        rewrite chars_app, list_ascii_of_string_of_list_ascii. exact Hl.
      * right. injection Hl as -> Hl. eauto.
Qed.

(** Appending characters a pattern does not end with does not make it occur. *)
Lemma contains_app_r s t q c :
  (c ∉ chars t) → contains (s +:+ t) (q +:+ String c "") = contains s (q +:+ String c "").
Proof.
  intros Hc. apply eq_bool_prop_intro. rewrite !Is_true_true, !contains_iff, !chars_app. split.
  - intros (l & r & E). rewrite app_assoc in E. symmetry in E.
    apply app_eq_inv in E as [(k & E1 & E2)|(k & E1 & E2)].
    + destruct k as [|x k _] using rev_ind.
      * exists l, []. rewrite app_nil_r in *. by rewrite E1.
      * exfalso. apply Hc. rewrite E2. rewrite !app_assoc in E1. apply app_inj_tail in E1 as [_ <-].
        apply elem_of_app. left. apply elem_of_app. right. left.
    + exists l, k. rewrite E1. by rewrite <- app_assoc.
  - intros (l & r & ->). exists l, (r ++ chars t). by rewrite <- !app_assoc.
Qed.

(** *** Trimming twice, and in lower case *)

Definition tail_char (c : string) : Prop :=
  ∃ a t, c = String a t ∧ all_bytes is_continuation t = true.

(** Characters as [split_chars] cuts them. *)
Fixpoint chars_ok (cs : list string) : Prop :=
  match cs with
  | [] => True
  | c :: cs => tail_char c ∧ Forall (λ d, starts_continuation d = false) cs ∧ chars_ok cs
  end.

Lemma split_chars_ok s : chars_ok (split_chars s).
Proof.
  induction s as [|a s IH]; cbn; [done|]. destruct (split_chars s) as [|c cs]; cbn in *.
  - split_and!; [by exists a, ""|done..].
  - destruct IH as (Hc & Hcs & Hok). destruct (starts_continuation c) eqn:E; cbn.
    + split_and!; [|done..]. destruct Hc as (b & t & -> & Ht). exists a, (String b t). split; [done|].
      cbn in *. by rewrite E, Ht.
    + split_and!; [by exists a, ""| |done..]. by constructor.
Qed.

Lemma split_chars_cont t s : all_bytes is_continuation t = true → t ≠ "" →
  (∀ c cs, split_chars s = c :: cs → starts_continuation c = false) →
  split_chars (t +:+ s) = t :: split_chars s.
Proof.
  intros Ht Hne Hs. induction t as [|a t IH]; [done|]. cbn in Ht. apply andb_true_iff in Ht as [Ha Ht].
  destruct t as [|b t].
  - change (String a "" +:+ s) with (String a s). cbn [split_chars].
    destruct (split_chars s) as [|c cs]; [done|]. by rewrite (Hs c cs).
  - change (String a (String b t) +:+ s) with (String a (String b t +:+ s)).
    cbn [split_chars]. rewrite IH by done.
    cbn in Ht. apply andb_true_iff in Ht as [Hb _]. cbn [starts_continuation]. by rewrite Hb.
Qed.

Lemma split_concat_chars cs : chars_ok cs → split_chars (concat_chars cs) = cs.
Proof.
  induction cs as [|c cs IH]; cbn; [done|]. intros ((a & t & -> & Ht) & Hcs & Hok).
  specialize (IH Hok).
  assert (Hh : ∀ c cs', split_chars (concat_chars cs) = c :: cs' → starts_continuation c = false).
  { rewrite IH. intros c cs' ->. by inversion Hcs. }
  change (String a t +:+ concat_chars cs) with (String a (t +:+ concat_chars cs)).
  cbn [split_chars]. destruct t as [|b t].
  - change ("" +:+ concat_chars cs) with (concat_chars cs). rewrite IH in *.
    destruct cs as [|c cs]; [done|]. by rewrite (Hh c cs).
  - rewrite split_chars_cont, IH by done. cbn in Ht. apply andb_true_iff in Ht as [Hb _].
    cbn [starts_continuation]. by rewrite Hb.
Qed.

Lemma chars_ok_app l k : chars_ok (l ++ k) → chars_ok l ∧ chars_ok k.
Proof.
  induction l as [|c l IH]; cbn; [done|]. intros (H1 & H2 & H3). apply Forall_app in H2 as [H2 _].
  destruct (IH H3). done.
Qed.

Lemma split_chars_snoc s c : is_continuation c = false →
  split_chars (s +:+ String c "") = split_chars s ++ [String c ""].
Proof.
  intros Hc. induction s as [|a s IH]; [done|].
  change (String a s +:+ String c "") with (String a (s +:+ String c "")). cbn [split_chars]. rewrite IH.
  destruct (split_chars s) as [|d ds]; cbn [app starts_continuation]; [by rewrite Hc|].
  by destruct (starts_continuation d).
Qed.

Lemma trim_end_matches_snoc c s : is_continuation c = false →
  trim_end_matches c (s +:+ String c "") = trim_end_matches c s.
Proof.
  intros Hc. unfold trim_end_matches. rewrite split_chars_snoc, reverse_app by done.
  change (reverse [String c ""]) with [String c ""]. cbn [app drop_while].
  by rewrite bool_decide_eq_true_2.
Qed.

Lemma all_bytes_chars (p : ascii → bool) s : all_bytes p s = true →
  Forall (λ c, all_bytes p c = true) (split_chars s).
Proof.
  induction s as [|a s IH]; cbn [all_bytes split_chars]; [constructor|].
  intros [Ha Hs]%andb_true_iff. specialize (IH Hs). destruct IH as [|c cs Hc Hcs].
  - constructor; [|constructor]. cbn. by rewrite Ha.
  - destruct (starts_continuation c); constructor; cbn [all_bytes]; rewrite ?Ha; try done. by constructor.
Qed.

Lemma trim_end_matches_id c s : all_bytes (λ a, negb (bool_decide (a = c))) s = true →
  trim_end_matches c s = s.
Proof.
  intros H%all_bytes_chars. unfold trim_end_matches. rewrite drop_while_none.
  - by rewrite reverse_involutive, split_chars_concat.
  - rewrite reverse_Permutation. eapply Forall_impl; [exact H|]. intros x Hx. cbn in Hx |- *.
    apply bool_decide_eq_false. intros ->. cbn in Hx. by rewrite bool_decide_eq_true_2 in Hx.
Qed.

Lemma drop_while_suffix {A} (p : A → bool) l : ∃ k, l = k ++ drop_while p l.
Proof.
  induction l as [|x l [k IH]]; cbn; [by exists []|]. destruct (p x); [|by exists []].
  exists (x :: k). cbn. by f_equal.
Qed.

Lemma drop_while_head {A} (p : A → bool) l x k : drop_while p l = x :: k → p x = false.
Proof.
  induction l as [|y l IH]; cbn; [done|]. destruct (p y) eqn:E; [done|]. by intros [= -> ->].
Qed.

Lemma drop_while_idemp {A} (p : A → bool) l : drop_while p (drop_while p l) = drop_while p l.
Proof.
  destruct (drop_while p l) as [|x k] eqn:E; [done|]. cbn. by rewrite (drop_while_head _ _ _ _ E).
Qed.

Definition trimmed (p : string → bool) (cs : list string) : list string :=
  reverse (drop_while p (reverse (drop_while p cs))).

(** A trimmed list starts and ends with characters that stay. *)
Lemma trimmed_idemp p cs : trimmed p (trimmed p cs) = trimmed p cs.
Proof.
  unfold trimmed. set (l := drop_while p cs).
  assert (Hl : drop_while p l = l) by apply drop_while_idemp. clearbody l.
  destruct (drop_while_suffix p (reverse l)) as [k Hk].
  set (r := drop_while p (reverse l)) in *.
  assert (Hr : drop_while p r = r) by apply drop_while_idemp.
  assert (El : l = reverse r ++ reverse k) by by rewrite <- reverse_app, <- Hk, reverse_involutive.
  clearbody r. assert (Hd : drop_while p (reverse r) = reverse r).
  { destruct (reverse r) as [|x t]; [done|]. rewrite El in Hl. cbn in Hl |- *. destruct (p x) eqn:E; [|done].
    exfalso. destruct (drop_while_suffix p (t ++ reverse k)) as [q Hq]. rewrite Hl in Hq.
    apply (f_equal length) in Hq. rewrite !length_app in Hq. cbn in Hq. rewrite ?length_app in Hq. lia. }
  rewrite Hd, reverse_involutive. by rewrite Hr.
Qed.

Lemma trimmed_ok p cs : chars_ok cs → chars_ok (trimmed p cs).
Proof.
  intros H. unfold trimmed. destruct (drop_while_suffix p cs) as [k Hk].
  set (l := drop_while p cs) in *. rewrite Hk in H. apply chars_ok_app in H as [_ H]. clearbody l.
  destruct (drop_while_suffix p (reverse l)) as [q Hq]. set (r := drop_while p (reverse l)) in *.
  assert (El : l = reverse r ++ reverse q) by by rewrite <- reverse_app, <- Hq, reverse_involutive.
  rewrite El in H. by apply chars_ok_app in H as [H _].
Qed.

Lemma split_chars_trim s : split_chars (trim s) = trimmed is_whitespace (split_chars s).
Proof. unfold trim, trim_matches. apply split_concat_chars. apply trimmed_ok, split_chars_ok. Qed.

Lemma trim_idemp s : trim (trim s) = trim s.
Proof.
  unfold trim at 1, trim_matches. rewrite split_chars_trim.
  change (concat_chars (trimmed is_whitespace (trimmed is_whitespace (split_chars s))) = trim s).
  by rewrite trimmed_idemp.
Qed.

Lemma is_continuation_lower a : is_continuation (to_lower a) = is_continuation a.
Proof. by destruct a as [[] [] [] [] [] [] [] []]. Qed.

Lemma starts_continuation_lower c :
  starts_continuation (to_ascii_lowercase c) = starts_continuation c.
Proof. destruct c; [done|]. apply is_continuation_lower. Qed.

Lemma split_chars_lower s :
  split_chars (to_ascii_lowercase s) = to_ascii_lowercase <$> split_chars s.
Proof.
  induction s as [|a s IH]; [done|]. unfold to_ascii_lowercase in *. cbn [map_bytes split_chars]. rewrite IH.
  destruct (split_chars s) as [|c cs]; [done|]. rewrite fmap_cons.
  change (map_bytes to_lower c) with (to_ascii_lowercase c). rewrite starts_continuation_lower.
  by destruct (starts_continuation c).
Qed.

Lemma low_bits_lower a k : k ∈ [31; 15; 7] →
  Z.land (byte_of (to_lower a)) k = Z.land (byte_of a) k.
Proof.
  rewrite !elem_of_cons, elem_of_nil.
  intros [->|[->|[->|[]]]]; by destruct a as [[] [] [] [] [] [] [] []].
Qed.

Lemma cont_lower a : is_continuation a = true → to_lower a = a.
Proof. by destruct a as [[] [] [] [] [] [] [] []]. Qed.

Lemma is_whitespace_lower c : tail_char c →
  is_whitespace (to_ascii_lowercase c) = is_whitespace c.
Proof.
  intros (a & t & -> & Ht). unfold to_ascii_lowercase. cbn [map_bytes].
  assert (E : map_bytes to_lower t = t).
  { clear -Ht. induction t as [|b t IH]; [done|]. cbn in *. apply andb_true_iff in Ht as [Hb Ht].
    by rewrite cont_lower, IH. }
  rewrite E. destruct t as [|b [|c [|d t]]].
  - by destruct a as [[] [] [] [] [] [] [] []].
  - unfold is_whitespace. cbn [code_point]. by rewrite low_bits_lower by (repeat constructor).
  - unfold is_whitespace. cbn [code_point]. by rewrite low_bits_lower by (repeat constructor).
  - unfold is_whitespace. cbn [code_point]. by rewrite low_bits_lower by (repeat constructor).
Qed.

Lemma chars_ok_Forall cs : chars_ok cs → Forall tail_char cs.
Proof. induction cs as [|c cs IH]; [by constructor|]. intros (H1 & _ & H3). constructor; auto. Qed.

Lemma drop_while_lower cs : Forall tail_char cs →
  drop_while is_whitespace (to_ascii_lowercase <$> cs)
  = to_ascii_lowercase <$> drop_while is_whitespace cs.
Proof.
  induction 1 as [|c cs Hc _ IH]; [done|]. rewrite fmap_cons. cbn [drop_while].
  rewrite is_whitespace_lower by done. by destruct (is_whitespace c).
Qed.

Lemma Forall_drop_while {A} (P : A → Prop) p l : Forall P l → Forall P (drop_while p l).
Proof. intros H. destruct (drop_while_suffix p l) as [k Hk]. rewrite Hk in H. by apply Forall_app in H as [_ H]. Qed.

Lemma trimmed_lower cs : Forall tail_char cs →
  trimmed is_whitespace (to_ascii_lowercase <$> cs) = to_ascii_lowercase <$> trimmed is_whitespace cs.
Proof.
  intros H. unfold trimmed. rewrite drop_while_lower, <- fmap_reverse, drop_while_lower, <- fmap_reverse; try done.
  apply Forall_reverse. by apply Forall_drop_while.
Qed.

Lemma map_bytes_app f s t : map_bytes f (s +:+ t) = map_bytes f s +:+ map_bytes f t.
Proof.
  induction s as [|a s IH]; [done|]. change (String a s +:+ t) with (String a (s +:+ t)). cbn [map_bytes].
  by rewrite IH.
Qed.

Lemma concat_chars_lower cs :
  concat_chars (to_ascii_lowercase <$> cs) = to_ascii_lowercase (concat_chars cs).
Proof.
  induction cs as [|c cs IH]; [done|]. rewrite fmap_cons. cbn [concat_chars]. rewrite IH.
  unfold to_ascii_lowercase. by rewrite map_bytes_app.
Qed.

Lemma trim_lower s : trim (to_ascii_lowercase s) = to_ascii_lowercase (trim s).
Proof.
  unfold trim, trim_matches. rewrite split_chars_lower.
  change (concat_chars (trimmed is_whitespace (to_ascii_lowercase <$> split_chars s))
          = to_ascii_lowercase (concat_chars (trimmed is_whitespace (split_chars s)))).
  rewrite trimmed_lower by apply chars_ok_Forall, split_chars_ok. apply concat_chars_lower.
Qed.

(** A text that was trimmed and lowered stays as it is. *)
Lemma lower_trim_idemp s :
  to_ascii_lowercase (trim (to_ascii_lowercase (trim s))) = to_ascii_lowercase (trim s).
Proof. by rewrite trim_lower, trim_idemp, to_ascii_lowercase_idemp. Qed.

(** *** Numbers as text *)

Lemma parse_i64_digit a s :
  is_ascii_digit a = true → parse_i64 (String a s) = parse_digits i64_max 0 (String a s).
Proof. destruct a as [[] [] [] [] [] [] [] []]; vm_compute is_ascii_digit; done. Qed.

Lemma parse_show_i64 z : 0 ≤ z ≤ i64_max → parse_i64 (show_i64 z) = Some z.
Proof.
  intros [Hz Hm]. unfold show_i64. rewrite (proj2 (Z.ltb_ge z 0)) by done. unfold show_u64.
  destruct (show_digits_head 20 z "" Hz) as (a & s & E & Ha); [done|].
  rewrite E, parse_i64_digit, <- E by done. rewrite show_digits_parse; [done| |done|done].
  unfold i64_max in Hm. split; [done|]. cbn. lia.
Qed.

Lemma parse_digits_range max : ∀ s acc z, 0 ≤ acc ≤ max → parse_digits max acc s = Some z → 0 ≤ z ≤ max.
Proof.
  induction s as [|a s IH]; intros acc z Hacc; cbn; [by intros [= <-]|].
  unfold digit_val. destruct (is_ascii_digit a) eqn:Ha; [|done]. cbn.
  unfold is_ascii_digit in Ha. apply andb_true_iff in Ha as [H1%Z.leb_le H2%Z.leb_le].
  destruct (Z.ltb_spec max (acc * 10 + (byte_of a - 48))); [done|]. apply IH. lia.
Qed.

Lemma parse_magnitude_range max s z : 0 ≤ max → parse_magnitude max s = Some z → 0 ≤ z ≤ max.
Proof. intros Hm. destruct s; [done|]. apply parse_digits_range. lia. Qed.

Lemma parse_i64_range s z : parse_i64 s = Some z → is_i64 z.
Proof.
  assert (Hpos : ∀ s, parse_magnitude i64_max s = Some z → is_i64 z).
  { intros s' H%parse_magnitude_range; unfold is_i64, i64_max, i64_min in *; lia. }
  assert (Hneg : ∀ s, Z.opp <$> parse_magnitude (2 ^ 63) s = Some z → is_i64 z).
  { intros s' (m & H & ->)%fmap_Some. apply parse_magnitude_range in H; [|lia].
    unfold is_i64, i64_max, i64_min in *. lia. }
  destruct s as [|a s]; [apply (Hpos "")|].
  destruct a as [[] [] [] [] [] [] [] []]; first [apply Hpos | apply Hneg | apply (Hpos (String _ s))].
Qed.

Lemma digits_plain s : all_bytes is_ascii_digit s = true →
  trim s = s ∧ to_ascii_lowercase s = s.
Proof.
  intros H. split.
  - apply trim_id. induction s as [|a s IH]; [constructor|]. cbn in H. apply andb_true_iff in H as [Ha Hs].
    specialize (IH Hs). cbn [split_chars].
    assert (Hc : ∀ c cs, split_chars s = c :: cs → starts_continuation c = false).
    { intros c cs E. pose proof (split_chars_concat s) as Hcat. rewrite E in Hcat. destruct c as [|b c].
      - done.
      - cbn in Hcat. subst s. cbn in Hs. apply andb_true_iff in Hs as [Hb _].
        by destruct b as [[] [] [] [] [] [] [] []]. }
    assert (Hw : is_whitespace (String a "") = false) by by destruct a as [[] [] [] [] [] [] [] []].
    destruct (split_chars s) as [|c cs]; [by repeat constructor|]. rewrite (Hc c cs) by done. by constructor.
  - unfold to_ascii_lowercase. induction s as [|a s IH]; [done|]. cbn in *. apply andb_true_iff in H as [Ha Hs].
    rewrite (IH Hs). f_equal. by destruct a as [[] [] [] [] [] [] [] []].
Qed.

End RustStr.
