(* ===== verification/F64.v ===== *)
(** * Rust's [f64]

    IEEE-754 doubles as the standard library's [SpecFloat] at precision 53 and
    exponent bound 1024, with the comparisons and the rounding cast the code uses
    on percentages. *)

From Stdlib Require Import SpecFloat.
From stdpp Require Import base numbers.
From S2P Require Import Prelude.
Open Scope Z_scope.

Module F64.

Definition f64 := spec_float.
Definition f64_of_Z (z : Z) : f64 := binary_normalize 53 1024 z 0 false.

Definition f64_ltb (a b : f64) : bool :=
  match SFcompare a b with Some Lt => true | _ => false end.

(** [a >= b]; false when either is NaN. *)
Definition f64_geb (a b : f64) : bool :=
  match SFcompare a b with Some Gt | Some Eq => true | _ => false end.

Definition f64_clamp (x lo hi : f64) : f64 :=
  if f64_ltb x lo then lo else if f64_ltb hi x then hi else x.

(** [f64::round] of a non-negative value (half away from zero) followed by
    [as u8]: NaN is 0, out of range saturates. *)
Definition round_as_u8 (x : f64) : Z :=
  match x with
  | S754_finite false m e =>
      Z.min u8_max (if 0 <=? e then Z.shiftl (Z.pos m) e
                    else Z.shiftr (Z.pos m + Z.shiftl 1 (- e - 1)) (- e))
  | S754_infinity false => u8_max
  | _ => 0
  end.

End F64.
