(* ===== verification/RegistryTypes.v ===== *)
(** * Registry domain types (crates/registry/src/lib.rs, first half)

    Identifiers and their validation, catalog sources and their precedence,
    provider policies, authority masks, capabilities, bindings and how two
    bindings for one provider merge, descriptors, and the contribution a
    provider makes to the catalog. *)

From Stdlib Require Import Ascii.
From stdpp Require Import gmap strings list pretty.
From S2P Require Import Prelude RustStr.
Import RustStr.
Open Scope Z_scope.

(** [ProviderId] and [ModelId] are newtypes around [String]; their [Ord] is the
    string order.  [usize] depths are [nat]. *)
Abbreviation ProviderId := string (only parsing).
Abbreviation ModelId := string (only parsing).

Inductive CatalogSource :=
  | EmbeddedFallback | LkgCache | RemoteSigned | Discovered | LocalOverride.

Inductive ProviderPolicy := PolicyClosed | PolicyDiscovered | PolicyOpen.

Inductive ModelCapability :=
  | Chat | Image | Video | Realtime | CountTokens | Embedding | Audio | Tools.

Global Instance CatalogSource_eq_dec : EqDecision CatalogSource.
Proof. solve_decision. Defined.
Global Instance ProviderPolicy_eq_dec : EqDecision ProviderPolicy.
Proof. solve_decision. Defined.
Global Instance ModelCapability_eq_dec : EqDecision ModelCapability.
Proof. solve_decision. Defined.

Definition capability_index (c : ModelCapability) : nat :=
  match c with
  | Chat => 0 | Image => 1 | Video => 2 | Realtime => 3
  | CountTokens => 4 | Embedding => 5 | Audio => 6 | Tools => 7
  end.
Definition all_capabilities : list ModelCapability :=
  [Chat; Image; Video; Realtime; CountTokens; Embedding; Audio; Tools].

Global Program Instance ModelCapability_countable : Countable ModelCapability :=
  inj_countable capability_index (λ n, all_capabilities !! n) _.
Next Obligation. by intros []. Qed.

Abbreviation Capabilities := (gset ModelCapability).

Module Registry.

Definition MAX_ALIAS_DEPTH : nat := 10.

Inductive RegistryError :=
  | EmptyProviderId
  | InvalidProviderId (id reason : string)
  | EmptyModelId
  | InvalidModelId (id reason : string)
  | UnknownModel (m : ModelId)
  | UnknownProvider (p : ProviderId)
  | AliasCycle (alias : ModelId) (cycle : list ModelId)
  | AliasDepthExceeded (alias : ModelId) (depth max_depth : nat)
  | UnknownAliasTarget (alias target : ModelId)
  | DuplicateAlias (alias : ModelId)
  | DuplicateBinding (model_id : ModelId) (provider_id : ProviderId)
  | UnauthorizedContribution (provider_id : ProviderId) (policy : ProviderPolicy)
      (model_id : ModelId)
  | ModelExcluded (model_id : ModelId)
  | NoRoutableModels
  | ProviderBlackout (provider_id : ProviderId)
  | SerializationError (msg : string)
  | DeserializationError (msg : string).

(** ** Identifiers *)

Definition blank_or_control (c : string) : bool := is_whitespace c || is_control c.

Definition ProviderId_new (raw : string) : result RegistryError ProviderId :=
  let trimmed := trim raw in
  if is_empty trimmed then Err EmptyProviderId
  else if existsb blank_or_control (split_chars raw) then
    Err (InvalidProviderId raw
           "provider id must not contain whitespace or control characters")
  else Ok trimmed.

Definition ProviderId_canonical (s : string) : result RegistryError ProviderId :=
  let raw := trim s in
  let lower := to_ascii_lowercase raw in
  let normalized :=
    if bool_decide (lower = "openai") then "codex"
    else if bool_decide (lower = "anthropic") then "claude"
    else if bool_decide (lower = "google-vertex") then "vertex"
    else lower in
  ProviderId_new normalized.

Definition ProviderId_vertex : ProviderId := "vertex".

Definition ModelId_new (raw : string) : result RegistryError ModelId :=
  let trimmed := trim raw in
  if is_empty trimmed then Err EmptyModelId
  else if existsb blank_or_control (split_chars raw) then
    Err (InvalidModelId raw
           "model id must not contain whitespace or control characters")
  else Ok trimmed.

(** ** Sources, policies, authority, capabilities *)

Definition precedence (s : CatalogSource) : Z :=
  match s with
  | EmbeddedFallback => 1 | LkgCache => 2 | RemoteSigned => 3
  | Discovered => 4 | LocalOverride => 5
  end.

Definition is_higher_precedence_than (s other : CatalogSource) : bool :=
  precedence other <? precedence s.

Record AuthorityMask := {
  auth_models : bool;
  auth_capabilities : bool;
  auth_aliases : bool;
  auth_prefixes : bool;
  auth_upstream_id : bool;
}.

Definition mask_NONE : AuthorityMask :=
  {| auth_models := false; auth_capabilities := false; auth_aliases := false;
     auth_prefixes := false; auth_upstream_id := false |}.
Definition mask_ALL : AuthorityMask :=
  {| auth_models := true; auth_capabilities := true; auth_aliases := true;
     auth_prefixes := true; auth_upstream_id := true |}.

Definition mask_union (a b : AuthorityMask) : AuthorityMask :=
  {| auth_models := auth_models a || auth_models b;
     auth_capabilities := auth_capabilities a || auth_capabilities b;
     auth_aliases := auth_aliases a || auth_aliases b;
     auth_prefixes := auth_prefixes a || auth_prefixes b;
     auth_upstream_id := auth_upstream_id a || auth_upstream_id b |}.

Definition as_str (c : ModelCapability) : string :=
  match c with
  | Chat => "chat" | Image => "image" | Video => "video" | Realtime => "realtime"
  | CountTokens => "count_tokens" | Embedding => "embedding"
  | Audio => "audio" | Tools => "tools"
  end.

Definition from_str_loose (s : string) : option ModelCapability :=
  let normalized := replace_char "-"%char "_"%char (to_ascii_lowercase (trim s)) in
  if one_of normalized ["chat"; "text"; "completions"] then Some Chat
  else if one_of normalized ["image"; "images"] then Some Image
  else if one_of normalized ["video"; "videos"] then Some Video
  else if one_of normalized ["realtime"] then Some Realtime
  else if one_of normalized ["count_tokens"; "counttokens"; "tokenize"]
  then Some CountTokens
  else if one_of normalized ["embedding"; "embeddings"] then Some Embedding
  else if one_of normalized ["audio"] then Some Audio
  else if one_of normalized ["tools"; "function_calling"] then Some Tools
  else None.

(** ** Bindings *)

Record ProviderBinding := {
  provider_id : ProviderId;
  policy : ProviderPolicy;
  source : CatalogSource;
  upstream_model_id : option string;
  capabilities : Capabilities;
  authority : AuthorityMask;
  priority : Z; (* i32 *)
}.

Definition ProviderBinding_new (p : ProviderId) (pol : ProviderPolicy)
    (s : CatalogSource) : ProviderBinding :=
  {| provider_id := p; policy := pol; source := s; upstream_model_id := None;
     capabilities := ∅; authority := mask_ALL; priority := 0 |}.

Definition with_capabilities (b : ProviderBinding) (caps : Capabilities) : ProviderBinding :=
  {| provider_id := provider_id b; policy := policy b; source := source b;
     upstream_model_id := upstream_model_id b; capabilities := caps;
     authority := authority b; priority := priority b |}.

Definition with_authority (b : ProviderBinding) (a : AuthorityMask) : ProviderBinding :=
  {| provider_id := provider_id b; policy := policy b; source := source b;
     upstream_model_id := upstream_model_id b; capabilities := capabilities b;
     authority := a; priority := priority b |}.

Definition effective_upstream_id (b : ProviderBinding) (fallback : ModelId) : string :=
  default fallback (upstream_model_id b).

Definition incoming_wins (self incoming : ProviderBinding) : bool :=
  is_higher_precedence_than (source incoming) (source self) ||
  (bool_decide (source self = source incoming) && (priority self <? priority incoming)).

Definition merge_with (self incoming : ProviderBinding) : ProviderBinding :=
  let ia := authority incoming in
  let authority' := mask_union (authority self) ia in
  if incoming_wins self incoming then
    {| provider_id := provider_id self;
       policy := policy incoming;
       source := source incoming;
       upstream_model_id :=
         if auth_upstream_id ia && is_some (upstream_model_id incoming)
         then upstream_model_id incoming else upstream_model_id self;
       capabilities :=
         if auth_capabilities ia then capabilities incoming else capabilities self;
       authority := authority';
       priority := priority incoming |}
  else if bool_decide (source self = source incoming) && (priority incoming =? priority self)
  then
    {| provider_id := provider_id self;
       policy := policy self;
       source := source self;
       upstream_model_id :=
         if auth_upstream_id ia && negb (is_some (upstream_model_id self))
         then upstream_model_id incoming else upstream_model_id self;
       capabilities :=
         if auth_capabilities ia then capabilities self ∪ capabilities incoming
         else capabilities self;
       authority := authority';
       priority := priority self |}
  else
    {| provider_id := provider_id self;
       policy := policy self;
       source := source self;
       upstream_model_id :=
         if negb (auth_upstream_id (authority self)) && auth_upstream_id ia
            && is_some (upstream_model_id incoming)
         then upstream_model_id incoming else upstream_model_id self;
       capabilities :=
         if negb (auth_capabilities (authority self)) && auth_capabilities ia
         then capabilities incoming else capabilities self;
       authority := authority';
       priority := priority self |}.

(** ** Descriptors *)

Record ThinkingSupport := {
  th_min : Z; (* i64 *)
  th_max : Z; (* i64 *)
  zero_allowed : bool;
  dynamic_allowed : bool;
  levels : list string;
}.

Inductive ThinkingCapability :=
  | ThinkingUnknown
  | Unsupported
  | Supported (s : ThinkingSupport).

Record ModelDescriptor := {
  id : ModelId;
  owned_by : string;
  display_name : option string;
  desc_capabilities : Capabilities;
  bindings : gmap ProviderId ProviderBinding;
  desc_aliases : gset ModelId;
  metadata : gmap string string;
}.

Definition ModelDescriptor_new (i : ModelId) (owner : string) : ModelDescriptor :=
  {| id := i; owned_by := owner; display_name := None; desc_capabilities := ∅;
     bindings := ∅; desc_aliases := ∅; metadata := ∅ |}.

Definition with_bindings (d : ModelDescriptor) (bs : gmap ProviderId ProviderBinding)
  : ModelDescriptor :=
  {| id := id d; owned_by := owned_by d; display_name := display_name d;
     desc_capabilities := desc_capabilities d; bindings := bs;
     desc_aliases := desc_aliases d; metadata := metadata d |}.

Definition with_metadata (d : ModelDescriptor) (m : gmap string string) : ModelDescriptor :=
  {| id := id d; owned_by := owned_by d; display_name := display_name d;
     desc_capabilities := desc_capabilities d; bindings := bindings d;
     desc_aliases := desc_aliases d; metadata := m |}.

Definition effective_capabilities (d : ModelDescriptor) : Capabilities :=
  foldl (λ caps b, caps ∪ capabilities b) (desc_capabilities d) (btree_values (bindings d)).

Definition has_capability (d : ModelDescriptor) (c : ModelCapability) : bool :=
  bool_decide (c ∈ effective_capabilities d).

Definition binding_for (d : ModelDescriptor) (p : ProviderId) : option ProviderBinding :=
  bindings d !! p.

Definition thinking_levels : list string :=
  ["none"; "auto"; "minimal"; "low"; "medium"; "high"; "xhigh"; "max"].

(** [serde_json::from_str] at [Option<ThinkingSupport>] is the parameter
    [from_str]: [None] is JSON [null], an error carries its message. *)
Definition thinking_capability (from_str : string → result string (option ThinkingSupport))
    (d : ModelDescriptor) (provider : string) : result RegistryError ThinkingCapability :=
  let key := "thinking." +:+ provider in
  match metadata d !! key with
  | None => Ok ThinkingUnknown
  | Some raw =>
      match from_str raw with
      | Err error => Err (DeserializationError (id d +:+ " " +:+ key +:+ ": " +:+ error))
      | Ok None => Ok Unsupported
      | Ok (Some support) =>
          if (th_min support <? 0) || (th_max support <? th_min support)
             || existsb (λ l, negb (one_of l thinking_levels)) (levels support)
          then Err (DeserializationError
                      (id d +:+ " " +:+ key +:+ ": invalid thinking profile"))
          else Ok (Supported support)
      end
  end.

(** ** Contributions *)

Record DiscoveredModel := {
  disc_id : ModelId;
  disc_capabilities : Capabilities;
  context_limit : option Z; (* u64 *)
  disc_authority : AuthorityMask;
}.

Inductive ContributionItem :=
  | ItemDescriptor (d : ModelDescriptor)
  | ItemDiscovered (d : DiscoveredModel).

Record ModelAliasRule := {
  alias : ModelId;
  target : ModelId;
  rule_provider_id : option ProviderId;
}.

Global Instance ModelAliasRule_eq_dec : EqDecision ModelAliasRule.
Proof. solve_decision. Defined.

Record ModelExclusionRule := {
  excl_model_id : ModelId;
  excl_provider_id : option ProviderId;
}.

Global Instance ModelExclusionRule_eq_dec : EqDecision ModelExclusionRule.
Proof. solve_decision. Defined.
Global Program Instance ModelExclusionRule_countable : Countable ModelExclusionRule :=
  inj_countable' (λ r, (excl_model_id r, excl_provider_id r))
    (λ p, {| excl_model_id := p.1; excl_provider_id := p.2 |}) _.
Next Obligation. by intros []. Qed.

Record ProviderContribution := {
  contrib_provider_id : ProviderId;
  contrib_policy : option ProviderPolicy;
  contrib_models : list ContributionItem;
  contrib_aliases : list ModelAliasRule;
}.

Definition contribution_policy (c : ProviderContribution) : ProviderPolicy :=
  default PolicyClosed (contrib_policy c).

Definition item_id (i : ContributionItem) : ModelId :=
  match i with ItemDescriptor d => id d | ItemDiscovered d => disc_id d end.
Definition model_ids (c : ProviderContribution) : list ModelId := item_id <$> contrib_models c.

Definition has_prefix_support (c : ProviderContribution) : bool :=
  existsb (λ item,
    match item with
    | ItemDescriptor d =>
        match binding_for d (contrib_provider_id c) with
        | Some b => auth_prefixes (authority b)
        | None => false
        end
    | ItemDiscovered d => auth_prefixes (disc_authority d)
    end) (contrib_models c).

Definition unstripped_kiro (model : string) : string :=
  default model (strip_prefix "kiro/" model).

(** [upstream == model || upstream == unstripped_kiro] for the provider's own binding. *)
Definition upstream_matches (c : ProviderContribution) (d : ModelDescriptor)
    (model : string) : bool :=
  match binding_for d (contrib_provider_id c) with
  | Some b =>
      let upstream := effective_upstream_id b (id d) in
      bool_decide (upstream = model) || bool_decide (upstream = unstripped_kiro model)
  | None => false
  end.

(** The prefix rule for Vertex, which needs no catalog entry. *)
Definition vertex_prefix (c : ProviderContribution) (model : string) : bool :=
  bool_decide (contrib_provider_id c = ProviderId_vertex) && has_prefix_support c
  && (starts_with model "gemini-" || starts_with model "google/").

Definition item_supports (c : ProviderContribution) (model : string)
    (item : ContributionItem) : bool :=
  match item with
  | ItemDescriptor d =>
      bool_decide (id d = model)
      || upstream_matches c d model
      || bool_decide (id d = "kiro/" +:+ unstripped_kiro model)
      || bool_decide (model ∈ desc_aliases d)
  | ItemDiscovered d => bool_decide (disc_id d = model)
  end.

Definition supports_model (c : ProviderContribution) (model : string) : bool :=
  existsb (item_supports c model) (contrib_models c)
  || existsb (λ a, bool_decide (alias a = model)) (contrib_aliases c)
  || vertex_prefix c model.

(** The first item that declares the model, as [capability_profile] matches it. *)
Definition item_profile (c : ProviderContribution) (model : string)
    (item : ContributionItem) : option Capabilities :=
  match item with
  | ItemDescriptor d =>
      if bool_decide (id d = model) || upstream_matches c d model
         || bool_decide (model ∈ desc_aliases d)
      then Some (effective_capabilities d) else None
  | ItemDiscovered d =>
      if bool_decide (disc_id d = model) then Some (disc_capabilities d) else None
  end.

(** [Iterator::find_map]. *)
Fixpoint find_map {A B} (f : A → option B) (l : list A) : option B :=
  match l with
  | [] => None
  | x :: l => match f x with Some b => Some b | None => find_map f l end
  end.

(** [capability_profile] calls itself on the target of an alias, with nothing
    that bounds the recursion: [None] is "more than [fuel] nested calls". *)
Fixpoint capability_profile (fuel : nat) (c : ProviderContribution) (model : string)
  : option (option Capabilities) :=
  match fuel with
  | O => None
  | S fuel =>
      match find_map (item_profile c model) (contrib_models c) with
      | Some caps => Some (Some caps)
      | None =>
          match find_map (λ a, if bool_decide (alias a = model)
                               then Some (target a) else None) (contrib_aliases c) with
          | Some t => capability_profile fuel c t
          | None =>
              if vertex_prefix c model then Some (Some {[Chat; Tools]}) else Some None
          end
      end
  end.

End Registry.
