(* ===== verification/RegistrySnapshot.v ===== *)
(** * The registry snapshot (crates/registry/src/lib.rs, RegistrySnapshot)

    Alias resolution, model resolution, the per-provider contribution view,
    validation of a snapshot, and the composition of a snapshot with the local
    settings of an operator. *)

From Stdlib Require Import Ascii.
From stdpp Require Import gmap strings list.
From S2P Require Import Prelude RustStr RegistryTypes.
Import RustStr Registry.
Open Scope Z_scope.

Module Snapshot.

Abbreviation Aliases := (gmap ModelId ModelAliasRule).

Record RegistrySnapshot := {
  version : Z; (* CatalogVersion(u64) *)
  snap_source : CatalogSource;
  models : gmap ModelId ModelDescriptor;
  providers : gmap ProviderId ProviderPolicy;
  aliases : Aliases;
  exclusions : gset ModelExclusionRule;
}.

(** ** Following aliases

    The loop [while let Some(rule) = aliases.get(&current)] that
    [resolve_alias], [validate], [validate_local_composition] and
    [RegistryBuilder::build] all contain.  [room] is
    [MAX_ALIAS_DEPTH - visited.len()], so that running out of room is the
    source's test [visited.len() >= MAX_ALIAS_DEPTH]. *)
Fixpoint follow (al : Aliases) (origin : ModelId) (room : nat)
    (visited : list ModelId) (current : ModelId) : result RegistryError ModelId :=
  match al !! current with
  | None => Ok current
  | Some rule =>
      if bool_decide (current ∈ visited) then
        Err (AliasCycle origin (visited ++ [current]))
      else
        match room with
        | O => Err (AliasDepthExceeded origin (length visited + 1) MAX_ALIAS_DEPTH)
        | S room => follow al origin room (visited ++ [current]) (target rule)
        end
  end.

Definition resolve_alias (self : RegistrySnapshot) (requested : ModelId)
  : result RegistryError ModelId :=
  follow (aliases self) requested MAX_ALIAS_DEPTH [] requested.

(** The walk of one alias as the validators start it. *)
Definition walk_alias (al : Aliases) (a : ModelId) (rule : ModelAliasRule)
  : result RegistryError ModelId :=
  if bool_decide (a = target rule) then Err (AliasCycle a [a; target rule])
  else follow al a (MAX_ALIAS_DEPTH - 1) [a] (target rule).

(** ** Resolving a request *)

Record ResolvedModel := {
  canonical_id : ModelId;
  descriptor : option ModelDescriptor;
  eligible_bindings : list ProviderBinding;
  res_capabilities : Capabilities;
  res_source : CatalogSource;
}.

Definition excluded (self : RegistrySnapshot) (m : ModelId) (p : option ProviderId) : bool :=
  bool_decide ({| excl_model_id := m; excl_provider_id := p |} ∈ exclusions self).

(** [id.split_once('/').is_none_or(|(namespace, _)| namespace == pid)]. *)
Definition namespace_admits (m : ModelId) (p : ProviderId) : bool :=
  match split_once "/"%char m with
  | None => true
  | Some (namespace, _) => bool_decide (namespace = p)
  end.

Definition open_providers (self : RegistrySnapshot) (req canonical : ModelId)
  : list ProviderId :=
  fst <$> filter (λ kv, kv.2 = PolicyOpen ∧
                        namespace_admits req kv.1 = true ∧
                        namespace_admits canonical kv.1 = true)
            (btree_entries (providers self)).

(** [b.priority.cmp(&a.priority).then(b.precedence.cmp(a.precedence))
     .then(a.provider_id.cmp(&b.provider_id))]. *)
Definition binding_ltb : ProviderBinding → ProviderBinding → bool :=
  lex (flip (on_key Z.ltb priority))
    (lex (flip (on_key Z.ltb (λ b, precedence (source b))))
       (on_key string_ltb provider_id)).

(** The binding an open provider gets for a model nobody claims. *)
Definition open_binding (p : ProviderId) : ProviderBinding :=
  with_capabilities (ProviderBinding_new p PolicyOpen EmbeddedFallback) {[Chat]}.

Definition synthesize (self : RegistrySnapshot) (canonical : ModelId)
    (opens : list ProviderId) : list ProviderBinding :=
  open_binding <$> filter (λ p, excluded self canonical (Some p) = false) opens.

Definition eligible_for (self : RegistrySnapshot) (canonical : ModelId)
    (opens : list ProviderId) (d : ModelDescriptor) : list ProviderBinding :=
  let admitted := filter (λ b, excluded self canonical (Some (provider_id b)) = false)
                    (btree_values (bindings d)) in
  let closed_or_discovered := filter (λ b, policy b ≠ PolicyOpen) admitted in
  let open_bindings := filter (λ b, policy b = PolicyOpen) admitted in
  match closed_or_discovered, open_bindings with
  | _ :: _, _ => sort_by binding_ltb closed_or_discovered
  | [], _ :: _ => sort_by binding_ltb open_bindings
  | [], [] =>
      if bool_decide (bindings d = ∅) && negb (bool_decide (opens = []))
      then synthesize self canonical opens else []
  end.

(** The first registered provider whose namespace the id is in. *)
Definition namespace_owner (self : RegistrySnapshot) (m : ModelId) : option ProviderPolicy :=
  find_map (λ kv : ProviderId * ProviderPolicy,
              if starts_with m (kv.1 +:+ "/") then Some kv.2 else None)
    (btree_entries (providers self)).

Definition resolve (self : RegistrySnapshot) (requested : string)
  : result RegistryError ResolvedModel :=
  req_id ← ModelId_new requested;
  canonical ← resolve_alias self req_id;
  if excluded self canonical None then Err (ModelExcluded canonical)
  else
    let opens := open_providers self req_id canonical in
    match models self !! canonical with
    | Some d =>
        match eligible_for self canonical opens d with
        | [] => Err (UnknownModel canonical)
        | b :: bs =>
            Ok {| canonical_id := canonical; descriptor := Some d;
                  eligible_bindings := b :: bs;
                  res_capabilities := effective_capabilities d;
                  res_source := source b |}
        end
    | None =>
        if bool_decide (opens = []) then Err (UnknownModel canonical)
        else
          let stolen := match namespace_owner self canonical with
                        | Some p => negb (bool_decide (p = PolicyOpen))
                        | None => false
                        end in
          if stolen then Err (UnknownModel canonical)
          else
            match synthesize self canonical opens with
            | [] => Err (UnknownModel canonical)
            | b :: bs =>
                Ok {| canonical_id := canonical; descriptor := None;
                      eligible_bindings := b :: bs;
                      res_capabilities := {[Chat]};
                      res_source := EmbeddedFallback |}
            end
    end.

Definition capabilities_for (self : RegistrySnapshot) (model : string)
  : result RegistryError Capabilities :=
  resolved ← resolve self model; Ok (res_capabilities resolved).

Definition binds (d : ModelDescriptor) (p : ProviderId) : bool :=
  is_some (bindings d !! p).

(** Whether a rule is part of a provider's contribution: it names the provider,
    or names none and its target is a model the provider serves. *)
Definition rule_for_provider (self : RegistrySnapshot) (p : ProviderId)
    (rule : ModelAliasRule) : bool :=
  match rule_provider_id rule with
  | Some q => bool_decide (q = p)
  | None => match models self !! target rule with Some d => binds d p | None => false end
  end.

Definition contribution_for_provider (self : RegistrySnapshot) (p : ProviderId)
  : ProviderContribution :=
  {| contrib_provider_id := p;
     contrib_policy := Some (default PolicyClosed (providers self !! p));
     contrib_models :=
       ItemDescriptor <$> filter (λ d, binds d p = true) (btree_values (models self));
     contrib_aliases :=
       filter (λ rule, rule_for_provider self p rule = true) (btree_values (aliases self)) |}.

(** ** Validation *)

Definition has_open_provider (provs : gmap ProviderId ProviderPolicy) : bool :=
  existsb (λ p, bool_decide (p = PolicyOpen)) (btree_values provs).

Definition check_optional_provider (p : option ProviderId) : result RegistryError unit :=
  match p with
  | Some pid => ProviderId_new pid ≫= λ _, Ok tt
  | None => Ok tt
  end.

Definition key_mismatch (k p : ProviderId) : RegistryError :=
  InvalidProviderId k ("binding map key '" +:+ k +:+
    "' does not match binding provider_id '" +:+ p +:+ "'").

Definition validate_binding (provs : gmap ProviderId ProviderPolicy)
    (kv : ProviderId * ProviderBinding) : result RegistryError unit :=
  ProviderId_new kv.1 ≫= λ _,
  if bool_decide (kv.1 ≠ provider_id kv.2) then Err (key_mismatch kv.1 (provider_id kv.2))
  else if is_some (provs !! kv.1) then Ok tt else Err (UnknownProvider kv.1).

Definition validate_model (provs : gmap ProviderId ProviderPolicy)
    (kv : ModelId * ModelDescriptor) : result RegistryError unit :=
  ModelId_new kv.1 ≫= λ _,
  if bool_decide (kv.1 ≠ id kv.2) then
    Err (InvalidModelId kv.1 ("models map key '" +:+ kv.1 +:+
           "' does not match descriptor id '" +:+ id kv.2 +:+ "'"))
  else try_each (validate_binding provs) (btree_entries (bindings kv.2)).

(** The walk of one alias and the check of its final target. *)
Definition validate_target (al : Aliases) (known : ModelId → bool)
    (kv : ModelId * ModelAliasRule) : result RegistryError unit :=
  current ← walk_alias al kv.1 kv.2;
  if known current then Ok tt else Err (UnknownAliasTarget kv.1 current).

Definition validate_alias (self : RegistrySnapshot) (kv : ModelId * ModelAliasRule)
  : result RegistryError unit :=
  ModelId_new kv.1 ≫= λ _,
  ModelId_new (target kv.2) ≫= λ _,
  check_optional_provider (rule_provider_id kv.2) ≫= λ _,
  validate_target (aliases self)
    (λ m, is_some (models self !! m) || has_open_provider (providers self)) kv.

Definition validate (self : RegistrySnapshot) : result RegistryError unit :=
  try_each (λ p, ProviderId_new p ≫= λ _, Ok tt) (btree_keys (providers self)) ≫= λ _,
  try_each (validate_model (providers self)) (btree_entries (models self)) ≫= λ _,
  try_each (validate_alias self) (btree_entries (aliases self)) ≫= λ _,
  if bool_decide (models self = ∅) && negb (has_open_provider (providers self))
  then Err NoRoutableModels else Ok tt.

(** ** Local composition *)

Definition check_custom_binding (kv : ProviderId * ProviderBinding)
  : result RegistryError unit :=
  ProviderId_new kv.1 ≫= λ _,
  if bool_decide (kv.1 ≠ provider_id kv.2)
  then Err (key_mismatch kv.1 (provider_id kv.2)) else Ok tt.

Definition check_custom_model (d : ModelDescriptor) : result RegistryError unit :=
  ModelId_new (id d) ≫= λ _, try_each check_custom_binding (btree_entries (bindings d)).

(** One step of the loop over the local aliases: the rules seen so far and the
    combined map. *)
Definition add_local_alias (maps : Aliases * Aliases) (rule : ModelAliasRule)
  : result RegistryError (Aliases * Aliases) :=
  let '(combined, local) := maps in
  match local !! alias rule with
  | Some previous =>
      if bool_decide (previous ≠ rule) then Err (DuplicateAlias (alias rule)) else Ok tt
  | None => Ok tt
  end ≫= λ _,
  ModelId_new (alias rule) ≫= λ _,
  ModelId_new (target rule) ≫= λ _,
  check_optional_provider (rule_provider_id rule) ≫= λ _,
  Ok (<[alias rule := rule]> combined, <[alias rule := rule]> local).

Definition check_exclusion (e : ModelExclusionRule) : result RegistryError unit :=
  ModelId_new (excl_model_id e) ≫= λ _, check_optional_provider (excl_provider_id e).

Definition provider_models (self : RegistrySnapshot) (custom : list ModelDescriptor)
    (p : ProviderId) : gset ModelId :=
  list_to_set (id <$> filter (λ d, binds d p = true) (btree_values (models self) ++ custom)).

Definition locally_excluded (exs : list ModelExclusionRule) (p : ProviderId) (m : ModelId)
  : bool :=
  existsb (λ e, bool_decide (excl_provider_id e = None) && bool_decide (excl_model_id e = m)) exs
  || existsb (λ e, bool_decide (excl_provider_id e = Some p)
                   && bool_decide (excl_model_id e = m)) exs.

Definition check_blackout (self : RegistrySnapshot) (custom : list ModelDescriptor)
    (exs : list ModelExclusionRule) (allowed : list ProviderId) (p : ProviderId)
  : result RegistryError unit :=
  if bool_decide (p ∈ allowed) then Ok tt
  else
    let ms := provider_models self custom p in
    if bool_decide (ms = ∅) then Ok tt
    else if bool_decide (filter (λ m, locally_excluded exs p m = false) ms = ∅)
    then Err (ProviderBlackout p) else Ok tt.

Definition all_providers (self : RegistrySnapshot) (custom : list ModelDescriptor)
  : gset ProviderId :=
  dom (providers self) ∪ ⋃ ((λ d, dom (bindings d)) <$> custom).

Definition all_models (self : RegistrySnapshot) (custom : list ModelDescriptor)
  : gset ModelId :=
  dom (models self) ∪ list_to_set (id <$> custom).

Definition validate_local_composition (self : RegistrySnapshot)
    (als : list ModelAliasRule) (exs : list ModelExclusionRule)
    (custom : list ModelDescriptor) (allowed : list ProviderId)
  : result RegistryError unit :=
  try_each check_custom_model custom ≫= λ _,
  maps ← try_fold add_local_alias (aliases self, ∅) als;
  try_each (validate_target maps.1 (λ m, bool_decide (m ∈ all_models self custom)))
    (btree_entries maps.1) ≫= λ _,
  try_each check_exclusion exs ≫= λ _,
  try_each (check_blackout self custom exs allowed)
    (btree_elements (all_providers self custom)).

Definition exclusion_ltb : ModelExclusionRule → ModelExclusionRule → bool :=
  lex (on_key string_ltb excl_model_id)
    (λ a b, match excl_provider_id a, excl_provider_id b with
            | None, Some _ => true
            | Some p, Some q => string_ltb p q
            | _, None => false
            end).

Definition compose_with_settings (self : RegistrySnapshot) (als : list ModelAliasRule)
    (exs : gset ModelExclusionRule) (custom : list ModelDescriptor)
    (allowed : list ProviderId) : result RegistryError RegistrySnapshot :=
  let exclusions_vec := sort_by exclusion_ltb (elements exs) in
  validate_local_composition self als exclusions_vec custom allowed ≫= λ _,
  Ok {| version := version self;
        snap_source := LocalOverride;
        models := foldl (λ m d, <[id d := d]> m) (models self) custom;
        providers := providers self;
        aliases := foldl (λ m r, <[alias r := r]> m) (aliases self) als;
        exclusions := exclusions self ∪ exs |}.

End Snapshot.
