(* ===== verification/RegistryBuilder.v ===== *)
(** * The registry builder (crates/registry/src/lib.rs, RegistryBuilder)

    Every method takes [&mut self]; the functions below return the next builder
    together with the method's result, so that what an error leaves behind is
    part of the model. *)

From stdpp Require Import gmap strings list pretty.
From S2P Require Import Prelude RustStr RegistryTypes RegistrySnapshot.
Import RustStr Registry Snapshot.
Open Scope Z_scope.

Module Builder.

Record RegistryBuilder := {
  b_version : Z;
  b_source : CatalogSource;
  b_providers : gmap ProviderId ProviderPolicy;
  b_models : gmap ModelId ModelDescriptor;
  b_aliases : Aliases;
  b_exclusions : gset ModelExclusionRule;
}.

Definition new (v : Z) (s : CatalogSource) : RegistryBuilder :=
  {| b_version := v; b_source := s; b_providers := ∅; b_models := ∅;
     b_aliases := ∅; b_exclusions := ∅ |}.

Definition with_providers (b : RegistryBuilder) (x : gmap ProviderId ProviderPolicy) :=
  {| b_version := b_version b; b_source := b_source b; b_providers := x;
     b_models := b_models b; b_aliases := b_aliases b; b_exclusions := b_exclusions b |}.
Definition with_models (b : RegistryBuilder) (x : gmap ModelId ModelDescriptor) :=
  {| b_version := b_version b; b_source := b_source b; b_providers := b_providers b;
     b_models := x; b_aliases := b_aliases b; b_exclusions := b_exclusions b |}.
Definition with_aliases (b : RegistryBuilder) (x : Aliases) :=
  {| b_version := b_version b; b_source := b_source b; b_providers := b_providers b;
     b_models := b_models b; b_aliases := x; b_exclusions := b_exclusions b |}.
Definition with_exclusions (b : RegistryBuilder) (x : gset ModelExclusionRule) :=
  {| b_version := b_version b; b_source := b_source b; b_providers := b_providers b;
     b_models := b_models b; b_aliases := b_aliases b; b_exclusions := x |}.

Definition register_provider (b : RegistryBuilder) (i : ProviderId) (p : ProviderPolicy) :=
  with_providers b (<[i := p]> (b_providers b)).

(** [match bindings.get_mut(&pid) { Some(b) => b.merge_with(&incoming),
    None => insert }]. *)
Definition merge_into (bs : gmap ProviderId ProviderBinding) (pid : ProviderId)
    (incoming : ProviderBinding) : gmap ProviderId ProviderBinding :=
  match bs !! pid with
  | Some b => <[pid := merge_with b incoming]> bs
  | None => <[pid := incoming]> bs
  end.

(** What [add_model] does to a descriptor that is already there. *)
Definition merge_descriptor (existing d : ModelDescriptor) : ModelDescriptor :=
  {| id := id existing;
     owned_by := if is_empty (owned_by existing) && negb (is_empty (owned_by d))
                 then owned_by d else owned_by existing;
     display_name := if negb (is_some (display_name existing)) && is_some (display_name d)
                     then display_name d else display_name existing;
     desc_capabilities := desc_capabilities existing ∪ desc_capabilities d;
     bindings := foldl (λ bs kv, merge_into bs kv.1 kv.2) (bindings existing)
                   (btree_entries (bindings d));
     desc_aliases := desc_aliases existing ∪ desc_aliases d;
     metadata := metadata d ∪ metadata existing |}.

Definition add_model (b : RegistryBuilder) (d : ModelDescriptor)
  : RegistryBuilder * result RegistryError unit :=
  (with_models b
     match b_models b !! id d with
     | Some existing => <[id d := merge_descriptor existing d]> (b_models b)
     | None => <[id d := d]> (b_models b)
     end, Ok tt).

(** [models.entry(id).or_insert_with(|| ModelDescriptor::new(id, owner))]. *)
Definition entry_or_new (b : RegistryBuilder) (i : ModelId) (owner : string)
  : ModelDescriptor :=
  default (ModelDescriptor_new i owner) (b_models b !! i).

Definition put_model (b : RegistryBuilder) (i : ModelId) (d : ModelDescriptor) :=
  with_models b (<[i := d]> (b_models b)).

Definition add_binding (b : RegistryBuilder) (i : ModelId) (binding : ProviderBinding)
  : RegistryBuilder * result RegistryError unit :=
  let model := entry_or_new b i "" in
  let p := provider_id binding in
  if binds model p then (put_model b i model, Err (DuplicateBinding i p))
  else (put_model b i (with_bindings model (<[p := binding]> (bindings model))), Ok tt).

Definition merge_binding (b : RegistryBuilder) (i : ModelId) (binding : ProviderBinding)
  : RegistryBuilder * result RegistryError unit :=
  let model := entry_or_new b i "" in
  (put_model b i
     (with_bindings model (merge_into (bindings model) (provider_id binding) binding)), Ok tt).

(** The binding a discovered model brings. *)
Definition discovered_binding (p : ProviderId) (pol : ProviderPolicy) (d : DiscoveredModel)
  : ProviderBinding :=
  let binding := with_authority (ProviderBinding_new p pol Discovered) (disc_authority d) in
  if auth_capabilities (disc_authority d)
  then with_capabilities binding (disc_capabilities d) else binding.

(** A catalog binding met by a discovery: it can only be supplemented. *)
Definition supplement (existing binding : ProviderBinding) (d : DiscoveredModel)
  : ProviderBinding :=
  {| provider_id := provider_id existing;
     policy := policy existing;
     source := source existing;
     upstream_model_id :=
       if auth_upstream_id (disc_authority d) && negb (is_some (upstream_model_id existing))
       then upstream_model_id binding else upstream_model_id existing;
     capabilities :=
       if auth_capabilities (disc_authority d)
          && negb (bool_decide (disc_capabilities d = ∅))
       then capabilities existing ∪ disc_capabilities d else capabilities existing;
     authority := mask_union (authority existing) (disc_authority d);
     priority := priority existing |}.

Definition discover (b : RegistryBuilder) (p : ProviderId) (pol : ProviderPolicy)
    (d : DiscoveredModel) : RegistryBuilder :=
  let binding := discovered_binding p pol d in
  let model := entry_or_new b (disc_id d) p in
  let model := match context_limit d with
               | Some limit =>
                   with_metadata model
                     (<["context_limit" := pretty (Z.to_N limit)]> (metadata model))
               | None => model
               end in
  let bs := match bindings model !! p with
            | Some existing =>
                let merged := if bool_decide (source existing ≠ Discovered)
                              then supplement existing binding d
                              else merge_with existing binding in
                <[p := merged]> (bindings model)
            | None => <[p := binding]> (bindings model)
            end in
  put_model b (disc_id d) (with_bindings model bs).

Definition apply_item (p : ProviderId) (pol : ProviderPolicy) (b : RegistryBuilder)
    (item : ContributionItem) : RegistryBuilder * result RegistryError unit :=
  match item with
  | ItemDescriptor d => add_model b d
  | ItemDiscovered d =>
      match pol with
      | PolicyClosed => (b, Err (UnauthorizedContribution p pol (disc_id d)))
      | PolicyDiscovered | PolicyOpen => (discover b p pol d, Ok tt)
      end
  end.

Fixpoint apply_items (p : ProviderId) (pol : ProviderPolicy) (b : RegistryBuilder)
    (items : list ContributionItem) : RegistryBuilder * result RegistryError unit :=
  match items with
  | [] => (b, Ok tt)
  | item :: items =>
      match apply_item p pol b item with
      | (b, Ok _) => apply_items p pol b items
      | (b, Err e) => (b, Err e)
      end
  end.

Definition add_alias (b : RegistryBuilder) (a t : ModelId) (p : option ProviderId) :=
  with_aliases b
    (<[a := {| alias := a; target := t; rule_provider_id := p |}]> (b_aliases b)).

Definition add_alias_rule (b : RegistryBuilder) (r : ModelAliasRule) :=
  add_alias b (alias r) (target r) (rule_provider_id r).

Definition apply_contribution (b : RegistryBuilder) (c : ProviderContribution)
  : RegistryBuilder * result RegistryError unit :=
  let p := contrib_provider_id c in
  let b := match contrib_policy c with
           | Some pol => if is_some (b_providers b !! p) then b else register_provider b p pol
           | None => b
           end in
  match b_providers b !! p with
  | None => (b, Err (UnknownProvider p))
  | Some pol =>
      match apply_items p pol b (contrib_models c) with
      | (b, Err e) => (b, Err e)
      | (b, Ok _) => (foldl add_alias_rule b (contrib_aliases c), Ok tt)
      end
  end.

Definition add_exclusion (b : RegistryBuilder) (m : ModelId) (p : option ProviderId) :=
  with_exclusions b ({[ {| excl_model_id := m; excl_provider_id := p |} ]} ∪ b_exclusions b).

Definition build (b : RegistryBuilder) : result RegistryError RegistrySnapshot :=
  let has_open := has_open_provider (b_providers b) in
  try_each (validate_target (b_aliases b) (λ m, is_some (b_models b !! m) || has_open))
    (btree_entries (b_aliases b)) ≫= λ _,
  if bool_decide (b_models b = ∅) && negb has_open then Err NoRoutableModels
  else Ok {| version := b_version b; snap_source := b_source b; models := b_models b;
             providers := b_providers b; aliases := b_aliases b;
             exclusions := b_exclusions b |}.

(** ** Sequences of builder calls *)

Inductive BuilderOp :=
  | RegisterProvider (i : ProviderId) (p : ProviderPolicy)
  | AddModel (d : ModelDescriptor)
  | AddBinding (i : ModelId) (binding : ProviderBinding)
  | MergeBinding (i : ModelId) (binding : ProviderBinding)
  | ApplyContribution (c : ProviderContribution)
  | AddAlias (a t : ModelId) (p : option ProviderId)
  | AddExclusion (m : ModelId) (p : option ProviderId).

Definition run_op (b : RegistryBuilder) (op : BuilderOp)
  : RegistryBuilder * result RegistryError unit :=
  match op with
  | RegisterProvider i p => (register_provider b i p, Ok tt)
  | AddModel d => add_model b d
  | AddBinding i x => add_binding b i x
  | MergeBinding i x => merge_binding b i x
  | ApplyContribution c => apply_contribution b c
  | AddAlias a t p => (add_alias b a t p, Ok tt)
  | AddExclusion m p => (add_exclusion b m p, Ok tt)
  end.

End Builder.
