(* ===== verification/RegistryProps.v ===== *)
(** * Correctness of the registry

    Validated identifiers, alias resolution on validated, built and composed
    snapshots, and what an accepted composition with local settings guarantees
    and what it does not. *)

From Stdlib Require Import Ascii.
From stdpp Require Import gmap strings list sorting.
From S2P Require Import Prelude RustStr RegistryTypes RegistrySnapshot RegistryBuilder.
Import RustStr Registry Snapshot.
Open Scope Z_scope.

(** ** Generic *)

Lemma try_each_entries {V E} (f : string * V → result E unit) (m : gmap string V) :
  try_each f (btree_entries m) = Ok tt ↔ ∀ k v, m !! k = Some v → f (k, v) = Ok tt.
Proof.
  rewrite try_each_Ok, list.Forall_forall. split.
  - intros H k v Hk. apply H. by apply elem_of_btree_entries.
  - intros H [k v] Hk%elem_of_btree_entries. by apply H.
Qed.

Lemma unit_bind_Ok {E A} (r : result E A) (f : A → result E unit) :
  (r ≫= f) = Ok tt ↔ ∃ a, r = Ok a ∧ f a = Ok tt.
Proof. destruct r; cbn; split; [eauto|by intros (? & [= ->] & ?)|done|by intros (? & ? & ?)]. Qed.

Lemma find_map_Some {A B} (f : A → option B) l b :
  find_map f l = Some b → ∃ x, x ∈ l ∧ f x = Some b.
Proof.
  induction l as [|x l IH]; cbn; [done|]. destruct (f x) eqn:E.
  - intros [= ->]. exists x. split; [left|done].
  - intros (y & Hy & ?)%IH. exists y. split; [by right|done].
Qed.

Ltac inv_ok :=
  repeat match goal with
  | H : (_ ≫= _) = Ok _ |- _ => apply rbind_Ok in H as (? & ? & ?)
  | H : Ok _ = Ok _ |- _ => injection H as H
  end; subst.

(** ** Identifiers *)

Lemma no_blank_trim s :
  existsb blank_or_control (split_chars s) = false → trim s = s.
Proof.
  intros Hb. apply trim_id. apply list.Forall_forall. intros c Hc.
  pose proof (existsb_false _ _ _ Hb Hc) as Hf. unfold blank_or_control in Hf. by bool_to_prop.
Qed.

Lemma ModelId_new_Ok s m : ModelId_new s = Ok m → m = s.
Proof.
  unfold ModelId_new. case_if; [done|]. case_if; [done|]. intros [= <-].
  by apply no_blank_trim.
Qed.

Lemma ProviderId_new_Ok s p : ProviderId_new s = Ok p → p = s.
Proof.
  unfold ProviderId_new. case_if; [done|]. case_if; [done|]. intros [= <-].
  by apply no_blank_trim.
Qed.

(** Canonicalising a provider name is idempotent and maps every accepted name
    onto one that needs no further change. *)
Theorem canonical_idempotent s p :
  ProviderId_canonical s = Ok p → ProviderId_canonical p = Ok p.
Proof.
  intros H. destruct (decide (p ∈ ["codex"; "claude"; "vertex"])) as [Hin|Hout].
  { repeat (apply elem_of_cons in Hin as [->|Hin]; [vm_compute; reflexivity|]).
    by apply elem_of_nil in Hin. }
  unfold ProviderId_canonical in H. rewrite !not_elem_of_cons in Hout.
  pose proof (ProviderId_new_Ok _ _ H) as Hp. rewrite <- Hp in H.
  repeat case_bool_decide; try tauto.
  assert (Ht : trim p = p).
  { unfold ProviderId_new in H. case_if; [done|]. case_if; [done|]. by apply no_blank_trim. }
  assert (Hl : to_ascii_lowercase p = p) by (rewrite Hp; apply to_ascii_lowercase_idemp).
  unfold ProviderId_canonical. rewrite Ht, Hl.
  rewrite !bool_decide_eq_false_2 by (rewrite Hp; done). done.
Qed.

(** Every capability is read back from its own name. *)
Theorem capability_roundtrip c : from_str_loose (as_str c) = Some c.
Proof. by destruct c. Qed.

(** ** Following aliases *)
Section follow.
Implicit Types (al : Aliases) (vis : list ModelId).

(** The loop body of the source, with [room] for its length test. *)
Lemma follow_unfold al o room vis cur :
  follow al o room vis cur =
  match al !! cur with
  | None => Ok cur
  | Some rule =>
      if bool_decide (cur ∈ vis) then Err (AliasCycle o (vis ++ [cur]))
      else if (room =? 0)%nat
      then Err (AliasDepthExceeded o (length vis + 1) MAX_ALIAS_DEPTH)
      else follow al o (room - 1) (vis ++ [cur]) (target rule)
  end.
Proof.
  destruct room as [|room]; cbn; [done|].
  destruct (al !! cur); [|done]. case_bool_decide; [done|]. by rewrite Nat.sub_0_r.
Qed.

Lemma follow_final al o room : ∀ vis cur c,
  follow al o room vis cur = Ok c → al !! c = None.
Proof.
  induction room as [|room IH]; intros vis cur c; cbn;
    destruct (al !! cur) eqn:E; try case_bool_decide; try done;
    try (by intros [= <-]); try (by apply IH).
Qed.

Lemma resolve_walk al a rule c :
  al !! a = Some rule → walk_alias al a rule = Ok c →
  follow al a MAX_ALIAS_DEPTH [] a = Ok c.
Proof.
  intros Ha. unfold walk_alias. case_bool_decide; [done|]. intros Hw.
  rewrite follow_unfold, Ha. rewrite bool_decide_eq_false_2 by apply not_elem_of_nil.
  exact Hw.
Qed.

(** What each validator establishes of its alias map. *)
Definition aliases_sound al (known : ModelId → bool) : Prop :=
  ∀ m, ∃ c, follow al m MAX_ALIAS_DEPTH [] m = Ok c ∧ al !! c = None ∧
            (al !! m = None ∧ c = m ∨ is_Some (al !! m) ∧ known c = true).

Lemma validate_target_sound al known :
  try_each (validate_target al known) (btree_entries al) = Ok tt → aliases_sound al known.
Proof.
  rewrite try_each_entries. intros Hall m. destruct (al !! m) as [rule|] eqn:Hm.
  - specialize (Hall _ _ Hm). unfold validate_target in Hall. cbn in Hall.
    destruct (walk_alias al m rule) as [c|e] eqn:Hw; cbn in Hall; [|done].
    destruct (known c) eqn:Hk; [|done].
    pose proof (resolve_walk _ _ _ _ Hm Hw) as Hf. exists c.
    split; [done|]. split; [by eapply follow_final|]. right. eauto.
  - exists m. rewrite follow_unfold, Hm. auto.
Qed.
End follow.

Lemma validate_Ok self :
  validate self = Ok tt ↔
  (∀ p, is_Some (providers self !! p) → ∃ q, ProviderId_new p = Ok q) ∧
  (∀ k d, models self !! k = Some d → validate_model (providers self) (k, d) = Ok tt) ∧
  (∀ k r, aliases self !! k = Some r → validate_alias self (k, r) = Ok tt) ∧
  (models self ≠ ∅ ∨ has_open_provider (providers self) = true).
Proof.
  assert (Hp : try_each (λ p, ProviderId_new p ≫= λ _, Ok tt) (btree_keys (providers self))
               = Ok tt ↔ ∀ p, is_Some (providers self !! p) → ∃ q, ProviderId_new p = Ok q).
  { rewrite try_each_Ok, list.Forall_forall. setoid_rewrite elem_of_btree_keys.
    split; intros H p Hp; specialize (H p Hp).
    - apply unit_bind_Ok in H as (q & ? & _). eauto.
    - apply unit_bind_Ok. naive_solver. }
  rewrite <- Hp, <- !try_each_entries. unfold validate.
  destruct (try_each _ (btree_keys _)) as [[]|]; cbn; [|naive_solver].
  destruct (try_each _ (btree_entries (models self))) as [[]|]; cbn; [|naive_solver].
  destruct (try_each _ (btree_entries (aliases self))) as [[]|]; cbn; [|naive_solver].
  case_bool_decide; destruct (has_open_provider _); cbn; naive_solver.
Qed.

(** On a snapshot that validates, alias resolution always succeeds: every
    model id resolves within [MAX_ALIAS_DEPTH] hops, without cycles, to an id
    that is not itself an alias, and the target of an alias is a catalog model
    unless an open provider could serve it. *)
Theorem validate_resolves self :
  validate self = Ok tt →
  ∀ m, ∃ c, resolve_alias self m = Ok c ∧ aliases self !! c = None ∧
    (aliases self !! m = None ∧ c = m ∨
     is_Some (models self !! c) ∨ has_open_provider (providers self) = true).
Proof.
  rewrite validate_Ok. intros (_ & _ & Hal & _) m.
  assert (Hs : aliases_sound (aliases self) (λ m, is_some (models self !! m)
                 || has_open_provider (providers self))).
  { apply validate_target_sound, try_each_entries. intros k r Hk. specialize (Hal k r Hk).
    unfold validate_alias in Hal. by inv_ok. }
  destruct (Hs m) as (c & Hc & Hn & Hk). exists c.
  split; [done|]. split; [done|]. destruct Hk as [?|[_ Hk]]; [by left|right].
  apply orb_true_iff in Hk as [Hk|Hk]; [left|by right].
  destruct (models self !! c); [eauto|done].
Qed.

(** A snapshot that [build] returns has only resolvable aliases: following
    any id succeeds, ends outside the alias map, and an alias ends at a catalog
    model or at one that an open provider can serve. *)
Theorem build_resolves b self :
  Builder.build b = Ok self →
  ∀ m, ∃ c, resolve_alias self m = Ok c ∧ aliases self !! c = None ∧
    (aliases self !! m = None ∧ c = m ∨
     is_Some (models self !! c) ∨ has_open_provider (providers self) = true).
Proof.
  unfold Builder.build. intros Hb m. apply rbind_Ok in Hb as ([] & Hv & Hb).
  destruct (_ && _); [done|]. injection Hb as <-.
  destruct (validate_target_sound _ _ Hv m) as (c & Hc & Hn & Hk). exists c.
  split; [done|]. split; [done|]. destruct Hk as [?|[_ Hk]]; [by left|right].
  apply orb_true_iff in Hk as [Hk|Hk]; [left|by right]. cbn.
  destruct (Builder.b_models b !! c); [eauto|done].
Qed.

(** ** Composition with local settings *)

Lemma add_local_alias_fst maps rule maps' :
  add_local_alias maps rule = Ok maps' →
  maps'.1 = <[alias rule := rule]> maps.1 ∧
  (∃ a, ModelId_new (alias rule) = Ok a) ∧ (∃ t, ModelId_new (target rule) = Ok t) ∧
  check_optional_provider (rule_provider_id rule) = Ok tt.
Proof.
  destruct maps as [comb loc]. unfold add_local_alias. intros H.
  apply rbind_Ok in H as (_ & _ & H). apply rbind_Ok in H as (a & Ha & H).
  apply rbind_Ok in H as (t & Ht & H). apply rbind_Ok in H as ([] & Hp & H).
  injection H as <-. split_and!; eauto.
Qed.

Definition insert_aliases (al : Aliases) (als : list ModelAliasRule) : Aliases :=
  foldl (λ m r, <[alias r := r]> m) al als.

Lemma local_aliases_fold als : ∀ maps maps',
  try_fold add_local_alias maps als = Ok maps' →
  maps'.1 = insert_aliases maps.1 als ∧
  Forall (λ r, (∃ a, ModelId_new (alias r) = Ok a) ∧ (∃ t, ModelId_new (target r) = Ok t) ∧
               check_optional_provider (rule_provider_id r) = Ok tt) als.
Proof.
  induction als as [|r als IH]; intros maps maps'; cbn.
  { intros [= <-]. done. }
  intros (m1 & H1 & H2)%rbind_Ok. apply add_local_alias_fst in H1 as [E Hr].
  apply IH in H2 as [-> Hall]. rewrite E. split; [done|]. by constructor.
Qed.

Lemma insert_aliases_lookup als : ∀ al k r,
  insert_aliases al als !! k = Some r → al !! k = Some r ∨ r ∈ als ∧ alias r = k.
Proof.
  induction als as [|r' als IH]; intros al k r; cbn; [by left|].
  intros [H|[H ?]]%IH.
  - apply lookup_insert_Some in H as [[<- <-]|[_ ?]]; [right|by left].
    split; [left|done].
  - right. split; [by right|done].
Qed.

Lemma insert_models_lookup custom : ∀ (ms : gmap ModelId ModelDescriptor) k d,
  foldl (λ m d, <[id d := d]> m) ms custom !! k = Some d →
  ms !! k = Some d ∨ d ∈ custom ∧ id d = k.
Proof.
  induction custom as [|d' custom IH]; intros ms k d; cbn; [by left|].
  intros [H|[H ?]]%IH.
  - apply lookup_insert_Some in H as [[<- <-]|[_ ?]]; [right|by left].
    split; [left|done].
  - right. split; [by right|done].
Qed.

Lemma insert_models_dom custom : ∀ (ms : gmap ModelId ModelDescriptor),
  dom (foldl (λ m d, <[id d := d]> m) ms custom) = dom ms ∪ list_to_set (id <$> custom).
Proof.
  induction custom as [|d custom IH]; intros ms; cbn; [set_solver|].
  rewrite IH, dom_insert_L. set_solver.
Qed.

(** What a successful composition went through. *)
Lemma compose_Ok self als exs custom allowed s :
  compose_with_settings self als exs custom allowed = Ok s →
  (s = {| version := version self; snap_source := LocalOverride;
          models := foldl (λ m d, <[id d := d]> m) (models self) custom;
          providers := providers self;
          aliases := insert_aliases (aliases self) als;
          exclusions := exclusions self ∪ exs |}) ∧
  Forall (λ d, check_custom_model d = Ok tt) custom ∧
  Forall (λ r, (∃ a, ModelId_new (alias r) = Ok a) ∧ (∃ t, ModelId_new (target r) = Ok t) ∧
               check_optional_provider (rule_provider_id r) = Ok tt) als ∧
  try_each (validate_target (aliases s) (λ m, bool_decide (m ∈ dom (models s))))
    (btree_entries (aliases s)) = Ok tt ∧
  ∀ p, p ∈ all_providers self custom → check_blackout self custom
         (sort_by exclusion_ltb (elements exs)) allowed p = Ok tt.
Proof.
  unfold compose_with_settings, validate_local_composition. intros H.
  apply rbind_Ok in H as ([] & H & Hs). injection Hs as <-.
  apply rbind_Ok in H as ([] & Hc & H). apply rbind_Ok in H as (maps & Hm & H).
  apply rbind_Ok in H as ([] & Hw & H). apply rbind_Ok in H as ([] & _ & Hb).
  apply local_aliases_fold in Hm as [Em Hr]. cbn in Em. rewrite Em in Hw.
  split; [done|]. split; [by apply try_each_Ok|]. split; [done|]. cbn. split.
  - rewrite insert_models_dom. exact Hw.
  - intros p Hp. rewrite try_each_Ok, list.Forall_forall in Hb.
    apply Hb. by apply elem_of_btree_elements.
Qed.

(** A composition with local settings that is accepted leaves no alias
    pointing to the void: in the composed snapshot every id resolves, and every
    alias - local or from the catalog - ends at a model of the composed
    catalog. *)
Theorem compose_resolves self als exs custom allowed s :
  compose_with_settings self als exs custom allowed = Ok s →
  ∀ m, ∃ c, resolve_alias s m = Ok c ∧ aliases s !! c = None ∧
            (is_Some (aliases s !! m) → is_Some (models s !! c)).
Proof.
  intros (_ & _ & _ & Hv & _)%compose_Ok m.
  destruct (validate_target_sound _ _ Hv m) as (c & Hc & Hn & Hk). exists c.
  split; [done|]. split; [done|]. intros Hm. destruct Hk as [[Hm' _]|[_ Hk]].
  - rewrite Hm' in Hm. by destruct Hm.
  - bool_to_prop. by apply elem_of_dom.
Qed.

Lemma check_custom_validate provs d :
  check_custom_model d = Ok tt → dom (bindings d) ⊆ dom provs →
  validate_model provs (id d, d) = Ok tt.
Proof.
  unfold check_custom_model, validate_model. intros (i & Hi & Hb)%rbind_Ok Hsub. cbn in *.
  rewrite Hi. cbn. rewrite bool_decide_eq_false_2 by auto.
  rewrite try_each_entries in *. intros k b Hk. specialize (Hb _ _ Hk).
  unfold check_custom_binding, validate_binding in *. cbn in *.
  destruct (ProviderId_new k); cbn in *; [|done]. case_bool_decide; [done|].
  assert (is_Some (provs !! k)) as [x ->]; [|done].
  apply elem_of_dom, Hsub, elem_of_dom. eauto.
Qed.

(** C18: Composing a valid snapshot with local settings gives a valid snapshot,
    provided the custom models bind registered providers only. *)
Theorem compose_valid self als exs custom allowed s :
  validate self = Ok tt →
  Forall (λ d, dom (bindings d) ⊆ dom (providers self)) custom →
  compose_with_settings self als exs custom allowed = Ok s →
  validate s = Ok tt.
Proof.
  rewrite !validate_Ok. intros (Hp & Hm & Ha & Hr) Hb Hc.
  destruct (compose_Ok _ _ _ _ _ _ Hc) as (-> & Hcust & Hrules & Hw & _). cbn in *.
  split_and!; [done| | |].
  - intros k d [Hk|[Hd <-]]%insert_models_lookup; [by apply Hm|].
    rewrite !list.Forall_forall in *. by apply check_custom_validate; auto.
  - intros k r Hk. rewrite try_each_entries in Hw. specialize (Hw _ _ Hk).
    unfold validate_alias. cbn.
    assert (∃ a t, ModelId_new k = Ok a ∧ ModelId_new (target r) = Ok t ∧
              check_optional_provider (rule_provider_id r) = Ok tt) as (a & t & -> & -> & ->).
    { apply insert_aliases_lookup in Hk as [Hk|[Hk <-]].
      - specialize (Ha _ _ Hk). unfold validate_alias in Ha. inv_ok. cbn in *.
        destruct (check_optional_provider _) as [[]|]; [eauto|done].
      - rewrite list.Forall_forall in Hrules. destruct (Hrules _ Hk) as ((?&?)&(?&?)&?). eauto. }
    cbn. unfold validate_target in *. cbn in *.
    destruct (walk_alias _ _ _) as [c|]; cbn in *; [|done].
    case_bool_decide as Hd; [|done]. apply elem_of_dom in Hd as [d ->]. done.
  - destruct Hr as [Hr|Hr]; [left|by right]. intros He.
    assert (Hdom := insert_models_dom custom (models self)). rewrite He in Hdom.
    apply Hr, dom_empty_inv_L. set_solver.
Qed.

(** The blackout guard.  After an accepted composition, every provider outside
    the allowed blackouts that had a model in the catalog or among the custom
    models still has one that the local exclusions leave routable. *)
Theorem compose_no_blackout self als exs custom allowed s p m :
  compose_with_settings self als exs custom allowed = Ok s →
  (p ∉ allowed) → p ∈ all_providers self custom → m ∈ provider_models self custom p →
  ∃ m', m' ∈ provider_models self custom p ∧
    ({| excl_model_id := m'; excl_provider_id := None |} ∉ exs) ∧
    ({| excl_model_id := m'; excl_provider_id := Some p |} ∉ exs).
Proof.
  intros (_ & _ & _ & _ & Hb)%compose_Ok Hna Hp Hm. specialize (Hb p Hp).
  unfold check_blackout in Hb. rewrite bool_decide_eq_false_2 in Hb by done.
  rewrite bool_decide_eq_false_2 in Hb by set_solver.
  case_bool_decide as He; [done|].
  apply set_choose_L in He as [m' Hm']. rewrite elem_of_filter in Hm'.
  destruct Hm' as [Hloc Hm']. exists m'. split; [done|].
  unfold locally_excluded in Hloc. apply orb_false_iff in Hloc as [Hg Hl].
  assert (Hin : ∀ e, e ∈ exs → e ∈ sort_by exclusion_ltb (elements exs)).
  { intros e He'. by rewrite sort_by_elem_of, elem_of_elements. }
  split; intros He%Hin.
  - pose proof (existsb_false _ _ _ Hg He) as Hf. cbn in Hf.
    by rewrite !bool_decide_eq_true_2 in Hf.
  - pose proof (existsb_false _ _ _ Hl He) as Hf. cbn in Hf.
    by rewrite !bool_decide_eq_true_2 in Hf.
Qed.

(** ** Two gaps of the local composition *)

Definition bound_model (m p : string) : ModelDescriptor :=
  with_bindings (ModelDescriptor_new m p)
    {[ p := ProviderBinding_new p PolicyClosed RemoteSigned ]}.

Definition two_models : RegistrySnapshot :=
  {| version := 1; snap_source := RemoteSigned;
     models := {[ "m1" := bound_model "m1" "p"; "m2" := bound_model "m2" "p" ]};
     providers := {[ "p" := PolicyClosed ]};
     aliases := ∅;
     exclusions := {[ {| excl_model_id := "m1"; excl_provider_id := None |} ]} |}.

(** The check of local settings accepts a custom model bound to a provider that
    is not registered, and the composed snapshot then fails its own
    validation. *)
Theorem compose_accepts_unregistered :
  let composed := compose_with_settings two_models [] ∅ [bound_model "m3" "ghost"] [] in
  validate two_models = Ok tt ∧ is_ok composed = true ∧
  (composed ≫= validate) = Err (UnknownProvider "ghost").
Proof. split_and!; vm_compute; reflexivity. Qed.

(** The blackout guard looks at the local exclusions only.  A catalog exclusion
    and a local one together can leave a provider without any model although
    the composition is accepted with no blackout allowed. *)
Theorem compose_blackout_gap :
  let composed := compose_with_settings two_models []
    {[ {| excl_model_id := "m2"; excl_provider_id := Some "p" |} ]} [] [] in
  is_ok composed = true ∧
  (composed ≫= λ s, resolve s "m1") = Err (ModelExcluded "m1") ∧
  (composed ≫= λ s, resolve s "m2") = Err (UnknownModel "m2").
Proof. split_and!; vm_compute; reflexivity. Qed.

(** ** Instances of the theorems *)

(** A catalog with a closed and an open provider and one alias. *)
Definition sample_catalog : RegistrySnapshot :=
  {| version := 7; snap_source := RemoteSigned;
     models := {[ "m1" := bound_model "m1" "p"; "m2" := bound_model "m2" "p" ]};
     providers := {[ "p" := PolicyClosed; "open" := PolicyOpen ]};
     aliases := {[ "latest" := {| alias := "latest"; target := "m2";
                                  rule_provider_id := None |} ]};
     exclusions := {[ {| excl_model_id := "m1"; excl_provider_id := Some "p" |} ]} |}.

Definition sample_builder : Builder.RegistryBuilder :=
  {| Builder.b_version := 7; Builder.b_source := RemoteSigned;
     Builder.b_providers := providers sample_catalog;
     Builder.b_models := models sample_catalog;
     Builder.b_aliases := aliases sample_catalog;
     Builder.b_exclusions := exclusions sample_catalog |}.

(** The settings of an operator: an alias, an exclusion and a custom model. *)
Definition local_alias : ModelAliasRule :=
  {| alias := "mine"; target := "m3"; rule_provider_id := None |}.
Definition local_exclusions : gset ModelExclusionRule :=
  {[ {| excl_model_id := "m1"; excl_provider_id := None |} ]}.
Definition sample_composition : result RegistryError RegistrySnapshot :=
  compose_with_settings sample_catalog [local_alias] local_exclusions
    [bound_model "m3" "p"] [].
Definition sample_composed : RegistrySnapshot :=
  match sample_composition with Ok s => s | Err _ => sample_catalog end.

Lemma validate_resolves_witness :
  validate sample_catalog = Ok tt ∧
  ∃ c, resolve_alias sample_catalog "latest" = Ok c ∧ aliases sample_catalog !! c = None.
Proof.
  assert (H : validate sample_catalog = Ok tt) by (vm_compute; reflexivity).
  split; [exact H|].
  destruct (validate_resolves sample_catalog H "latest") as (c & Hc & Hn & _).
  exists c. split; assumption.
Defined.

Lemma build_resolves_witness :
  Builder.build sample_builder = Ok sample_catalog ∧
  ∃ c, resolve_alias sample_catalog "latest" = Ok c ∧ aliases sample_catalog !! c = None.
Proof.
  assert (H : Builder.build sample_builder = Ok sample_catalog) by (vm_compute; reflexivity).
  split; [exact H|].
  destruct (build_resolves sample_builder sample_catalog H "latest") as (c & Hc & Hn & _).
  exists c. split; assumption.
Defined.

Lemma compose_valid_witness :
  is_ok sample_composition = true ∧ validate sample_composed = Ok tt.
Proof.
  split; [vm_compute; reflexivity|].
  apply (compose_valid sample_catalog [local_alias] local_exclusions
           [bound_model "m3" "p"] []).
  - vm_compute; reflexivity.
  - apply (bool_decide_unpack _). vm_compute. exact I.
  - vm_compute; reflexivity.
Defined.

Lemma compose_no_blackout_witness :
  ∃ m', m' ∈ provider_models sample_catalog [bound_model "m3" "p"] "p" ∧
    ({| excl_model_id := m'; excl_provider_id := None |} ∉ local_exclusions) ∧
    ({| excl_model_id := m'; excl_provider_id := Some "p" |} ∉ local_exclusions).
Proof.
  apply (compose_no_blackout sample_catalog [local_alias] local_exclusions
           [bound_model "m3" "p"] [] sample_composed "p" "m1").
  - vm_compute; reflexivity.
  - apply not_elem_of_nil.
  - apply (bool_decide_unpack _). vm_compute. exact I.
  - apply (bool_decide_unpack _). vm_compute. exact I.
Defined.
