(* ===== verification/RegistryResolve.v ===== *)
(** * What a request resolves to, and who may change a binding

    The guarantees of [resolve], of the per-provider contribution view, of
    merging bindings and of dynamic discovery. *)

From Stdlib Require Import Ascii.
From stdpp Require Import gmap strings list sorting.
From S2P Require Import Prelude RustStr RegistryTypes RegistrySnapshot RegistryBuilder RegistryProps.
Import RustStr Registry Snapshot Builder.
Open Scope Z_scope.

(** ** Resolution *)
Section resolve.
Implicit Types (self : RegistrySnapshot) (d : ModelDescriptor) (b : ProviderBinding).

Global Instance binding_ltb_sw : StrictWeak binding_ltb.
Proof.
  apply lex_sw; [apply flip_sw, on_key_sw, Z_ltb_sw|].
  apply lex_sw; [apply flip_sw, on_key_sw, Z_ltb_sw|apply on_key_sw, string_ltb_sw].
Qed.

(** Highest priority first, then the source of highest precedence, then the
    smaller provider id. *)
Definition binding_before (a b : ProviderBinding) : Prop :=
  priority b < priority a ∨
  priority a = priority b ∧
  (precedence (source b) < precedence (source a) ∨
   precedence (source a) = precedence (source b) ∧
   string_ltb (provider_id b) (provider_id a) = false).

Definition binding_sorted : list ProviderBinding → Prop := StronglySorted binding_before.

Lemma binding_ltb_before a b : binding_ltb b a = false → binding_before a b.
Proof.
  unfold binding_ltb, binding_before, flip, on_key. rewrite !lex_false.
  rewrite !Z.ltb_ge, !Z.ltb_lt. intros [? [?|[? [?|?]]]]; [lia|lia|].
  destruct (Z.lt_ge_cases (priority b) (priority a)); [by left|right].
  split; [lia|]. destruct (Z.lt_ge_cases (precedence (source b)) (precedence (source a)));
    [by left|right; split; [lia|done]].
Qed.

(** The bindings of a model that no exclusion removes. *)
Definition admitted self (c : ModelId) d b : Prop :=
  excluded self c (Some (provider_id b)) = false ∧ ∃ p, bindings d !! p = Some b.

Lemma elem_of_admitted self c d b :
  b ∈ filter (λ b, excluded self c (Some (provider_id b)) = false) (btree_values (bindings d))
  ↔ admitted self c d b.
Proof. by rewrite list_elem_of_filter, elem_of_btree_values. Qed.

Lemma synthesize_admitted self c opens b :
  b ∈ synthesize self c opens →
  excluded self c (Some (provider_id b)) = false ∧ policy b = PolicyOpen ∧
  provider_id b ∈ opens.
Proof.
  intros (p & -> & [He Hp]%list_elem_of_filter)%list_elem_of_fmap. done.
Qed.

Lemma open_providers_open self r c p :
  p ∈ open_providers self r c → providers self !! p = Some PolicyOpen.
Proof.
  intros ([p' pol] & -> & [Hp Hin]%list_elem_of_filter)%list_elem_of_fmap. cbn in *.
  apply elem_of_btree_entries in Hin. destruct Hp as [-> _]. done.
Qed.

Lemma eligible_cases self c opens d b :
  b ∈ eligible_for self c opens d →
  admitted self c d b ∨
  bindings d = ∅ ∧ excluded self c (Some (provider_id b)) = false ∧
    policy b = PolicyOpen ∧ provider_id b ∈ opens.
Proof.
  unfold eligible_for. set (adm := filter _ (btree_values _)).
  destruct (filter (λ b, policy b ≠ PolicyOpen) adm) as [|x cs] eqn:Ec;
    [destruct (filter (λ b, policy b = PolicyOpen) adm) as [|x os] eqn:Eo|].
  - destruct (bool_decide (bindings d = ∅)) eqn:He; cbn; [|by intros ?%elem_of_nil].
    case_if; [|by intros ?%elem_of_nil]. bool_to_prop.
    intros (? & ? & ?)%synthesize_admitted. right. auto.
  - rewrite sort_by_elem_of, <- Eo. intros [_ Hb]%list_elem_of_filter.
    left. by apply elem_of_admitted.
  - rewrite sort_by_elem_of, <- Ec. intros [_ Hb]%list_elem_of_filter.
    left. by apply elem_of_admitted.
Qed.

(** The steps every successful resolution goes through. *)
Lemma resolve_steps self req r :
  resolve self req = Ok r →
  resolve_alias self req = Ok (canonical_id r) ∧
  excluded self (canonical_id r) None = false ∧
  descriptor r = models self !! canonical_id r ∧
  (∃ b bs, eligible_bindings r = b :: bs ∧ res_source r = source b) ∧
  match descriptor r with
  | Some d => eligible_bindings r =
                eligible_for self (canonical_id r) (open_providers self req (canonical_id r)) d
  | None => eligible_bindings r =
              synthesize self (canonical_id r) (open_providers self req (canonical_id r))
  end.
Proof.
  unfold resolve. intros (m & Hm & H)%rbind_Ok. apply ModelId_new_Ok in Hm as ->.
  apply rbind_Ok in H as (c & Hc & H). destruct (excluded self c None) eqn:He; [done|].
  cbn in H. destruct (models self !! c) as [d|] eqn:Hd.
  - destruct (eligible_for _ _ _ _) as [|b bs] eqn:Hel; [done|]. injection H as <-. cbn.
    rewrite Hel. split_and!; eauto.
  - case_bool_decide; [done|]. case_if; [done|].
    destruct (synthesize _ _ _) as [|b bs] eqn:Hs; [done|]. injection H as <-. cbn.
    rewrite Hs. split_and!; eauto. exists b, bs. split; [done|].
    assert (Hb : b ∈ synthesize self c (open_providers self req c)) by (rewrite Hs; left).
    apply list_elem_of_fmap in Hb as (p & -> & _). done.
Qed.

(** C17: Exclusions are final.  Whatever a request resolves to, the resolved model
    is not excluded globally, no eligible binding belongs to a provider that is
    excluded for the model, and every eligible binding is either one of the
    model's own catalog bindings or an open provider's fallback for a model
    that has none. *)
Theorem resolve_respects_exclusions self req r b :
  resolve self req = Ok r → b ∈ eligible_bindings r →
  excluded self (canonical_id r) None = false ∧
  excluded self (canonical_id r) (Some (provider_id b)) = false ∧
  ((∃ d p, models self !! canonical_id r = Some d ∧ bindings d !! p = Some b) ∨
   policy b = PolicyOpen ∧ providers self !! provider_id b = Some PolicyOpen ∧
   ∀ d, models self !! canonical_id r = Some d → bindings d = ∅).
Proof.
  intros (_ & He & Hd & _ & Hel)%resolve_steps Hb. split; [done|].
  rewrite Hd in Hel. destruct (models self !! canonical_id r) as [d|] eqn:Hm; rewrite Hel in Hb.
  - apply eligible_cases in Hb as [[Hx (p & Hp)]|(Hemp & Hx & Hpol & Hop)].
    + split; [done|]. left. eauto.
    + split; [done|]. right. apply open_providers_open in Hop. naive_solver.
  - apply synthesize_admitted in Hb as (Hx & Hpol & Hop). apply open_providers_open in Hop.
    split; [done|]. right. naive_solver.
Qed.

(** A claimed model cannot be stolen.  If the id resolves to a catalog model
    that is not excluded and has at least one admitted binding of a closed or
    discovered provider, then resolution succeeds and the eligible bindings
    are exactly the admitted closed and discovered ones - no open provider
    among them - in order of priority, then precedence of the source, then
    provider id. *)
Theorem resolve_claimed self req d b0 :
  is_ok (ModelId_new req) = true →
  ∀ c, resolve_alias self req = Ok c → excluded self c None = false →
  models self !! c = Some d → admitted self c d b0 → policy b0 ≠ PolicyOpen →
  ∃ r, resolve self req = Ok r ∧ canonical_id r = c ∧ binding_sorted (eligible_bindings r) ∧
       ∀ b, b ∈ eligible_bindings r ↔ admitted self c d b ∧ policy b ≠ PolicyOpen.
Proof.
  intros Hreq c Hc He Hd Hb0 Hpol. unfold resolve.
  destruct (ModelId_new req) as [m|] eqn:Hm; [|done]. apply ModelId_new_Ok in Hm as ->.
  cbn [mbind result_bind]. rewrite Hc. cbn [mbind result_bind]. rewrite He, Hd. unfold eligible_for.
  set (adm := filter _ (btree_values _)).
  destruct (filter (λ b, policy b ≠ PolicyOpen) adm) as [|x cs] eqn:Ec.
  { assert (Hin : b0 ∈ filter (λ b, policy b ≠ PolicyOpen) adm).
    { apply list_elem_of_filter. split; [done|]. by apply elem_of_admitted. }
    rewrite Ec in Hin. by apply elem_of_nil in Hin. }
  rewrite <- Ec.
  assert (Hs : ∀ b, b ∈ sort_by binding_ltb (filter (λ b, policy b ≠ PolicyOpen) adm) ↔
                    b ∈ filter (λ b, policy b ≠ PolicyOpen) adm)
    by (intros; apply sort_by_elem_of).
  pose proof (sort_by_sorted binding_ltb (filter (λ b, policy b ≠ PolicyOpen) adm)) as Hst.
  destruct (sort_by binding_ltb (filter _ adm)) as [|y ys] eqn:Es.
  { exfalso. apply (not_elem_of_nil (A:=ProviderBinding) x). apply Hs. rewrite Ec. left. }
  eexists. split; [reflexivity|]. cbn. split; [done|]. split.
  { eapply StronglySorted_mono; [|exact Hst]. intros. by apply binding_ltb_before. }
  intros b. rewrite Hs, list_elem_of_filter, <- elem_of_admitted. tauto.
Qed.

(** A namespace cannot be stolen.  An id in the namespace of a provider that
    is not open ([devin/...]) and not in the catalog is an unknown model,
    whatever open providers are registered. *)
Theorem resolve_namespace_guard self req c ns rest :
  is_ok (ModelId_new req) = true → resolve_alias self req = Ok c →
  excluded self c None = false → models self !! c = None →
  split_once "/"%char c = Some (ns, rest) → providers self !! ns ≠ Some PolicyOpen →
  resolve self req = Err (UnknownModel c).
Proof.
  intros Hreq Hc He Hd Hns Hpol. unfold resolve.
  destruct (ModelId_new req) as [m|] eqn:Hm; [|done]. apply ModelId_new_Ok in Hm as ->.
  cbn [mbind result_bind]. rewrite Hc. cbn [mbind result_bind]. rewrite He, Hd.
  assert (Hop : open_providers self req c = []); [|by rewrite Hop].
  destruct (open_providers self req c) as [|p ps] eqn:E; [done|]. exfalso.
  assert (Hp : p ∈ open_providers self req c) by (rewrite E; left).
  pose proof (open_providers_open _ _ _ _ Hp) as Ho.
  apply list_elem_of_fmap in Hp as ([p' pol] & -> & [(_ & _ & Hn) _]%list_elem_of_filter).
  cbn in *. unfold namespace_admits in Hn. rewrite Hns in Hn. bool_to_prop. by subst.
Qed.
End resolve.

(** ** The contribution view terminates *)

(** [follow] needs at most [room] hops, and each nested call of
    [capability_profile] makes one. *)
Lemma capability_profile_follow al c room : ∀ vis m o x fuel,
  (∀ a, a ∈ contrib_aliases c → al !! alias a = Some a) →
  follow al o room vis m = Ok x → (room < fuel)%nat → capability_profile fuel c m ≠ None.
Proof.
  induction room as [|room IH]; intros vis m o x fuel Hal Hf Hlt;
    (destruct fuel as [|fuel]; [lia|]); cbn;
    (destruct (find_map _ (contrib_models c)); [done|]);
    destruct (find_map _ (contrib_aliases c)) as [t|] eqn:Ha; try (by case_if);
    apply find_map_Some in Ha as (a & Hin & Ht); case_bool_decide; [|done| |done]; subst;
    injection Ht as <-; apply Hal in Hin; cbn in Hf; rewrite Hin in Hf; case_if; try done.
  eapply IH; [done..|exact Hf|lia].
Qed.

(** The alias keys of a builder are always the aliases of their rules. *)
Definition alias_keyed (b : RegistryBuilder) : Prop :=
  ∀ k r, b_aliases b !! k = Some r → alias r = k.

Lemma add_alias_keyed b a t p : alias_keyed b → alias_keyed (add_alias b a t p).
Proof.
  intros Hb k r H. cbn in H. apply lookup_insert_Some in H as [[<- <-]|[_ ?]]; [done|by apply Hb].
Qed.

Lemma add_rules_keyed rs : ∀ b, alias_keyed b → alias_keyed (foldl add_alias_rule b rs).
Proof. induction rs as [|r rs IH]; intros b Hb; cbn; [done|]. apply IH. by apply add_alias_keyed. Qed.

Lemma apply_items_aliases p pol items : ∀ b,
  b_aliases (apply_items p pol b items).1 = b_aliases b.
Proof.
  induction items as [|item items IH]; intros b; cbn; [done|].
  destruct item as [d|d]; cbn; [by rewrite IH|].
  destruct pol; cbn; [done|by rewrite IH..].
Qed.

Lemma apply_contribution_keyed b c :
  alias_keyed b → alias_keyed (apply_contribution b c).1.
Proof.
  intros Hb. unfold apply_contribution.
  set (b1 := match contrib_policy c with Some _ => _ | None => _ end).
  assert (Hb1 : alias_keyed b1) by (unfold b1; destruct (contrib_policy c); [case_if|]; done).
  destruct (b_providers b1 !! _) as [pol|]; cbn; [|done].
  pose proof (apply_items_aliases (contrib_provider_id c) pol (contrib_models c) b1) as Hi.
  destruct (apply_items _ _ _ _) as [b2 [[]|e]]; cbn in *;
    [apply add_rules_keyed|]; unfold alias_keyed; by rewrite Hi.
Qed.

Lemma run_op_keyed b op : alias_keyed b → alias_keyed (run_op b op).1.
Proof.
  intros Hb. destruct op; cbn; try exact Hb.
  - unfold add_binding. by case_if.
  - by apply apply_contribution_keyed.
  - by apply add_alias_keyed.
Qed.

(** Any sequence of builder calls, errors included. *)
Definition run_ops (v : Z) (s : CatalogSource) (ops : list BuilderOp) : RegistryBuilder :=
  foldl (λ b op, (run_op b op).1) (new v s) ops.

Lemma run_ops_keyed v s ops : alias_keyed (run_ops v s ops).
Proof.
  unfold run_ops. induction ops as [|op ops IH] using rev_ind; [done|].
  rewrite foldl_app. by apply run_op_keyed.
Qed.

(** For every snapshot built by any sequence of builder calls, the recursion of
    [capability_profile] over a provider's contribution ends, after at most
    [MAX_ALIAS_DEPTH + 1] nested calls, for every provider and model. *)
Theorem built_profile_terminates v s ops self p m :
  build (run_ops v s ops) = Ok self →
  capability_profile (S MAX_ALIAS_DEPTH) (contribution_for_provider self p) m ≠ None.
Proof.
  intros Hb. pose proof (run_ops_keyed v s ops) as Hk. unfold build in Hb.
  apply rbind_Ok in Hb as ([] & Hv & Hb). destruct (_ && _); [done|]. injection Hb as <-.
  destruct (validate_target_sound _ _ Hv m) as (c & Hc & _).
  eapply capability_profile_follow; [|exact Hc|lia].
  intros a [_ Ha]%list_elem_of_filter. apply elem_of_btree_values in Ha as [k Ha].
  by rewrite (Hk _ _ Ha).
Qed.

Definition looping : ProviderContribution :=
  {| contrib_provider_id := "p"; contrib_policy := None; contrib_models := [];
     contrib_aliases := [{| alias := "a"; target := "a"; rule_provider_id := None |}] |}.

(** Nothing in [capability_profile] itself stops the recursion: on a
    contribution with an alias cycle no number of nested calls is enough. *)
Theorem capability_profile_diverges fuel : capability_profile fuel looping "a" = None.
Proof. induction fuel as [|fuel IH]; [done|]. cbn. exact IH. Qed.

(** ** Merging bindings *)
Section merge.
Implicit Types a b c : ProviderBinding.

(** A binding with authority over all its fields that names its upstream model. *)
Definition authoritative b : Prop :=
  authority b = mask_ALL ∧ is_Some (upstream_model_id b).

Definition with_upstream u b : ProviderBinding :=
  {| provider_id := provider_id b; policy := policy b; source := source b;
     upstream_model_id := u; capabilities := capabilities b; authority := authority b;
     priority := priority b |}.

Lemma precedence_inj s t : precedence s = precedence t → s = t.
Proof. by destruct s, t. Qed.

Definition rank b : Z * Z := (precedence (source b), priority b).

Lemma incoming_wins_rank a b :
  incoming_wins a b = true ↔
  precedence (source a) < precedence (source b) ∨
  precedence (source a) = precedence (source b) ∧ priority a < priority b.
Proof.
  unfold incoming_wins, is_higher_precedence_than. rewrite orb_true_iff, andb_true_iff.
  rewrite !Z.ltb_lt, bool_decide_eq_true. split; [intros [?|[-> ?]]; auto|].
  intros [?|[?%precedence_inj ?]]; auto.
Qed.

(** Between authoritative bindings of one provider with different ranks, the
    merge is the one that outranks the other. *)
Lemma merge_authoritative a b :
  authoritative a → authoritative b → provider_id a = provider_id b → rank a ≠ rank b →
  merge_with a b = if incoming_wins a b then b else a.
Proof.
  intros [Ha [ua Hua]] [Hb [ub Hub]] Hp Hr. unfold merge_with.
  destruct (incoming_wins a b) eqn:Hw.
  - destruct a, b; cbn in *; subst. done.
  - rewrite bool_decide_decide. destruct (decide (source a = source b)) as [Hs|Hs]; cbn;
      [case_if|].
    + bool_to_prop. exfalso. apply Hr. unfold rank. congruence.
    + destruct a, b; cbn in *; subst. done.
    + destruct a, b; cbn in *; subst. done.
Qed.

Definition merge_all a (bs : list ProviderBinding) : ProviderBinding := foldl merge_with a bs.

Lemma merge_all_max bs : ∀ a p,
  Forall (λ b, authoritative b ∧ provider_id b = p) (a :: bs) → NoDup (rank <$> a :: bs) →
  merge_all a bs ∈ a :: bs ∧
  ∀ b, b ∈ a :: bs → b = merge_all a bs ∨ incoming_wins b (merge_all a bs) = true.
Proof.
  induction bs as [|b bs IH]; intros a p Hall Hnd.
  { cbn. split; [left|]. intros b Hb. left. by apply list_elem_of_singleton in Hb. }
  apply list.Forall_cons in Hall as [[Ha Hpa] Hall].
  pose proof Hall as [[Hb Hpb] Hall']%list.Forall_cons.
  rewrite !fmap_cons in Hnd. apply NoDup_cons in Hnd as [Hna Hnd].
  pose proof Hnd as [Hnb Hnd']%NoDup_cons.
  assert (Hr : rank a ≠ rank b) by (intros E; apply Hna; rewrite E; left).
  assert (Hm : merge_with a b = if incoming_wins a b then b else a)
    by (apply merge_authoritative; congruence || done).
  change (merge_all a (b :: bs)) with (merge_all (merge_with a b) bs). rewrite Hm.
  destruct (incoming_wins a b) eqn:Hw.
  - destruct (IH b p) as [Hin Hmax]; [done..|]. split; [by right|].
    intros x [->|Hx]%elem_of_cons; [|by apply Hmax]. right.
    destruct (Hmax b) as [<-|Hb']; [left|done|].
    rewrite incoming_wins_rank in *. lia.
  - destruct (IH a p) as [Hin Hmax]; [by constructor| |].
    { rewrite fmap_cons. apply NoDup_cons. split; [|done]. intros ?. apply Hna. by right. }
    split; [apply elem_of_cons in Hin as [->|]; [left|by do 2 right]|].
    intros x [->|[->|Hx]%elem_of_cons]%elem_of_cons; [apply Hmax; left| |apply Hmax; by right].
    right. assert (Hba : incoming_wins b a = true).
    { destruct (incoming_wins b a) eqn:E; [done|]. exfalso. apply Hr.
      rewrite <- not_true_iff_false, incoming_wins_rank in Hw, E. unfold rank. f_equal; lia. }
    destruct (Hmax a) as [<-|Hb']; [left|done|]. rewrite incoming_wins_rank in *. lia.
Qed.

(** No other field depends on the upstream names. *)
Lemma merge_named u a b :
  merge_with (with_upstream (Some u) a) (with_upstream (Some u) b) =
  with_upstream (Some u) (merge_with a b).
Proof.
  unfold merge_with, incoming_wins. cbn.
  destruct (_ || _); [by case_match|]. destruct (_ && _); by repeat case_match.
Qed.

Lemma merge_all_named u bs : ∀ a,
  merge_all (with_upstream (Some u) a) (with_upstream (Some u) <$> bs) =
  with_upstream (Some u) (merge_all a bs).
Proof.
  induction bs as [|b bs IH]; intros a; [done|]. rewrite fmap_cons.
  change (merge_all ?x (?y :: ?l)) with (merge_all (merge_with x y) l). by rewrite merge_named, IH.
Qed.

Lemma merge_all_order a bs c cs p :
  Forall (λ b, authoritative b ∧ provider_id b = p) (a :: bs) →
  NoDup (rank <$> a :: bs) → a :: bs ≡ₚ c :: cs → merge_all a bs = merge_all c cs.
Proof.
  intros Hall Hnd Hperm. destruct (merge_all_max bs a p Hall Hnd) as [Hin Hmax].
  destruct (merge_all_max cs c p) as [Hin' Hmax']; [by rewrite <- Hperm|by rewrite <- Hperm|].
  rewrite <- Hperm in Hin'. rewrite Hperm in Hin.
  destruct (Hmax _ Hin') as [|H1]; [done|]. destruct (Hmax' _ Hin) as [|H2]; [done|].
  rewrite incoming_wins_rank in *. lia.
Qed.

(** C19: Merging is insensitive to the order of arrival, but for the upstream name.  For
    bindings of one provider, all with full authority, with pairwise different (source,
    priority), any two orders of merging agree on every field other than
    [upstream_model_id], and these fields are those of one of the bindings: the one that
    wins against every other, by the precedence of its source, then by priority.  When
    moreover every binding names its upstream model, the two orders give the very same
    binding, which is that one.  (When one names none, as a new binding does, the merged
    name does depend on the order: [upstream_depends_on_order].) *)
Theorem merge_order_independent a bs c cs p :
  Forall (λ b, authority b = mask_ALL ∧ provider_id b = p) (a :: bs) →
  NoDup (rank <$> a :: bs) → a :: bs ≡ₚ c :: cs →
  with_upstream None (merge_all a bs) = with_upstream None (merge_all c cs) ∧
  ∃ w, w ∈ a :: bs ∧ (∀ b, b ∈ a :: bs → b = w ∨ incoming_wins b w = true) ∧
    with_upstream None (merge_all a bs) = with_upstream None w ∧
    (Forall (λ b, is_Some (upstream_model_id b)) (a :: bs) →
     merge_all a bs = w ∧ merge_all c cs = w).
Proof.
  intros Hall Hnd Hperm.
  set (nm := with_upstream (Some "")).
  assert (Hall' : Forall (λ b, authoritative b ∧ provider_id b = p) (nm a :: (nm <$> bs))).
  { change (nm a :: (nm <$> bs)) with (nm <$> a :: bs). apply Forall_fmap.
    eapply Forall_impl; [exact Hall|]. intros b [? ?]. by split; [split; [|eexists]|]. }
  assert (Hrank : rank <$> nm a :: (nm <$> bs) = rank <$> a :: bs).
  { change (nm a :: (nm <$> bs)) with (nm <$> a :: bs). rewrite <- list_fmap_compose.
    by apply list_fmap_ext. }
  assert (Hnone : ∀ b, with_upstream None (nm b) = with_upstream None b) by done.
  split.
  - rewrite <- (Hnone (merge_all a bs)), <- (Hnone (merge_all c cs)). unfold nm.
    rewrite <- !merge_all_named. f_equal. apply (merge_all_order _ _ _ _ p); [done|by unfold nm in Hrank; rewrite Hrank|].
    change (nm <$> a :: bs ≡ₚ nm <$> c :: cs). by rewrite Hperm.
  - destruct (merge_all_max (nm <$> bs) (nm a) p) as [Hin Hmax]; [done|by rewrite Hrank|].
    change (nm a :: (nm <$> bs)) with (nm <$> a :: bs) in Hin, Hmax. unfold nm in Hin at 1, Hmax.
    rewrite merge_all_named in Hin, Hmax. apply list_elem_of_fmap in Hin as (w & Hw & Hin).
    rewrite Hw in Hmax.
    assert (Hwin : ∀ b, b ∈ a :: bs → b = w ∨ incoming_wins b w = true).
    { intros b Hb. destruct (Hmax (nm b)) as [E|E]; [by apply list_elem_of_fmap_2| |by right].
      left. assert (Er : rank b = rank w) by (by apply (f_equal rank) in E).
      apply list_elem_of_lookup in Hb as (i & Hi). apply list_elem_of_lookup in Hin as (j & Hj).
      assert (i = j) as ->; [|congruence].
      apply (NoDup_lookup (rank <$> a :: bs) i j (rank b)); [done| |];
        rewrite list_lookup_fmap, ?Hi, ?Hj; cbn; congruence. }
    exists w. split_and!; [done|done| |].
    + rewrite <- (Hnone (merge_all a bs)). unfold nm. by rewrite Hw.
    + intros Hup.
      assert (Ha : Forall (λ b, authoritative b ∧ provider_id b = p) (a :: bs)).
      { apply list.Forall_forall. intros b Hb. rewrite list.Forall_forall in Hall, Hup.
        destruct (Hall b Hb). by split; [split; [|apply Hup]|]. }
      destruct (merge_all_max bs a p Ha Hnd) as [Hin2 Hmax2].
      rewrite <- (merge_all_order a bs c cs p Ha Hnd Hperm).
      enough (merge_all a bs = w) by done.
      destruct (Hmax2 w Hin) as [|H1]; [done|]. destruct (Hwin _ Hin2) as [|H2]; [done|].
      rewrite incoming_wins_rank in *. lia.
Qed.
End merge.

(** ** Dynamic discovery *)
Section discovery.
Implicit Types (b : RegistryBuilder) (x y : ProviderBinding).

(** [y] is [x] possibly supplemented: nothing the catalog declared is lost. *)
Record keeps x y : Prop := {
  keeps_provider : provider_id y = provider_id x;
  keeps_source : source y = source x;
  keeps_policy : policy y = policy x;
  keeps_priority : priority y = priority x;
  keeps_caps : capabilities x ⊆ capabilities y;
  keeps_upstream : is_Some (upstream_model_id x) →
                   upstream_model_id y = upstream_model_id x;
}.

Definition catalog_kept b b' : Prop :=
  ∀ m d p x, b_models b !! m = Some d → bindings d !! p = Some x → source x ≠ Discovered →
  ∃ d' x', b_models b' !! m = Some d' ∧ bindings d' !! p = Some x' ∧ keeps x x'.

Global Instance keeps_preorder : PreOrder keeps.
Proof.
  split.
  - intros x. by split.
  - intros x y z [] []. split; try congruence; [set_solver|].
    intros Hx. rewrite <- keeps_upstream0 by done. apply keeps_upstream1.
    by rewrite keeps_upstream0.
Qed.

Global Instance catalog_kept_preorder : PreOrder catalog_kept.
Proof.
  split.
  - intros b m d p x ? ? ?. exists d, x. by split_and!.
  - intros b1 b2 b3 H12 H23 m d p x Hm Hp Hs.
    destruct (H12 _ _ _ _ Hm Hp Hs) as (d2 & x2 & Hm2 & Hp2 & Hk).
    destruct (H23 _ _ _ _ Hm2 Hp2) as (d3 & x3 & ? & ? & ?).
    { rewrite (keeps_source _ _ Hk). done. }
    exists d3, x3. split_and!; [done..|]. by transitivity x2.
Qed.

Lemma supplement_keeps x y d : keeps x (supplement x y d).
Proof.
  split; cbn; try done.
  - case_if; set_solver.
  - intros [u Hu]. rewrite Hu. cbn. by rewrite andb_false_r.
Qed.

Lemma discover_kept b p pol d : catalog_kept b (discover b p pol d).
Proof.
  intros m dd q x Hm Hq Hs. unfold discover, put_model. cbn.
  destruct (decide (disc_id d = m)) as [<-|Hne].
  2: { exists dd, x. rewrite lookup_insert_ne by done. split_and!; [done..|reflexivity]. }
  unfold entry_or_new. rewrite Hm. cbn. rewrite lookup_insert_eq.
  set (md := match context_limit d with Some _ => _ | None => _ end).
  assert (Hmd : bindings md = bindings dd) by (unfold md; by destruct (context_limit d)).
  rewrite Hmd. destruct (decide (p = q)) as [<-|Hne].
  - rewrite Hq. eexists _, _. split; [reflexivity|]. cbn. rewrite lookup_insert_eq.
    split; [reflexivity|]. rewrite bool_decide_eq_true_2 by done. apply supplement_keeps.
  - eexists _, x. split; [reflexivity|]. cbn.
    destruct (bindings dd !! p); rewrite lookup_insert_ne by done; split; done || reflexivity.
Qed.

Definition is_discovered (i : ContributionItem) : Prop :=
  match i with ItemDiscovered _ => True | ItemDescriptor _ => False end.

Lemma apply_items_kept p pol items : ∀ b,
  Forall is_discovered items → catalog_kept b (apply_items p pol b items).1.
Proof.
  induction items as [|[d|d] items IH]; intros b Hall; cbn; [reflexivity|..];
    apply list.Forall_cons in Hall as [Hd Hall]; [done|].
  destruct pol; cbn; [reflexivity|..];
    (transitivity (discover b p PolicyDiscovered d); [apply discover_kept|by apply IH]) ||
    (transitivity (discover b p PolicyOpen d); [apply discover_kept|by apply IH]).
Qed.

Lemma add_rules_models rs : ∀ b, b_models (foldl add_alias_rule b rs) = b_models b.
Proof. induction rs as [|r rs IH]; intros b; cbn; [done|]. by rewrite IH. Qed.

(** Discovery only supplements the catalog.  Applying a contribution of
    discovered models - whether it succeeds or is rejected half-way - keeps
    every binding that came from a catalog source: its source, policy,
    priority and upstream id are unchanged and no declared capability is
    lost. *)
Theorem discovery_keeps_catalog b c :
  Forall is_discovered (contrib_models c) → catalog_kept b (apply_contribution b c).1.
Proof.
  intros Hall. unfold apply_contribution.
  set (b1 := match contrib_policy c with Some _ => _ | None => _ end).
  assert (Hb1 : b_models b1 = b_models b)
    by (unfold b1; destruct (contrib_policy c); [case_if|]; done).
  assert (H01 : catalog_kept b b1).
  { intros m d p x Hm Hp Hs. exists d, x. rewrite Hb1. by split_and!. }
  transitivity b1; [done|].
  destruct (b_providers b1 !! _) as [pol|]; cbn; [|reflexivity].
  pose proof (apply_items_kept (contrib_provider_id c) pol (contrib_models c) b1 Hall) as Hk.
  destruct (apply_items _ _ _ _) as [b2 [[]|e]]; cbn in *; [|done].
  intros m d p x Hm Hp Hs. rewrite add_rules_models. by apply Hk with (d := d).
Qed.

(** A closed provider accepts no discovery.  If its contribution contains a
    discovered model, the whole contribution is an error that names it, and no
    alias of the contribution is registered. *)
Theorem closed_rejects_discovery b c d :
  b_providers b !! contrib_provider_id c = Some PolicyClosed →
  ItemDiscovered d ∈ contrib_models c →
  ∃ d', ItemDiscovered d' ∈ contrib_models c ∧
    (apply_contribution b c).2 =
      Err (UnauthorizedContribution (contrib_provider_id c) PolicyClosed (disc_id d')) ∧
    b_aliases (apply_contribution b c).1 = b_aliases b.
Proof.
  intros Hpol Hd. unfold apply_contribution.
  set (b1 := match contrib_policy c with Some _ => _ | None => _ end).
  assert (b1 = b) as -> by (unfold b1; destruct (contrib_policy c); [rewrite Hpol|]; done).
  rewrite Hpol.
  assert (H : ∃ d', ItemDiscovered d' ∈ contrib_models c ∧
            (apply_items (contrib_provider_id c) PolicyClosed b (contrib_models c)).2 =
            Err (UnauthorizedContribution (contrib_provider_id c) PolicyClosed (disc_id d'))).
  { revert b Hpol. generalize (contrib_provider_id c) as p.
    induction (contrib_models c) as [|[dd|dd] items IH]; intros p b Hpol.
    - by apply elem_of_nil in Hd.
    - apply elem_of_cons in Hd as [|Hd]; [done|].
      destruct (IH Hd p (add_model b dd).1) as (d' & ? & ?); [done|].
      exists d'. split; [by right|done].
    - exists dd. split; [left|done]. }
  destruct H as (d' & Hin & He). exists d'. split; [done|].
  pose proof (apply_items_aliases (contrib_provider_id c) PolicyClosed (contrib_models c) b) as Ha.
  destruct (apply_items _ _ _ _) as [b2 [[]|e]]; cbn in *; [done|].
  by injection He as ->.
Qed.
End discovery.

(** ** Instances of the theorems *)

Lemma resolve_exclusions_witness :
  ∃ r b, resolve sample_catalog "latest" = Ok r ∧ b ∈ eligible_bindings r ∧
    excluded sample_catalog (canonical_id r) (Some (provider_id b)) = false.
Proof.
  set (r := {| canonical_id := "m2"; descriptor := Some (bound_model "m2" "p");
               eligible_bindings := [ProviderBinding_new "p" PolicyClosed RemoteSigned];
               res_capabilities := ∅; res_source := RemoteSigned |}).
  set (b := ProviderBinding_new "p" PolicyClosed RemoteSigned).
  assert (Hr : resolve sample_catalog "latest" = Ok r) by (vm_compute; reflexivity).
  assert (Hb : b ∈ eligible_bindings r) by apply list_elem_of_here.
  exists r, b. split; [exact Hr|]. split; [exact Hb|].
  exact (proj1 (proj2 (resolve_respects_exclusions sample_catalog "latest" r b Hr Hb))).
Defined.

Lemma resolve_claimed_witness :
  ∃ r, resolve sample_catalog "latest" = Ok r ∧ canonical_id r = "m2" ∧
       binding_sorted (eligible_bindings r).
Proof.
  destruct (resolve_claimed sample_catalog "latest" (bound_model "m2" "p")
              (ProviderBinding_new "p" PolicyClosed RemoteSigned))
    with (c := "m2") as (r & Hr & Hc & Hs & _).
  - vm_compute; reflexivity.
  - vm_compute; reflexivity.
  - vm_compute; reflexivity.
  - vm_compute; reflexivity.
  - split; [vm_compute; reflexivity|]. exists "p". vm_compute; reflexivity.
  - discriminate.
  - exists r. auto.
Defined.

Lemma namespace_guard_witness :
  resolve sample_catalog "p/unlisted" = Err (UnknownModel "p/unlisted").
Proof.
  apply (resolve_namespace_guard sample_catalog "p/unlisted" "p/unlisted" "p" "unlisted");
    try (vm_compute; reflexivity). vm_compute. discriminate.
Defined.

(** A provider, a model, a dynamic contribution and an alias. *)
Definition sample_discovery : ProviderContribution :=
  {| contrib_provider_id := "q"; contrib_policy := Some PolicyDiscovered;
     contrib_models := [ItemDiscovered
       {| disc_id := "m1"; disc_capabilities := {[Chat]}; context_limit := None;
          disc_authority := mask_ALL |}];
     contrib_aliases := [] |}.

Definition sample_ops : list BuilderOp :=
  [RegisterProvider "p" PolicyClosed; AddModel (bound_model "m1" "p");
   ApplyContribution sample_discovery; AddAlias "latest" "m1" None].

Definition sample_built : RegistrySnapshot :=
  match build (run_ops 1 RemoteSigned sample_ops) with
  | Ok s => s | Err _ => sample_catalog end.

Lemma profile_terminates_witness :
  is_some (aliases sample_built !! "latest") = true ∧
  capability_profile (S MAX_ALIAS_DEPTH) (contribution_for_provider sample_built "p") "latest"
    ≠ None.
Proof.
  split; [vm_compute; reflexivity|].
  apply (built_profile_terminates 1 RemoteSigned sample_ops sample_built "p" "latest").
  vm_compute; reflexivity.
Defined.

(** Two bindings of one provider with full authority, from different sources. *)
Definition sample_binding (s : CatalogSource) : ProviderBinding :=
  {| provider_id := "p"; policy := PolicyClosed; source := s;
     upstream_model_id := Some "up"; capabilities := {[Chat]}; authority := mask_ALL;
     priority := 0 |}.

Lemma merge_order_witness :
  merge_all (sample_binding RemoteSigned) [sample_binding LocalOverride] =
  merge_all (sample_binding LocalOverride) [sample_binding RemoteSigned].
Proof.
  destruct (merge_order_independent (sample_binding RemoteSigned) [sample_binding LocalOverride]
              (sample_binding LocalOverride) [sample_binding RemoteSigned] "p")
    as (_ & w & _ & _ & _ & H).
  - repeat constructor.
  - apply (bool_decide_unpack _). vm_compute. exact I.
  - apply perm_swap.
  - destruct H as [H1 H2]; [|exact (eq_trans H1 (eq_sym H2))].
    repeat constructor; eexists; reflexivity.
Defined.

(** A binding that names no upstream model keeps the other's name when it arrives second
    and has none when it arrives first, with full authority on both sides. *)
Theorem upstream_depends_on_order :
  let named := sample_binding RemoteSigned in
  let unnamed := ProviderBinding_new "p" PolicyClosed LocalOverride in
  authority unnamed = mask_ALL ∧
  upstream_model_id (merge_all named [unnamed]) = Some "up" ∧
  upstream_model_id (merge_all unnamed [named]) = None.
Proof. vm_compute. split_and!; reflexivity. Qed.

Lemma discovery_keeps_witness :
  catalog_kept (run_ops 1 RemoteSigned [RegisterProvider "p" PolicyClosed;
                                        AddModel (bound_model "m1" "p")])
    (apply_contribution
       (run_ops 1 RemoteSigned [RegisterProvider "p" PolicyClosed;
                                AddModel (bound_model "m1" "p")]) sample_discovery).1.
Proof. apply discovery_keeps_catalog. repeat constructor. Defined.
