(* ===== verification/Types.v ===== *)
(** * Shared domain model (crates/types/src/lib.rs)

    The affinity hint of a request, the health of a pool member, the outcome of
    a served request, the routing strategy, and the [PoolMember] trait the
    router is written against. *)

From stdpp Require Import base strings.
From S2P Require Import Prelude.
Open Scope Z_scope.

Record SessionHint := { affinity_key : option string }.

Definition default_hint : SessionHint := {| affinity_key := None |}.

Inductive Health :=
  | Available
  | Cooldown (until_unix_ms : Z)
  | AuthFailed
  | Disabled.

Definition is_available (h : Health) (now_unix_ms : Z) : bool :=
  match h with
  | Available => true
  | Cooldown until_unix_ms => until_unix_ms <=? now_unix_ms
  | _ => false
  end.

Inductive Outcome :=
  | Success
  | RateLimited (retry_after_secs : option Z)
  | OutcomeAuthFailed
  | ServerError
  | NetworkError.

(** The trait, as the class of types a pool can be made of.  [reset_at_unix] and
    [weight] have default bodies in the trait. *)
Class PoolMember (M : Type) := {
  id : M → string;
  health : M → Health;
  reset_at_unix : M → option Z;
  weight : M → Z;
}.

Inductive Strategy :=
  | StrictRoundRobin
  | FillFirst.

Global Instance Strategy_eq_dec : EqDecision Strategy.
Proof. solve_decision. Defined.
Global Instance Health_eq_dec : EqDecision Health.
Proof. solve_decision. Defined.

(** A member with a fixed id and health, as the router's own tests use. *)
Record StaticMember := { sm_id : string; sm_health : Health }.
Global Instance StaticMember_pool : PoolMember StaticMember := {
  id := sm_id;
  health := sm_health;
  reset_at_unix := λ _, None;
  weight := λ _, 1;
}.

(** A cooldown never becomes unavailable again as time passes. *)
Lemma is_available_mono h t t' :
  t ≤ t' → is_available h t = true → is_available h t' = true.
Proof. destruct h; cbn; try done. intros. bool_to_prop. apply Z.leb_le. lia. Qed.
