(* ===== verification/Router.v ===== *)
(** * The account router (crates/router/src/lib.rs)

    [RouterState] and [Router] are the structs of the source; every public
    method is one function that returns its value and the next state.  The
    [Mutex] makes each method one atomic step, so interleavings are sequences of
    these functions; the wall clock read by [select] is its argument
    [now_unix_ms], and the health of each member is read once per call. *)

From stdpp Require Import gmap strings list.
From S2P Require Import Prelude Types.
Open Scope Z_scope.
Open Scope rust_scope.

Module AccountRouter.

Definition STRATEGY_STRICT_ROUND_ROBIN : Z := 0.
Definition STRATEGY_FILL_FIRST : Z := 1.

Definition strategy_to_u8 (strategy : Strategy) : Z :=
  match strategy with
  | StrictRoundRobin => STRATEGY_STRICT_ROUND_ROBIN
  | FillFirst => STRATEGY_FILL_FIRST
  end.

Definition u8_to_strategy (val : Z) : Strategy :=
  if val =? STRATEGY_FILL_FIRST then FillFirst else StrictRoundRobin.

Record RouterState := {
  active : option (gset string);
  last_served : gmap string Z;
  seq : Z;
  affinity : gmap string (string * Z);
}.

Definition default_state : RouterState :=
  {| active := None; last_served := ∅; seq := 0; affinity := ∅ |}.

Definition admits (st : RouterState) (id : string) : bool :=
  match active st with
  | None => true
  | Some active => bool_decide (id ∈ active)
  end.

Definition AFFINITY_MAX_IDLE : Z := 10000.
Definition AFFINITY_MAX_ENTRIES : nat := 1024.

Record Router := { strategy_u8 : Z; state : RouterState }.

Definition new (strategy : Strategy) : Router :=
  {| strategy_u8 := strategy_to_u8 strategy; state := default_state |}.

Definition strategy (r : Router) : Strategy := u8_to_strategy (strategy_u8 r).

Definition set_strategy (r : Router) (strategy : Strategy) : Router :=
  {| strategy_u8 := strategy_to_u8 strategy; state := state r |}.

(** The three field updates the methods make. *)
Definition with_seq (st : RouterState) (s : Z) : RouterState :=
  {| active := active st; last_served := last_served st; seq := s;
     affinity := affinity st |}.
Definition with_served (st : RouterState) (i : string) (s : Z) : RouterState :=
  {| active := active st; last_served := <[i := s]> (last_served st);
     seq := seq st; affinity := affinity st |}.
Definition with_affinity (st : RouterState) (m : gmap string (string * Z)) : RouterState :=
  {| active := active st; last_served := last_served st; seq := seq st; affinity := m |}.

Definition select_forced_state (st : RouterState) (member_id : string)
    (affinity_key : option string) : RouterState :=
  if negb (admits st member_id) then st
  else
    let seq := seq st +% 1 in
    let st := with_seq st seq in
    let st := with_served st member_id seq in
    match affinity_key with
    | Some key => with_affinity st (<[key := (member_id, seq)]> (affinity st))
    | None => st
    end.

Definition select_forced (r : Router) (member_id : string)
    (affinity_key : option string) : Router :=
  {| strategy_u8 := strategy_u8 r;
     state := select_forced_state (state r) member_id affinity_key |}.

(** Dropping idle scopes once the map is over [AFFINITY_MAX_ENTRIES]. *)
Definition evict_idle (st : RouterState) (seq : Z) : RouterState :=
  if (AFFINITY_MAX_ENTRIES <? size (affinity st))%nat then
    let cutoff := saturating_sub_u64 seq AFFINITY_MAX_IDLE in
    with_affinity st (filter (λ kv, cutoff ≤ kv.2.2) (affinity st))
  else st.

Section select.
Context {M : Type} `{PoolMember M}.

(** The bookkeeping both strategies do for a freshly chosen member. *)
Definition record_choice (st : RouterState) (hint : SessionHint)
    (chosen_id : string) : RouterState :=
  let seq := seq st +% 1 in
  let st := with_seq st seq in
  if admits st chosen_id then
    let st := with_served st chosen_id seq in
    match affinity_key hint with
    | Some key =>
        evict_idle (with_affinity st (<[key := (chosen_id, seq)]> (affinity st))) seq
    | None => st
    end
  else st.

(** The [for (idx, member) in members.iter().enumerate()] scan of
    [StrictRoundRobin]: the available member with the smallest stamp, the
    first index winning ties.  [rr_visit] is the loop body. *)
Definition rr_visit (served : gmap string Z) (now : Z) (idx : nat)
    (best : option (nat * Z)) (member : M) : option (nat * Z) :=
  if negb (is_available (health member) now) then best
  else
    let last_seq := default 0 (served !! id member) in
    match best with
    | None => Some (idx, last_seq)
    | Some (_, min_seq) =>
        if last_seq <? min_seq then Some (idx, last_seq) else best
    end.

Fixpoint rr_scan (served : gmap string Z) (now : Z) (idx : nat)
    (best : option (nat * Z)) (members : list M) : option (nat * Z) :=
  match members with
  | [] => best
  | member :: rest =>
      rr_scan served now (S idx) (rr_visit served now idx best member) rest
  end.

(** The sticky path: the bound account, if it is admitted and available. *)
Definition select_bound (st : RouterState) (members : list M)
    (hint : SessionHint) (now : Z) : option (nat * RouterState) :=
  match affinity_key hint with
  | None => None
  | Some key =>
      match affinity st !! key with
      | None => None
      | Some (bound_id, _) =>
          if admits st bound_id then
            match position (λ m, bool_decide (id m = bound_id)
                                 && is_available (health m) now) members with
            | Some idx =>
                let seq := seq st +% 1 in
                let st := with_seq st seq in
                let st := with_served st bound_id seq in
                Some (idx, with_affinity st (<[key := (bound_id, seq)]> (affinity st)))
            | None => None
            end
          else None
      end
  end.

Definition select_fresh (strategy : Strategy) (st : RouterState)
    (members : list M) (now : Z) : option nat :=
  match strategy with
  | FillFirst => position (λ m, is_available (health m) now) members
  | StrictRoundRobin => fst <$> rr_scan (last_served st) now 0 None members
  end.

Definition select_state (strategy : Strategy) (st : RouterState)
    (members : list M) (hint : SessionHint) (now_unix_ms : Z)
  : option nat * RouterState :=
  match select_bound st members hint now_unix_ms with
  | Some (idx, st') => (Some idx, st')
  | None =>
      match select_fresh strategy st members now_unix_ms with
      | None => (None, st)
      | Some chosen_idx =>
          match members !! chosen_idx with
          | Some m => (Some chosen_idx, record_choice st hint (id m))
          | None => (None, st) (* index out of bounds: the scan never does this *)
          end
      end
  end.

Definition select (r : Router) (members : list M) (hint : SessionHint)
    (now_unix_ms : Z) : option nat * Router :=
  let '(res, st) := select_state (strategy r) (state r) members hint now_unix_ms in
  (res, {| strategy_u8 := strategy_u8 r; state := st |}).
End select.

Definition feedback (r : Router) (_id : string) (_outcome : Outcome) : Router := r.

Definition bound_affinity_member (st : RouterState) (key : string) : option string :=
  fst <$> affinity st !! key.

Definition retain_members_state (st : RouterState) (act : gset string)
  : nat * RouterState :=
  let served := filter (λ kv, kv.1 ∈ act) (last_served st) in
  ((size (last_served st) - size served)%nat,
   {| active := Some act; last_served := served; seq := seq st;
      affinity := filter (λ kv, kv.2.1 ∈ act) (affinity st) |}).

Definition retain_members (r : Router) (act : gset string) : nat * Router :=
  let '(n, st) := retain_members_state (state r) act in
  (n, {| strategy_u8 := strategy_u8 r; state := st |}).

Definition tracked_members (st : RouterState) : gset string := dom (last_served st).

(** ** Steps of a router

    One method call, with everything it reads from outside.  [step] is the
    transition relation of a router shared behind its mutex: any interleaving
    of callers is a sequence of these operations. *)

Inductive Op (M : Type) :=
  | OpSelect (members : list M) (hint : SessionHint) (now_unix_ms : Z)
  | OpForced (member_id : string) (affinity_key : option string)
  | OpRetain (act : gset string)
  | OpSetStrategy (s : Strategy)
  | OpFeedback (member_id : string) (outcome : Outcome).
Arguments OpSelect {M}. Arguments OpForced {M}. Arguments OpRetain {M}.
Arguments OpSetStrategy {M}. Arguments OpFeedback {M}.

Definition apply_op {M} `{PoolMember M} (r : Router) (op : Op M) : Router :=
  match op with
  | OpSelect members hint now => (select r members hint now).2
  | OpForced i k => select_forced r i k
  | OpRetain act => (retain_members r act).2
  | OpSetStrategy s => set_strategy r s
  | OpFeedback i o => feedback r i o
  end.

Inductive reachable {M} `{PoolMember M} : nat → Router → Prop :=
  | reach_new s : reachable 0 (new s)
  | reach_step n r op : reachable n r → reachable (S n) (apply_op r op).

End AccountRouter.
