(* ===== verification/RouterProps.v ===== *)
(** * Correctness of the account router

    What [select] returns on every branch, the invariant of the bookkeeping and
    its preservation by every method, and fairness of the strict rotation over a
    fixed pool. *)

From stdpp Require Import gmap strings list.
From S2P Require Import Prelude Types Router.
Import AccountRouter.
Open Scope Z_scope.

Section scan.
Context {M : Type} `{PoolMember M}.
Implicit Types (ms : list M) (m : M) (served : gmap string Z).

Definition stamp served m : Z := default 0 (served !! id m).

Lemma rr_visit_cases served now idx best m :
  (rr_visit served now idx best m = best ∧
   (is_available (health m) now = true →
    ∃ b kb, best = Some (b, kb) ∧ kb ≤ stamp served m)) ∨
  (rr_visit served now idx best m = Some (idx, stamp served m) ∧
   is_available (health m) now = true ∧
   ∀ b kb, best = Some (b, kb) → stamp served m < kb).
Proof.
  unfold rr_visit. fold (stamp served m).
  destruct (is_available (health m) now); cbn; [|by left].
  destruct best as [[b kb]|]; [case_if|]; bool_to_prop.
  - right. repeat split. by intros ? ? [= <- <-].
  - left. eauto.
  - by right.
Qed.

Lemma rr_scan_spec served now ms : ∀ idx best i k,
  rr_scan served now idx best ms = Some (i, k) →
  (best = Some (i, k) ∧
   ∀ m, m ∈ ms → is_available (health m) now = true → k ≤ stamp served m) ∨
  (∃ m, (idx ≤ i)%nat ∧ ms !! (i - idx)%nat = Some m ∧
        is_available (health m) now = true ∧ stamp served m = k ∧
        (∀ b kb, best = Some (b, kb) → k < kb) ∧
        ∀ j m', ms !! j = Some m' → is_available (health m') now = true →
                k ≤ stamp served m' ∧ ((j < i - idx)%nat → k < stamp served m')).
Proof.
  induction ms as [|m0 ms IH]; intros idx best i k; cbn.
  { intros ->. left. split; [done|]. intros m Hm. by apply elem_of_nil in Hm. }
  intros Hr. apply IH in Hr.
  destruct (rr_visit_cases served now idx best m0) as [[E Ha0]|(E & Ha0 & Hlt0)];
    rewrite E in Hr; destruct Hr as [[Hb Hall]|Hr].
  - left. split; [done|]. intros m [->|Hm]%elem_of_cons Ha; [|by apply Hall].
    destruct (Ha0 Ha) as (b & kb & Hb' & Hle). simplify_eq. lia.
  - destruct Hr as (m & Hidx & Hm & Ha & Hk & Hb & Hall). right. exists m.
    replace (i - idx)%nat with (S (i - S idx)) by lia.
    repeat split; try done; try lia; destruct j as [|j]; cbn in *; simplify_eq;
      try (by eapply Hall);
      try (destruct Ha0 as (b & kb & -> & ?); [done|]; specialize (Hb _ _ eq_refl)).
    + lia.
    + lia.
    + intros ?. eapply Hall; [done..|lia].
  - injection Hb as <- <-. right. exists m0. rewrite Nat.sub_diag.
    repeat split; try done; [|lia].
    destruct j; cbn in *; [simplify_eq; lia|].
    apply Hall; [by eapply list_elem_of_lookup_2|done].
  - destruct Hr as (m & Hidx & Hm & Ha & Hk & Hb & Hall). right. exists m.
    replace (i - idx)%nat with (S (i - S idx)) by lia.
    specialize (Hb _ _ eq_refl).
    repeat split; try done; try lia.
    + intros b kb Hbest. specialize (Hlt0 _ _ Hbest). lia.
    + destruct j as [|j]; cbn in *; simplify_eq; [lia|by eapply Hall].
    + destruct j as [|j]; cbn in *; simplify_eq; [lia|].
      intros ?. eapply Hall; [done..|lia].
Qed.

Lemma rr_scan_None served now ms : ∀ idx best,
  rr_scan served now idx best ms = None ↔
  best = None ∧ ∀ m, m ∈ ms → is_available (health m) now = false.
Proof.
  induction ms as [|m0 ms IH]; intros idx best; cbn.
  { split; [|by intros []]. intros ->. split; [done|]. intros m Hm.
    by apply elem_of_nil in Hm. }
  rewrite IH. split.
  - intros [Hv Hall]. unfold rr_visit in Hv.
    destruct (is_available (health m0) now) eqn:Ha; cbn in Hv.
    { by destruct best as [[]|]; [case_if|]. }
    split; [done|]. intros m [->|Hm]%elem_of_cons; auto.
  - intros [-> Hall]. unfold rr_visit. rewrite (Hall m0) by left. cbn.
    split; [done|]. intros m Hm. apply Hall. by right.
Qed.
End scan.

(** ** What [select] returns *)
Section result.
Context {M : Type} `{PoolMember M}.
Implicit Types (ms : list M) (m : M) (st : RouterState).

(** Why an index was returned: the session's bound account, the first
    available member, or the least recently stamped one. *)
Definition bound_choice st hint m : Prop :=
  ∃ key, affinity_key hint = Some key ∧
         bound_affinity_member st key = Some (id m) ∧ admits st (id m) = true.

Definition fill_first_choice now ms (i : nat) : Prop :=
  ∀ j m', (j < i)%nat → ms !! j = Some m' → is_available (health m') now = false.

Definition round_robin_choice st now ms (i : nat) m : Prop :=
  ∀ j m', ms !! j = Some m' → is_available (health m') now = true →
    stamp (last_served st) m ≤ stamp (last_served st) m' ∧
    ((j < i)%nat → stamp (last_served st) m < stamp (last_served st) m').

Definition fresh_choice strat st now ms (i : nat) m : Prop :=
  match strat with
  | FillFirst => fill_first_choice now ms i
  | StrictRoundRobin => round_robin_choice st now ms i m
  end.

Lemma select_fresh_Some strat st ms now i :
  select_fresh strat st ms now = Some i →
  ∃ m, ms !! i = Some m ∧ is_available (health m) now = true ∧
       fresh_choice strat st now ms i m.
Proof.
  destruct strat; cbn.
  - rewrite fmap_Some. intros ([i' k] & Hr & ->).
    apply rr_scan_spec in Hr as [[? _]|(m & _ & Hm & Ha & <- & _ & Hall)]; [done|].
    cbn. rewrite Nat.sub_0_r in *. exists m. auto.
  - intros (m & Hm & Ha & Hj)%position_Some. exists m. auto.
Qed.

Lemma select_fresh_None strat st ms now :
  select_fresh strat st ms now = None ↔
  ∀ m, m ∈ ms → is_available (health m) now = false.
Proof.
  destruct strat; cbn; [|apply position_None].
  rewrite fmap_None, rr_scan_None. split; [by intros []|by auto].
Qed.

Lemma select_bound_Some st ms hint now i st' :
  select_bound st ms hint now = Some (i, st') →
  ∃ m, ms !! i = Some m ∧ is_available (health m) now = true ∧
       bound_choice st hint m.
Proof.
  unfold select_bound, bound_choice, bound_affinity_member.
  destruct (affinity_key hint) as [key|]; [|done].
  destruct (affinity st !! key) as [[b s]|] eqn:Hk; [|done].
  destruct (admits st b) eqn:Hb; [|done].
  destruct (position _ ms) as [i'|] eqn:Hp; [|done]. intros [= <- <-].
  apply position_Some in Hp as (m & Hm & Hok & _). bool_to_prop. subst b.
  exists m. repeat split; [done..|]. exists key. by rewrite Hk.
Qed.

Lemma select_available strat st ms hint now i :
  (select_state strat st ms hint now).1 = Some i →
  ∃ m, ms !! i = Some m ∧ is_available (health m) now = true.
Proof.
  unfold select_state. destruct (select_bound st ms hint now) as [[j st1]|] eqn:Hb; cbn.
  - intros [= <-]. apply select_bound_Some in Hb as (m & Hm & Ha & _). eauto.
  - destruct (select_fresh strat st ms now) as [j|] eqn:Hf; cbn; [|done].
    apply select_fresh_Some in Hf as (m & Hm & Ha & _). rewrite Hm. cbn.
    intros [= <-]. eauto.
Qed.

(** C10: [select] returns an index exactly when some member is available; the
    member at that index is available, and it is the account the session is
    bound to, or the first available one in list order ([FillFirst]), or an
    available one with the smallest service stamp, ties going to the smaller
    index ([StrictRoundRobin]). *)
Theorem select_correct strat st ms hint now :
  let res := (select_state strat st ms hint now).1 in
  (res = None ↔ ∀ m, m ∈ ms → is_available (health m) now = false) ∧
  (∀ i, res = Some i →
    ∃ m, ms !! i = Some m ∧ is_available (health m) now = true ∧
         (bound_choice st hint m ∨ fresh_choice strat st now ms i m)).
Proof.
  cbn. unfold select_state.
  destruct (select_bound st ms hint now) as [[i st1]|] eqn:Hb; cbn.
  - apply select_bound_Some in Hb as (m & Hm & Ha & Hc). split.
    + split; [done|]. intros Hall.
      rewrite (Hall m) in Ha; [done|by eapply list_elem_of_lookup_2].
    + intros ? [= <-]. eauto.
  - destruct (select_fresh strat st ms now) as [i|] eqn:Hf; cbn.
    + pose proof (select_fresh_Some _ _ _ _ _ Hf) as (m & Hm & Ha & Hc).
      rewrite Hm. cbn. split.
      * split; [done|]. intros Hall.
        rewrite (Hall m) in Ha; [done|by eapply list_elem_of_lookup_2].
      * intros ? [= <-]. eauto.
    + pose proof (proj1 (select_fresh_None _ _ _ _) Hf). by split.
Qed.
End result.

(** ** The bookkeeping invariant

    Every stamp ever handed out is positive, at most the global sequence and
    used for one member only; the same holds for the stamps of the affinity
    entries; and once the allowlist is active nothing outside it is tracked. *)
Record router_inv (st : RouterState) : Prop := {
  inv_seq : 0 ≤ seq st ≤ u64_max;
  inv_served : ∀ i s, last_served st !! i = Some s → 1 ≤ s ≤ seq st;
  inv_served_inj : ∀ i j s,
    last_served st !! i = Some s → last_served st !! j = Some s → i = j;
  inv_aff : ∀ k i s, affinity st !! k = Some (i, s) → 1 ≤ s ≤ seq st;
  inv_aff_inj : ∀ k k' i i' s,
    affinity st !! k = Some (i, s) → affinity st !! k' = Some (i', s) → k = k';
  inv_tracked : ∀ act i,
    active st = Some act → is_Some (last_served st !! i) → i ∈ act;
  inv_bound : ∀ act k i s,
    active st = Some act → affinity st !! k = Some (i, s) → i ∈ act;
}.

(** The state after a member is served, with or without a session to bind. *)
Definition serve (st : RouterState) (i : string) (key : option string) : RouterState :=
  let s := wrapping_add_u64 (seq st) 1 in
  {| active := active st; last_served := <[i := s]> (last_served st); seq := s;
     affinity := match key with
                 | Some k => <[k := (i, s)]> (affinity st)
                 | None => affinity st
                 end |}.

Lemma select_forced_serve st i key :
  select_forced_state st i key = if admits st i then serve st i key else st.
Proof.
  unfold select_forced_state. destruct (admits st i); cbn; [|done].
  by destruct key.
Qed.

Lemma record_choice_serve st hint i :
  record_choice st hint i =
  if admits st i then
    match affinity_key hint with
    | Some _ => evict_idle (serve st i (affinity_key hint)) (wrapping_add_u64 (seq st) 1)
    | None => serve st i None
    end
  else with_seq st (wrapping_add_u64 (seq st) 1).
Proof.
  unfold record_choice. change (admits (with_seq _ _) i) with (admits st i).
  destruct (admits st i); [|done]. by destruct (affinity_key hint).
Qed.

Lemma select_bound_serve {M} `{PoolMember M} st (ms : list M) hint now i st' :
  select_bound st ms hint now = Some (i, st') →
  ∃ m, ms !! i = Some m ∧ admits st (id m) = true ∧
       st' = serve st (id m) (affinity_key hint).
Proof.
  unfold select_bound. destruct (affinity_key hint) as [key|]; [|done].
  destruct (affinity st !! key) as [[b s]|]; [|done].
  destruct (admits st b) eqn:Hb; [|done].
  destruct (position _ ms) as [i'|] eqn:Hp; [|done]. intros [= <- <-].
  apply position_Some in Hp as (m & Hm & Hok & _). bool_to_prop. subst b. eauto.
Qed.

Lemma admits_elem st act i :
  active st = Some act → admits st i = true → i ∈ act.
Proof. unfold admits. intros ->. apply bool_decide_eq_true_1. Qed.

Lemma serve_inv st i key :
  router_inv st → seq st < u64_max → admits st i = true → router_inv (serve st i key).
Proof.
  intros [Hs Hsv Hsi Ha Hai Ht Hb] Hlt Hadm. unfold serve.
  rewrite wrapping_succ_u64 by lia. split; cbn.
  - lia.
  - intros j s. rewrite lookup_insert. case_decide; [intros [= <-]; lia|].
    intros Hj%Hsv. lia.
  - intros j j' s. rewrite !lookup_insert. repeat case_decide; intros; simplify_eq; try done.
    + apply Hsv in H2. lia.
    + apply Hsv in H1. lia.
    + eauto.
  - destruct key as [k|]; intros k' j s; [rewrite lookup_insert; case_decide|];
      intros Hk; simplify_eq; [lia|..]; apply Ha in Hk; lia.
  - destruct key as [k|]; [|by eauto]. intros k1 k2 j j' s.
    rewrite !lookup_insert. repeat case_decide; intros; simplify_eq; try done.
    + apply Ha in H2. lia.
    + apply Ha in H1. lia.
    + eauto.
  - intros act j Hact. rewrite lookup_insert. case_decide; [|by eauto].
    subst j. intros _. by eapply admits_elem.
  - destruct key as [k|]; intros act k' j s Hact; [rewrite lookup_insert; case_decide|];
      intros Hk; simplify_eq; eauto using admits_elem.
Qed.

Lemma evict_inv st s : router_inv st → router_inv (evict_idle st s).
Proof.
  intros Hinv. unfold evict_idle. case_if; [|done].
  destruct Hinv as [Hs Hsv Hsi Ha Hai Ht Hb]. split; cbn; try done.
  - intros k i s' [Hk _]%map_lookup_filter_Some. eauto.
  - intros k k' i i' s' [Hk _]%map_lookup_filter_Some [Hk' _]%map_lookup_filter_Some. eauto.
  - intros act k i s' Hact [Hk _]%map_lookup_filter_Some. eauto.
Qed.

Lemma with_seq_inv st :
  router_inv st → seq st < u64_max →
  router_inv (with_seq st (wrapping_add_u64 (seq st) 1)).
Proof.
  intros [Hs Hsv Hsi Ha Hai Ht Hb] Hlt. rewrite wrapping_succ_u64 by lia.
  split; cbn; eauto; [lia|..].
  - intros i s Hi%Hsv. lia.
  - intros k i s Hk%Ha. lia.
Qed.

Lemma retain_inv st act : router_inv st → router_inv (retain_members_state st act).2.
Proof.
  intros [Hs Hsv Hsi Ha Hai Ht Hb]. split; cbn; try done.
  - intros i s [Hi _]%map_lookup_filter_Some. eauto.
  - intros i j s [Hi _]%map_lookup_filter_Some [Hj _]%map_lookup_filter_Some. eauto.
  - intros k i s [Hk _]%map_lookup_filter_Some. eauto.
  - intros k k' i i' s [Hk _]%map_lookup_filter_Some [Hk' _]%map_lookup_filter_Some. eauto.
  - intros act' i [= <-] [s [_ Hi]%map_lookup_filter_Some]. done.
  - intros act' k i s [= <-] [_ Hi]%map_lookup_filter_Some. done.
Qed.

#[export] Hint Resolve serve_inv evict_inv with_seq_inv retain_inv : mahoquot.

Section steps.
Context {M : Type} `{PoolMember M}.
Implicit Types (ms : list M) (st : RouterState) (r : Router).

(** Every selection is one of: nothing happened, a bump of the sequence for a
    member outside the allowlist, or a service, possibly followed by the
    eviction of idle scopes. *)
Lemma select_state_cases strat st ms hint now :
  let st' := (select_state strat st ms hint now).2 in
  st' = st ∨
  (∃ i m, ms !! i = Some m ∧ admits st (id m) = false ∧
          st' = with_seq st (wrapping_add_u64 (seq st) 1)) ∨
  (∃ i m, ms !! i = Some m ∧ admits st (id m) = true ∧
          (st' = serve st (id m) (affinity_key hint) ∨
           is_Some (affinity_key hint) ∧
           st' = evict_idle (serve st (id m) (affinity_key hint))
                            (wrapping_add_u64 (seq st) 1))).
Proof.
  cbn. unfold select_state.
  destruct (select_bound st ms hint now) as [[i st1]|] eqn:Hb; cbn.
  { apply select_bound_serve in Hb as (m & Hm & Ha & ->). right; right. eauto 10. }
  destruct (select_fresh strat st ms now) as [i|]; cbn; [|by left].
  destruct (ms !! i) as [m|] eqn:Hm; cbn; [|by left].
  rewrite record_choice_serve. right. destruct (admits st (id m)) eqn:Ha.
  - right. exists i, m. repeat split; [done..|].
    destruct (affinity_key hint); eauto.
  - left. eauto.
Qed.

Lemma apply_op_inv r op :
  router_inv (state r) → seq (state r) < u64_max → router_inv (state (apply_op r op)).
Proof.
  intros Hinv Hlt. destruct op as [ms hint now|i k|act|s|i o]; cbn; try done.
  - unfold select. pose proof (select_state_cases (strategy r) (state r) ms hint now).
    destruct (select_state _ _ _ _ _) as [res st']; cbn in *.
    destruct H0 as [->|[(i & m & _ & _ & ->)|(i & m & _ & Ha & [->|[_ ->]])]];
      auto with mahoquot.
  - rewrite select_forced_serve. case_if; auto with mahoquot.
  - by apply (retain_inv _ act) in Hinv.
Qed.

Lemma apply_op_seq r op :
  0 ≤ seq (state r) < u64_max →
  seq (state r) ≤ seq (state (apply_op r op)) ≤ seq (state r) + 1.
Proof.
  intros Hlt. destruct op as [ms hint now|i k|act|s|i o]; cbn; try lia.
  - unfold select. pose proof (select_state_cases (strategy r) (state r) ms hint now).
    destruct (select_state _ _ _ _ _) as [res st']; cbn in *.
    destruct H0 as [->|[(i & m & _ & _ & ->)|(i & m & _ & Ha & [->|[_ ->]])]];
      unfold evict_idle; try case_if; cbn; rewrite ?wrapping_succ_u64; lia.
  - rewrite select_forced_serve. case_if; cbn; rewrite ?wrapping_succ_u64; lia.
  - unfold feedback. lia.
Qed.

Lemma new_inv s : router_inv (state (new s)).
Proof. split; cbn; try (by intros; simplify_map_eq); unfold u64_max; lia. Qed.

Lemma reachable_inv n r :
  reachable n r → Z.of_nat n ≤ u64_max →
  router_inv (state r) ∧ seq (state r) ≤ Z.of_nat n.
Proof.
  induction 1 as [s|n r op Hr IH]; intros Hn.
  - split; [apply new_inv|done].
  - destruct IH as [Hinv Hseq]; [lia|]. pose proof (inv_seq _ Hinv). split.
    + apply apply_op_inv; [done|lia].
    + pose proof (apply_op_seq r op ltac:(lia)). lia.
Qed.

(** C13: In every state a router reaches by fewer than [2^64] method calls in
    any order, stamps are positive, never ahead of the global sequence and
    never shared by two members or by two sessions, and once [retain_members]
    has published an allowlist no member outside it is tracked or bound. *)
Theorem router_invariant n r :
  reachable n r → Z.of_nat n ≤ u64_max → router_inv (state r).
Proof. intros Hr Hn. by apply (reachable_inv n r). Qed.
End steps.

(** ** Fairness of the strict rotation over a fixed pool *)
Section fairness.
Context {M : Type} `{PoolMember M} (ms : list M) (now : Z).
Implicit Types (st : RouterState) (m : M).

(** [n] consecutive selections without a session hint. *)
Fixpoint selects (n : nat) st : list (option nat) * RouterState :=
  match n with
  | O => ([], st)
  | S n =>
      let '(res, st1) := select_state StrictRoundRobin st ms default_hint now in
      let '(rest, st2) := selects n st1 in (res :: rest, st2)
  end.

Record fair_pool st : Prop := {
  fair_ids : NoDup (id <$> ms);
  fair_avail : ∀ m, m ∈ ms → is_available (health m) now = true;
  fair_admit : ∀ m, m ∈ ms → admits st (id m) = true;
}.

Lemma select_unhinted st :
  fair_pool st → ms ≠ [] →
  ∃ i m, ms !! i = Some m ∧ round_robin_choice st now ms i m ∧
    select_state StrictRoundRobin st ms default_hint now =
      (Some i, serve st (id m) None).
Proof.
  intros [Hids Hav Had] Hne. unfold select_state; cbn [select_bound default_hint affinity_key].
  destruct (select_fresh StrictRoundRobin st ms now) as [i|] eqn:Hf.
  - pose proof (select_fresh_Some _ _ _ _ _ Hf) as (m & Hm & Ha & Hc).
    exists i, m. split; [done|]. split; [exact Hc|].
    unfold select_bound; cbn. rewrite Hm. f_equal.
    rewrite record_choice_serve, Had; [done|by eapply list_elem_of_lookup_2].
  - exfalso. destruct ms as [|m ms']; [done|].
    pose proof (proj1 (select_fresh_None _ _ _ _) Hf m ltac:(left)) as Hno.
    by rewrite Hav in Hno by left.
Qed.

Lemma serve_fair_pool st i key : fair_pool st → fair_pool (serve st i key).
Proof. intros [? ? Had]. by split. Qed.

(** Progress of a round: the members at the indices [l] have been served since
    the stamp was [s0], the others have not. *)
Definition round_state (s0 : Z) st (l : list nat) : Prop :=
  NoDup l ∧ s0 ≤ seq st ∧
  ∀ i m, ms !! i = Some m →
    (i ∈ l → s0 < stamp (last_served st) m) ∧
    (i ∉ l → stamp (last_served st) m ≤ s0).

Lemma round_step s0 st l :
  fair_pool st → router_inv st → seq st < u64_max → round_state s0 st l →
  (length l < length ms)%nat →
  ∃ i m, ms !! i = Some m ∧ (i ∉ l) ∧
    select_state StrictRoundRobin st ms default_hint now = (Some i, serve st (id m) None) ∧
    round_state s0 (serve st (id m) None) (i :: l).
Proof.
  intros Hf Hinv Hlt (Hnd & Hs0 & Hst) Hlen.
  destruct (select_unhinted st Hf) as (i & m & Hm & Hrr & Hsel).
  { by destruct ms; [cbn in *; lia|]. }
  assert (Hil : i ∉ l).
  { intros Hil. apply Hst in Hm as [Hgt _]. specialize (Hgt Hil).
    destruct (list_exist_not l (length ms) Hnd Hlen) as (j & Hj & Hjl).
    destruct (lookup_lt_is_Some_2 ms j Hj) as [m' Hm'].
    destruct (Hrr j m' Hm') as [Hle _].
    { eapply fair_avail; [done|]. by eapply list_elem_of_lookup_2. }
    apply Hst in Hm' as [_ Hle']. specialize (Hle' Hjl). lia. }
  pose proof (inv_seq _ Hinv).
  exists i, m. split; [done|]. split; [done|]. split; [done|].
  split; [by constructor|]. split; cbn.
  - rewrite wrapping_succ_u64; lia.
  - intros j m' Hm'. unfold stamp.
    rewrite lookup_insert, wrapping_succ_u64 by lia.
    assert (Hinj : id m = id m' → i = j).
    { intros Heq. eapply NoDup_lookup; [apply (fair_ids st Hf)|..];
        rewrite list_lookup_fmap; [by rewrite Hm|rewrite Hm'; cbn; congruence]. }
    destruct (Hst j m' Hm') as [H1 H2]. split.
    + intros [->|Hjl]%elem_of_cons; case_decide; cbn; try lia; [congruence|].
      by apply H1.
    + intros [Hne Hjl]%not_elem_of_cons. case_decide as Heq.
      * by apply Hinj in Heq.
      * by apply H2.
Qed.

Lemma round_run s0 n : ∀ st l,
  fair_pool st → router_inv st → round_state s0 st l →
  (length l + n ≤ length ms)%nat → seq st + Z.of_nat n ≤ u64_max →
  ∃ l' st', selects n st = (Some <$> l', st') ∧ length l' = n ∧
    Forall (λ i, (i < length ms)%nat) l' ∧ round_state s0 st' (reverse l' ++ l) ∧
    router_inv st' ∧ fair_pool st' ∧ seq st' = seq st + Z.of_nat n.
Proof.
  induction n as [|n IH]; intros st l Hf Hinv Hrs Hlen Hseq; cbn [selects].
  { exists [], st. split_and!; try done. lia. }
  destruct (round_step s0 st l) as (i & m & Hm & Hil & -> & Hrs'); try done; try lia.
  assert (Had : admits st (id m) = true).
  { eapply fair_admit; [done|]. by eapply list_elem_of_lookup_2. }
  pose proof (inv_seq _ Hinv).
  destruct (IH (serve st (id m) None) (i :: l)) as
    (l' & st' & -> & Hl' & Hlt & Hrs'' & Hinv' & Hf' & Hs').
  - by apply serve_fair_pool.
  - apply serve_inv; [done|lia|done].
  - done.
  - cbn. lia.
  - cbn. rewrite wrapping_succ_u64; lia.
  - exists (i :: l'), st'. split; [done|]. split; [cbn; lia|]. split.
    { constructor; [by eapply lookup_lt_Some|done]. }
    rewrite reverse_cons, <- (assoc_L (++)). split; [done|].
    split; [done|]. split; [done|]. cbn in Hs'. rewrite wrapping_succ_u64 in Hs'; lia.
Qed.

Lemma round_start st : router_inv st → round_state (seq st) st [].
Proof.
  intros Hinv. split; [by constructor|]. split; [done|]. intros i m _. split.
  - intros Hi. by apply elem_of_nil in Hi.
  - intros _. unfold stamp. destruct (last_served st !! id m) as [s|] eqn:E; cbn.
    + apply (inv_served _ Hinv) in E. lia.
    + apply (inv_seq _ Hinv).
Qed.

Lemma round_complete st :
  fair_pool st → router_inv st → seq st + Z.of_nat (length ms) ≤ u64_max →
  ∃ l st', selects (length ms) st = (Some <$> l, st') ∧
    l ≡ₚ List.seq 0 (length ms) ∧
    router_inv st' ∧ fair_pool st' ∧ seq st' = seq st + Z.of_nat (length ms).
Proof.
  intros Hf Hinv Hseq.
  destruct (round_run (seq st) (length ms) st []) as
    (l & st' & Hsel & Hlen & Hlt & (Hnd & _) & Hinv' & Hf' & Hs'); try done.
  { by apply round_start. }
  exists l, st'. rewrite app_nil_r in Hnd. split_and!; try done.
  apply submseteq_length_Permutation; [|rewrite length_seq; lia].
  apply NoDup_submseteq; [by rewrite reverse_Permutation in Hnd|].
  intros i Hi. apply elem_of_seq. eapply list.Forall_forall in Hlt; [|done]. lia.
Qed.

Lemma selects_app a b st :
  selects (a + b) st =
  ((selects a st).1 ++ (selects b (selects a st).2).1, (selects b (selects a st).2).2).
Proof.
  revert st. induction a as [|a IH]; intros st; cbn -[select_state].
  - by destruct (selects b st).
  - destruct (select_state _ _ _ _ _) as [res st1]. rewrite IH.
    by destruct (selects a st1).
Qed.

(** C11: The strict rotation is perfectly even.  Over a pool of members with
    distinct ids that are all available and admitted, [k] rounds of
    [length ms] consecutive selections serve every member exactly [k] times,
    from whatever state the bookkeeping is in (as long as the 64-bit sequence
    does not wrap around meanwhile). *)
Theorem rr_fair k st :
  fair_pool st → router_inv st → seq st + Z.of_nat (k * length ms) ≤ u64_max →
  ∃ l, (selects (k * length ms) st).1 = Some <$> l ∧
       ∀ i, (i < length ms)%nat → length (filter (λ j, j = i) l) = k.
Proof.
  revert st. induction k as [|k IH]; intros st Hf Hinv Hseq; cbn [Nat.mul].
  { exists []. split; [done|]. intros; done. }
  destruct (round_complete st) as (l & st' & Hsel & Hp & Hinv' & Hf' & Hs'); try done.
  { lia. }
  destruct (IH st') as (l' & Hsel' & Hc); [done..|lia|].
  exists (l ++ l'). rewrite selects_app, Hsel. cbn. rewrite Hsel', fmap_app.
  split; [done|]. intros i Hi. rewrite filter_app, length_app, Hc by done.
  rewrite (Permutation_length (filter_Permutation _ _ _ Hp)).
  by rewrite (length_filter_seq i (length ms) Hi).
Qed.
End fairness.
