(* ===== verification/RouterSessions.v ===== *)
(** * The router under churn: overtaking, sessions, and the size of the map

    Rotation when the pool and its health change between selections, how long a
    session binding survives other traffic, and how large the affinity map can
    get. *)

From stdpp Require Import gmap strings list.
From S2P Require Import Prelude Types Router RouterProps.
Import AccountRouter.
Open Scope Z_scope.

(** ** No member is overtaken, whatever happens to the pool *)
Section churn.
Context {M : Type} `{PoolMember M}.
Implicit Types (st : RouterState) (ms : list M).

(** Unhinted strict-rotation selections, each over its own pool and clock;
    the ids served are collected. *)
Fixpoint rotate st (evs : list (list M * Z)) : list string * RouterState :=
  match evs with
  | [] => ([], st)
  | (ms, now) :: evs =>
      let '(res, st1) := select_state StrictRoundRobin st ms default_hint now in
      let served := match res ≫= (ms !!.) with Some m => [id m] | None => [] end in
      let '(rest, st2) := rotate st1 evs in (served ++ rest, st2)
  end.

Lemma select_rotate st ms now :
  active st = None →
  (select_state StrictRoundRobin st ms default_hint now = (None, st)) ∨
  ∃ i m, ms !! i = Some m ∧ round_robin_choice st now ms i m ∧
    select_state StrictRoundRobin st ms default_hint now = (Some i, serve st (id m) None).
Proof.
  intros Hact. unfold select_state. cbn [select_bound default_hint affinity_key].
  destruct (select_fresh StrictRoundRobin st ms now) as [i|] eqn:Hf; [|by left].
  right. pose proof (select_fresh_Some _ _ _ _ _ Hf) as (m & Hm & Ha & Hc).
  exists i, m. split; [done|]. split; [exact Hc|].
  unfold select_bound; cbn. rewrite Hm, record_choice_serve. unfold admits.
  by rewrite Hact.
Qed.

Lemma rotate_inv evs : ∀ st served st',
  active st = None → router_inv st → seq st + Z.of_nat (length evs) ≤ u64_max →
  rotate st evs = (served, st') →
  active st' = None ∧ router_inv st' ∧ seq st ≤ seq st' ∧
  (∀ i, i ∉ served → last_served st' !! i = last_served st !! i) ∧
  (∀ i s, last_served st !! i = Some s → ∃ s', last_served st' !! i = Some s' ∧ s ≤ s').
Proof.
  induction evs as [|[ms now] evs IH]; intros st served st' Hact Hinv Hseq; cbn -[select_state].
  { intros [= <- <-]. split_and!; [done..|lia|done|]. intros i s Hi. by exists s. }
  pose proof (inv_seq _ Hinv). cbn in Hseq.
  destruct (select_rotate st ms now Hact) as [->|(i & m & Hm & _ & ->)]; cbn [mbind option_bind].
  - destruct (rotate st evs) as [rest st2] eqn:Hr. intros [= <- <-]. cbn.
    eapply IH in Hr; [done..|lia].
  - rewrite Hm. destruct (rotate _ evs) as [rest st2] eqn:Hr. intros [= <- <-].
    pose proof (serve_inv st (id m) None Hinv ltac:(lia)) as Hinv1.
    apply IH in Hr as (Ha' & Hi' & Hs' & Hun & Hmono); cbn.
    + split_and!; [done|done| | |].
      * cbn in Hs'. rewrite wrapping_succ_u64 in Hs'; lia.
      * intros j [Hne Hj]%not_elem_of_cons. rewrite (Hun j Hj). cbn.
        by rewrite lookup_insert_ne.
      * intros j s Hj. destruct (decide (id m = j)) as [<-|Hne].
        -- destruct (Hmono (id m) (seq st + 1)) as (s' & ? & ?).
           { cbn. rewrite lookup_insert_eq, wrapping_succ_u64; [done|lia]. }
           apply (inv_served _ Hinv) in Hj. exists s'. split; [done|lia].
        -- apply Hmono. cbn. by rewrite lookup_insert_ne.
    + done.
    + apply Hinv1. unfold admits. by rewrite Hact.
    + cbn. rewrite wrapping_succ_u64; lia.
Qed.

(** Under the strict rotation no member is overtaken.  Take a state in
    which [a] has just been served, let any selections follow over pools that
    may change arbitrarily (members joining, leaving, cooling down), and
    suppose [a] is chosen again: then every other member available at that
    moment has been served in between. *)
Theorem rr_no_overtaking st evs served st' ms now i m a :
  active st = None → router_inv st → last_served st !! a = Some (seq st) →
  seq st + Z.of_nat (length evs) ≤ u64_max →
  rotate st evs = (served, st') →
  (select_state StrictRoundRobin st' ms default_hint now).1 = Some i →
  ms !! i = Some m → id m = a →
  ∀ m', m' ∈ ms → is_available (health m') now = true →
        id m' = a ∨ id m' ∈ served.
Proof.
  intros Hact Hinv Ha Hseq Hrot Hsel Hm Hida m' Hm' Hav.
  destruct (rotate_inv _ _ _ _ Hact Hinv Hseq Hrot) as (Hact' & Hinv' & _ & Hun & Hmono).
  destruct (decide (id m' = a)) as [->|Hne]; [by left|]. right.
  destruct (decide (id m' ∈ served)) as [|Hns]; [done|exfalso].
  destruct (select_rotate st' ms now Hact') as [E|(i' & m1 & Hm1 & Hrr & E)];
    rewrite E in Hsel; simplify_eq/=.
  apply list_elem_of_lookup in Hm' as [j Hj].
  destruct (Hrr j m' Hj Hav) as [Hle _]. unfold stamp in Hle.
  destruct (Hmono _ _ Ha) as (s' & Hs' & Hge). rewrite Hs', (Hun _ Hns) in Hle. cbn in Hle.
  destruct (last_served st !! id m') as [s|] eqn:E'; cbn in Hle.
  - pose proof (inv_served _ Hinv _ _ E'). assert (s = seq st) as -> by lia.
    by apply Hne, (inv_served_inj _ Hinv _ _ (seq st)).
  - pose proof (inv_served _ Hinv _ _ Ha). lia.
Qed.
End churn.

(** ** Sessions stick to their account *)
Section sessions.
Context {M : Type} `{PoolMember M}.
Implicit Types (r : Router) (st : RouterState) (ms : list M) (op : Op M).

(** Traffic that is not the session's own and does not remove its account. *)
Definition spares (key i : string) op : Prop :=
  match op with
  | OpSelect _ hint _ => affinity_key hint ≠ Some key
  | OpForced _ k => k ≠ Some key
  | OpRetain act => i ∈ act
  | _ => True
  end.

Definition bound_at st (key i : string) (s : Z) : Prop :=
  affinity st !! key = Some (i, s) ∧ admits st i = true.

Lemma serve_bound st key i s j k :
  k ≠ Some key → bound_at st key i s → bound_at (serve st j k) key i s.
Proof.
  intros Hk [Ha Had]. split; [|done]. cbn. destruct k as [k|]; [|done].
  rewrite lookup_insert_ne; [done|congruence].
Qed.

Lemma evict_bound st key i s s' :
  s' - AFFINITY_MAX_IDLE ≤ s → 0 ≤ s → bound_at st key i s →
  bound_at (evict_idle st s') key i s.
Proof.
  intros Hle H0 [Ha Had]. unfold evict_idle. case_if; [|by split]. split; [|done].
  cbn. apply map_lookup_filter_Some. split; [done|]. cbn.
  unfold saturating_sub_u64. lia.
Qed.

Lemma apply_op_bound r op key i s :
  0 ≤ seq (state r) < u64_max → 0 ≤ s → seq (state r) + 1 - AFFINITY_MAX_IDLE ≤ s →
  spares key i op → bound_at (state r) key i s →
  bound_at (state (apply_op r op)) key i s.
Proof.
  intros Hseq Hs Hidle Hsp Hb. destruct op as [ms hint now|j k|act|str|j o]; cbn in *; try done.
  - unfold select. pose proof (select_state_cases (strategy r) (state r) ms hint now) as Hc.
    destruct (select_state _ _ _ _ _) as [res st']; cbn in *.
    destruct Hc as [->|[(j & m & _ & _ & ->)|(j & m & _ & _ & [->|[_ ->]])]].
    + done.
    + exact Hb.
    + by apply serve_bound.
    + apply evict_bound; [rewrite wrapping_succ_u64; lia|done|by apply serve_bound].
  - rewrite select_forced_serve. case_if; [by apply serve_bound|done].
  - destruct Hb as [Ha _]. split; cbn.
    + by apply map_lookup_filter_Some.
    + unfold admits; cbn. by apply bool_decide_eq_true_2.
Qed.

Lemma run_bound ops : ∀ r key i s,
  0 ≤ s → 0 ≤ seq (state r) → seq (state r) + Z.of_nat (length ops) ≤ u64_max →
  seq (state r) + Z.of_nat (length ops) - AFFINITY_MAX_IDLE ≤ s →
  Forall (spares key i) ops → bound_at (state r) key i s →
  bound_at (state (foldl apply_op r ops)) key i s.
Proof.
  induction ops as [|op ops IH]; intros r key i s Hs H0 Hmax Hidle Hall Hb; cbn; [done|].
  apply Forall_cons in Hall as [Hop Hall]. cbn in Hmax, Hidle.
  pose proof (apply_op_seq r op ltac:(lia)).
  apply IH; [done|lia..|done|]. apply apply_op_bound; [lia..|done|done].
Qed.

(** C12: A session keeps its account.  If a session is bound to account [i], then
    after any traffic of other sessions, strategy changes and pool
    reconciliations that keep [i] - as long as the binding has been idle for
    at most [AFFINITY_MAX_IDLE] selections - the session's next request goes
    to [i] whenever [i] is in the pool and available, whatever the strategy
    and the other members. *)
Theorem session_sticks r ops key i s ms now m :
  router_inv (state r) → affinity (state r) !! key = Some (i, s) →
  Forall (spares key i) ops →
  seq (state r) + Z.of_nat (length ops) ≤ u64_max →
  seq (state r) + Z.of_nat (length ops) - s ≤ AFFINITY_MAX_IDLE →
  m ∈ ms → id m = i → is_available (health m) now = true →
  ∃ idx m', (select (foldl apply_op r ops) ms {| affinity_key := Some key |} now).1
              = Some idx ∧ ms !! idx = Some m' ∧ id m' = i.
Proof.
  intros Hinv Haff Hall Hmax Hidle Hm Hid Hav.
  pose proof (inv_aff _ Hinv _ _ _ Haff). pose proof (inv_seq _ Hinv).
  assert (Had : admits (state r) i = true).
  { unfold admits. destruct (active (state r)) as [act|] eqn:Hact; [|done].
    apply bool_decide_eq_true_2. by eapply (inv_bound _ Hinv). }
  destruct (run_bound ops r key i s) as [Ha' Had']; try done; try lia.
  unfold select, select_state, select_bound; cbn. rewrite Ha', Had'.
  destruct (position _ ms) as [idx|] eqn:Hp; cbn.
  - apply position_Some in Hp as (m' & Hm' & Hok & _). bool_to_prop. eauto.
  - rewrite position_None in Hp. specialize (Hp m Hm).
    rewrite bool_decide_eq_true_2 in Hp by done. cbn in Hp. congruence.
Qed.
End sessions.

(** ** The size of the affinity map *)

(** A map whose values carry distinct stamps from a window has at most as many
    entries as the window has stamps. *)
Lemma size_window {K V} `{Countable K} (m : gmap K V) (f : V → Z) lo hi :
  (∀ k v, m !! k = Some v → lo ≤ f v ≤ hi) →
  (∀ k k' v v', m !! k = Some v → m !! k' = Some v' → f v = f v' → k = k') →
  Z.of_nat (size m) ≤ Z.max 0 (hi - lo + 1).
Proof.
  intros Hr Hinj.
  pose (g := λ kv : K * V, Z.to_nat (f kv.2 - lo)).
  assert (Hnd : NoDup (g <$> map_to_list m)).
  { apply NoDup_fmap_2_strong; [|apply NoDup_map_to_list].
    intros [k v] [k' v'] Hk%elem_of_map_to_list Hk'%elem_of_map_to_list Hg. unfold g in Hg.
    cbn in Hg. pose proof (Hr _ _ Hk). pose proof (Hr _ _ Hk').
    assert (k = k') as <- by (eapply Hinj; eauto; lia). by simplify_eq. }
  assert (Hsub : g <$> map_to_list m ⊆+ List.seq 0 (Z.to_nat (hi - lo + 1))).
  { apply NoDup_submseteq; [done|]. intros x ([k v] & -> & Hk%elem_of_map_to_list)%list_elem_of_fmap.
    pose proof (Hr _ _ Hk). apply elem_of_seq. unfold g; cbn. lia. }
  apply submseteq_length in Hsub. rewrite length_fmap, length_seq in Hsub.
  rewrite <- (length_map_to_list m). lia.
Qed.

Section capacity.
Context {M : Type} `{PoolMember M}.
Implicit Types (r : Router) (st : RouterState) (ms : list M) (op : Op M).

Definition AFFINITY_CAP : Z := AFFINITY_MAX_IDLE + 1.

Lemma affinity_evict_capacity st :
  router_inv st →
  Z.of_nat (size (affinity (evict_idle st (AccountRouter.seq st)))) ≤ AFFINITY_CAP.
Proof.
  intros Hinv. unfold evict_idle, AFFINITY_CAP. case_if; bool_to_prop.
  - cbn. etrans; [apply (size_window _ snd (AccountRouter.seq st - AFFINITY_MAX_IDLE)
                           (AccountRouter.seq st))|unfold AFFINITY_MAX_IDLE; lia].
    + intros k [i s] [Hk Hs]%map_lookup_filter_Some. cbn in *.
      apply (inv_aff _ Hinv) in Hk. unfold saturating_sub_u64 in Hs. lia.
    + intros k k' [i s] [i' s'] [Hk _]%map_lookup_filter_Some
        [Hk' _]%map_lookup_filter_Some ?. cbn in *. subst s'.
      by eapply (inv_aff_inj _ Hinv).
  - unfold AFFINITY_MAX_ENTRIES, AFFINITY_MAX_IDLE in *. lia.
Qed.

Lemma select_capacity r ms hint now :
  router_inv (state r) → AccountRouter.seq (state r) < u64_max →
  Z.of_nat (size (affinity (state r))) ≤ AFFINITY_CAP →
  Z.of_nat (size (affinity (state (select r ms hint now).2))) ≤ AFFINITY_CAP.
Proof.
  intros Hinv Hlt Hcap. unfold select, select_state.
  destruct (select_bound _ ms hint now) as [[i st1]|] eqn:Hb; cbn.
  - unfold select_bound in Hb. destruct (affinity_key hint) as [key|]; [|done].
    destruct (affinity (state r) !! key) as [[b s]|] eqn:Hk; [|done].
    destruct (admits _ b); [|done]. destruct (position _ ms); [|done].
    injection Hb as <- <-. cbn. rewrite map_size_insert_Some; [done|by rewrite Hk].
  - destruct (select_fresh _ _ ms now) as [i|]; cbn; [|done].
    destruct (ms !! i) as [m|]; cbn; [|done].
    rewrite record_choice_serve. destruct (admits _ (id m)) eqn:Ha; [|done].
    destruct (affinity_key hint) as [key|]; [|done].
    apply (affinity_evict_capacity (serve (state r) (id m) (Some key))).
    by apply serve_inv.
Qed.

(** Traffic in which no durable binding is forced onto a session. *)
Definition unforced op : Prop :=
  match op with OpForced _ (Some _) => False | _ => True end.

(** The affinity map is bounded.  However many sessions a router serves, after
    any sequence of calls that forces no session binding it holds at most
    [AFFINITY_MAX_IDLE + 1] entries. *)
Theorem affinity_bounded s ops :
  Forall unforced ops → Z.of_nat (length ops) ≤ u64_max →
  Z.of_nat (size (affinity (state (foldl apply_op (new s) ops)))) ≤ AFFINITY_CAP.
Proof.
  intros Hops Hlen.
  cut (router_inv (state (foldl apply_op (new s) ops)) ∧
       AccountRouter.seq (state (foldl apply_op (new s) ops)) ≤ Z.of_nat (length ops) ∧
       Z.of_nat (size (affinity (state (foldl apply_op (new s) ops)))) ≤ AFFINITY_CAP);
    [tauto|].
  induction ops as [|op ops IH] using rev_ind.
  { split; [apply new_inv|done]. }
  rewrite length_app in Hlen. cbn in Hlen.
  apply list.Forall_app in Hops as [Hops [Hop _]%list.Forall_cons].
  destruct IH as (Hinv & Hseq & Hcap); [done|lia|].
  rewrite foldl_app, length_app. cbn [foldl length].
  pose proof (inv_seq _ Hinv). split_and!.
  - apply apply_op_inv; [done|lia].
  - assert (Hr : 0 ≤ AccountRouter.seq (state (foldl apply_op (new s) ops)) < u64_max) by lia.
    pose proof (apply_op_seq _ op Hr). lia.
  - destruct op as [ms hint now|j [k|]|act|str|j o]; cbn; try done.
    + apply select_capacity; [done|lia|done].
    + rewrite select_forced_serve. by case_if.
    + etrans; [|exact Hcap]. apply inj_le, map_size_filter.
Qed.
End capacity.

Definition force_all (i : string) (st : RouterState) (keys : list string) : RouterState :=
  foldl (λ st k, select_forced_state st i (Some k)) st keys.

Lemma force_all_dom i keys : ∀ st,
  admits st i = true → dom (affinity (force_all i st keys)) = list_to_set keys ∪ dom (affinity st).
Proof.
  induction keys as [|k keys IH]; intros st Hi; cbn; [set_solver|].
  unfold force_all in *. cbn. rewrite select_forced_serve, Hi. rewrite IH by done.
  cbn. rewrite dom_insert_L. set_solver.
Qed.

(** Forcing bindings never evicts.  [select_forced] over [n] distinct session
    keys leaves at least [n] entries in the map, for every [n]: the bound that
    the comment on [AFFINITY_MAX_IDLE] states does not hold for this entry
    point. *)
Theorem forced_unbounded st i keys :
  admits st i = true → NoDup keys →
  (length keys ≤ size (affinity (force_all i st keys)))%nat.
Proof.
  intros Hi Hnd. rewrite <- size_dom, force_all_dom by done.
  rewrite <- (size_list_to_set (C:=gset string) keys) by done.
  apply subseteq_size. set_solver.
Qed.

(** ** Witnesses *)
Definition pool3 : list StaticMember :=
  [ {| sm_id := "a"; sm_health := Available |};
    {| sm_id := "b"; sm_health := Cooldown 5 |};
    {| sm_id := "c"; sm_health := Available |} ].

Lemma pool3_fair : fair_pool pool3 9 default_state.
Proof.
  split.
  - apply (bool_decide_eq_true_1 _). vm_compute. reflexivity.
  - intros m Hm. repeat (apply elem_of_cons in Hm as [->|Hm]; [done|]).
    by apply elem_of_nil in Hm.
  - done.
Qed.

Lemma rr_fair_witness :
  ∃ l, (selects pool3 9 (2 * 3) default_state).1 = Some <$> l ∧
       ∀ i, (i < 3)%nat → length (filter (λ j, j = i) l) = 2%nat.
Proof.
  apply (rr_fair pool3 9 2 default_state).
  - exact pool3_fair.
  - exact (new_inv StrictRoundRobin).
  - unfold u64_max. cbn. lia.
Defined.

Lemma router_invariant_witness :
  router_inv (state (apply_op (new FillFirst) (OpSelect pool3 {| affinity_key := Some "s" |} 0))).
Proof.
  apply (router_invariant (M:=StaticMember) 1).
  - apply reach_step, reach_new.
  - unfold u64_max. cbn. lia.
Defined.

Lemma rr_no_overtaking_witness :
  let c := {| sm_id := "c"; sm_health := Available |} in
  id c = "a" ∨ id c ∈ ["b"; "c"].
Proof.
  apply (rr_no_overtaking (serve default_state "a" None) [(pool3, 9); (pool3, 9)]
           ["b"; "c"] (serve (serve (serve default_state "a" None) "b" None) "c" None)
           pool3 9 0 {| sm_id := "a"; sm_health := Available |} "a" eq_refl);
    try (vm_compute; reflexivity).
  - apply serve_inv; [apply (new_inv FillFirst)|vm_compute; reflexivity|done].
  - vm_compute. done.
  - unfold pool3. set_solver.
Defined.

Lemma session_sticks_witness :
  ∃ idx m', (select (foldl apply_op (select_forced (new FillFirst) "c" (Some "s"))
                       [OpSelect pool3 default_hint 9; OpRetain {["c"]}])
               pool3 {| affinity_key := Some "s" |} 9).1 = Some idx ∧
            pool3 !! idx = Some m' ∧ id m' = "c".
Proof.
  apply (session_sticks _ _ "s" "c" 1 pool3 9 {| sm_id := "c"; sm_health := Available |});
    try (vm_compute; reflexivity).
  - apply (apply_op_inv (new FillFirst) (OpForced (M:=StaticMember) "c" (Some "s")));
      [apply new_inv|done].
  - apply Forall_cons; split; [done|]. apply Forall_cons; split; [cbn; set_solver|done].
  - vm_compute. done.
  - vm_compute. done.
  - unfold pool3. set_solver.
Defined.

Lemma affinity_bounded_witness :
  Z.of_nat (size (affinity (state (foldl apply_op (new FillFirst)
    [OpSelect pool3 {| affinity_key := Some "s" |} 9; OpSetStrategy StrictRoundRobin])))) ≤ 10001.
Proof.
  apply (affinity_bounded FillFirst).
  - repeat constructor.
  - vm_compute. done.
Defined.

Lemma forced_unbounded_witness :
  (3 ≤ size (affinity (force_all "a" default_state ["x"; "y"; "z"])))%nat.
Proof.
  apply (forced_unbounded default_state "a" ["x"; "y"; "z"]); [done|].
  apply (bool_decide_eq_true_1 _). vm_compute. reflexivity.
Defined.
