(* ===== verification/Lcp.v ===== *)
(** * Conversation trajectories (crates/router/src/lcp.rs)

    The matcher that recognises a conversation by the longest common prefix of
    its turn fingerprints.  [resolve] and [bind] mutate the matcher; they are
    functions to the next matcher.  The caller's closure [session_id] is a
    parameter of [resolve]. *)

From stdpp Require Import gmap strings list.
From S2P Require Import Prelude.
Open Scope Z_scope.
Open Scope rust_scope.

Module Lcp.

Record Prepared := {
  turns : list string;
  tail : list string;
  environment : string;
  min_prefix : nat;
}.

Record Bounds := {
  max_turns : nat;
  max_groups : nat;
  max_prefixes : nat;
  ttl_ms : Z; (* i64 *)
}.

Definition default_bounds : Bounds :=
  {| max_turns := 1024; max_groups := 4096; max_prefixes := N.to_nat 262144;
     ttl_ms := 3600000 |}.

Record Binding := {
  session : string;
  parent : option string;
  member : string;
}.

Record Group := {
  namespace : string;
  prepared : Prepared;
  binding : Binding;
  expires : Z; (* i64 *)
  access : Z;  (* u64 *)
}.

Record Matcher := { groups : list Group; clock : Z (* field [access], u64 *) }.
Definition default_matcher : Matcher := {| groups := []; clock := 0 |}.

Definition turn_count (g : Group) : nat := length (turns (prepared g)).
Definition total_turns (gs : list Group) : nat := sum_list_with turn_count gs.

(** ** Capacity

    The [while len > max_groups || sum > max_prefixes] loop of [resolve] and
    [bind]: remove the group with the smallest access stamp.  Each turn removes
    a group, so [length gs] turns are enough; with no group left the loop
    breaks. *)
Definition over_capacity (b : Bounds) (gs : list Group) : bool :=
  (max_groups b <? length gs)%nat || (max_prefixes b <? total_turns gs)%nat.

Definition oldest_index (gs : list Group) : option nat :=
  fst <$> min_by (on_key Z.ltb (λ ig : nat * Group, access ig.2)) (imap pair gs).

Fixpoint evict (fuel : nat) (b : Bounds) (gs : list Group) : list Group :=
  match fuel with
  | O => gs
  | S fuel =>
      if over_capacity b gs then
        match oldest_index gs with
        | Some i => evict fuel b (delete i gs)
        | None => gs
        end
      else gs
  end.

Definition trim_groups (b : Bounds) (gs : list Group) : list Group := evict (length gs) b gs.

(** ** Matching *)

(** [a.iter().zip(b).take_while(|(a, b)| a == b).count()]. *)
Fixpoint common_prefix (a b : list string) : nat :=
  match a, b with
  | x :: a, y :: b => if bool_decide (x = y) then S (common_prefix a b) else 0
  | _, _ => 0
  end.

(** The groups of the namespace that share a long enough prefix, with its length. *)
Definition prefix_matches (gs : list Group) (ns : string) (p : Prepared)
  : list (Group * nat) :=
  omap (λ g, let common := common_prefix (turns (prepared g)) (turns p) in
             if (Nat.max (min_prefix p) (min_prefix (prepared g)) <=? common)%nat
             then Some (g, common) else None)
    (filter (λ g, namespace g = ns) gs).

Definition match_ltb : Group * nat → Group * nat → bool :=
  lex (on_key Nat.ltb snd)
    (lex (on_key Nat.ltb (λ gc, turn_count gc.1)) (on_key Z.ltb (λ gc, access gc.1))).

(** [expires = now + max(ttl, 0)] for the first group with this access stamp. *)
Fixpoint refresh (acc deadline : Z) (gs : list Group) : list Group :=
  match gs with
  | [] => []
  | g :: gs =>
      if access g =? acc then
        {| namespace := namespace g; prepared := prepared g; binding := binding g;
           expires := deadline; access := access g |} :: gs
      else g :: refresh acc deadline gs
  end.

Definition deadline (b : Bounds) (now : Z) : Z := now +| Z.max (ttl_ms b) 0.

(** Compaction: the longest overlap of a prefix of the new tail with the end of
    the group's tail.  [tail[..=end]] is [take (end + 1)]. *)
Definition overlap_at (p : Prepared) (g : Group) (e : nat) : nat :=
  let count := common_prefix (reverse (take (S e) (tail p))) (reverse (tail (prepared g))) in
  let candidate_start := (length (turns p) - length (tail p) + e + 1 - count)%nat in
  let parent_start := (turn_count g - count)%nat in
  if (2 <=? count)%nat && (candidate_start <=? min_prefix p)%nat
     && ((0 <? candidate_start)%nat || (0 <? parent_start)%nat)
  then count else 0.

Definition overlap (p : Prepared) (g : Group) : nat :=
  foldl (λ best e, Nat.max best (overlap_at p g e)) 0%nat
    (seq 1 (length (tail p) - 1)).

(** The loop over the groups that collects the candidates of the best overlap. *)
Definition collect (p : Prepared) (acc : nat * list Group) (g : Group) : nat * list Group :=
  let '(best_overlap, candidates) := acc in
  let o := overlap p g in
  let '(best_overlap, candidates) :=
    if (best_overlap <? o)%nat then (o, []) else (best_overlap, candidates) in
  if (2 <=? o)%nat && (o =? best_overlap)%nat
  then (best_overlap, candidates ++ [g]) else (best_overlap, candidates).

Definition candidates (gs : list Group) (ns : string) (p : Prepared) : list Group :=
  (foldl (collect p) (0%nat, [])
     (filter (λ g, namespace g = ns ∧ environment (prepared g) = environment p) gs)).2.

(** The guards of [resolve] and of [bind]. *)
Definition unmatchable (p : Prepared) (b : Bounds) : bool :=
  (min_prefix p =? 0)%nat || (length (turns p) <? min_prefix p)%nat
  || (max_turns b <? length (turns p))%nat || (max_prefixes b <? length (turns p))%nat.
Definition unbindable (p : Prepared) (b : Bounds) : bool :=
  (min_prefix p =? 0)%nat
  || (max_turns b <? length (turns p))%nat || (max_prefixes b <? length (turns p))%nat.

Section resolve.
Context (session_id : list string → option string → string).

Definition cold (p : Prepared) : Binding :=
  {| session := session_id (take (min_prefix p) (turns p)) None;
     parent := None; member := "" |}.

(** A prefix match: the same conversation, or a fork of it. *)
Definition continue_group (p : Prepared) (g : Group) (common : nat) : Binding :=
  if (common <? turn_count g)%nat && (common <? length (turns p))%nat then
    {| session := session_id (take (S common) (turns p)) None;
       parent := Some (session_id (take common (turns p)) None);
       member := member (binding g) |}
  else binding g.

(** A compacted conversation: inherit an unambiguous overlap. *)
Definition inherit (p : Prepared) (cands : list Group) : Binding :=
  if (16 <? length cands)%nat then cold p
  else
    let sessions : gset string := list_to_set ((λ g, session (binding g)) <$> cands) in
    match cands with
    | g :: _ =>
        if (size sessions =? 1)%nat then
          {| session := session_id (turns p) (Some (session (binding g)));
             parent := Some (session (binding g));
             member := member (binding g) |}
        else cold p
    | [] => cold p
    end.

Definition resolve (m : Matcher) (ns : string) (p : Prepared) (b : Bounds) (now : Z)
  : option Binding * Matcher :=
  let gs := trim_groups b (filter (λ g, now < expires g) (groups m)) in
  let m' := {| groups := gs; clock := clock m |} in
  if unmatchable p b then (None, m')
  else
    match max_by match_ltb (prefix_matches gs ns p) with
    | Some (g, common) =>
        (Some (continue_group p g common),
         {| groups := refresh (access g) (deadline b now) gs; clock := clock m |})
    | None => (Some (inherit p (candidates gs ns p)), m')
    end.
End resolve.

Definition bind (m : Matcher) (ns : string) (p : Prepared) (bd : Binding) (b : Bounds)
    (now : Z) : Matcher :=
  if unbindable p b then m
  else
    let kept := filter (λ g, now < expires g ∧ ¬ (namespace g = ns ∧ turns (prepared g) = turns p))
                  (groups m) in
    let acc := clock m +% 1 in
    {| groups := trim_groups b
         (kept ++ [{| namespace := ns; prepared := p; binding := bd;
                      expires := deadline b now; access := acc |}]);
       clock := acc |}.

Definition retain_members (m : Matcher) (active : gset string) : Matcher :=
  {| groups := filter (λ g, member (binding g) ∈ active) (groups m); clock := clock m |}.

End Lcp.

(** * Correctness of the conversation matcher

    The matcher stays within its bounds, never crosses a namespace, and a
    conversation that was just bound is recognised again when it grows. *)

Import Lcp.

Section capacity.
Context (b : Bounds).
Implicit Types (gs : list Group) (g : Group).

Lemma oldest_index_Some gs i :
  oldest_index gs = Some i →
  ∃ g, gs !! i = Some g ∧ ∀ g', g' ∈ gs → access g ≤ access g'.
Proof.
  unfold oldest_index. rewrite fmap_Some. intros ([i' g] & Hm & ->).
  apply min_by_Some in Hm as [Hin Hmin]; [|apply on_key_sw, Z_ltb_sw].
  apply elem_of_lookup_imap in Hin as (j & y & [= -> ->] & Hy). exists y. split; [done|].
  intros g' [j' Hg']%list_elem_of_lookup.
  specialize (Hmin (j', g')). unfold on_key in Hmin. cbn in Hmin.
  apply Z.ltb_ge, Hmin, elem_of_lookup_imap. eauto.
Qed.

Lemma oldest_index_None gs : oldest_index gs = None → gs = [].
Proof. unfold oldest_index. rewrite fmap_None, min_by_None. by destruct gs. Qed.

Lemma evict_capacity fuel : ∀ gs,
  (length gs ≤ fuel)%nat → over_capacity b (evict fuel b gs) = false.
Proof.
  induction fuel as [|fuel IH]; intros gs Hl.
  { destruct gs; [done|cbn in Hl; lia]. }
  cbn. destruct (over_capacity b gs) eqn:Ho; [|done].
  destruct (oldest_index gs) as [i|] eqn:Hi.
  - apply oldest_index_Some in Hi as (g & Hg & _). apply IH.
    rewrite length_delete by eauto. apply lookup_lt_Some in Hg. lia.
  - apply oldest_index_None in Hi as ->. done.
Qed.

Lemma evict_sublist fuel : ∀ gs, evict fuel b gs `sublist_of` gs.
Proof.
  induction fuel as [|fuel IH]; intros gs; cbn; [done|].
  destruct (over_capacity b gs); [|done]. destruct (oldest_index gs) as [i|]; [|done].
  etrans; [apply IH|apply sublist_delete].
Qed.

Lemma trim_elem gs g : g ∈ trim_groups b gs → g ∈ gs.
Proof.
  intros Hg. eapply elem_of_sublist; [exact Hg|apply evict_sublist].
Qed.

(** The most recent group is the last one to go. *)
Lemma evict_newest fuel : ∀ gs g,
  (∀ y, y ∈ gs → access y < access g) → over_capacity b [g] = false →
  ∃ gs', evict fuel b (gs ++ [g]) = gs' ++ [g] ∧ gs' `sublist_of` gs.
Proof.
  induction fuel as [|fuel IH]; intros gs g Hlt Hg; cbn; [by exists gs|].
  destruct (over_capacity b (gs ++ [g])) eqn:Ho; [|by exists gs].
  destruct (oldest_index (gs ++ [g])) as [i|] eqn:Hi; [|by exists gs].
  apply oldest_index_Some in Hi as (x & Hx & Hmin).
  destruct (decide (i < length gs)%nat) as [Hil|Hil].
  - rewrite delete_take_drop, take_app_le, drop_app_le by lia.
    rewrite (assoc_L (++)), <- delete_take_drop.
    destruct (IH (delete i gs) g) as (gs' & -> & Hsub); [|done|].
    { intros y Hy. apply Hlt. eapply elem_of_sublist; [exact Hy|apply sublist_delete]. }
    exists gs'. split; [done|]. etrans; [done|apply sublist_delete].
  - exfalso. rewrite lookup_app_r in Hx by lia.
    apply list_lookup_singleton_Some in Hx as [_ <-].
    destruct gs as [|y gs]; [by cbn in Ho; congruence|].
    specialize (Hlt y ltac:(left)). specialize (Hmin y ltac:(left)). lia.
Qed.

Lemma over_sublist gs gs' :
  gs' `sublist_of` gs → over_capacity b gs = false → over_capacity b gs' = false.
Proof.
  intros Hsub. assert (length gs' ≤ length gs ∧ total_turns gs' ≤ total_turns gs)%nat as [Hl Ht].
  { unfold total_turns. induction Hsub; cbn; lia. }
  unfold over_capacity. rewrite !orb_false_iff, !Nat.ltb_ge. lia.
Qed.
End capacity.

(** ** Invariant of a matcher used with fixed bounds *)
Section invariant.
Context (sid : list string → option string → string) (b : Bounds).
Implicit Types (m : Matcher) (gs : list Group).

Record matcher_inv m : Prop := {
  minv_clock : 0 ≤ clock m ≤ u64_max;
  minv_access : ∀ g, g ∈ groups m → access g ≤ clock m;
  minv_capacity : over_capacity b (groups m) = false;
}.

Inductive LcpOp :=
  | OpResolve (ns : string) (p : Prepared) (now : Z)
  | OpBind (ns : string) (p : Prepared) (bd : Binding) (now : Z)
  | OpRetain (active : gset string).

Definition run_lcp m (op : LcpOp) : Matcher :=
  match op with
  | OpResolve ns p now => (resolve sid m ns p b now).2
  | OpBind ns p bd now => bind m ns p bd b now
  | OpRetain active => retain_members m active
  end.

Lemma refresh_shape acc d gs :
  length (refresh acc d gs) = length gs ∧ total_turns (refresh acc d gs) = total_turns gs ∧
  access <$> refresh acc d gs = access <$> gs.
Proof.
  unfold total_turns.
  induction gs as [|g gs (IH1 & IH2 & IH3)]; cbn; [done|]. case_if; cbn; [done|].
  split_and!; [lia|lia|by f_equal].
Qed.

Lemma refresh_access acc d gs g c :
  (∀ g, g ∈ gs → access g ≤ c) → g ∈ refresh acc d gs → access g ≤ c.
Proof.
  intros Hall Hg. assert (Ha : access g ∈ access <$> refresh acc d gs)
    by (apply list_elem_of_fmap; eauto).
  destruct (refresh_shape acc d gs) as (_ & _ & E). rewrite E in Ha.
  apply list_elem_of_fmap in Ha as (g' & -> & ?). auto.
Qed.

Lemma resolve_inv m ns p now :
  matcher_inv m → matcher_inv (resolve sid m ns p b now).2.
Proof.
  intros [Hc Ha Hcap]. unfold resolve.
  set (gs := trim_groups b _).
  assert (Hgs : ∀ g, g ∈ gs → access g ≤ clock m).
  { intros g [_ ?]%trim_elem%list_elem_of_filter. by apply Ha. }
  assert (Hov : over_capacity b gs = false) by (by apply evict_capacity).
  case_if; [by split|].
  destruct (max_by _ _) as [[g c]|]; [|by split]. split; cbn; [done| |].
  - intros g'. by apply refresh_access.
  - destruct (refresh_shape (access g) (deadline b now) gs) as (E1 & E2 & _).
    unfold over_capacity. by rewrite E1, E2.
Qed.

Lemma bind_inv m ns p bd now :
  clock m < u64_max → matcher_inv m → matcher_inv (bind m ns p bd b now).
Proof.
  intros Hlt [Hc Ha Hcap]. unfold bind. case_if; [by split|].
  rewrite wrapping_succ_u64 by lia. split; cbn; [lia| |by apply evict_capacity].
  intros g Hg%trim_elem. apply elem_of_app in Hg as [[_ Hg]%list_elem_of_filter|Hg].
  - apply Ha in Hg. lia.
  - apply list_elem_of_singleton in Hg as ->. done.
Qed.

Lemma default_inv : matcher_inv default_matcher.
Proof.
  split; cbn; [unfold u64_max; lia| |done]. intros g Hg. by apply elem_of_nil in Hg.
Qed.

(** Whatever is resolved, bound and retained in any order, the matcher never
    holds more groups than [max_groups] nor more turns than [max_prefixes], and
    no group carries an access stamp ahead of the clock. *)
Theorem matcher_bounded ops :
  Z.of_nat (length ops) ≤ u64_max →
  matcher_inv (foldl run_lcp default_matcher ops).
Proof.
  intros Hlen. cut (matcher_inv (foldl run_lcp default_matcher ops) ∧
                    clock (foldl run_lcp default_matcher ops) ≤ Z.of_nat (length ops));
    [tauto|].
  induction ops as [|op ops IH] using rev_ind.
  { split; [apply default_inv|done]. }
  rewrite length_app in *. cbn [length] in *. rewrite foldl_app. cbn [foldl].
  destruct IH as [Hinv Hck]; [lia|]. set (m := foldl _ _ _) in *.
  destruct op as [ns p now|ns p bd now|act]; cbn [run_lcp].
  - split; [by apply resolve_inv|]. unfold resolve. case_if; [cbn; lia|].
    destruct (max_by _ _) as [[]|]; cbn; lia.
  - split; [apply bind_inv; [lia|done]|]. unfold bind. case_if; [lia|]. cbn.
    pose proof (minv_clock _ Hinv). rewrite wrapping_succ_u64; lia.
  - split; [|cbn; lia]. destruct Hinv as [Hc Ha Hcap]. split; cbn; [done| |].
    + intros g [_ ?]%list_elem_of_filter. by apply Ha.
    + eapply over_sublist; [|exact Hcap]. apply sublist_filter.
Qed.
End invariant.

(** ** Recognising conversations *)
Section recognition.
Context (sid : list string → option string → string).
Implicit Types (m : Matcher) (gs : list Group) (g : Group) (p : Prepared).

Global Instance match_ltb_sw : StrictWeak match_ltb.
Proof.
  apply lex_sw; [apply on_key_sw, Nat_ltb_sw|].
  apply lex_sw; [apply on_key_sw, Nat_ltb_sw|apply on_key_sw, Z_ltb_sw].
Qed.

Lemma elem_of_prefix_matches gs ns p g c :
  (g, c) ∈ prefix_matches gs ns p ↔
  g ∈ gs ∧ namespace g = ns ∧ c = common_prefix (turns (prepared g)) (turns p) ∧
  (Nat.max (min_prefix p) (min_prefix (prepared g)) ≤ c)%nat.
Proof.
  unfold prefix_matches. rewrite list_elem_of_omap. split.
  - intros (g' & [? ?]%list_elem_of_filter & Hc). case_if; [|done].
    injection Hc as <- <-. bool_to_prop. auto.
  - intros (Hg & Hns & -> & Hle). exists g. split; [by apply list_elem_of_filter|].
    by apply Nat.leb_le in Hle as ->.
Qed.

Lemma common_prefix_app l k : common_prefix l (l ++ k) = length l.
Proof. induction l; cbn; [done|]. rewrite bool_decide_eq_true_2 by done. auto. Qed.

Lemma common_prefix_long l t k :
  (length t ≤ common_prefix l (t ++ k))%nat → t `prefix_of` l.
Proof.
  revert l. induction t as [|x t IH]; intros l Hl; [apply prefix_nil|].
  destruct l as [|y l]; cbn in *; [lia|]. case_bool_decide; [subst|lia].
  apply prefix_cons, IH. lia.
Qed.

Lemma collect_elem p gs : ∀ acc g,
  g ∈ (foldl (collect p) acc gs).2 → g ∈ acc.2 ∨ g ∈ gs.
Proof.
  induction gs as [|x gs IH]; intros [best cs] g; cbn; [by left|].
  intros [Hg|Hg]%IH; [|right; by right].
  unfold collect in Hg. repeat case_if; cbn in Hg;
    rewrite ?elem_of_app, ?list_elem_of_singleton, ?elem_of_nil in Hg; cbn;
    naive_solver (eauto using list_elem_of_here, list_elem_of_further).
Qed.

(** A conversation is only ever matched inside its own namespace.  Whatever
    member [resolve] assigns comes from a live group of the same namespace;
    otherwise the member is left empty. *)
Theorem resolve_isolated m ns p b now bd m' :
  resolve sid m ns p b now = (Some bd, m') →
  member bd = "" ∨
  ∃ g, g ∈ groups m ∧ namespace g = ns ∧ now < expires g ∧ member bd = member (binding g).
Proof.
  unfold resolve. set (gs := trim_groups b _).
  assert (Hgs : ∀ g, g ∈ gs → g ∈ groups m ∧ now < expires g).
  { intros g [? ?]%trim_elem%list_elem_of_filter. done. }
  case_if; [done|]. destruct (max_by _ _) as [[g c]|] eqn:Hm; intros [= <- _].
  - apply max_by_Some in Hm as [Hin _]; [|apply match_ltb_sw].
    apply elem_of_prefix_matches in Hin as (Hg & Hns & _). destruct (Hgs _ Hg). right.
    exists g. unfold continue_group. case_if; auto.
  - unfold inherit. case_if; [by left|].
    destruct (candidates gs ns p) as [|g cs] eqn:Hc; [by left|]. case_if; [|by left].
    right. exists g. assert (Hg : g ∈ candidates gs ns p) by (rewrite Hc; left).
    apply collect_elem in Hg as [Hg|Hg]; [by apply elem_of_nil in Hg|].
    apply list_elem_of_filter in Hg as [[? _] Hg]. destruct (Hgs _ Hg). auto.
Qed.

(** A group whose turns the request extends beats every group that does not
    contain those turns. *)
Lemma best_match gs g0 ns p' extra :
  namespace g0 = ns → turns p' = turns (prepared g0) ++ extra →
  (Nat.max (min_prefix (prepared g0)) (min_prefix p') ≤ turn_count g0)%nat →
  (∀ g, g ∈ gs → namespace g = ns → ¬ turns (prepared g0) `prefix_of` turns (prepared g)) →
  max_by match_ltb (prefix_matches (gs ++ [g0]) ns p') = Some (g0, turn_count g0).
Proof.
  intros Hns Ht Hmin Hgs.
  assert (Hc0 : common_prefix (turns (prepared g0)) (turns p') = turn_count g0)
    by (rewrite Ht; apply common_prefix_app).
  assert (Hin : (g0, turn_count g0) ∈ prefix_matches (gs ++ [g0]) ns p').
  { apply elem_of_prefix_matches. split_and!; [set_solver|done|done|lia]. }
  destruct (max_by match_ltb _) as [[g c]|] eqn:Hbest.
  2: { apply max_by_None in Hbest. rewrite Hbest in Hin. by apply elem_of_nil in Hin. }
  apply max_by_Some in Hbest as [Hg Hmax]; [|apply match_ltb_sw].
  apply elem_of_prefix_matches in Hg as (Hg & Hgn & -> & _).
  apply elem_of_app in Hg as [Hg|Hg%list_elem_of_singleton]; [|by subst g; rewrite Hc0].
  exfalso. specialize (Hmax _ Hin). apply (Hgs g Hg Hgn), (common_prefix_long _ _ extra).
  rewrite <- Ht. unfold match_ltb, lex, on_key in Hmax. cbn [fst snd] in Hmax.
  bool_to_prop. unfold turn_count in *. lia.
Qed.

(** A conversation is recognised when it grows.  After [bind], a request of
    the same namespace whose turns extend the bound ones gets exactly the bound
    session and member back, as long as the binding has not expired and no
    stored conversation of the namespace already extends the bound turns -
    even if the matcher was full, since the newest group is evicted last. *)
Theorem bind_then_resolve m ns p bd b now p' extra now' :
  matcher_inv b m → clock m < u64_max →
  unbindable p b = false → unmatchable p' b = false → (1 ≤ max_groups b)%nat →
  (∀ g, g ∈ groups m → namespace g = ns → turns p `prefix_of` turns (prepared g) →
        turns (prepared g) = turns p) →
  turns p' = turns p ++ extra →
  (Nat.max (min_prefix p) (min_prefix p') ≤ length (turns p))%nat →
  now' < deadline b now →
  (resolve sid (bind m ns p bd b now) ns p' b now').1 = Some bd.
Proof.
  intros Hinv Hclk Hub Hum Hmax Hext Ht' Hmin Hnow.
  pose proof (minv_clock _ _ Hinv). unfold bind. rewrite Hub, wrapping_succ_u64 by lia.
  set (g0 := {| namespace := ns |}). set (kept := filter _ (groups m)).
  assert (Hkept : ∀ g, g ∈ kept → access g < access g0 ∧
            (namespace g = ns → ¬ turns p `prefix_of` turns (prepared g))).
  { intros g [[_ Hne] Hg]%list_elem_of_filter. split.
    - pose proof (minv_access _ _ Hinv _ Hg). cbn. lia.
    - intros Hns Hpre. apply Hne. split; [done|]. by apply Hext. }
  assert (Hg0 : over_capacity b [g0] = false).
  { unfold unbindable in Hub. bool_to_prop. unfold over_capacity.
    apply orb_false_iff. rewrite !Nat.ltb_ge. cbn. unfold turn_count; cbn. lia. }
  destruct (evict_newest b (length (kept ++ [g0])) kept g0) as (k1 & E1 & Hk1);
    [by intros y Hy; apply Hkept|done|].
  unfold resolve. cbn [groups]. fold (trim_groups b (kept ++ [g0])) in E1. rewrite E1.
  rewrite filter_app, (filter_cons_True _ g0) by exact Hnow. rewrite filter_nil.
  set (k2 := filter _ k1).
  assert (Hk2 : ∀ g, g ∈ k2 → g ∈ kept).
  { intros g [_ Hg]%list_elem_of_filter. by eapply elem_of_sublist. }
  destruct (evict_newest b (length (k2 ++ [g0])) k2 g0) as (k3 & E2 & Hk3);
    [by intros y Hy; apply Hkept, Hk2|done|].
  fold (trim_groups b (k2 ++ [g0])) in E2. rewrite E2, Hum.
  rewrite (best_match k3 g0 ns p' extra); cbn; [|done..|].
  - unfold continue_group. by rewrite (proj2 (Nat.ltb_ge _ _)).
  - intros g Hg. apply Hkept, Hk2. by eapply elem_of_sublist.
Qed.
End recognition.

(** ** Instances of the theorems *)

Definition sample_bounds : Bounds :=
  {| max_turns := 8; max_groups := 1; max_prefixes := 16; ttl_ms := 1000 |}.
Definition sample_turns (ts : list string) : Prepared :=
  {| turns := ts; tail := []; environment := "env"; min_prefix := 1 |}.
Definition sample_bound (s m : string) : Binding :=
  {| session := s; parent := None; member := m |}.
Definition sample_sid (ts : list string) (_ : option string) : string := foldr String.append "" ts.

Definition sample_lcp_ops : list LcpOp :=
  [OpBind "ns" (sample_turns ["a"; "b"]) (sample_bound "s1" "acct1") 0;
   OpBind "ns" (sample_turns ["x"]) (sample_bound "s2" "acct2") 5;
   OpResolve "ns" (sample_turns ["x"; "y"]) 10].

Lemma matcher_bounded_witness :
  matcher_inv sample_bounds (foldl (run_lcp sample_sid sample_bounds) default_matcher
                               sample_lcp_ops).
Proof. apply matcher_bounded. vm_compute. discriminate. Defined.

(** The matcher is full: the binding displaces the group that was there. *)
Definition sample_matcher : Matcher :=
  bind default_matcher "ns" (sample_turns ["x"]) (sample_bound "s2" "acct2") sample_bounds 0.

Lemma bind_then_resolve_witness :
  (resolve sample_sid
     (bind sample_matcher "ns" (sample_turns ["a"; "b"]) (sample_bound "s1" "acct1")
        sample_bounds 10)
     "ns" (sample_turns ["a"; "b"; "c"]) sample_bounds 20).1 = Some (sample_bound "s1" "acct1").
Proof.
  apply (bind_then_resolve sample_sid sample_matcher "ns" (sample_turns ["a"; "b"])
           (sample_bound "s1" "acct1") sample_bounds 10 (sample_turns ["a"; "b"; "c"]) ["c"] 20).
  - apply bind_inv; [reflexivity|apply default_inv].
  - vm_compute; reflexivity.
  - vm_compute; reflexivity.
  - vm_compute; reflexivity.
  - vm_compute. constructor.
  - intros g Hg _ Hp. apply list_elem_of_singleton in Hg as ->. exfalso.
    revert Hp. apply (bool_decide_unpack _). vm_compute. exact I.
  - vm_compute; reflexivity.
  - vm_compute. repeat constructor.
  - vm_compute; reflexivity.
Defined.
