(* ===== verification/Scheduler.v ===== *)
(** * The quota-aware scheduler (crates/gateway/src/scheduler/)

    [select_candidate] (algorithm.rs), and the [SchedulerRegistry] around it
    (mod.rs): settings, exhaustion bookkeeping with its hysteresis, the published
    snapshot, account reservations and the generation-ordered persistence.

    The wall clock is the argument [now] of every operation that reads it.  Each
    mutex makes its critical section one atomic step.  Percentages are IEEE-754
    doubles ([SpecFloat] at precision 53). *)

From Stdlib Require Import SpecFloat.
From stdpp Require Import gmap strings list.
From S2P Require Import Prelude Types F64.
Open Scope Z_scope.
Open Scope rust_scope.

Module Scheduler.
Export F64.

(** ** algorithm.rs *)

Definition EXHAUSTION_ENTER_PERCENT : Z := 3.
Definition EXHAUSTION_RECOVER_PERCENT : Z := 5.
Definition MINIMUM_HOLD_SECS : Z := 600.
Definition SWITCH_MARGIN_SECS : Z := 900.

Inductive WindowActivity := Active | Idle.

Record Candidate := {
  key : string;
  manually_disabled : bool;
  manual_priority : option Z;      (* u32 *)
  remaining_percent : option Z;    (* u8 *)
  cand_reset : option Z;           (* i64, [reset_at_unix] *)
  window_activity : WindowActivity;
  exhausted_since : option Z;      (* i64 *)
}.

Definition eligible (c : Candidate) : bool :=
  match remaining_percent c with
  | None => false
  | Some remaining =>
      negb (manually_disabled c)
      && negb (remaining <=? EXHAUSTION_ENTER_PERCENT)
      && negb (is_some (exhausted_since c) && (remaining <=? EXHAUSTION_RECOVER_PERCENT))
  end.

Definition window_tier (c : Candidate) : Z :=
  match window_activity c with Active => 0 | Idle => 1 end.

(** [reset_at_unix.filter(|reset| *reset > now).unwrap_or(i64::MAX)]. *)
Definition future_reset (now : Z) (c : Candidate) : Z :=
  match cand_reset c with
  | Some r => if now <? r then r else i64_max
  | None => i64_max
  end.

Definition rank_ltb (now : Z) : Candidate → Candidate → bool :=
  lex (on_key Z.ltb window_tier) (lex (on_key Z.ltb (future_reset now)) (on_key string_ltb key)).

Definition incumbent_ltb : Candidate → Candidate → bool :=
  lex (on_key Z.ltb (λ c, default u32_max (manual_priority c))) (on_key string_ltb key).

(** [Option]'s [Ord]: [None] before every [Some]. *)
Definition option_ltb (a b : option Z) : bool :=
  match a, b with
  | None, Some _ => true
  | Some a, Some b => a <? b
  | _, None => false
  end.

Definition reset_or_max (c : Candidate) : Z := default i64_max (cand_reset c).

Definition ranked (candidates : list Candidate) : list Candidate :=
  let el := filter (λ c, eligible c = true) candidates in
  if existsb (λ c, is_some (manual_priority c)) el
  then filter (λ c, is_some (manual_priority c) = true) el else el.

Definition select_candidate (candidates : list Candidate) (now : Z) : option Candidate :=
  match sort_by (rank_ltb now) (ranked candidates) with
  | [] => None
  | (best :: _) as sorted =>
      match min_by incumbent_ltb sorted with
      | Some incumbent =>
          if option_ltb (manual_priority incumbent) (manual_priority best)
             && (reset_or_max incumbent <=?
                 reset_or_max best +| SWITCH_MARGIN_SECS)
          then Some incumbent else Some best
      | None => Some best
      end
  end.

(** ** Percentages *)

(** [(100.0 - used).clamp(0.0, 100.0).round() as u8]. *)
Definition percent_left (used : f64) : Z :=
  round_as_u8 (f64_clamp (SFsub 53 1024 (f64_of_Z 100) used) (f64_of_Z 0) (f64_of_Z 100)).

Record UsageWindow := { used_percent : option f64; window_reset : option Z }.

(** What the scheduler reads of an account besides its [PoolMember] side. *)
Class UsageReport (M : Type) := {
  primary : M → UsageWindow;
  secondary : M → UsageWindow;
}.

(** ** State *)

Record SchedulerSettings := { enabled : bool; priorities : gmap string Z }.

Record PersistedState := {
  version : Z;
  selected : option string;
  exhausted_since_unix : gmap string Z;
  non_auth_failures : gmap string Z; (* u8 *)
}.

Global Instance PersistedState_eq_dec : EqDecision PersistedState.
Proof. solve_decision. Defined.

Record AccountScheduleStatus := {
  acc_id : string;
  acc_selected : bool;
  acc_parked : bool;
  acc_priority : option Z;
  acc_remaining : option Z;
  acc_reset : option Z;
  acc_failures : Z;
}.

Record SchedulerSnapshot := {
  snap_enabled : bool;
  snap_selected : option string;
  order : list string;
  fail_open : bool;
  reason : string;
  accounts : list AccountScheduleStatus;
  allowed : gset string;
}.

Definition default_snapshot : SchedulerSnapshot :=
  {| snap_enabled := false; snap_selected := None; order := []; fail_open := true;
     reason := "disabled"; accounts := []; allowed := ∅ |}.

Definition idle_snapshot (en : bool) (why : string) : SchedulerSnapshot :=
  {| snap_enabled := en; snap_selected := None; order := []; fail_open := true;
     reason := why; accounts := []; allowed := ∅ |}.

Record ReservationState := {
  live : option (gset string); (* field [active] *)
  reservations : gmap string string;
}.

(** [pending] are the background writes spawned and not yet run; [published] and
    [disk] are what [persisted_generation] and the state file hold. *)
Record SchedulerRegistry := {
  settings : SchedulerSettings;
  snapshot : SchedulerSnapshot;
  runtime : PersistedState;
  state_generation : Z;
  pending : list (Z * PersistedState);
  published : Z;
  disk : option PersistedState;
  state_parse_failed : bool;
  reserved : ReservationState;
}.

(** ** Reservations *)

Definition reserved_by_any (r : ReservationState) (account : string) : bool :=
  existsb (λ a, bool_decide (a = account)) (btree_values (reservations r)).

Definition permits (s : SchedulerRegistry) (account : string) : bool :=
  if reserved_by_any (reserved s) account then false
  else fail_open (snapshot s) || bool_decide (account ∈ allowed (snapshot s)).

Definition reserve (r : ReservationState) (instance_id account_id : string)
  : result string unit * ReservationState :=
  if match live r with Some active => negb (bool_decide (account_id ∈ active)) | None => false end
  then (Err ("account " +:+ account_id +:+ " is not active"), r)
  else if existsb (λ kv : string * string,
                     negb (bool_decide (kv.1 = instance_id)) && bool_decide (kv.2 = account_id))
            (btree_entries (reservations r))
  then (Err ("account " +:+ account_id +:+ " is already reserved"), r)
  else (Ok tt, {| live := live r;
                  reservations := <[instance_id := account_id]> (reservations r) |}).

Definition release (r : ReservationState) (instance_id : string) : bool * ReservationState :=
  (is_some (reservations r !! instance_id),
   {| live := live r; reservations := delete instance_id (reservations r) |}).

Definition retain_accounts (r : ReservationState) (active : gset string)
  : list string * ReservationState :=
  ((filter (λ kv : string * string, kv.2 ∉ active) (btree_entries (reservations r))).*1,
   {| live := Some active;
      reservations := filter (λ kv : string * string, kv.2 ∈ active) (reservations r) |}).

(** ** Sidecar files

    What reading a sidecar file and parsing it as JSON gave. *)
Inductive Sidecar (T : Type) :=
  | Missing
  | Unreadable
  | Malformed
  | Parsed (value : T).
Arguments Missing {T}.
Arguments Unreadable {T}.
Arguments Malformed {T}.
Arguments Parsed {T} value.

(** [load_json]: the value, and whether it failed for another reason than a
    missing file. *)
Definition load_json {T} (file : Sidecar T) : option T * bool :=
  match file with
  | Parsed value => (Some value, false)
  | Missing => (None, false)
  | Malformed | Unreadable => (None, true)
  end.

Definition default_settings : SchedulerSettings := {| enabled := false; priorities := ∅ |}.
(** The derived [Default]: [state_version] is only the default of parsing. *)
Definition default_persisted : PersistedState :=
  {| version := 0; selected := None; exhausted_since_unix := ∅; non_auth_failures := ∅ |}.

(** ** Reconciliation *)
Section reconcile.
Context {M : Type} `{PoolMember M} `{UsageReport M}.

(** The most consumed window of an account: percent left and its reset. *)
Definition visit_window (acc : option Z * option Z) (w : UsageWindow)
  : option Z * option Z :=
  match used_percent w with
  | None => acc
  | Some used =>
      let left := percent_left used in
      if match acc.1 with None => true | Some best => left <? best end
      then (Some left, window_reset w) else acc
  end.

Definition tightest_window (m : M) : option Z * option Z :=
  foldl visit_window (None, None) [primary m; secondary m].

(** The exhaustion bookkeeping of one account: it enters at 3 percent and leaves
    above 5 percent once it has been held for ten minutes. *)
Definition update_exhausted (now : Z) (i : string) (remaining : option Z)
    (ex : gmap string Z) : gmap string Z :=
  match remaining with
  | None => ex
  | Some value =>
      if value <=? EXHAUSTION_ENTER_PERCENT then
        match ex !! i with Some _ => ex | None => <[i := now]> ex end
      else if EXHAUSTION_RECOVER_PERCENT <? value then
        if match ex !! i with
           | None => true
           | Some since => MINIMUM_HOLD_SECS <=? now -| since
           end
        then delete i ex else ex
      else ex
  end.

Record AccountFact := {
  fact_id : string;
  fact_remaining : option Z;
  fact_reset : option Z;
  fact_health : Health;
  fact_exhausted : option Z;
  fact_failures : Z;
}.

Fixpoint gather (now : Z) (failures : gmap string Z) (members : list M)
    (ex : gmap string Z) : list AccountFact * gmap string Z :=
  match members with
  | [] => ([], ex)
  | m :: ms =>
      let '(remaining, reset) := tightest_window m in
      let ex := update_exhausted now (id m) remaining ex in
      let '(facts, ex') := gather now failures ms ex in
      ({| fact_id := id m; fact_remaining := remaining; fact_reset := reset;
          fact_health := health m; fact_exhausted := ex !! id m;
          fact_failures := default 0 (failures !! id m) |} :: facts, ex')
  end.

Definition manual_priority_of (st : SchedulerSettings) (sel : option string) (i : string)
  : option Z :=
  if negb (bool_decide (priorities st = ∅)) then priorities st !! i
  else if bool_decide (sel = Some i) then Some 0
  else if is_some sel then Some 1
  else None.

Definition candidate_of (st : SchedulerSettings) (sel : option string) (now : Z) (f : AccountFact)
  : Candidate :=
  {| key := fact_id f;
     manually_disabled :=
       negb (is_available (fact_health f) (now * 1000))
       || (3 <=? fact_failures f)
       || match fact_exhausted f with
          | Some since => now -| since <? MINIMUM_HOLD_SECS
          | None => false
          end;
     manual_priority := manual_priority_of st sel (fact_id f);
     remaining_percent := fact_remaining f;
     cand_reset := fact_reset f;
     window_activity :=
       match fact_reset f with Some r => if now <? r then Active else Idle | None => Idle end;
     exhausted_since := fact_exhausted f |}.

(** [(manual_priority.unwrap_or(MAX), reset.unwrap_or(MAX), id)] of the first
    candidate with that id. *)
Definition order_key (cands : list Candidate) (i : string) : Z * Z :=
  match list_find (λ c, key c = i) cands with
  | Some (_, c) => (default u32_max (manual_priority c), reset_or_max c)
  | None => (u32_max, i64_max) (* unreachable: the id comes from a candidate *)
  end.

Definition order_ltb (cands : list Candidate) : string → string → bool :=
  lex (on_key Z.ltb (λ i, (order_key cands i).1))
    (lex (on_key Z.ltb (λ i, (order_key cands i).2)) string_ltb).

Definition schedule_order (cands : list Candidate) (sel : option string) : list string :=
  let order := sort_by (order_ltb cands)
    (key <$> filter (λ c, negb (manually_disabled c) && is_some (remaining_percent c) = true)
               cands) in
  match sel with
  | None => order
  | Some s =>
      s :: match position (λ i, bool_decide (i = s)) order with
           | Some p => delete p order
           | None => order
           end
  end.

Definition status_of (st : SchedulerSettings) (sel : option string) (f : AccountFact)
  : AccountScheduleStatus :=
  {| acc_id := fact_id f;
     acc_selected := bool_decide (sel = Some (fact_id f));
     acc_parked := is_some sel && negb (bool_decide (sel = Some (fact_id f)));
     acc_priority := priorities st !! fact_id f;
     acc_remaining := fact_remaining f;
     acc_reset := fact_reset f;
     acc_failures := fact_failures f |}.

(** Dropping what belongs to accounts that are gone. *)
Definition prune (members : list M) (r : PersistedState) : PersistedState :=
  let ids : gset string := list_to_set (id <$> members) in
  {| version := version r;
     selected := match selected r with
                 | Some i => if bool_decide (i ∈ ids) then Some i else None
                 | None => None
                 end;
     exhausted_since_unix := filter (λ kv, kv.1 ∈ ids) (exhausted_since_unix r);
     non_auth_failures := filter (λ kv, kv.1 ∈ ids) (non_auth_failures r) |}.

(** The body of [reconcile] under the runtime lock: next runtime and snapshot. *)
Definition replan (st : SchedulerSettings) (members : list M) (now : Z) (r : PersistedState)
  : PersistedState * SchedulerSnapshot :=
  let r := prune members r in
  let '(facts, ex) := gather now (non_auth_failures r) members (exhausted_since_unix r) in
  let cands := candidate_of st (selected r) now <$> facts in
  let sel := key <$> select_candidate cands now in
  ({| version := version r; selected := sel; exhausted_since_unix := ex;
      non_auth_failures := non_auth_failures r |},
   {| snap_enabled := true;
      snap_selected := sel;
      order := schedule_order cands sel;
      fail_open := negb (is_some sel);
      reason := if is_some sel then "scheduled" else "no-eligible-target";
      accounts := status_of st sel <$> facts;
      allowed := match sel with Some i => {[ i ]} | None => ∅ end |}).

Definition with_snapshot (s : SchedulerRegistry) (sn : SchedulerSnapshot) : SchedulerRegistry :=
  {| settings := settings s; snapshot := sn; runtime := runtime s;
     state_generation := state_generation s; pending := pending s;
     published := published s; disk := disk s;
     state_parse_failed := state_parse_failed s; reserved := reserved s |}.

Definition with_runtime (s : SchedulerRegistry) (r : PersistedState) : SchedulerRegistry :=
  {| settings := settings s; snapshot := snapshot s; runtime := r;
     state_generation := state_generation s; pending := pending s;
     published := published s; disk := disk s;
     state_parse_failed := state_parse_failed s; reserved := reserved s |}.

Definition with_reserved (s : SchedulerRegistry) (r : ReservationState) : SchedulerRegistry :=
  {| settings := settings s; snapshot := snapshot s; runtime := runtime s;
     state_generation := state_generation s; pending := pending s;
     published := published s; disk := disk s;
     state_parse_failed := state_parse_failed s; reserved := r |}.

(** Spawning a background write: the generation is taken under the lock. *)
Definition spawn_persist (s : SchedulerRegistry) : SchedulerRegistry :=
  let g := state_generation s +% 1 in
  {| settings := settings s; snapshot := snapshot s; runtime := runtime s;
     state_generation := g; pending := pending s ++ [(g, runtime s)];
     published := published s; disk := disk s;
     state_parse_failed := state_parse_failed s; reserved := reserved s |}.

Definition reconcile (s : SchedulerRegistry) (members : list M) (now : Z) : SchedulerRegistry :=
  if negb (enabled (settings s)) then with_snapshot s (idle_snapshot false "disabled")
  else if state_parse_failed s then with_snapshot s (idle_snapshot true "state-parse-failure")
  else
    let '(r, sn) := replan (settings s) members now (runtime s) in
    let s' := with_snapshot (with_runtime s r) sn in
    if bool_decide (runtime s = r) then s' else spawn_persist s'.

Definition record_success (s : SchedulerRegistry) (account : string) (members : list M)
    (now : Z) : SchedulerRegistry :=
  let r := runtime s in
  let s' := with_runtime s
    {| version := version r; selected := selected r;
       exhausted_since_unix := exhausted_since_unix r;
       non_auth_failures := delete account (non_auth_failures r) |} in
  if is_some (non_auth_failures r !! account) then reconcile s' members now else s'.

Definition record_non_auth_failure (s : SchedulerRegistry) (account : string)
    (members : list M) (now : Z) : SchedulerRegistry :=
  let r := runtime s in
  let count := default 0 (non_auth_failures r !! account) in
  reconcile (with_runtime s
    {| version := version r; selected := selected r;
       exhausted_since_unix := exhausted_since_unix r;
       non_auth_failures := <[account := saturating_add_u8 count 1]> (non_auth_failures r) |})
    members now.

Definition record_auth_failure (s : SchedulerRegistry) (members : list M) (now : Z) :=
  reconcile s members now.

(** [update_settings]: [saved] is whether writing the settings file succeeded;
    on failure nothing changes. *)
Definition update_settings (s : SchedulerRegistry) (saved : bool) (next : SchedulerSettings)
    (members : list M) (now : Z) : bool * SchedulerRegistry :=
  if saved then
    (true, reconcile
      {| settings := next; snapshot := snapshot s; runtime := runtime s;
         state_generation := state_generation s; pending := pending s;
         published := published s; disk := disk s;
         state_parse_failed := false; reserved := reserved s |} members now)
  else (false, s).

Fixpoint assign_priorities (known : gset string) (n : Z) (ids : list string)
    (acc : gmap string Z) : gmap string Z :=
  match ids with
  | [] => acc
  | i :: ids =>
      assign_priorities known (n + 1) ids
        (if bool_decide (i ∈ known) && negb (is_some (acc !! i))
         then <[i := n mod 2 ^ 32]> acc else acc)
  end.

Definition set_order (s : SchedulerRegistry) (saved : bool) (ids : list string)
    (members : list M) (now : Z) : bool * SchedulerRegistry :=
  update_settings s saved
    {| enabled := enabled (settings s);
       priorities := assign_priorities (list_to_set (id <$> members)) 0 ids ∅ |}
    members now.

(** [load]: the registry of a starting process, from what its two sidecar files
    hold, reconciled once. *)
Definition load (settings_file : Sidecar SchedulerSettings) (state_file : Sidecar PersistedState)
    (members : list M) (now : Z) : SchedulerRegistry :=
  let '(st, settings_failed) := load_json settings_file in
  let '(rt, state_failed) := load_json state_file in
  reconcile
    {| settings := default default_settings st;
       snapshot := default_snapshot;
       runtime := default default_persisted rt;
       state_generation := 0;
       pending := [];
       published := 0;
       disk := rt;
       state_parse_failed := settings_failed || state_failed;
       reserved := {| live := None; reservations := ∅ |} |} members now.
End reconcile.

(** ** Persistence

    [persist_generation] for one spawned write; [ok] is whether the file system
    accepted it.  The write and the update of [published] happen under one lock. *)
Definition persist_generation (s : SchedulerRegistry) (generation : Z) (st : PersistedState)
    (ok : bool) : SchedulerRegistry :=
  if generation <=? published s then s
  else if ok then
    {| settings := settings s; snapshot := snapshot s; runtime := runtime s;
       state_generation := state_generation s; pending := pending s;
       published := generation; disk := Some st;
       state_parse_failed := state_parse_failed s; reserved := reserved s |}
  else s.

(** Running the [i]-th pending write. *)
Definition run_pending (s : SchedulerRegistry) (i : nat) (ok : bool) : SchedulerRegistry :=
  match pending s !! i with
  | None => s
  | Some (g, st) =>
      persist_generation
        {| settings := settings s; snapshot := snapshot s; runtime := runtime s;
           state_generation := state_generation s; pending := delete i (pending s);
           published := published s; disk := disk s;
           state_parse_failed := state_parse_failed s; reserved := reserved s |} g st ok
  end.

End Scheduler.
