(* ===== verification/SchedulerProps.v ===== *)
(** * Correctness of the scheduler

    What [select_candidate] returns, stickiness of the selection, the published
    snapshot, the exhaustion hold, exclusivity of reservations, and the order of
    persisted generations. *)

From Stdlib Require Import SpecFloat.
From stdpp Require Import gmap strings list.
From S2P Require Import Prelude Types Scheduler.
Import Scheduler.
Open Scope Z_scope.

Section selection.
Implicit Types (c best inc : Candidate) (cs : list Candidate).

Global Instance rank_ltb_sw now : StrictWeak (rank_ltb now).
Proof.
  apply lex_sw; [apply on_key_sw, Z_ltb_sw|].
  apply lex_sw; [apply on_key_sw, Z_ltb_sw|apply on_key_sw, string_ltb_sw].
Qed.

Global Instance incumbent_ltb_sw : StrictWeak incumbent_ltb.
Proof. apply lex_sw; [apply on_key_sw, Z_ltb_sw|apply on_key_sw, string_ltb_sw]. Qed.

Lemma elem_of_ranked cs c :
  c ∈ ranked cs ↔ c ∈ cs ∧ eligible c = true ∧
    ((∃ c', c' ∈ cs ∧ eligible c' = true ∧ is_Some (manual_priority c')) →
     is_Some (manual_priority c)).
Proof.
  unfold ranked. set (el := filter _ cs).
  assert (Hel : ∀ x, x ∈ el ↔ x ∈ cs ∧ eligible x = true)
    by (intros x; unfold el; rewrite list_elem_of_filter; tauto).
  destruct (existsb _ el) eqn:He.
  - apply existsb_exists in He as (x & Hx%list_elem_of_In & Hp). apply Hel in Hx as [Hx Hex].
    rewrite list_elem_of_filter, Hel. destruct (manual_priority c) eqn:Hc; cbn.
    + naive_solver.
    + split; [by intros []|]. intros (_ & _ & H). destruct H as [? ?]; [|done].
      exists x. destruct (manual_priority x); naive_solver.
  - rewrite Hel. split; [|naive_solver]. intros [Hc Hec]. split_and!; [done..|].
    intros (c' & Hc' & Hec' & [z Hz]). exfalso.
    pose proof (existsb_false _ _ _ He (proj2 (Hel c') (conj Hc' Hec'))) as Hf.
    cbn in Hf. by rewrite Hz in Hf.
Qed.

Lemma ranked_nil cs : ranked cs = [] ↔ ∀ c, c ∈ cs → eligible c = false.
Proof.
  split.
  - intros Hr c Hc. destruct (eligible c) eqn:He; [exfalso|done].
    unfold ranked in Hr. set (el := filter _ cs) in *.
    assert (Hel : c ∈ el) by (apply list_elem_of_filter; done).
    destruct (existsb _ el) eqn:Hx.
    + apply existsb_exists in Hx as (x & Hin%list_elem_of_In & Hp).
      assert (Hx : x ∈ filter (λ c, is_some (manual_priority c) = true) el)
        by (by apply list_elem_of_filter).
      rewrite Hr in Hx. by apply elem_of_nil in Hx.
    + rewrite Hr in Hel. by apply elem_of_nil in Hel.
  - intros Hall. destruct (ranked cs) as [|c r] eqn:E; [done|].
    assert (Hc : c ∈ ranked cs) by (rewrite E; left).
    apply elem_of_ranked in Hc as (Hc & He & _). rewrite Hall in He; done.
Qed.

(** The decision between the best ranked candidate and the incumbent. *)
Definition keep_incumbent inc best : bool :=
  option_ltb (manual_priority inc) (manual_priority best)
  && (reset_or_max inc <=? saturating_add_i64 (reset_or_max best) SWITCH_MARGIN_SECS).

(** The decision procedure, on both branches. *)
Lemma select_candidate_spec cs now :
  match select_candidate cs now with
  | None => ∀ c, c ∈ cs → eligible c = false
  | Some c =>
      c ∈ ranked cs ∧
      ∃ best inc, best ∈ ranked cs ∧ inc ∈ ranked cs ∧
        (∀ x, x ∈ ranked cs → rank_ltb now x best = false) ∧
        (∀ x, x ∈ ranked cs → incumbent_ltb x inc = false) ∧
        c = if keep_incumbent inc best then inc else best
  end.
Proof.
  unfold select_candidate. destruct (sort_by _ (ranked cs)) as [|best r] eqn:Es.
  { apply ranked_nil. pose proof (sort_by_length (rank_ltb now) (ranked cs)) as Hl.
    rewrite Es in Hl. by destruct (ranked cs). }
  assert (Hel : ∀ x, x ∈ best :: r ↔ x ∈ ranked cs)
    by (intros x; by rewrite <- Es, sort_by_elem_of).
  assert (Hbest : ∀ x, x ∈ ranked cs → rank_ltb now x best = false)
    by (intros x Hx; exact (sort_by_head (rank_ltb now) _ _ _ _ Es Hx)).
  destruct (min_by incumbent_ltb (best :: r)) as [inc|] eqn:Hm; [|done].
  apply min_by_Some in Hm as [Hinc Hmin]; [|apply incumbent_ltb_sw].
  match goal with |- match ?o with Some _ => _ | None => _ end =>
    replace o with (Some (if keep_incumbent inc best then inc else best))
      by (unfold keep_incumbent; by destruct (_ && _)) end.
  split.
  - destruct (keep_incumbent inc best); apply Hel; [done|left].
  - exists best, inc. split_and!; [apply Hel; left|by apply Hel|done| |done].
    intros x Hx. by apply Hmin, Hel.
Qed.

(** Active windows before idle ones, then the earlier upcoming reset, then the
    smaller key. *)
Definition ranks_before (now : Z) (a b : Candidate) : Prop :=
  window_tier a < window_tier b ∨
  window_tier a = window_tier b ∧
  (future_reset now a < future_reset now b ∨
   future_reset now a = future_reset now b ∧ string_ltb (key b) (key a) = false).

Lemma rank_ltb_before now a b : rank_ltb now b a = false → ranks_before now a b.
Proof.
  unfold rank_ltb, ranks_before, on_key. rewrite !lex_false, !Z.ltb_ge, !Z.ltb_lt.
  intros [? [?|[? [?|?]]]]; [lia|lia|].
  destruct (Z.lt_ge_cases (window_tier a) (window_tier b)); [by left|right].
  split; [lia|]. destruct (Z.lt_ge_cases (future_reset now a) (future_reset now b));
    [by left|right; split; [lia|done]].
Qed.

(** C20: [select_candidate] on every branch.  It returns nothing exactly when no
    candidate is eligible.  Otherwise it returns an eligible candidate - one
    with a manual priority if any eligible one has it - which is either the
    first in (window tier, upcoming reset, key) order, or the one of lowest
    manual priority when that resets at most [SWITCH_MARGIN_SECS] later. *)
Theorem select_candidate_correct cs now :
  let pool := λ c, c ∈ cs ∧ eligible c = true ∧
    ((∃ c', c' ∈ cs ∧ eligible c' = true ∧ is_Some (manual_priority c')) →
     is_Some (manual_priority c)) in
  match select_candidate cs now with
  | None => ∀ c, c ∈ cs → eligible c = false
  | Some c =>
      pool c ∧
      ∃ best inc, pool best ∧ pool inc ∧
        (∀ x, pool x → ranks_before now best x) ∧
        (∀ x, pool x → default u32_max (manual_priority inc) ≤
                       default u32_max (manual_priority x)) ∧
        c = if keep_incumbent inc best then inc else best
  end.
Proof.
  intros pool. pose proof (select_candidate_spec cs now) as Hs.
  destruct (select_candidate cs now) as [c|]; [|exact Hs].
  setoid_rewrite elem_of_ranked in Hs.
  destruct Hs as (Hc & best & inc & Hb & Hi & Hbest & Hinc & ->). split; [done|].
  exists best, inc. split_and!; [done..| | |done]; intros x Hx.
  - apply rank_ltb_before. auto.
  - specialize (Hinc x Hx). unfold incumbent_ltb in Hinc. rewrite lex_false in Hinc.
    destruct Hinc as [Hle _]. unfold on_key in Hle. by bool_to_prop.
Qed.
End selection.

(** ** The selection does not flap *)
Section sticky.
Implicit Types (c : Candidate) (cs : list Candidate).

(** Without explicit priorities, the account selected so far stays selected
    while it is eligible, unless another one's quota resets more than
    [SWITCH_MARGIN_SECS] earlier than its own. *)
Theorem selection_sticks st i facts now c0 c :
  priorities st = ∅ →
  let cs := candidate_of st (Some i) now <$> facts in
  NoDup (key <$> cs) → c0 ∈ cs → key c0 = i → eligible c0 = true →
  select_candidate cs now = Some c →
  key c = i ∨ saturating_add_i64 (reset_or_max c) SWITCH_MARGIN_SECS < reset_or_max c0.
Proof.
  intros Hpr cs Hnd Hc0 Hk0 He0 Hsel.
  pose proof (select_candidate_spec cs now) as Hs. rewrite Hsel in Hs.
  destruct Hs as (Hc & best & inc & Hb & Hi & _ & Hinc & ->).
  assert (Hprio : ∀ x, x ∈ cs → manual_priority x = Some (if bool_decide (key x = i) then 0 else 1)).
  { intros x (f & -> & _)%list_elem_of_fmap. cbn. unfold manual_priority_of. rewrite Hpr.
    repeat case_bool_decide; cbn; congruence. }
  assert (Hc0r : c0 ∈ ranked cs).
  { apply elem_of_ranked. rewrite (Hprio _ Hc0). eauto. }
  apply elem_of_ranked in Hi as (Hics & _ & _), Hb as (Hbcs & _ & _).
  assert (Hkey : key inc = i).
  { specialize (Hinc _ Hc0r). unfold incumbent_ltb, lex, on_key in Hinc.
    rewrite (Hprio _ Hc0), (Hprio _ Hics), Hk0 in Hinc.
    rewrite (bool_decide_eq_true_2 (i = i)) in Hinc by done.
    case_bool_decide; [done|]. by cbn in Hinc. }
  assert (inc = c0) as ->.
  { apply list_elem_of_lookup in Hics as [n Hn], Hc0 as [n0 Hn0].
    assert (n = n0) as ->.
    { eapply (NoDup_lookup _ n n0 i Hnd); rewrite list_lookup_fmap;
        [rewrite Hn|rewrite Hn0]; cbn; congruence. }
    congruence. }
  destruct (keep_incumbent c0 best) eqn:Hkeep; [by left|].
  destruct (decide (key best = i)) as [|Hne]; [by left|right].
  unfold keep_incumbent in Hkeep. rewrite (Hprio _ Hc0), (Hprio _ Hbcs), Hk0 in Hkeep.
  rewrite (bool_decide_eq_true_2 (i = i)), (bool_decide_eq_false_2 (key best = i)) in Hkeep by done.
  cbn in Hkeep. by bool_to_prop.
Qed.
End sticky.

(** ** The published snapshot *)
Section snapshot.
Context {M : Type} `{PoolMember M} `{UsageReport M}.
Implicit Types (ms : list M) (m : M) (r : PersistedState) (ex : gmap string Z).

Lemma gather_facts now fl ms : ∀ ex facts ex',
  gather now fl ms ex = (facts, ex') →
  fact_id <$> facts = id <$> ms ∧
  Forall (λ f, ∃ m, m ∈ ms ∧ fact_id f = id m ∧ fact_health f = health m ∧
                    fact_failures f = default 0 (fl !! id m) ∧
                    fact_remaining f = (tightest_window m).1) facts.
Proof.
  induction ms as [|m ms IH]; intros ex facts ex'; cbn [gather].
  { intros [= <- <-]. done. }
  destruct (tightest_window m) as [rem rs] eqn:Ht.
  destruct (gather now fl ms _) as [facts1 ex1] eqn:Hg. intros [= <- <-].
  apply IH in Hg as [Hid Hall]. split; [cbn; by f_equal|]. constructor.
  - exists m. cbn [fact_id fact_health fact_failures fact_remaining]. rewrite Ht.
    split_and!; try done. left.
  - eapply Forall_impl; [exact Hall|]. intros f (x & Hx & ?). exists x. split; [by right|done].
Qed.

(** The accounts in the order they would be tried: enabled, with a known
    percentage. *)
Definition usable (c : Candidate) : bool :=
  negb (manually_disabled c) && is_some (remaining_percent c).

Lemma schedule_order_perm cands sel :
  match sel with
  | Some s => s ∈ key <$> filter (λ c, usable c = true) cands
  | None => True
  end →
  schedule_order cands sel ≡ₚ key <$> filter (λ c, usable c = true) cands.
Proof.
  intros Hs. unfold schedule_order, usable in *.
  assert (Hp := sort_by_Permutation (order_ltb cands)
    (key <$> filter (λ c, negb (manually_disabled c) && is_some (remaining_percent c) = true) cands)).
  destruct sel as [s|]; [|done]. rewrite <- Hp in Hs.
  destruct (position _ _) as [n|] eqn:Hn.
  - apply position_Some in Hn as (x & Hx & Heq & _). bool_to_prop. subst x.
    etrans; [symmetry; by apply delete_Permutation|exact Hp].
  - rewrite position_None in Hn. specialize (Hn s Hs). by rewrite bool_decide_eq_true_2 in Hn.
Qed.

(** Why an account was selected. *)
Record selectable ms (fl : gmap string Z) (now : Z) (i : string) m : Prop := {
  sel_member : m ∈ ms;
  sel_id : id m = i;
  sel_health : is_available (health m) (now * 1000) = true;
  sel_failures : default 0 (fl !! i) < 3;
  sel_quota : ∃ pct, (tightest_window m).1 = Some pct ∧ EXHAUSTION_ENTER_PERCENT < pct;
}.

(** The snapshot a reconciliation publishes is consistent: with a selection,
    exactly the selected account is allowed, it heads the order, it belongs to
    the pool, is healthy, has fewer than three consecutive failures and more
    than [EXHAUSTION_ENTER_PERCENT] of its tightest window left; without one
    the scheduler fails open.  The order is a permutation of the usable
    accounts, and the runtime remembers the same selection. *)
Theorem replan_consistent st ms now r :
  let '(r', sn) := replan st ms now r in
  selected r' = snap_selected sn ∧
  order sn ≡ₚ key <$> filter (λ c, usable c = true)
    (candidate_of st (selected (prune ms r)) now <$>
      (gather now (non_auth_failures (prune ms r)) ms (exhausted_since_unix (prune ms r))).1) ∧
  match snap_selected sn with
  | None => fail_open sn = true ∧ allowed sn = ∅
  | Some i =>
      fail_open sn = false ∧ allowed sn = {[ i ]} ∧ head (order sn) = Some i ∧
      ∃ m, selectable ms (non_auth_failures (prune ms r)) now i m
  end.
Proof.
  unfold replan. generalize (prune ms r) as r0. intros r0.
  destruct (gather _ _ _ _) as [facts ex] eqn:Hg.
  cbn [fst selected snap_selected order fail_open allowed].
  set (cands := candidate_of st (selected r0) now <$> facts).
  pose proof (select_candidate_spec cands now) as Hs.
  destruct (select_candidate cands now) as [c|]; cbn [fmap option_fmap option_map is_some negb].
  - destruct Hs as [Hc _]. apply elem_of_ranked in Hc as (Hc & He & _).
    assert (Hu : usable c = true).
    { unfold eligible in He. unfold usable. destruct (remaining_percent c); [|done].
      bool_to_prop. by rewrite H1. }
    split; [done|]. split.
    + apply schedule_order_perm. apply list_elem_of_fmap. exists c. split; [done|].
      by apply list_elem_of_filter.
    + split_and!; [done..|].
      apply list_elem_of_fmap in Hc as (f & -> & Hf).
      apply gather_facts in Hg as [_ Hall]. rewrite list.Forall_forall in Hall.
      destruct (Hall _ Hf) as (m & Hm & Hid & Hh & Hfl & Hrem). exists m.
      unfold eligible in He. cbn in He. unfold usable in Hu.
      destruct (fact_remaining f) as [pct|] eqn:Hpct; [|done].
      unfold candidate_of in Hu. cbn in Hu. bool_to_prop. split; try done.
      * by rewrite <- Hh.
      * cbn [key candidate_of]. rewrite Hid, <- Hfl. lia.
      * exists pct. by rewrite <- Hrem.
  - split; [done|]. split; [|done]. by apply schedule_order_perm.
Qed.
End snapshot.

(** ** Runs of the scheduler *)
Section runs.
Context {M : Type} `{PoolMember M} `{UsageReport M}.
Implicit Types (ms : list M) (s : SchedulerRegistry) (ex : gmap string Z).

(** One call, with everything it reads from outside: the pool, the clock, the
    outcome of the file system. *)
Inductive SchedOp :=
  | OpReconcile ms (now : Z)
  | OpSuccess (account : string) ms (now : Z)
  | OpFailure (account : string) ms (now : Z)
  | OpAuthFailure ms (now : Z)
  | OpSettings (saved : bool) (next : SchedulerSettings) ms (now : Z)
  | OpSetOrder (saved : bool) (ids : list string) ms (now : Z)
  | OpReserve (inst account : string)
  | OpRelease (inst : string)
  | OpRetainAccounts (act : gset string)
  | OpPersist (i : nat) (ok : bool).

Definition run_sched s (op : SchedOp) : SchedulerRegistry :=
  match op with
  | OpReconcile ms now => reconcile s ms now
  | OpSuccess a ms now => record_success s a ms now
  | OpFailure a ms now => record_non_auth_failure s a ms now
  | OpAuthFailure ms now => record_auth_failure s ms now
  | OpSettings saved next ms now => (update_settings s saved next ms now).2
  | OpSetOrder saved ids ms now => (set_order s saved ids ms now).2
  | OpReserve inst a => with_reserved s (reserve (reserved s) inst a).2
  | OpRelease inst => with_reserved s (release (reserved s) inst).2
  | OpRetainAccounts act => with_reserved s (retain_accounts (reserved s) act).2
  | OpPersist i ok => run_pending s i ok
  end.

(** *** The hold of an exhausted account *)

Definition held (since now : Z) : Prop := 0 ≤ now - since < MINIMUM_HOLD_SECS.

Lemma held_sub since now :
  held since now → saturating_sub_i64 now since = now - since.
Proof.
  unfold held, MINIMUM_HOLD_SECS, saturating_sub_i64. intros. apply clamp_i64_id.
  unfold is_i64, i64_min, i64_max. lia.
Qed.

Lemma update_exhausted_keep now i rem ex j t :
  held t now → ex !! j = Some t → update_exhausted now i rem ex !! j = Some t.
Proof.
  intros Hh Hj. unfold update_exhausted. destruct rem as [v|]; [|done].
  destruct (v <=? _); [|destruct (_ <? v); [|done]].
  - destruct (ex !! i) eqn:Hi; [done|]. rewrite lookup_insert_ne; congruence.
  - destruct (ex !! i) as [since|] eqn:Hi.
    + case_if; [|done]. bool_to_prop. destruct (decide (i = j)) as [->|Hne].
      * simplify_eq. rewrite held_sub in * by done. unfold held in Hh. lia.
      * by rewrite lookup_delete_ne.
    + rewrite lookup_delete_ne; congruence.
Qed.

Lemma gather_keep now fl ms j t : ∀ ex facts ex',
  held t now → ex !! j = Some t → gather now fl ms ex = (facts, ex') →
  ex' !! j = Some t ∧ Forall (λ f, fact_id f = j → fact_exhausted f = Some t) facts.
Proof.
  induction ms as [|m ms IH]; intros ex facts ex' Hh Hj; cbn [gather].
  { intros [= <- <-]. done. }
  destruct (tightest_window m) as [rem rs].
  pose proof (update_exhausted_keep now (id m) rem ex j t Hh Hj) as Hu.
  destruct (gather now fl ms _) as [facts1 ex1] eqn:Hg. intros [= <- <-].
  destruct (IH _ _ _ Hh Hu Hg) as [Hk Hall]. split; [done|].
  constructor; [cbn|done]. intros <-. exact Hu.
Qed.

Lemma replan_held st ms now r j t :
  held t now → j ∈ id <$> ms → exhausted_since_unix r !! j = Some t →
  exhausted_since_unix (replan st ms now r).1 !! j = Some t ∧
  snap_selected (replan st ms now r).2 ≠ Some j.
Proof.
  intros Hh Hj Hex. unfold replan.
  assert (Hp : exhausted_since_unix (prune ms r) !! j = Some t).
  { cbn. apply map_lookup_filter_Some. split; [done|]. cbn. by apply elem_of_list_to_set. }
  generalize dependent (prune ms r). intros r0 Hp.
  destruct (gather _ _ _ _) as [facts ex] eqn:Hg.
  destruct (gather_keep _ _ _ _ _ _ _ _ Hh Hp Hg) as [Hk Hall].
  cbn [fst snd exhausted_since_unix snap_selected]. split; [done|].
  set (cands := candidate_of st (selected r0) now <$> facts).
  pose proof (select_candidate_spec cands now) as Hs.
  destruct (select_candidate cands now) as [c|]; [|done]. destruct Hs as [Hc _].
  apply elem_of_ranked in Hc as (Hc & He & _). cbn. intros [= Hkey].
  apply list_elem_of_fmap in Hc as (f & -> & Hf). cbn in Hkey.
  rewrite list.Forall_forall in Hall. specialize (Hall f Hf Hkey).
  unfold eligible in He. cbn in He. destruct (fact_remaining f); [|done].
  rewrite Hall, held_sub in He by done. unfold held in Hh. bool_to_prop. lia.
Qed.

Lemma reconcile_held s ms now j t :
  held t now → j ∈ id <$> ms → exhausted_since_unix (runtime s) !! j = Some t →
  exhausted_since_unix (runtime (reconcile s ms now)) !! j = Some t ∧
  snap_selected (snapshot (reconcile s ms now)) ≠ Some j.
Proof.
  intros Hh Hj Hex. unfold reconcile. case_if; [done|]. case_if; [done|].
  pose proof (replan_held (settings s) ms now _ _ _ Hh Hj Hex) as Hr.
  destruct (replan _ _ _ _) as [r sn]. cbn [fst snd] in Hr. by case_if.
Qed.

(** Calls made while account [j], exhausted since [t], is in its hold and still
    in the pool. *)
Definition during (j : string) (t : Z) (op : SchedOp) : Prop :=
  match op with
  | OpReconcile ms now | OpSuccess _ ms now | OpFailure _ ms now | OpAuthFailure ms now
  | OpSettings _ _ ms now | OpSetOrder _ _ ms now => held t now ∧ j ∈ id <$> ms
  | _ => True
  end.

Lemma persist_runtime s i ok : runtime (run_pending s i ok) = runtime s.
Proof.
  unfold run_pending, persist_generation.
  destruct (pending s !! i) as [[g st]|]; [|done]. repeat case_if; done.
Qed.

Lemma run_sched_held s op j t :
  during j t op → exhausted_since_unix (runtime s) !! j = Some t →
  exhausted_since_unix (runtime (run_sched s op)) !! j = Some t.
Proof.
  intros Hd Hex. destruct op as [ms now|a ms now|a ms now|ms now|saved next ms now
    |saved ids ms now|inst a|inst|act|i ok]; cbn -[reconcile] in *; try done;
    try (destruct Hd; by apply reconcile_held).
  - destruct Hd. unfold record_success. case_if; [|done]. by apply reconcile_held.
  - destruct Hd. unfold update_settings. case_if; [by apply reconcile_held|done].
  - destruct Hd. unfold set_order, update_settings. case_if; [by apply reconcile_held|done].
  - by rewrite persist_runtime.
Qed.

(** An exhausted account rests.  Once an account has entered exhaustion at
    time [t], no sequence of reconciliations, successes, failures, settings
    changes, reservations and background writes within [MINIMUM_HOLD_SECS] of
    [t] makes a reconciliation select it again, whatever quota it reports. *)
Theorem exhausted_parked s ops ms now j t :
  exhausted_since_unix (runtime s) !! j = Some t →
  Forall (during j t) ops → held t now → j ∈ id <$> ms →
  snap_selected (snapshot (reconcile (foldl run_sched s ops) ms now)) ≠ Some j.
Proof.
  intros Hex Hops Hh Hj. apply (reconcile_held _ _ _ _ t); [done..|].
  revert s Hex. induction ops as [|op ops IH]; intros s Hex; cbn; [done|].
  apply list.Forall_cons in Hops as [Hop Hops]. by apply IH, run_sched_held.
Qed.

(** *** Reservations *)

Record reservation_inv (r : ReservationState) : Prop := {
  res_exclusive : ∀ x y a,
    reservations r !! x = Some a → reservations r !! y = Some a → x = y;
  res_live : ∀ act x a, live r = Some act → reservations r !! x = Some a → a ∈ act;
}.

Lemma reconcile_reserved s ms now : reserved (reconcile s ms now) = reserved s.
Proof.
  unfold reconcile. repeat (case_if; [done|]). destruct (replan _ _ _ _). by case_if.
Qed.

Lemma reserve_inv r inst a : reservation_inv r → reservation_inv (reserve r inst a).2.
Proof.
  intros [Hex Hlive]. unfold reserve.
  destruct (match live r with Some _ => _ | None => _ end) eqn:Hact; [done|].
  destruct (existsb _ _) eqn:Hany; [done|].
  assert (Hfree : ∀ x, reservations r !! x = Some a → x = inst).
  { intros x Hx%elem_of_btree_entries. pose proof (existsb_false _ _ _ Hany Hx) as Hf.
    cbn in Hf. rewrite (bool_decide_eq_true_2 (a = a)), andb_true_r in Hf by done.
    by bool_to_prop. }
  split; cbn.
  - intros x y b Hx Hy. rewrite !lookup_insert_Some in Hx, Hy.
    destruct Hx as [[<- <-]|[? Hx]], Hy as [[<- E]|[? Hy]]; simplify_eq; try done.
    + symmetry. by apply Hfree.
    + by apply Hfree.
    + by eapply Hex.
  - intros act x b Hl [[<- <-]|[_ Hx]]%lookup_insert_Some; [|by eapply Hlive].
    rewrite Hl in Hact. by bool_to_prop.
Qed.

Lemma run_sched_reserved s op :
  reservation_inv (reserved s) → reservation_inv (reserved (run_sched s op)).
Proof.
  intros Hinv. destruct op as [ms now|a ms now|a ms now|ms now|saved next ms now
    |saved ids ms now|inst a|inst|act|i ok]; cbn -[reconcile];
    unfold record_success, record_non_auth_failure, record_auth_failure, set_order,
      update_settings, run_pending, persist_generation;
    try (repeat case_if; cbn -[reconcile]; by rewrite ?reconcile_reserved).
  - by apply reserve_inv.
  - destruct Hinv as [Hex Hlive]. split; cbn.
    + intros x y b [_ Hx]%lookup_delete_Some [_ Hy]%lookup_delete_Some. by eapply Hex.
    + intros act x b Hl [_ Hx]%lookup_delete_Some. by eapply Hlive.
  - destruct Hinv as [Hex Hlive]. split; cbn.
    + intros x y b [Hx _]%map_lookup_filter_Some [Hy _]%map_lookup_filter_Some. by eapply Hex.
    + intros act' x b [= <-] [_ Hx]%map_lookup_filter_Some. done.
  - destruct (pending s !! i) as [[g st]|]; [|done]. repeat case_if; done.
Qed.

(** C22: Reservations are exclusive.  Through any sequence of calls, an account
    that an instance holds is held by no other instance, belongs to the live
    pool once that has been published, is refused to every other instance, and
    is withheld from normal traffic even when the scheduler fails open. *)
Theorem reservation_exclusive s ops inst a :
  reservations (reserved s) = ∅ →
  let s' := foldl run_sched s ops in
  reservations (reserved s') !! inst = Some a →
  permits s' a = false ∧
  (∀ inst', reservations (reserved s') !! inst' = Some a → inst' = inst) ∧
  (∀ inst', inst' ≠ inst → is_ok (reserve (reserved s') inst' a).1 = false) ∧
  (∀ act, live (reserved s') = Some act → a ∈ act).
Proof.
  intros He s' Hr.
  assert (Hinv : reservation_inv (reserved s')).
  { subst s'. clear Hr. assert (Hs : reservation_inv (reserved s)).
    { split; [intros x y b Hx|intros act x b _ Hx]; by rewrite He, lookup_empty in Hx. }
    revert s He Hs. induction ops as [|op ops IH] using rev_ind; intros s He Hs; [done|].
    rewrite foldl_app. cbn. by apply run_sched_reserved, IH. }
  pose proof (proj2 (elem_of_btree_entries _ _ _) Hr) as Hin.
  split_and!; [| |intros inst' Hne|]; [| by intros; eapply res_exclusive | |
    by intros; eapply res_live].
  - unfold permits, reserved_by_any. destruct (existsb _ _) eqn:E; [done|].
    assert (Ha : a ∈ btree_values (reservations (reserved s'))) by (apply elem_of_btree_values; eauto).
    pose proof (existsb_false _ _ _ E Ha) as Hf. cbn in Hf. by rewrite bool_decide_eq_true_2 in Hf.
  - unfold reserve. case_if; [done|]. destruct (existsb _ _) eqn:E; [done|].
    pose proof (existsb_false _ _ _ E Hin) as Hf. cbn in Hf.
    by rewrite bool_decide_eq_false_2, bool_decide_eq_true_2 in Hf by congruence.
Qed.

(** *** Persistence *)

(** The background writes a run carries out successfully, in the order they run. *)
Fixpoint writes s (ops : list SchedOp) : list (Z * PersistedState) :=
  match ops with
  | [] => []
  | op :: ops =>
      match op with
      | OpPersist i true => match pending s !! i with Some w => [w] | None => [] end
      | _ => []
      end ++ writes (run_sched s op) ops
  end.

Lemma reconcile_published s ms now :
  published (reconcile s ms now) = published s ∧ disk (reconcile s ms now) = disk s.
Proof.
  unfold reconcile. repeat (case_if; [done|]). destruct (replan _ _ _ _). by case_if.
Qed.

Lemma run_sched_published s op :
  (published (run_sched s op) = published s ∧ disk (run_sched s op) = disk s ∧
   ∀ i g st, op = OpPersist i true → pending s !! i = Some (g, st) → g ≤ published s) ∨
  ∃ i g st, op = OpPersist i true ∧ pending s !! i = Some (g, st) ∧ published s < g ∧
    published (run_sched s op) = g ∧ disk (run_sched s op) = Some st.
Proof.
  destruct op as [ms now|a ms now|a ms now|ms now|saved next ms now
    |saved ids ms now|inst a|inst|act|i ok]; cbn -[reconcile];
    try (left; split_and!; [done..|by intros]);
    unfold record_success, record_non_auth_failure, record_auth_failure, set_order,
      update_settings;
    try (left; split_and!; [..|by intros]; repeat case_if; cbn -[reconcile];
      by rewrite ?(proj1 (reconcile_published _ _ _)), ?(proj2 (reconcile_published _ _ _))).
  unfold run_pending, persist_generation.
  destruct (pending s !! i) as [[g st]|] eqn:Hp; cbn.
  - destruct (g <=? published s) eqn:Hg; bool_to_prop.
    + left. split_and!; [done..|]. intros ? ? ? [=] ?; subst; simplify_eq; done.
    + destruct ok; cbn.
      * right. exists i, g, st. split_and!; done.
      * left. split_and!; [done..|]. by intros ? ? ? [=].
  - left. split_and!; [done..|]. intros ? ? ? [=] ?; subst; simplify_eq.
Qed.
(** An older state never replaces a newer one on disk.  However the
    background writes are delayed, reordered or failing, after any run the
    generation on disk is at least that of every write that was carried out,
    never decreases, and the file holds exactly the state that was captured
    for that generation. *)
Theorem persist_newest_wins ops : ∀ s,
  let s' := foldl run_sched s ops in
  published s ≤ published s' ∧
  (∀ g st, (g, st) ∈ writes s ops → g ≤ published s') ∧
  (published s' = published s ∧ disk s' = disk s ∨
   ∃ st, disk s' = Some st ∧ (published s', st) ∈ writes s ops).
Proof.
  induction ops as [|op ops IH]; intros s; cbn.
  { split_and!; [done| |by left]. intros g st Hin. by apply elem_of_nil in Hin. }
  destruct (IH (run_sched s op)) as (Hle & Hall & Hlast).
  destruct (run_sched_published s op) as [(Hp & Hd & Hold)|(i & g & st & -> & Hpi & Hlt & Hp & Hd)].
  - rewrite Hp, Hd in *. split_and!; [done| |].
    + intros g st [Hin|Hin]%elem_of_app; [|by eapply Hall].
      destruct op as [| | | | | | | | |i []]; try by apply elem_of_nil in Hin.
      destruct (pending s !! i) as [w|] eqn:Hw; [|by apply elem_of_nil in Hin].
      apply list_elem_of_singleton in Hin as <-.
      specialize (Hold i g st eq_refl Hw). lia.
    + destruct Hlast as [?|(st & ? & ?)]; [by left|right].
      exists st. split; [done|]. apply elem_of_app. by right.
  - rewrite Hp, Hd in *. rewrite Hpi. split_and!; [lia| |].
    + intros g' st' [Hin|Hin]%elem_of_app; [|by eapply Hall].
      apply list_elem_of_singleton in Hin as [= -> ->]. done.
    + right. destruct Hlast as [[Hp' Hd']|(st' & ? & ?)].
      * exists st. rewrite Hp'. split; [done|]. left.
      * exists st'. split; [done|]. by right.
Qed.

(** *** A corrupt sidecar file *)

Definition no_settings (op : SchedOp) : Prop :=
  match op with OpSettings saved _ _ _ | OpSetOrder saved _ _ _ => saved = false | _ => True end.

Lemma reconcile_failing_open s ms now :
  state_parse_failed s = true → pending s = [] →
  let s' := reconcile s ms now in
  state_parse_failed s' = true ∧ fail_open (snapshot s') = true ∧ pending s' = [].
Proof. intros Hf Hp. unfold reconcile. rewrite Hf. by repeat case_if. Qed.

Lemma run_sched_fails_open s op :
  no_settings op → state_parse_failed s = true → fail_open (snapshot s) = true → pending s = [] →
  let s' := run_sched s op in
  state_parse_failed s' = true ∧ fail_open (snapshot s') = true ∧ pending s' = [].
Proof.
  intros Hn Hf Ho Hp. destruct op as [ms now|a ms now|a ms now|ms now|saved next ms now
    |saved ids ms now|inst a|inst|act|i ok]; cbn -[reconcile] in *; subst; try done.
  - by apply reconcile_failing_open.
  - unfold record_success. case_if; [|done]. by apply reconcile_failing_open.
  - by apply reconcile_failing_open.
  - by apply reconcile_failing_open.
  - unfold run_pending. by rewrite Hp.
Qed.

(** A corrupt sidecar fails open.  When the settings or the state file exists
    but cannot be read or parsed, the loaded registry permits every account that
    is not reserved, and keeps doing so through any sequence of calls - and never
    overwrites the state file - until an operator saves settings. *)
Theorem corrupt_sidecar_fails_open sf pf ms now ops a :
  (load_json sf).2 = true ∨ (load_json pf).2 = true →
  Forall no_settings ops →
  let s := foldl run_sched (load sf pf ms now) ops in
  permits s a = negb (reserved_by_any (reserved s) a) ∧ pending s = [].
Proof.
  intros Hbad Hops.
  assert (Hl : state_parse_failed (load sf pf ms now) = true ∧
               fail_open (snapshot (load sf pf ms now)) = true ∧
               pending (load sf pf ms now) = []).
  { unfold load. destruct (load_json sf) as [st b1], (load_json pf) as [rt b2]. cbn [snd] in Hbad.
    apply reconcile_failing_open; [|done]. cbn. apply orb_true_iff. tauto. }
  generalize dependent (load sf pf ms now). intros s (H1 & H2 & H3).
  assert (Hs : fail_open (snapshot (foldl run_sched s ops)) = true ∧
               pending (foldl run_sched s ops) = []).
  { revert s H1 H2 H3. induction ops as [|op ops IH]; intros s H1 H2 H3; cbn; [done|].
    apply list.Forall_cons in Hops as [Hop Hops].
    destruct (run_sched_fails_open s op Hop H1 H2 H3) as (? & ? & ?). by apply IH. }
  destruct Hs as [Ho Hp]. split; [|done]. unfold permits. rewrite Ho. by case_if.
Qed.
End runs.

(** ** Failure counts are not always persisted *)

Record TestAccount := { ta_id : string; ta_used : option f64 }.
Global Instance TestAccount_pool : PoolMember TestAccount := {
  id := ta_id; health := λ _, Available; reset_at_unix := λ _, None; weight := λ _, 1 }.
Global Instance TestAccount_usage : UsageReport TestAccount := {
  primary := λ a, {| used_percent := ta_used a; window_reset := None |};
  secondary := λ _, {| used_percent := None; window_reset := None |} }.

Definition fresh_runtime : PersistedState :=
  {| version := 0; selected := None; exhausted_since_unix := ∅; non_auth_failures := ∅ |}.
Definition fresh_registry : SchedulerRegistry :=
  {| settings := {| enabled := true; priorities := ∅ |}; snapshot := default_snapshot;
     runtime := fresh_runtime; state_generation := 0; pending := []; published := 0;
     disk := None; state_parse_failed := false;
     reserved := {| live := None; reservations := ∅ |} |}.

(** A failure that changes nothing but the failure count is not written to the
    state file: [reconcile] compares the runtime with what it was after the count
    had already been bumped, so no background write is spawned. *)
Theorem failure_count_not_persisted :
  let s' := record_non_auth_failure fresh_registry "a" [ {| ta_id := "a"; ta_used := None |} ] 0 in
  runtime s' ≠ runtime fresh_registry ∧ non_auth_failures (runtime s') !! "a" = Some 1 ∧
  pending s' = [] ∧ state_generation s' = 0.
Proof.
  cbn zeta. split_and!; [|vm_compute; reflexivity..].
  apply (bool_decide_eq_false_1 _). vm_compute. reflexivity.
Qed.

(** ** Witnesses *)

Definition half : f64 := binary_normalize 53 1024 1 (-1) false.

(** A few values of the percentage arithmetic. *)
Example percent_left_values :
  percent_left (f64_of_Z 40) = 60 ∧ percent_left (SFsub 53 1024 (f64_of_Z 97) half) = 4 ∧
  percent_left (f64_of_Z 250) = 0 ∧ percent_left S754_nan = 0 ∧
  percent_left (f64_of_Z (-5)) = 100.
Proof. split_and!; vm_compute; reflexivity. Qed.

Definition fact (i : string) (pct : Z) (reset : option Z) : AccountFact :=
  {| fact_id := i; fact_remaining := Some pct; fact_reset := reset; fact_health := Available;
     fact_exhausted := None; fact_failures := 0 |}.
Definition no_priorities : SchedulerSettings := {| enabled := true; priorities := ∅ |}.

Lemma selection_sticks_witness :
  let cs := candidate_of no_priorities (Some "b") 0 <$> [fact "a" 50 (Some 1000); fact "b" 50 (Some 1500)] in
  let c := candidate_of no_priorities (Some "b") 0 (fact "b" 50 (Some 1500)) in
  key c = "b" ∨ saturating_add_i64 (reset_or_max c) SWITCH_MARGIN_SECS < reset_or_max c.
Proof.
  apply (selection_sticks no_priorities "b" [fact "a" 50 (Some 1000); fact "b" 50 (Some 1500)] 0);
    try (vm_compute; reflexivity).
  - apply (bool_decide_eq_true_1 _). vm_compute. reflexivity.
  - right. left.
Defined.

Definition exhausted_registry : SchedulerRegistry :=
  reconcile fresh_registry [ {| ta_id := "a"; ta_used := Some (f64_of_Z 98) |} ] 1000.

Lemma exhausted_parked_witness :
  snap_selected (snapshot (reconcile
    (foldl run_sched exhausted_registry [OpPersist (M:=TestAccount) 0 true])
    [ {| ta_id := "a"; ta_used := Some (f64_of_Z 0) |} ] 1500)) ≠ Some "a".
Proof.
  apply (exhausted_parked exhausted_registry _ _ 1500 "a" 1000).
  - vm_compute. reflexivity.
  - repeat constructor.
  - unfold held, MINIMUM_HOLD_SECS. lia.
  - left.
Defined.

Lemma reservation_exclusive_witness :
  let s' := foldl run_sched fresh_registry [OpReserve (M:=TestAccount) "i" "a"] in
  permits s' "a" = false ∧
  (∀ inst', reservations (reserved s') !! inst' = Some "a" → inst' = "i") ∧
  (∀ inst', inst' ≠ "i" → is_ok (reserve (reserved s') inst' "a").1 = false) ∧
  (∀ act, live (reserved s') = Some act → "a" ∈ act).
Proof.
  apply (reservation_exclusive fresh_registry [OpReserve (M:=TestAccount) "i" "a"] "i" "a");
    [done|vm_compute; reflexivity].
Defined.

Lemma corrupt_sidecar_witness :
  let s := foldl run_sched
    (load (Parsed no_priorities) Malformed [ {| ta_id := "a"; ta_used := Some half |} ] 0)
    [OpFailure "a" [ {| ta_id := "a"; ta_used := Some half |} ] 5] in
  permits s "a" = negb (reserved_by_any (reserved s) "a") ∧ pending s = [].
Proof.
  apply (corrupt_sidecar_fails_open (Parsed no_priorities) Malformed); [right; reflexivity|].
  repeat constructor.
Defined.
