(* ===== verification/Usage.v ===== *)
(** * Account usage (crates/gateway/src/usage.rs, lines 1-452)

    The quota snapshot of an account: two flat windows, per-model groups of
    buckets, credits and the bookkeeping of polls.  The exhaustion tests the
    router gates on, and the merge of response headers into a polled snapshot. *)

From Stdlib Require Import SpecFloat Ascii.
From stdpp Require Import gmap strings list.
From S2P Require Import Prelude RustStr F64.
Import RustStr F64.
Open Scope Z_scope.
Open Scope rust_scope.

Module Usage.

Record QuotaWindow := {
  used_percent : option f64;
  window_minutes : option Z;
  reset_after_seconds : option Z;
  window_reset_at : option Z; (* [reset_at_unix] *)
  limit_name : option string;
}.

Record QuotaBucket := {
  bucket_id : option string;
  bucket_display_name : option string;
  bucket_window : option string;
  bucket_used_percent : option f64;
  bucket_reset_at : option Z;
}.

Record QuotaGroup := {
  group_display_name : option string;
  group_models : option string;
  buckets : list QuotaBucket;
}.

Record ResetCredit := {
  granted_at_unix : option Z;
  expires_at_unix : option Z;
  credit_status : option string;
}.

Record ModelAvailability := {
  available : option bool;
  available_at : option string;
  credits_would_enable : option bool;
}.

Record RelayUsageTotals := {
  total_requests : Z;
  total_tokens : Z;
  total_cached_input_tokens : option Z;
  total_cost_usd : option f64;
}.

Record UsageWindowDelta := {
  delta_label : string;
  delta_requests : Z;
  delta_tokens : Z;
  delta_cost_usd : option f64;
}.


Record AccountUsage := {
  plan_type : option string;
  active_limit : option string;
  primary : QuotaWindow;
  secondary : QuotaWindow;
  groups : list QuotaGroup;
  credits_balance : option f64;
  credits_unlimited : option bool;
  has_credits : option bool;
  overage_limit_reached : option bool;
  reset_credits_available : option Z;
  reset_credits : list ResetCredit;
  observed_at_unix : option Z;
  totals : option RelayUsageTotals;
  windows : list UsageWindowDelta;
  refreshed_at_unix : option Z;
  last_refresh_error : option string;
  refresh_status : option string;
  model_availability : option (gmap string ModelAvailability);
}.

Definition default_window : QuotaWindow :=
  {| used_percent := None; window_minutes := None; reset_after_seconds := None;
     window_reset_at := None; limit_name := None |}.

Definition default_usage : AccountUsage :=
  {| plan_type := None; active_limit := None; primary := default_window;
     secondary := default_window; groups := []; credits_balance := None;
     credits_unlimited := None; has_credits := None; overage_limit_reached := None;
     reset_credits_available := None; reset_credits := []; observed_at_unix := None;
     totals := None; windows := []; refreshed_at_unix := None; last_refresh_error := None;
     refresh_status := None; model_availability := None |}.

Definition window_is_empty (w : QuotaWindow) : bool :=
  negb (is_some (used_percent w)) && negb (is_some (window_minutes w)) &&
  negb (is_some (reset_after_seconds w)) && negb (is_some (window_reset_at w)).

(** ** Exhaustion *)

Definition eqs (s t : string) : bool := bool_decide (s = t).

(** [models.split([',', ' '])]: splitting at either character. *)
Definition split_list (s : string) : list string := split " "%char (replace_char ","%char " "%char s).

Definition matches_group_models (models requested : string) : bool :=
  eqs models requested
  || (eqs models "bengalfox" && (eqs requested "gpt-5.3-codex-spark" || eqs requested "spark")
      || (eqs models "gpt-5.3-codex-spark" || eqs models "spark") && eqs requested "bengalfox")
  || existsb (λ m, eqs (trim m) requested) (split_list models).

Definition matches_bucket_id (i requested : string) : bool :=
  eqs i requested
  || match (match strip_suffix "-primary" i with
            | Some base => Some base
            | None => strip_suffix "-secondary" i
            end) with
     | Some base =>
         eqs base requested
         || eqs base "bengalfox" && (eqs requested "gpt-5.3-codex-spark" || eqs requested "spark")
     | None => false
     end.

Definition matches_codex_model (models bucket : option string) (requested : string) : bool :=
  match models with Some models => matches_group_models models requested | None => false end
  || match bucket with Some i => matches_bucket_id i requested | None => false end.

Definition is_codex_hard_limit_reached (u : AccountUsage) : bool :=
  bool_decide (overage_limit_reached u = Some true).

(** One reading at 100% that still counts: its reset is ahead, or it has none and
    was observed within the last five minutes. *)
Definition reading_exhausted (observed : option Z) (used : option f64) (reset : option Z) (now : Z)
  : bool :=
  match used with
  | None => false
  | Some percent =>
      f64_geb percent (f64_of_Z 100) &&
      match reset with
      | Some reset_at => now <? reset_at
      | None => match observed with
                | Some obs => now -| obs <=? 300
                | None => false
                end
      end
  end.

Definition flat_window_exhausted (u : AccountUsage) (now : Z) : bool :=
  existsb (λ w, negb (window_is_empty w) &&
                reading_exhausted (observed_at_unix u) (used_percent w) (window_reset_at w) now)
    [primary u; secondary u].

Definition is_claude_included_quota_exhausted (u : AccountUsage) (now : Z) : bool :=
  flat_window_exhausted u now.

Definition is_codex_included_quota_exhausted (u : AccountUsage) (requested : option string) (now : Z)
  : bool :=
  if flat_window_exhausted u now then true else
  match requested with
  | None => false
  | Some model =>
      existsb (λ g, existsb (λ b,
          matches_codex_model (group_models g) (bucket_id b) model &&
          reading_exhausted (observed_at_unix u) (bucket_used_percent b) (bucket_reset_at b) now)
        (buckets g)) (groups u)
  end.

(** ** Merging response headers *)

(** [if incoming.f.is_some() { self.f = incoming.f }] *)
Definition override {A} (existing incoming : option A) : option A :=
  match incoming with Some _ => incoming | None => existing end.

Definition same_identity (existing incoming : QuotaWindow) : bool :=
  match window_minutes existing, window_minutes incoming with
  | Some l, Some r => l =? r
  | _, _ => match limit_name existing, limit_name incoming with
            | Some l, Some r => eqs l r
            | _, _ => true
            end
  end.

Definition merge_quota_window (existing incoming : QuotaWindow) : QuotaWindow :=
  if negb (same_identity existing incoming) then incoming
  else {| used_percent := override (used_percent existing) (used_percent incoming);
          window_minutes := override (window_minutes existing) (window_minutes incoming);
          reset_after_seconds :=
            override (reset_after_seconds existing) (reset_after_seconds incoming);
          window_reset_at := override (window_reset_at existing) (window_reset_at incoming);
          limit_name := override (limit_name existing) (limit_name incoming) |}.

Definition merge_quota_bucket (existing incoming : QuotaBucket) : QuotaBucket :=
  {| bucket_id := bucket_id existing;
     bucket_display_name :=
       override (bucket_display_name existing) (bucket_display_name incoming);
     bucket_window := override (bucket_window existing) (bucket_window incoming);
     bucket_used_percent :=
       override (bucket_used_percent existing) (bucket_used_percent incoming);
     bucket_reset_at := override (bucket_reset_at existing) (bucket_reset_at incoming) |}.

Inductive Slot := Primary | Secondary.

Definition slot (u : AccountUsage) (s : Slot) : QuotaWindow :=
  match s with Primary => primary u | Secondary => secondary u end.

(** The guard of the first two arms: same duration, compatible names. *)
Definition minutes_match (w incoming : QuotaWindow) : bool :=
  is_some (window_minutes incoming) &&
  bool_decide (window_minutes w = window_minutes incoming) &&
  (negb (is_some (limit_name incoming)) || negb (is_some (limit_name w)) ||
   bool_decide (limit_name w = limit_name incoming)).

Definition name_match (w incoming : QuotaWindow) : bool :=
  is_some (limit_name incoming) && bool_decide (limit_name w = limit_name incoming).

Definition anonymous (incoming : QuotaWindow) : bool :=
  negb (is_some (window_minutes incoming)) && negb (is_some (limit_name incoming)).

Definition first_empty (u : AccountUsage) : option Slot :=
  if window_is_empty (primary u) then Some Primary
  else if window_is_empty (secondary u) then Some Secondary else None.

Definition target_slot (u : AccountUsage) (incoming : QuotaWindow) : option Slot :=
  if minutes_match (primary u) incoming then Some Primary
  else if minutes_match (secondary u) incoming then Some Secondary
  else if name_match (primary u) incoming then Some Primary
  else if name_match (secondary u) incoming then Some Secondary
  else if is_some (window_minutes incoming) then first_empty u
  else if anonymous incoming && negb (window_is_empty (primary u)) then Some Primary
  else if anonymous incoming && negb (window_is_empty (secondary u)) then Some Secondary
  else first_empty u.

Definition with_windows (u : AccountUsage) (p s : QuotaWindow) : AccountUsage :=
  {| plan_type := plan_type u; active_limit := active_limit u; primary := p; secondary := s;
     groups := groups u; credits_balance := credits_balance u;
     credits_unlimited := credits_unlimited u; has_credits := has_credits u;
     overage_limit_reached := overage_limit_reached u;
     reset_credits_available := reset_credits_available u; reset_credits := reset_credits u;
     observed_at_unix := observed_at_unix u; totals := totals u; windows := windows u;
     refreshed_at_unix := refreshed_at_unix u; last_refresh_error := last_refresh_error u;
     refresh_status := refresh_status u; model_availability := model_availability u |}.

Definition apply_window (u : AccountUsage) (incoming : QuotaWindow) : AccountUsage :=
  if window_is_empty incoming then u
  else match target_slot u incoming with
       | Some Primary => with_windows u (merge_quota_window (primary u) incoming) (secondary u)
       | Some Secondary => with_windows u (primary u) (merge_quota_window (secondary u) incoming)
       | None => u
       end.

(** [iter_mut().find(p)] and an update of what it found. *)
Fixpoint update_first {A} (p : A → bool) (f : A → A) (l : list A) : option (list A) :=
  match l with
  | [] => None
  | x :: l => if p x then Some (f x :: l) else (cons x) <$> update_first p f l
  end.

Definition merge_bucket_into (bs : list QuotaBucket) (b : QuotaBucket) : list QuotaBucket :=
  match update_first (λ e, is_some (bucket_id e) && bool_decide (bucket_id e = bucket_id b))
          (λ e, merge_quota_bucket e b) bs with
  | Some bs' => bs'
  | None => bs ++ [b]
  end.

Definition merge_group_into (gs : list QuotaGroup) (hg : QuotaGroup) : list QuotaGroup :=
  match update_first
          (λ g, is_some (group_models g) && bool_decide (group_models g = group_models hg))
          (λ g, {| group_display_name :=
                     override (group_display_name g) (group_display_name hg);
                   group_models := group_models g;
                   buckets := foldl merge_bucket_into (buckets g) (buckets hg) |}) gs with
  | Some gs' => gs'
  | None => gs ++ [hg]
  end.

Definition apply_header_update (u h : AccountUsage) : AccountUsage :=
  let u := foldl apply_window
    {| plan_type := override (plan_type u) (plan_type h);
       active_limit := override (active_limit u) (active_limit h);
       primary := primary u; secondary := secondary u;
       groups := groups u; credits_balance := credits_balance u;
       credits_unlimited := credits_unlimited u; has_credits := has_credits u;
       overage_limit_reached := overage_limit_reached u;
       reset_credits_available := reset_credits_available u; reset_credits := reset_credits u;
       observed_at_unix := override (observed_at_unix u) (observed_at_unix h);
       totals := totals u; windows := windows u; refreshed_at_unix := refreshed_at_unix u;
       last_refresh_error := last_refresh_error u; refresh_status := refresh_status u;
       model_availability := model_availability u |} [primary h; secondary h] in
  {| plan_type := plan_type u; active_limit := active_limit u;
     primary := primary u; secondary := secondary u;
     groups := foldl merge_group_into (groups u) (groups h);
     credits_balance := override (credits_balance u) (credits_balance h);
     credits_unlimited := override (credits_unlimited u) (credits_unlimited h);
     has_credits := override (has_credits u) (has_credits h);
     overage_limit_reached := override (overage_limit_reached u) (overage_limit_reached h);
     reset_credits_available := reset_credits_available u; reset_credits := reset_credits u;
     observed_at_unix := observed_at_unix u; totals := totals u; windows := windows u;
     refreshed_at_unix := refreshed_at_unix u; last_refresh_error := last_refresh_error u;
     refresh_status := refresh_status u; model_availability := model_availability u |}.

(** ** Freshness *)

Definition CLINE_LIMITS : string := "Cline Free Limits".

Definition expire_bucket (now : Z) (b : QuotaBucket) : QuotaBucket :=
  match bucket_reset_at b with
  | Some reset =>
      if reset <=? now
      then {| bucket_id := bucket_id b; bucket_display_name := bucket_display_name b;
              bucket_window := bucket_window b; bucket_used_percent := None;
              bucket_reset_at := None |}
      else b
  | None => b
  end.

Definition expire_group (now : Z) (g : QuotaGroup) : QuotaGroup :=
  if bool_decide (group_display_name g = Some CLINE_LIMITS)
  then {| group_display_name := group_display_name g; group_models := group_models g;
          buckets := expire_bucket now <$> buckets g |}
  else g.

Definition with_groups (u : AccountUsage) (gs : list QuotaGroup) : AccountUsage :=
  {| plan_type := plan_type u; active_limit := active_limit u; primary := primary u;
     secondary := secondary u; groups := gs; credits_balance := credits_balance u;
     credits_unlimited := credits_unlimited u; has_credits := has_credits u;
     overage_limit_reached := overage_limit_reached u;
     reset_credits_available := reset_credits_available u; reset_credits := reset_credits u;
     observed_at_unix := observed_at_unix u; totals := totals u; windows := windows u;
     refreshed_at_unix := refreshed_at_unix u; last_refresh_error := last_refresh_error u;
     refresh_status := refresh_status u; model_availability := model_availability u |}.

Definition expire_stale_cline_limits (u : AccountUsage) (now : Z) : AccountUsage :=
  with_groups u (expire_group now <$> groups u).

Definition is_known (u : AccountUsage) : bool := is_some (observed_at_unix u).

(** The refresh bookkeeping of a snapshot. *)
Definition with_refresh (u : AccountUsage) (err status : option string) : AccountUsage :=
  {| plan_type := plan_type u; active_limit := active_limit u; primary := primary u;
     secondary := secondary u; groups := groups u; credits_balance := credits_balance u;
     credits_unlimited := credits_unlimited u; has_credits := has_credits u;
     overage_limit_reached := overage_limit_reached u;
     reset_credits_available := reset_credits_available u; reset_credits := reset_credits u;
     observed_at_unix := observed_at_unix u; totals := totals u; windows := windows u;
     refreshed_at_unix := refreshed_at_unix u; last_refresh_error := err;
     refresh_status := status; model_availability := model_availability u |}.

Definition with_quota_freshness (u : AccountUsage) (now stale_after : Z) : AccountUsage :=
  if bool_decide (refresh_status u = Some "ok") &&
     match refreshed_at_unix u with
     | Some at_ => stale_after <? now -| at_
     | None => false
     end
  then with_refresh u (last_refresh_error u) (Some "stale")
  else u.

End Usage.

Import Usage.

(** ** Exhaustion ends *)

Lemma reading_expires obs used reset now :
  (∀ t, reset = Some t → t ≤ now) → (∀ t, obs = Some t → t + 300 < now) →
  reading_exhausted obs used reset now = false.
Proof.
  intros Hr Ho. unfold reading_exhausted. destruct used as [p|]; [|done].
  apply andb_false_iff. right. destruct reset as [t|].
  - apply Z.ltb_ge. by apply Hr.
  - destruct obs as [t|]; [|done]. specialize (Ho t eq_refl).
    apply Z.leb_gt. unfold saturating_sub_i64, clamp_i64, i64_min, i64_max. lia.
Qed.

(** Every reset time a snapshot mentions has passed, and it was not observed in the
    last five minutes. *)
Record elapsed (u : AccountUsage) (now : Z) : Prop := {
  elapsed_windows : ∀ s t, window_reset_at (slot u s) = Some t → t ≤ now;
  elapsed_buckets : ∀ g b t, g ∈ groups u → b ∈ buckets g → bucket_reset_at b = Some t → t ≤ now;
  elapsed_observed : ∀ t, observed_at_unix u = Some t → t + 300 < now;
}.

(** No account stays gated forever.  Once every reset time of a usage snapshot has
    passed and it is more than five minutes old, neither exhaustion test holds any
    more - for any requested model, and even for a reading of 100% that came with
    no reset time. *)
Theorem exhaustion_expires u model now :
  elapsed u now →
  is_codex_included_quota_exhausted u model now = false ∧
  is_claude_included_quota_exhausted u now = false.
Proof.
  intros [Hw Hb Ho].
  assert (Hf : flat_window_exhausted u now = false).
  { unfold flat_window_exhausted. cbn [existsb]. rewrite !reading_expires, !andb_false_r; [done|..];
      try exact Ho; [apply (Hw Secondary)|apply (Hw Primary)]. }
  split; [|exact Hf]. unfold is_codex_included_quota_exhausted. rewrite Hf.
  destruct model as [m|]; [|done]. apply not_true_iff_false.
  intros (g & Hg & (b & Hin & E)%existsb_exists)%existsb_exists.
  rewrite reading_expires, andb_false_r in E; [done| |exact Ho].
  intros t Ht. apply (Hb g b t); [by apply list_elem_of_In..|done].
Qed.

(** ** Header windows land in their own slot *)

Definition other (s : Slot) : Slot := match s with Primary => Secondary | Secondary => Primary end.

Lemma slot_apply_window u w s :
  window_is_empty w = false → target_slot u w = Some s →
  slot (apply_window u w) s = merge_quota_window (slot u s) w ∧
  slot (apply_window u w) (other s) = slot u (other s).
Proof. intros He Ht. unfold apply_window. rewrite He, Ht. by destruct s. Qed.

Lemma override_some {A} (x y : option A) : is_some y = true → override x y = y.
Proof. by destruct y. Qed.

Lemma merge_reads existing w m :
  window_minutes w = Some m →
  window_minutes (merge_quota_window existing w) = Some m ∧
  (is_some (used_percent w) = true →
   used_percent (merge_quota_window existing w) = used_percent w).
Proof.
  intros Hm. unfold merge_quota_window. case_if; [done|]. cbn. rewrite Hm. split; [done|].
  apply override_some.
Qed.

(** A header window of known duration lands whole in one slot.  Either exactly
    one of the two windows now has that duration and shows the reported reading,
    the other one being untouched; or both windows were in use, neither for this
    duration under a compatible name, and the reading is dropped.  Readings of
    different windows are never mixed. *)
Theorem header_window_lands u w m :
  window_is_empty w = false → window_minutes w = Some m →
  (∃ s, window_minutes (slot (apply_window u w) s) = Some m ∧
        (is_some (used_percent w) = true →
         used_percent (slot (apply_window u w) s) = used_percent w) ∧
        slot (apply_window u w) (other s) = slot u (other s)) ∨
  (apply_window u w = u ∧
   ∀ s, window_is_empty (slot u s) = false ∧ minutes_match (slot u s) w = false ∧
        name_match (slot u s) w = false).
Proof.
  intros He Hm. destruct (target_slot u w) as [s|] eqn:Ht.
  - left. exists s. destruct (slot_apply_window u w s He Ht) as [-> ->].
    destruct (merge_reads (slot u s) w m Hm) as [? ?]. done.
  - right. unfold apply_window. rewrite He, Ht. split; [done|].
    unfold target_slot, first_empty in Ht. rewrite Hm in Ht. cbn [is_some] in Ht.
    repeat case_if; try done. by intros [].
Qed.

(** ** Nothing polled is lost *)

Lemma update_first_Some {A} (p : A → bool) f l l' :
  update_first p f l = Some l' →
  ∃ l1 x l2, l = l1 ++ x :: l2 ∧ p x = true ∧ l' = l1 ++ f x :: l2.
Proof.
  revert l'. induction l as [|x l IH]; intros l'; cbn; [done|]. destruct (p x) eqn:E.
  - intros [= <-]. by exists [], x, l.
  - destruct (update_first p f l) as [l0|]; cbn; [|done]. intros [= <-].
    destruct (IH l0 eq_refl) as (l1 & y & l2 & -> & ? & ->). by exists (x :: l1), y, l2.
Qed.

Lemma merge_bucket_ids bs b :
  (bucket_id <$> bs) `prefix_of` (bucket_id <$> merge_bucket_into bs b).
Proof.
  unfold merge_bucket_into. destruct (update_first _ _ bs) as [bs'|] eqn:E.
  - apply update_first_Some in E as (l1 & x & l2 & -> & _ & ->). rewrite !fmap_app. done.
  - rewrite fmap_app. by apply prefix_app_r.
Qed.

Lemma merge_buckets_ids new : ∀ bs,
  (bucket_id <$> bs) `prefix_of` (bucket_id <$> foldl merge_bucket_into bs new).
Proof.
  induction new as [|b new IH]; intros bs; cbn; [done|].
  etrans; [apply merge_bucket_ids|apply IH].
Qed.

(** [g'] is group [g] with at least the buckets it had. *)
Definition extends (g g' : QuotaGroup) : Prop :=
  group_models g' = group_models g ∧
  (bucket_id <$> buckets g) `prefix_of` (bucket_id <$> buckets g').

Lemma extends_trans g1 g2 g3 : extends g1 g2 → extends g2 g3 → extends g1 g3.
Proof. intros [E1 P1] [E2 P2]. split; [congruence|by etrans]. Qed.

Lemma merge_group_keeps gs hg g :
  g ∈ gs → ∃ g', g' ∈ merge_group_into gs hg ∧ extends g g'.
Proof.
  intros Hg. unfold merge_group_into. destruct (update_first _ _ gs) as [gs'|] eqn:E.
  - apply update_first_Some in E as (l1 & x & l2 & -> & _ & ->).
    apply elem_of_app in Hg as [Hg|[->|Hg]%elem_of_cons].
    + exists g. split; [set_solver|done].
    + eexists. split; [apply elem_of_app; right; left|]. split; [done|]. cbn.
      apply merge_buckets_ids.
    + exists g. split; [set_solver|done].
  - exists g. split; [set_solver|done].
Qed.

Lemma merge_groups_keep hgs : ∀ gs g,
  g ∈ gs → ∃ g', g' ∈ foldl merge_group_into gs hgs ∧ extends g g'.
Proof.
  induction hgs as [|hg hgs IH]; intros gs g Hg; cbn; [by exists g|].
  destruct (merge_group_keeps gs hg g Hg) as (g1 & H1 & E1).
  destruct (IH _ _ H1) as (g2 & H2 & E2). exists g2. split; [done|by eapply extends_trans].
Qed.

(** What only a poll of the usage endpoint reports. *)
Definition poll_fields (u : AccountUsage) :=
  (refreshed_at_unix u, refresh_status u, last_refresh_error u, reset_credits_available u,
   reset_credits u, model_availability u, totals u, windows u).

Lemma apply_window_rest u w :
  groups (apply_window u w) = groups u ∧ poll_fields (apply_window u w) = poll_fields u.
Proof. unfold apply_window. case_if; [done|]. by destruct (target_slot u w) as [[]|]. Qed.

(** Response headers never erase what a poll established.  A header update keeps
    the poll time, the refresh status and error, the reset credits, the model
    availability and the relay counters, and every quota group with every bucket
    it had. *)
Theorem header_update_keeps_poll u h :
  poll_fields (apply_header_update u h) = poll_fields u ∧
  (∀ g, g ∈ groups u → ∃ g', g' ∈ groups (apply_header_update u h) ∧ extends g g').
Proof.
  unfold apply_header_update. cbn [foldl].
  match goal with |- context [apply_window ?u1 (primary h)] => set (u0 := u1) end.
  destruct (apply_window_rest u0 (primary h)) as [E1 E2].
  destruct (apply_window_rest (apply_window u0 (primary h)) (secondary h)) as [E3 E4].
  split.
  - transitivity (poll_fields u0); [|done]. rewrite <- E2, <- E4. done.
  - cbn [groups]. rewrite E3, E1. apply merge_groups_keep.
Qed.

(** ** Witnesses *)
Definition full_window (m reset : Z) : QuotaWindow :=
  {| used_percent := Some (f64_of_Z 100); window_minutes := Some m; reset_after_seconds := None;
     window_reset_at := Some reset; limit_name := None |}.
Definition two_windows : AccountUsage :=
  with_windows default_usage (full_window 300 1000) (full_window 10080 5000).

Lemma exhaustion_expires_witness :
  is_codex_included_quota_exhausted two_windows (Some "m") 4999 = true ∧
  is_codex_included_quota_exhausted two_windows (Some "m") 5000 = false ∧
  is_claude_included_quota_exhausted two_windows 5000 = false.
Proof.
  split; [vm_compute; reflexivity|]. apply (exhaustion_expires two_windows (Some "m") 5000).
  split; [intros [] t [= <-]; lia|intros g b t Hg; by apply elem_of_nil in Hg|done].
Defined.

Lemma header_window_lands_witness :
  let w := full_window 10080 9000 in
  (∃ s, window_minutes (slot (apply_window two_windows w) s) = Some 10080 ∧
        (is_some (used_percent w) = true →
         used_percent (slot (apply_window two_windows w) s) = used_percent w) ∧
        slot (apply_window two_windows w) (other s) = slot two_windows (other s)) ∨
  (apply_window two_windows w = two_windows ∧
   ∀ s, window_is_empty (slot two_windows s) = false ∧ minutes_match (slot two_windows s) w = false ∧
        name_match (slot two_windows s) w = false).
Proof. apply (header_window_lands two_windows (full_window 10080 9000) 10080); reflexivity. Defined.
