(* ===== verification/ClineUsage.v ===== *)
(** * Cline token budgets (crates/gateway/src/cline_usage.rs)

    The rolling 24-hour estimate of one model of one Cline account, and the map of
    trackers of an account.  The methods are sequences of relaxed atomic operations;
    each is one step here.  [now] arguments are the wall clock, in seconds, and [env]
    the environment variables. *)

From Stdlib Require Import Ascii.
From stdpp Require Import gmap strings list.
From S2P Require Import Prelude RustStr F64.
Import RustStr F64.
Open Scope Z_scope.
Open Scope rust_scope.

Module Cline.

Definition DEFAULT_CLINE_DAILY_TOKEN_BUDGET : Z := 15200000.
Definition DAY_SECS : Z := 86400.

Record ClineDailyTracker := {
  used_tokens : Z;         (* u64 *)
  window_start_unix : Z;   (* i64; 0 = closed *)
  reset_override_unix : Z; (* i64; 0 = none *)
  seeded : bool;
  budget_tokens : Z;       (* u64 *)
}.

Definition with_config (budget : Z) : ClineDailyTracker :=
  {| used_tokens := 0; window_start_unix := 0; reset_override_unix := 0; seeded := false;
     budget_tokens := budget |}.

Definition with_window (t : ClineDailyTracker) (used start over : Z) : ClineDailyTracker :=
  {| used_tokens := used; window_start_unix := start; reset_override_unix := over;
     seeded := seeded t; budget_tokens := budget_tokens t |}.

(** [(used as f64 * 100.0 / budget as f64).min(100.0)]. *)
Definition used_percent (t : ClineDailyTracker) : option f64 :=
  if budget_tokens t =? 0 then None
  else
    let p := SpecFloat.SFdiv 53 1024
               (SpecFloat.SFmul 53 1024 (f64_of_Z (used_tokens t)) (f64_of_Z 100))
               (f64_of_Z (budget_tokens t)) in
    Some (if f64_ltb (f64_of_Z 100) p then f64_of_Z 100 else p).

Definition estimated_reset_unix (t : ClineDailyTracker) : Z :=
  if 0 <? reset_override_unix t then reset_override_unix t
  else if 0 <? window_start_unix t then window_start_unix t + DAY_SECS
  else 0.

Definition rollover_if_lapsed (t : ClineDailyTracker) (now : Z) : ClineDailyTracker :=
  let start := window_start_unix t in
  let over := reset_override_unix t in
  if 0 <? over then (if over <=? now then with_window t 0 0 0 else t)
  else if 0 <? start then (if start + DAY_SECS <=? now then with_window t 0 0 0 else t)
  else t.

Definition seed_from_history (t : ClineDailyTracker) (sum_tokens start now : Z)
  : ClineDailyTracker :=
  if seeded t then t
  else
    let t := {| used_tokens := used_tokens t; window_start_unix := window_start_unix t;
                reset_override_unix := reset_override_unix t; seeded := true;
                budget_tokens := budget_tokens t |} in
    if (0 <? start) && (now <? start + DAY_SECS) then
      with_window t (Z.max (used_tokens t) sum_tokens)
        (if window_start_unix t =? 0 then start else window_start_unix t)
        (reset_override_unix t)
    else t.

Definition anchor_window (t : ClineDailyTracker) (now : Z) : ClineDailyTracker :=
  let t := rollover_if_lapsed t now in
  if (window_start_unix t =? 0) && (0 <? now)
  then with_window t (used_tokens t) now (reset_override_unix t) else t.

Definition observe (t : ClineDailyTracker) (tokens now : Z) : ClineDailyTracker :=
  let t := rollover_if_lapsed t now in
  with_window t (used_tokens t +% tokens)
    (if window_start_unix t =? 0 then now else window_start_unix t)
    (reset_override_unix t).

Definition on_cap_429_at (t : ClineDailyTracker) (reset_at_unix now : Z) : ClineDailyTracker :=
  if reset_at_unix <=? now then t
  else with_window t (Z.max (used_tokens t) (budget_tokens t))
         (if window_start_unix t =? 0 then reset_at_unix - DAY_SECS else window_start_unix t)
         reset_at_unix.

(** [model.rsplit('/').next()]. *)
Definition cline_quota_slug (model : string) : string :=
  match rsplit_once "/"%char model with Some (_, slug) => slug | None => model end.

(** ** The trackers of an account *)

Abbreviation ClineTrackers := (gmap string ClineDailyTracker).

Section trackers.
Context (env : string → option string).

Definition env_u64 (name : string) : option Z := env name ≫= parse_u64.

Definition budget_env (specific : string) : Z :=
  match env_u64 specific with
  | Some v => v
  | None => default DEFAULT_CLINE_DAILY_TOKEN_BUDGET (env_u64 "CLINE_DAILY_TOKEN_BUDGET")
  end.

Definition budget_for_slug (slug : string) : Z :=
  if bool_decide (slug = "gemini-3.8-flash") then budget_env "CLINE_GLM_DAILY_TOKEN_BUDGET"
  else if bool_decide (slug = "deepseek-v4.1-flash")
  then budget_env "CLINE_DEEPSEEK_DAILY_TOKEN_BUDGET"
  else budget_env "CLINE_DAILY_TOKEN_BUDGET".

(** The tracker [for_model] hands out, and the map that now holds it: callers
    update the tracker in place, through [update_model]. *)
Definition tracker_of (ts : ClineTrackers) (model : string) : ClineDailyTracker :=
  let slug := cline_quota_slug model in
  default (with_config (budget_for_slug slug)) (ts !! slug).

Definition for_model (ts : ClineTrackers) (model : string) : ClineDailyTracker * ClineTrackers :=
  let t := tracker_of ts model in (t, <[cline_quota_slug model := t]> ts).

Definition update_model (ts : ClineTrackers) (model : string)
    (f : ClineDailyTracker → ClineDailyTracker) : ClineTrackers :=
  <[cline_quota_slug model := f (tracker_of ts model)]> ts.

Definition existing (ts : ClineTrackers) (model : string) : option ClineDailyTracker :=
  ts !! cline_quota_slug model.

Definition with_budgets (glm_tokens deepseek_tokens : Z) : ClineTrackers :=
  <["deepseek-v4.1-flash" := with_config deepseek_tokens]>
    {["gemini-3.8-flash" := with_config glm_tokens]}.

(** The sums and first uses [seed_cline_trackers_from_history] takes from the rows
    of the last day: rows are (model, tokens, milliseconds). *)
Definition seed_sums (rows : list (string * Z * Z)) : gmap string Z :=
  foldl (λ (sums : gmap string Z) (row : string * Z * Z),
           let slug := cline_quota_slug row.1.1 in
           <[slug := default 0 (sums !! slug) +% row.1.2]> sums) ∅ rows.

Definition seed_earliest (rows : list (string * Z * Z)) : gmap string Z :=
  foldl (λ (es : gmap string Z) (row : string * Z * Z),
           let slug := cline_quota_slug row.1.1 in
           let occurred := Z.quot row.2 1000 in
           if 0 <? occurred then
             let entry := default 0 (es !! slug) in
             <[slug := if (entry =? 0) || (occurred <? entry) then occurred else entry]> es
           else es) ∅ rows.

Definition seed_trackers (ts : ClineTrackers) (rows : list (string * Z * Z)) (now : Z)
  : ClineTrackers :=
  let earliest := seed_earliest rows in
  foldl (λ ts (slug_sum : string * Z),
           update_model ts slug_sum.1
             (λ t, seed_from_history t slug_sum.2 (default 0 (earliest !! slug_sum.1)) now))
    ts (btree_entries (seed_sums rows)).
End trackers.

(** ** Lemmas *)

(** What every tracker satisfies from its creation on. *)
Record tracker_ok (t : ClineDailyTracker) : Prop := {
  ok_used : is_u64 (used_tokens t);
  ok_budget : is_u64 (budget_tokens t);
  ok_closed : window_start_unix t = 0 → reset_override_unix t = 0 → used_tokens t = 0;
  ok_start : 0 ≤ window_start_unix t;
  ok_over : 0 ≤ reset_override_unix t;
}.

Lemma with_config_ok budget : is_u64 budget → tracker_ok (with_config budget).
Proof. intros. split; cbn; unfold is_u64, u64_max in *; lia. Qed.

Lemma rollover_ok t now : tracker_ok t → tracker_ok (rollover_if_lapsed t now).
Proof.
  intros []. unfold rollover_if_lapsed. repeat case_if; split; cbn; auto;
    unfold is_u64, u64_max in *; lia.
Qed.

(** After the rollover check the window is closed, or its reset lies ahead. *)
Lemma rollover_ahead t now :
  tracker_ok t →
  let t' := rollover_if_lapsed t now in
  (estimated_reset_unix t' = 0 ∧ window_start_unix t' = 0 ∧ used_tokens t' = 0 ∧
   reset_override_unix t' = 0) ∨
  now < estimated_reset_unix t' ∧ t' = t.
Proof.
  intros []. cbn zeta. unfold rollover_if_lapsed, estimated_reset_unix.
  repeat case_if; bool_to_prop; cbn in *; bool_to_prop; try lia; try (right; split; [|done]; lia).
  all: left; split_and!; try done; try lia; apply ok_closed0; lia.
Qed.

Lemma on_cap_reset t reset now :
  0 ≤ now → now < reset → estimated_reset_unix (on_cap_429_at t reset now) = reset.
Proof.
  intros Hn Hr. unfold on_cap_429_at, estimated_reset_unix. repeat case_if; bool_to_prop; cbn in *; lia.
Qed.

(** ** Operations of a tracker *)

Inductive TrackerOp :=
  | Observe (tokens : Z)
  | Anchor
  | Cap429 (reset : Z)
  | Seed (sum start : Z).

Definition apply_op (t : ClineDailyTracker) (op : TrackerOp) (now : Z) : ClineDailyTracker :=
  match op with
  | Observe tokens => observe t tokens now
  | Anchor => anchor_window t now
  | Cap429 reset => on_cap_429_at t reset now
  | Seed sum start => seed_from_history t sum start now
  end.

Definition op_ok (op : TrackerOp) : Prop :=
  match op with Seed sum _ => is_u64 sum | _ => True end.

Lemma observe_ok t tokens now : tracker_ok t → 0 < now → tracker_ok (observe t tokens now).
Proof.
  intros Hok Hn. unfold observe. destruct (rollover_ok t now Hok).
  split; cbn; [apply wrap_u64_range|done|..|done]; case_if; bool_to_prop; lia.
Qed.

Lemma anchor_ok t now : tracker_ok t → tracker_ok (anchor_window t now).
Proof.
  intros Hok. unfold anchor_window. destruct (rollover_ok t now Hok).
  case_if; bool_to_prop; split; cbn; auto; lia.
Qed.

Lemma cap_ok t reset now : tracker_ok t → DAY_SECS ≤ now → tracker_ok (on_cap_429_at t reset now).
Proof.
  intros [Hu Hb Hc Hs Ho] Hn. unfold on_cap_429_at. case_if; bool_to_prop; [by split|].
  unfold DAY_SECS, is_u64 in *. split; cbn; unfold is_u64; try lia. case_if; bool_to_prop; lia.
Qed.

Lemma seed_ok t sum start now :
  tracker_ok t → is_u64 sum → tracker_ok (seed_from_history t sum start now).
Proof.
  intros [Hu Hb Hc Hs Ho] Hsum. unfold seed_from_history.
  destruct (seeded t); [by split|]. case_if; bool_to_prop; [|by split].
  unfold is_u64 in *. split; cbn; unfold is_u64; try lia; case_if; bool_to_prop; lia.
Qed.

(** Every operation of a tracker keeps it well formed: counters stay in u64, and
    a tracker with neither a window nor an upstream reset counts no tokens. *)
Theorem tracker_preserved t op now :
  tracker_ok t → op_ok op → DAY_SECS ≤ now → tracker_ok (apply_op t op now).
Proof.
  intros Ht Hop Hn. unfold DAY_SECS in Hn.
  destruct op; cbn [apply_op op_ok] in *; auto using anchor_ok, cap_ok, seed_ok.
  apply observe_ok; [done|lia].
Qed.

(** Serving a request accounts it to the window it falls in.  A window still open
    is kept, with its reset, and its count grows; a window that lapsed (or none)
    is replaced by one that starts now and counts this request alone.  In both
    cases the estimated reset lies ahead. *)
Theorem observe_correct t tokens now :
  tracker_ok t → 0 < now → is_u64 tokens →
  let t' := observe t tokens now in
  now < estimated_reset_unix t' ∧
  (now < estimated_reset_unix t →
     used_tokens t' = wrapping_add_u64 (used_tokens t) tokens ∧
     estimated_reset_unix t' = estimated_reset_unix t) ∧
  (estimated_reset_unix t ≤ now →
     used_tokens t' = tokens ∧ estimated_reset_unix t' = now + DAY_SECS).
Proof.
  intros Hok Hn Htok. cbn zeta.
  assert (Hfresh : estimated_reset_unix (rollover_if_lapsed t now) = 0 →
                   estimated_reset_unix t ≤ now).
  { destruct Hok. unfold rollover_if_lapsed, estimated_reset_unix, DAY_SECS in *.
    repeat case_if; bool_to_prop; cbn in *; lia. }
  assert (Hover : reset_override_unix t = 0 → 0 < window_start_unix t →
                  estimated_reset_unix t = window_start_unix t + DAY_SECS).
  { unfold estimated_reset_unix. intros -> ?. cbn. case_if; bool_to_prop; lia. }
  destruct (rollover_ahead t now Hok) as [(H0 & H1 & H2 & H3)|[Hlt Heq]].
  - specialize (Hfresh H0). unfold observe. rewrite H1, H2, H3.
    assert (He : estimated_reset_unix
              (with_window (rollover_if_lapsed t now) (wrapping_add_u64 0 tokens) now 0) =
              now + DAY_SECS).
    { unfold estimated_reset_unix. cbn. case_if; bool_to_prop; lia. }
    cbn [Z.eqb]. rewrite He. unfold DAY_SECS. split_and!; [lia|lia|]. intros _. cbn.
    split; [|lia]. by rewrite wrap_u64_small.
  - unfold observe. rewrite Heq in *.
    assert (He : estimated_reset_unix (with_window t (wrapping_add_u64 (used_tokens t) tokens)
             (if window_start_unix t =? 0 then now else window_start_unix t)
             (reset_override_unix t)) = estimated_reset_unix t).
    { unfold estimated_reset_unix in *. cbn. destruct Hok.
      repeat case_if; bool_to_prop; cbn in *; lia. }
    rewrite He. split_and!; [done| |lia]. intros _. done.
Qed.

Example tracker_day :
  let t := observe (with_config 1000) 500 100000 in
  let t := on_cap_429_at t 150000 120000 in
  (used_tokens t, estimated_reset_unix t, used_tokens (observe t 7 150000)) = (1000, 150000, 7).
Proof. reflexivity. Qed.

End Cline.
