(* ===== verification/AffinityStore.v ===== *)
(** * Durable session bindings (crates/gateway/src/affinity_store.rs)

    The store maps a 64-bit digest to the account a Claude session is bound to.
    Its mutex makes every method one step; the clock is the argument [now].
    Times are [i64] seconds; the subtractions of the code are plain ones, in the
    range of real clocks.  Serialisation to bytes is [serde_json]'s and a
    parameter; the hexadecimal keys are the code's own. *)

From Stdlib Require Import Ascii.
From stdpp Require Import gmap strings list sorting.
From S2P Require Import Prelude RustStr.
Import RustStr.
Open Scope Z_scope.

Module Affinity.

Definition BINDING_TTL_SECS : Z := 6 * 3600.
Definition MAX_BINDINGS : nat := N.to_nat 20000.

(** ** Digests *)

Definition FNV_OFFSET : Z := 0xcbf29ce484222325.
Definition FNV_PRIME : Z := 0x100000001b3.

Definition fnv1a64 (bytes : list Z) : Z :=
  foldl (λ hash byte, wrapping_mul_u64 (Z.lxor hash byte) FNV_PRIME) FNV_OFFSET bytes.

Definition bytes_of (s : string) : list Z := byte_of <$> String.list_ascii_of_string s.

Definition digest (tag : string) (material : list Z) : Z :=
  fnv1a64 (bytes_of tag ++ [0] ++ material).

(** ** Hexadecimal keys *)

Definition hex_digits : string := "0123456789abcdef".
Definition hex_digit (d : Z) : ascii := default "0"%char (String.get (Z.to_nat d) hex_digits).

(** [n] hexadecimal digits; [format!("{key:016x}")] is [hexn 16]. *)
Fixpoint hexn (n : nat) (z : Z) : string :=
  match n with
  | O => ""
  | S n => hexn n (z / 16) +:+ String (hex_digit (z mod 16)) ""
  end.
Definition hex16 (key : Z) : string := hexn 16 key.

Definition hex_val (a : ascii) : option Z :=
  let b := byte_of a in
  if (48 <=? b) && (b <=? 57) then Some (b - 48)
  else if (97 <=? b) && (b <=? 102) then Some (b - 87)
  else if (65 <=? b) && (b <=? 70) then Some (b - 55)
  else None.

Fixpoint parse_hex (acc : Z) (s : string) : option Z :=
  match s with
  | EmptyString => Some acc
  | String a s =>
      d ← hex_val a;
      let acc' := acc * 16 + d in
      if u64_max <? acc' then None else parse_hex acc' s
  end.

(** [u64::from_str_radix(_, 16).ok()]. *)
Definition from_str_radix_16 (s : string) : option Z :=
  match s with
  | EmptyString => None
  | String "+"%char EmptyString => None
  | String "+"%char s => parse_hex 0 s
  | s => parse_hex 0 s
  end.

(** ** The store *)

Record Binding := { account_id : string; last_used_unix : Z }.

Abbreviation BindingMap := (gmap Z Binding).

Record AffinityStore := {
  has_path : bool;
  map : BindingMap;
  dirty : bool;
}.

Definition alive (now : Z) (b : Binding) : Prop := now - last_used_unix b ≤ BINDING_TTL_SECS.
Global Instance alive_dec now b : Decision (alive now b).
Proof. unfold alive. apply _. Defined.

Definition live_entries (now : Z) (m : BindingMap) : BindingMap :=
  filter (λ kv, alive now kv.2) m.

(** [ages.sort_unstable()] of the remaining bindings. *)
Definition sorted_ages (m : BindingMap) : list Z :=
  sort_by Z.ltb ((λ kv, last_used_unix kv.2) <$> map_to_list m).

Definition trim (m : BindingMap) (now : Z) : BindingMap :=
  let m := live_entries now m in
  if (MAX_BINDINGS <? size m)%nat then
    match sorted_ages m !! (length (sorted_ages m) - MAX_BINDINGS)%nat with
    | Some cutoff => filter (λ kv, cutoff ≤ last_used_unix kv.2) m
    | None => m (* index in range: never taken *)
    end
  else m.

Definition get (s : AffinityStore) (key now : Z) : option string :=
  match map s !! key with
  | Some b => if bool_decide (alive now b) then Some (account_id b) else None
  | None => None
  end.

Definition put (s : AffinityStore) (key : Z) (account : string) (now : Z) : AffinityStore :=
  let m := <[key := {| account_id := account; last_used_unix := now |}]> (map s) in
  {| has_path := has_path s;
     map := if (MAX_BINDINGS <? size m)%nat then trim m now else m;
     dirty := true |}.

Definition counts (s : AffinityStore) (now : Z) : gmap string nat :=
  foldl (λ (c : gmap string nat) b, <[account_id b := S (default 0%nat (c !! account_id b))]> c) ∅
    ((map_to_list (live_entries now (map s))).*2).

(** The map with the keys as they are written. *)
Definition raw_map (m : BindingMap) : gmap string Binding :=
  list_to_map ((λ kv, (hex16 kv.1, kv.2)) <$> map_to_list m).

(** [raw.into_iter().filter_map(..).collect()], for an iteration order. *)
Definition decode_entries (raw : list (string * Binding)) : BindingMap :=
  foldl (λ m kv, match from_str_radix_16 kv.1 with
                 | Some key => <[key := kv.2]> m
                 | None => m
                 end) ∅ raw.

Section persistence.
Context {Bytes : Type}.
Context (to_vec : gmap string Binding → option Bytes).
Context (from_slice : Bytes → option (list (string * Binding))).

(** [file] is the result of reading the path. *)
Definition load (file : option Bytes) (now : Z) : AffinityStore :=
  let m := match file ≫= from_slice with
           | Some raw => decode_entries raw
           | None => ∅
           end in
  {| has_path := true; map := trim m now; dirty := false |}.

Definition snapshot_if_dirty (s : AffinityStore) (now : Z)
  : option Bytes * AffinityStore :=
  if negb (has_path s) then (None, s)
  else if negb (dirty s) then (None, s)
  else
    let m := trim (map s) now in
    (to_vec (raw_map m), {| has_path := has_path s; map := m; dirty := false |}).
End persistence.

End Affinity.

(** * Correctness of the affinity store

    Hexadecimal keys round-trip, a written store is read back, [trim] keeps the
    newest live bindings, and a binding survives until its TTL. *)

Import RustStr Affinity.

(** ** Keys *)

Lemma hex_digit_val d : 0 ≤ d < 16 → hex_val (hex_digit d) = Some d.
Proof.
  intros Hd. assert (Hall : Forall (λ d, hex_val (hex_digit d) = Some d) (seqZ 0 16)).
  { repeat constructor. }
  rewrite list.Forall_forall in Hall. apply Hall, elem_of_seqZ. lia.
Qed.

Lemma parse_hex_app s a : ∀ acc v,
  parse_hex acc s = Some v → parse_hex acc (s +:+ String a "") =
    (d ← hex_val a; if u64_max <? v * 16 + d then None else Some (v * 16 + d)).
Proof.
  induction s as [|b s IH]; intros acc v; [by intros [= ->]|].
  change (String b s +:+ String a "") with (String b (s +:+ String a "")). cbn [parse_hex].
  destruct (hex_val b) as [d|]; cbn [mbind option_bind]; [|done]. case_if; [done|]. apply IH.
Qed.

Lemma parse_hexn n : ∀ z,
  0 ≤ z < 16 ^ Z.of_nat n → z ≤ u64_max → parse_hex 0 (hexn n z) = Some z.
Proof.
  induction n as [|n IH]; intros z Hz Hu; cbn [hexn].
  { cbn in *. f_equal. lia. }
  assert (Hq : 0 ≤ z / 16 < 16 ^ Z.of_nat n).
  { rewrite Nat2Z.inj_succ, Z.pow_succ_r in Hz by lia.
    split; [apply Z.div_pos; lia|]. apply Z.div_lt_upper_bound; lia. }
  pose proof (Z.mod_pos_bound z 16 ltac:(lia)) as Hr.
  pose proof (Z.div_mod z 16 ltac:(lia)) as Hdm.
  rewrite (parse_hex_app _ _ _ (z / 16)) by (apply IH; [done|lia]).
  rewrite hex_digit_val by done. cbn.
  replace (z / 16 * 16 + z mod 16) with z by lia.
  destruct (u64_max <? z) eqn:E; [bool_to_prop; lia|done].
Qed.

Lemma hex16_head key : ∃ a s, hex16 key = String a s ∧ a ≠ "+"%char.
Proof.
  unfold hex16. set (q := key / 16 / 16 / 16 / 16 / 16 / 16 / 16 / 16 / 16 / 16 / 16 / 16 / 16 / 16 / 16).
  exists (hex_digit (q mod 16)). eexists. split; [reflexivity|].
  intros E. pose proof (hex_digit_val (q mod 16) ltac:(apply Z.mod_pos_bound; lia)) as Hv.
  rewrite E in Hv. by vm_compute in Hv.
Qed.

(** The hexadecimal form of a 64-bit key is read back as the same key. *)
Theorem hex16_roundtrip key : is_u64 key → from_str_radix_16 (hex16 key) = Some key.
Proof.
  intros [H0 H1]. destruct (hex16_head key) as (a & s & E & Ha).
  assert (Hp : parse_hex 0 (hex16 key) = Some key).
  { apply parse_hexn; [|done]. unfold u64_max in *. lia. }
  rewrite E in *. unfold from_str_radix_16.
  destruct a as [[] [] [] [] [] [] [] []]; exact Hp || done.
Qed.

(** ** Trimming *)

Lemma StronglySorted_lookup {A} (R : A → A → Prop) l i j x y :
  StronglySorted R l → l !! i = Some x → l !! j = Some y → (i < j)%nat → R x y.
Proof.
  intros Hs. revert i j. induction Hs as [|a l Hs IH Hall]; intros i j Hi Hj Hlt; [done|].
  destruct j as [|j]; [lia|]. destruct i as [|i]; cbn in *.
  - injection Hi as <-. rewrite list.Forall_forall in Hall. apply Hall.
    by eapply list_elem_of_lookup_2.
  - eapply IH; [done..|lia].
Qed.

Lemma map_to_list_filter {K V} `{Countable K} (P : K * V → Prop) `{∀ x, Decision (P x)}
    (m : gmap K V) : map_to_list (filter P m) ≡ₚ filter P (map_to_list m).
Proof.
  apply NoDup_Permutation; [apply NoDup_map_to_list|apply NoDup_filter, NoDup_map_to_list|].
  intros [k v]. rewrite elem_of_map_to_list, list_elem_of_filter, elem_of_map_to_list.
  rewrite map_lookup_filter_Some. tauto.
Qed.

Lemma length_filter_fmap {A B} (f : A → B) (P : B → Prop) `{∀ x, Decision (P x)} l :
  length (filter P (f <$> l)) = length (filter (λ x, P (f x)) l).
Proof.
  induction l as [|x l IH]; [done|]. rewrite fmap_cons, !filter_cons. case_decide; cbn; by rewrite IH.
Qed.

Lemma size_filter_ages m c :
  size (filter (λ kv : Z * Binding, c ≤ last_used_unix kv.2) m) =
  length (filter (λ a, c ≤ a) (sorted_ages m)).
Proof.
  rewrite <- length_map_to_list, map_to_list_filter. unfold sorted_ages.
  rewrite (Permutation_length (filter_Permutation _ _ _ (sort_by_Permutation Z.ltb _))).
  by rewrite length_filter_fmap.
Qed.

Lemma length_sorted_ages m : length (sorted_ages m) = size m.
Proof.
  unfold sorted_ages. by rewrite sort_by_length, length_fmap, length_map_to_list.
Qed.

(** Counting the ages from the cutoff on. *)
Lemma cutoff_count (l : list Z) (k : nat) (c : Z) :
  StronglySorted (λ a b, (b <? a) = false) l → l !! k = Some c →
  (length l - k ≤ length (filter (λ a, (c ≤ a)%Z) l))%nat ∧
  (NoDup l → length (filter (λ a, (c ≤ a)%Z) l) = (length l - k)%nat).
Proof.
  intros Hs Hk.
  assert (Hdrop : filter (λ a, c ≤ a) (drop k l) = drop k l).
  { apply filter_all. intros a [j Hj]%list_elem_of_lookup. rewrite lookup_drop in Hj.
    destruct j as [|j].
    - rewrite Nat.add_0_r in Hj. simplify_eq. lia.
    - pose proof (StronglySorted_lookup _ _ _ _ _ _ Hs Hk Hj ltac:(lia)) as Hle. cbn in Hle.
      bool_to_prop. lia. }
  rewrite <- (take_drop k l) at 2 4. rewrite filter_app, length_app, Hdrop, length_drop.
  split; [lia|]. intros Hnd.
  rewrite filter_none; [done|]. intros x [i Hi]%list_elem_of_lookup Hcx.
  apply lookup_take_Some in Hi as [Hi Hik].
  pose proof (StronglySorted_lookup _ _ _ _ _ _ Hs Hi Hk Hik) as Hle. cbn in Hle. bool_to_prop.
  assert (x = c) as -> by lia. pose proof (NoDup_lookup _ _ _ _ Hnd Hi Hk). lia.
Qed.

(** The three cases of [trim]. *)
Lemma trim_cases m now :
  (size (live_entries now m) ≤ MAX_BINDINGS)%nat ∧ trim m now = live_entries now m ∨
  ∃ cutoff, (MAX_BINDINGS < size (live_entries now m))%nat ∧
    sorted_ages (live_entries now m) !!
      (size (live_entries now m) - MAX_BINDINGS)%nat = Some cutoff ∧
    trim m now = filter (λ kv, cutoff ≤ last_used_unix kv.2) (live_entries now m).
Proof.
  unfold trim. set (l := live_entries now m).
  destruct (MAX_BINDINGS <? size l)%nat eqn:E; bool_to_prop; [right|by left].
  rewrite length_sorted_ages.
  destruct (lookup_lt_is_Some_2 (sorted_ages l) (size l - MAX_BINDINGS)) as [c Hc].
  { rewrite length_sorted_ages. unfold MAX_BINDINGS in *. lia. }
  exists c. by rewrite Hc.
Qed.

Lemma trim_subseteq m now : trim m now ⊆ live_entries now m.
Proof.
  destruct (trim_cases m now) as [[_ ->]|(c & _ & _ & ->)]; [done|]. apply map_filter_subseteq.
Qed.

(** [trim] keeps the newest live bindings.  Nothing expired survives; while the
    live bindings fit, nothing live is dropped; when they do not fit, at least
    [MAX_BINDINGS] remain and every dropped one is strictly older than every
    remaining one; and if no two bindings share a timestamp, exactly
    [MAX_BINDINGS] remain. *)
Theorem trim_keeps_newest m now :
  (∀ k b, trim m now !! k = Some b → m !! k = Some b ∧ alive now b) ∧
  ((size (live_entries now m) ≤ MAX_BINDINGS)%nat → trim m now = live_entries now m) ∧
  ((MAX_BINDINGS < size (live_entries now m))%nat →
     (MAX_BINDINGS ≤ size (trim m now))%nat ∧
     (NoDup (sorted_ages (live_entries now m)) → size (trim m now) = MAX_BINDINGS)) ∧
  (∀ k b k' b', live_entries now m !! k = Some b → trim m now !! k = None →
     trim m now !! k' = Some b' → last_used_unix b < last_used_unix b').
Proof.
  split.
  { intros k b Hk. eapply lookup_weaken in Hk; [|apply trim_subseteq].
    by apply map_lookup_filter_Some in Hk. }
  destruct (trim_cases m now) as [[Hle ->]|(c & Hlt & Hc & ->)].
  - split_and!; [done|intros; lia|]. intros k b k' b' Hk Hn. congruence.
  - pose proof (sort_by_sorted Z.ltb ((λ kv, last_used_unix kv.2) <$>
                  map_to_list (live_entries now m))) as Hs.
    pose proof (cutoff_count _ _ _ Hs Hc) as [Hge Heq].
    change (sort_by _ _) with (sorted_ages (live_entries now m)) in *.
    rewrite length_sorted_ages in Hge, Heq. rewrite size_filter_ages.
    split_and!; [intros; lia|intros _; split; [lia|]|].
    + intros Hnd. rewrite Heq by done. lia.
    + intros k b k' b' Hk Hn [_ Hc']%map_lookup_filter_Some. cbn in Hc'.
      apply map_lookup_filter_None in Hn as [Hn|Hn]; [congruence|].
      specialize (Hn _ Hk). cbn in Hn. lia.
Qed.

(** The cap is not enforced when timestamps tie.  If all live bindings carry
    the same second, [trim] drops none of them, however many there are. *)
Theorem trim_ties_unbounded m now t :
  now - t ≤ BINDING_TTL_SECS →
  (∀ k b, m !! k = Some b → last_used_unix b = t) → trim m now = m.
Proof.
  intros Ht Hall.
  assert (Hl : live_entries now m = m).
  { apply map_filter_id. intros k b Hk. cbn. unfold alive. by rewrite (Hall _ _ Hk). }
  destruct (trim_cases m now) as [[_ ->]|(c & Hlt & Hc & ->)]; rewrite Hl in *; [done|].
  apply map_filter_id. intros k b Hk. cbn. rewrite (Hall _ _ Hk).
  apply list_elem_of_lookup_2 in Hc. unfold sorted_ages in Hc. rewrite sort_by_elem_of in Hc.
  apply list_elem_of_fmap in Hc as ([k' b'] & -> & Hk'%elem_of_map_to_list). cbn.
  by rewrite (Hall _ _ Hk').
Qed.

(** ** Sessions and restarts *)

(** A binding is remembered for its whole TTL.  After [put], with no binding
    from the future in the store, [get] returns the account for as long as the
    binding is not older than [BINDING_TTL_SECS] and nothing afterwards - also
    when the store was full and had to be trimmed. *)
Theorem put_get s key account now now' :
  (∀ k b, map s !! k = Some b → last_used_unix b ≤ now) →
  get (put s key account now) key now' =
    if bool_decide (now' - now ≤ BINDING_TTL_SECS) then Some account else None.
Proof.
  intros Hpast. set (b0 := {| account_id := account; last_used_unix := now |}).
  set (m := <[key := b0]> (map s)).
  assert (Hkey : map (put s key account now) !! key = Some b0).
  { cbn. fold b0 m. case_if; [|apply lookup_insert_eq].
    assert (Hlive : live_entries now m !! key = Some b0).
    { apply map_lookup_filter_Some. split; [apply lookup_insert_eq|].
      cbn. unfold alive, BINDING_TTL_SECS; cbn. lia. }
    destruct (trim_cases m now) as [[_ ->]|(c & _ & Hc & ->)]; [done|].
    apply map_lookup_filter_Some. split; [done|]. cbn.
    apply list_elem_of_lookup_2 in Hc. unfold sorted_ages in Hc. rewrite sort_by_elem_of in Hc.
    apply list_elem_of_fmap in Hc as ([k b] & -> & Hk%elem_of_map_to_list). cbn.
    apply map_lookup_filter_Some in Hk as [Hk _]. unfold m in Hk.
    apply lookup_insert_Some in Hk as [[_ <-]|[_ Hk]]; [done|by eapply Hpast]. }
  unfold get. rewrite Hkey. destruct (decide (now' - now ≤ BINDING_TTL_SECS)).
  - by rewrite !bool_decide_eq_true_2.
  - by rewrite !bool_decide_eq_false_2.
Qed.

Lemma hex16_inj k k' : is_u64 k → is_u64 k' → hex16 k = hex16 k' → k = k'.
Proof.
  intros Hk Hk' E. pose proof (hex16_roundtrip k Hk) as H1.
  rewrite E, hex16_roundtrip in H1 by done. congruence.
Qed.

Definition keys_u64 (m : BindingMap) : Prop := ∀ k b, m !! k = Some b → is_u64 k.

Lemma raw_entries_NoDup m :
  keys_u64 m → NoDup ((λ kv, (hex16 kv.1, kv.2)) <$> map_to_list m).*1.
Proof.
  intros Hm. rewrite <- list_fmap_compose. apply NoDup_fmap_2_strong; [|apply NoDup_map_to_list].
  intros [k v] [k' v'] Hk%elem_of_map_to_list Hk'%elem_of_map_to_list E. cbn in E.
  apply hex16_inj in E; [subst|by eapply Hm..]. by simplify_eq.
Qed.

Lemma foldl_insert_list (l : list (Z * Binding)) : ∀ acc : BindingMap,
  NoDup l.*1 → foldl (λ m kv, <[kv.1 := kv.2]> m) acc l = list_to_map l ∪ acc.
Proof.
  induction l as [|[k v] l IH]; intros acc Hnd; cbn; [by rewrite map_empty_union|].
  apply NoDup_cons in Hnd as [Hk Hnd]. rewrite IH by done.
  rewrite <- insert_union_l. symmetry. apply insert_union_r.
  by apply not_elem_of_list_to_map_1.
Qed.

Lemma decode_raw (l : list (Z * Binding)) : ∀ acc : BindingMap,
  Forall (λ kv, is_u64 kv.1) l →
  foldl (λ m kv, match from_str_radix_16 kv.1 with
                 | Some key => <[key := kv.2]> m | None => m end)
    acc ((λ kv, (hex16 kv.1, kv.2)) <$> l) =
  foldl (λ m kv, <[kv.1 := kv.2]> m) acc l.
Proof.
  induction l as [|[k v] l IH]; intros acc Hall; [done|].
  apply list.Forall_cons in Hall as [Hk Hall]. rewrite fmap_cons. cbn [foldl fst snd].
  rewrite hex16_roundtrip by done. by apply IH.
Qed.

(** Reading the written entries in any order gives the map back. *)
Lemma decode_raw_map m raw :
  keys_u64 m → raw ≡ₚ map_to_list (raw_map m) → decode_entries raw = m.
Proof.
  intros Hm Hraw. unfold raw_map in Hraw.
  rewrite map_to_list_to_map in Hraw by (by apply raw_entries_NoDup).
  apply Permutation_map_inv in Hraw as (l & -> & Hl). unfold decode_entries.
  assert (Hnd : NoDup l.*1) by (rewrite <- Hl; apply NoDup_fst_map_to_list).
  rewrite decode_raw.
  - rewrite foldl_insert_list by done. rewrite map_union_empty.
    rewrite <- (list_to_map_to_list m). symmetry.
    apply list_to_map_proper; [apply NoDup_fst_map_to_list|done].
  - apply list.Forall_forall. intros [k v] Hk. rewrite <- Hl in Hk.
    apply elem_of_map_to_list in Hk. by eapply Hm.
Qed.

(** Bindings survive a restart.  If serialisation gives back the entries it was
    given, in whatever order, then loading what a dirty store with a path
    flushed gives the flushed bindings, less those that expired meanwhile. *)
Theorem flush_load_roundtrip {Bytes : Type} (to_vec : gmap string Binding → option Bytes)
    (from_slice : Bytes → option (list (string * Binding))) s now now' bytes s' :
  (∀ m b, to_vec m = Some b → ∃ l, from_slice b = Some l ∧ l ≡ₚ map_to_list m) →
  keys_u64 (map s) →
  snapshot_if_dirty to_vec s now = (Some bytes, s') →
  map (load from_slice (Some bytes) now') = trim (trim (map s) now) now' ∧
  map s' = trim (map s) now ∧ dirty s' = false.
Proof.
  intros Hserde Hkeys. unfold snapshot_if_dirty. case_if; [done|]. case_if; [done|].
  intros [= Hv <-]. split; [|done]. cbn.
  destruct (Hserde _ _ Hv) as (l & Hl & Hperm). cbn. rewrite Hl. f_equal.
  apply decode_raw_map; [|done]. intros k b Hk.
  eapply lookup_weaken in Hk; [|apply trim_subseteq].
  apply map_lookup_filter_Some in Hk as [Hk _]. by eapply Hkeys.
Qed.

(** ** Witnesses *)

Definition one_binding : AffinityStore :=
  {| has_path := true; map := {[ 255 := {| account_id := "acct"; last_used_unix := 100 |} ]};
     dirty := true |}.

Lemma hex16_roundtrip_witness : from_str_radix_16 (hex16 48879) = Some 48879.
Proof. apply (hex16_roundtrip 48879). unfold is_u64, u64_max. lia. Defined.

Lemma trim_ties_witness :
  trim {[ 1 := {| account_id := "a"; last_used_unix := 7 |} ]} 9 =
  {[ 1 := {| account_id := "a"; last_used_unix := 7 |} ]}.
Proof.
  apply (trim_ties_unbounded _ 9 7); [unfold BINDING_TTL_SECS; lia|].
  intros k b [_ <-]%lookup_singleton_Some. done.
Defined.

Lemma put_get_witness :
  get (put one_binding 255 "other" 200) 255 300 =
    if bool_decide (300 - 200 ≤ BINDING_TTL_SECS) then Some "other" else None.
Proof.
  apply (put_get one_binding 255 "other" 200 300).
  intros k b Hk. cbn [map one_binding] in Hk. apply lookup_singleton_Some in Hk as [_ <-]. cbn. lia.
Defined.

Lemma flush_load_witness :
  map (load Some (Some (map_to_list (raw_map (trim (map one_binding) 200)))) 300) =
    trim (trim (map one_binding) 200) 300 ∧
  trim (map one_binding) 200 = trim (map one_binding) 200 ∧ false = false.
Proof.
  apply (flush_load_roundtrip (λ m, Some (map_to_list m)) Some one_binding 200 300
           (map_to_list (raw_map (trim (map one_binding) 200)))
           {| has_path := true; map := trim (map one_binding) 200; dirty := false |}).
  - intros m b [= <-]. eauto.
  - intros k b Hk. cbn [map one_binding] in Hk. apply lookup_singleton_Some in Hk as [<- _].
    unfold is_u64, u64_max. lia.
  - reflexivity.
Defined.
