(* ===== verification/ClaudeBudget.v ===== *)
(** * Claude budgets and denials (claude_budget.rs, claude_denial.rs)

    The monthly budget of API-key accounts with its calendar arithmetic, and the
    classification of upstream denials. *)

From stdpp Require Import gmap strings list pretty.
From S2P Require Import Prelude RustStr.
Import RustStr.
Open Scope Z_scope.

Module Budget.

Definition weighted_units (input output cache_write cache_read : Z) : Z :=
  saturating_add_u64
    (saturating_add_u64 (saturating_add_u64 input output) cache_write) (cache_read / 10).

(** [i64] division truncates ([Z.quot]); [div_euclid] and [rem_euclid] by a
    positive constant are [Z.div] and [Z.modulo]. *)
Definition civil_from_days (z : Z) : Z * Z * Z :=
  let z := z + 719468 in
  let era := z / 146097 in
  let doe := z mod 146097 in
  let yoe := Z.quot (doe - Z.quot doe 1460 + Z.quot doe 36524 - Z.quot doe 146096) 365 in
  let y := yoe + era * 400 in
  let doy := doe - (365 * yoe + Z.quot yoe 4 - Z.quot yoe 100) in
  let mp := Z.quot (5 * doy + 2) 153 in
  let d := doy - Z.quot (153 * mp + 2) 5 + 1 in
  let m := if mp <? 10 then mp + 3 else mp - 9 in
  (if m <=? 2 then y + 1 else y, m, d).

Definition days_from_civil (y m d : Z) : Z :=
  let y := if m <=? 2 then y - 1 else y in
  let era := y / 400 in
  let yoe := y mod 400 in
  let doy := Z.quot (153 * (if 2 <? m then m - 3 else m + 9) + 2) 5 + d - 1 in
  let doe := yoe * 365 + Z.quot yoe 4 - Z.quot yoe 100 + doy in
  era * 146097 + doe - 719468.

Definition month_start_utc_ms (now_unix : Z) : Z :=
  let days := now_unix / 86400 in
  let '(year, month, _) := civil_from_days days in
  days_from_civil year month 1 * 86400 * 1000.

(** [None] until the first successful read and after any failed one. *)
Record BudgetTracker := { usage_map : option (gmap string Z) }.
Definition default_tracker : BudgetTracker := {| usage_map := None |}.

Definition is_over (t : BudgetTracker) (budgets : gmap string Z) (account : string) : bool :=
  match budgets !! account with
  | None => false
  | Some limit =>
      match usage_map t with
      | Some usage => limit <=? default 0 (usage !! account)
      | None => true
      end
  end.

Definition usage (t : BudgetTracker) (account : string) : option Z :=
  (λ u : gmap string Z, default 0 (u !! account)) <$> usage_map t.

(** [refresh_with]: every budgeted account is read once, in key order; the first
    error makes the whole snapshot unknown. *)
Fixpoint read_all {E} (read : string → result E Z) (accounts : list string)
    (usage : gmap string Z) : option (gmap string Z) :=
  match accounts with
  | [] => Some usage
  | a :: accounts =>
      match read a with
      | Ok units => read_all read accounts (<[a := units]> usage)
      | Err _ => None
      end
  end.

Definition refresh_with {E} (budgets : gmap string Z) (read : string → result E Z)
  : BudgetTracker :=
  {| usage_map := read_all read (btree_keys budgets) ∅ |}.

Record Totals := {
  input_tokens : Z; output_tokens : Z; cache_write_tokens : Z; cached_input_tokens : Z
}.

(** The request history is read through [query account start_ms]. *)
Definition refresh_from_history {E} (budgets : gmap string Z)
    (query : string → Z → result E Totals) (now_unix : Z) : BudgetTracker :=
  if bool_decide (budgets = ∅) then {| usage_map := Some ∅ |}
  else
    let start_ms := month_start_utc_ms now_unix in
    refresh_with budgets (λ account,
      match query account start_ms with
      | Ok t => Ok (weighted_units (input_tokens t) (output_tokens t)
                      (cache_write_tokens t) (cached_input_tokens t))
      | Err e => Err e
      end).

End Budget.

Module Denials.

Definition ENFORCEMENT_SIGNATURES : list string :=
  ["only authorized for use with claude code"; "has been disabled"; "suspended";
   "terms of service"; "usage policy"; "organization has been"].

Definition DENIED_PROMOTION_WINDOW_SECS : Z := 600.

Inductive Denial := Enforcement | Denied | Other.

Definition is_enforcement_text (message : string) : bool :=
  let lowered := to_ascii_lowercase message in
  existsb (λ signature, contains lowered signature) ENFORCEMENT_SIGNATURES.

Definition classify (status : Z) (message : string) : Denial :=
  if ((status =? 400) || (status =? 401) || (status =? 403)) && is_enforcement_text message
  then Enforcement
  else if status =? 403 then Denied
  else Other.

Definition enforcement_reason (status : Z) (message : string) : string :=
  let lowered := to_ascii_lowercase message in
  let signature :=
    match List.find (λ signature, contains lowered signature) ENFORCEMENT_SIGNATURES with
    | Some s => s
    | None => "repeated permission denial"
    end in
  pretty (Z.to_N status) +:+ ": " +:+ signature.

(** [DeniedTracker]: the time of the last plain denial per account. *)
Abbreviation DeniedTracker := (gmap string Z).

Definition record (last : DeniedTracker) (account : string) (now_unix : Z)
  : bool * DeniedTracker :=
  let repeat := match last !! account with
                | Some at_ => now_unix - at_ <=? DENIED_PROMOTION_WINDOW_SECS
                | None => false
                end in
  if repeat then (true, delete account last)
  else (false, <[account := now_unix]> last).

End Denials.

(** ** Calendar *)
Import Budget.

Definition year_month (z : Z) : Z * Z := (civil_from_days z).1.

(** The pieces of the conversion inside one 400-year era: the year of a day, the
    first and last day of a year, and the month of a day of the year. *)
Definition yoe_of (doe : Z) : Z :=
  Z.quot (doe - Z.quot doe 1460 + Z.quot doe 36524 - Z.quot doe 146096) 365.
Definition year_start (Y : Z) : Z := 365 * Y + Z.quot Y 4 - Z.quot Y 100.
Definition year_last (Y : Z) : Z := if Y =? 399 then 146096 else year_start (Y + 1) - 1.
Definition mp_of (doy : Z) : Z := Z.quot (5 * doy + 2) 153.
Definition month_start (mp : Z) : Z := Z.quot (153 * mp + 2) 5.

Definition year_ok (Y : Z) : bool :=
  (yoe_of (year_start Y) =? Y) && (yoe_of (year_last Y) =? Y)
  && (364 <=? year_last Y - year_start Y) && (year_last Y - year_start Y <=? 365).

Lemma years_ok Y : 0 ≤ Y < 400 → year_ok Y = true.
Proof.
  intros HY. assert (Hall : forallb year_ok (seqZ 0 400) = true) by (vm_compute; reflexivity).
  rewrite forallb_forall in Hall. apply Hall, list_elem_of_In, elem_of_seqZ. lia.
Qed.

Definition doy_ok (doy : Z) : bool :=
  let mp := mp_of doy in
  (0 <=? mp) && (mp <=? 11) && (1 <=? doy - month_start mp + 1) && (doy - month_start mp + 1 <=? 31)
  && (mp_of (month_start mp) =? mp)
  && ((mp =? 0) || negb (mp_of (month_start mp - 1) =? mp))
  && ((doy <? 364) || (mp =? 11)).

Lemma doys_ok doy : 0 ≤ doy ≤ 365 → doy_ok doy = true.
Proof.
  intros Hd. assert (Hall : forallb doy_ok (seqZ 0 366) = true) by (vm_compute; reflexivity).
  rewrite forallb_forall in Hall. apply Hall, list_elem_of_In, elem_of_seqZ. lia.
Qed.

Lemma yoe_of_mono a b : 0 ≤ a ≤ b → b ≤ 146096 → yoe_of a ≤ yoe_of b.
Proof.
  intros Ha Hb. unfold yoe_of.
  destruct (decide (b = 146096)) as [->|Hne].
  - vm_compute (Z.quot (146096 - _ + _ - _) 365). Z.to_euclidean_division_equations. lia.
  - rewrite (Z.quot_small a 146096), (Z.quot_small b 146096) by lia.
    apply Z.quot_le_mono; [lia|]. Z.to_euclidean_division_equations. lia.
Qed.

(** A day between the first and the last day of a year belongs to that year. *)
Lemma yoe_of_year doe Y :
  0 ≤ Y < 400 → year_start Y ≤ doe ≤ year_last Y → yoe_of doe = Y.
Proof.
  intros HY Hd. pose proof (years_ok Y HY) as Hok. unfold year_ok in Hok. bool_to_prop.
  assert (0 ≤ year_start Y) by (unfold year_start; Z.to_euclidean_division_equations; lia).
  assert (year_last Y ≤ 146096).
  { unfold year_last. case_if; [lia|]. bool_to_prop. unfold year_start.
    Z.to_euclidean_division_equations. lia. }
  pose proof (yoe_of_mono (year_start Y) doe ltac:(lia) ltac:(lia)).
  pose proof (yoe_of_mono doe (year_last Y) ltac:(lia) ltac:(lia)). lia.
Qed.

Lemma year_exists (n : nat) doe :
  (n < 400)%nat → 0 ≤ doe ≤ year_last (Z.of_nat n) →
  ∃ Y, 0 ≤ Y ≤ Z.of_nat n ∧ year_start Y ≤ doe ≤ year_last Y.
Proof.
  induction n as [|n IH]; intros Hn Hd; [exists 0; split; [lia|done]|].
  destruct (decide (doe ≤ year_last (Z.of_nat n))) as [Hle|Hgt].
  - destruct IH as (Y & ? & ?); [lia..|]. exists Y. lia.
  - exists (Z.of_nat (S n)). split; [lia|]. split; [|lia]. revert Hgt. unfold year_last at 1.
    case_if; bool_to_prop; [lia|]. replace (Z.of_nat (S n)) with (Z.of_nat n + 1) by lia. lia.
Qed.

(** The year, and the day of the year, of every day of an era. *)
Lemma yoe_of_spec doe :
  0 ≤ doe < 146097 →
  0 ≤ yoe_of doe < 400 ∧ year_start (yoe_of doe) ≤ doe ≤ year_last (yoe_of doe) ∧
  0 ≤ doe - year_start (yoe_of doe) ≤ 365.
Proof.
  intros Hd. destruct (year_exists 399 doe) as (Y & HY & Hr); [lia|..].
  { replace (year_last (Z.of_nat 399)) with 146096 by (vm_compute; reflexivity). lia. }
  assert (E : yoe_of doe = Y) by (apply yoe_of_year; lia). rewrite E.
  pose proof (years_ok Y ltac:(lia)) as Hok. unfold year_ok in Hok. bool_to_prop. lia.
Qed.

Definition date_of (era yoe mp d : Z) : Z * Z * Z :=
  let m := if mp <? 10 then mp + 3 else mp - 9 in
  (if m <=? 2 then yoe + era * 400 + 1 else yoe + era * 400, m, d).

(** The date of a day given by its year and its day of the year. *)
Lemma civil_of era Y doy :
  0 ≤ Y < 400 → 0 ≤ doy → year_start Y + doy ≤ year_last Y →
  civil_from_days (era * 146097 + year_start Y + doy - 719468) =
  date_of era Y (mp_of doy) (doy - month_start (mp_of doy) + 1).
Proof.
  intros HY Hdoy Hlast.
  assert (0 ≤ year_start Y) by (unfold year_start; Z.to_euclidean_division_equations; lia).
  assert (year_last Y ≤ 146096).
  { unfold year_last. case_if; [lia|]. bool_to_prop. unfold year_start.
    Z.to_euclidean_division_equations. lia. }
  unfold civil_from_days.
  replace (era * 146097 + year_start Y + doy - 719468 + 719468)
    with (year_start Y + doy + era * 146097) by lia.
  rewrite Z.div_add, Z.mod_add, (Z.div_small (_ + _)), (Z.mod_small (_ + _)) by lia.
  fold (yoe_of (year_start Y + doy)). rewrite (yoe_of_year _ Y) by lia. cbv zeta.
  fold (year_start Y). replace (year_start Y + doy - year_start Y) with doy by lia. done.
Qed.

(** Every day is a day of the year of an era. *)
Lemma day_split z :
  ∃ era Y doy, z = era * 146097 + year_start Y + doy - 719468 ∧ 0 ≤ Y < 400 ∧
    0 ≤ doy ≤ 365 ∧ year_start Y + doy ≤ year_last Y.
Proof.
  pose proof (Z.mod_pos_bound (z + 719468) 146097 ltac:(lia)) as Hb.
  pose proof (Z.div_mod (z + 719468) 146097 ltac:(lia)) as Hdm.
  destruct (yoe_of_spec _ Hb) as (HY & Hr & Hd).
  exists ((z + 719468) / 146097), (yoe_of ((z + 719468) mod 146097)).
  eexists. split; [|split; [exact HY|split; [exact Hd|lia]]]. lia.
Qed.

Lemma days_from_civil_date era Y mp d :
  0 ≤ Y < 400 → 0 ≤ mp ≤ 11 →
  let '(y, m, d') := date_of era Y mp d in
  days_from_civil y m d' = era * 146097 + year_start Y + month_start mp + d - 1 - 719468 ∧
  1 ≤ m ≤ 12 ∧ d' = d.
Proof.
  intros HY Hmp. unfold date_of, days_from_civil. cbv zeta.
  destruct (mp <? 10) eqn:E; bool_to_prop.
  - rewrite (proj2 (Z.leb_gt (mp + 3) 2)), (proj2 (Z.ltb_lt 2 (mp + 3))) by lia.
    rewrite Z.div_add, Z.mod_add, (Z.div_small Y), (Z.mod_small Y) by lia.
    replace (mp + 3 - 3) with mp by lia. fold (month_start mp). unfold year_start. lia.
  - rewrite (proj2 (Z.leb_le (mp - 9) 2)), (proj2 (Z.ltb_ge 2 (mp - 9))) by lia.
    replace (Y + era * 400 + 1 - 1) with (Y + era * 400) by lia.
    rewrite Z.div_add, Z.mod_add, (Z.div_small Y), (Z.mod_small Y) by lia.
    replace (mp - 9 + 9) with mp by lia. fold (month_start mp). unfold year_start. lia.
Qed.

(** The month of [date_of] determines [mp]. *)
Lemma date_of_month era Y mp d era' Y' mp' d' :
  0 ≤ mp ≤ 11 → 0 ≤ mp' ≤ 11 →
  (date_of era Y mp d).1.2 = (date_of era' Y' mp' d').1.2 → mp = mp'.
Proof. unfold date_of. cbn. repeat case_if; bool_to_prop; lia. Qed.

(** The last day of a year falls in the last month. *)
Lemma last_day_month Y :
  0 ≤ Y < 400 → mp_of (year_last Y - year_start Y) = 11 ∧
                0 ≤ year_last Y - year_start Y ≤ 365.
Proof.
  intros HY. pose proof (years_ok Y HY) as Hok. unfold year_ok in Hok. bool_to_prop.
  pose proof (doys_ok (year_last Y - year_start Y) ltac:(lia)) as Hd. unfold doy_ok in Hd.
  apply andb_true_iff in Hd as [_ Hd]. apply orb_true_iff in Hd. split; [|lia].
  destruct Hd; bool_to_prop; lia.
Qed.

(** The day before the first of a month is in another month. *)
Lemma prev_month_differs era Y mp d y m :
  0 ≤ Y < 400 → 0 ≤ mp ≤ 11 → year_start Y + month_start mp ≤ year_last Y + 1 →
  date_of era Y mp d = (y, m, d) →
  mp = 0 ∨ mp_of (month_start mp - 1) ≠ mp →
  year_month (era * 146097 + year_start Y + (month_start mp - 1) - 719468) ≠ (y, m).
Proof.
  intros HY Hmp Hl Hdo Hcase. unfold year_month.
  cut (∃ era' Y' mp' d', civil_from_days (era * 146097 + year_start Y + (month_start mp - 1) - 719468)
         = date_of era' Y' mp' d' ∧ 0 ≤ mp' ≤ 11 ∧ mp' ≠ mp).
  { intros (era' & Y' & mp' & d' & -> & Hmp' & Hne) E. apply Hne.
    apply (date_of_month era' Y' mp' d' era Y mp d); [done..|]. by rewrite E, Hdo. }
  destruct (decide (mp = 0)) as [->|Hne0].
  - change (month_start 0) with 0 in *.
    assert (∃ era' Y', 0 ≤ Y' < 400 ∧ era * 146097 + year_start Y + (0 - 1) - 719468 =
              era' * 146097 + year_start Y' + (year_last Y' - year_start Y') - 719468)
      as (era' & Y' & HY' & ->).
    { destruct (decide (Y = 0)) as [->|].
      - exists (era - 1), 399. change (year_last 399) with 146096. change (year_start 0) with 0. lia.
      - exists era, (Y - 1). unfold year_last. rewrite (proj2 (Z.eqb_neq (Y - 1) 399)) by lia.
        replace (Y - 1 + 1) with Y by lia. lia. }
    destruct (last_day_month Y' HY') as [Hm ?]. rewrite civil_of by lia. rewrite Hm.
    exists era', Y', 11, (year_last Y' - year_start Y' - month_start 11 + 1). split; [done|lia].
  - assert (1 ≤ month_start mp ≤ 337)
      by (unfold month_start; Z.to_euclidean_division_equations; lia).
    rewrite civil_of by lia. eexists era, Y, _, _. split; [reflexivity|].
    pose proof (doys_ok (month_start mp - 1) ltac:(lia)) as Hd. unfold doy_ok in Hd. cbv zeta in Hd.
    bool_to_prop. split; [lia|]. destruct Hcase; [lia|done].
Qed.

(** What holds of one day: its date converts back, the first day of its month is
    [d - 1] days earlier, and the day before that is in another month. *)
Lemma day_facts z :
  let '(y, m, d) := civil_from_days z in
  1 ≤ m ≤ 12 ∧ 1 ≤ d ≤ 31 ∧ days_from_civil y m d = z ∧
  civil_from_days (z - (d - 1)) = (y, m, 1) ∧ year_month (z - d) ≠ (y, m).
Proof.
  destruct (day_split z) as (era & Y & doy & -> & HY & Hd & Hl).
  pose proof (doys_ok doy Hd) as Hok. unfold doy_ok in Hok. cbv zeta in Hok. bool_to_prop.
  rewrite civil_of by lia. set (mp := mp_of doy) in *. set (d := doy - month_start mp + 1) in *.
  pose proof (days_from_civil_date era Y mp d HY ltac:(lia)) as Hdate.
  assert (Hone : date_of era Y mp 1 = ((date_of era Y mp d).1, 1)) by done.
  destruct (date_of era Y mp d) as [[y m] d0] eqn:Hdo. destruct Hdate as (Hback & Hm & ->).
  assert (Hms : 0 ≤ month_start mp) by (unfold month_start; Z.to_euclidean_division_equations; lia).
  split_and!; try lia.
  - replace (era * 146097 + year_start Y + doy - 719468 - (d - 1))
      with (era * 146097 + year_start Y + month_start mp - 719468) by lia.
    rewrite civil_of by lia. replace (mp_of (month_start mp)) with mp by lia.
    replace (month_start mp - month_start mp + 1) with 1 by lia. exact Hone.
  - replace (era * 146097 + year_start Y + doy - 719468 - d)
      with (era * 146097 + year_start Y + (month_start mp - 1) - 719468) by lia.
    apply (prev_month_differs era Y mp d); [done|lia|lia|done|].
    repeat match goal with H : _ ∨ _ |- _ => destruct H; bool_to_prop end; lia.
Qed.

(** The calendar conversion loses nothing: converting a day number to a date and
    back gives the day number, for every day of the proleptic calendar. *)
Theorem civil_roundtrip z :
  let '(y, m, d) := civil_from_days z in
  days_from_civil y m d = z ∧ 1 ≤ m ≤ 12 ∧ 1 ≤ d ≤ 31.
Proof.
  pose proof (day_facts z) as Hz. destruct (civil_from_days z) as [[y m] d]. tauto.
Qed.

Lemma days_from_civil_day y m d : days_from_civil y m 1 = days_from_civil y m d - (d - 1).
Proof. unfold days_from_civil. lia. Qed.

(** The budget period starts at the first instant of the calendar month: the
    start is not after now and less than 31 days before it, it is midnight of the
    first day of the same year and month, and the millisecond before it belongs
    to another month. *)
Theorem month_start_correct now :
  let '(y, m, d) := civil_from_days (now / 86400) in
  let start := month_start_utc_ms now in
  start ≤ now * 1000 < start + 31 * 86400 * 1000 ∧
  start mod (86400 * 1000) = 0 ∧
  civil_from_days (start / 1000 / 86400) = (y, m, 1) ∧
  year_month ((start - 1) / 1000 / 86400) ≠ (y, m).
Proof.
  pose proof (day_facts (now / 86400)) as Hz.
  unfold month_start_utc_ms. destruct (civil_from_days (now / 86400)) as [[y m] d].
  destruct Hz as (Hm & Hd & Hback & Hfirst & Hprev).
  rewrite (days_from_civil_day y m d), Hback. set (day := now / 86400) in *.
  pose proof (Z.div_mod now 86400 ltac:(lia)) as Hdm.
  pose proof (Z.mod_pos_bound now 86400 ltac:(lia)) as Hmb. fold day in Hdm.
  split_and!; [lia|lia| | |].
  - replace ((day - (d - 1)) * 86400 * 1000) with ((day - (d - 1)) * (86400 * 1000)) by lia.
    by apply Z.mod_mul.
  - rewrite Z.div_mul, Z.div_mul by lia. done.
  - rewrite Z.div_div by lia.
    replace (((day - (d - 1)) * 86400 * 1000 - 1) / (1000 * 86400)) with (day - d); [done|].
    apply Z.div_unique with (86400 * 1000 - 1); lia.
Qed.

(** ** Budgets fail closed *)

Lemma read_all_spec {E} (read : string → result E Z) l : ∀ u,
  (∀ a, a ∈ l → ∃ v, read a = Ok v) ∧
    (∃ u', read_all read l u = Some u' ∧
       ∀ a, u' !! a = match decide (a ∈ l), read a with
                      | left _, Ok v => Some v
                      | _, _ => u !! a
                      end) ∨
  (∃ a e, a ∈ l ∧ read a = Err e) ∧ read_all read l u = None.
Proof.
  induction l as [|x l IH]; intros u; cbn.
  { left. split; [by intros a ?%elem_of_nil|]. exists u. split; [done|]. intros a.
    case_decide as Ha; [by apply elem_of_nil in Ha|done]. }
  destruct (read x) as [v|e] eqn:Hx; [|right; split; [exists x, e; split; [left|done]|done]].
  destruct (IH (<[x := v]> u)) as [[Hall (u' & Hu & Hlk)]|[(a & e & Ha & He) Hn]].
  - left. split; [intros a [->|Ha]%elem_of_cons; eauto|]. exists u'. split; [done|].
    intros a. rewrite Hlk. destruct (decide (a ∈ l)) as [Hin|Hin].
    + destruct (Hall a Hin) as [v' ->]. rewrite decide_True by (by right). done.
    + destruct (decide (a = x)) as [->|Hne].
      * rewrite lookup_insert_eq, decide_True by left. by rewrite Hx.
      * rewrite lookup_insert_ne by done. rewrite decide_False; [done|].
        by intros [->|?]%elem_of_cons.
  - right. split; [|done]. exists a, e. split; [by right|done].
Qed.

(** An unread budget is an exhausted budget.  After a refresh, an account
    without a budget is never over; if any budgeted account could not be read,
    every budgeted account counts as over; otherwise an account is over exactly
    when the units read for it have reached its limit. *)
Theorem budget_fails_closed {E} (budgets : gmap string Z) (read : string → result E Z) account :
  is_over (refresh_with budgets read) budgets account =
  match budgets !! account with
  | None => false
  | Some limit =>
      if bool_decide (Forall (λ a, is_ok (read a) = true) (btree_keys budgets))
      then match read account with Ok units => limit <=? units | Err _ => true end
      else true
  end.
Proof.
  unfold is_over, refresh_with. cbn. destruct (budgets !! account) as [limit|] eqn:Hb; [|done].
  destruct (read_all_spec read (btree_keys budgets) ∅)
    as [[Hall (u & -> & Hu)]|[(a & e & Ha & He) ->]].
  - rewrite bool_decide_eq_true_2.
    + assert (Hin : account ∈ btree_keys budgets) by (apply elem_of_btree_keys; eauto).
      rewrite Hu, decide_True by done. by destruct (Hall _ Hin) as [v ->].
    + apply list.Forall_forall. intros a Ha. by destruct (Hall a Ha) as [v ->].
  - rewrite bool_decide_eq_false_2; [done|]. rewrite list.Forall_forall. intros H.
    specialize (H a Ha). by rewrite He in H.
Qed.

(** ** Denials *)
Import Denials.

(** A denial is promoted exactly when the account's previous unpromoted denial is
    at most [DENIED_PROMOTION_WINDOW_SECS] old; a promotion forgets the account,
    so that it takes two more denials to promote again, and other accounts are
    not affected. *)
Theorem denial_promotion last account t1 t2 t3 other :
  t1 ≤ t2 ≤ t3 → last !! account = None → other ≠ account →
  let '(p1, l1) := record last account t1 in
  let '(p2, l2) := record l1 account t2 in
  let '(p3, l3) := record l2 account t3 in
  p1 = false ∧
  p2 = bool_decide (t2 - t1 ≤ DENIED_PROMOTION_WINDOW_SECS) ∧
  p3 = negb p2 && bool_decide (t3 - t2 ≤ DENIED_PROMOTION_WINDOW_SECS) ∧
  l3 !! other = last !! other.
Proof.
  intros Ht Hn Ho. unfold record. rewrite Hn, lookup_insert_eq. cbn.
  destruct (t2 - t1 <=? DENIED_PROMOTION_WINDOW_SECS) eqn:E2; bool_to_prop.
  - rewrite lookup_delete_eq. split_and!; [done|by rewrite bool_decide_eq_true_2|done|].
    by rewrite lookup_insert_ne, lookup_delete_ne, lookup_insert_ne.
  - rewrite lookup_insert_eq.
    destruct (t3 - t2 <=? DENIED_PROMOTION_WINDOW_SECS) eqn:E3; bool_to_prop;
      split_and!; try done; try (rewrite bool_decide_eq_false_2; [done|lia]);
      try (by rewrite bool_decide_eq_true_2);
      by rewrite ?lookup_delete_ne, !lookup_insert_ne by done.
Qed.

Lemma denial_promotion_witness :
  let '(p1, l1) := record ∅ "a" 0 in
  let '(p2, l2) := record l1 "a" 600 in
  let '(p3, l3) := record l2 "a" 700 in
  p1 = false ∧ p2 = bool_decide (600 - 0 ≤ DENIED_PROMOTION_WINDOW_SECS) ∧
  p3 = negb p2 && bool_decide (700 - 600 ≤ DENIED_PROMOTION_WINDOW_SECS) ∧
  l3 !! "b" = (∅ : gmap string Z) !! "b".
Proof. apply (denial_promotion ∅ "a" 0 600 700 "b"); [lia|done|done]. Defined.

Example classify_examples :
  classify 403 "Request not allowed" = Denied ∧
  classify 400 "This credential is only authorized for use with Claude Code." = Enforcement ∧
  classify 500 "has been disabled" = Other ∧
  enforcement_reason 403 "account has been disabled" = "403: has been disabled".
Proof. split_and!; vm_compute; reflexivity. Qed.
