(* ===== verification/ClaudeResetOrder.v ===== *)
(** * Ordering of Claude accounts (crates/gateway/src/claude_reset_order.rs)

    Accounts whose five-hour window resets soonest come first, nearly spent ones
    last, and only the slots held by Claude subscription accounts are touched. *)

From Stdlib Require Import SpecFloat.
From stdpp Require Import gmap strings list sorting.
From S2P Require Import Prelude Slots Types Scheduler.
Import Scheduler.
Open Scope Z_scope.
Open Scope rust_scope.

Module ResetOrder.

Definition REFRESH_INTERVAL_SECS : Z := 30 * 60.
Definition NEW_SESSION_MIN_REMAINING_PERCENT : f64 := f64_of_Z 10.

(** What the module asks an account besides its id and usage. *)
Class ClaudeAccount (M : Type) := {
  is_claude_kind : M → bool;            (* [kind() == ProviderKind::Claude] *)
  relay_api_key : M → option string;
}.

Section order.
Context {M : Type} `{PoolMember M} `{UsageReport M} `{ClaudeAccount M}.

Definition is_claude_subscription (m : M) : bool :=
  is_claude_kind m && negb (is_some (relay_api_key m)).

Definition active_five_hour_reset (m : M) (now : Z) : option Z :=
  match window_reset (primary m) with
  | Some reset => if now <? reset then Some reset else None
  | None => None
  end.

Definition window_spent (now : Z) (w : UsageWindow) : bool :=
  match window_reset w with None => true | Some reset => now <? reset end
  && match used_percent w with
     | Some used => f64_ltb (SFsub 53 1024 (f64_of_Z 100) used) NEW_SESSION_MIN_REMAINING_PERCENT
     | None => false
     end.

Definition is_nearly_spent (m : M) (now : Z) : bool :=
  existsb (window_spent now) [primary m; secondary m].

(** [keyed]: (reset, pool index, id) of the subscription accounts. *)
Definition keyed (members : list M) (now : Z) : list (Z * nat * string) :=
  omap (λ im : nat * M,
          if is_claude_subscription im.2
          then Some (default i64_max (active_five_hour_reset im.2 now), im.1, id im.2)
          else None)
    (imap pair members).

Definition keyed_ltb : Z * nat * string → Z * nat * string → bool :=
  lex (on_key Z.ltb (λ k, k.1.1)) (lex (on_key Nat.ltb (λ k, k.1.2)) (on_key string_ltb snd)).

Definition rank_by_five_hour_reset (members : list M) (now : Z) : gmap string nat :=
  foldl (λ (r : gmap string nat) (ri : nat * (Z * nat * string)), <[ri.2.2 := ri.1]> r) ∅
    (imap pair (sort_by keyed_ltb (keyed members now))).

(** [ranks]: [cached] is the pair [(valid_until, ranks)]. *)
Definition valid_until (members : list M) (now : Z) : Z :=
  let next_check := now +| REFRESH_INTERVAL_SECS in
  match min_by Z.ltb (omap (λ m, active_five_hour_reset m now)
                        (filter (λ m, is_claude_subscription m = true) members)) with
  | Some reset => Z.min reset next_check
  | None => next_check
  end.

Definition ranks (cached : option (Z * gmap string nat)) (members : list M) (now : Z)
  : gmap string nat * option (Z * gmap string nat) :=
  let fresh := let r := rank_by_five_hour_reset members now in
               (r, Some (valid_until members now, r)) in
  match cached with
  | Some (until, r) => if now <? until then (r, cached) else fresh
  | None => fresh
  end.

(** The slots of [ordered] that hold Claude subscription accounts. *)
Definition claude_at (members : list M) (index : nat) : bool :=
  match members !! index with Some m => is_claude_subscription m | None => false end.

Definition claude_slots (members : list M) (ordered : list nat) : list nat :=
  slots_of (claude_at members) 0 ordered.

Definition slot_key (members : list M) (rk : gmap string nat) (now : Z) (index : nat)
  : bool * Z :=
  match members !! index with
  | Some m => (is_nearly_spent m now,
               match rk !! id m with Some r => Z.of_nat r | None => u64_max end)
  | None => (false, 0) (* members[index] panics: [index] is a Claude slot *)
  end.

Definition slot_ltb (members : list M) (rk : gmap string nat) (now : Z) : nat → nat → bool :=
  lex (on_key bool_ltb (λ i, (slot_key members rk now i).1))
    (on_key Z.ltb (λ i, (slot_key members rk now i).2)).

Definition reorder_claude_slots (ordered : list nat) (members : list M)
    (rk : gmap string nat) (now : Z) : list nat :=
  let slots := claude_slots members ordered in
  let claude := omap (λ slot, ordered !! slot) slots in
  foldl (λ l si, <[si.1 := si.2]> l) ordered
    (zip slots (sort_by (slot_ltb members rk now) claude)).

(** ** Correctness *)

Global Instance slot_ltb_sw members rk now : StrictWeak (slot_ltb members rk now).
Proof. apply lex_sw; apply on_key_sw; [apply bool_ltb_sw|apply Z_ltb_sw]. Qed.

(** Account [i] may precede account [j]: it is not nearly spent unless [j] is, and
    between two of the same kind its rank is not larger; an account without a
    rank comes last. *)
Definition slot_before (members : list M) (rk : gmap string nat) (now : Z) (i j : nat) : Prop :=
  ∀ m m', members !! i = Some m → members !! j = Some m' →
    (is_nearly_spent m now = true → is_nearly_spent m' now = true) ∧
    (is_nearly_spent m now = is_nearly_spent m' now →
     default u64_max (Z.of_nat <$> rk !! id m) ≤ default u64_max (Z.of_nat <$> rk !! id m')).

Lemma slot_ltb_before members rk now i j :
  slot_ltb members rk now j i = false → slot_before members rk now i j.
Proof.
  unfold slot_ltb. rewrite lex_false. unfold on_key, bool_ltb, slot_key.
  intros Hs m m' Hm Hm'. rewrite Hm, Hm' in Hs. cbn [fst snd] in Hs. rewrite Z.ltb_ge in Hs.
  assert (E : ∀ x : M, match rk !! id x with Some r => Z.of_nat r | None => u64_max end =
                       default u64_max (Z.of_nat <$> rk !! id x)).
  { intros x. by destruct (rk !! id x). }
  rewrite !E in Hs. destruct (is_nearly_spent m now), (is_nearly_spent m' now);
    cbn in Hs; destruct Hs as [? [?|?]]; split; intros; done || lia.
Qed.

(** Only Claude slots move.  Reordering returns a permutation of the
    candidates in which every account that is not a Claude subscription keeps
    its position, and the Claude accounts appear with the nearly spent ones
    last and otherwise in rank order. *)
Theorem reorder_correct ordered members rk now :
  let result := reorder_claude_slots ordered members rk now in
  result ≡ₚ ordered ∧
  (∀ k i, ordered !! k = Some i → claude_at members i = false → result !! k = Some i) ∧
  (∀ k i, ordered !! k = Some i → claude_at members i = true →
     ∃ j, result !! k = Some j ∧ claude_at members j = true) ∧
  StronglySorted (slot_before members rk now)
    (filter (λ i, claude_at members i = true) result).
Proof.
  cbn zeta.
  destruct (sort_slots_spec (claude_at members) (slot_ltb members rk now) ordered)
    as (R1 & R2 & R3 & R4).
  split_and!; [done..|]. eapply StronglySorted_mono; [|exact R4].
  intros i j. apply slot_ltb_before.
Qed.

(** Cached ranks are never used past a reset.  Ranks computed at [now] are
    handed out unchanged until the earliest active five-hour reset among the
    Claude subscription accounts or for [REFRESH_INTERVAL_SECS], whichever
    comes first, and are recomputed at the next call after that. *)
Theorem ranks_refresh members now members' now' :
  let until := valid_until members now in
  (ranks (ranks None members now).2 members' now').1 =
    (if now' <? until then rank_by_five_hour_reset members now
     else rank_by_five_hour_reset members' now') ∧
  until ≤ saturating_add_i64 now REFRESH_INTERVAL_SECS ∧
  (∀ m reset, m ∈ members → is_claude_subscription m = true →
     active_five_hour_reset m now = Some reset → until ≤ reset).
Proof.
  cbn zeta. split; [cbn; by case_if|]. unfold valid_until.
  destruct (min_by Z.ltb _) as [r|] eqn:Hm.
  - apply min_by_Some in Hm as [_ Hmin]; [|apply Z_ltb_sw]. split; [lia|].
    intros m reset Hin Hc Hr. assert (Hle : (reset <? r) = false).
    { apply Hmin, list_elem_of_omap. exists m. split; [by apply list_elem_of_filter|done]. }
    bool_to_prop. lia.
  - apply min_by_None in Hm. split; [lia|]. intros m reset Hin Hc Hr. exfalso.
    apply (not_elem_of_nil (A:=Z) reset). rewrite <- Hm. apply list_elem_of_omap.
    exists m. split; [by apply list_elem_of_filter|done].
Qed.
End order.

End ResetOrder.
