(* ===== verification/Account.v ===== *)
(** * Pool accounts (crates/gateway/src/account.rs)

    The runtime state of one account: its health, the cooldowns of its quota groups
    and of single models, why it is benched, its usage snapshot and counters, and
    every operation of [AccountMember] that changes them.  Of the credential
    ([ProviderAccount]) the fields these operations read are kept: the kind, the
    name and model list of a generic provider, Claude's relay key and the disabled
    flag; [MemberFacts] are the fields no operation here changes.  Every lock makes its critical section one step; [now] arguments are the
    clock.  The instances at the end discharge what the router, the scheduler and
    the Claude ordering ask of an account. *)

From Stdlib Require Import Ascii.
From stdpp Require Import gmap strings list.
From S2P Require Import Prelude RustStr F64 Types Scheduler ClaudeResetOrder Usage ClineUsage.
Import RustStr F64 Usage.
Open Scope Z_scope.

Module Account.

Inductive ProviderKind :=
  | KCodex | KAntigravity | KClaude | KCursor | KKiro | KZcode | KVertex | KDevin | KOpenCode
  | KGeneric.

Global Instance ProviderKind_eq_dec : EqDecision ProviderKind.
Proof. solve_decision. Defined.

Inductive ProviderAccount :=
  | Codex
  | Antigravity (disabled : bool)
  | Claude (api_key : option string) (disabled : bool)
  | Cursor (disabled : bool)
  | Kiro (disabled : bool)
  | Zcode (disabled : bool)
  | Vertex (disabled : bool)
  | Devin (disabled : bool)
  | OpenCode (disabled : bool)
  | Generic (provider : string) (models : list string) (disabled : bool).

Definition as_str (k : ProviderKind) : string :=
  match k with
  | KCodex => "codex" | KAntigravity => "antigravity" | KClaude => "claude"
  | KCursor => "cursor" | KKiro => "kiro" | KZcode => "zcode" | KVertex => "google-vertex"
  | KOpenCode => "opencode" | KDevin => "devin" | KGeneric => "generic"
  end.

Definition from_type_str (value : string) : option ProviderKind :=
  if one_of value ["kimi"; "kimi-ai"; "kimi.com"; "kimi.ai"] then Some KGeneric
  else if eqs value "codex" then Some KCodex
  else if eqs value "antigravity" then Some KAntigravity
  else if one_of value ["claude"; "anthropic"] then Some KClaude
  else if eqs value "cursor" then Some KCursor
  else if eqs value "kiro" then Some KKiro
  else if eqs value "zcode" then Some KZcode
  else if one_of value ["vertex"; "google-vertex"] then Some KVertex
  else if eqs value "opencode" then Some KOpenCode
  else if eqs value "devin" then Some KDevin
  else if eqs value "meta" then Some KGeneric
  else if eqs value "generic" then Some KGeneric
  else None.

Definition account_kind (a : ProviderAccount) : ProviderKind :=
  match a with
  | Codex => KCodex | Antigravity _ => KAntigravity | Claude _ _ => KClaude
  | Cursor _ => KCursor | Kiro _ => KKiro | Zcode _ => KZcode | Vertex _ => KVertex
  | OpenCode _ => KOpenCode | Devin _ => KDevin | Generic _ _ _ => KGeneric
  end.

Definition account_relay_api_key (a : ProviderAccount) : option string :=
  match a with Claude api_key _ => api_key | _ => None end.

(** ** Quota groups *)

Definition split_date_suffix (model : string) : option string :=
  match rsplit_once "-"%char model with
  | Some (base, suffix) =>
      if (String.length suffix =? 4)%nat && all_bytes is_ascii_digit suffix then Some base else None
  | None => None
  end.

Definition model_quota_group (provider model : string) : option string :=
  if eqs provider "antigravity" then
    Some (if starts_with model "gemini-" then "gemini" else "3p")
  else if eqs provider "cline" then
    if contains model "deepseek-v4.1-flash" then Some "deepseek-v4.1-flash"
    else if contains model "gemini-3.8-flash" then Some "cline-free/gemini-3.8-flash"
    else match split_date_suffix model with Some base => Some base | None => Some model end
  else None.

Definition NUL : ascii := ascii_of_nat 0.
Definition ACCOUNT_BENCH_SCOPE : string := String NUL "account".
Definition model_bench_key (model : string) : string := String NUL ("model:" +:+ model).

Inductive BenchKind := QuotaExhausted | BenchRateLimited | OutOfCredit.

(** ** The member *)

(** What a member is loaded with: its file's name, the mailbox and account id of the
    credential, the retry overrides (of the file, and of a matching configured key)
    and the base URLs that replace the provider's own. *)
Record MemberFacts := {
  file_name : option string;
  email : option string;
  account_id : option string;
  file_retry : option Z;             (* [request_retry_override] *)
  config_retry : option (option Z);  (* [config_retry_override] *)
  upstream_override : option string;
  usage_override : option string;
}.

Definition no_facts : MemberFacts :=
  {| file_name := None; email := None; account_id := None; file_retry := None;
     config_retry := None; upstream_override := None; usage_override := None |}.

Record DiscoveredDevinModel := {
  model_uid : string;
  public_id : string;
  supports_images : bool;
}.

Record DevinAccountCatalogState := {
  catalog_models : list DiscoveredDevinModel;
  has_succeeded : bool;
}.

Record AccountMember := {
  member_id : string;
  inner : ProviderAccount;
  member_health : Health;
  group_cooldowns : gmap string Z;
  credit_benched : gmap string Z;
  bench_kinds : gmap string BenchKind;
  active_requests : Z; (* u64 *)
  last_activity : Z;
  ok_count : Z; (* u64 *)
  fail_count : Z; (* u64 *)
  unsupported_models : list string;
  usage : AccountUsage;
  cline_trackers : Cline.ClineTrackers;
  devin_catalog : option DevinAccountCatalogState;
  facts : MemberFacts;
}.

Definition for_test_with_id (i : string) (a : ProviderAccount) (now : Z) : AccountMember :=
  {| member_id := i; inner := a; member_health := Available; group_cooldowns := ∅;
     credit_benched := ∅; bench_kinds := ∅; active_requests := 0; last_activity := now;
     ok_count := 0; fail_count := 0; unsupported_models := []; usage := default_usage;
     cline_trackers := ∅; devin_catalog := None; facts := no_facts |}.

Definition set_health (m : AccountMember) (h : Health) : AccountMember :=
  {| member_id := member_id m; inner := inner m; member_health := h;
     group_cooldowns := group_cooldowns m; credit_benched := credit_benched m;
     bench_kinds := bench_kinds m; active_requests := active_requests m;
     last_activity := last_activity m; ok_count := ok_count m; fail_count := fail_count m;
     unsupported_models := unsupported_models m; usage := usage m;
     cline_trackers := cline_trackers m; devin_catalog := devin_catalog m; facts := facts m |}.

Definition with_benches (m : AccountMember) (gc cb : gmap string Z) (bk : gmap string BenchKind)
  : AccountMember :=
  {| member_id := member_id m; inner := inner m; member_health := member_health m;
     group_cooldowns := gc; credit_benched := cb; bench_kinds := bk;
     active_requests := active_requests m; last_activity := last_activity m;
     ok_count := ok_count m; fail_count := fail_count m;
     unsupported_models := unsupported_models m; usage := usage m;
     cline_trackers := cline_trackers m; devin_catalog := devin_catalog m; facts := facts m |}.

Definition with_counters (m : AccountMember) (active activity ok fail : Z) : AccountMember :=
  {| member_id := member_id m; inner := inner m; member_health := member_health m;
     group_cooldowns := group_cooldowns m; credit_benched := credit_benched m;
     bench_kinds := bench_kinds m; active_requests := active; last_activity := activity;
     ok_count := ok; fail_count := fail;
     unsupported_models := unsupported_models m; usage := usage m;
     cline_trackers := cline_trackers m; devin_catalog := devin_catalog m; facts := facts m |}.

Definition with_usage (m : AccountMember) (u : AccountUsage) : AccountMember :=
  {| member_id := member_id m; inner := inner m; member_health := member_health m;
     group_cooldowns := group_cooldowns m; credit_benched := credit_benched m;
     bench_kinds := bench_kinds m; active_requests := active_requests m;
     last_activity := last_activity m; ok_count := ok_count m; fail_count := fail_count m;
     unsupported_models := unsupported_models m; usage := u;
     cline_trackers := cline_trackers m; devin_catalog := devin_catalog m; facts := facts m |}.

Definition with_trackers (m : AccountMember) (ts : Cline.ClineTrackers) : AccountMember :=
  {| member_id := member_id m; inner := inner m; member_health := member_health m;
     group_cooldowns := group_cooldowns m; credit_benched := credit_benched m;
     bench_kinds := bench_kinds m; active_requests := active_requests m;
     last_activity := last_activity m; ok_count := ok_count m; fail_count := fail_count m;
     unsupported_models := unsupported_models m; usage := usage m; cline_trackers := ts;
     devin_catalog := devin_catalog m; facts := facts m |}.

Definition set_devin_catalog_state (m : AccountMember) (c : DevinAccountCatalogState)
  : AccountMember :=
  {| member_id := member_id m; inner := inner m; member_health := member_health m;
     group_cooldowns := group_cooldowns m; credit_benched := credit_benched m;
     bench_kinds := bench_kinds m; active_requests := active_requests m;
     last_activity := last_activity m; ok_count := ok_count m; fail_count := fail_count m;
     unsupported_models := unsupported_models m; usage := usage m;
     cline_trackers := cline_trackers m; devin_catalog := Some c; facts := facts m |}.

Definition kind (m : AccountMember) : ProviderKind := account_kind (inner m).
Definition relay_api_key (m : AccountMember) : option string := account_relay_api_key (inner m).

Definition provider_name (m : AccountMember) : string :=
  match inner m with
  | Generic provider _ _ => provider
  | account => as_str (account_kind account)
  end.

Definition is_manually_disabled (m : AccountMember) : bool :=
  if decide (member_health m = Disabled) then true else
  match inner m with
  | Codex => false
  | Antigravity d | Claude _ d | Cursor d | Kiro d | Zcode d | Vertex d | Devin d | OpenCode d
  | Generic _ _ d => d
  end.

(** *** Activity *)

Definition begin_activity (m : AccountMember) (now : Z) : AccountMember :=
  with_counters m (wrap_u64 (active_requests m + 1)) now (ok_count m) (fail_count m).

(** Dropping the [AccountActivity] guard. *)
Definition drop_activity (m : AccountMember) (now : Z) : AccountMember :=
  with_counters m (wrap_u64 (active_requests m - 1)) now (ok_count m) (fail_count m).

(** [now] is the monotonic instant, [now_ms] the wall clock. *)
Definition record_ok (m : AccountMember) (now now_ms : Z) : AccountMember :=
  let m := with_counters m (active_requests m) now (wrap_u64 (ok_count m + 1)) (fail_count m) in
  match member_health m with
  | Cooldown until_unix_ms => if until_unix_ms <=? now_ms then set_health m Available else m
  | _ => m
  end.

Definition record_fail (m : AccountMember) (now : Z) : AccountMember :=
  with_counters m (active_requests m) now (ok_count m) (wrap_u64 (fail_count m + 1)).

(** *** Usage *)

Definition usage_snapshot_at (m : AccountMember) (now_unix : Z) : AccountUsage :=
  let u := with_quota_freshness (usage m) now_unix 360 in
  if eqs (provider_name m) "cline" then expire_stale_cline_limits u now_unix else u.

(** [set_usage]: a reading that is not a poll keeps what the last poll reported. *)
Definition fill_from (slot u : AccountUsage) : AccountUsage :=
  {| plan_type := if is_some (plan_type u) then plan_type u else plan_type slot;
     active_limit := active_limit u; primary := primary u; secondary := secondary u;
     groups := if decide (groups u = []) then groups slot else groups u;
     credits_balance := credits_balance u; credits_unlimited := credits_unlimited u;
     has_credits := has_credits u; overage_limit_reached := overage_limit_reached u;
     reset_credits_available :=
       if is_some (reset_credits_available u) then reset_credits_available u
       else reset_credits_available slot;
     reset_credits := if decide (reset_credits u = []) then reset_credits slot else reset_credits u;
     observed_at_unix := observed_at_unix u; totals := totals u; windows := windows u;
     refreshed_at_unix := refreshed_at_unix slot;
     last_refresh_error :=
       if is_some (last_refresh_error u) then last_refresh_error u else last_refresh_error slot;
     refresh_status := if is_some (refresh_status u) then refresh_status u else refresh_status slot;
     model_availability :=
       if is_some (model_availability u) then model_availability u else model_availability slot |}.

Definition set_usage (m : AccountMember) (u : AccountUsage) : AccountMember :=
  with_usage m (if is_some (refreshed_at_unix u) then u else fill_from (usage m) u).

Definition update_usage_from_headers (m : AccountMember) (h : AccountUsage) : AccountMember :=
  with_usage m (apply_header_update (usage m) h).

Definition record_quota_refresh_failure_with_status (m : AccountMember) (error status : string)
  : AccountMember :=
  with_usage m (with_refresh (usage m) (Some error) (Some status)).

(** *** Health *)

Definition is_auth_failed (m : AccountMember) : bool :=
  match member_health m with AuthFailed => true | _ => false end.

Definition clear_auth_failure (m : AccountMember) : bool * AccountMember :=
  match member_health m with AuthFailed => (true, set_health m Available) | _ => (false, m) end.

Definition has_reading (u : AccountUsage) : bool :=
  existsb (λ w, is_some (used_percent w)) [primary u; secondary u].

Definition release_codex_cooldown_if_quota_free (m : AccountMember) (now_unix : Z)
  : bool * AccountMember :=
  if negb (bool_decide (kind m = KCodex)) then (false, m) else
  let u := usage_snapshot_at m now_unix in
  if negb (has_reading u) || is_codex_hard_limit_reached u
     || is_codex_included_quota_exhausted u None now_unix
  then (false, m)
  else match member_health m with
       | Cooldown _ => (true, set_health m Available)
       | _ => (false, m)
       end.

(** *** Benches *)

Definition mark_model_unsupported (m : AccountMember) (model : string) : AccountMember :=
  if existsb (eqs model) (unsupported_models m) then m else
  {| member_id := member_id m; inner := inner m; member_health := member_health m;
     group_cooldowns := group_cooldowns m; credit_benched := credit_benched m;
     bench_kinds := bench_kinds m; active_requests := active_requests m;
     last_activity := last_activity m; ok_count := ok_count m; fail_count := fail_count m;
     unsupported_models := unsupported_models m ++ [model]; usage := usage m;
     cline_trackers := cline_trackers m; devin_catalog := devin_catalog m; facts := facts m |}.

Definition quota_group_for (m : AccountMember) (model : string) : option string :=
  model_quota_group (provider_name m) model.

(** [entry(k).or_insert(t)] and then the later of the two. *)
Definition bench (k : string) (t : Z) (benches : gmap string Z) : gmap string Z :=
  <[k := Z.max (default t (benches !! k)) t]> benches.

Definition earliest_group_cooldown_ms (m : AccountMember) (now_ms : Z) : option Z :=
  min_by Z.ltb (filter (λ deadline, now_ms < deadline) (btree_values (group_cooldowns m))).

Definition set_group_cooldown (m : AccountMember) (model : string) (until_unix_ms : Z)
  : bool * AccountMember :=
  match quota_group_for m model with
  | None => (false, m)
  | Some group =>
      (true, with_benches m (bench group until_unix_ms (group_cooldowns m)) (credit_benched m)
               (bench_kinds m))
  end.

Definition set_model_cooldown (m : AccountMember) (model : string) (until_unix_ms : Z)
  : AccountMember :=
  with_benches m (bench (model_bench_key model) until_unix_ms (group_cooldowns m))
    (credit_benched m) (bench_kinds m).

Definition benched (benches : gmap string Z) (k : string) (now_unix_ms : Z) : bool :=
  match benches !! k with Some until => now_unix_ms <? until | None => false end.

Definition group_available (m : AccountMember) (model : string) (now_unix_ms : Z) : bool :=
  if benched (group_cooldowns m) (model_bench_key model) now_unix_ms then false else
  match quota_group_for m model with
  | None => true
  | Some group => match group_cooldowns m !! group with
                  | None => true
                  | Some until => until <=? now_unix_ms
                  end
  end.

Definition group_reset_at_unix (m : AccountMember) (model : string) : option Z :=
  group ← quota_group_for m model;
  (λ until_ms, Z.quot until_ms 1000) <$> group_cooldowns m !! group.

Definition set_group_credit_bench (m : AccountMember) (model : string) (until_unix_ms : Z)
  : AccountMember :=
  match quota_group_for m model with
  | None => m
  | Some group =>
      with_benches m (group_cooldowns m) (bench group until_unix_ms (credit_benched m))
        (bench_kinds m)
  end.

Definition group_credit_benched (m : AccountMember) (model : string) (now_unix_ms : Z) : bool :=
  match quota_group_for m model with
  | None => false
  | Some group => benched (credit_benched m) group now_unix_ms
  end.

Definition set_group_bench_kind (m : AccountMember) (model : string) (k : BenchKind)
  : bool * AccountMember :=
  match quota_group_for m model with
  | None => (false, m)
  | Some group =>
      (true, with_benches m (group_cooldowns m) (credit_benched m) (<[group := k]> (bench_kinds m)))
  end.

Definition set_account_bench_kind (m : AccountMember) (k : BenchKind) : AccountMember :=
  with_benches m (group_cooldowns m) (credit_benched m) (<[ACCOUNT_BENCH_SCOPE := k]> (bench_kinds m)).

Definition account_bench_kind (m : AccountMember) (now_unix_ms : Z) : option BenchKind :=
  match member_health m with
  | Cooldown until => if now_unix_ms <? until then bench_kinds m !! ACCOUNT_BENCH_SCOPE else None
  | _ => None
  end.

Definition bench_kind_for_model (m : AccountMember) (model : string) (now_unix_ms : Z)
  : option BenchKind :=
  match quota_group_for m model with
  | Some group =>
      if benched (group_cooldowns m) group now_unix_ms then bench_kinds m !! group
      else account_bench_kind m now_unix_ms
  | None => account_bench_kind m now_unix_ms
  end.

(** ** Interfaces *)

Global Instance AccountMember_pool : PoolMember AccountMember := {
  id := member_id;
  health := member_health;
  reset_at_unix := λ m,
    match member_health m with Cooldown until => Some (Z.quot until 1000) | _ => None end;
  weight := λ _, 1;
}.

(** What the scheduler and the Claude ordering read of a window. *)
Definition report (w : QuotaWindow) : Scheduler.UsageWindow :=
  {| Scheduler.used_percent := used_percent w; Scheduler.window_reset := window_reset_at w |}.

(** The windows of [usage_snapshot]; freshness and the expiry of Cline limits leave
    both windows as they are. *)
Global Instance AccountMember_usage : Scheduler.UsageReport AccountMember := {
  Scheduler.primary := λ m, report (primary (usage m));
  Scheduler.secondary := λ m, report (secondary (usage m));
}.

Global Instance AccountMember_claude : ResetOrder.ClaudeAccount AccountMember := {
  ResetOrder.is_claude_kind := λ m, bool_decide (kind m = KClaude);
  ResetOrder.relay_api_key := relay_api_key;
}.

(** The snapshot the code reads has the windows the instance reports. *)
Lemma usage_snapshot_windows m now :
  primary (usage_snapshot_at m now) = primary (usage m) ∧
  secondary (usage_snapshot_at m now) = secondary (usage m).
Proof. unfold usage_snapshot_at, with_quota_freshness. by repeat case_if. Qed.

End Account.
