(* ===== verification/AccountProps.v ===== *)
(** * Properties of pool accounts

    The cooldown tables refine the history of benches; health only recovers the way
    the code intends; the recorded cause of a bench is only reported while the bench
    lasts; dated spellings of a model share a quota group; and an account an
    operator disabled is never routed to. *)

From Stdlib Require Import Ascii.
From stdpp Require Import gmap strings list.
From S2P Require Import Prelude RustStr Types Router RouterProps Usage Account.
Import RustStr Usage Account AccountRouter.
Open Scope Z_scope.

(** ** Runs *)

Inductive AccountOp :=
  | AGroupCooldown (model : string) (until : Z)
  | AModelCooldown (model : string) (until : Z)
  | ACreditBench (model : string) (until : Z)
  | AGroupKind (model : string) (k : BenchKind)
  | AAccountKind (k : BenchKind)
  | AUnsupported (model : string)
  | AHealth (h : Health)
  | AOk (now now_ms : Z)
  | AFail (now : Z)
  | AClearAuth
  | ARelease (now_unix : Z)
  | AUsage (u : AccountUsage)
  | AHeaders (u : AccountUsage)
  | ARefreshFailure (error status : string)
  | ABegin (now : Z)
  | AEnd (now : Z).

Definition run_account (m : AccountMember) (op : AccountOp) : AccountMember :=
  match op with
  | AGroupCooldown model t => (set_group_cooldown m model t).2
  | AModelCooldown model t => set_model_cooldown m model t
  | ACreditBench model t => set_group_credit_bench m model t
  | AGroupKind model k => (set_group_bench_kind m model k).2
  | AAccountKind k => set_account_bench_kind m k
  | AUnsupported model => mark_model_unsupported m model
  | AHealth h => set_health m h
  | AOk now now_ms => record_ok m now now_ms
  | AFail now => record_fail m now
  | AClearAuth => (clear_auth_failure m).2
  | ARelease now => (release_codex_cooldown_if_quota_free m now).2
  | AUsage u => set_usage m u
  | AHeaders u => update_usage_from_headers m u
  | ARefreshFailure e s => record_quota_refresh_failure_with_status m e s
  | ABegin now => begin_activity m now
  | AEnd now => drop_activity m now
  end.

(** The entry a call makes in the cooldown table. *)
Definition bench_of (provider : string) (op : AccountOp) : option (string * Z) :=
  match op with
  | AGroupCooldown model t => (λ g, (g, t)) <$> model_quota_group provider model
  | AModelCooldown model t => Some (model_bench_key model, t)
  | _ => None
  end.

Lemma run_account_frame m op :
  inner (run_account m op) = inner m ∧
  group_cooldowns (run_account m op) =
    match bench_of (provider_name m) op with
    | Some (k, t) => bench k t (group_cooldowns m)
    | None => group_cooldowns m
    end.
Proof.
  destruct op; cbn; try done; unfold set_group_cooldown, set_group_credit_bench,
    set_group_bench_kind, mark_model_unsupported, record_ok, clear_auth_failure,
    release_codex_cooldown_if_quota_free, quota_group_for;
    try (destruct (model_quota_group _ _); done);
    try (destruct (member_health _); repeat case_if; done); by repeat case_if.
Qed.

Lemma run_account_provider m op : provider_name (run_account m op) = provider_name m.
Proof. unfold provider_name. by rewrite (proj1 (run_account_frame m op)). Qed.

Lemma bench_le benches k t k' now :
  (∀ u, bench k t benches !! k' = Some u → u ≤ now) ↔
  (k' = k → t ≤ now) ∧ (∀ u, benches !! k' = Some u → u ≤ now).
Proof.
  unfold bench. destruct (decide (k = k')) as [<-|Hne].
  - rewrite lookup_insert_eq. destruct (benches !! k) as [v|]; cbn; split.
    + intros H. specialize (H _ eq_refl). split; [lia|]. intros u [= <-]. lia.
    + intros [H1 H2] u [= <-]. specialize (H1 eq_refl). specialize (H2 _ eq_refl). lia.
    + intros H. specialize (H _ eq_refl). split; [lia|done].
    + intros [H1 _] u [= <-]. specialize (H1 eq_refl). lia.
  - rewrite lookup_insert_ne by done. naive_solver.
Qed.

(** The table after a run holds, for each key, the latest deadline set for it. *)
Lemma run_cooldowns ops : ∀ m k now,
  (∀ u, group_cooldowns (foldl run_account m ops) !! k = Some u → u ≤ now) ↔
  (∀ u, group_cooldowns m !! k = Some u → u ≤ now) ∧
  (∀ op t, op ∈ ops → bench_of (provider_name m) op = Some (k, t) → t ≤ now).
Proof.
  induction ops as [|op ops IH]; intros m k now; cbn [foldl].
  - split; [|naive_solver]. intros H. split; [done|]. intros op t Hop. by apply elem_of_nil in Hop.
  - rewrite IH, run_account_provider, (proj2 (run_account_frame m op)).
    destruct (bench_of (provider_name m) op) as [[k' t']|] eqn:Hb.
    + rewrite bench_le. split.
      * intros [[H1 H2] H3]. split; [done|]. intros op' t [->|Hop]%elem_of_cons E; [|by eapply H3].
        rewrite Hb in E. injection E as -> ->. by apply H1.
      * intros [H1 H2]. split_and!; [|done|].
        -- intros ->. apply (H2 op); [left|done].
        -- intros op' t Hop. apply H2. by right.
    + split.
      * intros [H1 H2]. split; [done|]. intros op' t [->|Hop]%elem_of_cons E; [congruence|by eapply H2].
      * intros [H1 H2]. split; [done|]. intros op' t Hop. apply H2. by right.
Qed.

(** ** Benches are exactly the history *)

(** Model names do not start with NUL. *)
Definition plain (s : string) : Prop := match s with String a _ => a ≠ NUL | EmptyString => True end.

Lemma split_date_plain s base : split_date_suffix s = Some base → plain s → plain base.
Proof.
  unfold split_date_suffix. destruct (rsplit_once "-" s) as [[l r]|] eqn:E; [|done].
  apply rsplit_once_Some in E as ->. case_if; [|done]. intros [= ->]. by destruct base.
Qed.

Lemma group_plain provider model g : model_quota_group provider model = Some g → plain model → plain g.
Proof.
  unfold model_quota_group. intros E Hp. repeat case_if; simplify_eq; try done.
  destruct (split_date_suffix model) as [base|] eqn:Hs; simplify_eq; [|done].
  by eapply split_date_plain.
Qed.

Lemma model_bench_key_inj s s' : model_bench_key s = model_bench_key s' → s = s'.
Proof. unfold model_bench_key. intros E. injection E as E. exact E. Qed.

Definition plain_op (op : AccountOp) : Prop :=
  match op with AGroupCooldown model _ => plain model | _ => True end.

Lemma group_available_iff m model now :
  group_available m model now = true ↔
  (∀ u, group_cooldowns m !! model_bench_key model = Some u → u ≤ now) ∧
  (∀ g, quota_group_for m model = Some g → ∀ u, group_cooldowns m !! g = Some u → u ≤ now).
Proof.
  unfold group_available, benched.
  destruct (group_cooldowns m !! model_bench_key model) as [u|]; [destruct (Z.ltb_spec now u)|].
  - split; [done|]. intros [H1 _]. specialize (H1 _ eq_refl). lia.
  - destruct (quota_group_for m model) as [g|]; [destruct (group_cooldowns m !! g) as [v|] eqn:E|].
    + rewrite Z.leb_le. split; [intros; split; [intros ? [= <-]; lia|]|].
      * intros g' [= <-] u' Hu'. rewrite E in Hu'. by injection Hu' as <-.
      * intros [_ H2]. by eapply H2.
    + split; [|done]. intros _. split; [intros ? [= <-]; lia|]. intros g' [= <-] u'. by rewrite E.
    + split; [|done]. intros _. split; [intros ? [= <-]; lia|done].
  - destruct (quota_group_for m model) as [g|]; [destruct (group_cooldowns m !! g) as [v|] eqn:E|].
    + rewrite Z.leb_le. split; [intros; split; [done|]|].
      * intros g' [= <-] u' Hu'. rewrite E in Hu'. by injection Hu' as <-.
      * intros [_ H2]. by eapply H2.
    + split; [|done]. intros _. split; [done|]. intros g' [= <-] u'. by rewrite E.
    + split; [|done]. by intros _.
Qed.

(** Benches are exact and isolated.  Starting with no cooldowns, after any
    sequence of calls an account may serve a model if and only if every deadline
    set for that very model, and every deadline set for a model of the same quota
    group, has passed.  A repeated rate limit never shortens a bench, and a rate
    limit on one group says nothing about the others. *)
Theorem bench_history m ops model now :
  group_cooldowns m = ∅ → plain model → Forall plain_op ops →
  group_available (foldl run_account m ops) model now = true ↔
  (∀ t, AModelCooldown model t ∈ ops → t ≤ now) ∧
  (∀ model' t g, AGroupCooldown model' t ∈ ops → quota_group_for m model = Some g →
                 quota_group_for m model' = Some g → t ≤ now).
Proof.
  intros He Hp Hops. rewrite group_available_iff. unfold quota_group_for.
  assert (Hprov : provider_name (foldl run_account m ops) = provider_name m).
  { clear. revert m. induction ops as [|op ops IH]; intros m; cbn; [done|].
    by rewrite IH, run_account_provider. }
  rewrite Hprov. setoid_rewrite run_cooldowns. rewrite He.
  rewrite list.Forall_forall in Hops. split.
  - intros [[_ H1] H2]. split.
    + intros t Hin. by apply (H1 (AModelCooldown model t)).
    + intros model' t g Hin Hg Hg'. destruct (H2 g Hg) as [_ H3].
      apply (H3 (AGroupCooldown model' t)); [done|]. cbn. by rewrite Hg'.
  - intros [H1 H2]. split; [split; [by intros u ?%lookup_empty_Some|]|].
    + intros op t Hin. specialize (Hops op Hin). destruct op; cbn; try done.
      * destruct (model_quota_group _ model0) as [g|] eqn:Hg; cbn; [|done]. intros [= -> ->].
        by apply (group_plain _ _ _ Hg) in Hops.
      * intros E. assert (until = t) as -> by congruence.
        assert (model0 = model) as -> by (apply model_bench_key_inj; congruence). by apply H1.
    + intros g Hg. split; [by intros u ?%lookup_empty_Some|].
      intros op t Hin. destruct op; cbn; try done.
      * destruct (model_quota_group _ model0) as [g'|] eqn:Hg'; cbn; [|done].
        intros [= -> ->]. by eapply H2.
      * intros E. assert (g = model_bench_key model0) as -> by congruence.
        by apply (group_plain _ _ _ Hg) in Hp.
Qed.

(** ** Health *)

Definition recovers (m : AccountMember) (op : AccountOp) : Prop :=
  match member_health m, op with
  | Cooldown until, AOk _ now_ms => until ≤ now_ms
  | Cooldown _, ARelease now =>
      kind m = KCodex ∧ has_reading (usage_snapshot_at m now) = true ∧
      is_codex_hard_limit_reached (usage_snapshot_at m now) = false ∧
      flat_window_exhausted (usage_snapshot_at m now) now = false
  | AuthFailed, AClearAuth => True
  | _, _ => False
  end.

Lemma codex_none_flat u now :
  is_codex_included_quota_exhausted u None now = flat_window_exhausted u now.
Proof. unfold is_codex_included_quota_exhausted. by destruct (flat_window_exhausted u now). Qed.

Lemma run_health m op :
  (∃ h, op = AHealth h) ∨ member_health (run_account m op) = member_health m ∨
  (recovers m op ∧ member_health (run_account m op) = Available).
Proof.
  destruct op; cbn; try (by right; left); [| | | |left; eauto| | |]; right.
  - unfold set_group_cooldown. left. by destruct (quota_group_for m model).
  - unfold set_group_credit_bench. left. by destruct (quota_group_for m model).
  - unfold set_group_bench_kind. left. by destruct (quota_group_for m model).
  - unfold mark_model_unsupported. left. by case_if.
  - unfold record_ok, recovers. cbn. destruct (member_health m) eqn:E; cbn; try (left; exact E).
    case_if; cbn; [right|left; exact E]. bool_to_prop. done.
  - unfold clear_auth_failure, recovers.
    destruct (member_health m) eqn:E; cbn; first [by right|left; exact E].
  - unfold release_codex_cooldown_if_quota_free, recovers. rewrite codex_none_flat.
    case_if; [by left|]. case_if; [by left|]. bool_to_prop.
    destruct (member_health m) eqn:E; cbn; first [by right|left; exact E].
Qed.

(** Health changes only for a reason.  A call other than [set_health] leaves the
    health of an account alone, or makes it available in exactly these cases: a
    success recorded after a cooldown had expired, a Codex cooldown lifted by a
    usage poll that shows quota left, and an authentication failure cleared by a
    successful refresh.  In particular a disabled account stays disabled. *)
Theorem health_transitions m op :
  (∀ h, op ≠ AHealth h) → member_health (run_account m op) ≠ member_health m →
  recovers m op ∧ member_health (run_account m op) = Available.
Proof. intros Hop Hne. destruct (run_health m op) as [[h ->]|[?|?]]; naive_solver. Qed.

Lemma disabled_run m ops :
  member_health m = Disabled → Forall (λ op, ∀ h, op ≠ AHealth h) ops →
  member_health (foldl run_account m ops) = Disabled.
Proof.
  intros Hd Hops. revert m Hd. induction Hops as [|op ops Hop _ IH]; intros m Hd; cbn; [done|].
  apply IH. destruct (run_health m op) as [[h ->]|[E|[Hr _]]]; [naive_solver|congruence|].
  unfold recovers in Hr. by rewrite Hd in Hr.
Qed.

(** The router respects the operator.  Whatever happens to the accounts of a pool
    - successes, failures, refreshes, polls, cooldowns - short of an explicit health
    change, an account that was disabled is never the one [select] returns, for any
    strategy, session and router state. *)
Theorem disabled_never_selected strat st ms ops hint now i m :
  ms !! i = Some m → member_health m = Disabled → Forall (λ op, ∀ h, op ≠ AHealth h) ops →
  (select_state strat st (<[i := foldl run_account m ops]> ms) hint now).1 ≠ Some i.
Proof.
  intros Hi Hd Hops Hsel. apply select_available in Hsel as (m' & Hm' & Ha).
  rewrite list_lookup_insert_eq in Hm' by (by eapply lookup_lt_Some). injection Hm' as <-.
  change (health (foldl run_account m ops)) with (member_health (foldl run_account m ops)) in Ha.
  by rewrite disabled_run in Ha.
Qed.

(** ** Causes *)

Lemma benched_unavailable m model g now :
  quota_group_for m model = Some g → benched (group_cooldowns m) g now = true →
  group_available m model now = false.
Proof.
  intros Hg Hb. unfold group_available. case_if; [done|]. rewrite Hg. unfold benched in Hb.
  destruct (group_cooldowns m !! g); [|done]. bool_to_prop. apply Z.leb_gt. lia.
Qed.

(** A reported cause is a current one.  [bench_kind_for_model] names a cause only
    while the account really cannot serve the model - its quota group is benched,
    or the whole account is in a cooldown that has not ended. *)
Theorem bench_kind_sound m model now k :
  bench_kind_for_model m model now = Some k →
  group_available m model now = false ∨ is_available (member_health m) now = false.
Proof.
  unfold bench_kind_for_model. intros E.
  assert (Hacc : account_bench_kind m now = Some k → is_available (member_health m) now = false).
  { unfold account_bench_kind. destruct (member_health m); try done. case_if; [|done].
    intros _. cbn. bool_to_prop. apply Z.leb_gt. lia. }
  destruct (quota_group_for m model) as [g|] eqn:Hg; [|by right; apply Hacc].
  case_if; [left; by eapply benched_unavailable|right; by apply Hacc].
Qed.

(** ** Dated model names *)

Definition date_suffix (s : string) : Prop :=
  String.length s = 4%nat ∧ all_bytes is_ascii_digit s = true.

Lemma all_bytes_elem p s a : all_bytes p s = true → a ∈ chars s → p a = true.
Proof.
  induction s as [|b s IH]; cbn; [intros _ Ha; by apply elem_of_nil in Ha|].
  intros [Hb Hs]%andb_true_iff [->|Ha]%elem_of_cons; auto.
Qed.

Lemma digit_not_dash a : is_ascii_digit a = true → negb (bool_decide (a = "-"%char)) = true.
Proof. intros Ha. apply negb_true_iff, bool_decide_eq_false. by intros ->. Qed.

Lemma split_date_app s d : date_suffix d → split_date_suffix (s +:+ "-" +:+ d) = Some s.
Proof.
  intros [Hl Hd]. unfold split_date_suffix.
  change ("-" +:+ d) with (String "-" d). rewrite rsplit_once_app.
  - by rewrite Hl, Hd.
  - by eapply all_bytes_impl; [apply digit_not_dash|].
Qed.

Lemma dated_no_h d : date_suffix d → "h"%char ∉ chars ("-" +:+ d).
Proof.
  intros [_ Hd]. change (chars ("-" +:+ d)) with ("-"%char :: chars d).
  intros [E|Hin]%elem_of_cons; [done|]. by apply (all_bytes_elem _ _ _ Hd) in Hin.
Qed.

(** A dated spelling of a model bills the same quota group.  Cline answers a rate
    limit with the dated id of the model the client asked for; both resolve to one
    group, so the bench lands where routing looks. *)
Theorem dated_spelling_shares_group model d :
  split_date_suffix model = None → date_suffix d →
  model_quota_group "cline" (model +:+ "-" +:+ d) = model_quota_group "cline" model.
Proof.
  intros Hs Hd. unfold model_quota_group. cbn [eqs].
  change "deepseek-v4.1-flash" with ("deepseek-v4.1-flas" +:+ String "h" "").
  change "gemini-3.8-flash" with ("gemini-3.8-flas" +:+ String "h" "").
  rewrite !contains_app_r by (by apply dated_no_h). by rewrite split_date_app, Hs.
Qed.

(** ** Witnesses *)

Definition antigravity_account : AccountMember := for_test_with_id "acc" (Antigravity false) 0.

Lemma bench_history_witness :
  let ops := [AGroupCooldown "gemini-3-pro" 500; AGroupCooldown "gemini-3-flash" 300;
              AModelCooldown "claude-x" 700] in
  group_available (foldl run_account antigravity_account ops) "gemini-3-pro" 400 = false ∧
  group_available (foldl run_account antigravity_account ops) "gpt-oss" 400 = true.
Proof.
  cbn zeta. split.
  - apply not_true_is_false. rewrite (bench_history antigravity_account);
      [|reflexivity|discriminate|repeat constructor; discriminate].
    intros [_ H]. specialize (H "gemini-3-pro" 500 "gemini"). revert H. vm_compute. intros H.
    assert (Hin : AGroupCooldown "gemini-3-pro" 500 ∈
      [AGroupCooldown "gemini-3-pro" 500; AGroupCooldown "gemini-3-flash" 300;
       AModelCooldown "claude-x" 700]) by left.
    by apply (H Hin eq_refl eq_refl).
  - rewrite (bench_history antigravity_account);
      [|reflexivity|discriminate|repeat constructor; discriminate].
    split; [intros t|intros model' t g]; rewrite !elem_of_cons, elem_of_nil; [naive_solver|].
    intros [E|[E|[E|[]]]]; [injection E as -> ->..|discriminate E]; vm_compute; congruence.
Defined.

Lemma health_transitions_witness :
  let m := set_health (for_test_with_id "acc" Codex 0) (Cooldown 100) in
  recovers m (AOk 7 100) ∧ member_health (run_account m (AOk 7 100)) = Available.
Proof. apply health_transitions; discriminate. Defined.

Lemma disabled_never_selected_witness :
  let m := set_health (for_test_with_id "acc" Codex 0) Disabled in
  (select_state StrictRoundRobin default_state
     (<[0%nat := foldl run_account m [AOk 1 1; AClearAuth; ARelease 5]]> [m]) default_hint 0).1
  ≠ Some 0%nat.
Proof.
  intros m. apply (disabled_never_selected _ _ [m] _ _ _ 0 m); [reflexivity..|].
  repeat constructor; discriminate.
Defined.

Lemma bench_kind_sound_witness :
  let m := run_account (run_account antigravity_account (AGroupCooldown "gpt-oss" 100))
             (AGroupKind "gpt-oss" QuotaExhausted) in
  group_available m "gpt-oss" 50 = false ∨ is_available (member_health m) 50 = false.
Proof. intros m. apply (bench_kind_sound m "gpt-oss" 50 QuotaExhausted). vm_compute. reflexivity. Defined.

Lemma dated_spelling_witness :
  model_quota_group "cline" ("deepseek/deepseek-v4-flash" +:+ "-" +:+ "0731") =
  model_quota_group "cline" "deepseek/deepseek-v4-flash".
Proof.
  apply dated_spelling_shares_group; [vm_compute; reflexivity|]. split; vm_compute; reflexivity.
Defined.
