(* ===== verification/AccountModels.v ===== *)
(** * Which models an account serves (crates/gateway/src/account.rs, runtime_state.rs)

    The model rules of a provider kind and of one account, the Claude relay test,
    and the permissions a pool snapshot captures of every account.  [url_host] is the
    [url] crate's host of an URL that parses; [embedded] the catalog compiled into the
    binary. *)

From Stdlib Require Import Ascii.
From stdpp Require Import gmap strings list.
From S2P Require Import Prelude RustStr RegistryTypes RegistrySnapshot Types Usage Account.
Import RustStr Usage Account.
Open Scope Z_scope.

Module Models.

Definition contribution_supports (snapshot : Snapshot.RegistrySnapshot) (provider model : string)
  : bool :=
  Registry.supports_model (Snapshot.contribution_for_provider snapshot provider) model.

(** [strip_prefix(a).or_else(|| strip_prefix(b))]. *)
Definition strip_either (a b model : string) : option string :=
  match strip_prefix a model with Some r => Some r | None => strip_prefix b model end.

Definition strip_claude_route_prefix (model : string) : string :=
  match strip_either "anthropic-" "anthropic/" model with
  | Some r => r
  | None => default model (strip_either "nekos-" "nekos/" model)
  end.

Definition serves_model_in (k : ProviderKind) (snapshot : Snapshot.RegistrySnapshot)
    (model : string) : bool :=
  match k with
  | KCodex =>
      negb (contribution_supports snapshot "antigravity" model)
      && negb (contribution_supports snapshot "claude" model)
      && negb (contribution_supports snapshot "zcode" model)
      && negb (starts_with model "cursor-") && negb (starts_with model "cursor/")
      && negb (starts_with model "kiro/")
      && negb (starts_with model "anthropic-") && negb (starts_with model "anthropic/")
      && negb (starts_with model "nekos-") && negb (starts_with model "nekos/")
      && negb (eqs model "auto-kiro")
      && negb (contribution_supports snapshot "vertex" model)
      && negb (starts_with model "devin-") && negb (starts_with model "devin/")
      && negb (eqs model "devin")
  | KAntigravity => contribution_supports snapshot "antigravity" model
  | KClaude => contribution_supports snapshot "claude" (strip_claude_route_prefix model)
  | KCursor => starts_with model "cursor/" || contribution_supports snapshot "cursor" model
  | KKiro =>
      eqs model "auto-kiro"
      || match strip_prefix "kiro/" model with
         | Some stripped => contribution_supports snapshot "kiro" stripped
         | None => false
         end
  | KZcode => contribution_supports snapshot "zcode" model
  | KVertex => contribution_supports snapshot "vertex" model
  | KOpenCode => true
  | KDevin => false
  | KGeneric => true
  end.

Definition generic_models (m : AccountMember) : option (string * list string) :=
  match inner m with Generic provider models _ => Some (provider, models) | _ => None end.

Definition request_retry_override (m : AccountMember) : option Z :=
  default (file_retry (facts m)) (config_retry (facts m)).

Definition names (l : list string) (model : string) : bool := existsb (eqs model) l.

(** Any of the three names a request goes by. *)
Definition names_any (l : list string) (requested canonical upstream : string) : bool :=
  existsb (λ x, eqs x requested || eqs x canonical || eqs x upstream) l.

(** *** Devin *)

Definition devin_models (m : AccountMember) : option (list string) :=
  if negb (bool_decide (kind m = KDevin)) then None
  else if is_manually_disabled m then Some []
  else match devin_catalog m with
       | Some c => if has_succeeded c then Some (public_id <$> catalog_models c) else None
       | None => None
       end.

Definition supports_devin_model (m : AccountMember) (requested canonical upstream : string) : bool :=
  if negb (bool_decide (kind m = KDevin)) || is_manually_disabled m then false
  else if names_any (unsupported_models m) requested canonical upstream then false
  else match devin_catalog m with
       | Some c =>
           existsb (λ d, eqs (public_id d) requested || eqs (public_id d) canonical
                         || eqs (model_uid d) upstream || eqs (model_uid d) requested)
             (catalog_models c)
       | None => false
       end.

Definition devin_upstream_model_uid (m : AccountMember) (model : string) : option string :=
  if negb (bool_decide (kind m = KDevin)) then None
  else match devin_catalog m with
       | Some c =>
           Registry.find_map (λ d, if eqs (public_id d) model || eqs (model_uid d) model
                                   then Some (model_uid d) else None) (catalog_models c)
       | None => None
       end.

Definition devin_model_supports_vision (m : AccountMember) (model : string) : bool :=
  bool_decide (kind m = KDevin)
  && match devin_catalog m with
     | Some c => existsb (λ d, (eqs (public_id d) model || eqs (model_uid d) model)
                               && supports_images d) (catalog_models c)
     | None => false
     end.

Definition devin_canonical (model : string) : string :=
  if starts_with model "devin/" then model else "devin/" +:+ model.
Definition devin_upstream (model : string) : string := default model (strip_prefix "devin/" model).

(** *** Antigravity *)

Definition antigravity_discovered_models (m : AccountMember)
  : option (gmap string ModelAvailability) :=
  if negb (bool_decide (kind m = KAntigravity)) then None
  else if is_manually_disabled m then Some ∅
  else model_availability (usage m).

Definition discovered_available (discovered : gmap string ModelAvailability) (model : string)
  : option bool :=
  d ← discovered !! model; available d.

Section models.
Context (url_host : string → option string) (embedded : Snapshot.RegistrySnapshot).

Definition is_antigravity_model (model : string) : bool :=
  contribution_supports embedded "antigravity" model.

Definition supports_antigravity_model (m : AccountMember) (model : string) : bool :=
  if negb (bool_decide (kind m = KAntigravity)) || is_manually_disabled m then false
  else if names (unsupported_models m) model then false
  else
    let stripped := default model (strip_prefix "antigravity/" model) in
    match model_availability (usage m) with
    | Some discovered =>
        default false (discovered_available discovered model)
        || default false (discovered_available discovered stripped)
    | None => is_antigravity_model model || is_antigravity_model stripped
    end.

(** *** The Claude relay *)

Definition relay_host (target : string) : bool :=
  match url_host target with
  | Some host => existsb (λ label, one_of label ["nekos"; "ccapi"]) (split "."%char host)
  | None => false
  end.

Definition is_nekos_relay (m : AccountMember) : bool :=
  is_some (relay_api_key m)
  && existsb relay_host
       (option_list (upstream_override (facts m)) ++ option_list (usage_override (facts m))).

(** *** Any model *)

Definition supports_model_in (m : AccountMember) (snapshot : Snapshot.RegistrySnapshot)
    (model : string) : bool :=
  let declared :=
    match inner m with
    | Generic provider models _ =>
        if eqs provider "xai" then names models model
        else bool_decide (models = []) || names models model
    | Devin _ => supports_devin_model m model (devin_canonical model) (devin_upstream model)
    | Claude _ _ =>
        let bound := contribution_supports snapshot "claude" (strip_claude_route_prefix model) in
        if starts_with model "anthropic-" || starts_with model "anthropic/"
        then negb (is_nekos_relay m) && bound
        else if starts_with model "nekos-" || starts_with model "nekos/"
        then is_nekos_relay m && bound
        else bound
    | Antigravity _ => supports_antigravity_model m model
    | account => serves_model_in (account_kind account) snapshot model
    end in
  declared && negb (names (unsupported_models m) model).

Definition supports_model (m : AccountMember) (model : string) : bool :=
  supports_model_in m embedded model.

(** ** The pool snapshot (runtime_state.rs) *)

Record AccountSnapshotPermissions := {
  provider_kind : ProviderKind;
  disabled : bool;
  perm_devin_models : option (list string);
  antigravity_models : option (gmap string ModelAvailability);
  perm_unsupported : list string;
}.

Record PoolSnapshot := {
  members : list AccountMember;
  registry : Snapshot.RegistrySnapshot;
  permissions : gmap string AccountSnapshotPermissions;
}.

Definition perm_supports_devin (p : AccountSnapshotPermissions)
    (requested canonical upstream : string) : bool :=
  if negb (bool_decide (provider_kind p = KDevin)) || disabled p then false
  else if names_any (perm_unsupported p) requested canonical upstream then false
  else match perm_devin_models p with
       | Some models =>
           existsb (λ x, eqs x requested || eqs x canonical || eqs x upstream
                         || eqs (devin_upstream x) upstream) models
       | None => false
       end.

Definition perm_supports_antigravity (p : AccountSnapshotPermissions)
    (requested canonical upstream : string) : bool :=
  if negb (bool_decide (provider_kind p = KAntigravity)) || disabled p then false
  else if names_any (perm_unsupported p) requested canonical upstream then false
  else match antigravity_models p with
       | Some discovered => bool_decide (discovered_available discovered upstream = Some true)
       | None => is_antigravity_model upstream
       end.

Definition permissions_of (m : AccountMember) : AccountSnapshotPermissions :=
  {| provider_kind := kind m; disabled := is_manually_disabled m;
     perm_devin_models := devin_models m;
     antigravity_models := antigravity_discovered_models m;
     perm_unsupported := unsupported_models m |}.

(** [PoolSnapshot::new]: the permissions are captured when the snapshot is built. *)
Definition new_snapshot (ms : list AccountMember) (reg : Snapshot.RegistrySnapshot)
  : PoolSnapshot :=
  {| members := ms; registry := reg;
     permissions := foldl (λ (ps : gmap string AccountSnapshotPermissions) m,
                             <[member_id m := permissions_of m]> ps) ∅ ms |}.

Definition account_permissions (pool : PoolSnapshot) (i : string)
  : option AccountSnapshotPermissions := permissions pool !! i.

Definition is_devin_model_eligible (pool : PoolSnapshot) (i model : string) : bool :=
  match permissions pool !! i with
  | Some p => perm_supports_devin p model (devin_canonical model) (devin_upstream model)
  | None => false
  end.

Definition is_antigravity_model_eligible (pool : PoolSnapshot) (i model : string) : bool :=
  let stripped := default model (strip_prefix "antigravity/" model) in
  match permissions pool !! i with
  | Some p => perm_supports_antigravity p model stripped stripped
  | None => false
  end.

Definition find_member (pool : PoolSnapshot) (i : string) : option AccountMember :=
  List.find (λ m, eqs (member_id m) i) (members pool).
End models.

End Models.
