(* ===== verification/Sha256.v ===== *)
(** * Key identifiers (crates/gateway/src/request_history.rs, lines 2065-2157)

    The gateway's own SHA-256 and the hexadecimal identifier it makes of an inbound key.
    Words are 32-bit values of [Z], the message schedule is an array updated in place.

    [Fips] states the algorithm as the standard does - constants from roots of primes, arithmetic rotations, closed-form
    padding, the schedule as a recurrence - and [sha256_fips] is the equality of the two. *)

From Stdlib Require Import Ascii Zify ZifyNat.
From stdpp Require Import numbers strings list.
From Equations Require Import Equations.
From S2P Require Import Prelude RustStr.
Import RustStr.
Open Scope Z_scope.

Module Sha256.

(** ** Machine words *)

Definition wrapping_add (a b : Z) : Z := (a + b) mod 2 ^ 32.
Definition rotate_right (x n : Z) : Z :=
  Z.lor (Z.shiftr x n) (Z.shiftl x (32 - n) mod 2 ^ 32).
Definition bit_not (x : Z) : Z := Z.lxor x (2 ^ 32 - 1).

Definition from_be_bytes (bs : list Z) : Z := foldl (λ acc b, acc * 256 + b) 0 bs.
Fixpoint to_be_bytes (n : nat) (x : Z) : list Z :=
  match n with
  | O => []
  | S n => (x / 256 ^ Z.of_nat n) mod 256 :: to_be_bytes n x
  end.

(** [as_chunks]: whole chunks of [n]; a shorter rest is dropped. *)
Fixpoint as_chunks (fuel n : nat) (bs : list Z) : list (list Z) :=
  match fuel with
  | O => []
  | S fuel => if (length bs <? n)%nat then [] else take n bs :: as_chunks fuel n (drop n bs)
  end.
Definition chunks (n : nat) (bs : list Z) : list (list Z) := as_chunks (length bs) n bs.

(** ** The digest *)

(** Tables of words, four to a literal. *)
Definition quads (rows : list Z) : list Z :=
  rows ≫= λ r, (λ i, Z.shiftr r i mod 2 ^ 32) <$> [96; 64; 32; 0].

Definition K : list Z := Eval vm_compute in
  quads [0x428a2f98_71374491_b5c0fbcf_e9b5dba5; 0x3956c25b_59f111f1_923f82a4_ab1c5ed5;
         0xd807aa98_12835b01_243185be_550c7dc3; 0x72be5d74_80deb1fe_9bdc06a7_c19bf174;
         0xe49b69c1_efbe4786_0fc19dc6_240ca1cc; 0x2de92c6f_4a7484aa_5cb0a9dc_76f988da;
         0x983e5152_a831c66d_b00327c8_bf597fc7; 0xc6e00bf3_d5a79147_06ca6351_14292967;
         0x27b70a85_2e1b2138_4d2c6dfc_53380d13; 0x650a7354_766a0abb_81c2c92e_92722c85;
         0xa2bfe8a1_a81a664b_c24b8b70_c76c51a3; 0xd192e819_d6990624_f40e3585_106aa070;
         0x19a4c116_1e376c08_2748774c_34b0bcb5; 0x391c0cb3_4ed8aa4a_5b9cca4f_682e6ff3;
         0x748f82ee_78a5636f_84c87814_8cc70208; 0x90befffa_a4506ceb_bef9a3f7_c67178f2].

Definition H0 : list Z := Eval vm_compute in
  quads [0x6a09e667_bb67ae85_3c6ef372_a54ff53a; 0x510e527f_9b05688c_1f83d9ab_5be0cd19].

(** The [while] that pads; it pushes fewer than 64 bytes. *)
Fixpoint push_zeros (fuel : nat) (message : list Z) : list Z :=
  match fuel with
  | O => message
  | S fuel =>
      if (length message mod 64 =? 56)%nat then message else push_zeros fuel (message ++ [0])
  end.

Definition padded (input : list Z) : list Z :=
  let bit_len := wrapping_mul_u64 (Z.of_nat (length input)) 8 in
  push_zeros 64 (input ++ [0x80]) ++ to_be_bytes 8 bit_len.

(** [words[16..64]], each from earlier entries of the same array. *)
Definition extend (words : list Z) (index : nat) : list Z :=
  let at_ i := words !!! i in
  let w15 := at_ (index - 15)%nat in
  let w2 := at_ (index - 2)%nat in
  let s0 := Z.lxor (Z.lxor (rotate_right w15 7) (rotate_right w15 18)) (Z.shiftr w15 3) in
  let s1 := Z.lxor (Z.lxor (rotate_right w2 17) (rotate_right w2 19)) (Z.shiftr w2 10) in
  <[index := wrapping_add (wrapping_add (wrapping_add (at_ (index - 16)%nat) s0)
                             (at_ (index - 7)%nat)) s1]> words.

(** [zip] into the zeroed array, then the loop. *)
Definition schedule (chunk : list Z) : list Z :=
  let first := from_be_bytes <$> chunks 4 chunk in
  foldl extend (take 64 (first ++ replicate (64 - length first) 0)) (seq 16 48).

Record Vars := { va : Z; vb : Z; vc : Z; vd : Z; ve : Z; vf : Z; vg : Z; vh : Z }.

Definition round (words : list Z) (s : Vars) (index : nat) : Vars :=
  let '{| va := a; vb := b; vc := c; vd := d; ve := e; vf := f; vg := g; vh := h |} := s in
  let sigma1 := Z.lxor (Z.lxor (rotate_right e 6) (rotate_right e 11)) (rotate_right e 25) in
  let choice := Z.lxor (Z.land e f) (Z.land (bit_not e) g) in
  let temp1 := wrapping_add (wrapping_add (wrapping_add (wrapping_add h sigma1) choice)
                               (K !!! index)) (words !!! index) in
  let sigma0 := Z.lxor (Z.lxor (rotate_right a 2) (rotate_right a 13)) (rotate_right a 22) in
  let majority := Z.lxor (Z.lxor (Z.land a b) (Z.land a c)) (Z.land b c) in
  let temp2 := wrapping_add sigma0 majority in
  {| va := wrapping_add temp1 temp2; vb := a; vc := b; vd := c;
     ve := wrapping_add d temp1; vf := e; vg := f; vh := g |}.

Definition vars_of (state : list Z) : Vars :=
  {| va := state !!! 0%nat; vb := state !!! 1%nat; vc := state !!! 2%nat; vd := state !!! 3%nat;
     ve := state !!! 4%nat; vf := state !!! 5%nat; vg := state !!! 6%nat; vh := state !!! 7%nat |}.
Definition list_of (s : Vars) : list Z := [va s; vb s; vc s; vd s; ve s; vf s; vg s; vh s].

Definition compress (state : list Z) (chunk : list Z) : list Z :=
  let words := schedule chunk in
  zip_with wrapping_add state (list_of (foldl (round words) (vars_of state) (seq 0 64))).

Definition sha256 (input : list Z) : list Z :=
  foldl compress H0 (chunks 64 (padded input)) ≫= to_be_bytes 4.

(** ** Identifiers *)

Definition hex_digit (d : Z) : ascii :=
  ascii_of_N (Z.to_N (if d <? 10 then 48 + d else 87 + d)).

Definition hex (bs : list Z) : string :=
  foldr (λ b s, String (hex_digit (b / 16)) (String (hex_digit (b mod 16)) s)) "" bs.

Definition stable_key_identifier (raw_api_key : string) : string :=
  hex (sha256 (byte_of <$> chars raw_api_key)).

End Sha256.

(** ** FIPS 180-4 *)

Module Fips.
Import Sha256.

Definition ROTR (n x : Z) : Z := x / 2 ^ n + x mod 2 ^ n * 2 ^ (32 - n).
Definition SHR (n x : Z) : Z := x / 2 ^ n.
Definition Ch (x y z : Z) : Z := Z.lxor (Z.land x y) (Z.ldiff z x).
Definition Maj (x y z : Z) : Z := Z.lxor (Z.lxor (Z.land x y) (Z.land x z)) (Z.land y z).
Definition Sigma0 (x : Z) : Z := Z.lxor (Z.lxor (ROTR 2 x) (ROTR 13 x)) (ROTR 22 x).
Definition Sigma1 (x : Z) : Z := Z.lxor (Z.lxor (ROTR 6 x) (ROTR 11 x)) (ROTR 25 x).
Definition sigma0 (x : Z) : Z := Z.lxor (Z.lxor (ROTR 7 x) (ROTR 18 x)) (SHR 3 x).
Definition sigma1 (x : Z) : Z := Z.lxor (Z.lxor (ROTR 17 x) (ROTR 19 x)) (SHR 10 x).

(** The constants: the first 32 bits of the fractional parts of the cube roots of the first
    64 primes, and of the square roots of the first eight. *)
Definition is_prime (n : nat) : bool :=
  (2 <=? n)%nat && forallb (λ d, negb (n mod d =? 0)%nat) (seq 2 (n - 2)).
Definition primes : list Z := Z.of_nat <$> filter is_prime (seq 0 320).

(** The integer cube root of [n], found bit by bit; it has fewer than 40 bits. *)
Definition cbrt (n : Z) : Z :=
  foldl (λ r i, let r' := r + 2 ^ i in if r' ^ 3 <=? n then r' else r) 0
    (Z.of_nat <$> rev (seq 0 40)).

Definition K_256 : list Z := (λ p, cbrt (p * 2 ^ 96) mod 2 ^ 32) <$> take 64 primes.
Definition H_0 : list Z := (λ p, Z.sqrt (p * 2 ^ 64) mod 2 ^ 32) <$> take 8 primes.

(** The message, a 1 bit, zeros, the length in bits as 64 bits: for a message of whole
    bytes, the zeros fill the last block. *)
Definition pad (input : list Z) : list Z :=
  let l := Z.of_nat (length input) in
  input ++ 0x80 :: replicate (Z.to_nat ((55 - l) mod 64)) 0 ++ to_be_bytes 8 (8 * l).

(** [M], word [t] of a block. *)
Definition word (block : list Z) (t : nat) : Z := from_be_bytes (take 4 (drop (4 * t) block)).

Equations? W (block : list Z) (t : nat) : Z by wf t lt :=
  W block t with le_lt_dec 16 t => {
    | left _ := (sigma1 (W block (t - 2)) + W block (t - 7) + sigma0 (W block (t - 15))
                 + W block (t - 16)) mod 2 ^ 32;
    | right _ := word block t }.
Proof. all: lia. Qed.

Definition step (block : list Z) (s : Vars) (t : nat) : Vars :=
  let T1 := vh s + Sigma1 (ve s) + Ch (ve s) (vf s) (vg s) + K_256 !!! t + W block t in
  let T2 := Sigma0 (va s) + Maj (va s) (vb s) (vc s) in
  {| va := (T1 + T2) mod 2 ^ 32; vb := va s; vc := vb s; vd := vc s;
     ve := (vd s + T1) mod 2 ^ 32; vf := ve s; vg := vf s; vh := vg s |}.

(** Block [i] of [N]. *)
Definition block (bs : list Z) (i : nat) : list Z := take 64 (drop (64 * i) bs).

Definition hash_block (bs H : list Z) (i : nat) : list Z :=
  zip_with (λ h v, (h + v) mod 2 ^ 32) H
    (list_of (foldl (step (block bs i)) (vars_of H) (seq 0 64))).

Definition SHA256 (input : list Z) : list Z :=
  let bs := pad input in
  foldl (hash_block bs) H_0 (seq 0 (length bs / 64)) ≫= to_be_bytes 4.

End Fips.

(** * The gateway's SHA-256 is the standard's

    [sha256_fips]: on every byte string shorter than 2^61 bytes, the in-place
    implementation computes the digest FIPS 180-4 defines. *)

Import RustStr Sha256 Fips.
#[local] Ltac Zify.zify_post_hook ::= Z.to_euclidean_division_equations.

(** ** Words *)

Definition is_word (x : Z) : Prop := 0 ≤ x < 2 ^ 32.
Definition is_byte (x : Z) : Prop := 0 ≤ x < 256.

Lemma mod_word x : is_word (x mod 2 ^ 32).
Proof. unfold is_word. apply Z.mod_pos_bound. lia. Qed.

Lemma wrapping_add_l a b c : wrapping_add (wrapping_add a b) c = wrapping_add (a + b) c.
Proof. apply Zplus_mod_idemp_l. Qed.
Lemma wrapping_add_r a b c : wrapping_add a (wrapping_add b c) = wrapping_add a (b + c).
Proof. apply Zplus_mod_idemp_r. Qed.

(** Nested wrapping additions, innermost first, become one sum. *)
Ltac sum_words :=
  repeat match goal with
  | |- context [wrapping_add (wrapping_add ?a ?b) ?c] =>
      lazymatch a with context [wrapping_add] => fail | _ => rewrite (wrapping_add_l a b c) end
  | |- context [wrapping_add ?a (wrapping_add ?b ?c)] =>
      lazymatch b with context [wrapping_add] => fail | _ => rewrite (wrapping_add_r a b c) end
  end;
  unfold wrapping_add;
  repeat match goal with
  | |- Build_Vars _ _ _ _ _ _ _ _ = _ => f_equal
  | |- _ mod _ = _ mod _ => f_equal
  end; ring.

Lemma rotate_right_ROTR x n : is_word x → 0 < n < 32 → rotate_right x n = ROTR n x.
Proof.
  intros Hx Hn. unfold rotate_right, ROTR, is_word in *.
  rewrite Z.shiftr_div_pow2, Z.shiftl_mul_pow2 by lia.
  replace (2 ^ 32) with (2 ^ n * 2 ^ (32 - n)) by (rewrite <- Z.pow_add_r by lia; f_equal; lia).
  rewrite Z.mul_mod_distr_r by lia. symmetry. apply Z.add_nocarry_lor.
  apply Z.bits_inj_0. intros i. rewrite Z.land_spec.
  destruct (Z.ltb_spec i (32 - n)) as [Hi|Hi].
  - rewrite Z.mul_pow2_bits_low by lia. apply andb_false_r.
  - rewrite Z.div_pow2_bits by lia.
    rewrite <- (Z.mod_small x (2 ^ 32)) by lia.
    rewrite Z.mod_pow2_bits_high by lia. done.
Qed.

Lemma land_bit_not e g : is_word g → Z.land (bit_not e) g = Z.ldiff g e.
Proof.
  intros Hg. apply Z.bits_inj'. intros i Hi. unfold bit_not.
  rewrite Z.land_spec, Z.lxor_spec, Z.ldiff_spec.
  destruct (Z.ltb_spec i 32) as [H|H].
  - change (2 ^ 32 - 1) with (Z.ones 32). rewrite Z.ones_spec_low by lia.
    by destruct (Z.testbit e i), (Z.testbit g i).
  - rewrite <- (Z.mod_small g (2 ^ 32)) by done. rewrite Z.mod_pow2_bits_high by lia.
    apply andb_false_r.
Qed.

(** ** Constants *)

(** The tables of the source are the roots the standard names. *)
Lemma K_roots : K_256 = K.
Proof. vm_compute. reflexivity. Qed.
Lemma H0_roots : H_0 = H0.
Proof. vm_compute. reflexivity. Qed.
#[local] Opaque K_256 H_0.

(** ** Chunks *)

Lemma as_chunks_blocks n : (0 < n)%nat → ∀ fuel k bs, (k ≤ fuel)%nat → length bs = (n * k)%nat →
  as_chunks fuel n bs = (λ i, take n (drop (n * i) bs)) <$> seq 0 k.
Proof.
  intros Hn. induction fuel as [|fuel IH]; intros k bs Hk Hl.
  - by replace k with 0%nat by lia.
  - cbn [as_chunks]. destruct (Nat.ltb_spec (length bs) n) as [H|H].
    + destruct k; [done|nia].
    + destruct k as [|k]; [lia|]. cbn [seq]. rewrite fmap_cons. f_equal.
      { by rewrite Nat.mul_0_r, drop_0. }
      rewrite (IH k) by (rewrite ?length_drop; lia).
      rewrite <- fmap_S_seq. rewrite <- list_fmap_compose. apply list_fmap_ext.
      intros i x _. cbn. rewrite drop_drop. do 2 f_equal. lia.
Qed.

Lemma chunks_blocks n k bs : (0 < n)%nat → length bs = (n * k)%nat →
  chunks n bs = (λ i, take n (drop (n * i) bs)) <$> seq 0 k.
Proof. intros Hn Hl. apply as_chunks_blocks; [done| |done]. nia. Qed.

(** ** Padding *)

Lemma push_zeros_app k : ∀ fuel m, (k ≤ fuel)%nat → (k < 64)%nat →
  ((length m + k) mod 64 = 56)%nat → push_zeros fuel m = m ++ replicate k 0.
Proof.
  induction k as [|k IH]; intros fuel m Hf Hk Hm.
  - rewrite Nat.add_0_r in Hm. cbn [replicate]. rewrite app_nil_r.
    destruct fuel; cbn [push_zeros]; [done|]. by rewrite Hm.
  - destruct fuel as [|fuel]; [lia|]. cbn [push_zeros].
    destruct (Nat.eqb_spec (length m mod 64) 56) as [H|H]; [lia|].
    rewrite IH by (rewrite ?length_app; cbn [length]; lia).
    by rewrite <- app_assoc.
Qed.

Lemma padded_pad input : Z.of_nat (length input) < 2 ^ 61 → padded input = pad input.
Proof.
  intros Hl. unfold padded, pad. set (l := length input) in *.
  assert (Hk : (Z.to_nat ((55 - Z.of_nat l) mod 64) < 64)%nat) by lia.
  rewrite (push_zeros_app (Z.to_nat ((55 - Z.of_nat l) mod 64)));
    [| lia | done | rewrite length_app; cbn [length]; fold l; lia].
  unfold wrapping_mul_u64. rewrite wrap_u64_small by (unfold is_u64, u64_max; lia).
  rewrite <- !app_assoc. cbn [app]. by rewrite (Z.mul_comm 8).
Qed.

Lemma length_to_be_bytes n x : length (to_be_bytes n x) = n.
Proof. induction n as [|n IH]; cbn; [done|by rewrite IH]. Qed.

Lemma to_be_bytes_byte n x : Forall is_byte (to_be_bytes n x).
Proof. induction n as [|n IH]; cbn; constructor; [unfold is_byte; lia|done]. Qed.

Lemma pad_length input : ∃ k, length (pad input) = (64 * k)%nat.
Proof.
  exists (length (pad input) / 64)%nat. unfold pad.
  rewrite !length_app. cbn [length]. rewrite length_app, length_replicate, length_to_be_bytes. lia.
Qed.

Lemma pad_bytes input : Forall is_byte input → Forall is_byte (pad input).
Proof.
  intros H. unfold pad. apply list.Forall_app. split; [done|]. constructor; [unfold is_byte; lia|].
  apply list.Forall_app. split; [|apply to_be_bytes_byte].
  apply list.Forall_forall. intros x [-> _]%elem_of_replicate. unfold is_byte. lia.
Qed.

(** ** The schedule *)

Lemma from_be_bytes_word bs : length bs = 4%nat → Forall is_byte bs → is_word (from_be_bytes bs).
Proof.
  intros Hl H. destruct bs as [|a [|b [|c [|d [|]]]]]; try done.
  rewrite !list.Forall_cons in H. unfold is_byte, is_word, from_be_bytes in *. cbn [foldl].
  destruct H as (?&?&?&?&_). lia.
Qed.

Section block.
Context (blk : list Z) (Hlen : length blk = 64%nat) (Hbytes : Forall is_byte blk).

Lemma word_word t : (t < 16)%nat → is_word (word blk t).
Proof.
  intros Ht. apply from_be_bytes_word.
  - rewrite length_take, length_drop. lia.
  - by apply Forall_take, Forall_drop.
Qed.

Lemma W_word t : (t < 64)%nat → is_word (W blk t).
Proof.
  intros _. rewrite W_equation_1. unfold W_unfold_clause_1. destruct (le_lt_dec 16 t).
  - apply mod_word.
  - by apply word_word.
Qed.

Lemma W_first t : (t < 16)%nat → W blk t = word blk t.
Proof. intros Ht. rewrite W_equation_1. unfold W_unfold_clause_1. destruct (le_lt_dec 16 t); [lia|done]. Qed.

Lemma W_next t : (16 ≤ t)%nat →
  W blk t = (sigma1 (W blk (t - 2)) + W blk (t - 7) + sigma0 (W blk (t - 15)) + W blk (t - 16))
              mod 2 ^ 32.
Proof. intros Ht. rewrite W_equation_1. unfold W_unfold_clause_1. destruct (le_lt_dec 16 t); [done|lia]. Qed.

(** The array holds the schedule up to [n]. *)
Definition scheduled (n : nat) (words : list Z) : Prop :=
  length words = 64%nat ∧ ∀ t, (t < n)%nat → words !!! t = W blk t.

Lemma extend_scheduled words n :
  (16 ≤ n < 64)%nat → scheduled n words → scheduled (S n) (extend words n).
Proof.
  intros Hn [Hl Hw]. split; [by unfold extend; rewrite length_insert|].
  intros t Ht. unfold extend. destruct (decide (t = n)) as [->|Hne].
  - rewrite list_lookup_total_insert_eq by lia. rewrite W_next by lia.
    rewrite !Hw by lia. unfold sigma0, sigma1, SHR.
    rewrite !rotate_right_ROTR by (lia || (apply W_word; lia)).
    rewrite !Z.shiftr_div_pow2 by lia.
    sum_words.
  - rewrite list_lookup_total_insert_ne by done. apply Hw. lia.
Qed.

Lemma schedule_W : scheduled 64 (schedule blk).
Proof.
  unfold schedule. rewrite (chunks_blocks 4 16) by lia.
  assert (Hloop : ∀ n words, (n ≤ 48)%nat → scheduled 16 words →
            scheduled (16 + n) (foldl extend words (seq 16 n))).
  { induction n as [|n IH]; intros words Hn Hw; [done|].
    rewrite seq_S, foldl_app. cbn [foldl]. rewrite Nat.add_succ_r.
    apply extend_scheduled; [lia|]. apply IH; [lia|done]. }
  apply (Hloop 48%nat); [lia|]. split.
  - rewrite length_take, length_app, length_replicate, !length_fmap, length_seq. lia.
  - intros t Ht. rewrite W_first by done. unfold word. apply list_lookup_total_correct.
    rewrite lookup_take by lia. rewrite decide_True by lia.
    rewrite lookup_app_l by (rewrite !length_fmap, length_seq; lia).
    rewrite !list_lookup_fmap, lookup_seq_lt by lia. done.
Qed.

(** ** Rounds *)

Definition vars_word (s : Vars) : Prop := Forall is_word (list_of s).

Lemma sha_round_step s t : (t < 64)%nat → vars_word s → round (schedule blk) s t = step blk s t.
Proof.
  intros Ht Hs. unfold vars_word, list_of in Hs. rewrite !list.Forall_cons in Hs.
  destruct s as [a b c d e f g h]. cbn in Hs. destruct Hs as (Ha & _ & _ & _ & He & _ & Hg & _).
  unfold round, step. rewrite K_roots. cbn [va vb vc vd ve vf vg vh].
  destruct schedule_W as [_ Hw]. rewrite Hw by done.
  unfold Sigma0, Sigma1, Ch, Maj. rewrite !rotate_right_ROTR by (done || lia).
  rewrite land_bit_not by done. sum_words.
Qed.

Lemma step_word s t : vars_word s → vars_word (step blk s t).
Proof.
  unfold vars_word, list_of, step. rewrite !list.Forall_cons. cbn.
  intros (?&?&?&?&?&?&?&?&_). pose proof mod_word as Hm. split_and!; try done; apply Hm.
Qed.

Lemma rounds_steps s : vars_word s →
  foldl (round (schedule blk)) s (seq 0 64) = foldl (step blk) s (seq 0 64).
Proof.
  intros Hs. assert (H : ∀ n, (n ≤ 64)%nat → vars_word (foldl (step blk) s (seq 0 n)) ∧
            foldl (round (schedule blk)) s (seq 0 n) = foldl (step blk) s (seq 0 n)).
  { induction n as [|n IH]; intros Hn; [done|]. destruct IH as [IH1 IH2]; [lia|].
    rewrite seq_S, !foldl_app. cbn [foldl]. rewrite IH2. split; [by apply step_word|].
    apply sha_round_step; [lia|done]. }
  by apply H.
Qed.
End block.

(** ** The digest *)

Definition is_state (H : list Z) : Prop := length H = 8%nat ∧ Forall is_word H.

Lemma vars_of_word H : is_state H → vars_word (vars_of H).
Proof.
  intros [Hl Hw]. do 8 (destruct H as [|? H]; [done|]). destruct H; [exact Hw|done].
Qed.

Lemma hash_block_state bs H i : is_state H → is_state (hash_block bs H i).
Proof.
  intros [Hl Hw]. split.
  - unfold hash_block, list_of. by rewrite length_zip_with, Hl.
  - unfold hash_block. apply list.Forall_forall. intros x Hx.
    apply elem_of_lookup_zip_with in Hx as (j & h & v & -> & _). apply mod_word.
Qed.

Lemma compress_hash_block bs k H i :
  Forall is_byte bs → length bs = (64 * k)%nat → (i < k)%nat → is_state H →
  compress H (block bs i) = hash_block bs H i.
Proof.
  intros Hb Hl Hi HH. unfold compress, hash_block. rewrite rounds_steps; [done| | |by apply vars_of_word].
  - unfold block. rewrite length_take, length_drop. lia.
  - by apply Forall_take, Forall_drop.
Qed.

(** The gateway's own SHA-256, which names inbound keys, is SHA-256: on every input
    of bytes shorter than 2^61, the implementation with its wrapping additions, bitwise
    rotations, tables of constants, padding loop and in-place message schedule returns the
    digest that the formulas of FIPS 180-4 define, constants as roots of primes. *)
Theorem sha256_fips (input : list Z)
  (Hbytes : Forall (λ b, 0 ≤ b < 256) input) (Hlen : Z.of_nat (length input) < 2 ^ 61) :
  sha256 input = SHA256 input.
Proof.
  unfold sha256, SHA256. rewrite padded_pad, H0_roots by done.
  pose proof (pad_bytes input Hbytes) as Hb. destruct (pad_length input) as [k Hk].
  rewrite (chunks_blocks 64 k) by (done || lia). rewrite Hk, Nat.mul_comm, Nat.div_mul by done.
  f_equal. assert (Hs : is_state H0).
  { split; [done|]. unfold H0, is_word. repeat constructor; lia. }
  assert (Hn : ∀ n, (n ≤ k)%nat → is_state (foldl (hash_block (pad input)) H0 (seq 0 n)) ∧
    foldl compress H0 ((λ i, take 64 (drop (64 * i) (pad input))) <$> seq 0 n)
    = foldl (hash_block (pad input)) H0 (seq 0 n)).
  { induction n as [|n IH]; intros Hle; [done|]. destruct IH as [IH1 IH2]; [lia|].
    rewrite seq_S, fmap_app, !foldl_app. cbn [foldl fmap list_fmap]. rewrite IH2.
    split; [by apply hash_block_state|]. by apply (compress_hash_block _ k). }
  by apply Hn.
Qed.

Lemma sha256_fips_witness :
  sha256 [97; 98; 99] = SHA256 [97; 98; 99].
Proof. apply (sha256_fips [97; 98; 99]); [repeat constructor; lia | cbn; lia]. Defined.

(** Two vectors of the standard, through the identifier of a key. *)
Example identifier_empty : stable_key_identifier ""
  = "e3b0c44298fc1c149afbf4c8996fb92427ae41e4649b934ca495991b7852b855".
Proof. vm_compute. reflexivity. Qed.
Example identifier_abc : stable_key_identifier "abc"
  = "ba7816bf8f01cfea414140de5dae2223b00361a396177a9cb410ff61f20015ad".
Proof. vm_compute. reflexivity. Qed.

(** An identifier is 64 characters, whatever the key. *)
Lemma hex_length bs : String.length (hex bs) = (2 * length bs)%nat.
Proof. induction bs as [|b bs IH]; [done|]. unfold hex in *. cbn [foldr String.length length]. rewrite IH. lia. Qed.

Lemma length_bind_be n (l : list Z) : length (l ≫= to_be_bytes n) = (n * length l)%nat.
Proof.
  induction l as [|x l IH]; [cbn; lia|]. rewrite bind_cons, length_app, IH, length_to_be_bytes.
  cbn [length]. lia.
Qed.

Lemma compress_length H c : length H = 8%nat → length (compress H c) = 8%nat.
Proof. intros Hl. unfold compress, list_of. by rewrite length_zip_with, Hl. Qed.

Lemma identifier_length key : String.length (stable_key_identifier key) = 64%nat.
Proof.
  unfold stable_key_identifier, sha256. rewrite hex_length, length_bind_be.
  assert (H : ∀ cs st, length st = 8%nat → length (foldl compress st cs) = 8%nat).
  { induction cs as [|c cs IH]; intros st Hst; [done|]. cbn. apply IH. by apply compress_length. }
  by rewrite H.
Qed.
