(* ===== verification/Json.v ===== *)
(** * JSON values (serde_json::Value)

    Objects are [BTreeMap]s (the crate is built without [preserve_order]): an
    association list in key order.  Numbers are unsigned, negative or double. *)

From Stdlib Require Import SpecFloat.
From stdpp Require Import base strings list.
From S2P Require Import Prelude.
Open Scope Z_scope.

Module Json.

Inductive Number :=
  | PosInt (n : Z)
  | NegInt (n : Z)
  | Float (f : spec_float).

Inductive Value :=
  | Null
  | VBool (b : bool)
  | VNumber (n : Number)
  | VString (s : string)
  | VArray (l : list Value)
  | VObject (m : list (string * Value)).

Abbreviation Map := (list (string * Value)).

(** ** Objects *)

Fixpoint obj_get {V} (k : string) (m : list (string * V)) : option V :=
  match m with
  | [] => None
  | (k', v) :: m => if bool_decide (k = k') then Some v else obj_get k m
  end.

Fixpoint obj_insert {V} (k : string) (v : V) (m : list (string * V)) : list (string * V) :=
  match m with
  | [] => [(k, v)]
  | (k', v') :: m' =>
      if bool_decide (k = k') then (k, v) :: m'
      else if string_ltb k k' then (k, v) :: m
      else (k', v') :: obj_insert k v m'
  end.

Definition obj_remove {V} (k : string) (m : list (string * V)) : list (string * V) :=
  filter (λ kv, kv.1 ≠ k) m.

Lemma obj_get_insert {V} k k' (v : V) m :
  obj_get k' (obj_insert k v m) = if bool_decide (k' = k) then Some v else obj_get k' m.
Proof.
  induction m as [|[j w] m IH]; cbn; [done|].
  destruct (decide (k = j)) as [->|Hne].
  - rewrite bool_decide_eq_true_2 by done. cbn. by case_bool_decide.
  - rewrite bool_decide_eq_false_2 by done.
    destruct (string_ltb k j); cbn; [done|]. rewrite IH. repeat case_bool_decide; congruence.
Qed.

Lemma obj_get_remove {V} k k' (m : list (string * V)) :
  obj_get k' (obj_remove k m) = if bool_decide (k' = k) then None else obj_get k' m.
Proof.
  unfold obj_remove. induction m as [|[j w] m IH]; [by case_bool_decide|].
  rewrite filter_cons. cbn [fst]. destruct (decide (j ≠ k)) as [Hj|Hj]; cbn; rewrite IH;
    repeat case_bool_decide; subst; try done; by destruct Hj.
Qed.

#[export] Hint Rewrite @obj_get_insert @obj_get_remove : mahoquot.

(** ** Accessors *)

Definition get (key : string) (v : Value) : option Value :=
  match v with VObject m => obj_get key m | _ => None end.
Definition as_str (v : Value) : option string := match v with VString s => Some s | _ => None end.
Definition as_array (v : Value) : option (list Value) :=
  match v with VArray l => Some l | _ => None end.
Definition as_object (v : Value) : option Map := match v with VObject m => Some m | _ => None end.
Definition as_u64 (v : Value) : option Z :=
  match v with VNumber (PosInt n) => Some n | _ => None end.
Definition is_null (v : Value) : bool := match v with Null => true | _ => false end.

(** [pointer] along object keys, the path given by its segments. *)
Fixpoint pointer (path : list string) (v : Value) : option Value :=
  match path with
  | [] => Some v
  | k :: path => get k v ≫= pointer path
  end.

Definition is_object (v : Value) : bool := match v with VObject _ => true | _ => false end.

(** ** Equality ([PartialEq]): doubles compare as doubles. *)

Definition number_eqb (a b : Number) : bool :=
  match a, b with
  | PosInt x, PosInt y => x =? y
  | NegInt x, NegInt y => x =? y
  | Float x, Float y => match SFcompare x y with Some Eq => true | _ => false end
  | _, _ => false
  end.

Fixpoint value_eqb (a b : Value) {struct a} : bool :=
  match a, b with
  | Null, Null => true
  | VBool x, VBool y => Bool.eqb x y
  | VNumber x, VNumber y => number_eqb x y
  | VString x, VString y => bool_decide (x = y)
  | VArray xs, VArray ys =>
      (fix list_eqb (xs ys : list Value) : bool :=
         match xs, ys with
         | [], [] => true
         | x :: xs, y :: ys => value_eqb x y && list_eqb xs ys
         | _, _ => false
         end) xs ys
  | VObject xs, VObject ys =>
      (fix obj_eqb (xs ys : Map) : bool :=
         match xs, ys with
         | [], [] => true
         | (k, x) :: xs, (k', y) :: ys => bool_decide (k = k') && value_eqb x y && obj_eqb xs ys
         | _, _ => false
         end) xs ys
  | _, _ => false
  end.

End Json.

(** ** Building values, as [json!] and index assignment do *)

Module JsonMake.
Import Json.

(** [json!] of an object. *)
Definition obj (fields : list (string * Value)) : Value :=
  VObject (foldl (λ m kv, obj_insert kv.1 kv.2 m) [] fields).
Definition str (s : string) : Value := VString s.
Definition uint (n : Z) : Value := VNumber (PosInt n).
Definition int (n : Z) : Value := VNumber (if n <? 0 then NegInt n else PosInt n).
Definition nul : Value := Null.
Definition opt_str (s : option string) : Value :=
  match s with Some s => str s | None => nul end.

(** [value[k] = v] on an object. *)
Definition set (k : string) (v : Value) (o : Value) : Value :=
  match o with
  | VObject m => VObject (obj_insert k v m)
  | Null => VObject [(k, v)]
  | _ => o
  end.
(** [value[k][k'] = v]: an absent [k] is made. *)
Definition set2 (k k' : string) (v : Value) (o : Value) : Value :=
  set k (set k' v (default Null (get k o))) o.
(** [if let Some(v) = ov { value[k] = v }]. *)
Definition set_some (k : string) (ov : option Value) (o : Value) : Value :=
  match ov with Some v => set k v o | None => o end.
Definition insert_some (k : string) (ov : option Value) (m : Map) : Map :=
  match ov with Some v => obj_insert k v m | None => m end.

(** [value[k]] read: absent is [null]. *)
Definition idx (k : string) (v : Value) : Value := default Null (get k v).

Definition as_bool (v : Value) : option bool := match v with VBool b => Some b | _ => None end.
(** A [NegInt] is negative. *)
Definition as_i64 (v : Value) : option Z :=
  match v with
  | VNumber (PosInt n) => if n <=? i64_max then Some n else None
  | VNumber (NegInt n) => if n <? 0 then Some n else None
  | _ => None
  end.
Definition get_str (k : string) (v : Value) : option string := get k v ≫= as_str.
Definition get_bool (k : string) (v : Value) : option bool := get k v ≫= as_bool.
Definition get_array (k : string) (v : Value) : option (list Value) := get k v ≫= as_array.
(** [a.or_else(b)]. *)
Definition or_else {A} (a b : option A) : option A := match a with Some x => Some x | None => b end.
(** [value == "text"]. *)
Definition is_str (s : string) (v : Value) : bool := bool_decide (as_str v = Some s).

(** ** Reading what was built *)

Lemma get_obj_cons k j v fields :
  get k (VObject (obj_insert j v fields)) = if bool_decide (k = j) then Some v else get k (VObject fields).
Proof. cbn. apply obj_get_insert. Qed.

Lemma get_set k j v m : get k (set j v (VObject m)) = if bool_decide (k = j) then Some v else get k (VObject m).
Proof. apply get_obj_cons. Qed.

Lemma get_set_some_ne k j ov v : k ≠ j → get k (set_some j ov v) = get k v.
Proof.
  intros H. destruct ov; [|done]. destruct v; try done; cbn.
  - by rewrite bool_decide_eq_false_2.
  - rewrite obj_get_insert. by rewrite bool_decide_eq_false_2.
Qed.

Lemma get_set_ne k j w v : k ≠ j → get k (set j w v) = get k v.
Proof. apply (get_set_some_ne k j (Some w) v). Qed.

End JsonMake.
