(* ===== verification/Envelope.v ===== *)
(** * The signed catalog envelope (crates/registry/src/envelope.rs)

    A remote catalog is a payload with a detached signature.  [verify_catalog_envelope]
    accepts it only if its schema, key, version, times, signature, canonical form and
    content all pass, in that order.

    Parameters: [Key], [Sig] and [check] are ed25519, [signature_of] reads the bytes of a
    signature, [base64] decodes; [parse_json] and [print_json] are serde_json on values
    and [parse_snapshot] on snapshots.  Errors of these carry their text. *)

From Stdlib Require Import Ascii.
From stdpp Require Import gmap strings list.
From S2P Require Import Prelude RustStr RegistryTypes RegistrySnapshot Json.
Import RustStr Registry.
Open Scope Z_scope.

Module Envelope.

Definition SCHEMA_VERSION_V1 : Z := 1.
Definition DEFAULT_CLOCK_SKEW_SECS : Z := 300.

Inductive CatalogVerificationError :=
  | UnknownKeyId (key_id : string)
  | IncompatibleSchema (schema : Z)
  | VersionDowngrade (incoming : Z) (active lkg : option Z) (threshold : Z)
  | FutureTimestamp (generated_at now allowed_skew_secs : Z)
  | Expired (expires_at now : Z)
  | CanonicalizationMismatch
  | InvalidSignatureFormat (text : string)
  | SignatureVerificationFailed
  | MalformedJson (text : string)
  | EmptyCatalog
  | ZeroFallbackRoutableBindings
  | VersionMismatch (envelope_version payload_version : Z)
  | RegistryInvalid (e : RegistryError).

Record CatalogEnvelope := {
  schema_version : Z;       (* u32 *)
  catalog_version : Z;      (* u64 *)
  key_id : string;
  generated_at : Z;         (* u64 *)
  expires_at : option Z;    (* u64 *)
  signature : string;
}.

Definition new (version : Z) (key : string) (generated : Z) (expires : option Z) (sig : string)
  : CatalogEnvelope :=
  {| schema_version := SCHEMA_VERSION_V1; catalog_version := version; key_id := key;
     generated_at := generated; expires_at := expires; signature := sig |}.

Definition map_err {E F A} (f : E → F) (r : result E A) : result F A :=
  match r with Ok a => Ok a | Err e => Err (f e) end.

Definition LF : string := String (ascii_of_nat 10) "".

(** ** What is signed *)

Definition compute_signing_bytes (schema version generated : Z) (expires : option Z)
    (key payload : string) : string :=
  "MAHOQUOT-MODEL-CATALOG-V1" +:+ LF
  +:+ "schema_version:" +:+ show_u64 schema +:+ LF
  +:+ "catalog_version:" +:+ show_u64 version +:+ LF
  +:+ "generated_at:" +:+ show_u64 generated +:+ LF
  +:+ "expires_at:" +:+ (match expires with Some exp => show_u64 exp | None => "none" end) +:+ LF
  +:+ "key_id:" +:+ key +:+ LF
  +:+ "canonical_payload:" +:+ LF +:+ payload.

Section envelope.
Context {Key Sig : Type} (check : Key → string → Sig → bool).
Context (signature_of : string → result string Sig) (base64 : string → result string string).
Context (parse_json : string → result string Json.Value) (print_json : Json.Value → string).
Context (parse_snapshot : string → result string Snapshot.RegistrySnapshot).

(** ** Canonical form *)

Definition canonicalize_json (bytes : string) : result CatalogVerificationError string :=
  value ← map_err MalformedJson (parse_json bytes);
  Ok (print_json value).

Definition is_canonical_json (bytes : string) : result CatalogVerificationError bool :=
  canonical ← canonicalize_json bytes;
  Ok (bool_decide (bytes = canonical)).

(** ** Verification *)

Abbreviation Keyring := (gmap string Key).

Definition threshold_of (active lkg : option Z) : option Z :=
  match active, lkg with
  | Some a, Some b => Some (Z.max a b)
  | Some a, None => Some a
  | None, Some b => Some b
  | None, None => None
  end.

(** A binding no exclusion of the catalog removes. *)
Definition has_routable_binding (s : Snapshot.RegistrySnapshot) : bool :=
  existsb (λ kv : string * ModelDescriptor,
      existsb (λ pid : string,
          negb (bool_decide ({| excl_model_id := kv.1; excl_provider_id := Some pid |}
                               ∈ Snapshot.exclusions s))
          && negb (bool_decide ({| excl_model_id := kv.1; excl_provider_id := None |}
                                  ∈ Snapshot.exclusions s)))
        (btree_keys (bindings kv.2)))
    (btree_entries (Snapshot.models s)).

Definition check_header (keyring : Keyring) (e : CatalogEnvelope) (active lkg : option Z)
    (now skew : Z) : result CatalogVerificationError Key :=
  if negb (schema_version e =? SCHEMA_VERSION_V1) then Err (IncompatibleSchema (schema_version e))
  else match keyring !! key_id e with
  | None => Err (UnknownKeyId (key_id e))
  | Some key =>
      match threshold_of active lkg with
      | Some t => if catalog_version e <=? t
                  then Err (VersionDowngrade (catalog_version e) active lkg t) else Ok tt
      | None => Ok tt
      end ≫= λ _,
      if saturating_add_u64 now skew <? generated_at e
      then Err (FutureTimestamp (generated_at e) now skew)
      else match expires_at e with
           | Some exp => if exp <? now then Err (Expired exp now) else Ok key
           | None => Ok key
           end
  end.

Definition check_signature (key : Key) (e : CatalogEnvelope) (payload : string)
  : result CatalogVerificationError unit :=
  sig_bytes ← map_err InvalidSignatureFormat (base64 (trim (signature e)));
  sig ← map_err InvalidSignatureFormat (signature_of sig_bytes);
  if check key (compute_signing_bytes (schema_version e) (catalog_version e) (generated_at e)
                  (expires_at e) (key_id e) payload) sig
  then Ok tt else Err SignatureVerificationFailed.

Definition check_content (e : CatalogEnvelope) (payload : string)
  : result CatalogVerificationError Snapshot.RegistrySnapshot :=
  canonical ← is_canonical_json payload;
  if negb canonical then Err CanonicalizationMismatch
  else
    s ← map_err MalformedJson (parse_snapshot payload);
    if negb (Snapshot.version s =? catalog_version e)
    then Err (VersionMismatch (catalog_version e) (Snapshot.version s))
    else if bool_decide (Snapshot.models s = ∅) then Err EmptyCatalog
    else if negb (has_routable_binding s) then Err ZeroFallbackRoutableBindings
    else map_err RegistryInvalid (Snapshot.validate s) ≫= λ _, Ok s.

Definition verify_catalog_envelope (e : CatalogEnvelope) (payload : string) (keyring : Keyring)
    (active lkg : option Z) (now skew : Z)
  : result CatalogVerificationError Snapshot.RegistrySnapshot :=
  key ← check_header keyring e active lkg now skew;
  check_signature key e payload ≫= λ _,
  check_content e payload.

(** ** Signing *)

Definition sign_catalog (sign : string → Sig) (encode : Sig → string) (signer : string)
    (version generated : Z) (expires : option Z) (payload : string)
  : result CatalogVerificationError CatalogEnvelope :=
  canonical ← is_canonical_json payload;
  if negb canonical then Err CanonicalizationMismatch
  else
    let bytes := compute_signing_bytes SCHEMA_VERSION_V1 version generated expires signer payload in
    Ok (new version signer generated expires (encode (sign bytes))).

End envelope.
End Envelope.

(** * Properties of the signed catalog

    What is signed determines every field; acceptance is exactly the conjunction of the
    checks; a payload whose signature does not verify is never interpreted; and what a
    signer signs, a verifier with its key accepts. *)

Import RustStr Registry Envelope.

(** ** Lines *)

Definition no_newline (a : ascii) : bool := negb (bool_decide (a = ascii_of_nat 10)).

(** Text is cut at its first newline. *)
Lemma line_cut d d' s s' :
  all_bytes no_newline d = true → all_bytes no_newline d' = true →
  d +:+ LF +:+ s = d' +:+ LF +:+ s' → d = d' ∧ s = s'.
Proof.
  revert d'. induction d as [|a d IH]; intros [|a' d'] Hd Hd' E; cbn in *.
  - by injection E.
  - injection E as <- _. discriminate Hd'.
  - injection E as -> _. discriminate Hd.
  - injection E as -> E. apply andb_true_iff in Hd as [_ Hd], Hd' as [_ Hd'].
    destruct (IH d' Hd Hd' E) as [-> ->]. done.
Qed.

Lemma digit_not_newline a : is_ascii_digit a = true → no_newline a = true.
Proof. destruct a as [[] [] [] [] [] [] [] []]; by vm_compute. Qed.

Lemma show_u64_line z : all_bytes no_newline (show_u64 z) = true.
Proof.
  eapply all_bytes_impl; [exact digit_not_newline|]. unfold show_u64. by apply show_u64_digits.
Qed.

Definition expires_text (expires : option Z) : string :=
  match expires with Some exp => show_u64 exp | None => "none" end.

Lemma expires_line e : all_bytes no_newline (expires_text e) = true.
Proof. destruct e; [apply show_u64_line|done]. Qed.

Definition opt_u64 (e : option Z) : Prop := match e with Some z => is_u64 z | None => True end.

Lemma expires_text_inj a b : opt_u64 a → opt_u64 b → expires_text a = expires_text b → a = b.
Proof.
  assert (Hn : ∀ z, show_u64 z ≠ "none").
  { intros z E. pose proof (show_u64_digits 20 z "" eq_refl) as H.
    change (show_digits 20 z "") with (show_u64 z) in H. by rewrite E in H. }
  destruct a as [x|], b as [y|]; cbn [expires_text opt_u64]; intros Ha Hb E; [|by edestruct Hn..|done].
  f_equal. by apply show_u64_inj.
Qed.

(** The signed bytes determine what they vouch for.  For key ids without a newline,
    two messages are the same bytes only if schema, version, both times, key id and
    payload are the same: no field can be shifted into another. *)
Theorem signing_bytes_inj v g x k p sc v' g' x' k' p' sc' :
  is_u64 sc → is_u64 sc' → is_u64 v → is_u64 v' → is_u64 g → is_u64 g' → opt_u64 x → opt_u64 x' →
  all_bytes no_newline k = true → all_bytes no_newline k' = true →
  compute_signing_bytes sc v g x k p = compute_signing_bytes sc' v' g' x' k' p' →
  sc = sc' ∧ v = v' ∧ g = g' ∧ x = x' ∧ k = k' ∧ p = p'.
Proof.
  intros Hs Hs' Hv Hv' Hg Hg' Hx Hx' Hk Hk' E. unfold compute_signing_bytes in E.
  fold (expires_text x) (expires_text x') in E. set (L := LF) in E.
  apply append_same_length in E as [_ E]; [|done]. apply append_same_length in E as [_ E]; [|done].
  apply append_same_length in E as [_ E]; [|done]. unfold L in E.
  apply line_cut in E as [E1 E]; [|by apply show_u64_line..].
  apply append_same_length in E as [_ E]; [|done].
  apply line_cut in E as [E2 E]; [|by apply show_u64_line..].
  apply append_same_length in E as [_ E]; [|done].
  apply line_cut in E as [E3 E]; [|by apply show_u64_line..].
  apply append_same_length in E as [_ E]; [|done].
  apply line_cut in E as [E4 E]; [|by apply expires_line..].
  apply append_same_length in E as [_ E]; [|done].
  apply line_cut in E as [E5 E]; [|done..].
  apply append_same_length in E as [_ E]; [|done]. apply append_same_length in E as [_ E]; [|done].
  split_and!; try by apply show_u64_inj. by apply expires_text_inj. done. done.
Qed.

Section envelope.
Context {Key Sig : Type} (check : Key → string → Sig → bool).
Context (signature_of : string → result string Sig) (base64 : string → result string string).

(** ** Acceptance *)

(** What an accepted envelope says of its header. *)
Record header_ok (keyring : gmap string Key) (e : CatalogEnvelope) (active lkg : option Z)
    (now skew : Z) (key : Key) : Prop := {
  h_schema : schema_version e = SCHEMA_VERSION_V1;
  h_key : keyring !! key_id e = Some key;
  h_active : ∀ a, active = Some a → a < catalog_version e;
  h_lkg : ∀ l, lkg = Some l → l < catalog_version e;
  h_past : generated_at e ≤ saturating_add_u64 now skew;
  h_fresh : ∀ exp, expires_at e = Some exp → now ≤ exp;
}.

Lemma threshold_iff e active lkg :
  match threshold_of active lkg with
  | Some t => if catalog_version e <=? t
              then Err (VersionDowngrade (catalog_version e) active lkg t) else Ok tt
  | None => Ok tt
  end = Ok tt ↔
  (∀ a, active = Some a → a < catalog_version e) ∧ (∀ l, lkg = Some l → l < catalog_version e).
Proof.
  destruct active as [a|], lkg as [l|]; cbn; try case_match eqn:Hle; bool_to_prop;
    (split; [intros ?; try done; split; intros ? [= <-]; lia|]);
    intros [H1 H2]; try done; exfalso;
    try (pose proof (H1 _ eq_refl)); try (pose proof (H2 _ eq_refl)); lia.
Qed.

Lemma check_header_iff keyring e active lkg now skew key :
  check_header keyring e active lkg now skew = Ok key ↔
  header_ok keyring e active lkg now skew key.
Proof.
  unfold check_header. destruct (Z.eqb_spec (schema_version e) SCHEMA_VERSION_V1) as [Hs|Hs]; cbn [negb].
  2: { split; [done|]. by intros []. }
  destruct (keyring !! key_id e) as [k|] eqn:Hk.
  2: { split; [done|]. intros []. congruence. }
  pose proof (threshold_iff e active lkg) as Ht.
  destruct (match threshold_of active lkg with Some t => _ | None => _ end) as [[]|err].
  2: { split; [done|]. intros [_ _ H1 H2 _ _]. discriminate (proj2 Ht (conj H1 H2)). }
  destruct (proj1 Ht eq_refl) as [Ha Hl]. cbn [mbind result_bind].
  destruct (Z.ltb_spec (saturating_add_u64 now skew) (generated_at e)) as [Hg|Hg].
  { split; [done|]. intros [_ _ _ _ H _]. lia. }
  destruct (expires_at e) as [exp|] eqn:Hexp; [destruct (Z.ltb_spec exp now)|].
  - split; [done|]. intros [_ _ _ _ _ H']. specialize (H' exp Hexp). lia.
  - split; [intros [= <-]; split; try done; intros ? E; congruence|].
    intros [_ Hk' _ _ _ _]. congruence.
  - split; [intros [= <-]; split; try done; intros ? E; congruence|].
    intros [_ Hk' _ _ _ _]. congruence.
Qed.

(** The signature of an envelope over a payload. *)
Definition signed_by (key : Key) (e : CatalogEnvelope) (payload : string) : Prop :=
  ∃ bytes sig, base64 (trim (signature e)) = Ok bytes ∧ signature_of bytes = Ok sig ∧
    check key (compute_signing_bytes (schema_version e) (catalog_version e) (generated_at e)
                 (expires_at e) (key_id e) payload) sig = true.

Lemma check_signature_iff key e payload :
  check_signature check signature_of base64 key e payload = Ok tt ↔ signed_by key e payload.
Proof.
  unfold check_signature, signed_by. destruct (base64 (trim (signature e))) as [bytes|]; cbn.
  2: { split; [done|]. by intros (? & ? & ? & _). }
  destruct (signature_of bytes) as [sig|] eqn:Hs; cbn.
  2: { split; [done|]. intros (? & ? & [= <-] & ? & _). congruence. }
  case_match eqn:Hc; (split; [intros; try done; eauto|]).
  - done.
  - intros (? & ? & [= <-] & ? & ?). congruence.
Qed.

Section content.
Context (parse_json : string → result string Json.Value) (print_json : Json.Value → string).
Context (parse_snapshot : string → result string Snapshot.RegistrySnapshot).

Abbreviation verify :=
  (verify_catalog_envelope check signature_of base64 parse_json print_json parse_snapshot).

Record content_ok (e : CatalogEnvelope) (payload : string) (s : Snapshot.RegistrySnapshot)
  : Prop := {
  c_canonical : ∃ v, parse_json payload = Ok v ∧ print_json v = payload;
  c_snapshot : parse_snapshot payload = Ok s;
  c_version : Snapshot.version s = catalog_version e;
  c_models : Snapshot.models s ≠ ∅;
  c_routable : has_routable_binding s = true;
  c_valid : Snapshot.validate s = Ok tt;
}.

Lemma check_content_iff e payload s :
  check_content parse_json print_json parse_snapshot e payload = Ok s ↔ content_ok e payload s.
Proof.
  unfold check_content, is_canonical_json, canonicalize_json.
  destruct (parse_json payload) as [v|] eqn:Hp; cbn.
  2: { split; [done|]. intros [(v & ? & _) _ _ _ _ _]. congruence. }
  case_bool_decide as Hc; cbn.
  2: { split; [done|]. intros [(v' & ? & ?) _ _ _ _ _]. congruence. }
  destruct (parse_snapshot payload) as [s'|] eqn:Hs; cbn.
  2: { split; [done|]. intros [_ ? _ _ _ _]. congruence. }
  destruct (Z.eqb_spec (Snapshot.version s') (catalog_version e)) as [Hv|Hv]; cbn.
  2: { split; [done|]. intros [_ ? ? _ _ _]. congruence. }
  case_bool_decide as Hm.
  { split; [done|]. intros [_ ? _ ? _ _]. congruence. }
  destruct (has_routable_binding s') eqn:Hr; cbn.
  2: { split; [done|]. intros [_ ? _ _ ? _]. congruence. }
  destruct (Snapshot.validate s') as [[]|] eqn:Hval; cbn.
  - split; [intros [= <-]; split; eauto|]. intros [_ ? _ _ _ _]. congruence.
  - split; [done|]. intros [_ ? _ _ _ ?]. congruence.
Qed.

Lemma verify_iff e payload keyring active lkg now skew s :
  verify e payload keyring active lkg now skew = Ok s ↔
  ∃ key, header_ok keyring e active lkg now skew key ∧ signed_by key e payload ∧
         content_ok e payload s.
Proof.
  unfold verify_catalog_envelope. split.
  - intros (key & Hh & H)%rbind_Ok. apply rbind_Ok in H as ([] & Hs & Hc).
    exists key. rewrite <- check_header_iff, <- check_signature_iff, <- check_content_iff. done.
  - intros (key & Hh & Hs & Hc). rewrite <- check_header_iff in Hh.
    rewrite <- check_signature_iff in Hs. rewrite <- check_content_iff in Hc.
    rewrite Hh. cbn. rewrite Hs. exact Hc.
Qed.

(** Acceptance is exact.  A catalog is accepted if and only if its envelope has the
    known schema, a key of the keyring, a version above both the active and the
    last-known-good one, a time that is not in the future beyond the skew and not past
    its expiry, a valid signature of that key over exactly these fields and bytes, and
    a canonical payload that is a valid, routable catalog of the announced version. *)
Theorem verify_exact e payload keyring active lkg now skew s :
  verify e payload keyring active lkg now skew = Ok s ↔
  ∃ key, header_ok keyring e active lkg now skew key ∧ signed_by key e payload ∧
         content_ok e payload s.
Proof. apply verify_iff. Qed.

(** An accepted catalog resolves: what the signature vouches for is a catalog on which
    alias resolution cannot fail. *)
Lemma verify_valid e payload keyring active lkg now skew s :
  verify e payload keyring active lkg now skew = Ok s → Snapshot.validate s = Ok tt.
Proof. intros (key & _ & _ & [])%verify_iff. done. Qed.
End content.

(** Unsigned bytes are never interpreted.  Unless some key of the keyring has signed
    exactly these fields and bytes, the answer does not depend on what any JSON parser
    makes of the payload - so no parser sees it before the signature was checked. *)
Theorem unsigned_not_interpreted e payload keyring active lkg now skew
    parse print parse_snapshot parse' print' parse_snapshot' :
  (∀ key, keyring !! key_id e = Some key → ¬ signed_by key e payload) →
  verify_catalog_envelope check signature_of base64 parse print parse_snapshot
    e payload keyring active lkg now skew =
  verify_catalog_envelope check signature_of base64 parse' print' parse_snapshot'
    e payload keyring active lkg now skew.
Proof.
  intros Hno. unfold verify_catalog_envelope.
  destruct (check_header keyring e active lkg now skew) as [key|] eqn:Hh; [|done]. cbn.
  apply check_header_iff in Hh. pose proof (h_key _ _ _ _ _ _ _ Hh) as Hk.
  destruct (check_signature check signature_of base64 key e payload) as [[]|] eqn:Hs; [|done].
  apply check_signature_iff in Hs. by destruct (Hno key Hk).
Qed.

(** ** Signing *)

(** A signature scheme with its encodings: what is signed verifies, and survives the
    text form. *)
Record scheme (sign : string → Sig) (encode : Sig → string) (key : Key) : Prop := {
  s_verifies : ∀ m, check key m (sign m) = true;
  s_encoded : ∀ m, ∃ bytes, base64 (trim (encode (sign m))) = Ok bytes ∧
                            signature_of bytes = Ok (sign m);
}.

(** Sign, then verify.  What a signer signs is accepted by every keyring that has its
    key, as long as the version is newer, the times fit and the content is a valid
    catalog of that version. *)
Theorem sign_verify_roundtrip sign encode key signer version generated expires payload env
    parse print parse_snapshot keyring active lkg now skew s :
  scheme sign encode key → keyring !! signer = Some key →
  sign_catalog parse print sign encode signer version generated expires payload = Ok env →
  (∀ a, active = Some a → a < version) → (∀ l, lkg = Some l → l < version) →
  generated ≤ saturating_add_u64 now skew → (∀ exp, expires = Some exp → now ≤ exp) →
  parse_snapshot payload = Ok s → Snapshot.version s = version → Snapshot.models s ≠ ∅ →
  has_routable_binding s = true → Snapshot.validate s = Ok tt →
  verify_catalog_envelope check signature_of base64 parse print parse_snapshot
    env payload keyring active lkg now skew = Ok s.
Proof.
  intros [Hv He] Hk (can & Hcan & Hs)%rbind_Ok Ha Hl Hg Hx Hp Hver Hm Hr Hval.
  destruct can; [|done]. injection Hs as <-. apply verify_iff. exists key. split_and!.
  - split; cbn; done.
  - destruct (He (compute_signing_bytes SCHEMA_VERSION_V1 version generated expires signer payload))
      as (bytes & Hb & Hs). exists bytes, (sign (compute_signing_bytes SCHEMA_VERSION_V1 version generated expires signer payload)).
    cbn. split_and!; [done..|apply Hv].
  - split; cbn; try done. apply rbind_Ok in Hcan as (c & Hc & [= Hd]).
    apply rbind_Ok in Hc as (v & Hpv & [= <-]). bool_to_prop.
    destruct (parse payload) as [v'|]; [|done]. injection Hpv as ->. eauto.
Qed.
End envelope.
