(* ===== verification/CatalogManager.v ===== *)
(** * The catalog manager (crates/gateway/src/registry/manager.rs, cache.rs)

    The catalog a gateway serves from: the embedded one, the last-known-good file, or a
    newer signed one from the remote.

    The disk and the network are arguments: the bytes of the cache file, the result of
    writing it, and the two HTTP exchanges of a refresh.  [read_package] and
    [write_package] are serde_json on the package that file holds.  [compose] is the composition of a catalog with
    the settings ([Settings::validate_against_registry]) when settings are bound, and
    [adopt] the composition of the runtime's pool with it when a runtime is bound; the
    published runtime registry is what [adopt] makes of it.  Locks that make an update
    atomic are one step. *)

From Stdlib Require Import Ascii.
From stdpp Require Import gmap strings list.
From S2P Require Import Prelude RustStr RegistryTypes RegistrySnapshot Json Envelope.
Import RustStr Registry Envelope.
Open Scope Z_scope.

Module Catalog.

Inductive CatalogError :=
  | NotFound                               (* [Io] of kind NotFound *)
  | Io (text : string)
  | Serialization (text : string)
  | RegistryFailed (e : RegistryError)     (* [Registry] *)
  | Verification (e : CatalogVerificationError)
  | Http (text : string)
  | RemoteUnpublished
  | InvalidState (text : string).

Definition rejection_reason (e : CatalogError) : string :=
  match e with
  | NotFound | Io _ => "io"
  | Serialization _ => "serialization"
  | RegistryFailed _ => "registry"
  | Verification _ => "verification"
  | Http _ => "http"
  | RemoteUnpublished => "unpublished"
  | InvalidState _ => "invalid_state"
  end.

(** ** The cache file *)

Record SignedCatalogPackage := {
  envelope : CatalogEnvelope;
  payload : Json.Value;
  raw_payload : option string;
}.

(** What the file holds; a write that fails leaves it as it is. *)
Inductive CacheFile :=
  | Missing
  | Unreadable (text : string)
  | File (raw : string).

Record CatalogStatus := {
  active_version : Z;
  active_source : CatalogSource;
  lkg_version : option Z;
  status_generated_at : option Z;
  loaded_at : Z;
  stale : bool;
  last_refresh_at : option Z;
  last_refresh_success : bool;
  last_refresh_duration_ms : option Z;
  last_rejection_reason : option string;
  last_error : option string;
  model_count : nat;
  provider_count : nat;
}.

Definition with_source (s : Snapshot.RegistrySnapshot) (src : CatalogSource)
  : Snapshot.RegistrySnapshot :=
  {| Snapshot.version := Snapshot.version s; Snapshot.snap_source := src;
     Snapshot.models := Snapshot.models s; Snapshot.providers := Snapshot.providers s;
     Snapshot.aliases := Snapshot.aliases s; Snapshot.exclusions := Snapshot.exclusions s |}.

Section manager.
Context {Key Sig : Type} (check : Key → string → Sig → bool).
Context (signature_of : string → result string Sig) (base64 : string → result string string).
Context (parse_json : string → result string Json.Value) (print_json : Json.Value → string).
Context (parse_snapshot : string → result string Snapshot.RegistrySnapshot).
Context (parse_envelope : string → result string CatalogEnvelope).
Context (text : CatalogError → string).
Context (read_package : string → result string SignedCatalogPackage).
Context (write_package : SignedCatalogPackage → result string string).
Context (keyring : gmap string Key) (skew : Z) (max_bytes : Z).

Definition verify (e : CatalogEnvelope) (bytes : string) (active lkg : option Z) (now : Z)
  : result CatalogError Snapshot.RegistrySnapshot :=
  map_err Verification
    (verify_catalog_envelope check signature_of base64 parse_json print_json parse_snapshot
       e bytes keyring active lkg now skew).

Definition package_new (e : CatalogEnvelope) (raw : string)
  : result CatalogError SignedCatalogPackage :=
  v ← map_err Serialization (parse_json raw);
  if valid_utf8 raw then Ok {| envelope := e; payload := v; raw_payload := Some raw |}
  else Err (InvalidState "canonical payload is not valid UTF-8").

Definition payload_bytes (p : SignedCatalogPackage) : result CatalogError string :=
  let reprinted := map_err Verification
                     (canonicalize_json parse_json print_json (print_json (payload p))) in
  match raw_payload p with
  | Some raw => match is_canonical_json parse_json print_json raw with
                | Ok true => Ok raw
                | _ => reprinted
                end
  | None => reprinted
  end.

(** [load_with_generated_at]. *)
Definition load (f : CacheFile) (now : Z) : result CatalogError (Snapshot.RegistrySnapshot * Z) :=
  match f with
  | Missing => Err NotFound
  | Unreadable t => Err (Io t)
  | File raw =>
      p ← map_err Serialization (read_package raw);
      bytes ← payload_bytes p;
      s ← verify (envelope p) bytes None None now;
      Ok (with_source s LkgCache, generated_at (envelope p))
  end.

(** ** The manager *)

(** [runtime] is the registry the bound runtime publishes. *)
Record Manager := {
  active : Snapshot.RegistrySnapshot;
  cache : CacheFile;
  status : CatalogStatus;
  runtime : option Snapshot.RegistrySnapshot;
  etags : option string * option string;   (* of the signature and of the catalog *)
  in_flight : bool;
  completions : Z;
}.

Definition with_status (m : Manager) (s : CatalogStatus) : Manager :=
  {| active := active m; cache := cache m; status := s; runtime := runtime m; etags := etags m;
     in_flight := in_flight m; completions := completions m |}.
Definition with_etags (m : Manager) (t : option string * option string) : Manager :=
  {| active := active m; cache := cache m; status := status m; runtime := runtime m; etags := t;
     in_flight := in_flight m; completions := completions m |}.

Definition boot_with_metrics (embedded : Snapshot.RegistrySnapshot) (f : CacheFile) (now : Z)
  : Manager :=
  let '(act, lkg, gen, error) :=
    match load f now with
    | Ok (s, g) =>
        (if Snapshot.version embedded <=? Snapshot.version s then s else embedded,
         Some (Snapshot.version s), Some g, None)
    | Err NotFound => (embedded, None, None, None)
    | Err e => (embedded, None, None, Some ("LKG cache corrupted: " +:+ text e))
    end in
  {| active := act; cache := f;
     status := {| active_version := Snapshot.version act; active_source := Snapshot.snap_source act;
                  lkg_version := lkg; status_generated_at := gen; loaded_at := now;
                  stale := is_some error; last_refresh_at := None;
                  last_refresh_success := negb (is_some error); last_refresh_duration_ms := None;
                  last_rejection_reason := None; last_error := error;
                  model_count := size (Snapshot.models act);
                  provider_count := size (Snapshot.providers act) |};
     runtime := None; etags := (None, None); in_flight := false; completions := 0 |}.

Definition current_snapshot (m : Manager) : Snapshot.RegistrySnapshot :=
  default (active m) (runtime m).

Definition current_version (m : Manager) : Z := Snapshot.version (current_snapshot m).

Definition refresh_is_due (last : option Z) (now interval : Z) : bool :=
  match last with
  | None => true
  | Some l => interval <=? saturating_sub_u64 now l
  end.

Definition refresh_due (m : Manager) (now interval : Z) : bool :=
  negb (in_flight m) && refresh_is_due (last_refresh_at (status m)) now interval.

(** ** Updates *)

(** What the rest of the gateway says to a candidate, and the outcome of the write. *)
Record World := {
  compose : option (Snapshot.RegistrySnapshot → result string Snapshot.RegistrySnapshot);
  adopt : Snapshot.RegistrySnapshot → result string Snapshot.RegistrySnapshot;
  disk : result CatalogError unit;
}.

(** [write_atomically]: the file is replaced by a rename or not at all. *)
Definition write_atomically (w : World) (e : CatalogEnvelope) (bytes : string)
  : result CatalogError CacheFile :=
  p ← package_new e bytes;
  serialized ← map_err Serialization (write_package p);
  match disk w with Ok _ => Ok (File serialized) | Err err => Err err end.

Definition updated_status (s : CatalogStatus) (new : Snapshot.RegistrySnapshot)
    (e : CatalogEnvelope) (now : Z) : CatalogStatus :=
  {| active_version := Snapshot.version new; active_source := RemoteSigned;
     lkg_version := Some (Snapshot.version new); status_generated_at := Some (generated_at e);
     loaded_at := now; stale := false; last_refresh_at := Some now; last_refresh_success := true;
     last_refresh_duration_ms := last_refresh_duration_ms s; last_rejection_reason := None;
     last_error := None; model_count := size (Snapshot.models new);
     provider_count := size (Snapshot.providers new) |}.

(** [apply_update_inner], on success with the new state. *)
Definition apply_update_inner (w : World) (m : Manager) (e : CatalogEnvelope) (bytes : string)
    (now : Z) : result CatalogError (Snapshot.RegistrySnapshot * Manager) :=
  verified ← verify e bytes (Some (Snapshot.version (active m))) (lkg_version (status m)) now;
  let new := with_source verified RemoteSigned in
  composed ← match compose w with
             | Some f => map_err InvalidState (f new)
             | None => Ok new
             end;
  published ← match runtime m with
              | Some _ => s ← map_err InvalidState (adopt w composed); Ok (Some s)
              | None => Ok None
              end;
  f ← map_err (λ err, InvalidState (text err)) (write_atomically w e bytes);
  Ok (new, {| active := new; cache := f; status := updated_status (status m) new e now;
              runtime := published; etags := etags m; in_flight := in_flight m;
              completions := completions m |}).

Definition failed_status (s : CatalogStatus) (err : CatalogError) (now : Z) : CatalogStatus :=
  {| active_version := active_version s; active_source := active_source s;
     lkg_version := lkg_version s; status_generated_at := status_generated_at s;
     loaded_at := loaded_at s; stale := true; last_refresh_at := Some now;
     last_refresh_success := false; last_refresh_duration_ms := last_refresh_duration_ms s;
     last_rejection_reason := Some (rejection_reason err); last_error := Some (text err);
     model_count := model_count s; provider_count := provider_count s |}.

Definition apply_verified_update (w : World) (m : Manager) (e : CatalogEnvelope) (bytes : string)
    (now : Z) : result CatalogError Snapshot.RegistrySnapshot * Manager :=
  match apply_update_inner w m e bytes now with
  | Ok (s, m') => (Ok s, m')
  | Err err => (Err err, with_status m (failed_status (status m) err now))
  end.

(** ** Refreshing *)

Record HttpResponse := {
  code : Z;
  etag : option string;
  content_length : option Z;
  chunks : list (result string string);
}.

Definition too_large (context : string) (n : Z) : CatalogError :=
  Http (context +:+ " body size " +:+ show_u64 n +:+ " exceeds cap " +:+ show_u64 max_bytes).

(** [read_stream_bounded_body]. *)
Fixpoint read_chunks (context : string) (body : string) (cs : list (result string string))
  : result CatalogError string :=
  match cs with
  | [] => Ok body
  | Err e :: _ => Err (Http ("failed to read " +:+ context +:+ " bytes: " +:+ e))
  | Ok c :: cs =>
      let n := saturating_add_u64 (strlen body) (strlen c) in
      if max_bytes <? n then Err (too_large context n) else read_chunks context (body +:+ c) cs
  end.

Definition read_stream_bounded_body (r : HttpResponse) (context : string)
  : result CatalogError string :=
  match content_length r with
  | Some n => if max_bytes <? n then Err (too_large context n) else read_chunks context "" (chunks r)
  | None => read_chunks context "" (chunks r)
  end.

(** One conditional GET: the current catalog is still good, there is none, or a body
    with its tag. *)
Inductive Fetched := NotModified | Body (bytes : string) (tag : option string).

Definition fetch (context : string) (r : result string HttpResponse)
  : result CatalogError Fetched :=
  match r with
  | Err e => Err (Http ("failed to fetch " +:+ context +:+ ": " +:+ e))
  | Ok r =>
      if code r =? 304 then Ok NotModified
      else if code r =? 404 then Err RemoteUnpublished
      else if (400 <=? code r) && (code r <=? 599)
      then Err (Http (context +:+ " HTTP status error: " +:+ show_u64 (code r)))
      else bytes ← read_stream_bounded_body r context; Ok (Body bytes (etag r))
  end.

Definition fetch_and_apply_inner (w : World) (m : Manager) (sig cat : result string HttpResponse)
    (now : Z) : result CatalogError Snapshot.RegistrySnapshot * Manager :=
  match fetch "signature" sig with
  | Err e => (Err e, m)
  | Ok NotModified => (Ok (current_snapshot m), m)
  | Ok (Body sig_bytes sig_tag) =>
      match (if valid_utf8 sig_bytes
             then map_err (λ t, Verification (MalformedJson t)) (parse_envelope sig_bytes)
             else Err (Http "signature not UTF-8")) with
      | Err e => (Err e, m)
      | Ok env =>
          match fetch "catalog" cat with
          | Err e => (Err e, m)
          | Ok NotModified => (Ok (current_snapshot m), m)
          | Ok (Body bytes cat_tag) =>
              if catalog_version env =? current_version m then
                match verify env bytes None None now with
                | Err e => (Err e, m)
                | Ok _ => (Ok (current_snapshot m), with_etags m (sig_tag, cat_tag))
                end
              else
                match apply_verified_update w m env bytes now with
                | (Ok s, m') => (Ok s, with_etags m' (sig_tag, cat_tag))
                | (Err e, m') => (Err e, m')
                end
          end
      end
  end.

Definition healthy_status (s : CatalogStatus) (now duration : Z) : CatalogStatus :=
  {| active_version := active_version s; active_source := active_source s;
     lkg_version := lkg_version s; status_generated_at := status_generated_at s;
     loaded_at := loaded_at s; stale := false; last_refresh_at := Some now;
     last_refresh_success := true; last_refresh_duration_ms := Some duration;
     last_rejection_reason := None; last_error := None; model_count := model_count s;
     provider_count := provider_count s |}.

Definition timed_failure (s : CatalogStatus) (err : CatalogError) (now duration : Z)
  : CatalogStatus :=
  let s := failed_status s err now in
  {| active_version := active_version s; active_source := active_source s;
     lkg_version := lkg_version s; status_generated_at := status_generated_at s;
     loaded_at := loaded_at s; stale := stale s; last_refresh_at := last_refresh_at s;
     last_refresh_success := last_refresh_success s; last_refresh_duration_ms := Some duration;
     last_rejection_reason := last_rejection_reason s; last_error := last_error s;
     model_count := model_count s; provider_count := provider_count s |}.

(** [fetch_and_update]; [urls] is the check of the two configured URLs. *)
Definition fetch_and_update (w : World) (m : Manager) (urls : result CatalogError unit)
    (sig cat : result string HttpResponse) (now duration : Z)
  : result CatalogError Snapshot.RegistrySnapshot * Manager :=
  match urls with
  | Err e => (Err e, m)
  | Ok _ =>
      match fetch_and_apply_inner w m sig cat now with
      | (Ok s, m) => (Ok s, with_status m (healthy_status (status m) now duration))
      | (Err RemoteUnpublished, m) =>
          let m := with_status m (healthy_status (status m) now duration) in
          (Ok (current_snapshot m), m)
      | (Err e, m) => (Err e, with_status m (timed_failure (status m) e now duration))
      end
  end.

(** ** The background task *)

Inductive RefreshEnqueue := Accepted | Coalesced.

Definition with_flight (m : Manager) (b : bool) (n : Z) : Manager :=
  {| active := active m; cache := cache m; status := status m; runtime := runtime m;
     etags := etags m; in_flight := b; completions := n |}.

Definition enqueue_refresh (m : Manager) : RefreshEnqueue * Manager :=
  if in_flight m then (Coalesced, m) else (Accepted, with_flight m true (completions m)).

(** The spawned task, when its fetch is done. *)
Definition finish_refresh (w : World) (m : Manager) (urls : result CatalogError unit)
    (sig cat : result string HttpResponse) (now duration : Z) : Manager :=
  let '(_, m) := fetch_and_update w m urls sig cat now duration in
  with_flight m false (wrap_u64 (completions m + 1)).

End manager.

(** ** URLs *)

(** A URL as the [url] crate parses it. *)
Record Url := {
  username : string;
  password : option string;
  scheme : string;
  host_str : option string;
}.

Definition validate_url (parse : string → result string Url) (url : string)
  : result CatalogError unit :=
  u ← map_err (λ e, Http ("invalid catalog URL '" +:+ url +:+ "': " +:+ e)) (parse url);
  if negb (is_empty (username u)) || is_some (password u)
  then Err (Http "catalog URL must not contain credentials")
  else if bool_decide (scheme u = "https") then Ok tt
  else if bool_decide (scheme u = "http") then
    if bool_decide (default "" (host_str u) ∈ ["127.0.0.1"; "localhost"; "::1"]) then Ok tt
    else Err (Http ("insecure HTTP URL not allowed for remote catalog: " +:+ url))
  else Err (Http ("unsupported URL scheme '" +:+ scheme u +:+ "' in " +:+ url)).

End Catalog.
