(* ===== verification/CatalogProps.v ===== *)
(** * Properties of the catalog manager

    Versions never go back, every catalog in use is the embedded one or one that a
    trusted key signed, a refused update changes nothing that is served, an accepted one
    survives a restart, and no body larger than the cap is read. *)

From Stdlib Require Import Ascii.
From stdpp Require Import gmap strings list sorting.
From S2P Require Import Prelude RustStr RegistryTypes RegistrySnapshot Json Envelope CatalogManager.
Import RustStr Registry Envelope Catalog.
Open Scope Z_scope.

Section catalog.
Context {Key Sig : Type} (check : Key → string → Sig → bool).
Context (signature_of : string → result string Sig) (base64 : string → result string string).
Context (parse_json : string → result string Json.Value) (print_json : Json.Value → string).
Context (parse_snapshot : string → result string Snapshot.RegistrySnapshot).
Context (parse_envelope : string → result string CatalogEnvelope).
Context (text : CatalogError → string).
Context (read_package : string → result string SignedCatalogPackage).
Context (write_package : SignedCatalogPackage → result string string).
Context (keyring : gmap string Key) (skew : Z) (max_bytes : Z).

Abbreviation verify := (verify check signature_of base64 parse_json print_json parse_snapshot keyring skew).
Abbreviation boot := (boot_with_metrics check signature_of base64 parse_json print_json parse_snapshot text read_package keyring skew).
Abbreviation apply_inner := (apply_update_inner check signature_of base64 parse_json print_json parse_snapshot text write_package keyring skew).
Abbreviation apply_update := (apply_verified_update check signature_of base64 parse_json print_json parse_snapshot text write_package keyring skew).
Abbreviation fetch_apply := (fetch_and_apply_inner check signature_of base64 parse_json print_json parse_snapshot parse_envelope text write_package keyring skew max_bytes).
Abbreviation update := (fetch_and_update check signature_of base64 parse_json print_json parse_snapshot parse_envelope text write_package keyring skew max_bytes).

(** ** Provenance *)

(** A catalog whose bytes a key of the keyring signed. *)
Definition trusted (s : Snapshot.RegistrySnapshot) : Prop :=
  ∃ e bytes key s0, keyring !! key_id e = Some key ∧
    signed_by check signature_of base64 key e bytes ∧
    content_ok parse_json print_json parse_snapshot e bytes s0 ∧
    ∃ src, s = with_source s0 src.

Lemma verify_Ok e bytes active lkg now s :
  verify e bytes active lkg now = Ok s →
  ∃ key, header_ok keyring e active lkg now skew key ∧
         signed_by check signature_of base64 key e bytes ∧
         content_ok parse_json print_json parse_snapshot e bytes s.
Proof.
  unfold Catalog.verify, map_err. intros H. rewrite <- verify_iff. case_match; congruence.
Qed.

Lemma verify_trusted e bytes active lkg now s src :
  verify e bytes active lkg now = Ok s → trusted (with_source s src).
Proof.
  intros (key & Hh & Hs & Hc)%verify_Ok. exists e, bytes, key, s.
  split_and!; [apply Hh|done..|eauto].
Qed.

Lemma load_trusted f now s g : load check signature_of base64 parse_json print_json parse_snapshot read_package keyring skew f now = Ok (s, g) → trusted s.
Proof.
  destruct f as [| |raw]; cbn; try done. intros (p & _ & H)%rbind_Ok.
  apply rbind_Ok in H as (bytes & _ & H).
  apply rbind_Ok in H as (s0 & Hv & [= <- <-]). by eapply verify_trusted.
Qed.

(** ** One update *)

(** The steps of an accepted update. *)
Lemma apply_inner_Ok w m e bytes now s m' :
  apply_inner w m e bytes now = Ok (s, m') →
  ∃ s0 v, verify e bytes (Some (Snapshot.version (active m))) (lkg_version (status m)) now = Ok s0 ∧
    s = with_source s0 RemoteSigned ∧ active m' = s ∧
    parse_json bytes = Ok v ∧
    (∃ raw, write_package {| envelope := e; payload := v; raw_payload := Some bytes |} = Ok raw ∧
            cache m' = File raw) ∧
    status m' = updated_status (status m) s e now ∧ etags m' = etags m.
Proof.
  unfold apply_update_inner. intros (s0 & Hv & H)%rbind_Ok.
  apply rbind_Ok in H as (c & _ & H). apply rbind_Ok in H as (p & _ & H).
  apply rbind_Ok in H as (f & Hw & [= <- <-]).
  unfold write_atomically, package_new in Hw.
  destruct (parse_json bytes) as [v|] eqn:Hp; [|done]. cbn in Hw.
  destruct (valid_utf8 bytes); [|done]. cbn in Hw.
  destruct (write_package _) as [raw|] eqn:Hser; [|done]. cbn in Hw.
  destruct (disk w); [|done]. cbn in Hw. injection Hw as <-. exists s0, v. split_and!; eauto.
Qed.

(** The version bookkeeping the downgrade check reads. *)
Record versions_ok (m : Manager) : Prop := {
  v_status : active_version (status m) = Snapshot.version (active m);
  v_lkg : ∀ l, lkg_version (status m) = Some l → l ≤ Snapshot.version (active m);
}.

Lemma boot_ok embedded f now : versions_ok (boot embedded f now).
Proof.
  unfold boot_with_metrics. destruct (load _ _ _ _ _ _ _ _ _ _ _) as [[s g]|[]]; split; cbn; try done.
  intros l [= <-]. destruct (Z.leb_spec (Snapshot.version embedded) (Snapshot.version s)); lia.
Qed.

(** ** Sequences *)

Inductive ManagerOp :=
  | Apply (w : World) (e : CatalogEnvelope) (bytes : string) (now : Z)
  | Refresh (w : World) (urls : result CatalogError unit) (sig cat : result string HttpResponse)
      (now duration : Z)
  | Enqueue
  | BindRuntime (s : Snapshot.RegistrySnapshot).

Definition run_op (m : Manager) (op : ManagerOp) : Manager :=
  match op with
  | Apply w e bytes now => (apply_update w m e bytes now).2
  | Refresh w urls sig cat now duration =>
      finish_refresh check signature_of base64 parse_json print_json parse_snapshot parse_envelope
        text write_package keyring skew max_bytes w m urls sig cat now duration
  | Enqueue => (enqueue_refresh m).2
  | BindRuntime s => {| active := active m; cache := cache m; status := status m; runtime := Some s;
                        etags := etags m; in_flight := in_flight m; completions := completions m |}
  end.

(** What one step may do to the served catalog: nothing, or a newer trusted one. *)
Record advances (m m' : Manager) : Prop := {
  a_ok : versions_ok m → versions_ok m';
  a_step : active m' = active m ∧ cache m' = cache m ∨
           Snapshot.version (active m) < Snapshot.version (active m') ∧
           (∀ l, lkg_version (status m) = Some l → l < Snapshot.version (active m')) ∧
           trusted (active m');
}.

Lemma advances_refl m : advances m m.
Proof. split; [done|]. by left. Qed.

(** Changes of anything but the catalog and its versions. *)
Lemma advances_frame m m1 m2 :
  advances m m1 → active m2 = active m1 → cache m2 = cache m1 →
  active_version (status m2) = active_version (status m1) →
  lkg_version (status m2) = lkg_version (status m1) → advances m m2.
Proof.
  intros [H1 H2] Ea Ec Ev El. split.
  - intros Hm. destruct (H1 Hm) as [A B]. split; rewrite ?Ea, ?Ev, ?El; done.
  - rewrite Ea, Ec. done.
Qed.

Lemma apply_advances w m e bytes now : advances m (apply_update w m e bytes now).2.
Proof.
  unfold apply_verified_update. destruct (apply_inner w m e bytes now) as [[s m']|err] eqn:E; cbn.
  2: { by eapply advances_frame; [apply advances_refl|..]. }
  apply apply_inner_Ok in E as (s0 & v & Hv & -> & Ha & Hp & Hc & Hs & _).
  pose proof (verify_Ok _ _ _ _ _ _ Hv) as (key & Hh & _ & Hcon).
  pose proof (c_version _ _ _ _ _ _ Hcon) as Hver. split.
  - intros _. split; rewrite Hs, Ha; cbn; [done|]. by intros l [= <-].
  - right. rewrite Ha. cbn. rewrite Hver. split_and!; [by apply (h_active _ _ _ _ _ _ _ Hh)| |].
    + apply (h_lkg _ _ _ _ _ _ _ Hh).
    + by eapply verify_trusted.
Qed.

Lemma fetch_apply_advances w m sig cat now : advances m (fetch_apply w m sig cat now).2.
Proof.
  unfold fetch_and_apply_inner.
  repeat (case_match; try apply advances_refl); cbn [snd];
    try (by eapply advances_frame; [apply advances_refl|..]).
  - match goal with H : apply_verified_update _ _ _ _ _ _ _ _ _ _ w m ?e ?b now = (_, ?m') |- _ =>
      pose proof (apply_advances w m e b now) as Hadv; rewrite H in Hadv end.
    by eapply advances_frame; [exact Hadv|..].
  - match goal with H : apply_verified_update _ _ _ _ _ _ _ _ _ _ w m ?e ?b now = (_, ?m') |- _ =>
      pose proof (apply_advances w m e b now) as Hadv; rewrite H in Hadv end. done.
Qed.

Lemma update_advances w m urls sig cat now duration :
  advances m (update w m urls sig cat now duration).2.
Proof.
  unfold fetch_and_update. destruct urls as [[]|e]; [|apply advances_refl].
  pose proof (fetch_apply_advances w m sig cat now) as Hadv.
  destruct (fetch_apply w m sig cat now) as [[s|err] m']; cbn [snd] in *.
  - by eapply advances_frame; [exact Hadv|..].
  - by destruct err; cbn [snd]; (eapply advances_frame; [exact Hadv|..]).
Qed.

Lemma op_advances m op : advances m (run_op m op).
Proof.
  destruct op; cbn [run_op].
  - apply apply_advances.
  - unfold finish_refresh. pose proof (update_advances w m urls sig cat now duration) as Hadv.
    destruct (update w m urls sig cat now duration) as [r m']. cbn [snd] in Hadv.
    by eapply advances_frame; [exact Hadv|..].
  - unfold enqueue_refresh. destruct (in_flight m); [apply advances_refl|].
    by eapply advances_frame; [apply advances_refl|..].
  - by eapply advances_frame; [apply advances_refl|..].
Qed.

(** The catalogs served, from a state on. *)
Fixpoint served (m : Manager) (ops : list ManagerOp) : list Snapshot.RegistrySnapshot :=
  active m :: match ops with [] => [] | op :: ops => served (run_op m op) ops end.

Lemma served_head m ops : ∃ l, served m ops = active m :: l.
Proof. destruct ops; by eexists. Qed.

Lemma served_from m ops :
  versions_ok m →
  StronglySorted (λ a b, a = b ∨ Snapshot.version a < Snapshot.version b) (served m ops) ∧
  Forall (λ s, s = active m ∨ trusted s) (served m ops).
Proof.
  revert m. induction ops as [|op ops IH]; intros m Hm; cbn [served].
  - split; [repeat constructor|by repeat constructor].
  - destruct (op_advances m op) as [Hok Hstep]. destruct (IH _ (Hok Hm)) as [Hs Ht].
    assert (Hle : active m = active (run_op m op) ∨
                  Snapshot.version (active m) < Snapshot.version (active (run_op m op))).
    { destruct Hstep as [[-> _]|(H & _ & _)]; auto. }
    split; constructor; try done.
    + assert (Hall : Forall (λ b, active (run_op m op) = b ∨
                       Snapshot.version (active (run_op m op)) < Snapshot.version b)
                      (served (run_op m op) ops)).
      { destruct (served_head (run_op m op) ops) as [l El]. rewrite El in *.
        apply StronglySorted_inv in Hs as [_ Hs]. constructor; [by left|done]. }
      eapply Forall_impl; [exact Hall|]. cbn. intros b [<-|Hb]; [done|].
      destruct Hle as [->|]; [by right|right; lia].
    + by left.
    + eapply Forall_impl; [exact Ht|]. cbn. intros s [-> |Hs']; [|by right].
      destruct Hstep as [[-> _]|(_ & _ & H)]; [by left|by right].
Qed.

(** C15: No rollback, and nothing unsigned.  Whatever updates, refreshes and answers of the
    network follow, the catalogs a gateway serves from only ever move to a strictly
    higher version, and each is the embedded one or one whose bytes a key of the
    keyring signed - also right after the boot, whatever the cache file held. *)
Theorem catalog_never_rolls_back embedded f now ops :
  StronglySorted (λ a b, a = b ∨ Snapshot.version a < Snapshot.version b)
    (served (boot embedded f now) ops) ∧
  Forall (λ s, (s = embedded ∨ trusted s) ∧ Snapshot.version embedded ≤ Snapshot.version s)
    (served (boot embedded f now) ops).
Proof.
  destruct (served_from (boot embedded f now) ops (boot_ok _ _ _)) as [Hs Ht]. split; [done|].
  assert (Hb : (active (boot embedded f now) = embedded ∨ trusted (active (boot embedded f now))) ∧
               Snapshot.version embedded ≤ Snapshot.version (active (boot embedded f now))).
  { unfold boot_with_metrics. destruct (load _ _ _ _ _ _ _ _ _ _ _) as [[s g]|[]] eqn:Hl; cbn;
      try (split; [by left|lia]).
    destruct (Z.leb_spec (Snapshot.version embedded) (Snapshot.version s)); [|split; [by left|lia]].
    split; [right; by eapply load_trusted|lia]. }
  destruct (served_head (boot embedded f now) ops) as [l El]. rewrite El in *.
  apply StronglySorted_inv in Hs as [_ Hs]. apply list.Forall_cons in Ht as [_ Ht].
  constructor; [exact Hb|]. apply list.Forall_forall. intros s Hin.
  rewrite list.Forall_forall in Hs, Ht. destruct Hb as [Hb1 Hb2]. split.
  - destruct (Ht s Hin) as [-> |]; [done|by right].
  - destruct (Hs s Hin) as [<-|]; lia.
Qed.

(** ** Refused updates *)

(** A refused update changes nothing that is served.  When the envelope does not
    verify, the composition is refused or the file cannot be written, the active
    catalog, the cache file, the runtime and the version bookkeeping stay as they were;
    only the status says that the refresh failed and why. *)
Theorem refused_update_inert w m e bytes now err :
  (apply_update w m e bytes now).1 = Err err →
  let m' := (apply_update w m e bytes now).2 in
  active m' = active m ∧ cache m' = cache m ∧ runtime m' = runtime m ∧ etags m' = etags m ∧
  lkg_version (status m') = lkg_version (status m) ∧
  active_version (status m') = active_version (status m) ∧
  stale (status m') = true ∧ last_rejection_reason (status m') = Some (rejection_reason err).
Proof.
  unfold apply_verified_update. destruct (apply_inner w m e bytes now) as [[s m']|err'] eqn:E; [done|].
  cbn. intros [= ->]. done.
Qed.

(** ** Restart *)

(** Nothing up to the active version is accepted. *)
Lemma apply_refuses w m e bytes now :
  catalog_version e ≤ Snapshot.version (active m) →
  ∃ err, (apply_update w m e bytes now).1 = Err err ∧
         active (apply_update w m e bytes now).2 = active m.
Proof.
  intros Hle. unfold apply_verified_update.
  destruct (apply_inner w m e bytes now) as [[s m']|err] eqn:E; [exfalso|by eexists].
  apply apply_inner_Ok in E as (s0 & v & Hv & _). apply verify_Ok in Hv as (key & Hh & _).
  pose proof (h_active _ _ _ _ _ _ _ Hh _ eq_refl). lia.
Qed.

(** What the cache relies on of serde_json: a package that was written reads back with
    its envelope and the text of its payload.  (The parsed payload beside the text may
    differ, as numbers may.) *)
Definition package_reads_back : Prop :=
  ∀ p raw, write_package p = Ok raw →
    ∃ p', read_package raw = Ok p' ∧ envelope p' = envelope p ∧ raw_payload p' = raw_payload p.

Lemma load_written e bytes v raw s0 now now' key :
  package_reads_back →
  write_package {| envelope := e; payload := v; raw_payload := Some bytes |} = Ok raw →
  content_ok parse_json print_json parse_snapshot e bytes s0 →
  signed_by check signature_of base64 key e bytes →
  header_ok keyring e None None now skew key → now ≤ now' →
  (∀ exp, expires_at e = Some exp → now' ≤ exp) →
  load check signature_of base64 parse_json print_json parse_snapshot read_package keyring skew
    (File raw) now' = Ok (with_source s0 LkgCache, generated_at e).
Proof.
  intros Hback Hw Hcon Hsig Hh Hnow Hexp. destruct (Hback _ _ Hw) as (p' & Hr & He & Hraw).
  cbn. rewrite Hr. cbn. destruct (c_canonical _ _ _ _ _ _ Hcon) as (v' & Hp & Hprint).
  unfold payload_bytes, is_canonical_json, canonicalize_json. rewrite Hraw, He. cbn. rewrite Hp. cbn.
  rewrite bool_decide_eq_true_2 by done. cbn. unfold Catalog.verify.
  assert (verify_catalog_envelope check signature_of base64 parse_json print_json parse_snapshot
            e bytes keyring None None now' skew = Ok s0) as ->; [|done].
  apply verify_iff. exists key. split_and!; [|done..]. destruct Hh as [H1 H2 H3 H4 H5 H6].
  split; try done. unfold saturating_add_u64 in *. lia.
Qed.

(** C16: An accepted catalog survives a restart.  Assume of serde_json that a cache package
    it wrote reads back with its envelope and the text of its payload
    ([package_reads_back]).  After an update was accepted, a gateway that boots from the
    cache file - with the same keys, before the catalog expires, with a clock that did
    not go back and with an embedded catalog that is not newer - serves the same catalog,
    now labelled as the last known good one, and refuses every update whose version is
    not above that catalog's. *)
Theorem update_survives_restart w m e bytes now s m' embedded now' :
  package_reads_back →
  apply_update w m e bytes now = (Ok s, m') →
  Snapshot.version embedded ≤ Snapshot.version s → now ≤ now' →
  (∀ exp, expires_at e = Some exp → now' ≤ exp) →
  let m'' := boot embedded (cache m') now' in
  active m'' = with_source s LkgCache ∧ lkg_version (status m'') = Some (Snapshot.version s) ∧
  stale (status m'') = false ∧
  ∀ w2 e2 bytes2 now2, catalog_version e2 ≤ Snapshot.version s →
    ∃ err, (apply_update w2 m'' e2 bytes2 now2).1 = Err err ∧
           active (apply_update w2 m'' e2 bytes2 now2).2 = active m''.
Proof.
  intros Hback. unfold apply_verified_update at 1.
  destruct (apply_inner w m e bytes now) as [[s1 m1]|err] eqn:E; [|done].
  intros [= <- <-] Hver Hnow Hexp. cbn zeta.
  apply apply_inner_Ok in E as (s0 & v & Hv & -> & Ha & Hp & (raw & Hw & Hc) & Hs & _).
  apply verify_Ok in Hv as (key & Hh & Hsig & Hcon). rewrite Hc.
  assert (Hh0 : header_ok keyring e None None now skew key) by (destruct Hh; by split).
  pose proof (load_written _ _ _ _ _ _ _ _ Hback Hw Hcon Hsig Hh0 Hnow Hexp) as Hload.
  set (m'' := boot embedded (File raw) now').
  assert (Hb : active m'' = with_source (with_source s0 RemoteSigned) LkgCache ∧
               lkg_version (status m'') = Some (Snapshot.version s0) ∧ stale (status m'') = false).
  { unfold m'', boot_with_metrics. rewrite Hload. cbn. by rewrite (proj2 (Z.leb_le _ _)). }
  destruct Hb as (Hact & Hlkg & Hst). split_and!; try done.
  intros w2 e2 bytes2 now2 Hle. apply apply_refuses. by rewrite Hact.
Qed.

(** ** Bodies *)

Lemma read_chunks_bounded context cs : ∀ body r,
  strlen body ≤ max_bytes < u64_max → read_chunks max_bytes context body cs = Ok r →
  strlen r ≤ max_bytes ∧
  ∃ parts, cs = Ok <$> parts ∧ r = body +:+ String.concat "" parts.
Proof.
  induction cs as [|[c|err] cs IH]; intros body r Hb; cbn [read_chunks]; [|case_match eqn:Hlt|done].
  - intros [= <-]. split; [lia|]. exists []. cbn. by rewrite append_nil_r.
  - done.
  - bool_to_prop. intros H. unfold saturating_add_u64 in Hlt.
    apply IH in H as (Hr & parts & -> & ->).
    + split; [done|]. exists (c :: parts). split; [done|].
      destruct parts as [|p parts]; [by rewrite append_nil_r|].
      change (String.concat "" (c :: p :: parts)) with (c +:+ String.concat "" (p :: parts)).
      by rewrite append_assoc.
    + rewrite strlen_app. lia.
Qed.

(** Bodies are bounded before they are read.  A body that is accepted is exactly the
    bytes of its chunks and not longer than the cap, whatever its announced length. *)
Theorem bounded_body r context body :
  0 ≤ max_bytes < u64_max → read_stream_bounded_body max_bytes r context = Ok body →
  strlen body ≤ max_bytes ∧
  ∃ parts, chunks r = Ok <$> parts ∧ body = String.concat "" parts.
Proof.
  intros Hm. unfold read_stream_bounded_body. intros H.
  assert (H' : read_chunks max_bytes context "" (chunks r) = Ok body).
  { destruct (content_length r); [|done]. by case_match. }
  apply read_chunks_bounded in H'; [|done]. exact H'.
Qed.
End catalog.

(** ** A catalog through a toy signature scheme *)

Module Demo.

(** A signature is the key and the message. *)
Definition toy_check (key message sig : string) : bool := bool_decide (sig = key +:+ message).
Definition as_is (s : string) : result string string := Ok s.
Definition toy_parse (s : string) : result string Json.Value := Ok (Json.VString s).
Definition toy_print (v : Json.Value) : string :=
  match v with Json.VString s => s | _ => "" end.

Definition seven : Snapshot.RegistrySnapshot :=
  {| Snapshot.version := 7; Snapshot.snap_source := RemoteSigned;
     Snapshot.models :=
       {[ "m" := Registry.with_bindings (Registry.ModelDescriptor_new "m" "p")
                   {[ "p" := Registry.ProviderBinding_new "p" PolicyClosed RemoteSigned ]} ]};
     Snapshot.providers := {[ "p" := PolicyClosed ]}; Snapshot.aliases := ∅;
     Snapshot.exclusions := ∅ |}.
Definition toy_snapshot (s : string) : result string Snapshot.RegistrySnapshot := Ok seven.
Definition six : Snapshot.RegistrySnapshot :=
  {| Snapshot.version := 6; Snapshot.snap_source := EmbeddedFallback;
     Snapshot.models := Snapshot.models seven; Snapshot.providers := Snapshot.providers seven;
     Snapshot.aliases := ∅; Snapshot.exclusions := ∅ |}.

Definition keys : gmap string string := {[ "k" := "secret" ]}.

Definition signed_seven : CatalogEnvelope :=
  Envelope.new 7 "k" 100 (Some 900)
    ("secret" +:+ compute_signing_bytes SCHEMA_VERSION_V1 7 100 (Some 900) "k" "catalog").
Definition forged_seven : CatalogEnvelope := Envelope.new 7 "k" 100 (Some 900) "secret".

Definition no_text (e : CatalogError) : string := "".

(** A cache file that holds the payload of packages under this one envelope. *)
#[global] Instance CatalogEnvelope_eq_dec : EqDecision CatalogEnvelope.
Proof. solve_decision. Defined.

Definition toy_write (p : SignedCatalogPackage) : result string string :=
  if bool_decide (envelope p = signed_seven)
  then match raw_payload p with Some raw => Ok raw | None => Err "no payload" end
  else Err "another envelope".
Definition toy_read (raw : string) : result string SignedCatalogPackage :=
  Ok {| envelope := signed_seven; payload := Json.VString raw; raw_payload := Some raw |}.

Lemma toy_reads_back : package_reads_back toy_read toy_write.
Proof.
  intros [e v r] raw. unfold toy_write. cbn. case_bool_decide; [subst|done].
  destruct r as [r|]; [|done]. intros [= ->]. eexists. split_and!; reflexivity.
Qed.
Definition quiet : World := {| compose := None; adopt := Ok; disk := Ok tt |}.
Definition booted : Manager :=
  boot_with_metrics toy_check as_is as_is toy_parse toy_print toy_snapshot no_text toy_read keys 300 six
    Missing 200.

Lemma update_survives_restart_witness :
  let m' := (apply_verified_update toy_check as_is as_is toy_parse toy_print toy_snapshot no_text
               toy_write keys 300 quiet booted signed_seven "catalog" 200).2 in
  Snapshot.version (active (boot_with_metrics toy_check as_is as_is toy_parse toy_print toy_snapshot
                              no_text toy_read keys 300 six (cache m') 800)) = 7.
Proof.
  cbn zeta.
  edestruct (update_survives_restart toy_check as_is as_is toy_parse toy_print toy_snapshot no_text
               toy_read toy_write keys 300 quiet booted signed_seven "catalog" 200) as [H _].
  - exact toy_reads_back.
  - vm_compute. reflexivity.
  - instantiate (1 := six). vm_compute. discriminate.
  - instantiate (1 := 800). lia.
  - intros exp E. injection E as <-. lia.
  - etransitivity; [exact (f_equal Snapshot.version H)|reflexivity].
Defined.

Lemma unsigned_not_interpreted_witness :
  verify_catalog_envelope toy_check as_is as_is toy_parse toy_print toy_snapshot forged_seven
    "catalog" keys None None 200 300 = Err SignatureVerificationFailed.
Proof.
  rewrite (unsigned_not_interpreted toy_check as_is as_is forged_seven "catalog" keys None None 200 300
             toy_parse toy_print toy_snapshot (λ _, Err "unread") toy_print (λ _, Err "unread")).
  - vm_compute. reflexivity.
  - intros key Hk (bytes & sig & Hb & Hs & Hc). injection Hb as <-. injection Hs as <-.
    unfold keys in Hk. rewrite lookup_singleton_Some in Hk. destruct Hk as [_ <-].
    discriminate Hc.
Defined.

Lemma refused_update_witness :
  let r := apply_verified_update toy_check as_is as_is toy_parse toy_print toy_snapshot no_text
             toy_write keys 300 quiet booted forged_seven "catalog" 200 in
  r.1 = Err (Verification SignatureVerificationFailed) ∧ active r.2 = active booted.
Proof.
  cbn zeta.
  assert (E : (apply_verified_update toy_check as_is as_is toy_parse toy_print toy_snapshot no_text
                 toy_write keys 300 quiet booted forged_seven "catalog" 200).1 =
              Err (Verification SignatureVerificationFailed)) by (vm_compute; reflexivity).
  split; [exact E|].
  apply (refused_update_inert toy_check as_is as_is toy_parse toy_print toy_snapshot no_text toy_write keys 300
           quiet booted forged_seven "catalog" 200 _ E).
Defined.

Lemma signing_bytes_witness :
  compute_signing_bytes 1 7 100 None "k" "x" ≠ compute_signing_bytes 1 7 100 None "k" "y".
Proof.
  intros E.
  destruct (signing_bytes_inj 7 100 None "k" "x" 1 7 100 None "k" "y" 1) as (_ & _ & _ & _ & _ & H);
    try exact E; try exact I; try reflexivity; try (unfold is_u64, u64_max; lia).
  discriminate H.
Defined.
End Demo.
