(* ===== verification/ScopedKeys.v ===== *)
(** * Scoped inbound keys (management/settings.rs, management/scoped_keys.rs, state.rs)

    Delegated keys with an allowance of tokens.  The settings document lists them; the
    tracker indexes them by key identifier for the request path, with a counter of used
    tokens each.  A counter is shared: an entry that is republished keeps the counter of
    the entry it replaces, and a request in flight charges the entry it was admitted with.
    So counters live in a store, and an entry holds its location.

    The operations of the management API edit a copy of the document, write it to disk,
    publish it and rebuild the index, under one lock: a step.  Whether the rest of the
    document validates and the write succeeds is the argument [saved].  Fresh identifiers
    and secrets are arguments.  The order in which a hash map lists its values is the
    parameter [values]. *)

From Stdlib Require Import Ascii.
From stdpp Require Import gmap strings list.
From S2P Require Import Prelude RustStr Sha256 Json.
Import RustStr Sha256.
Open Scope Z_scope.

Module Scoped.

Record ScopedApiKey := {
  id : string;
  name : string;
  key_identifier : string;
  key_prefix : string;
  raw_key : option string;
  allowed_providers : list string;
  allowed_accounts : list string;
  allowed_models : list string;
  token_limit : Z;
  token_used : Z;
  is_active : bool;
  created_at_ms : Z;
  expires_at_ms : option Z;
}.

Definition is_usable_at (k : ScopedApiKey) (now_ms : Z) : bool :=
  is_active k && match expires_at_ms k with Some at_ => now_ms <? at_ | None => true end.

Definition spent (limit used : Z) : bool := (0 <? limit) && (limit <=? used).
Definition is_exhausted (k : ScopedApiKey) : bool := spent (token_limit k) (token_used k).

(** ** Entries and their counters *)

Abbreviation Counters := (list Z).

Record ScopedKeyEntry := { key : ScopedApiKey; counter : nat }.

Definition entry_used (c : Counters) (e : ScopedKeyEntry) : Z := c !!! counter e.
Definition entry_exhausted (c : Counters) (e : ScopedKeyEntry) : bool :=
  spent (token_limit (key e)) (entry_used c e).

(** [consume]; the loop of compare-and-swap is one atomic update. *)
Definition consume (c : Counters) (e : ScopedKeyEntry) (tokens : Z) : Z * Counters :=
  let next := saturating_add_u64 (entry_used c e) tokens in
  (next, <[counter e := next]> c).

Abbreviation Index := (gmap string ScopedKeyEntry).

Section tracker.
Context (values : Index → list ScopedKeyEntry).

Definition same_id (k : ScopedApiKey) (e : ScopedKeyEntry) : bool := bool_decide (id (key e) = id k).

(** One key of [reconcile]. *)
Definition republish (previous : Index) (acc : Index * Counters) (k : ScopedApiKey)
  : Index * Counters :=
  let '(next, c) := acc in
  match find (same_id k) (values previous) with
  | Some existing =>
      (<[key_identifier k := {| key := k; counter := counter existing |}]> next,
       <[counter existing := Z.max (c !!! counter existing) (token_used k)]> c)
  | None =>
      (<[key_identifier k := {| key := k; counter := length c |}]> next, c ++ [token_used k])
  end.

Definition reconcile (previous : Index) (c : Counters) (keys : list ScopedApiKey)
  : Index * Counters := foldl (republish previous) (∅, c) keys.

Definition record_usage (index : Index) (c : Counters) (identifier : option string) (tokens : Z)
  : option Z * Counters :=
  match identifier ≫= λ i, index !! i with
  | None => (None, c)
  | Some e =>
      if tokens =? 0 then (Some (entry_used c e), c)
      else let '(next, c) := consume c e tokens in (Some next, c)
  end.

(** ** The document *)

Record Gateway := {
  document : list ScopedApiKey;
  disk : list ScopedApiKey;
  index : Index;
  counters : Counters;
}.

(** [raw_key] is skipped when the document is written. *)
Definition without_raw (k : ScopedApiKey) : ScopedApiKey :=
  {| id := id k; name := name k; key_identifier := key_identifier k; key_prefix := key_prefix k;
     raw_key := None; allowed_providers := allowed_providers k;
     allowed_accounts := allowed_accounts k; allowed_models := allowed_models k;
     token_limit := token_limit k; token_used := token_used k; is_active := is_active k;
     created_at_ms := created_at_ms k; expires_at_ms := expires_at_ms k |}.

Definition publish (g : Gateway) (keys written : list ScopedApiKey) : Gateway :=
  let '(i, c) := reconcile (index g) (counters g) keys in
  {| document := keys; disk := written; index := i; counters := c |}.

(** [SettingsStore::mutate] on the list of keys. *)
Definition mutate (g : Gateway) (saved : bool) (edit : list ScopedApiKey → list ScopedApiKey)
  : Gateway :=
  let keys := edit (document g) in
  if saved then publish g keys (without_raw <$> keys) else g.

(** [SettingsStore::reload] of a file an operator may have edited. *)
Definition reload (g : Gateway) (saved : bool) (file : list ScopedApiKey) : Gateway :=
  if saved then publish g file file else g.

(** A start from the document on disk. *)
Definition boot (file : list ScopedApiKey) : Gateway :=
  publish {| document := []; disk := []; index := ∅; counters := [] |} file file.
Definition restart (g : Gateway) : Gateway := boot (disk g).

(** ** Management *)

Fixpoint take_chars (n : nat) (cs : list string) : string :=
  match n, cs with
  | S n, c :: cs => c +:+ take_chars n cs
  | _, _ => ""
  end.
Definition key_prefix_source (secret : string) : string := take_chars 10 (split_chars secret).

Record ScopedKeyView := { view_of : ScopedApiKey; view_used : Z; view_exhausted : bool }.

Definition from_key (k : ScopedApiKey) (live : option Z) : ScopedKeyView :=
  let used := default (token_used k) live in
  {| view_of := k; view_used := used; view_exhausted := spent (token_limit k) used |}.

Definition live_of (g : Gateway) (identifier : string) : option Z :=
  entry_used (counters g) <$> index g !! identifier.

Inductive Reply :=
  | Listed (views : list ScopedKeyView)
  | Created (api_key : string) (view : ScopedKeyView)
  | Updated (view : ScopedKeyView)
  | Deleted
  | NotFound
  | Failed.

Definition list_scoped_keys (g : Gateway) : Reply :=
  Listed ((λ k, from_key k (live_of g (key_identifier k))) <$> document g).

Record CreateScopedKeyRequest := {
  req_name : string;
  req_providers : list string;
  req_accounts : list string;
  req_models : list string;
  req_limit : Z;
  req_expires : option Z;
}.

(** [uuid1] and [uuid2] are the two fresh identifiers. *)
Definition minted (r : CreateScopedKeyRequest) (uuid1 uuid2 : string) (now_ms : Z) : ScopedApiKey :=
  let raw_secret := "mq-sh-" +:+ uuid2 in
  {| id := "shk_" +:+ uuid1; name := trim (req_name r);
     key_identifier := stable_key_identifier raw_secret;
     key_prefix := key_prefix_source raw_secret +:+ "..."; raw_key := Some raw_secret;
     allowed_providers := req_providers r; allowed_accounts := req_accounts r;
     allowed_models := req_models r; token_limit := req_limit r; token_used := 0;
     is_active := true; created_at_ms := now_ms; expires_at_ms := req_expires r |}.

Definition create_scoped_key (g : Gateway) (r : CreateScopedKeyRequest) (uuid1 uuid2 : string)
    (now_ms : Z) (saved : bool) : Reply * Gateway :=
  let k := minted r uuid1 uuid2 now_ms in
  (if saved then Created ("mq-sh-" +:+ uuid2) (from_key k (Some 0)) else Failed,
   mutate g saved (λ ks, ks ++ [k])).

Record PatchScopedKeyRequest := {
  new_name : option string;
  new_raw : option string;
  new_providers : option (list string);
  new_accounts : option (list string);
  new_models : option (list string);
  new_limit : option Z;
  new_active : option bool;
  new_expires : option (option Z);
}.

(** How serde reads [Option<Option<i64>>] with a default: an absent field and a [null]
    are both the outer [None]. *)
Definition parse_expires (field : option Json.Value) : result string (option (option Z)) :=
  match field with
  | None | Some Json.Null => Ok None
  | Some (Json.VNumber (Json.PosInt n)) =>
      if n <=? i64_max then Ok (Some (Some n)) else Err "invalid value"
  | Some (Json.VNumber (Json.NegInt n)) => Ok (Some (Some n))
  | Some _ => Err "invalid type"
  end.

(** The key the caller now presents, if the patch replaces it. *)
Definition replaced_raw (r : PatchScopedKeyRequest) : option string :=
  match trim <$> new_raw r with
  | Some t => if is_empty t then None else Some t
  | None => None
  end.

Definition patched (r : PatchScopedKeyRequest) (live : option Z) (k : ScopedApiKey) : ScopedApiKey :=
  let '(identifier, prefix, raw) :=
    match replaced_raw r with
    | Some t => (stable_key_identifier t, key_prefix_source t +:+ "...", Some t)
    | None => (key_identifier k, key_prefix k, raw_key k)
    end in
  {| id := id k; name := default (name k) (trim <$> new_name r);
     key_identifier := identifier; key_prefix := prefix; raw_key := raw;
     allowed_providers := default (allowed_providers k) (new_providers r);
     allowed_accounts := default (allowed_accounts k) (new_accounts r);
     allowed_models := default (allowed_models k) (new_models r);
     token_limit := default (token_limit k) (new_limit r);
     token_used := match live with Some u => Z.max (token_used k) u | None => token_used k end;
     is_active := default (is_active k) (new_active r); created_at_ms := created_at_ms k;
     expires_at_ms := default (expires_at_ms k) (new_expires r) |}.

(** [iter_mut().find]: the first key with the id is edited. *)
Fixpoint update_first (p : ScopedApiKey → bool) (f : ScopedApiKey → ScopedApiKey)
    (ks : list ScopedApiKey) : list ScopedApiKey :=
  match ks with
  | [] => []
  | k :: ks => if p k then f k :: ks else k :: update_first p f ks
  end.

Definition has_id (i : string) (k : ScopedApiKey) : bool := bool_decide (id k = i).

Definition patch_key (g : Gateway) (r : PatchScopedKeyRequest) (k : ScopedApiKey) : ScopedApiKey :=
  patched r (live_of g (key_identifier k)) k.

Definition patch_scoped_key (g : Gateway) (i : string) (r : PatchScopedKeyRequest) (saved : bool)
  : Reply * Gateway :=
  let g' := mutate g saved (update_first (has_id i) (patch_key g r)) in
  (if saved then
     match find (has_id i) (document g) with
     | None => NotFound
     | Some k =>
         let view := from_key (patch_key g r k) None in
         Updated match live_of g' (key_identifier (view_of view)) with
                 | Some used => {| view_of := view_of view; view_used := used;
                                   view_exhausted := spent (token_limit (view_of view)) used |}
                 | None => view
                 end
     end
   else Failed, g').

Definition delete_scoped_key (g : Gateway) (i : string) (saved : bool) : Reply * Gateway :=
  let kept := filter (λ k, id k ≠ i) (document g) in
  (if saved then if (length kept <? length (document g))%nat then Deleted else NotFound
   else Failed,
   mutate g saved (λ ks, filter (λ k, id k ≠ i) ks)).

(** ** Charging a request *)

Definition with_counters (g : Gateway) (c : Counters) : Gateway :=
  {| document := document g; disk := disk g; index := index g; counters := c |}.

(** [persist_scoped_usage], entered after the counter moved to [charged]. *)
Definition persist_scoped_usage (g : Gateway) (i : string) (charged : Z) (saved : bool) : Gateway :=
  match token_used <$> find (has_id i) (document g) with
  | None => g
  | Some persisted =>
      if charged <=? persisted then g
      else mutate g saved (update_first (has_id i) (λ k,
             {| id := id k; name := name k; key_identifier := key_identifier k;
                key_prefix := key_prefix k; raw_key := raw_key k;
                allowed_providers := allowed_providers k; allowed_accounts := allowed_accounts k;
                allowed_models := allowed_models k; token_limit := token_limit k;
                token_used := Z.max (token_used k) charged; is_active := is_active k;
                created_at_ms := created_at_ms k; expires_at_ms := expires_at_ms k |}))
  end.

(** The charge of [record_request_outcome] to the entry the request was admitted with. *)
Definition charge (g : Gateway) (e : ScopedKeyEntry) (total_tokens : Z) (saved : bool) : Gateway :=
  if total_tokens <=? 0 then g
  else let '(charged, c) := consume (counters g) e total_tokens in
       persist_scoped_usage (with_counters g c) (id (key e)) charged saved.

(** The quota check of [handle_relay]. *)
Definition quota_admits (g : Gateway) (k : ScopedApiKey) : bool :=
  match index g !! key_identifier k with
  | Some e => negb (entry_exhausted (counters g) e)
  | None => true
  end.
End tracker.

End Scoped.
