(* ===== verification/ScopedProps.v ===== *)
(** * Scoped keys never get their allowance back

    A key's counter outlives every edit of the document that keeps the key: entries of
    the index share it, in whatever order they are republished, and a request admitted
    before an edit charges the counter the edited key is judged by. *)

From Stdlib Require Import Ascii.
From stdpp Require Import gmap strings list.
From S2P Require Import Prelude RustStr Sha256 Json ScopedKeys.
Import RustStr Scoped.
Open Scope Z_scope.

Section scoped.
Context (values : Index → list ScopedKeyEntry).
Context (Hvalues : ∀ m, values m ≡ₚ (map_to_list m).*2).

Lemma elem_of_values m e : e ∈ values m ↔ ∃ i, m !! i = Some e.
Proof.
  rewrite Hvalues, list_elem_of_fmap. split.
  - intros ([i e'] & -> & H%elem_of_map_to_list). by exists i.
  - intros [i H]. exists (i, e). split; [done|]. by apply elem_of_map_to_list.
Qed.

(** ** Well-formed documents and indexes *)

Record wf_keys (ks : list ScopedApiKey) : Prop := {
  wf_ids : NoDup (id <$> ks);
  wf_identifiers : NoDup (key_identifier <$> ks);
  wf_used : Forall (λ k, is_u64 (token_used k)) ks;
}.

Record wf_index (ks : list ScopedApiKey) (i : Index) (c : Counters) : Prop := {
  index_sound : ∀ j e, i !! j = Some e → key e ∈ ks ∧ j = key_identifier (key e);
  index_complete : ∀ k, k ∈ ks → ∃ e, i !! key_identifier k = Some e ∧ key e = k;
  index_live : ∀ j e, i !! j = Some e →
    (counter e < length c)%nat ∧ token_used (key e) ≤ c !!! counter e;
  index_apart : ∀ j j' e e', i !! j = Some e → i !! j' = Some e' → counter e = counter e' → j = j';
}.

Record invariant (g : Gateway) : Prop := {
  inv_keys : wf_keys (document g);
  inv_index : wf_index (document g) (index g) (counters g);
  inv_counters : Forall is_u64 (counters g);
}.

(** Counters only grow, and none is lost. *)
Definition grows (c c' : Counters) : Prop :=
  (length c ≤ length c')%nat ∧ ∀ l, (l < length c)%nat → c !!! l ≤ c' !!! l.

Lemma grows_refl c : grows c c.
Proof. split; [lia|]. intros. lia. Qed.
Lemma grows_trans c c' c'' : grows c c' → grows c' c'' → grows c c''.
Proof.
  intros [H1 H2] [H3 H4]. split; [lia|]. intros l Hl.
  specialize (H2 l Hl). specialize (H4 l). lia.
Qed.

Lemma grows_app c x : grows c (c ++ [x]).
Proof.
  split; [rewrite length_app; lia|]. intros l Hl. rewrite lookup_total_app_l by done. lia.
Qed.

Lemma grows_insert c l x : c !!! l ≤ x → grows c (<[l := x]> c).
Proof.
  intros Hx. split; [by rewrite length_insert|]. intros j Hj.
  destruct (decide (j = l)) as [->|Hne].
  - by rewrite list_lookup_total_insert_eq by done.
  - rewrite list_lookup_total_insert_ne by done. lia.
Qed.

Lemma ids_inj ks k k' : NoDup (id <$> ks) → k ∈ ks → k' ∈ ks → id k = id k' → k = k'.
Proof.
  intros Hnd (i & Hi)%list_elem_of_lookup (j & Hj)%list_elem_of_lookup He.
  assert (i = j) as ->; [|congruence].
  apply (NoDup_lookup (id <$> ks) i j (id k)); [done| |];
    rewrite list_lookup_fmap, ?Hi, ?Hj; cbn; congruence.
Qed.

Lemma identifiers_inj ks k k' :
  NoDup (key_identifier <$> ks) → k ∈ ks → k' ∈ ks → key_identifier k = key_identifier k' → k = k'.
Proof.
  intros Hnd (i & Hi)%list_elem_of_lookup (j & Hj)%list_elem_of_lookup He.
  assert (i = j) as ->; [|congruence].
  apply (NoDup_lookup (key_identifier <$> ks) i j (key_identifier k)); [done| |];
    rewrite list_lookup_fmap, ?Hi, ?Hj; cbn; congruence.
Qed.

(** ** Republishing *)

Section reconcile.
Context (ks0 : list ScopedApiKey) (prev : Index) (c0 : Counters).
Context (Hks0 : wf_keys ks0) (Hprev : wf_index ks0 prev c0).

Lemma find_previous k e :
  find (same_id k) (values prev) = Some e → id (key e) = id k ∧ ∃ j, prev !! j = Some e.
Proof.
  intros [Hin Hid]%find_some. split; [by apply bool_decide_eq_true in Hid|].
  apply elem_of_values. by apply list_elem_of_In.
Qed.

(** Where an entry's counter comes from. *)
Definition origin (e : ScopedKeyEntry) : Prop :=
  match find (same_id (key e)) (values prev) with
  | Some old => counter e = counter old
  | None => (length c0 ≤ counter e)%nat
  end.

Record republished (done : list ScopedApiKey) (acc : Index * Counters) : Prop := {
  rep_index : wf_index done acc.1 acc.2;
  rep_origin : ∀ j e, acc.1 !! j = Some e → origin e;
  rep_grows : grows c0 acc.2;
}.

Lemma origin_apart k e old :
  find (same_id k) (values prev) = Some old → origin e → id (key e) ≠ id k → counter e ≠ counter old.
Proof.
  intros Hk He Hne Heq. unfold origin in He. destruct (find_previous k old Hk) as [Hid [j Hj]].
  destruct (find (same_id (key e)) (values prev)) as [old'|] eqn:E.
  - destruct (find_previous _ _ E) as [Hid' [j' Hj']].
    assert (j' = j) as -> by (eapply (index_apart _ _ _ Hprev); [done..|congruence]).
    congruence.
  - destruct (index_live _ _ _ Hprev _ _ Hj). lia.
Qed.

Lemma wf_index_insert done next c k l x :
  wf_index done next c → (∀ k', k' ∈ done → id k' ≠ id k ∧ key_identifier k' ≠ key_identifier k) →
  (∀ j e, next !! j = Some e → counter e ≠ l) → (l < length c)%nat → c !!! l ≤ x → token_used k ≤ x →
  wf_index (done ++ [k]) (<[key_identifier k := {| key := k; counter := l |}]> next) (<[l := x]> c).
Proof.
  intros Hi Hfresh Hapart Hl Hx Hk.
  assert (Hnew : ∀ j e, next !! j = Some e → j ≠ key_identifier k).
  { intros j e Hj ->. destruct (index_sound _ _ _ Hi _ _ Hj) as [Hin He].
    by destruct (Hfresh _ Hin) as [_ []]. }
  split.
  - intros j e. rewrite lookup_insert_Some. intros [[<- <-]|[Hne Hj]]; cbn; [set_solver|].
    destruct (index_sound _ _ _ Hi _ _ Hj). set_solver.
  - intros k'. rewrite elem_of_app, list_elem_of_singleton. intros [Hin| ->].
    + destruct (index_complete _ _ _ Hi _ Hin) as (e & He & <-). exists e. split; [|done].
      rewrite lookup_insert_ne; [done|]. intros Heq. by eapply Hnew.
    + eexists. by rewrite lookup_insert_eq.
  - intros j e. rewrite lookup_insert_Some, length_insert. intros [[<- <-]|[Hne Hj]]; cbn.
    + split; [done|]. by rewrite list_lookup_total_insert_eq.
    + destruct (index_live _ _ _ Hi _ _ Hj). split; [done|].
      rewrite list_lookup_total_insert_ne; [done|]. intros Heq. by eapply Hapart.
  - intros j j' e e'. rewrite !lookup_insert_Some.
    intros [[<- <-]|[Hne Hj]] [[<- <-]|[Hne' Hj']]; cbn; intros Heq; [done| | |].
    + by destruct (Hapart _ _ Hj').
    + by destruct (Hapart _ _ Hj).
    + by eapply (index_apart _ _ _ Hi).
Qed.

Lemma wf_index_grows done next c c' :
  wf_index done next c → grows c c' → wf_index done next c'.
Proof.
  intros [H1 H2 H3 H4] [Hl Hg]. split; [done|done| |done].
  intros j e Hj. destruct (H3 j e Hj) as [Hlt Hu]. specialize (Hg _ Hlt). lia.
Qed.

Lemma republish_step done acc k :
  republished done acc → NoDup (id <$> done ++ [k]) → NoDup (key_identifier <$> done ++ [k]) →
  republished (done ++ [k]) (republish values prev acc k).
Proof.
  intros [Hi Ho Hg] Hids Hidents. destruct acc as [next c]. cbn in Hi, Ho, Hg.
  rewrite fmap_app in Hids, Hidents. apply NoDup_app in Hids as (_ & Hids & _).
  apply NoDup_app in Hidents as (_ & Hidents & _).
  assert (Hfresh : ∀ k', k' ∈ done → id k' ≠ id k ∧ key_identifier k' ≠ key_identifier k).
  { intros k' Hk'. split; intros He.
    - apply (Hids (id k')); [by apply list_elem_of_fmap_2|]. rewrite He. cbn. set_solver.
    - apply (Hidents (key_identifier k')); [by apply list_elem_of_fmap_2|]. rewrite He. cbn. set_solver. }
  assert (Hids' : ∀ j e, next !! j = Some e → id (key e) ≠ id k).
  { intros j e Hj. destruct (index_sound _ _ _ Hi _ _ Hj) as [Hin _]. by apply Hfresh. }
  unfold republish. destruct (find (same_id k) (values prev)) as [old|] eqn:Ef.
  - destruct (find_previous k old Ef) as [_ [j0 Hj0]].
    destruct (index_live _ _ _ Hprev _ _ Hj0) as [Hlt _]. destruct Hg as [Hgl Hg].
    split; cbn.
    + apply wf_index_insert; try done; try lia. intros j e Hj. eapply origin_apart; eauto.
    + intros j e. rewrite lookup_insert_Some. intros [[<- <-]|[_ Hj]]; [|by eapply Ho].
      unfold origin. cbn. by rewrite Ef.
    + eapply grows_trans; [by split|]. apply grows_insert. lia.
  - split; cbn.
    + rewrite <- (list_insert_id (c ++ [token_used k]) (length c) (token_used k))
        by (by apply list_lookup_middle).
      apply wf_index_insert; try done.
      * eapply wf_index_grows; [done|apply grows_app].
      * intros j e Hj. destruct (index_live _ _ _ Hi _ _ Hj). lia.
      * rewrite length_app. cbn. lia.
      * rewrite lookup_total_app_r, Nat.sub_diag by lia. done.
    + intros j e. rewrite lookup_insert_Some. intros [[<- <-]|[_ Hj]]; [|by eapply Ho].
      unfold origin. cbn. rewrite Ef. apply Hg.
    + eapply grows_trans; [done|apply grows_app].
Qed.

Lemma reconcile_republished ks : wf_keys ks → republished ks (reconcile values prev c0 ks).
Proof.
  intros Hks. unfold reconcile.
  assert (H : ∀ l done acc, done ++ l = ks → republished done acc →
            republished ks (foldl (republish values prev) acc l)).
  { induction l as [|k l IH]; intros done acc Heq Hacc.
    - by rewrite app_nil_r in Heq; subst.
    - cbn. apply (IH (done ++ [k])); [by rewrite <- app_assoc|].
      assert (Hsub : done ++ [k] `prefix_of` ks) by (exists l; by rewrite <- app_assoc).
      destruct Hsub as [r ->].
      destruct Hks as [H1 H2 _]. rewrite fmap_app in H1, H2.
      apply NoDup_app in H1 as [H1 _]. apply NoDup_app in H2 as [H2 _]. by apply republish_step. }
  apply (H ks []); [done|]. split; cbn; [|done|apply grows_refl].
  split; try (by intros ? ? ?%lookup_empty_Some). by intros k ?%elem_of_nil.
  all: done.
Qed.

Lemma reconcile_keeps ks j e k e' :
  wf_keys ks → prev !! j = Some e → k ∈ ks → id k = id (key e) →
  (reconcile values prev c0 ks).1 !! key_identifier k = Some e' → counter e' = counter e.
Proof.
  intros Hks Hj Hk Hid He'. pose proof (reconcile_republished ks Hks) as [Hi Ho _].
  specialize (Ho _ _ He'). unfold origin in Ho.
  destruct (index_complete _ _ _ Hi _ Hk) as (e2 & He2 & Hk2).
  assert (e2 = e') as -> by congruence. rewrite Hk2 in Ho.
  destruct (find (same_id k) (values prev)) as [old|] eqn:Ef.
  - destruct (find_previous k old Ef) as [Hold [j' Hj']]. rewrite Ho.
    destruct (index_sound _ _ _ Hprev _ _ Hj) as [Hin ->].
    destruct (index_sound _ _ _ Hprev _ _ Hj') as [Hin' ->].
    assert (key old = key e) as Heq by (eapply ids_inj; [apply Hks0|done..|congruence]).
    rewrite Heq in Hj'. congruence.
  - exfalso. eapply find_none in Ef.
    + apply bool_decide_eq_false in Ef. by apply Ef.
    + apply list_elem_of_In, elem_of_values. by exists j.
Qed.
End reconcile.

(** ** Gateways *)

Lemma counter_u64 (c : Counters) l : Forall is_u64 c → is_u64 (c !!! l).
Proof.
  intros Hc. rewrite list_lookup_total_alt. destruct (c !! l) as [x|] eqn:Ex; [|done].
  exact (Forall_lookup_1 _ _ _ _ Hc Ex).
Qed.

Lemma reconcile_u64 prev c ks :
  Forall is_u64 c → Forall (λ k, is_u64 (token_used k)) ks →
  Forall is_u64 (reconcile values prev c ks).2.
Proof.
  unfold reconcile. generalize (∅ : Index) as next. revert c.
  induction ks as [|k ks IH]; intros c next Hc Hk; [done|].
  apply list.Forall_cons in Hk as [Hk Hks]. cbn [foldl]. unfold republish at 2.
  destruct (find _ _) as [old|]; (apply IH; [|done]).
  - apply Forall_insert; [done|]. pose proof (counter_u64 c (counter old) Hc).
    unfold is_u64 in *. lia.
  - apply list.Forall_app. split; [done|]. by constructor.
Qed.

Lemma publish_invariant g ks w : invariant g → wf_keys ks → invariant (publish values g ks w).
Proof.
  intros [Hk Hi Hc] Hks. unfold publish.
  pose proof (reconcile_republished (document g) (index g) (counters g) Hk Hi ks Hks) as [Hi' _ _].
  pose proof (reconcile_u64 (index g) (counters g) ks Hc (wf_used _ Hks)) as Hc'.
  destruct (reconcile values (index g) (counters g) ks) as [i c]. by split.
Qed.

Lemma boot_invariant file : wf_keys file → invariant (boot values file).
Proof.
  intros H. apply publish_invariant; [|done]. split; cbn.
  - split; cbn; [constructor..|done].
  - split; cbn; try (by intros ? ? ?%lookup_empty_Some). by intros k ?%elem_of_nil. done.
  - done.
Qed.

(** The location of the counter a key is judged by, and its value. *)
Definition location_of (g : Gateway) (i : string) : option nat :=
  k ← find (has_id i) (document g); counter <$> index g !! key_identifier k.
Definition used_by (g : Gateway) (i : string) : option Z :=
  (λ l, counters g !!! l) <$> location_of g i.

Lemma find_id ks i k : find (has_id i) ks = Some k → k ∈ ks ∧ id k = i.
Proof.
  intros [Hin Hid]%find_some. split; [by apply list_elem_of_In|]. by apply bool_decide_eq_true in Hid.
Qed.

Lemma find_id_elem ks k : NoDup (id <$> ks) → k ∈ ks → find (has_id (id k)) ks = Some k.
Proof.
  intros Hnd Hk. destruct (find (has_id (id k)) ks) as [k'|] eqn:Ef.
  - apply find_id in Ef as [Hin Hid]. f_equal. by eapply ids_inj.
  - eapply find_none in Ef; [|by apply list_elem_of_In]. by apply bool_decide_eq_false in Ef.
Qed.

Lemma location_Some g i l : invariant g →
  location_of g i = Some l ↔
  ∃ e, index g !! key_identifier (key e) = Some e ∧ id (key e) = i ∧ counter e = l.
Proof.
  intros [Hk Hi _]. unfold location_of. split.
  - intros (k & Hf & Hm)%bind_Some. apply find_id in Hf as [Hin <-].
    destruct (index_complete _ _ _ Hi _ Hin) as (e & He & <-). rewrite He in Hm. cbn in Hm.
    exists e. split_and!; congruence.
  - intros (e & He & <- & <-). destruct (index_sound _ _ _ Hi _ _ He) as [Hin _].
    rewrite (find_id_elem _ _ (wf_ids _ Hk) Hin). cbn. by rewrite He.
Qed.

Lemma publish_location g ks w i l :
  invariant g → wf_keys ks → i ∈ (id <$> ks) → location_of g i = Some l →
  location_of (publish values g ks w) i = Some l.
Proof.
  intros Hg Hks Hin Hl. pose proof (publish_invariant g ks w Hg Hks) as Hg'.
  apply location_Some in Hl as (e & He & <- & <-); [|done].
  apply list_elem_of_fmap in Hin as (k & Hid & Hk).
  destruct (index_complete _ _ _ (inv_index _ Hg') k) as (e' & He' & Hke).
  { unfold publish. by destruct (reconcile _ _ _ _). }
  apply location_Some; [done|]. exists e'. rewrite Hke. split_and!; [done|done|].
  destruct Hg as [Hk0 Hi0 _].
  apply (reconcile_keeps (document g) (index g) (counters g) Hk0 Hi0 ks _ e k e' Hks He Hk); [done|].
  unfold publish in He'. by destruct (reconcile _ _ _ _).
Qed.

Lemma publish_grows g ks w :
  invariant g → wf_keys ks → grows (counters g) (counters (publish values g ks w)).
Proof.
  intros [Hk Hi _] Hks. unfold publish.
  pose proof (reconcile_republished (document g) (index g) (counters g) Hk Hi ks Hks) as [_ _ Hgr].
  by destruct (reconcile _ _ _ _).
Qed.

(** ** Histories *)

(** What may happen between two looks at a key.  The two halves of a charge are two
    actions: edits may come between them, and the mirrored value may be late. *)
Inductive action :=
  | Create (r : CreateScopedKeyRequest) (uuid1 uuid2 : string) (now_ms : Z) (saved : bool)
  | Patch (i : string) (r : PatchScopedKeyRequest) (saved : bool)
  | Delete (i : string) (saved : bool)
  | Consume (e : ScopedKeyEntry) (tokens : Z)
  | Mirror (i : string) (charged : Z) (saved : bool)
  | Reload (file : list ScopedApiKey) (saved : bool).

Definition act (g : Gateway) (a : action) : Gateway :=
  match a with
  | Create r u1 u2 now saved => (create_scoped_key values g r u1 u2 now saved).2
  | Patch i r saved => (patch_scoped_key values g i r saved).2
  | Delete i saved => (delete_scoped_key values g i saved).2
  | Consume e tokens => with_counters g (consume (counters g) e tokens).2
  | Mirror i charged saved => persist_scoped_usage values g i charged saved
  | Reload file saved => reload values g saved file
  end.

(** Token counts are unsigned. *)
Definition typed (a : action) : Prop :=
  match a with Consume _ tokens => 0 ≤ tokens | _ => True end.

Definition not_reload (a : action) : Prop :=
  match a with Reload _ _ => False | _ => typed a end.

(** A history of one process that keeps key [i] and never lists two keys with one id or
    one identifier. *)
Inductive run_of (ok : action → Prop) (i : string) (g : Gateway) : Gateway → Prop :=
  | run_refl : run_of ok i g g
  | run_step g1 a : run_of ok i g g1 → ok a → wf_keys (document (act g1 a)) →
      i ∈ (id <$> document (act g1 a)) → run_of ok i g (act g1 a).
Abbreviation run := (run_of typed).

Lemma not_reload_run i g g' : run_of not_reload i g g' → run i g g'.
Proof.
  intros Hr. induction Hr as [|g1 a Hr IH Ha Hwf Hin]; [constructor|].
  apply run_step; try done. by destruct a.
Qed.

(** Every action publishes a document or touches one counter. *)
Lemma act_cases g a : (∃ ks w, act g a = publish values g ks w) ∨ act g a = g
  ∨ ∃ e tokens, a = Consume e tokens.
Proof.
  destruct a; cbn; unfold mutate, reload, persist_scoped_usage, mutate; eauto;
    repeat case_match; eauto.
Qed.

Lemma consume_grows g e tokens :
  invariant g → 0 ≤ tokens → grows (counters g) (consume (counters g) e tokens).2.
Proof.
  intros [_ _ Hc] Ht. apply grows_insert. unfold saturating_add_u64, entry_used.
  pose proof (counter_u64 (counters g) (counter e) Hc) as []. lia.
Qed.

Lemma consume_invariant g e tokens :
  invariant g → 0 ≤ tokens → invariant (with_counters g (consume (counters g) e tokens).2).
Proof.
  intros Hg Ht. pose proof (consume_grows g e tokens Hg Ht) as Hgr. destruct Hg as [Hk Hi Hc].
  split; cbn in *; [done|by eapply wf_index_grows|]. apply Forall_insert; [done|].
  pose proof (counter_u64 (counters g) (counter e) Hc). unfold is_u64, saturating_add_u64, entry_used in *.
  unfold u64_max in *. lia.
Qed.

Lemma act_invariant g a :
  invariant g → typed a → wf_keys (document (act g a)) → invariant (act g a).
Proof.
  intros Hg Ht Hwf. destruct (act_cases g a) as [(ks & w & Ha)|[Ha|(e & t & ->)]].
  - rewrite Ha in *. apply publish_invariant; [done|]. unfold publish in Hwf.
    by destruct (reconcile _ _ _ _).
  - by rewrite Ha.
  - by apply consume_invariant.
Qed.

Lemma act_keeps g a i l :
  invariant g → typed a → wf_keys (document (act g a)) → i ∈ (id <$> document (act g a)) →
  location_of g i = Some l →
  location_of (act g a) i = Some l ∧ grows (counters g) (counters (act g a)).
Proof.
  intros Hg Ht Hwf Hin Hl. destruct (act_cases g a) as [(ks & w & Ha)|[Ha|(e & t & ->)]].
  - assert (Hd : document (publish values g ks w) = ks)
      by (unfold publish; by destruct (reconcile _ _ _ _)).
    rewrite Ha in *. rewrite Hd in *. split; [by apply publish_location|by apply publish_grows].
  - rewrite Ha. split; [done|apply grows_refl].
  - split; [done|]. by apply consume_grows.
Qed.

Lemma run_keeps g g' i l :
  invariant g → run i g g' → location_of g i = Some l →
  invariant g' ∧ location_of g' i = Some l ∧ grows (counters g) (counters g').
Proof.
  intros Hg Hr Hl. induction Hr as [|g1 a Hr IH Ht Hwf Hin]; [split_and!; eauto using grows_refl|].
  destruct IH as (Hg1 & Hl1 & Hgr). destruct (act_keeps g1 a i l) as [H1 H2]; [done..|].
  split_and!; [by apply act_invariant|done|by eapply grows_trans].
Qed.

(** The history of a freshly started gateway. *)
Lemma run_invariant file i g : wf_keys file → run i (boot values file) g → invariant g.
Proof.
  intros Hf Hr. induction Hr as [|g1 a Hr IH Ht Hwf Hin]; [by apply boot_invariant|].
  by apply act_invariant.
Qed.

(** C8: While no two keys share an id or a secret, the allowance of a scoped key is never
    handed back, and late charges count.  The file the process started from, and the
    document after every step of the history, list no two keys with the same id or the
    same key identifier (the side condition [wf_keys]; it is needed, since
    [duplicate_secret_lifts_quota] shows an accepted edit that breaks it and lifts a
    limit).  A request is admitted with the index entry of key [i]; then any such history
    that keeps the key - keys created, patched (the key itself too: a new limit, a new
    secret), deleted, documents reloaded from disk, counters mirrored, other requests
    charged - leaves the key's used tokens at least where they were, and charging the old
    entry at the end adds exactly its tokens (saturating) to the counter the key is judged
    by now, and nothing to any other key's. *)
Theorem late_charge_counts (file : list ScopedApiKey) (g g' : Gateway) (i : string)
  (e : ScopedKeyEntry) (tokens : Z)
  (Hfile : wf_keys file) (Hg : run i (boot values file) g)
  (He : index g !! key_identifier (key e) = Some e) (Hid : id (key e) = i)
  (Hg' : run i g g') (Ht : 0 ≤ tokens) :
  ∃ u u', used_by g i = Some u ∧ used_by g' i = Some u' ∧ u ≤ u' ∧
    used_by (act g' (Consume e tokens)) i = Some (saturating_add_u64 u' tokens) ∧
    ∀ j, j ≠ i → used_by (act g' (Consume e tokens)) j = used_by g' j.
Proof.
  pose proof (run_invariant _ _ _ Hfile Hg) as Hinv.
  assert (Hl : location_of g i = Some (counter e)) by (apply location_Some; [done|]; by exists e).
  destruct (run_keeps g g' i _ Hinv Hg' Hl) as (Hinv' & Hl' & Hgr & Hle).
  destruct (index_live _ _ _ (inv_index _ Hinv) _ _ He) as [Hlt _].
  exists (counters g !!! counter e), (counters g' !!! counter e). unfold used_by.
  change (location_of (act g' (Consume e tokens))) with (location_of g').
  rewrite Hl, Hl'. cbn [fmap option_fmap option_map act with_counters counters consume snd].
  split_and!; [done|done|by apply Hle| |].
  - unfold entry_used. rewrite list_lookup_total_insert_eq by lia. done.
  - intros j Hj. destruct (location_of g' j) as [l|] eqn:Ej; [|done]. cbn. f_equal.
    apply list_lookup_total_insert_ne. intros <-. apply Hj.
    apply location_Some in Ej as (e1 & He1 & <- & Hc1); [|done].
    apply location_Some in Hl' as (e2 & He2 & <- & Hc2); [|done].
    pose proof (index_apart _ _ _ (inv_index _ Hinv') _ _ _ _ He1 He2) as Heq.
    rewrite Heq in He1 by congruence. congruence.
Qed.

(** ** Restarts *)

(** What a restart will read: the tokens of key [i] on disk. *)
Definition listed_used (ks : list ScopedApiKey) (i : string) : option Z :=
  token_used <$> find (has_id i) ks.

Definition synced (g : Gateway) : Prop := without_raw <$> disk g = without_raw <$> document g.

Lemma fmap_without_raw {A} (f : ScopedApiKey → A) (ks ks' : list ScopedApiKey) :
  (∀ k, f (without_raw k) = f k) → without_raw <$> ks = without_raw <$> ks' → f <$> ks = f <$> ks'.
Proof.
  intros Hf He. assert (H : ∀ l : list ScopedApiKey, f <$> l = f <$> (without_raw <$> l)).
  { intros l. rewrite <- list_fmap_compose. apply list_fmap_ext. intros. symmetry. apply Hf. }
  by rewrite (H ks), (H ks'), He.
Qed.

Lemma listed_without_raw (ks ks' : list ScopedApiKey) i :
  without_raw <$> ks = without_raw <$> ks' → listed_used ks i = listed_used ks' i.
Proof.
  unfold listed_used. revert ks'. induction ks as [|k ks IH]; intros [|k' ks'] He; try done.
  rewrite !fmap_cons in He. pose proof (f_equal tail He) as Hks. cbn [tail] in Hks.
  pose proof (f_equal (λ l, id <$> head l) He) as [= H1].
  pose proof (f_equal (λ l, token_used <$> head l) He) as [= H2].
  cbn. unfold has_id in *. rewrite H1. case_bool_decide; cbn; [congruence|by apply IH].
Qed.

Lemma wf_without_raw (ks ks' : list ScopedApiKey) : without_raw <$> ks = without_raw <$> ks' → wf_keys ks' → wf_keys ks.
Proof.
  intros He [H1 H2 H3]. split.
  - by rewrite (fmap_without_raw id _ _ (λ _, eq_refl) He).
  - by rewrite (fmap_without_raw key_identifier _ _ (λ _, eq_refl) He).
  - apply (Forall_fmap token_used is_u64). apply (Forall_fmap token_used is_u64) in H3.
    by rewrite (fmap_without_raw token_used _ _ (λ _, eq_refl) He).
Qed.

Lemma publish_fields g ks w :
  document (publish values g ks w) = ks ∧ disk (publish values g ks w) = w.
Proof. unfold publish. by destruct (reconcile _ _ _ _). Qed.

Lemma without_raw_idemp (ks : list ScopedApiKey) : without_raw <$> (without_raw <$> ks) = without_raw <$> ks.
Proof. rewrite <- list_fmap_compose. by apply list_fmap_ext. Qed.

Lemma mutate_synced g saved f : synced g → synced (mutate values g saved f).
Proof.
  intros Hs. unfold mutate. destruct saved; [|done]. unfold synced.
  destruct (publish_fields g (f (document g)) (without_raw <$> f (document g))) as [-> ->].
  apply without_raw_idemp.
Qed.

Lemma boot_synced file : synced (boot values file).
Proof. unfold synced, boot, publish. by destruct (reconcile _ _ _ _). Qed.

Lemma act_synced g a : not_reload a → synced g → synced (act g a).
Proof.
  destruct a; intros Ha Hs; cbn [act create_scoped_key patch_scoped_key delete_scoped_key snd];
    try solve [by apply mutate_synced | done].
  unfold persist_scoped_usage. repeat case_match; try done. by apply mutate_synced.
Qed.

Lemma find_update_first i j f ks : (∀ k, id (f k) = id k) →
  find (has_id i) (update_first (has_id j) f ks)
  = (if bool_decide (i = j) then f else λ k, k) <$> find (has_id i) ks.
Proof.
  intros Hf. induction ks as [|k ks IH]; [by case_bool_decide|]. cbn [update_first find].
  unfold has_id at 2. destruct (bool_decide_reflect (id k = j)) as [Hj|Hj].
  - cbn [find]. unfold has_id at 1 3. rewrite Hf, Hj.
    rewrite (bool_decide_ext (j = i) (i = j)) by (split; congruence).
    destruct (bool_decide_reflect (i = j)); [done|]. symmetry. by destruct (find _ ks).
  - cbn [find]. destruct (has_id i k) eqn:Ei; [|done]. apply bool_decide_eq_true in Ei.
    rewrite bool_decide_eq_false_2 by congruence. done.
Qed.

Lemma find_filter_ne i j ks : i ≠ j →
  find (has_id i) (filter (λ k, id k ≠ j) ks) = find (has_id i) ks.
Proof.
  intros Hij. induction ks as [|k ks IH]; [done|]. rewrite filter_cons.
  destruct (decide (id k ≠ j)) as [Hk|Hk]; cbn [find].
  - by rewrite IH.
  - unfold has_id at 2. rewrite bool_decide_eq_false_2; [done|]. apply dec_stable in Hk. congruence.
Qed.

Lemma find_app_l {A} (p : A → bool) l l' x : find p l = Some x → find p (l ++ l') = Some x.
Proof. induction l as [|y l IH]; [done|]. cbn. by destruct (p y). Qed.

Lemma find_elem i ks : i ∈ (id <$> ks) → is_Some (find (has_id i) ks).
Proof.
  intros (k & -> & Hk)%list_elem_of_fmap. destruct (find (has_id (id k)) ks) eqn:E; [done|].
  eapply find_none in E; [|by apply list_elem_of_In]. by apply bool_decide_eq_false in E.
Qed.

(** No action but a reload lowers what the document says was used. *)
Lemma act_listed g a i u :
  not_reload a → i ∈ (id <$> document (act g a)) → listed_used (document g) i = Some u →
  ∃ u', listed_used (document (act g a)) i = Some u' ∧ u ≤ u'.
Proof.
  unfold listed_used. intros Ha Hin (k & Hk & ->)%fmap_Some.
  assert (Hmut : ∀ saved f, i ∈ (id <$> document (mutate values g saved f)) →
    (i ∈ (id <$> f (document g)) →
      ∃ k', find (has_id i) (f (document g)) = Some k' ∧ token_used k ≤ token_used k') →
    ∃ u', token_used <$> find (has_id i) (document (mutate values g saved f)) = Some u'
          ∧ token_used k ≤ u').
  { intros saved f Hi Hf. unfold mutate in *. destruct saved; [|rewrite Hk; cbn; eauto with lia].
    destruct (publish_fields g (f (document g)) (without_raw <$> f (document g))) as [Hd _].
    rewrite Hd in *. destruct (Hf Hi) as (k' & -> & Hle). cbn. eauto. }
  destruct a as [r u1 u2 now saved|j r saved|j saved|e t|j c saved|]; cbn in *; try done.
  - apply Hmut; [done|]. intros _. exists k. split; [by apply find_app_l|lia].
  - apply Hmut; [done|]. intros _. rewrite find_update_first by (intros; unfold patch_key, patched; by repeat case_match).
    rewrite Hk. case_bool_decide; cbn; eexists; (split; [done|]); [|lia].
    unfold patch_key, patched. repeat case_match; cbn; lia.
  - apply Hmut; [done|]. intros Hi. assert (i ≠ j).
    { intros ->. apply list_elem_of_fmap in Hi as (k' & -> & [H _]%list_elem_of_filter). done. }
    rewrite find_filter_ne by done. eauto with lia.
  - rewrite Hk. cbn. eauto with lia.
  - unfold persist_scoped_usage in *. repeat case_match; try (rewrite Hk; cbn; eauto with lia).
    apply Hmut; [done|]. intros _. rewrite find_update_first by done.
    rewrite Hk. case_bool_decide; cbn; eexists; (split; [done|]); cbn; lia.
Qed.

Lemma run_listed i g g' u :
  run_of not_reload i g g' → synced g → listed_used (document g) i = Some u →
  synced g' ∧ ∃ u', listed_used (document g') i = Some u' ∧ u ≤ u'.
Proof.
  intros Hr Hs Hu. induction Hr as [|g1 a Hr IH Ha Hwf Hin]; [eauto with lia|].
  destruct IH as (Hs1 & u1 & Hu1 & Hle). split; [by apply act_synced|].
  destruct (act_listed g1 a i u1 Ha Hin Hu1) as (u2 & Hu2 & Hle2). exists u2. split; [done|lia].
Qed.

Lemma restart_used g i u :
  wf_keys (document g) → synced g → listed_used (document g) i = Some u →
  ∃ u', used_by (restart values g) i = Some u' ∧ u ≤ u'.
Proof.
  intros Hwf Hs Hu. assert (Hd : wf_keys (disk g)) by by eapply wf_without_raw.
  pose proof (boot_invariant _ Hd) as Hb. rewrite <- (listed_without_raw _ _ i Hs) in Hu.
  unfold listed_used in Hu. apply fmap_Some in Hu as (k & Hk & ->). apply find_id in Hk as [Hin <-].
  assert (Hdoc : document (restart values g) = disk g) by apply publish_fields.
  destruct (index_complete _ _ _ (inv_index _ Hb) k) as (e & He & <-).
  { unfold restart in Hdoc. by rewrite Hdoc. }
  destruct (index_live _ _ _ (inv_index _ Hb) _ _ He) as [_ Hle].
  assert (Hl : location_of (restart values g) (id (key e)) = Some (counter e)).
  { apply location_Some; [done|]. by exists e. }
  unfold used_by. rewrite Hl. cbn. eauto.
Qed.

Lemma fmap_update_first {A} (h : ScopedApiKey → A) p f ks :
  (∀ k, h (f k) = h k) → h <$> update_first p f ks = h <$> ks.
Proof.
  intros Hf. induction ks as [|k ks IH]; [done|]. cbn [update_first].
  destruct (p k); rewrite !fmap_cons; by rewrite ?Hf, ?IH.
Qed.

Lemma Forall_update_first (P : ScopedApiKey → Prop) p f ks :
  (∀ k, P k → P (f k)) → Forall P ks → Forall P (update_first p f ks).
Proof.
  intros Hf. induction 1 as [|k ks Hk Hks IH]; [constructor|]. cbn [update_first].
  destruct (p k); constructor; auto.
Qed.

Lemma mirrored g i charged :
  wf_keys (document g) → is_u64 charged → i ∈ (id <$> document g) →
  let g' := act g (Mirror i charged true) in
  wf_keys (document g') ∧ ∃ u, listed_used (document g') i = Some u ∧ charged ≤ u.
Proof.
  intros Hwf Hc Hin. destruct (find_elem _ _ Hin) as [k Hk]. cbn. unfold persist_scoped_usage.
  rewrite Hk. cbn [fmap option_fmap option_map]. destruct (Z.leb_spec charged (token_used k)).
  - split; [done|]. unfold listed_used. rewrite Hk. cbn. eauto.
  - unfold mutate, listed_used.
    match goal with |- context [publish values g ?ks ?w] => destruct (publish_fields g ks w) as [-> _] end.
    split.
    + destruct Hwf as [H1 H2 H3]. split.
      * by rewrite (fmap_update_first id).
      * by rewrite (fmap_update_first key_identifier).
      * apply Forall_update_first; [|done]. unfold is_u64 in *. cbn. lia.
    + rewrite find_update_first by done. rewrite bool_decide_eq_true_2 by done. rewrite Hk. cbn.
      eexists. split; [done|]. cbn. lia.
Qed.

Lemma run_wf ok i g g' : wf_keys (document g) → run_of ok i g g' → wf_keys (document g').
Proof. intros Hwf Hr. by induction Hr. Qed.

(** C9: A restart resumes from the spent balance.  Take a process whose document never
    lists two keys with the same id or the same key identifier and which never reloads or
    replaces its document from outside (both are side conditions).  Once a key's counter
    was mirrored into the settings document by a write that succeeded, then after any
    further creations, patches and deletions that keep the key, failed writes, mirrored
    counters and charges that were never written, a gateway restarted from the disk counts
    at least the mirrored tokens as used. *)
Theorem restart_resumes (file : list ScopedApiKey) (g g' : Gateway) (i : string) (charged : Z)
  (Hfile : wf_keys file) (Hg : run_of not_reload i (boot values file) g)
  (Hin : i ∈ (id <$> document g)) (Hc : is_u64 charged)
  (Hg' : run_of not_reload i (act g (Mirror i charged true)) g') :
  ∃ u, used_by (restart values g') i = Some u ∧ charged ≤ u.
Proof.
  pose proof (inv_keys _ (run_invariant _ _ _ Hfile (not_reload_run _ _ _ Hg))) as Hwf.
  destruct (mirrored g i charged Hwf Hc Hin) as (Hwf1 & u1 & Hu1 & Hle1).
  assert (Hs : synced g).
  { clear -Hg. induction Hg; [apply boot_synced|by apply act_synced]. }
  destruct (run_listed i _ _ u1 Hg' (act_synced g (Mirror i charged true) I Hs) Hu1) as (Hs' & u2 & Hu2 & Hle2).
  destruct (restart_used g' i u2 (run_wf _ _ _ _ Hwf1 Hg') Hs' Hu2) as (u3 & Hu3 & Hle3).
  exists u3. split; [done|lia].
Qed.
End scoped.

(** ** A concrete gateway *)

Module ScopedDemo.

Definition values (m : Index) : list ScopedKeyEntry := (map_to_list m).*2.

Definition some_key (i secret : string) (limit used : Z) : ScopedApiKey :=
  {| id := i; name := i; key_identifier := secret; key_prefix := "mq"; raw_key := None;
     allowed_providers := []; allowed_accounts := []; allowed_models := []; token_limit := limit;
     token_used := used; is_active := true; created_at_ms := 0; expires_at_ms := None |}.

Definition file : list ScopedApiKey := [some_key "a" "A" 100 40; some_key "b" "B" 0 0].

Lemma all_u64 ks :
  forallb (λ k, (0 <=? token_used k) && (token_used k <=? u64_max)) ks = true →
  Forall (λ k, is_u64 (token_used k)) ks.
Proof.
  rewrite forallb_forall. intros H. apply list.Forall_forall. intros k Hk%list_elem_of_In.
  specialize (H k Hk). unfold is_u64. lia.
Qed.

Lemma file_wf : wf_keys file.
Proof. split; [apply (bool_decide_unpack _); vm_compute; exact I..|]. by apply all_u64. Qed.

Definition no_patch : PatchScopedKeyRequest :=
  {| new_name := None; new_raw := None; new_providers := None; new_accounts := None;
     new_models := None; new_limit := None; new_active := None; new_expires := None |}.

(** The key's limit is raised, then the other key is deleted. *)
Definition raised : PatchScopedKeyRequest :=
  {| new_name := None; new_raw := None; new_providers := None; new_accounts := None;
     new_models := None; new_limit := Some 500; new_active := None; new_expires := None |}.

Definition g0 : Gateway := boot values file.
Definition g1 : Gateway := act values g0 (Patch "a" raised true).
Definition g2 : Gateway := act values g1 (Delete "b" true).

Lemma run_g2 (ok : action → Prop) : (∀ a, not_reload a → ok a) → run_of values ok "a" g0 g2.
Proof.
  intros Hok. apply run_step; [apply run_step; [apply run_refl|by apply Hok| |]|by apply Hok| |].
  1,3: split; [apply (bool_decide_unpack _); vm_compute; exact I..|]; by apply all_u64.
  all: apply (bool_decide_unpack _); vm_compute; exact I.
Qed.

(** The entry a request was admitted with before the edits. *)
Definition old_entry : ScopedKeyEntry := {| key := some_key "a" "A" 100 40; counter := 0 |}.

Lemma late_charge_witness :
  used_by g2 "a" = Some 40 ∧
  ∃ u u', used_by g0 "a" = Some u ∧ used_by g2 "a" = Some u' ∧ u ≤ u' ∧
    used_by (act values g2 (Consume old_entry 70)) "a" = Some (saturating_add_u64 u' 70) ∧
    ∀ j, j ≠ "a" → used_by (act values g2 (Consume old_entry 70)) j = used_by g2 j.
Proof.
  split; [vm_compute; reflexivity|].
  apply (late_charge_counts values (λ _, reflexivity _) file g0 g2 "a" old_entry 70).
  - exact file_wf.
  - apply run_refl.
  - vm_compute. reflexivity.
  - reflexivity.
  - apply run_g2. by intros [].
  - lia.
Defined.

Definition charged : Gateway := act values g0 (Mirror "a" 95 true).

Lemma restart_witness :
  used_by g0 "a" = Some 40 ∧ ∃ u, used_by (restart values charged) "a" = Some u ∧ 95 ≤ u.
Proof.
  split; [vm_compute; reflexivity|].
  apply (restart_resumes values (λ _, reflexivity _) file g0 charged "a" 95).
  - exact file_wf.
  - apply run_refl.
  - apply (bool_decide_unpack _). vm_compute. exact I.
  - unfold is_u64, u64_max. lia.
  - apply run_refl.
Defined.

(** Giving key [b] the secret of key [a] is accepted: [a], whose limit is spent, now
    authenticates the secret while [b]'s unlimited entry answers for it in the index, and
    [a]'s counter is no longer in the index. *)
Definition twin : PatchScopedKeyRequest :=
  {| new_name := None; new_raw := Some "s"; new_providers := None; new_accounts := None;
     new_models := None; new_limit := None; new_active := None; new_expires := None |}.

Definition spent_key : ScopedApiKey := some_key "a" (Sha256.stable_key_identifier "s") 100 100.
Definition before : Gateway := boot values [spent_key; some_key "b" "B" 0 0].
Definition after : Gateway := (patch_scoped_key values before "b" twin true).2.

Theorem duplicate_secret_lifts_quota :
  quota_admits before spent_key = false ∧ head (document after) = Some spent_key ∧
  quota_admits after spent_key = true.
Proof. vm_compute. done. Qed.
End ScopedDemo.

(** No patch that arrives as JSON clears an expiry: [null] reads as an absent field. *)
Theorem expiry_cannot_be_cleared field r live k at_ :
  expires_at_ms k = Some at_ → parse_expires field = Ok (new_expires r) →
  ∃ at_', expires_at_ms (patched r live k) = Some at_'.
Proof.
  intros Hk Hp. assert (Hne : new_expires r ≠ Some None) 
    by (unfold parse_expires in Hp; repeat case_match; congruence).
  unfold patched. case_match. destruct (replaced_raw r); cbn; destruct (new_expires r) as [[t|]|]; naive_solver.
Qed.
