(* ===== verification/Storage.v ===== *)
(** * Storage of configuration and credentials (crates/registry/src/store.rs)

    [StorageManager] keeps a local spool beside a backend: writes go to the backend
    first, the spool holds what the backend confirmed, and failed writes are kept apart
    as recovery data.  A backend is an instance of [StorageBackend]; [MemoryStore] and
    [LocalStore] are two.  The spool, the recovery data and the local backend are
    directory trees: a key below a file, or on a directory, is an error, directories stay
    when their files go, and a write passes through a temporary file beside its target.
    Other failures of a file operation are arguments, and [pid] is the process id in the
    name of temporary files. *)

From Stdlib Require Import Ascii.
From stdpp Require Import gmap strings list.
From S2P Require Import Prelude RustStr.
Import RustStr.
Open Scope Z_scope.

Module Storage.

Inductive StoreError :=
  | InvalidConfig (text : string)
  | Unavailable (text : string)
  | Conflict (text : string)
  | Io (text : string)
  | Serialization (text : string)
  | Database (text : string)
  | Network (text : string).

(** ** Keys *)

(** The components of a Unix path. *)
Inductive Component := RootDir | CurDir | ParentDir | Normal (name : string).

Definition component (name : string) : Component :=
  if bool_decide (name = ".") then CurDir
  else if bool_decide (name = "..") then ParentDir else Normal name.

(** [Path::components]: repeated separators and inner [.] are skipped, a leading [.] or
    [/] is not. *)
Definition components (path : string) : list Component :=
  let parts := filter (λ p, is_empty p = false) (split "/" path) in
  let rooted := starts_with path "/" in
  let body :=
    match parts with
    | [] => []
    | p :: ps => (if negb rooted && bool_decide (p = ".") then [CurDir]
                  else if bool_decide (p = ".") then [] else [component p])
                 ++ (component <$> filter (λ q, q ≠ ".") ps)
    end in
  if rooted then RootDir :: body else body.

Definition name_of (c : Component) : option string :=
  match c with Normal n => Some n | _ => None end.

Definition unsafe_key (value : string) : StoreError :=
  InvalidConfig ("unsafe storage key " +:+ value).

Definition normalize_key (value : string) : result StoreError string :=
  let cs := components value in
  if is_empty (trim value) || existsb (λ c, negb (is_some (name_of c))) cs
  then Err (unsafe_key value)
  else Ok (String.concat "/" (omap name_of cs)).

Definition normalize_prefix (prefix : string) : result StoreError string :=
  if is_empty prefix then Ok "" else normalize_key prefix.

(** ** Backends *)

Abbreviation Bytes := string.

Class StorageBackend (B : Type) := {
  equivalent : B → string → Bytes → Bytes → bool;
  get : B → string → result StoreError (option Bytes);
  put : B → string → Bytes → result StoreError unit * B;
  delete : B → string → result StoreError unit * B;
  list_keys : B → string → result StoreError (list string);
}.

Definition in_place {B} (b : B) (r : result StoreError B) : result StoreError unit * B :=
  match r with Ok b' => (Ok tt, b') | Err e => (Err e, b) end.

Definition keys_under (m : gmap string Bytes) (prefix : string)
  : result StoreError (list string) :=
  p ← normalize_prefix prefix;
  Ok (filter (λ k, starts_with k p = true) (btree_keys m)).

Record MemoryStore := { records : gmap string Bytes }.

Definition memory_put (b : MemoryStore) (key : string) (value : Bytes)
  : result StoreError unit * MemoryStore :=
  in_place b (k ← normalize_key key; Ok {| records := <[k := value]> (records b) |}).
Definition memory_delete (b : MemoryStore) (key : string)
  : result StoreError unit * MemoryStore :=
  in_place b (k ← normalize_key key; Ok {| records := base.delete k (records b) |}).

Global Instance MemoryStore_backend : StorageBackend MemoryStore := {
  equivalent := λ _ _ left right, bool_decide (left = right);
  get := λ b key, Ok (records b !! key);
  put := memory_put;
  delete := memory_delete;
  list_keys := λ b prefix, keys_under (records b) prefix;
}.

(** ** Directory trees *)

(** A directory with what is below it, by paths relative to it. *)
Record Tree := { files_of : gmap string Bytes; dirs_of : gset string }.

Definition empty_tree : Tree := {| files_of := ∅; dirs_of := ∅ |}.

(** The directories on the way to a path, the nearest last. *)
Definition ancestors (k : string) : list string :=
  let parts := split "/" k in
  (λ n, String.concat "/" (take n parts)) <$> seq 1 (length parts - 1).

Definition NotADirectory : StoreError := Io "Not a directory (os error 20)".
Definition IsADirectory : StoreError := Io "Is a directory (os error 21)".
Definition FileExists : StoreError := Io "File exists (os error 17)".

Definition is_file (t : Tree) (k : string) : bool := is_some (files_of t !! k).
Definition is_dir (t : Tree) (k : string) : bool := bool_decide (k ∈ dirs_of t).
Definition below_file (t : Tree) (k : string) : bool := existsb (is_file t) (ancestors k).

(** [fs::read], where a missing file is no error. *)
Definition tree_read (t : Tree) (k : string) : result StoreError (option Bytes) :=
  if below_file t k then Err NotADirectory
  else if is_dir t k then Err IsADirectory else Ok (files_of t !! k).

(** [fs::remove_file], where a missing file is no error. *)
Definition tree_remove (t : Tree) (k : string) : result StoreError unit * Tree :=
  if below_file t k then (Err NotADirectory, t)
  else if is_dir t k then (Err IsADirectory, t)
  else (Ok tt, {| files_of := base.delete k (files_of t); dirs_of := dirs_of t |}).

(** [fs::create_dir_all] of a path's parent. *)
Definition create_dirs (t : Tree) (k : string) : result StoreError Tree :=
  if below_file t k then
    Err (if match last (ancestors k) with Some d => is_file t d | None => false end
         then FileExists else NotADirectory)
  else Ok {| files_of := files_of t; dirs_of := list_to_set (ancestors k) ∪ dirs_of t |}.

(** [Path::with_extension] of the last name. *)
Definition stem_of (name : string) : string :=
  match rsplit_once "." name with
  | Some (stem, _) => if is_empty stem then name else stem
  | None => name
  end.

Definition temp_name (pid k : string) : string :=
  let parts := split "/" k in
  String.concat "/" (take (length parts - 1) parts
                     ++ [stem_of (default "" (last parts)) +:+ ".tmp-" +:+ pid]).

(** Writing a temporary file and renaming it over the target.  When the rename fails,
    the spool removes the temporary file ([tidy]) and [atomic_write] does not. *)
Definition tree_write (pid : string) (tidy : bool) (t : Tree) (k : string) (data : Bytes)
  : result StoreError unit * Tree :=
  match create_dirs t k with
  | Err e => (Err e, t)
  | Ok t =>
      let temp := temp_name pid k in
      let with_files f := {| files_of := f; dirs_of := dirs_of t |} in
      if is_dir t temp then (Err IsADirectory, t)
      else if is_dir t k then
        (Err IsADirectory, with_files (if tidy then base.delete temp (files_of t)
                                       else <[temp := data]> (files_of t)))
      else (Ok tt, with_files (<[k := data]> (base.delete temp (files_of t))))
  end.

(** [LocalStore]; [broken] is the error its file system answers with, if any. *)
Record LocalStore := { tree : Tree; broken : option StoreError }.

Definition on_files {A} (b : LocalStore) (r : result StoreError A) : result StoreError A :=
  match broken b with Some e => Err e | None => r end.

Definition on_tree (b : LocalStore) (key : string)
    (f : Tree → string → result StoreError unit * Tree) : result StoreError unit * LocalStore :=
  match normalize_key key with
  | Err e => (Err e, b)
  | Ok k =>
      match broken b with
      | Some e => (Err e, b)
      | None => let '(r, t) := f (tree b) k in (r, {| tree := t; broken := None |})
      end
  end.

Definition local_get (b : LocalStore) (key : string) : result StoreError (option Bytes) :=
  k ← normalize_key key; on_files b (tree_read (tree b) k).
Definition local_put (pid : string) (b : LocalStore) (key : string) (value : Bytes)
  : result StoreError unit * LocalStore :=
  on_tree b key (λ t k, tree_write pid false t k value).
Definition local_delete (b : LocalStore) (key : string) : result StoreError unit * LocalStore :=
  on_tree b key tree_remove.
Definition local_list (b : LocalStore) (prefix : string) : result StoreError (list string) :=
  p ← normalize_prefix prefix;
  on_files b (Ok (filter (λ k, starts_with k p = true) (btree_keys (files_of (tree b))))).

Global Instance LocalStore_backend (pid : string) : StorageBackend LocalStore := {
  equivalent := λ _ _ left right, bool_decide (left = right);
  get := local_get; put := local_put pid; delete := local_delete; list_keys := local_list;
}.

(** ** The manager *)

Section manager.
Context (pid : string) {B : Type} `{StorageBackend B}.

Record StorageManager := {
  backend : B;
  spool : Tree;
  pending : Tree;
}.

Definition with_backend (m : StorageManager) (b : B) : StorageManager :=
  {| backend := b; spool := spool m; pending := pending m |}.
Definition with_spool (m : StorageManager) (t : Tree) : StorageManager :=
  {| backend := backend m; spool := t; pending := pending m |}.
Definition with_pending (m : StorageManager) (t : Tree) : StorageManager :=
  {| backend := backend m; spool := spool m; pending := t |}.

(** [fs] is a failure of the file system other than those of the tree's shape; it leaves
    the directory as it was. *)
Definition write_spool (fs : option StoreError) (m : StorageManager) (key : string) (data : Bytes)
  : result StoreError unit * StorageManager :=
  match fs with
  | Some e => (Err e, m)
  | None => let '(r, t) := tree_write pid true (spool m) key data in (r, with_spool m t)
  end.

Definition clear_pending (fs : option StoreError) (m : StorageManager) (key : string)
  : result StoreError unit * StorageManager :=
  match fs with
  | Some e => (Err e, m)
  | None => let '(r, t) := tree_remove (pending m) key in (r, with_pending m t)
  end.

(** [fs] is the outcome of writing the spool, or of reading it. *)
Definition manager_get (fs : option StoreError) (m : StorageManager) (key : string)
  : result StoreError (option Bytes) * StorageManager :=
  match normalize_key key with
  | Err e => (Err e, m)
  | Ok k =>
      match get (backend m) k with
      | Err e => (Err e, m)
      | Ok (Some data) => match write_spool fs m k data with
                          | (Ok _, m) => (Ok (Some data), m)
                          | (Err e, m) => (Err e, m)
                          end
      | Ok None => (match fs with Some e => Err e | None => tree_read (spool m) k end, m)
      end
  end.

(** The remote copy must be the one the spool remembers; a spool file that cannot be
    read is not checked, nor is a backend that is unavailable. *)
Definition spool_conflict (readable : bool) (m : StorageManager) (k : string)
  : result StoreError unit :=
  match files_of (spool m) !! k with
  | Some local =>
      if negb readable then Ok tt
      else match get (backend m) k with
           | Ok (Some remote) =>
               if negb (equivalent (backend m) k remote local)
               then Err (Conflict ("spool conflict for key '" +:+ k
                                     +:+ "': remote backend has diverged from local spool"))
               else Ok tt
           | Ok None | Err (Unavailable _) => Ok tt
           | Err e => Err e
           end
  | None => Ok tt
  end.

(** [fs_spool], [fs_pending] are the outcomes of writing the spool and of the recovery
    file (writing it, or removing it). *)
Definition manager_put (readable : bool) (fs_spool fs_pending : option StoreError)
    (m : StorageManager) (key : string) (data : Bytes) : result StoreError unit * StorageManager :=
  match normalize_key key with
  | Err e => (Err e, m)
  | Ok k =>
      match spool_conflict readable m k with
      | Err e => (Err e, m)
      | Ok _ =>
          match put (backend m) k data with
          | (Ok _, b) =>
              match write_spool fs_spool (with_backend m b) k data with
              | (Ok _, m) => clear_pending fs_pending m k
              | (Err e, m) => (Err e, m)
              end
          | (Err err, b) =>
              let m := with_backend m b in
              let '(r, kept) := local_put pid {| tree := pending m; broken := fs_pending |} k data in
              let m := with_pending m (tree kept) in
              match r with Err e => (Err e, m) | Ok _ => (Err err, m) end
          end
      end
  end.

Definition manager_delete (fs_pending fs_spool : option StoreError) (m : StorageManager)
    (key : string) : result StoreError unit * StorageManager :=
  match normalize_key key with
  | Err e => (Err e, m)
  | Ok k =>
      match delete (backend m) k with
      | (Err e, b) => (Err e, with_backend m b)
      | (Ok _, b) =>
          match clear_pending fs_pending (with_backend m b) k with
          | (Err e, m) => (Err e, m)
          | (Ok _, m) =>
              match fs_spool with
              | Some e => (Err e, m)
              | None => let '(r, t) := tree_remove (spool m) k in (r, with_spool m t)
              end
          end
      end
  end.

Definition manager_list (m : StorageManager) (prefix : string) : result StoreError (list string) :=
  p ← normalize_prefix prefix; list_keys (backend m) p.

(** *** Synchronising *)

Definition diverged (k : string) : StoreError :=
  Conflict ("spool conflict for key '" +:+ k +:+ "': remote backend has diverged from local spool").

(** Everything is fetched and compared before the first byte is written. *)
Definition fetch_record (m : StorageManager) (listed : string)
  : result StoreError (string * Bytes) :=
  k ← normalize_key listed;
  found ← get (backend m) k;
  data ← match found with
         | Some d => Ok d
         | None => Err (Conflict ("listed storage key disappeared: " +:+ k))
         end;
  match files_of (spool m) !! k with
  | Some local => if negb (equivalent (backend m) k local data) then Err (diverged k)
                  else Ok (k, data)
  | None => Ok (k, data)
  end.

Definition try_map {A C} (f : A → result StoreError C) : list A → result StoreError (list C) :=
  fix go l := match l with
              | [] => Ok []
              | a :: l => c ← f a; cs ← go l; Ok (c :: cs)
              end.

Fixpoint write_records (m : StorageManager) (records : list (string * Bytes))
  : result StoreError unit * StorageManager :=
  match records with
  | [] => (Ok tt, m)
  | (k, data) :: records =>
      match write_spool None m k data with
      | (Ok _, m) => write_records m records
      | (Err e, m) => (Err e, m)
      end
  end.

(** With no other failure of the file system: the records are written, then the files
    the backend does not list are removed. *)
Definition sync_all_to_spool (m : StorageManager) : result StoreError unit * StorageManager :=
  match (keys ← manager_list m ""; records ← try_map (fetch_record m) keys; Ok (keys, records)) with
  | Err e => (Err e, m)
  | Ok (keys, records) =>
      match write_records m records with
      | (Err e, m) => (Err e, m)
      | (Ok _, m) =>
          (Ok tt, with_spool m {| files_of := filter (λ kv : string * Bytes, kv.1 ∈ keys)
                                                (files_of (spool m));
                                  dirs_of := dirs_of (spool m) |})
      end
  end.
End manager.

(** ** Object storage *)

Definition unreserved (a : ascii) : bool :=
  is_ascii_digit a || ((65 <=? byte_of a) && (byte_of a <=? 90))
  || ((97 <=? byte_of a) && (byte_of a <=? 122))
  || bool_decide (a ∈ ["-"; "_"; "."; "~"]%char).

Definition upper_hex (n : Z) : ascii :=
  ascii_of_nat (Z.to_nat (if n <? 10 then 48 + n else 55 + n)).

Fixpoint urlencoding (s : string) : string :=
  match s with
  | EmptyString => ""
  | String a s =>
      if unreserved a then String a (urlencoding s)
      else let n := Z.of_nat (nat_of_ascii a) in
           String "%" (String (upper_hex (n / 16)) (String (upper_hex (n mod 16)) (urlencoding s)))
  end.

Definition resolve_key (prefix key : string) : string :=
  if is_empty prefix then key else prefix +:+ "/" +:+ key.

(** ** Git *)

Definition is_push_rejection (message : string) : bool :=
  let lowered := to_ascii_lowercase message in
  contains lowered "[rejected]" || contains lowered "non-fast-forward"
  || contains lowered "fetch first" || contains lowered "updates were rejected".

End Storage.

(** * Properties of storage

    Keys cannot leave the spool; what was confirmed is read back, what failed is never
    returned as stored; a diverged remote copy is not overwritten; synchronising is all
    or nothing and makes the spool the image of the backend. *)

Import RustStr Storage.

(** ** Keys *)

Lemma split_no_sep c s p : p ∈ split c s → (c ∉ chars p).
Proof.
  revert p. induction s as [|a s IH]; intros p; cbn [split].
  - intros ->%list_elem_of_singleton. cbn. by intros ?%elem_of_nil.
  - case_bool_decide as Hac.
    + intros [->|Hp]%elem_of_cons; [by intros ?%elem_of_nil|auto].
    + destruct (split c s) as [|q l] eqn:E.
      * intros ->%list_elem_of_singleton. intros [?|?%elem_of_nil]%elem_of_cons; congruence.
      * intros [->|Hp]%elem_of_cons.
        -- cbn. intros [?|Hin]%elem_of_cons; [congruence|]. apply (IH q); [left|done].
        -- apply IH. by right.
Qed.

(** A name that is one step down: not empty, not [.] or [..], without a separator. *)
Definition plain_name (n : string) : Prop :=
  n ≠ "" ∧ n ≠ "." ∧ n ≠ ".." ∧ ("/"%char ∉ chars n).

Lemma split_cons c a s :
  split c (String a s) =
  if bool_decide (a = c) then "" :: split c s
  else match split c s with p :: ps => String a p :: ps | [] => [String a ""] end.
Proof. done. Qed.

Lemma split_app_sep c n s : (c ∉ chars n) → split c (n +:+ String c s) = n :: split c s.
Proof.
  induction n as [|a n IH]; intros Hn.
  - change ("" +:+ String c s) with (String c s). by rewrite split_cons, bool_decide_eq_true_2.
  - change (String a n +:+ String c s) with (String a (n +:+ String c s)). cbn in Hn.
    rewrite split_cons, bool_decide_eq_false_2 by (intros ->; apply Hn; left).
    rewrite IH by (intros ?; apply Hn; by right). done.
Qed.

Lemma split_plain c n : (c ∉ chars n) → split c n = [n].
Proof.
  induction n as [|a n IH]; intros Hn; [done|]. cbn in Hn.
  rewrite split_cons, bool_decide_eq_false_2 by (intros ->; apply Hn; left).
  by rewrite IH by (intros ?; apply Hn; by right).
Qed.

Lemma split_all_empty value :
  filter (λ p, is_empty p = false) (split "/" value) = [] →
  value = "" ∨ starts_with value "/" = true.
Proof.
  destruct value as [|a v]; [by left|]. rewrite split_cons. case_bool_decide as Ha.
  - intros _. right. subst a. by destruct v.
  - intros E. exfalso. destruct (split "/" v); rewrite filter_cons in E; by case_decide.
Qed.

Lemma split_concat names :
  names ≠ [] → Forall plain_name names → split "/" (String.concat "/" names) = names.
Proof.
  intros Hne Hp. induction Hp as [|n ns (_ & _ & _ & Hn) Hp IH]; [done|].
  destruct ns as [|n' ns]; [cbn; by apply split_plain|].
  change (String.concat "/" (n :: n' :: ns)) with (n +:+ String "/" (String.concat "/" (n' :: ns))).
  rewrite split_app_sep by done. by rewrite IH.
Qed.

Lemma plain_component n : plain_name n → component n = Normal n.
Proof.
  intros (_ & H1 & H2 & _). unfold component. by rewrite !bool_decide_eq_false_2.
Qed.

Lemma component_plain n m :
  n ≠ "" → n ≠ "." → ("/"%char ∉ chars n) → name_of (component n) = Some m → plain_name m ∧ m = n.
Proof.
  intros H1 H2 H3. unfold component. rewrite bool_decide_eq_false_2 by done.
  case_bool_decide; cbn; [done|]. intros [= <-]. done.
Qed.

(** The components of an accepted key are plain names. *)
Lemma normalize_components value k :
  normalize_key value = Ok k →
  ∃ names, k = String.concat "/" names ∧ names ≠ [] ∧ Forall plain_name names.
Proof.
  unfold normalize_key. case_match eqn:Hc; [done|]. apply orb_false_iff in Hc as [Ht Hc].
  intros [= <-]. exists (omap name_of (components value)).
  split; [done|].
  assert (Hall : ∀ c, c ∈ components value → is_Some (name_of c)).
  { intros c Hin. pose proof (existsb_false _ _ _ Hc Hin) as H. cbn in H.
    destruct (name_of c); [by eexists|done]. }
  unfold components in *. destruct (starts_with value "/") eqn:Hr.
  { destruct (Hall RootDir) as [? ?]; [left|done]. }
  cbn [negb andb] in *.
  destruct (filter (λ p, is_empty p = false) (split "/" value)) as [|p ps] eqn:Ep.
  { apply split_all_empty in Ep as [->|]; [|congruence]. done. }
  assert (Hparts : ∀ q, q ∈ p :: ps → q ≠ "" ∧ ("/"%char ∉ chars q)).
  { intros q Hq. rewrite <- Ep in Hq. apply list_elem_of_filter in Hq as [He Hq].
    split; [by intros ->|by eapply split_no_sep]. }
  case_bool_decide as Hdot.
  { destruct (Hall CurDir) as [? ?]; [left|done]. }
  split.
  - destruct (Hall (component p)) as [n Hn]; [left|]. cbn. by rewrite Hn.
  - apply list.Forall_forall. intros n (c & Hin & Hn)%list_elem_of_omap.
    apply elem_of_app in Hin as [->%list_elem_of_singleton|Hin].
    + destruct (Hparts p) as [H1 H2]; [left|]. by eapply component_plain.
    + apply list_elem_of_fmap in Hin as (q & -> & [Hq Hin]%list_elem_of_filter).
      destruct (Hparts q) as [H1 H2]; [by right|]. by eapply component_plain.
Qed.

Lemma components_concat names :
  names ≠ [] → Forall plain_name names → components (String.concat "/" names) = Normal <$> names.
Proof.
  intros Hne Hp. unfold components. rewrite split_concat by done.
  rewrite filter_all.
  2: { intros n Hn. rewrite list.Forall_forall in Hp. destruct (Hp n Hn) as (H & _). by destruct n. }
  destruct names as [|n ns]; [done|].
  assert (Hn : plain_name n) by (by apply list.Forall_cons in Hp as [? _]).
  assert (starts_with (String.concat "/" (n :: ns)) "/" = false) as ->.
  { destruct Hn as (H1 & _ & _ & H4). destruct n as [|a n]; [done|].
    destruct (starts_with _ "/") eqn:Hs; [|done]. apply starts_with_iff in Hs as [r Hr]. exfalso.
    apply H4. destruct ns; injection Hr as -> _; left. }
  cbn [negb andb]. destruct Hn as (H1 & H2 & H3 & H4).
  rewrite (bool_decide_eq_false_2 (n = ".")) by done. cbn [app fmap list_fmap].
  rewrite plain_component by done. f_equal. apply list.Forall_cons in Hp as [_ Hp].
  clear - Hp. induction Hp as [|m ms Hm Hp IH]; [done|]. rewrite filter_cons.
  rewrite decide_True by apply Hm. cbn. rewrite plain_component by done. f_equal. exact IH.
Qed.

Lemma normalize_again value k :
  normalize_key value = Ok k → is_empty (trim k) = false → normalize_key k = Ok k.
Proof.
  intros (names & -> & Hne & Hp)%normalize_components Ht.
  unfold normalize_key. rewrite components_concat by done. rewrite Ht. cbn [orb].
  assert (existsb (λ c, negb (is_some (name_of c))) (Normal <$> names) = false) as ->.
  { clear. by induction names. }
  do 2 f_equal. clear. induction names as [|n ns IH]; [done|]. cbn in *. by rewrite IH.
Qed.

(** Keys stay inside the store.  An accepted key is a path of plain names joined by
    single slashes - no empty name, no [.] or [..], nothing absolute - and normalising
    it again changes nothing (a key of blanks only is refused the second time). *)
Theorem normalize_key_safe value k :
  normalize_key value = Ok k →
  (∃ names, k = String.concat "/" names ∧ names ≠ [] ∧ Forall plain_name names) ∧
  (is_empty (trim k) = false → normalize_key k = Ok k).
Proof.
  intros Hk. split; [by eapply normalize_components|by eapply normalize_again].
Qed.

(** A key a backend is asked for: normal, and not blank. *)
Definition storable (k : string) : Prop := normalize_key k = Ok k.

(** ** Keys that do not get in each other's way *)

(** A set of keys in use: normal and not blank, none a directory of another, and none the
    temporary file of another or below one. *)
Class KeySpace (pid : string) (keys : string → Prop) := {
  ks_storable : ∀ k, keys k → storable k;
  ks_free : ∀ k k', keys k → keys k' → (k ∉ ancestors k');
  ks_temp : ∀ k k', keys k → keys k' → temp_name pid k ≠ k' ∧ (temp_name pid k ∉ ancestors k');
}.

(** A tree that holds keys in use only. *)
Record within (keys : string → Prop) (t : Tree) : Prop := {
  w_files : ∀ k, is_Some (files_of t !! k) → keys k;
  w_dirs : ∀ d, d ∈ dirs_of t → ∃ k, keys k ∧ d ∈ ancestors k;
}.

Section trees.
Context (pid : string) (keys : string → Prop) `{!KeySpace pid keys}.

Lemma within_not_below t k : within keys t → keys k → below_file t k = false.
Proof.
  intros [Hf _] Hk. unfold below_file. apply not_true_iff_false. rewrite existsb_exists.
  intros (d & Hd%list_elem_of_In & Hi). unfold is_file in Hi.
  destruct (files_of t !! d) eqn:E; [|done].
  apply (ks_free d k); [apply Hf; by eexists|done|done].
Qed.

Lemma within_not_dir t k : within keys t → keys k → is_dir t k = false.
Proof.
  intros [_ Hd] Hk. unfold is_dir. apply bool_decide_eq_false. intros (k' & Hk' & Hin)%Hd.
  by apply (ks_free k k').
Qed.

Lemma within_temp t k : within keys t → keys k →
  is_dir t (temp_name pid k) = false ∧ files_of t !! temp_name pid k = None.
Proof.
  intros [Hf Hd] Hk. split.
  - apply bool_decide_eq_false. intros (k' & Hk' & Hin)%Hd. by destruct (ks_temp k k' Hk Hk').
  - destruct (files_of t !! temp_name pid k) eqn:E; [|done].
    destruct (ks_temp k (temp_name pid k) Hk); [apply Hf; by eexists|done].
Qed.

Lemma tree_read_within t k : within keys t → keys k → tree_read t k = Ok (files_of t !! k).
Proof. intros Ht Hk. unfold tree_read. by rewrite within_not_below, within_not_dir. Qed.

Lemma tree_remove_within t k : within keys t → keys k →
  ∃ t', tree_remove t k = (Ok tt, t') ∧ files_of t' = base.delete k (files_of t) ∧ within keys t'.
Proof.
  intros Ht Hk. unfold tree_remove. rewrite within_not_below, within_not_dir by done.
  eexists. split_and!; [done..|]. destruct Ht as [Hf Hd]. split; cbn; [|done].
  intros k' [d Hl]. apply lookup_delete_Some in Hl as [_ Hl]. apply Hf. by eexists.
Qed.

Lemma tree_write_within tidy t k data : within keys t → keys k →
  ∃ t', tree_write pid tidy t k data = (Ok tt, t') ∧ files_of t' = <[k := data]> (files_of t) ∧
        within keys t'.
Proof.
  intros Ht Hk. unfold tree_write, create_dirs. rewrite within_not_below by done.
  set (t1 := {| files_of := files_of t; dirs_of := _ |}).
  assert (Ht1 : within keys t1).
  { destruct Ht as [Hf Hd]. split; cbn; [done|]. intros d [Hin|Hin]%elem_of_union; [|auto].
    apply elem_of_list_to_set in Hin. eauto. }
  destruct (within_temp t1 k Ht1 Hk) as [Htd Htf]. rewrite Htd, within_not_dir by done.
  rewrite delete_id by done. eexists. split_and!; [done..|].
  destruct Ht1 as [Hf Hd]. split; cbn; [|done].
  intros k' [d Hl]. apply lookup_insert_Some in Hl as [[<- _]|[_ Hl]]; [done|]. apply Hf. by eexists.
Qed.
End trees.

(** ** Backends that store *)

(** What the manager relies on: for the keys in use, a backend that works answers, holds
    what was put, forgets what was deleted, touches no other key, and finds equal bytes
    equivalent. *)
Class LawfulBackend (B : Type) `{StorageBackend B} (keys : string → Prop) (works : B → Prop) := {
  get_works : ∀ b k, works b → keys k → ∃ o, get b k = Ok o;
  put_works : ∀ b k v, works b → keys k →
    ∃ b', put b k v = (Ok tt, b') ∧ works b' ∧
          ∀ k', keys k' → get b' k' = if bool_decide (k' = k) then Ok (Some v) else get b k';
  delete_works : ∀ b k, works b → keys k →
    ∃ b', Storage.delete b k = (Ok tt, b') ∧ works b' ∧
          ∀ k', keys k' → get b' k' = if bool_decide (k' = k) then Ok None else get b k';
  equivalent_refl : ∀ b k v, equivalent b k v v = true;
}.

Global Instance MemoryStore_lawful pid keys `{!KeySpace pid keys} :
  LawfulBackend MemoryStore keys (λ _, True).
Proof.
  split; cbn; unfold memory_put, memory_delete.
  - eauto.
  - intros b k v _ Hk. rewrite (ks_storable k Hk). cbn. eexists. split_and!; [done..|].
    intros k' _. cbn. case_bool_decide as E; [subst; by rewrite lookup_insert_eq|].
    by rewrite lookup_insert_ne by done.
  - intros b k _ Hk. rewrite (ks_storable k Hk). cbn. eexists. split_and!; [done..|].
    intros k' _. cbn. case_bool_decide as E; [subst; by rewrite lookup_delete_eq|].
    by rewrite lookup_delete_ne by done.
  - intros. by apply bool_decide_eq_true_2.
Qed.

Definition local_works (keys : string → Prop) (b : LocalStore) : Prop :=
  broken b = None ∧ within keys (tree b).

Lemma local_get_works pid keys `{!KeySpace pid keys} b k :
  local_works keys b → keys k → local_get b k = Ok (files_of (tree b) !! k).
Proof.
  intros [Hb Ht] Hk. unfold local_get, on_files. rewrite (ks_storable k Hk). cbn.
  rewrite Hb. by apply (tree_read_within pid keys).
Qed.

Global Instance LocalStore_lawful pid keys `{!KeySpace pid keys} :
  LawfulBackend LocalStore (H := LocalStore_backend pid) keys (local_works keys).
Proof.
  split; cbn.
  - intros b k Hb Hk. rewrite (local_get_works pid keys) by done. eauto.
  - intros b k v Hw Hk. pose proof Hw as [Hb Ht]. unfold local_put, on_tree.
    rewrite (ks_storable k Hk), Hb.
    destruct (tree_write_within pid keys false (tree b) k v Ht Hk) as (t' & -> & Hf & Ht').
    eexists. split_and!; [done|by split|]. intros k' Hk'.
    rewrite !(local_get_works pid keys) by done. cbn. rewrite Hf.
    case_bool_decide as E; [subst; by rewrite lookup_insert_eq|]. by rewrite lookup_insert_ne by done.
  - intros b k Hw Hk. pose proof Hw as [Hb Ht]. unfold local_delete, on_tree.
    rewrite (ks_storable k Hk), Hb.
    destruct (tree_remove_within pid keys (tree b) k Ht Hk) as (t' & -> & Hf & Ht').
    eexists. split_and!; [done|by split|]. intros k' Hk'.
    rewrite !(local_get_works pid keys) by done. cbn. rewrite Hf.
    case_bool_decide as E; [subst; by rewrite lookup_delete_eq|]. by rewrite lookup_delete_ne by done.
  - intros. by apply bool_decide_eq_true_2.
Qed.

Section manager.
Context (pid : string) (keys : string → Prop) `{!KeySpace pid keys}.
Context {B : Type} `{StorageBackend B} {works : B → Prop} `{!LawfulBackend B keys works}.

(** ** The manager as a map *)

Inductive StoreOp := OpGet (key : string) | OpPut (key : string) (data : string) | OpDelete (key : string).
Inductive Outcome := Read (r : result StoreError (option string)) | Done (r : result StoreError unit).

Definition op_key (op : StoreOp) : string :=
  match op with OpGet k | OpPut k _ | OpDelete k => k end.

(** A step of the manager while its file system works. *)
Definition step (m : StorageManager) (op : StoreOp) : Outcome * StorageManager :=
  match op with
  | OpGet key => let '(r, m) := manager_get pid None m key in (Read r, m)
  | OpPut key data => let '(r, m) := manager_put pid true None None m key data in (Done r, m)
  | OpDelete key => let '(r, m) := manager_delete None None m key in (Done r, m)
  end.

(** The specification: one map. *)
Definition spec_step (a : gmap string string) (op : StoreOp) : Outcome * gmap string string :=
  match op, normalize_key (op_key op) with
  | OpGet _, Err e => (Read (Err e), a)
  | OpGet _, Ok k => (Read (Ok (a !! k)), a)
  | _, Err e => (Done (Err e), a)
  | OpPut _ data, Ok k => (Done (Ok tt), <[k := data]> a)
  | OpDelete _, Ok k => (Done (Ok tt), base.delete k a)
  end.

Fixpoint outcomes {S} (f : S → StoreOp → Outcome * S) (s : S) (ops : list StoreOp) : list Outcome :=
  match ops with
  | [] => []
  | op :: ops => let '(o, s) := f s op in o :: outcomes f s ops
  end.

(** The backend holds the map, the spool part of it, and nothing but keys in use was ever
    written. *)
Record holds (m : StorageManager) (a : gmap string string) : Prop := {
  o_works : works (backend m);
  o_get : ∀ k, keys k → get (backend m) k = Ok (a !! k);
  o_spool : files_of (spool m) ⊆ a;
  o_within : within keys (spool m);
  o_pending : within keys (pending m);
}.

Lemma no_conflict m a k : holds m a → keys k → spool_conflict true m k = Ok tt.
Proof.
  intros [Hw Hg Hs _ _] Hk. unfold spool_conflict. destruct (files_of (spool m) !! k) as [local|] eqn:El; [|done].
  cbn [negb]. rewrite (Hg k Hk). pose proof (lookup_weaken _ _ _ _ El Hs) as ->.
  by rewrite equivalent_refl.
Qed.

Lemma get_refines m a k : holds m a → keys k →
  ∃ m', manager_get pid None m k = (Ok (a !! k), m') ∧ holds m' a.
Proof.
  intros Hm Hk. pose proof Hm as [Hw Hg Hsp Hin Hpe]. unfold manager_get, write_spool.
  rewrite (ks_storable k Hk), (Hg k Hk). destruct (a !! k) as [d|] eqn:Ha.
  - destruct (tree_write_within pid keys true (spool m) k d Hin Hk) as (t' & -> & Hf & Ht').
    eexists. split; [done|]. split; cbn; try done. rewrite Hf. by apply insert_subseteq_l.
  - rewrite (tree_read_within pid keys) by done. eexists. split; [|exact Hm].
    destruct (files_of (spool m) !! k) as [d|] eqn:Es; [|done].
    pose proof (lookup_weaken _ _ _ _ Es Hsp). congruence.
Qed.

Lemma put_refines m a k data : holds m a → keys k →
  ∃ m', manager_put pid true None None m k data = (Ok tt, m') ∧ holds m' (<[k := data]> a).
Proof.
  intros Hm Hk. pose proof Hm as [Hw Hg Hsp Hin Hpe]. unfold manager_put, write_spool, clear_pending.
  rewrite (ks_storable k Hk), (no_conflict m a k Hm Hk).
  destruct (put_works (backend m) k data Hw Hk) as (b' & -> & Hw' & Hget). cbn [spool with_backend].
  destruct (tree_write_within pid keys true (spool m) k data Hin Hk) as (t' & -> & Hf & Ht').
  cbn [pending with_spool with_backend].
  destruct (tree_remove_within pid keys (pending m) k Hpe Hk) as (p' & -> & _ & Hp').
  eexists. split; [done|]. split; cbn; try done.
  - intros k' Hk'. rewrite (Hget k' Hk'). case_bool_decide as E; [subst; by rewrite lookup_insert_eq|].
    rewrite lookup_insert_ne by done. by apply Hg.
  - rewrite Hf. by apply insert_mono.
Qed.

Lemma delete_refines m a k : holds m a → keys k →
  ∃ m', manager_delete None None m k = (Ok tt, m') ∧ holds m' (base.delete k a).
Proof.
  intros Hm Hk. pose proof Hm as [Hw Hg Hsp Hin Hpe]. unfold manager_delete, clear_pending.
  rewrite (ks_storable k Hk). destruct (delete_works (backend m) k Hw Hk) as (b' & -> & Hw' & Hget).
  cbn [pending with_backend].
  destruct (tree_remove_within pid keys (pending m) k Hpe Hk) as (p' & -> & _ & Hp').
  cbn [spool with_pending with_backend].
  destruct (tree_remove_within pid keys (spool m) k Hin Hk) as (t' & -> & Hf & Ht').
  eexists. split; [done|]. split; cbn; try done.
  - intros k' Hk'. rewrite (Hget k' Hk'). case_bool_decide as E; [subst; by rewrite lookup_delete_eq|].
    rewrite lookup_delete_ne by done. by apply Hg.
  - rewrite Hf. by apply delete_mono.
Qed.

(** Only the normalised key matters. *)
Lemma step_normal m key k op op' : normalize_key key = Ok k → normalize_key k = Ok k →
  (op, op') ∈ [(OpGet key, OpGet k); (OpDelete key, OpDelete k)] ∨
  (∃ data, op = OpPut key data ∧ op' = OpPut k data) →
  step m op = step m op' ∧ ∀ a, spec_step a op = spec_step a op'.
Proof.
  intros H1 H2 [Hop|(data & -> & ->)].
  - rewrite !elem_of_cons, elem_of_nil in Hop. destruct Hop as [[= -> ->]|[[= -> ->]|[]]]; cbn;
      unfold manager_get, manager_delete; by rewrite H1, H2.
  - cbn. unfold manager_put. by rewrite H1, H2.
Qed.

Lemma step_refines m a op :
  holds m a → (∀ k, normalize_key (op_key op) = Ok k → keys k) →
  (step m op).1 = (spec_step a op).1 ∧ holds (step m op).2 (spec_step a op).2.
Proof.
  intros Hm Hb. destruct (normalize_key (op_key op)) as [k|e] eqn:Hk.
  2: { destruct op; cbn in *; unfold manager_get, manager_put, manager_delete; by rewrite Hk. }
  specialize (Hb k eq_refl). pose proof (ks_storable k Hb) as Hst.
  destruct op as [key|key data|key]; cbn [op_key] in Hk.
  - destruct (step_normal m key k (OpGet key) (OpGet k)) as [-> ->]; [done..|left; set_solver|].
    destruct (get_refines m a k Hm Hb) as (m' & E & Hm'). cbn. rewrite E.
    unfold storable in Hst. by rewrite Hst.
  - destruct (step_normal m key k (OpPut key data) (OpPut k data)) as [-> ->]; [done..|eauto|].
    destruct (put_refines m a k data Hm Hb) as (m' & E & Hm'). cbn. rewrite E.
    unfold storable in Hst. by rewrite Hst.
  - destruct (step_normal m key k (OpDelete key) (OpDelete k)) as [-> ->]; [done..|left; set_solver|].
    destruct (delete_refines m a k Hm Hb) as (m' & E & Hm'). cbn. rewrite E.
    unfold storable in Hst. by rewrite Hst.
Qed.

(** C33: Storage is a map.  Take a set of keys in use that do not get in each other's way on
    disk: normal and not blank, none a directory of another, none the temporary file of
    another or below it ([KeySpace]); a backend that works for them ([LawfulBackend], proved
    of the memory and the local backend); and a manager whose spool holds part of what the
    backend holds and, like its recovery data, nothing but keys in use ([holds], so also a
    fresh one).  Then, while no file operation fails for another reason, every sequence of
    reads, writes and deletes of these keys, however they are spelled, gives the results it
    would give on one map from normalised keys to bytes: reads return the last write, deleted
    keys are gone, and no write is refused as a conflict.  (Keys that are a path and a prefix
    of it do collide: [prefix_keys_collide].) *)
Theorem manager_refines_map m a ops :
  holds m a →
  Forall (λ op, ∀ k, normalize_key (op_key op) = Ok k → keys k) ops →
  outcomes step m ops = outcomes spec_step a ops.
Proof.
  intros Hm Hops. revert m a Hm. induction Hops as [|op ops Hop Hops IH]; intros m a Hm; [done|].
  cbn. destruct (step_refines m a op Hm Hop) as [E Hm'].
  destruct (step m op) as [o m'], (spec_step a op) as [o' a']. cbn in *. subst. f_equal. by apply IH.
Qed.

End manager.

(** ** Any backend *)

Section any.
Context (pid : string) {B : Type} `{StorageBackend B}.

(** A diverged copy is not overwritten.  If the backend holds other bytes than the
    spool remembers, a write is refused as a conflict and changes nothing. *)
Theorem diverged_not_overwritten (m : StorageManager) key k data fs_spool fs_pending local remote :
  normalize_key key = Ok k → files_of (spool m) !! k = Some local →
  get (backend m) k = Ok (Some remote) → equivalent (backend m) k remote local = false →
  ∃ text, manager_put pid true fs_spool fs_pending m key data = (Err (Conflict text), m).
Proof.
  intros Hk Hs Hg He. unfold manager_put, spool_conflict. rewrite Hk, Hs. cbn [negb].
  rewrite Hg, He. cbn [negb]. by eexists.
Qed.

(** A failed write is not read back.  When the backend refuses a write and keeps what it
    had, the bytes are kept as recovery data if their file can be written, and either way
    every later read answers as if the write had not been tried. *)
Theorem failed_write_invisible (m : StorageManager) key k data err fs_spool fs_pending key' fs :
  normalize_key key = Ok k → put (backend m) k data = (Err err, backend m) →
  spool_conflict true m k = Ok tt →
  let '(r, m') := manager_put pid true fs_spool fs_pending m key data in
  (∃ e, r = Err e) ∧
  (∀ t, storable k → fs_pending = None → tree_write pid false (pending m) k data = (Ok tt, t) →
     r = Err err ∧ files_of (pending m') !! k = Some data) ∧
  (manager_get pid fs m' key').1 = (manager_get pid fs m key').1.
Proof.
  intros Hk Hp Hc. unfold manager_put. rewrite Hk, Hc, Hp.
  destruct (local_put pid _ k data) as [r kept] eqn:El.
  assert (Hget : ∀ t, (manager_get pid fs (with_pending (with_backend m (backend m)) t) key').1 =
                      (manager_get pid fs m key').1).
  { intros t. unfold manager_get. destruct (normalize_key key') as [k'|]; [|done]. cbn.
    destruct (get (backend m) k') as [[d|]|]; [|done..]. unfold write_spool. destruct fs; [done|]. cbn.
    by destruct (tree_write _ _ _ _ _) as [[] ?]. }
  assert (Hkept : ∀ t, storable k → fs_pending = None →
    tree_write pid false (pending m) k data = (Ok tt, t) → r = Ok tt ∧ files_of (tree kept) !! k = Some data).
  { intros t Hst -> Ht. unfold local_put, on_tree in El. rewrite Hst in El. cbn in El. rewrite Ht in El.
    injection El as <- <-. split; [done|]. unfold tree_write in Ht. cbn. repeat case_match; try done.
    injection Ht as <-. cbn. by rewrite lookup_insert_eq. }
  destruct r as [[]|e]; (split_and!; [by eexists| |apply Hget]); intros t H1 H2 H3;
    destruct (Hkept t H1 H2 H3); done.
Qed.

Lemma try_map_Ok {A C} (f : A → result StoreError C) l cs :
  try_map f l = Ok cs → Forall2 (λ a c, f a = Ok c) l cs.
Proof.
  revert cs. induction l as [|a l IH]; intros cs; cbn.
  - intros [= <-]. constructor.
  - intros (c & Hc & E)%rbind_Ok. apply rbind_Ok in E as (cs' & Hcs & [= <-]). constructor; auto.
Qed.

Lemma fetch_record_Ok (m : StorageManager) k kd :
  storable k → fetch_record m k = Ok kd → kd.1 = k ∧ get (backend m) k = Ok (Some kd.2).
Proof.
  unfold storable, fetch_record. intros Hk E. rewrite Hk in E. cbn in E.
  apply rbind_Ok in E as (o & Ho & E). destruct o as [d|]; [|done]. cbn in E.
  destruct (files_of (spool m) !! k); [case_match; [done|]|]; by injection E as <-.
Qed.

Lemma write_records_within (keys : string → Prop) `{!KeySpace pid keys} records :
  ∀ m : StorageManager (B := B), within keys (spool m) → Forall keys records.*1 → NoDup records.*1 →
  ∃ m' : StorageManager (B := B), write_records pid m records = (Ok tt, m') ∧ backend m' = backend m ∧ pending m' = pending m ∧
    ∀ k, files_of (spool m') !! k =
         match (list_to_map records : gmap string string) !! k with
         | Some d => Some d
         | None => files_of (spool m) !! k
         end.
Proof.
  induction records as [|[k0 d0] records IH]; intros m Hm Hk Hnd; [by eexists|].
  cbn in Hk, Hnd. apply list.Forall_cons in Hk as [Hk0 Hk]. apply NoDup_cons in Hnd as [Hn Hnd]. cbn [write_records].
  unfold write_spool. destruct (tree_write_within pid keys true (spool m) k0 d0 Hm Hk0) as (t' & -> & Hf & Ht').
  destruct (IH (with_spool m t') Ht' Hk Hnd) as (m' & -> & Hb & Hp & Hl).
  exists m'. split_and!; try done. intros k. rewrite Hl. cbn. rewrite Hf.
  destruct (decide (k = k0)) as [->|Hne].
  - rewrite !lookup_insert_eq. apply not_elem_of_list_to_map_1 in Hn. cbn in Hn. by rewrite Hn.
  - by rewrite !lookup_insert_ne by done.
Qed.

(** Synchronising is all or nothing, and exact, for keys in use that do not get in each
    other's way.  If it fails nothing was changed; if it succeeds, the spool holds exactly
    the keys the backend lists, each with the backend's bytes. *)
Theorem sync_exact (inuse : string → Prop) `{!KeySpace pid inuse} (m m' : StorageManager) r keys :
  within inuse (spool m) → list_keys (backend m) "" = Ok keys → Forall inuse keys → NoDup keys →
  sync_all_to_spool pid m = (r, m') →
  match r with
  | Err _ => m' = m
  | Ok _ => backend m' = backend m ∧ pending m' = pending m ∧
      ∀ k, (k ∈ keys → ∃ d, get (backend m) k = Ok (Some d) ∧ files_of (spool m') !! k = Some d) ∧
           ((k ∉ keys) → files_of (spool m') !! k = None)
  end.
Proof.
  intros Hm Hl Hin Hnd. unfold sync_all_to_spool, manager_list.
  change (normalize_prefix "") with (Ok "" : result StoreError string). cbn [mbind result_bind].
  rewrite Hl. cbn. destruct (try_map (fetch_record m) keys) as [records|] eqn:Hr; [|intros [= <- <-]; done].
  cbn. apply try_map_Ok in Hr.
  assert (Hrec : Forall2 (λ k kd, kd.1 = k ∧ get (backend m) k = Ok (Some kd.2)) keys records).
  { clear Hl Hnd. revert Hin. induction Hr as [|k kd ks records Hf Hr IH]; intros Hst; [constructor|].
    apply list.Forall_cons in Hst as [Hk Hst]. constructor; [|auto].
    apply fetch_record_Ok; [by apply (ks_storable k)|done]. }
  assert (Hkeys : records.*1 = keys).
  { clear - Hrec. induction Hrec as [|k kd ks records [<- _] _ IH]; [done|]. cbn. by rewrite IH. }
  rewrite <- Hkeys in Hnd, Hin.
  destruct (write_records_within inuse records m Hm Hin Hnd) as (m1 & -> & Hb & Hp & Hlk).
  intros [= <- <-]. cbn. split_and!; [done..|]. intros k. split.
  - intros Hk. rewrite <- Hkeys in Hk. apply list_elem_of_fmap in Hk as ([k' d] & -> & Hel).
    exists d. cbn. apply list_elem_of_lookup in Hel as [i Hi].
    destruct (Forall2_lookup_r _ _ _ _ _ Hrec Hi) as (k0 & Hk0 & Hfst & Hget). cbn in *. subst k0.
    split; [done|]. apply map_lookup_filter_Some. split; [|by eapply list_elem_of_lookup_2].
    rewrite Hlk.
    rewrite (elem_of_list_to_map_1 records k' d); [done|done|by eapply list_elem_of_lookup_2].
  - intros Hk. apply map_lookup_filter_None. right. intros d _. cbn. exact Hk.
Qed.
End any.

(** ** An instance *)

Definition KEYS : list string := ["auths/a.json"; "auths/b.json"; "config/config.yaml"].
Definition in_use (k : string) : Prop := k ∈ KEYS.

(** A condition on pairs of the keys, by evaluation. *)
Lemma all_pairs (p : string → string → bool) :
  forallb (λ k, forallb (p k) KEYS) KEYS = true →
  ∀ k k', in_use k → in_use k' → p k k' = true.
Proof.
  rewrite forallb_forall. intros Hp k k' Hk Hk'. unfold in_use in *.
  apply list_elem_of_In, Hp in Hk. rewrite forallb_forall in Hk. by apply Hk, list_elem_of_In.
Qed.

Definition apart (pid k k' : string) : bool :=
  match normalize_key k with Ok n => bool_decide (n = k) | Err _ => false end
  && bool_decide (k ∉ ancestors k')
  && bool_decide (temp_name pid k ≠ k' ∧ (temp_name pid k ∉ ancestors k')).

Global Instance KEYS_space : KeySpace "4711" in_use.
Proof.
  assert (H : ∀ k k', in_use k → in_use k' → apart "4711" k k' = true)
    by (apply all_pairs; vm_compute; reflexivity).
  split.
  - intros k Hk. specialize (H k k Hk Hk). unfold apart in H. unfold storable.
    destruct (normalize_key k) as [n|]; [|done].
    apply andb_true_iff in H as [[H _]%andb_true_iff _]. by apply bool_decide_eq_true in H as ->.
  - intros k k' Hk Hk'. specialize (H k k' Hk Hk').
    apply andb_true_iff in H as [[_ H]%andb_true_iff _]. by apply bool_decide_eq_true in H.
  - intros k k' Hk Hk'. specialize (H k k' Hk Hk').
    apply andb_true_iff in H as [_ H]. by apply bool_decide_eq_true in H.
Qed.

Definition fresh_manager : StorageManager (B := MemoryStore) :=
  {| backend := {| records := ∅ |}; spool := empty_tree; pending := empty_tree |}.

Lemma empty_within keys : within keys empty_tree.
Proof. split; cbn; [intros k [? Hk]; by rewrite lookup_empty in Hk|intros d Hd; set_solver]. Qed.

Lemma fresh_holds : holds in_use (works := λ _, True) fresh_manager ∅.
Proof. split; cbn; [done| |done|apply empty_within..]. intros k _. by rewrite lookup_empty. Qed.

Lemma manager_refines_map_witness :
  outcomes (step "4711") fresh_manager
    [OpPut "auths/a.json" "x"; OpGet "auths//a.json"; OpDelete "auths/a.json"; OpGet "auths/a.json"] =
  [Done (Ok tt); Read (Ok (Some "x")); Done (Ok tt); Read (Ok None)].
Proof.
  rewrite (manager_refines_map "4711" in_use (works := λ _, True) fresh_manager ∅).
  - vm_compute. reflexivity.
  - apply fresh_holds.
  - repeat (apply list.Forall_cons; split;
      [intros k Hk; vm_compute in Hk; injection Hk as <-; unfold in_use;
       apply (bool_decide_unpack _); vm_compute; exact I|]).
    apply list.Forall_nil_2.
Defined.

(** A key and one below it collide in the spool: once [a] is a file there, reading [a/b] is
    an error, and writing it fails after the backend has taken the bytes. *)
Theorem prefix_keys_collide :
  outcomes (step "4711") fresh_manager [OpPut "a" "x"; OpGet "a/b"; OpPut "a/b" "y"; OpGet "a/b"] =
    [Done (Ok tt); Read (Err NotADirectory); Done (Err FileExists); Read (Err FileExists)] ∧
  records (backend (manager_put "4711" true None None
             (manager_put "4711" true None None fresh_manager "a" "x").2 "a/b" "y").2) !! "a/b" = Some "y".
Proof. vm_compute. split; reflexivity. Qed.

Lemma normalize_key_witness :
  normalize_key "config//./config.yaml" = Ok "config/config.yaml" ∧
  normalize_key "config/config.yaml" = Ok "config/config.yaml".
Proof.
  split; [vm_compute; reflexivity|].
  apply (normalize_key_safe "config//./config.yaml"); vm_compute; reflexivity.
Defined.
