(* ===== verification/RelayCooldown.v ===== *)
(** * Cooldowns and exhaustion (crates/gateway/src/relay.rs, lines 2219-3010)

    What a failed answer does to the account that gave it: the deadline it is benched
    until, the scope of the bench (quota group, model or account) and its recorded
    cause, and the 503 a client gets when the whole pool is benched.

    [from_slice] and [to_string] are serde_json's parser and printer, [env] the
    environment.  Header names are lower case; a value is what [HeaderValue::to_str]
    makes of it. *)

From Stdlib Require Import Ascii.
From stdpp Require Import gmap strings list.
From S2P Require Import Prelude RustStr F64 RegistrySnapshot Types Usage ClineUsage Account AccountModels Json.
Import RustStr F64 Usage Account Models.
Open Scope Z_scope.
Open Scope rust_scope.

Module Cooldown.

Definition MAX_COOLDOWN_SECS : Z := 86400.
Definition CLINE_CREDIT_BACKOFF_SECS : Z := 300.
Definition PLAN_QUOTA_BIZ_CODE : Z := 1005.

Definition clamp (z lo hi : Z) : Z := Z.max lo (Z.min hi z).
Definition saturating_mul_i64 (a b : Z) : Z := clamp_i64 (a * b).

Definition cooldown_deadline_ms (now_ms retry_after_secs : Z) : Z :=
  let bounded := clamp retry_after_secs 0 MAX_COOLDOWN_SECS in
  now_ms +| saturating_mul_i64 bounded 1000.

(** ** Headers *)

Abbreviation HeaderMap := (list (string * option string)).

Definition header (h : HeaderMap) (name : string) : option string :=
  match List.find (λ kv : string * option string, eqs kv.1 name) h with
  | Some (_, value) => value
  | None => None
  end.

(** The delay one reset header asks for. *)
Definition reset_delay (now_unix : Z) (kv : string * option string) : option Z :=
  let lower := to_ascii_lowercase kv.1 in
  if negb (ends_with lower "-reset-at" || ends_with lower "-reset-after-seconds") then None
  else
    secs ← kv.2 ≫= (λ v, parse_i64 (trim v));
    let delay := if ends_with lower "-reset-after-seconds" then secs else secs -| now_unix in
    if 0 <? delay then Some delay else None.

Definition retry_after_secs (h : HeaderMap) (now_unix : Z) : Z :=
  match header h "retry-after" ≫= (λ v, parse_i64 (trim v)) with
  | Some secs => secs
  | None => default 300 (min_by Z.ltb (omap (reset_delay now_unix) h))
  end.

Definition cooldown_deadline_from_headers (h : HeaderMap) (now_ms : Z) : Z :=
  cooldown_deadline_ms now_ms (retry_after_secs h (Z.quot now_ms 1000)).

Definition header_lower (h : HeaderMap) (name : string) : option string :=
  (λ v, to_ascii_lowercase (trim v)) <$> header h name.

Definition window_allows (h : HeaderMap) (name : string) : bool :=
  match header_lower h name with
  | Some v => eqs v "allowed" || eqs v "allowed_warning"
  | None => false
  end.

Definition claude_model_scoped_rejection (h : HeaderMap) : bool :=
  bool_decide (header_lower h "anthropic-ratelimit-unified-status" = Some "rejected")
  && match header_lower h "anthropic-ratelimit-unified-representative-claim" with
     | Some claim => one_of claim ["overage"; "model"]
     | None => false
     end
  && window_allows h "anthropic-ratelimit-unified-5h-status"
  && window_allows h "anthropic-ratelimit-unified-7d-status".

(** ** Failure bodies *)

(** [find(p)] and the text before and after the match. *)
Fixpoint find_str (p s : string) : option (string * string) :=
  match strip_prefix p s with
  | Some after => Some ("", after)
  | None =>
      match s with
      | EmptyString => None
      | String c s' => (λ lr : string * string, (String c lr.1, lr.2)) <$> find_str p s'
      end
  end.

(** [split_whitespace]: [word] is the part read so far. *)
Fixpoint words (word : string) (cs : list string) : list string :=
  let flush rest := if is_empty word then rest else word :: rest in
  match cs with
  | [] => flush []
  | c :: cs => if is_whitespace c then flush (words "" cs) else words (word +:+ c) cs
  end.
Definition split_whitespace (s : string) : list string := words "" (split_chars s).

(** One word of the duration: hours, minutes or noise. *)
Definition duration_part (acc : Z * Z) (part : string) : Z * Z :=
  match strip_suffix "h" part with
  | Some h => match parse_i64 h with Some v => (clamp v 0 8760, acc.2) | None => acc end
  | None =>
      match strip_suffix "m" part with
      | Some m => match parse_i64 m with Some v => (acc.1, clamp v 0 525600) | None => acc end
      | None => acc
      end
  end.

Definition duration_secs (time_str : string) : Z :=
  let '(hours, mins) := foldl duration_part (0, 0) (split_whitespace time_str) in
  clamp (saturating_mul_i64 hours 3600 +| saturating_mul_i64 mins 60) 0 MAX_COOLDOWN_SECS.

(** The model and the delay a cap message names. *)
Definition cap_message (message : string) : option (string * Z) :=
  '(_, remainder) ← find_str "Daily free limit reached on model " message;
  '(name, rest) ← find_str ". Try again in " remainder;
  let model := trim name in
  if is_empty model then None
  else
    let total_secs := duration_secs (trim rest) in
    Some (model, if 0 <? total_secs then total_secs else 300).

Definition as_i64 (v : Json.Value) : option Z :=
  match v with
  | Json.VNumber (Json.PosInt n) => if n <=? i64_max then Some n else None
  | Json.VNumber (Json.NegInt n) => Some n
  | _ => None
  end.

Section bodies.
Context (from_slice : string → option Json.Value).

Definition parse_cline_cap_error (body : string) : option (string * Z) :=
  value ← from_slice body;
  error ← Json.get "error" value;
  message ← Json.get "message" error ≫= Json.as_str;
  cap_message message.

Definition cline_402_fallback (body requested_model : string) : string * Z :=
  default (requested_model, CLINE_CREDIT_BACKOFF_SECS) (parse_cline_cap_error body).

Definition is_code (code : string) : bool := eqs code "insufficient_credits".

Definition failure_is_insufficient_credits (body : string) : bool :=
  match from_slice body with
  | Some parsed =>
      match Json.get "code" parsed ≫= Json.as_str with
      | Some code => is_code code
      | None =>
          match (Json.get "error" parsed ≫= Json.get "code") ≫= Json.as_str with
          | Some code => is_code code
          | None => false
          end
      end
  | None => false
  end.

Definition failure_is_limit_exhaustion (body : string) : bool :=
  is_some (parse_cline_cap_error body) || failure_is_insufficient_credits body
  || match ((from_slice body ≫= Json.get "error") ≫= Json.get "code") ≫= as_i64 with
     | Some code => code =? PLAN_QUOTA_BIZ_CODE
     | None => false
     end.
End bodies.

(** ** Cline deadlines *)

Definition resolve_cline_deadline (tracker : option Cline.ClineDailyTracker)
    (now_secs reported_secs : Z) : Z :=
  let candidate := now_secs +| reported_secs in
  if reported_secs <? MAX_COOLDOWN_SECS then candidate
  else
    let known := match tracker with Some t => Cline.estimated_reset_unix t | None => 0 end in
    if now_secs <? known then known else candidate.

Definition canonical_cline_quota_model (model : string) : string :=
  "cline-free/" +:+ Cline.cline_quota_slug model.

(** *** The display bucket *)

(** [retain]: other ids of the same lane are dropped. *)
Definition same_lane_duplicate (canonical : string) (b : QuotaBucket) : bool :=
  match bucket_id b with
  | Some i => negb (eqs i canonical) && eqs (canonical_cline_quota_model i) canonical
  | None => false
  end.

Definition put_bucket (canonical : string) (used : f64) (reset : Z) (bs : list QuotaBucket)
  : list QuotaBucket :=
  let label := Some (canonical +:+ " (Daily limit)") in
  let bs := filter (λ b, same_lane_duplicate canonical b = false) bs in
  match update_first (λ b, bool_decide (bucket_id b = Some canonical))
          (λ b, {| bucket_id := bucket_id b; bucket_display_name := label;
                   bucket_window := bucket_window b; bucket_used_percent := Some used;
                   bucket_reset_at := Some reset |}) bs with
  | Some bs' => bs'
  | None => bs ++ [{| bucket_id := Some canonical; bucket_display_name := label;
                      bucket_window := Some "Daily"; bucket_used_percent := Some used;
                      bucket_reset_at := Some reset |}]
  end.

Definition with_buckets (f : list QuotaBucket → list QuotaBucket) (g : QuotaGroup) : QuotaGroup :=
  {| group_display_name := group_display_name g; group_models := group_models g;
     buckets := f (buckets g) |}.

Definition with_observed (u : AccountUsage) (gs : list QuotaGroup) (now : Z) : AccountUsage :=
  {| plan_type := plan_type u; active_limit := active_limit u; primary := primary u;
     secondary := secondary u; groups := gs; credits_balance := credits_balance u;
     credits_unlimited := credits_unlimited u; has_credits := has_credits u;
     overage_limit_reached := overage_limit_reached u;
     reset_credits_available := reset_credits_available u; reset_credits := reset_credits u;
     observed_at_unix := Some now; totals := totals u; windows := windows u;
     refreshed_at_unix := refreshed_at_unix u; last_refresh_error := last_refresh_error u;
     refresh_status := refresh_status u; model_availability := model_availability u |}.

Definition record_cline_quota_bucket (m : AccountMember) (model : string)
    (reset_seconds now_unix : Z) (used : f64) : AccountMember :=
  let canonical := canonical_cline_quota_model model in
  let u := usage_snapshot_at m now_unix in
  let put := put_bucket canonical used (now_unix + reset_seconds) in
  let gs :=
    match update_first (λ g, bool_decide (group_display_name g = Some CLINE_LIMITS))
            (with_buckets put) (groups u) with
    | Some gs => gs
    | None => groups u ++ [{| group_display_name := Some CLINE_LIMITS;
                              group_models := Some "Cline Free Models"; buckets := put [] |}]
    end in
  set_usage m (with_observed u gs now_unix).

(** ** Benching *)

Definition bench_exhausted_quota (m : AccountMember) (model : option string)
    (until_unix_ms : Z) (k : BenchKind) : AccountMember :=
  let account_wide := set_account_bench_kind (set_health m (Cooldown until_unix_ms)) k in
  match model with
  | Some model =>
      match set_group_cooldown m model until_unix_ms with
      | (true, m') => (set_group_bench_kind m' model k).2
      | (false, _) => account_wide
      end
  | None => account_wide
  end.

Definition bench_cline_cap (m : AccountMember) (cap_model : string)
    (requested_model : option string) (until_unix_ms : Z) : AccountMember :=
  let m := bench_exhausted_quota m (Some cap_model) until_unix_ms QuotaExhausted in
  match requested_model with
  | Some requested =>
      if eqs requested cap_model then m
      else bench_exhausted_quota m (Some requested) until_unix_ms QuotaExhausted
  | None => m
  end.

Definition label_credit_bench (m : AccountMember) (cap_model : string)
    (requested_model : option string) (until_unix_ms : Z) : AccountMember :=
  let m := set_group_credit_bench m cap_model until_unix_ms in
  let m := match set_group_bench_kind m cap_model OutOfCredit with
           | (true, m') => m'
           | (false, m') => set_account_bench_kind m' OutOfCredit
           end in
  match requested_model with
  | Some requested =>
      if eqs requested cap_model then m else set_group_credit_bench m requested until_unix_ms
  | None => m
  end.

(** What [persist_cline_cap_event] stores. *)
Record ClineCapEvent := {
  cap_account : string;
  cap_model : string;
  cap_at_ms : Z;
  cap_reset_at : Z;
  credit_driven : bool;
}.

Section record_cooldown.
Context (from_slice : string → option Json.Value) (env : string → option string).

Definition bench_kind_of (body : string) : BenchKind :=
  if failure_is_insufficient_credits from_slice body then OutOfCredit
  else if failure_is_limit_exhaustion from_slice body then QuotaExhausted
  else BenchRateLimited.

(** The tracker of [cap_model] told of the cap, and the display bucket with it. *)
Definition note_cap (m : AccountMember) (cap_model : string) (reset_at now_secs : Z)
  : AccountMember :=
  let m := with_trackers m (Cline.for_model env (cline_trackers m) cap_model).2 in
  let m := record_cline_quota_bucket m cap_model (reset_at - now_secs) now_secs (f64_of_Z 100) in
  with_trackers m (Cline.update_model env (cline_trackers m) cap_model
                     (λ t, Cline.on_cap_429_at t reset_at now_secs)).

Definition cap_deadline (m : AccountMember) (cap_model : string) (now_secs reset_secs : Z) : Z :=
  resolve_cline_deadline (Some (Cline.tracker_of env (cline_trackers m) cap_model))
    now_secs reset_secs.

(** [record_cooldown] on the account: the counters and the monitor are the caller's.
    [body] is the body [extract_failure] read; [now] is the monotonic instant. *)
Definition record_cooldown (m : AccountMember) (h : HeaderMap) (body : string)
    (model : option string) (now_ms now : Z) : AccountMember * option ClineCapEvent :=
  let header_until := cooldown_deadline_from_headers h now_ms in
  let scoped := bool_decide (kind m = KClaude) && claude_model_scoped_rejection h in
  match (if scoped then model else None) with
  | Some model => (record_fail (set_model_cooldown m model header_until) now, None)
  | None =>
      let now_secs := Z.quot now_ms 1000 in
      let cap := if eqs (provider_name m) "cline" then parse_cline_cap_error from_slice body
                 else None in
      let '(m, event, effective_model, until_unix_ms) :=
        match cap with
        | Some (capm, reset_secs) =>
            let reset_at := cap_deadline m capm now_secs reset_secs in
            (note_cap m capm reset_at now_secs,
             Some {| cap_account := member_id m; cap_model := capm; cap_at_ms := now_ms;
                     cap_reset_at := reset_at; credit_driven := false |},
             Some capm, saturating_mul_i64 reset_at 1000)
        | None => (m, None, model, header_until)
        end in
      let m :=
        match effective_model with
        | Some capm =>
            if eqs (provider_name m) "cline" && negb (bool_decide (Some capm = model))
            then bench_cline_cap m capm model until_unix_ms
            else bench_exhausted_quota m (Some capm) until_unix_ms (bench_kind_of body)
        | None => bench_exhausted_quota m model until_unix_ms (bench_kind_of body)
        end in
      (record_fail m now, event)
  end.

(** The 402 branch of the relay loop for a Cline account out of credits. *)
Definition record_credit_402 (m : AccountMember) (body model : string) (now_ms : Z)
  : AccountMember * ClineCapEvent :=
  let now_unix := Z.quot now_ms 1000 in
  let '(capm, reset_secs) := cline_402_fallback from_slice body model in
  let reset_at := cap_deadline m capm now_unix reset_secs in
  let event := {| cap_account := member_id m; cap_model := capm; cap_at_ms := now_ms;
                  cap_reset_at := reset_at; credit_driven := true |} in
  let m := note_cap m capm reset_at now_unix in
  let m := bench_cline_cap m capm (Some model) (reset_at * 1000) in
  (label_credit_bench m capm (Some model) (reset_at * 1000), event).
End record_cooldown.

(** ** Exhaustion of the pool *)

Definition format_reset_eta (total_secs : Z) : string :=
  let hours := total_secs / 3600 in
  let mins := (total_secs mod 3600) / 60 in
  if 0 <? hours then show_u64 hours +:+ "h " +:+ show_u64 mins +:+ "m"
  else show_u64 mins +:+ "m".

Inductive PoolBenchCause := CauseQuotaExhausted | CauseRateLimited | CauseOutOfCredit | Mixed.

Section exhaustion.
Context (url_host : string → option string) (embedded : Snapshot.RegistrySnapshot).

Definition member_may_serve_model (m : AccountMember) (model : string) : bool :=
  is_some (quota_group_for m model) || supports_model url_host embedded m model.

(** The accounts consulted: all of them when the request names no model. *)
Definition may_serve (model : option string) (m : AccountMember) : bool :=
  match model with Some model => member_may_serve_model m model | None => true end.

Definition resets_of (model : option string) (m : AccountMember) : list Z :=
  option_list (model ≫= group_reset_at_unix m) ++ option_list (reset_at_unix m).

Definition earliest_exhaustion_reset_unix_secs (ms : list AccountMember) (model : option string)
    (now : Z) : option Z :=
  foldl (λ earliest reset,
           if now <? reset then Some (match earliest with
                                      | Some current => Z.min current reset
                                      | None => reset
                                      end)
           else earliest)
    None (concat (resets_of model <$> filter (λ m, may_serve model m = true) ms)).

Definition account_benched (m : AccountMember) (now_ms : Z) : bool :=
  match member_health m with Cooldown until => now_ms <? until | _ => false end.

Definition group_benched (m : AccountMember) (model : string) (now : Z) : bool :=
  match group_reset_at_unix m model with Some reset => now <? reset | None => false end.

(** What one account adds to the flags (saw_benched, credit, cap, transient). *)
Definition bench_flags (model : string) (now : Z) (acc : bool * bool * bool * bool)
    (m : AccountMember) : bool * bool * bool * bool :=
  let now_ms := saturating_mul_i64 now 1000 in
  let '(saw, credit, cap, transient) := acc in
  if negb (member_may_serve_model m model) then acc
  else if negb (group_benched m model now) && negb (account_benched m now_ms) then acc
  else if group_credit_benched m model now_ms then (true, true, cap, transient)
  else match bench_kind_for_model m model now_ms with
       | Some OutOfCredit => (true, true, cap, transient)
       | Some QuotaExhausted => (true, credit, true, transient)
       | Some BenchRateLimited => (true, credit, cap, true)
       | None => (true, credit, true, true)
       end.

Definition benched_pool_cause (ms : list AccountMember) (model : option string) (now : Z)
  : option PoolBenchCause :=
  model ← model;
  let '(saw, credit, cap, transient) :=
    foldl (bench_flags model now) (false, false, false, false) ms in
  if negb saw then None
  else match credit, cap, transient with
       | true, false, false => Some CauseOutOfCredit
       | false, true, false => Some CauseQuotaExhausted
       | false, false, true => Some CauseRateLimited
       | _, _, _ => Some Mixed
       end.

(** The 503: the number of seconds of the payload, the [Retry-After] header and the
    message. *)
Record ExhaustionResponse := {
  payload_retry_after : option Z; (* u64 *)
  retry_after_header : option string;
  message : string;
}.

Definition exhaustion_message (cause : option PoolBenchCause) (eta : option string)
    (model_text : string) : string :=
  match cause, eta with
  | Some CauseOutOfCredit, Some eta =>
      "all pool accounts are out of credit for model '" +:+ model_text
      +:+ "'; add credits to resume, earliest retry in " +:+ eta
  | Some CauseOutOfCredit, None =>
      "all pool accounts are out of credit for model '" +:+ model_text
      +:+ "'; add credits to resume"
  | Some CauseRateLimited, Some eta =>
      "every account that can serve model '" +:+ model_text
      +:+ "' is temporarily rate-limited; earliest retry in " +:+ eta
  | Some CauseRateLimited, None =>
      "every account that can serve model '" +:+ model_text +:+ "' is temporarily rate-limited"
  | _, Some eta =>
      "all pool accounts are daily-exhausted for model '" +:+ model_text
      +:+ "'; earliest known quota reset in " +:+ eta
  | _, None => "all pool accounts are daily-exhausted for model '" +:+ model_text +:+ "'"
  end.

(** Every clock read of the function is the same [now_ms]. *)
Definition exhaustion_failure_response (ms : list AccountMember) (model : option string)
    (now_ms : Z) : ExhaustionResponse :=
  let now := Z.quot now_ms 1000 in
  let retry_after := (λ until, Z.max (Z.quot (until * 1000 - now_ms) 1000) 0) <$>
                       earliest_exhaustion_reset_unix_secs ms model now in
  let positive := retry_after ≫= (λ secs, if 0 <? secs then Some secs else None) in
  {| payload_retry_after := retry_after;
     retry_after_header := show_u64 <$> positive;
     message := exhaustion_message (benched_pool_cause ms model now)
                  (format_reset_eta <$> positive) (default "the requested model" model) |}.
End exhaustion.

End Cooldown.
