(* ===== verification/CooldownProps.v ===== *)
(** * Properties of cooldowns

    Deadlines stay within a day whatever the upstream sends; a rate limit keeps the
    account off the model until its deadline and off nothing else; a cap that keeps
    answering "a day or more" never walks its deadline; and the exhaustion response
    reports the earliest reset and only the cause every benched account shares. *)

From Stdlib Require Import Ascii.
From stdpp Require Import gmap strings list.
From S2P Require Import Prelude RustStr F64 RegistryTypes RegistrySnapshot Types Usage ClineUsage Account AccountProps AccountModels Json RelayCooldown.
Import RustStr F64 Usage Account Models Cooldown.
Open Scope Z_scope.

(** ** Deadlines *)

Lemma clamp_range z lo hi : lo ≤ hi → lo ≤ clamp z lo hi ≤ hi.
Proof. unfold clamp. lia. Qed.

Lemma deadline_range now_ms secs :
  0 ≤ now_ms ≤ i64_max →
  now_ms ≤ cooldown_deadline_ms now_ms secs ≤ now_ms + MAX_COOLDOWN_SECS * 1000.
Proof.
  intros Hn. unfold cooldown_deadline_ms, saturating_mul_i64, saturating_add_i64, MAX_COOLDOWN_SECS.
  pose proof (clamp_range secs 0 86400 ltac:(lia)) as Hc.
  rewrite (clamp_i64_id (_ * 1000)) by (unfold is_i64, i64_min, i64_max; lia).
  unfold clamp_i64, i64_min, i64_max in *. lia.
Qed.

(** An upstream cannot bench an account for more than a day.  Whatever headers a
    429 carries - huge, negative or unreadable - the deadline derived from them is
    not in the past and at most [MAX_COOLDOWN_SECS] ahead, and a [Retry-After]
    between zero and a day is honoured exactly. *)
Theorem header_deadline_bounds h now_ms :
  0 ≤ now_ms ≤ i64_max - 86400000 →
  let d := cooldown_deadline_from_headers h now_ms in
  now_ms ≤ d ≤ now_ms + MAX_COOLDOWN_SECS * 1000 ∧
  (∀ v secs, header h "retry-after" = Some v → parse_i64 (trim v) = Some secs →
             0 ≤ secs ≤ MAX_COOLDOWN_SECS → d = now_ms + secs * 1000).
Proof.
  intros Hn. cbn zeta. unfold i64_max in Hn. split; [apply deadline_range; unfold i64_max; lia|].
  intros v secs Hh Hp Hs. unfold cooldown_deadline_from_headers, retry_after_secs.
  rewrite Hh. cbn [mbind option_bind]. rewrite Hp. unfold MAX_COOLDOWN_SECS in Hs.
  unfold cooldown_deadline_ms, clamp, saturating_mul_i64, saturating_add_i64, MAX_COOLDOWN_SECS.
  unfold clamp_i64, i64_min, i64_max. lia.
Qed.

Lemma duration_parts_range ws : ∀ acc,
  0 ≤ acc.1 ≤ 8760 → 0 ≤ acc.2 ≤ 525600 →
  let r := foldl duration_part acc ws in 0 ≤ r.1 ≤ 8760 ∧ 0 ≤ r.2 ≤ 525600.
Proof.
  induction ws as [|w ws IH]; intros [h m] Hh Hm; [done|]. cbn [foldl]. apply IH;
    unfold duration_part; cbn [fst snd] in *;
    destruct (strip_suffix "h" w) as [x|]; try (destruct (parse_i64 x));
    try (destruct (strip_suffix "m" w) as [y|]); try (destruct (parse_i64 y));
    cbn; try done; apply clamp_range; lia.
Qed.

Lemma duration_secs_range s : 0 ≤ duration_secs s ≤ MAX_COOLDOWN_SECS.
Proof.
  unfold duration_secs. destruct (foldl _ _ _) as [h m]. apply clamp_range.
  unfold MAX_COOLDOWN_SECS. lia.
Qed.

(** A parsed cap always benches.  Whatever a cap message says, the delay taken from
    it is at least a minute's fraction of a positive number of seconds and at most a
    day, and the model it is charged to is not empty. *)
Theorem cap_error_bounds from_slice body model secs :
  parse_cline_cap_error from_slice body = Some (model, secs) →
  0 < secs ≤ MAX_COOLDOWN_SECS ∧ model ≠ "".
Proof.
  unfold parse_cline_cap_error. destruct (from_slice body) as [v|]; [|done].
  cbn. destruct (Json.get "error" v) as [e|]; [|done]. cbn.
  destruct (Json.get "message" e ≫= Json.as_str) as [msg|]; [|done]. cbn. unfold cap_message.
  destruct (find_str _ msg) as [[? r]|]; [|done]. cbn.
  destruct (find_str _ r) as [[name rest]|]; [|done]. cbn.
  destruct (is_empty (trim name)) eqn:He; [done|].
  pose proof (duration_secs_range (trim rest)) as Hr. intros [= <- <-]. split.
  - unfold MAX_COOLDOWN_SECS in *. case_if; bool_to_prop; lia.
  - intros E. by rewrite E in He.
Qed.

(** ** The scope of a bench *)

(** The quota group of the model is benched, or the account when there is none. *)
Lemma bench_exhausted_eq m model until k :
  bench_exhausted_quota m model until k =
  match model ≫= quota_group_for m with
  | Some g => with_benches m (bench g until (group_cooldowns m)) (credit_benched m)
                (<[g := k]> (bench_kinds m))
  | None => set_account_bench_kind (set_health m (Cooldown until)) k
  end.
Proof.
  unfold bench_exhausted_quota, set_group_cooldown, set_group_bench_kind.
  destruct model as [model|]; [|done]. cbn [mbind option_bind].
  destruct (quota_group_for m model) as [g|] eqn:Hg; [|done].
  change (quota_group_for (with_benches _ _ _ _) model) with (quota_group_for m model).
  by rewrite Hg.
Qed.

(** ** Repeated caps *)

Section caps.
Context (from_slice : string → option Json.Value) (env : string → option string).

Lemma set_usage_frame m u :
  cline_trackers (set_usage m u) = cline_trackers m ∧ inner (set_usage m u) = inner m ∧
  group_cooldowns (set_usage m u) = group_cooldowns m ∧
  member_health (set_usage m u) = member_health m.
Proof. done. Qed.

(** What a bench leaves alone. *)
Lemma bench_frame m model until k :
  let m' := bench_exhausted_quota m model until k in
  inner m' = inner m ∧ cline_trackers m' = cline_trackers m ∧ usage m' = usage m.
Proof. cbn zeta. rewrite bench_exhausted_eq. by destruct (model ≫= quota_group_for m). Qed.

Lemma bench_cap_frame m cap requested until :
  let m' := bench_cline_cap m cap requested until in
  inner m' = inner m ∧ cline_trackers m' = cline_trackers m ∧ usage m' = usage m.
Proof.
  cbn zeta. unfold bench_cline_cap.
  destruct (bench_frame m (Some cap) until QuotaExhausted) as (H1 & H2 & H3).
  destruct requested as [r|]; [|done]. case_if; [done|].
  destruct (bench_frame (bench_exhausted_quota m (Some cap) until QuotaExhausted) (Some r) until
              QuotaExhausted) as (H4 & H5 & H6).
  by rewrite H4, H5, H6.
Qed.

Lemma note_cap_frame m cap reset now :
  inner (note_cap env m cap reset now) = inner m ∧
  cline_trackers (note_cap env m cap reset now) =
    <[Cline.cline_quota_slug cap :=
        Cline.on_cap_429_at (Cline.tracker_of env (cline_trackers m) cap) reset now]>
      (cline_trackers m) ∧
  group_cooldowns (note_cap env m cap reset now) = group_cooldowns m ∧
  member_health (note_cap env m cap reset now) = member_health m.
Proof.
  split_and!; try done. cbn. unfold Cline.update_model, Cline.tracker_of.
  rewrite lookup_insert_eq. cbn. by rewrite insert_insert_eq.
Qed.

(** The account's tracker of [cap] names [reset] as its deadline. *)
Definition anchored (m : AccountMember) (cap : string) (reset : Z) : Prop :=
  provider_name m = "cline" ∧
  Cline.estimated_reset_unix (Cline.tracker_of env (cline_trackers m) cap) = reset.

Lemma provider_of_inner m m' : inner m' = inner m → provider_name m' = provider_name m.
Proof. unfold provider_name. by intros ->. Qed.

Lemma cap_step m h body model now_ms now cap secs :
  provider_name m = "cline" → parse_cline_cap_error from_slice body = Some (cap, secs) →
  0 ≤ now_ms →
  let now_secs := Z.quot now_ms 1000 in
  let reset := cap_deadline env m cap now_secs secs in
  now_secs < reset →
  let r := record_cooldown from_slice env m h body model now_ms now in
  anchored r.1 cap reset ∧ cap_reset_at <$> r.2 = Some reset.
Proof.
  intros Hp Hcap Hn. cbn zeta. set (ns := Z.quot now_ms 1000).
  set (reset := cap_deadline env m cap ns secs). intros Hlt.
  assert (Hns : 0 ≤ ns) by (apply Z.quot_pos; lia).
  unfold record_cooldown.
  assert (Hk : bool_decide (kind m = KClaude) = false).
  { unfold kind, provider_name in *. apply bool_decide_eq_false_2. by destruct (inner m). }
  rewrite Hk. cbn [andb]. rewrite Hp. unfold eqs at 1.
  rewrite bool_decide_eq_true_2 by done. rewrite Hcap. cbn zeta. fold ns. fold reset.
  destruct (note_cap_frame m cap reset ns) as (Hi & Ht & _ & _).
  assert (Hdone : ∀ m', inner m' = inner (note_cap env m cap reset ns) →
            cline_trackers m' = cline_trackers (note_cap env m cap reset ns) →
            anchored (record_fail m' now) cap reset).
  { intros m' H1 H2. split.
    - rewrite <- Hp. apply provider_of_inner. cbn. by rewrite H1, Hi.
    - cbn. rewrite H2, Ht. unfold Cline.tracker_of at 1. rewrite lookup_insert_eq. cbn.
      by apply Cline.on_cap_reset. }
  cbn [fst snd]. split; [|done].
  case_if; apply Hdone; apply bench_cap_frame || apply bench_frame.
Qed.

(** The 429s of one model, all naming a reset a day or more away; the resets the
    account records for them. *)
Fixpoint run_caps (m : AccountMember) (body : string) (model : option string)
    (events : list (HeaderMap * Z * Z)) : list (option Z) :=
  match events with
  | [] => []
  | (h, now_ms, now) :: events =>
      let r := record_cooldown from_slice env m h body model now_ms now in
      (cap_reset_at <$> r.2) :: run_caps r.1 body model events
  end.

Lemma anchored_stable m cap reset now_secs :
  anchored m cap reset → now_secs < reset →
  cap_deadline env m cap now_secs MAX_COOLDOWN_SECS = reset.
Proof.
  intros [_ Ht] Hlt. unfold cap_deadline, resolve_cline_deadline. rewrite Ht.
  rewrite Z.ltb_irrefl. case_if; bool_to_prop; lia.
Qed.

(** A saturated cap never walks its deadline.  Once a Cline account has recorded a
    reset for a model, every further 429 that only says "a day or more", however
    many come before that reset, records the same reset again. *)
Theorem cap_deadline_stable m h body model now_ms now cap events :
  provider_name m = "cline" →
  parse_cline_cap_error from_slice body = Some (cap, MAX_COOLDOWN_SECS) →
  0 ≤ now_ms → Z.quot now_ms 1000 + MAX_COOLDOWN_SECS ≤ i64_max →
  let reset := cap_deadline env m cap (Z.quot now_ms 1000) MAX_COOLDOWN_SECS in
  Forall (λ e, 0 ≤ e.1.2 ∧ Z.quot e.1.2 1000 < reset) events →
  Forall (λ r, r = Some reset) (run_caps m body model ((h, now_ms, now) :: events)).
Proof.
  intros Hp Hcap Hn Hmax. cbn zeta. set (reset := cap_deadline _ _ _ _ _). intros Hev.
  assert (Hns : 0 ≤ Z.quot now_ms 1000) by (apply Z.quot_pos; lia).
  assert (Hlt : Z.quot now_ms 1000 < reset).
  { unfold reset, cap_deadline, resolve_cline_deadline, saturating_add_i64.
    rewrite Z.ltb_irrefl. unfold MAX_COOLDOWN_SECS in *.
    rewrite clamp_i64_id by (unfold is_i64, i64_min, i64_max in *; lia).
    case_if; bool_to_prop; lia. }
  destruct (cap_step m h body model now_ms now cap _ Hp Hcap Hn Hlt) as [Ha He].
  cbn [run_caps]. constructor; [exact He|]. fold reset in Ha. clear He Hlt Hp Hn Hmax Hns.
  clearbody reset. revert Ha. generalize (record_cooldown from_slice env m h body model now_ms now).1.
  induction Hev as [|[[h' t] n] evs [H0 Hlt] _ IH]; intros m' Ha; cbn [run_caps]; [constructor|].
  cbn [fst snd] in *. pose proof (anchored_stable _ _ _ _ Ha Hlt) as Hd.
  destruct (cap_step m' h' body model t n cap _ (proj1 Ha) Hcap H0) as [Ha' He'];
    [by rewrite Hd|]. rewrite Hd in *. constructor; [done|]. by apply IH.
Qed.
End caps.

(** ** A rate limit keeps the account off the model *)

(** The two tests the relay makes of an account and a model. *)
Definition serves_at (m : AccountMember) (model : string) (t : Z) : bool :=
  group_available m model t && is_available (member_health m) t.

Lemma benched_blocks m k until model t :
  (k = model_bench_key model ∨ quota_group_for m model = Some k) →
  (∃ u, until ≤ u ∧ group_cooldowns m !! k = Some u) → t < until →
  serves_at m model t = false.
Proof.
  intros Hk (u & Hu & E) Ht. apply andb_false_iff. left. apply not_true_iff_false.
  rewrite group_available_iff.
  intros [H1 H2]. destruct Hk as [->|Hk]; [specialize (H1 _ E)|specialize (H2 _ Hk _ E)]; lia.
Qed.

Lemma bench_lookup k until benches : ∃ u, until ≤ u ∧ bench k until benches !! k = Some u.
Proof. eexists. unfold bench. rewrite lookup_insert_eq. split; [|done]. lia. Qed.

Lemma cooldown_blocks m until k model t :
  t < until → serves_at (set_account_bench_kind (set_health m (Cooldown until)) k) model t = false.
Proof.
  intros Ht. unfold serves_at. cbn. rewrite (proj2 (Z.leb_gt until t)) by lia. apply andb_false_r.
Qed.

Lemma bench_exhausted_blocks m model until k t :
  t < until → serves_at (bench_exhausted_quota m (Some model) until k) model t = false.
Proof.
  intros Ht. rewrite bench_exhausted_eq. cbn [mbind option_bind].
  destruct (quota_group_for m model) as [g|] eqn:Hg; [|by apply cooldown_blocks].
  eapply (benched_blocks _ g until); [by right|apply bench_lookup|done].
Qed.

Lemma bench_cap_blocks m cap model until t :
  t < until → serves_at (bench_cline_cap m cap (Some model) until) model t = false.
Proof.
  intros Ht. unfold bench_cline_cap. case_if.
  - unfold eqs in *. bool_to_prop. subst. by apply bench_exhausted_blocks.
  - by apply bench_exhausted_blocks.
Qed.

Lemma serves_at_record_fail m now model t : serves_at (record_fail m now) model t = serves_at m model t.
Proof. done. Qed.

Section cooldown.
Context (from_slice : string → option Json.Value) (env : string → option string).

(** The deadline a 429 is worth: that of the cap its body names, on a Cline account,
    and otherwise that of its headers. *)
Definition cooldown_until (m : AccountMember) (h : HeaderMap) (body : string) (now_ms : Z) : Z :=
  match (if eqs (provider_name m) "cline" then parse_cline_cap_error from_slice body else None) with
  | Some (cap, secs) => saturating_mul_i64 (cap_deadline env m cap (Z.quot now_ms 1000) secs) 1000
  | None => cooldown_deadline_from_headers h now_ms
  end.

Lemma claude_not_cline m : kind m = KClaude → eqs (provider_name m) "cline" = false.
Proof. unfold kind, provider_name. by destruct (inner m). Qed.

(** A rate-limited account leaves the rotation for that model.  After a 429 for a
    model, and whatever its headers and body, the account fails the relay's
    availability test for that model at every instant before the deadline the answer
    was worth; and its credential is untouched. *)
Theorem rate_limit_blocks m h body model now_ms now :
  let m' := (record_cooldown from_slice env m h body (Some model) now_ms now).1 in
  (∀ t, t < cooldown_until m h body now_ms → serves_at m' model t = false) ∧
  inner m' = inner m.
Proof.
  cbn zeta. unfold cooldown_until, record_cooldown.
  destruct (bool_decide (kind m = KClaude) && claude_model_scoped_rejection h) eqn:Hsc.
  - bool_to_prop. rewrite claude_not_cline by done. split; [|done]. intros t Ht. cbn [fst].
    rewrite serves_at_record_fail.
    eapply (benched_blocks _ (model_bench_key model)); [by left|apply bench_lookup|done].
  - destruct (eqs (provider_name m) "cline") eqn:Hc.
    + destruct (parse_cline_cap_error from_slice body) as [[cap secs]|]; cbn [fst snd].
      * split.
        -- intros t Ht. rewrite serves_at_record_fail.
           destruct (bool_decide (Some cap = Some model)) eqn:Heq; cbn [negb].
           ++ bool_to_prop. simplify_eq. rewrite andb_false_r. by apply bench_exhausted_blocks.
           ++ rewrite andb_true_r. case_if; [by apply bench_cap_blocks|].
              exfalso. unfold eqs in *. bool_to_prop. by rewrite <- Hc in *.
        -- cbn [record_fail with_counters inner].
           case_if; rewrite ?(proj1 (bench_cap_frame _ _ _ _)), ?(proj1 (bench_frame _ _ _ _)); done.
      * rewrite Hc. rewrite bool_decide_eq_true_2 by done. cbn [negb andb].
        split; [intros t Ht; by apply bench_exhausted_blocks|].
        cbn [record_fail with_counters inner]. by rewrite (proj1 (bench_frame _ _ _ _)).
    + cbn [fst snd]. rewrite Hc. cbn [andb].
      split; [intros t Ht; by apply bench_exhausted_blocks|].
      cbn [record_fail with_counters inner]. by rewrite (proj1 (bench_frame _ _ _ _)).
Qed.

Lemma bench_other k k' t benches now :
  k' ≠ k → bench k t benches !! k' = benches !! k' ∧
           benched (bench k t benches) k' now = benched benches k' now.
Proof. intros Hne. unfold benched, bench. by rewrite lookup_insert_ne. Qed.

Lemma quota_group_claude m model g : quota_group_for m model = Some g → kind m ≠ KClaude.
Proof. unfold quota_group_for, kind, provider_name. by destruct (inner m). Qed.

(** C29: A rate limit stays in its quota group.  On an account whose provider meters model
    families separately, a 429 for one model leaves the availability of every model of
    another family exactly as it was, at every instant.  Two side conditions: the name of
    the model asked for does not start with a NUL character, and the account is not a
    Cline account whose answer carries a cap notice (such a notice may name another model,
    which is then benched too: [cline_cap_names_another]). *)
Theorem rate_limit_isolated m h body model model' g now_ms now t :
  quota_group_for m model = Some g → plain model →
  (provider_name m = "cline" → parse_cline_cap_error from_slice body = None) →
  quota_group_for m model' ≠ Some g →
  serves_at (record_cooldown from_slice env m h body (Some model) now_ms now).1 model' t =
  serves_at m model' t.
Proof.
  intros Hg Hp Hc Hne. unfold record_cooldown.
  rewrite bool_decide_eq_false_2 by (by eapply quota_group_claude). cbn [andb].
  assert ((if eqs (provider_name m) "cline" then parse_cline_cap_error from_slice body else None) = None) as ->.
  { unfold eqs. case_bool_decide; auto. }
  cbn [fst]. rewrite (bool_decide_eq_true_2 (Some model = Some model)) by done. rewrite andb_false_r.
  rewrite serves_at_record_fail, bench_exhausted_eq.
  cbn [mbind option_bind]. rewrite Hg. unfold serves_at. f_equal. unfold group_available.
  change (quota_group_for (with_benches _ _ _ _) model') with (quota_group_for m model').
  cbn [with_benches group_cooldowns].
  assert (Hk : model_bench_key model' ≠ g).
  { intros E. apply (group_plain (provider_name m) model g Hg) in Hp. by rewrite <- E in Hp. }
  rewrite (proj2 (bench_other g (model_bench_key model') _ _ t Hk)).
  case_if; [done|]. destruct (quota_group_for m model') as [g'|]; [|done].
  rewrite (proj1 (bench_other g g' _ _ 0 ltac:(congruence))). done.
Qed.
End cooldown.

(** ** The exhaustion response *)

Section exhaustion.
Context (url_host : string → option string) (embedded : Snapshot.RegistrySnapshot).
Abbreviation may_serve_model := (member_may_serve_model url_host embedded).

(** The account can serve the model and is benched. *)
Definition blocks (model : string) (now : Z) (m : AccountMember) : bool :=
  may_serve_model m model
  && (group_benched m model now || account_benched m (saturating_mul_i64 now 1000)).

(** The cause on record for a benched account: an unlabelled bench has none. *)
Definition cause_of (model : string) (now : Z) (m : AccountMember) : option BenchKind :=
  let now_ms := saturating_mul_i64 now 1000 in
  if group_credit_benched m model now_ms then Some OutOfCredit
  else bench_kind_for_model m model now_ms.

Definition flag_credit (c : option BenchKind) : bool :=
  match c with Some OutOfCredit => true | _ => false end.
Definition flag_cap (c : option BenchKind) : bool :=
  match c with Some QuotaExhausted | None => true | _ => false end.
Definition flag_transient (c : option BenchKind) : bool :=
  match c with Some BenchRateLimited | None => true | _ => false end.

Lemma bench_flags_eq model now acc m :
  bench_flags url_host embedded model now acc m =
  if blocks model now m then
    (true, acc.1.1.2 || flag_credit (cause_of model now m),
     acc.1.2 || flag_cap (cause_of model now m), acc.2 || flag_transient (cause_of model now m))
  else acc.
Proof.
  destruct acc as [[[saw credit] cap] transient]. unfold bench_flags, blocks, cause_of.
  destruct (may_serve_model m model); [|done]. cbn [negb andb fst snd].
  destruct (group_benched m model now), (account_benched m _); cbn [negb andb orb]; try done;
    (destruct (group_credit_benched m model _); cbn; [by rewrite ?orb_true_r, ?orb_false_r|]);
    destruct (bench_kind_for_model m model _) as [[]|]; cbn; by rewrite ?orb_true_r, ?orb_false_r.
Qed.

Lemma fold_flags model now ms : ∀ acc,
  foldl (bench_flags url_host embedded model now) acc ms =
  let bs := filter (λ m, blocks model now m = true) ms in
  (acc.1.1.1 || existsb (λ _, true) bs,
   acc.1.1.2 || existsb (λ m, flag_credit (cause_of model now m)) bs,
   acc.1.2 || existsb (λ m, flag_cap (cause_of model now m)) bs,
   acc.2 || existsb (λ m, flag_transient (cause_of model now m)) bs).
Proof.
  cbn zeta. induction ms as [|m ms IH]; intros acc.
  - destruct acc as [[[? ?] ?] ?]. cbn. by rewrite !orb_false_r.
  - cbn [foldl]. rewrite bench_flags_eq, filter_cons. destruct (blocks model now m).
    + rewrite decide_True by done. rewrite IH. cbn [fst snd existsb].
      by rewrite !orb_assoc, !orb_true_r.
    + rewrite decide_False by done. apply IH.
Qed.

Definition lift_cause (k : BenchKind) : PoolBenchCause :=
  match k with
  | QuotaExhausted => CauseQuotaExhausted
  | BenchRateLimited => CauseRateLimited
  | OutOfCredit => CauseOutOfCredit
  end.

Lemma existsb_elem {A} (f : A → bool) l : existsb f l = true ↔ ∃ x, x ∈ l ∧ f x = true.
Proof.
  rewrite existsb_exists. setoid_rewrite list_elem_of_In. done.
Qed.

(** The response claims a cause only when it is everybody's.  The pool is reported as
    out of credit, rate limited or out of quota exactly when some account that can
    serve the model is benched and that cause is on record for every such account;
    a bench without a recorded cause rules out all three. *)
Theorem pool_cause_unanimous ms model now k :
  benched_pool_cause url_host embedded ms (Some model) now = Some (lift_cause k) ↔
  (∃ m, m ∈ ms ∧ blocks model now m = true) ∧
  ∀ m, m ∈ ms → blocks model now m = true → cause_of model now m = Some k.
Proof.
  unfold benched_pool_cause. cbn [mbind option_bind]. rewrite fold_flags. cbn [fst snd orb].
  set (bs := filter _ ms).
  assert (Hall : (∀ m, m ∈ ms → blocks model now m = true → cause_of model now m = Some k) ↔
                 ∀ m, m ∈ bs → cause_of model now m = Some k).
  { subst bs. setoid_rewrite list_elem_of_filter. naive_solver. }
  assert (Hex : (∃ m, m ∈ ms ∧ blocks model now m = true) ↔ ∃ m, m ∈ bs).
  { subst bs. setoid_rewrite list_elem_of_filter. naive_solver. }
  rewrite Hall, Hex. clear Hall Hex. clearbody bs. destruct bs as [|m bs].
  { cbn. split; [done|]. intros [[m Hm] _]. by apply elem_of_nil in Hm. }
  rewrite (proj2 (existsb_elem (λ _, true) (m :: bs))) by (exists m; split; [left|done]).
  cbn [negb]. set (l := m :: bs).
  assert (Hne : ∃ x, x ∈ l) by (exists m; left).
  assert (Hflag : ∀ f : option BenchKind → bool, existsb (λ m, f (cause_of model now m)) l = false ↔
            ∀ x, x ∈ l → f (cause_of model now x) = false).
  { intros f. rewrite <- not_true_iff_false, existsb_elem. split.
    - intros H x Hx. apply not_true_iff_false. eauto.
    - intros H (x & Hx & E). by rewrite H in E. }
  pose proof (Hflag flag_credit) as H1. pose proof (Hflag flag_cap) as H2.
  pose proof (Hflag flag_transient) as H3. clear Hflag. clearbody l. destruct Hne as [x0 Hx0].
  destruct (existsb (λ m, flag_credit _) l), (existsb (λ m, flag_cap _) l),
    (existsb (λ m, flag_transient _) l), k; cbn [lift_cause]; split; try done; intros Hyp;
    try (split; [by eauto|]; intros x Hx;
         try (apply proj1 in H1; specialize (H1 eq_refl x Hx));
         try (apply proj1 in H2; specialize (H2 eq_refl x Hx));
         try (apply proj1 in H3; specialize (H3 eq_refl x Hx));
         by destruct (cause_of model now x) as [[]|]).
  all: exfalso; destruct Hyp as [_ Hyp];
    try (apply proj2 in H1; discriminate H1; intros x Hx; by rewrite Hyp);
    try (apply proj2 in H2; discriminate H2; intros x Hx; by rewrite Hyp);
    try (apply proj2 in H3; discriminate H3; intros x Hx; by rewrite Hyp).
  all: specialize (Hyp x0 Hx0);
    try (apply proj1 in H1; specialize (H1 eq_refl x0 Hx0); by rewrite Hyp in H1);
    try (apply proj1 in H2; specialize (H2 eq_refl x0 Hx0); by rewrite Hyp in H2);
    try (apply proj1 in H3; specialize (H3 eq_refl x0 Hx0); by rewrite Hyp in H3).
Qed.

(** The loop over the resets is the minimum of those that lie ahead. *)
Lemma earliest_spec now l : ∀ acc : option Z,
  (∀ a, acc = Some a → now < a) →
  let r := foldl (λ earliest reset,
             if now <? reset then Some (match earliest with
                                        | Some current => Z.min current reset
                                        | None => reset
                                        end)
             else earliest) acc l in
  match r with
  | Some e => now < e ∧ (acc = Some e ∨ e ∈ l) ∧ (∀ a, acc = Some a → e ≤ a) ∧
              ∀ x, x ∈ l → now < x → e ≤ x
  | None => acc = None ∧ ∀ x, x ∈ l → x ≤ now
  end.
Proof.
  cbn zeta. induction l as [|x l IH]; intros acc Hacc; cbn [foldl].
  - destruct acc as [a|]; [|by split; [|intros ? ?%elem_of_nil]].
    split_and!; [by apply Hacc|by left|intros ? [= ->]; lia|intros ? ?%elem_of_nil; done].
  - set (acc' := if now <? x then _ else acc).
    assert (Hacc' : ∀ a, acc' = Some a → now < a).
    { subst acc'. intros a. case_if; [|by apply Hacc]. bool_to_prop. intros [= <-].
      destruct acc as [c|]; [specialize (Hacc c eq_refl)|]; lia. }
    specialize (IH acc' Hacc'). destruct (foldl _ acc' l) as [e|].
    + destruct IH as (H1 & H2 & H3 & H4). subst acc'. destruct (Z.ltb_spec now x) as [Hx|Hx].
      * assert (Hle : e ≤ x ∧ ∀ a, acc = Some a → e ≤ a).
        { specialize (H3 _ eq_refl). destruct acc as [c|]; [|split; [lia|done]].
          split; [lia|]. intros a [= <-]. lia. }
        split_and!; [done| |by apply Hle|].
        -- destruct H2 as [H2|H2]; [|right; by right]. injection H2 as H2.
           destruct acc as [c|]; [|subst x; right; left].
           destruct (Z.min_spec c x) as [[_ E]|[_ E]]; rewrite E in H2; subst e;
             [by left|right; left].
        -- intros y [->|Hy]%elem_of_cons Hn; [lia|by apply H4].
      * split_and!; [done| |done|].
        -- destruct H2 as [->|H2]; [by left|right; by right].
        -- intros y [->|Hy]%elem_of_cons Hn; [lia|by apply H4].
    + destruct IH as [H1 H2]. subst acc'. destruct (Z.ltb_spec now x); [done|].
      split; [done|]. intros y [->|Hy]%elem_of_cons; [lia|by apply H2].
Qed.

(** The resets of the accounts consulted for a model. *)
Definition pool_resets (ms : list AccountMember) (model : option string) : list Z :=
  concat (resets_of model <$> filter (λ m, may_serve url_host embedded model m = true) ms).

(** The advertised retry is the first chance.  The 503 carries a [Retry-After]
    exactly when some account consulted resets at least a second from now, and then
    the seconds it names are those to the earliest reset that lies ahead: no account
    recovers before, and one recovers then. *)
Theorem exhaustion_retry_after ms model now :
  0 ≤ now →
  let r := exhaustion_failure_response url_host embedded ms model (now * 1000) in
  (retry_after_header r = None ↔ ∀ x, x ∈ pool_resets ms model → x ≤ now) ∧
  (∀ s, retry_after_header r = Some s →
     ∃ x, x ∈ pool_resets ms model ∧ now < x ∧ s = show_u64 (x - now) ∧
          ∀ y, y ∈ pool_resets ms model → now < y → x ≤ y).
Proof.
  intros Hn. cbn zeta. unfold exhaustion_failure_response. cbn [retry_after_header].
  rewrite Z.quot_mul by lia.
  unfold earliest_exhaustion_reset_unix_secs. fold (pool_resets ms model).
  pose proof (earliest_spec now (pool_resets ms model) None ltac:(done)) as He. cbn zeta in He.
  destruct (foldl _ None _) as [e|].
  - destruct He as (H1 & [?|H2] & _ & H4); [done|].
    cbn [fmap option_fmap option_map mbind option_bind].
    replace (Z.max (Z.quot (e * 1000 - now * 1000) 1000) 0) with (e - now).
    2: { rewrite <- Z.mul_sub_distr_r, Z.quot_mul by lia. lia. }
    rewrite (proj2 (Z.ltb_lt 0 (e - now))) by lia. cbn [fmap option_fmap option_map]. split.
    + split; [done|]. intros H. specialize (H e H2). lia.
    + intros s Hs. assert (s = show_u64 (e - now)) as -> by congruence. eauto.
  - destruct He as [_ He]. cbn. split; [by split|done].
Qed.

(** Every account of a provider that meters families counts as able to serve every
    model: the quota group test never fails, so an Antigravity or Cline account in a
    cooldown has a say in the answer for models it cannot serve at all. *)
Theorem metered_account_may_serve_anything m model :
  kind m = KAntigravity → may_serve_model m model = true.
Proof.
  intros Hk. unfold member_may_serve_model, quota_group_for.
  assert (provider_name m = "antigravity") as ->.
  { unfold kind, provider_name in *. by destruct (inner m). }
  done.
Qed.
End exhaustion.

(** ** The printed delay is the one the parser reads *)

Lemma words_plain cs : ∀ w rest,
  Forall (λ c, is_whitespace c = false) cs →
  words w (cs ++ rest) = words (w +:+ concat_chars cs) rest.
Proof.
  induction cs as [|c cs IH]; intros w rest Hcs; cbn [app concat_chars words].
  - by rewrite append_nil_r.
  - apply list.Forall_cons in Hcs as [-> Hcs]. by rewrite IH, append_assoc.
Qed.

Lemma split_chars_app a c b : is_continuation c = false →
  split_chars (a +:+ String c b) = split_chars a ++ split_chars (String c b).
Proof.
  intros Hc. induction a as [|x a IH]; [done|].
  change (String x a +:+ String c b) with (String x (a +:+ String c b)). cbn [split_chars].
  rewrite IH. destruct (split_chars a) as [|y ys]; cbn [app]; [|by destruct (starts_continuation y)].
  cbn. destruct (split_chars b) as [|y ys]; [|destruct (starts_continuation y)]; cbn; by rewrite Hc.
Qed.

(** A word without white space. *)
Definition word (s : string) : bool :=
  negb (is_empty s) && forallb (λ c, negb (is_whitespace c)) (split_chars s)
  && negb (starts_continuation s).

Lemma word_chars s : word s = true →
  is_empty s = false ∧ Forall (λ c, is_whitespace c = false) (split_chars s) ∧
  starts_continuation s = false.
Proof.
  unfold word. intros H. bool_to_prop. split_and!; try done. apply list.Forall_forall.
  intros c Hc%list_elem_of_In. rewrite forallb_forall in *.
  match goal with H : ∀ x, In x _ → _ |- _ => specialize (H c Hc) end. by bool_to_prop.
Qed.

Lemma split_one a : word a = true → split_whitespace a = [a].
Proof.
  intros (Hne & Ha & _)%word_chars. unfold split_whitespace.
  rewrite <- (app_nil_r (split_chars a)), words_plain, split_chars_concat by done.
  change ("" +:+ a) with a. cbn [words]. by rewrite Hne.
Qed.

Lemma split_two a b : word a = true → word b = true →
  split_whitespace (a +:+ String " " b) = [a; b].
Proof.
  intros (Hne & Ha & _)%word_chars Hb. rewrite <- (split_one b Hb).
  apply word_chars in Hb as (Hbe & _ & Hbc). unfold split_whitespace.
  rewrite split_chars_app, words_plain, split_chars_concat by done.
  destruct b as [|d b]; [done|].
  change (String " " (String d b)) with (" " +:+ String d b).
  rewrite (split_chars_app " ") by done. change (split_chars " ") with [" "].
  change ("" +:+ a) with a. cbn [app words]. by rewrite Hne.
Qed.

Definition hour_word (h : nat) : string := show_u64 (Z.of_nat h) +:+ "h".
Definition minute_word (m : nat) : string := show_u64 (Z.of_nat m) +:+ "m".

(** The words of a delay up to a day, checked one by one. *)
Lemma hour_words : Forall (λ h, word (hour_word h) = true ∧
  duration_part (0, 0) (hour_word h) = (Z.of_nat h, 0)) (seq 0 25).
Proof. apply (bool_decide_unpack _). vm_compute. exact I. Qed.

Lemma minute_words : Forall (λ m, word (minute_word m) = true ∧
  strip_suffix "h" (minute_word m) = None ∧
  (strip_suffix "m" (minute_word m) ≫= parse_i64) = Some (Z.of_nat m)) (seq 0 60).
Proof. apply (bool_decide_unpack _). vm_compute. exact I. Qed.

Lemma minute_part acc m : (m < 60)%nat →
  word (minute_word m) = true ∧ duration_part acc (minute_word m) = (acc.1, Z.of_nat m).
Proof.
  intros Hm. pose proof minute_words as H. rewrite list.Forall_forall in H.
  destruct (H m) as (Hw & Hh & Hp); [apply elem_of_seq; lia|]. split; [done|].
  unfold duration_part. rewrite Hh. destruct (strip_suffix "m" (minute_word m)); [|done].
  cbn [mbind option_bind] in Hp. rewrite Hp. unfold clamp. f_equal. lia.
Qed.

(** What is printed is what is read.  For any delay up to a day, parsing the printed
    form of the time left gives that time back, to the minute. *)
Theorem eta_roundtrip secs :
  0 ≤ secs ≤ MAX_COOLDOWN_SECS → duration_secs (format_reset_eta secs) = 60 * (secs / 60).
Proof.
  intros Hs. unfold MAX_COOLDOWN_SECS in Hs.
  set (h := Z.to_nat (secs / 3600)). set (m := Z.to_nat (secs mod 3600 / 60)).
  assert (Hh : secs / 3600 = Z.of_nat h) by (unfold h; rewrite Z2Nat.id; [done|]; apply Z.div_pos; lia).
  pose proof (Z.mod_pos_bound secs 3600 ltac:(lia)) as Hmod.
  assert (Hm : secs mod 3600 / 60 = Z.of_nat m)
    by (unfold m; rewrite Z2Nat.id; [done|]; apply Z.div_pos; lia).
  assert (Hmlt : (m < 60)%nat).
  { assert (secs mod 3600 / 60 < 60) by (apply Z.div_lt_upper_bound; lia). lia. }
  assert (Hhlt : (h < 25)%nat).
  { assert (secs / 3600 < 25) by (apply Z.div_lt_upper_bound; lia). lia. }
  assert (Hval : 60 * (secs / 60) = Z.of_nat h * 3600 + Z.of_nat m * 60).
  { rewrite <- Hh, <- Hm. pose proof (Z.div_mod secs 3600 ltac:(lia)) as E.
    replace (secs / 60) with ((secs mod 3600 + 60 * (secs / 3600) * 60) / 60) by (f_equal; lia).
    rewrite Z.div_add by lia. lia. }
  unfold format_reset_eta. rewrite Hh, Hm, Hval. unfold duration_secs.
  pose proof hour_words as H. rewrite list.Forall_forall in H.
  destruct (H h) as [Hw Hp]; [apply elem_of_seq; lia|]. clear H.
  assert (Hfin : ∀ a b : Z, 0 ≤ a * 3600 + b * 60 ≤ 86400 → 0 ≤ a ≤ 24 → 0 ≤ b < 60 →
     clamp (saturating_add_i64 (saturating_mul_i64 a 3600) (saturating_mul_i64 b 60)) 0
       MAX_COOLDOWN_SECS = a * 3600 + b * 60).
  { intros a b H1 H2 H3. unfold clamp, saturating_add_i64, saturating_mul_i64, MAX_COOLDOWN_SECS,
      clamp_i64, i64_min, i64_max. lia. }
  pose proof (Z.div_mod secs 60 ltac:(lia)). pose proof (Z.mod_pos_bound secs 60 ltac:(lia)).
  case_if; bool_to_prop.
  - replace (show_u64 (Z.of_nat h) +:+ "h " +:+ show_u64 (Z.of_nat m) +:+ "m")
      with (hour_word h +:+ String " " (minute_word m))
      by (unfold hour_word, minute_word; by rewrite append_assoc).
    rewrite split_two by (done || by apply (minute_part (0, 0))). cbn [foldl]. rewrite Hp.
    rewrite (proj2 (minute_part _ m Hmlt)). cbn [fst snd]. apply Hfin; lia.
  - change (show_u64 (Z.of_nat m) +:+ "m") with (minute_word m).
    rewrite split_one by (by apply (minute_part (0, 0))). cbn [foldl].
    rewrite (proj2 (minute_part _ m Hmlt)). cbn [fst snd]. replace (Z.of_nat h) with 0 by lia.
    apply Hfin; lia.
Qed.

(** ** Witnesses *)

Lemma eta_roundtrip_witness : duration_secs (format_reset_eta 48060) = 48060.
Proof. rewrite (eta_roundtrip 48060); [reflexivity|unfold MAX_COOLDOWN_SECS; lia]. Defined.

Definition cline_account : AccountMember :=
  for_test_with_id "c1" (Generic "cline" [] false) 0.

Definition json_message (msg : string) : Json.Value :=
  Json.VObject [("error", Json.VObject [("message", Json.VString msg)])].

(** A parser that knows one body. *)
Definition cap_body (s : string) : option Json.Value :=
  Some (json_message "Daily free limit reached on model z-ai/glm-5. Try again in 30h").

Lemma header_deadline_bounds_witness :
  cooldown_deadline_from_headers [("retry-after", Some "120")] 1000000 = 1120000 ∧
  cooldown_deadline_from_headers [("retry-after", Some "99999999999")] 1000000 = 87400000.
Proof.
  destruct (header_deadline_bounds [("retry-after", Some "120")] 1000000) as [_ H];
    [unfold i64_max; lia|]. cbn zeta in H. split; [|reflexivity].
  apply (H "120" 120); [reflexivity..|unfold MAX_COOLDOWN_SECS; lia].
Defined.

Lemma cap_error_bounds_witness :
  parse_cline_cap_error cap_body "" = Some ("z-ai/glm-5", 86400) ∧ 0 < 86400 ≤ MAX_COOLDOWN_SECS.
Proof.
  split; [reflexivity|]. apply (cap_error_bounds cap_body "" "z-ai/glm-5" 86400). reflexivity.
Defined.

Definition no_env (_ : string) : option string := None.

Lemma cap_deadline_stable_witness :
  run_caps cap_body no_env cline_account "" None [([], 1000000, 0); ([], 5000000, 0)] =
  [Some 87400; Some 87400].
Proof.
  pose proof (cap_deadline_stable cap_body no_env cline_account [] "" None 1000000 0 "z-ai/glm-5"
                [([], 5000000, 0)] eq_refl eq_refl ltac:(lia)
                ltac:(unfold MAX_COOLDOWN_SECS, i64_max; vm_compute; discriminate)) as H.
  cbn zeta in H. change (cap_deadline _ _ _ _ _) with 87400 in H.
  assert (Hf : Forall (λ e : HeaderMap * Z * Z, 0 ≤ e.1.2 ∧ Z.quot e.1.2 1000 < 87400)
                 [([], 5000000, 0)]) by (apply (bool_decide_unpack _); vm_compute; exact I).
  specialize (H Hf). cbn [run_caps] in *.
  apply list.Forall_cons in H as [-> H]. apply list.Forall_cons in H as [-> _]. reflexivity.
Defined.

Definition antigravity_pool_account : AccountMember :=
  for_test_with_id "a1" (Antigravity false) 0.

Lemma rate_limit_isolated_witness :
  serves_at (record_cooldown cap_body no_env antigravity_pool_account
               [("retry-after", Some "60")] "" (Some "gemini-3-pro") 1000 0).1
    "claude-sonnet-4-5" 2000 = true.
Proof.
  rewrite (rate_limit_isolated cap_body no_env antigravity_pool_account _ _ "gemini-3-pro" _
             "gemini"); [reflexivity|reflexivity|by intros ?|discriminate|discriminate].
Defined.

(** A Cline cap notice that names another model than the one asked for benches both. *)
Theorem cline_cap_names_another :
  let after := (record_cooldown cap_body no_env cline_account [] "" (Some "m1") 1000 0).1 in
  quota_group_for cline_account "m1" ≠ quota_group_for cline_account "z-ai/glm-5" ∧
  serves_at cline_account "z-ai/glm-5" 2000 = true ∧
  serves_at after "z-ai/glm-5" 2000 = false ∧ serves_at after "m1" 2000 = false.
Proof. split_and!; [discriminate|vm_compute; reflexivity..]. Qed.

Definition empty_registry : Snapshot.RegistrySnapshot :=
  {| Snapshot.version := 0; Snapshot.snap_source := RegistryTypes.EmbeddedFallback;
     Snapshot.models := ∅; Snapshot.providers := ∅; Snapshot.aliases := ∅;
     Snapshot.exclusions := ∅ |}.

Lemma exhaustion_retry_after_witness :
  let m := set_health antigravity_pool_account (Cooldown 90000) in
  retry_after_header
    (exhaustion_failure_response (λ _, None)
       empty_registry [m] None (30 * 1000)) ≠ None.
Proof.
  cbn zeta. intros E.
  pose proof (proj1 (exhaustion_retry_after (λ _, None) empty_registry [set_health antigravity_pool_account (Cooldown 90000)]
                None 30 ltac:(discriminate))) as H.
  assert (H90 : 90 ≤ 30); [|lia]. apply (proj1 H E). vm_compute. left.
Defined.

Lemma metered_account_witness :
  member_may_serve_model (λ _, None)
    empty_registry antigravity_pool_account "gpt-5" = true.
Proof. apply metered_account_may_serve_anything. reflexivity. Defined.
