(* ===== verification/RelayRoute.v ===== *)
(** * Routing a request to accounts (crates/gateway/src/relay.rs, lines 3529-4145)

    From a requested model to the ordered accounts that may serve it: the model
    prefix and its resolution in the catalog, the provider classes that are loaded,
    the gates every account passes, the order of the candidates, the durable Claude
    binding and the choice among them.

    [AppState] holds what these functions and the relay loop read and change; the
    members of its pool are the shared account objects.  Clock reads are arguments. *)

From Stdlib Require Import Ascii.
From stdpp Require Import gmap strings list sorting.
From S2P Require Import Prelude Slots RustStr RegistryTypes RegistrySnapshot Types Router Lcp Scheduler Usage AffinityStore ClaudeBudget ClaudeResetOrder ClineUsage Account AccountModels ScopedKeys.
Import RustStr Usage Account Models.
Open Scope Z_scope.

Module Route.

(** ** Settings and state *)

Inductive ClaudeRouteMode := OauthFirst | ApiKeyFirst | ApiKeyOnly.

Global Instance ClaudeRouteMode_eq_dec : EqDecision ClaudeRouteMode.
Proof. solve_decision. Defined.

Record SuspectedAccount := { suspect_reason : string; suspect_at : Z }.

Record ApiKeyBinding := { bind_account : option string; bind_provider : option string }.

Abbreviation ScopedApiKey := Scoped.ScopedApiKey.

Record Settings := {
  request_retry : Z;
  max_retry_credentials : nat;
  max_retry_interval : Z;
  credit_codex_account_ids : list string;
  claude_route_mode : ClaudeRouteMode;
  claude_suspected_accounts : gmap string SuspectedAccount;
  claude_api_key_budgets : gmap string Z;
  session_affinity : option bool;
  session_affinity_lcp : bool;
  affinity_ttl_ms : Z;
  lcp_bounds : Lcp.Bounds;
}.

Record LastError := { error_unix_ms : Z; error_status : Z; error_message : string }.

Record AppState := {
  pool : PoolSnapshot;
  settings : Settings;
  router : AccountRouter.Router;
  scheduler : Scheduler.SchedulerRegistry;
  claude_budgets : Budget.BudgetTracker;
  claude_denials : Denials.DeniedTracker;
  claude_affinity : Affinity.AffinityStore;
  (** [claude_egress_clients]: whether the account's own client was built. *)
  egress_clients : gmap string bool;
  claude_reset_order : option (Z * gmap string nat);
  session_bindings : gmap string (string * Z);
  lcp : Lcp.Matcher;
  (** the monitor's allowlist and the last error per account *)
  monitored : option (gset string);
  last_errors : gmap string LastError;
  model_restrictions : bool;
  failed_over : Z;           (* u64 *)
  exposed_errors : Z;        (* u64 *)
  exposed_client_errors : Z; (* u64 *)
}.

(** Updates of one part. *)

Definition with_pool (st : AppState) (p : PoolSnapshot) : AppState :=
  {| pool := p; settings := settings st; router := router st; scheduler := scheduler st;
     claude_budgets := claude_budgets st; claude_denials := claude_denials st;
     claude_affinity := claude_affinity st; egress_clients := egress_clients st;
     claude_reset_order := claude_reset_order st; session_bindings := session_bindings st;
     lcp := lcp st; monitored := monitored st; last_errors := last_errors st;
     model_restrictions := model_restrictions st; failed_over := failed_over st;
     exposed_errors := exposed_errors st; exposed_client_errors := exposed_client_errors st |}.

Definition with_settings (st : AppState) (s : Settings) : AppState :=
  {| pool := pool st; settings := s; router := router st; scheduler := scheduler st;
     claude_budgets := claude_budgets st; claude_denials := claude_denials st;
     claude_affinity := claude_affinity st; egress_clients := egress_clients st;
     claude_reset_order := claude_reset_order st; session_bindings := session_bindings st;
     lcp := lcp st; monitored := monitored st; last_errors := last_errors st;
     model_restrictions := model_restrictions st; failed_over := failed_over st;
     exposed_errors := exposed_errors st; exposed_client_errors := exposed_client_errors st |}.

Definition with_router (st : AppState) (r : AccountRouter.Router) : AppState :=
  {| pool := pool st; settings := settings st; router := r; scheduler := scheduler st;
     claude_budgets := claude_budgets st; claude_denials := claude_denials st;
     claude_affinity := claude_affinity st; egress_clients := egress_clients st;
     claude_reset_order := claude_reset_order st; session_bindings := session_bindings st;
     lcp := lcp st; monitored := monitored st; last_errors := last_errors st;
     model_restrictions := model_restrictions st; failed_over := failed_over st;
     exposed_errors := exposed_errors st; exposed_client_errors := exposed_client_errors st |}.

Definition with_scheduler (st : AppState) (s : Scheduler.SchedulerRegistry) : AppState :=
  {| pool := pool st; settings := settings st; router := router st; scheduler := s;
     claude_budgets := claude_budgets st; claude_denials := claude_denials st;
     claude_affinity := claude_affinity st; egress_clients := egress_clients st;
     claude_reset_order := claude_reset_order st; session_bindings := session_bindings st;
     lcp := lcp st; monitored := monitored st; last_errors := last_errors st;
     model_restrictions := model_restrictions st; failed_over := failed_over st;
     exposed_errors := exposed_errors st; exposed_client_errors := exposed_client_errors st |}.

Definition with_denials (st : AppState) (d : Denials.DeniedTracker) : AppState :=
  {| pool := pool st; settings := settings st; router := router st; scheduler := scheduler st;
     claude_budgets := claude_budgets st; claude_denials := d;
     claude_affinity := claude_affinity st; egress_clients := egress_clients st;
     claude_reset_order := claude_reset_order st; session_bindings := session_bindings st;
     lcp := lcp st; monitored := monitored st; last_errors := last_errors st;
     model_restrictions := model_restrictions st; failed_over := failed_over st;
     exposed_errors := exposed_errors st; exposed_client_errors := exposed_client_errors st |}.

Definition with_durable (st : AppState) (a : Affinity.AffinityStore) : AppState :=
  {| pool := pool st; settings := settings st; router := router st; scheduler := scheduler st;
     claude_budgets := claude_budgets st; claude_denials := claude_denials st;
     claude_affinity := a; egress_clients := egress_clients st;
     claude_reset_order := claude_reset_order st; session_bindings := session_bindings st;
     lcp := lcp st; monitored := monitored st; last_errors := last_errors st;
     model_restrictions := model_restrictions st; failed_over := failed_over st;
     exposed_errors := exposed_errors st; exposed_client_errors := exposed_client_errors st |}.

Definition with_reset_order (st : AppState) (cached : option (Z * gmap string nat)) : AppState :=
  {| pool := pool st; settings := settings st; router := router st; scheduler := scheduler st;
     claude_budgets := claude_budgets st; claude_denials := claude_denials st;
     claude_affinity := claude_affinity st; egress_clients := egress_clients st;
     claude_reset_order := cached; session_bindings := session_bindings st; lcp := lcp st;
     monitored := monitored st; last_errors := last_errors st;
     model_restrictions := model_restrictions st; failed_over := failed_over st;
     exposed_errors := exposed_errors st; exposed_client_errors := exposed_client_errors st |}.

Definition with_bindings (st : AppState) (b : gmap string (string * Z)) : AppState :=
  {| pool := pool st; settings := settings st; router := router st; scheduler := scheduler st;
     claude_budgets := claude_budgets st; claude_denials := claude_denials st;
     claude_affinity := claude_affinity st; egress_clients := egress_clients st;
     claude_reset_order := claude_reset_order st; session_bindings := b; lcp := lcp st;
     monitored := monitored st; last_errors := last_errors st;
     model_restrictions := model_restrictions st; failed_over := failed_over st;
     exposed_errors := exposed_errors st; exposed_client_errors := exposed_client_errors st |}.

Definition with_lcp (st : AppState) (m : Lcp.Matcher) : AppState :=
  {| pool := pool st; settings := settings st; router := router st; scheduler := scheduler st;
     claude_budgets := claude_budgets st; claude_denials := claude_denials st;
     claude_affinity := claude_affinity st; egress_clients := egress_clients st;
     claude_reset_order := claude_reset_order st; session_bindings := session_bindings st;
     lcp := m; monitored := monitored st; last_errors := last_errors st;
     model_restrictions := model_restrictions st; failed_over := failed_over st;
     exposed_errors := exposed_errors st; exposed_client_errors := exposed_client_errors st |}.

Definition with_errors (st : AppState) (e : gmap string LastError) : AppState :=
  {| pool := pool st; settings := settings st; router := router st; scheduler := scheduler st;
     claude_budgets := claude_budgets st; claude_denials := claude_denials st;
     claude_affinity := claude_affinity st; egress_clients := egress_clients st;
     claude_reset_order := claude_reset_order st; session_bindings := session_bindings st;
     lcp := lcp st; monitored := monitored st; last_errors := e;
     model_restrictions := model_restrictions st; failed_over := failed_over st;
     exposed_errors := exposed_errors st; exposed_client_errors := exposed_client_errors st |}.

Definition with_restrictions (st : AppState) (b : bool) : AppState :=
  {| pool := pool st; settings := settings st; router := router st; scheduler := scheduler st;
     claude_budgets := claude_budgets st; claude_denials := claude_denials st;
     claude_affinity := claude_affinity st; egress_clients := egress_clients st;
     claude_reset_order := claude_reset_order st; session_bindings := session_bindings st;
     lcp := lcp st; monitored := monitored st; last_errors := last_errors st;
     model_restrictions := b; failed_over := failed_over st; exposed_errors := exposed_errors st;
     exposed_client_errors := exposed_client_errors st |}.

Definition with_counts (st : AppState) (fo ee ce : Z) : AppState :=
  {| pool := pool st; settings := settings st; router := router st; scheduler := scheduler st;
     claude_budgets := claude_budgets st; claude_denials := claude_denials st;
     claude_affinity := claude_affinity st; egress_clients := egress_clients st;
     claude_reset_order := claude_reset_order st; session_bindings := session_bindings st;
     lcp := lcp st; monitored := monitored st; last_errors := last_errors st;
     model_restrictions := model_restrictions st; failed_over := fo; exposed_errors := ee;
     exposed_client_errors := ce |}.

Definition state_members (st : AppState) : list AccountMember := members (pool st).

Definition is_codex_account_credit_enabled (s : Settings) (account : string) : bool :=
  existsb (λ i, eqs i account) (credit_codex_account_ids s).

(** ** Key scopes *)

Definition member_matches_api_key_binding (m : AccountMember) (binding : option ApiKeyBinding)
  : bool :=
  match binding with
  | None => true
  | Some b =>
      match bind_account b with Some account => eqs (member_id m) account | None => true end
      && match bind_provider b with
         | Some provider => eqs (provider_name m) provider
         | None => true
         end
  end.

Definition allow_list_admits (allow_list : list string) (candidate : string) : bool :=
  bool_decide (allow_list = [])
  || existsb (λ allowed, eqs allowed "*" || eqs allowed candidate) allow_list.

(** [Path::file_stem] of a file name: what precedes the last dot, unless the dot comes
    first. *)
Definition file_stem (name : string) : string :=
  match rsplit_once "."%char name with
  | Some (before, _) => if is_empty before then name else before
  | None => name
  end.

Definition names_account (m : AccountMember) (allowed : string) : bool :=
  let nonempty o := match o with
                    | Some v => negb (is_empty v) && eqs allowed v
                    | None => false
                    end in
  eqs allowed (member_id m)
  || match file_name (facts m) with
     | Some f => eqs allowed f || eqs allowed (file_stem f)
     | None => false
     end
  || nonempty (email (facts m)) || nonempty (account_id (facts m)).

Definition member_matches_scope (m : AccountMember) (scoped : option ScopedApiKey) : bool :=
  match scoped with
  | None => true
  | Some s =>
      if negb (allow_list_admits (Scoped.allowed_providers s) (provider_name m)) then false
      else if bool_decide (Scoped.allowed_accounts s = [])
              || existsb (λ allowed, eqs allowed "*") (Scoped.allowed_accounts s) then true
      else existsb (names_account m) (Scoped.allowed_accounts s)
  end.

(** ** Models *)

Definition member_provider_id (m : AccountMember) : option string :=
  match kind m with
  | KCodex => Some "codex"
  | KAntigravity => Some "antigravity"
  | KClaude => Some "claude"
  | KCursor => Some "cursor"
  | KKiro => Some "kiro"
  | KZcode => Some "zcode"
  | KVertex => Some "vertex"
  | KDevin => Some "devin"
  | KOpenCode => Some "opencode"
  | KGeneric => match Registry.ProviderId_canonical (provider_name m) with
                | Ok p => Some p
                | Err _ => None
                end
  end.

Inductive ModelPrefix := PrefixAnthropic | PrefixNekos.

Definition parse_model_prefix (model : string) : option ModelPrefix * string :=
  match strip_either "anthropic-" "anthropic/" model with
  | Some stripped => (Some PrefixAnthropic, stripped)
  | None =>
      match strip_either "nekos-" "nekos/" model with
      | Some stripped => (Some PrefixNekos, stripped)
      | None => (None, model)
      end
  end.

(** A catalog id that is [base] with an eight-digit date after it. *)
Definition dated_spelling (base i : string) : bool :=
  match strip_prefix base i with
  | Some suffix =>
      match strip_prefix "-" suffix with
      | Some date => (String.length date =? 8)%nat && all_bytes is_ascii_digit date
      | None => false
      end
  | None => false
  end.

Definition resolved_id (reg : Snapshot.RegistrySnapshot) (base : string) : string :=
  if is_some (Snapshot.models reg !! base) then base
  else if starts_with base "claude-" then
    match filter (λ i, dated_spelling base i = true) (btree_keys (Snapshot.models reg)) with
    | [target] => target
    | _ => base
    end
  else base.

(** The binding of a Claude model the catalog does not list. *)
Definition claude_fallback (canonical : string) : Snapshot.ResolvedModel :=
  {| Snapshot.canonical_id := canonical; Snapshot.descriptor := None;
     Snapshot.eligible_bindings :=
       [Registry.ProviderBinding_new "claude" PolicyClosed EmbeddedFallback];
     Snapshot.res_capabilities := ∅; Snapshot.res_source := EmbeddedFallback |}.

Definition resolve_model (reg : Snapshot.RegistrySnapshot) (requested : string)
  : result Registry.RegistryError Snapshot.ResolvedModel :=
  let base_model := (parse_model_prefix requested).2 in
  base_id ← Registry.ModelId_new base_model;
  if is_some (Snapshot.aliases reg !! base_id) then Snapshot.resolve reg base_model
  else
    let resolved_model_id := resolved_id reg base_model in
    canonical ← Registry.ModelId_new resolved_model_id;
    if Snapshot.excluded reg canonical None then Err (Registry.ModelExcluded canonical)
    else if starts_with resolved_model_id "claude-"
            && negb (is_some (Snapshot.models reg !! canonical)) then
      if Snapshot.excluded reg canonical (Some "claude") then Err (Registry.UnknownModel canonical)
      else Ok (claude_fallback canonical)
    else Snapshot.resolve reg resolved_model_id.

Record ResolvedProviderClass := {
  upstream_model : string;
  binding : Registry.ProviderBinding;
}.

Record ResolvedRoute := {
  canonical_model : string;
  capabilities : Capabilities;
  provider_classes : list ResolvedProviderClass;
}.

Definition loaded (ms : list AccountMember) (p : string) : bool :=
  existsb (λ m, bool_decide (member_provider_id m = Some p)) ms.

Definition has_required (required : option ModelCapability) (b : Registry.ProviderBinding) : bool :=
  match required with Some c => bool_decide (c ∈ Registry.capabilities b) | None => true end.

Definition resolve_route (pl : PoolSnapshot) (requested_model : option string)
    (required : option ModelCapability) : result Registry.RegistryError (option ResolvedRoute) :=
  match requested_model with
  | None => Ok None
  | Some requested =>
      resolved ← resolve_model (registry pl) requested;
      let usable := filter (λ b, has_required required b = true)
                      (Snapshot.eligible_bindings resolved) in
      Ok (Some {| canonical_model := Snapshot.canonical_id resolved;
                  capabilities := Snapshot.res_capabilities resolved;
                  provider_classes :=
                    omap (λ b, if loaded (members pl) (Registry.provider_id b)
                               then Some {| upstream_model := Registry.effective_upstream_id b
                                                                (Snapshot.canonical_id resolved);
                                            binding := b |}
                               else None) usable |})
  end.


(** ** The gates *)

Section gates.
Context (url_host : string → option string) (embedded : Snapshot.RegistrySnapshot).

Definition account_declares_binding_model (pl : PoolSnapshot) (m : AccountMember)
    (requested canonical : string) (provider : ResolvedProviderClass) : bool :=
  if names_any (unsupported_models m) requested canonical (upstream_model provider) then false
  else if bool_decide (kind m = KDevin) then
    is_devin_model_eligible pl (member_id m) requested
    || is_devin_model_eligible pl (member_id m) canonical
    || is_devin_model_eligible pl (member_id m) (upstream_model provider)
  else if bool_decide (kind m = KAntigravity) then
    if match account_permissions pl (member_id m) with
       | Some p => negb (is_some (antigravity_models p))
       | None => false
       end
    then negb (bool_decide (Registry.source (binding provider) = Discovered))
    else is_antigravity_model_eligible embedded pl (member_id m) (upstream_model provider)
  else match generic_models m with
       | None => true
       | Some (_, models) =>
           bool_decide (models = []) || names_any models requested canonical (upstream_model provider)
       end.

(** The quota tests of an account, at [now] seconds: a Codex account over its hard
    limit or out of included quota it may not exceed, a spent Claude subscription. *)
Definition quota_admits (s : Settings) (scheduler_fail_open : bool) (m : AccountMember)
    (model : option string) (now : Z) : bool :=
  let u := usage_snapshot_at m now in
  if bool_decide (kind m = KCodex)
     && (is_codex_hard_limit_reached u
         || (negb (is_codex_account_credit_enabled s (member_id m)) && negb scheduler_fail_open
             && is_codex_included_quota_exhausted u model now))
  then false
  else negb (bool_decide (kind m = KClaude) && is_claude_included_quota_exhausted u now).

Definition claude_egress_invalid (st : AppState) (m : AccountMember) : bool :=
  bool_decide (kind m = KClaude) && bool_decide (egress_clients st !! member_id m = Some false).

Definition claude_member_routable (st : AppState) (m : AccountMember) : bool :=
  if negb (bool_decide (kind m = KClaude)) || is_nekos_relay url_host m then true
  else if is_some (claude_suspected_accounts (settings st) !! member_id m) then false
  else if claude_egress_invalid st m then false
  else if is_some (relay_api_key m) then
    negb (Budget.is_over (claude_budgets st) (claude_api_key_budgets (settings st)) (member_id m))
  else negb (bool_decide (claude_route_mode (settings st) = ApiKeyOnly)).

Definition scheduler_fail_open (st : AppState) : bool :=
  Scheduler.snap_enabled (Scheduler.snapshot (scheduler st))
  && Scheduler.fail_open (Scheduler.snapshot (scheduler st)).

(** The tests both halves of [eligible_indices] make first. *)
Definition admitted (st : AppState) (now_ms : Z) (model : option string)
    (bnd : option ApiKeyBinding) (scoped : option ScopedApiKey) (m : AccountMember) : bool :=
  is_available (member_health m) now_ms
  && Scheduler.permits (scheduler st) (member_id m)
  && member_matches_api_key_binding m bnd
  && member_matches_scope m scoped
  && quota_admits (settings st) (scheduler_fail_open st) m model (Z.quot now_ms 1000)
  && claude_member_routable st m.

Definition lane_admits (prefix : option ModelPrefix) (m : AccountMember) : bool :=
  let claude := bool_decide (kind m = KClaude) in
  let relay := is_nekos_relay url_host m in
  match prefix with
  | Some PrefixAnthropic => claude && negb relay
  | Some PrefixNekos => claude && relay
  | None => negb (claude && relay)
  end.

Definition class_for (route : ResolvedRoute) (m : AccountMember) : option ResolvedProviderClass :=
  List.find (λ p, bool_decide (member_provider_id m = Some (Registry.provider_id (binding p))))
    (provider_classes route).

(** The body of the loop over the members: the priority the account is ranked by. *)
Definition rank_of (st : AppState) (route : ResolvedRoute) (requested : string) (now_ms : Z)
    (bnd : option ApiKeyBinding) (scoped : option ScopedApiKey) (m : AccountMember) : option Z :=
  if negb (admitted st now_ms (Some (canonical_model route)) bnd scoped m) then None
  else if negb (lane_admits (parse_model_prefix requested).1 m) then None
  else if negb (group_available m (canonical_model route) now_ms) then None
  else
    provider ← class_for route m;
    if account_declares_binding_model (pool st) m requested (canonical_model route) provider
    then Some (Registry.priority (binding provider)) else None.

Definition is_claude_oauth (m : AccountMember) : bool :=
  bool_decide (kind m = KClaude) && negb (is_nekos_relay url_host m)
  && negb (is_some (relay_api_key m)).

Definition is_claude_api_key (m : AccountMember) : bool :=
  bool_decide (kind m = KClaude) && negb (is_nekos_relay url_host m)
  && is_some (relay_api_key m).

Definition at_index (p : AccountMember → bool) (ms : list AccountMember) (index : nat) : bool :=
  match ms !! index with Some m => p m | None => false end.

(** [sort_by_key(|index| !is_claude_api_key(..))] inside the Claude slots. *)
Definition prefer_claude_api_keys (ordered : list nat) (ms : list AccountMember) : list nat :=
  let slots := slots_of (at_index (λ m, is_claude_oauth m || is_claude_api_key m) ms) 0 ordered in
  let claude := omap (λ slot, ordered !! slot) slots in
  let sorted := sort_by (on_key bool_ltb (λ i, negb (at_index is_claude_api_key ms i))) claude in
  foldl (λ l si, <[si.1 := si.2]> l) ordered (zip slots sorted).

(** Pool order, by descending priority: the sort is stable. *)
Definition ranked_indices (st : AppState) (route : ResolvedRoute) (requested : string)
    (now_ms : Z) (bnd : option ApiKeyBinding) (scoped : option ScopedApiKey) : list nat :=
  let ranked := omap (λ im : nat * AccountMember,
                        (λ prio, (im.1, prio)) <$>
                          rank_of st route requested now_ms bnd scoped im.2)
                  (imap pair (state_members st)) in
  fst <$> sort_by (flip (on_key Z.ltb snd)) ranked.

(** Only the cached reset order changes. *)
Definition eligible_indices (st : AppState) (route : option ResolvedRoute)
    (requested_model : option string) (now_ms : Z) (bnd : option ApiKeyBinding)
    (scoped : option ScopedApiKey) : list nat * AppState :=
  let ms := state_members st in
  match route with
  | None =>
      (fst <$> filter (λ im : nat * AccountMember, admitted st now_ms None bnd scoped im.2 = true)
                 (imap pair ms), st)
  | Some route =>
      let requested := default (canonical_model route) requested_model in
      let ordered := ranked_indices st route requested now_ms bnd scoped in
      let now := Z.quot now_ms 1000 in
      let '(rk, cached) := ResetOrder.ranks (claude_reset_order st) ms now in
      let ordered := ResetOrder.reorder_claude_slots ordered ms rk now in
      (if bool_decide (claude_route_mode (settings st) = ApiKeyFirst)
       then prefer_claude_api_keys ordered ms else ordered,
       with_reset_order st cached)
  end.

(** ** The durable binding *)

Definition BOUND_COOLDOWN_HOLD_MS : Z := 120000.

Definition route_serves_claude (route : option ResolvedRoute) : bool :=
  match route with
  | None => true
  | Some r => existsb (λ p, eqs (Registry.provider_id (binding p)) "claude") (provider_classes r)
  end.

Inductive BoundMember :=
  | BoundEligible
  | ShortCooldown (retry_after_secs : Z)
  | Unusable.

Definition bound_member_state (st : AppState) (route : option ResolvedRoute)
    (requested_model : option string) (bound_id : string) (eligible : list nat)
    (bnd : option ApiKeyBinding) (scoped : option ScopedApiKey) (now_ms : Z) : BoundMember :=
  let ms := state_members st in
  match position (λ m, eqs (member_id m) bound_id) ms with
  | None => Unusable
  | Some index =>
      match ms !! index with
      | None => Unusable (* [position] is in range *)
      | Some m =>
          if negb (is_claude_oauth m) then Unusable
          else if bool_decide (index ∈ eligible) then BoundEligible
          else match member_health m with
          | Cooldown until =>
              let remaining_ms := until - now_ms in
              if (remaining_ms <=? 0) || (BOUND_COOLDOWN_HOLD_MS <? remaining_ms) then Unusable
              else if negb (member_matches_api_key_binding m bnd)
                      || negb (member_matches_scope m scoped)
                      || negb (claude_member_routable st m)
                      || is_claude_included_quota_exhausted
                           (usage_snapshot_at m (Z.quot now_ms 1000)) (Z.quot now_ms 1000)
              then Unusable
              else
                let held := ShortCooldown (Z.quot (remaining_ms + 999) 1000) in
                match route with
                | None => held
                | Some r =>
                    let model := default (canonical_model r) requested_model in
                    let declared :=
                      existsb (λ p,
                        bool_decide (member_provider_id m = Some (Registry.provider_id (binding p)))
                        && account_declares_binding_model (pool st) m model (canonical_model r) p)
                        (provider_classes r) in
                    if negb declared || negb (group_available m (canonical_model r) until)
                    then Unusable else held
                end
          | _ => Unusable
          end
      end
  end.

(** ** The choice *)

(** The candidates of one selection and their pool indices; [None] is an index
    outside the pool. *)
Fixpoint candidates (ms : list AccountMember) (keep : AccountMember → bool)
    (eligible exclude : list nat) : option (list (nat * AccountMember)) :=
  match eligible with
  | [] => Some []
  | index :: rest =>
      if bool_decide (index ∈ exclude) then candidates ms keep rest exclude
      else
        m ← ms !! index;
        cs ← candidates ms keep rest exclude;
        Some (if keep m then (index, m) :: cs else cs)
  end.

Definition bound_provider (st : AppState) (hint : SessionHint) (eligible exclude : list nat)
  : option string :=
  key ← affinity_key hint;
  bound_id ← AccountRouter.bound_affinity_member (AccountRouter.state (router st)) key;
  index ← List.find (λ i, negb (bool_decide (i ∈ exclude))
                          && at_index (λ m, eqs (member_id m) bound_id) (state_members st) i)
            eligible;
  state_members st !! index ≫= member_provider_id.

Definition select_index (st : AppState) (hint : SessionHint) (eligible exclude : list nat)
    (now_ms : Z) : option nat * AppState :=
  let keep := match bound_provider st hint eligible exclude with
              | Some p => λ m, bool_decide (member_provider_id m = Some p)
              | None => λ _, true
              end in
  match candidates (state_members st) keep eligible exclude with
  | None => (None, st)
  | Some cs =>
      let '(choice, r) := AccountRouter.select (router st) cs.*2 hint now_ms in
      (choice ≫= λ i, cs.*1 !! i, with_router st r)
  end.

Definition provider_for_member (route : ResolvedRoute) (m : AccountMember)
  : option ResolvedProviderClass :=
  p ← member_provider_id m;
  List.find (λ c, eqs (Registry.provider_id (binding c)) p) (provider_classes route).

(** [eligible_account_ids_for_model]. *)
Definition eligible_account_ids_for_model (st : AppState) (model : string) (now_ms : Z)
  : list string * AppState :=
  match resolve_route (pool st) (Some model) None with
  | Ok (Some route) =>
      let '(eligible, st) := eligible_indices st (Some route) (Some model) now_ms None None in
      (omap (λ i, member_id <$> state_members st !! i) eligible, st)
  | _ => ([], st)
  end.

(** [routable_accounts_for_model] (runtime_state.rs). *)
Definition routable_binding (pl : PoolSnapshot) (resolved : Snapshot.ResolvedModel) (model : string)
    (m : AccountMember) (b : Registry.ProviderBinding) : bool :=
  let canonical := Snapshot.canonical_id resolved in
  let upstream := Registry.effective_upstream_id b canonical in
  let generic := match generic_models m with
                 | None => true
                 | Some (_, models) =>
                     bool_decide (models = []) || names_any models model canonical upstream
                 end in
  match Registry.ProviderId_canonical (provider_name m) with
  | Ok p =>
      if negb (eqs p (Registry.provider_id b)) then false
      else if names_any (unsupported_models m) model canonical upstream then false
      else match permissions pl !! member_id m with
           | Some perm =>
               if disabled perm then false
               else if bool_decide (provider_kind perm = KDevin)
               then perm_supports_devin perm model canonical upstream
               else if bool_decide (provider_kind perm = KAntigravity) then
                 if is_some (antigravity_models perm)
                 then perm_supports_antigravity embedded perm model canonical upstream
                 else negb (bool_decide (Registry.source b = Discovered))
               else generic
           | None =>
               if bool_decide (kind m = KDevin) then supports_devin_model m model canonical upstream
               else if bool_decide (kind m = KAntigravity) then
                 supports_antigravity_model embedded m model
                 || supports_antigravity_model embedded m canonical
                 || supports_antigravity_model embedded m upstream
               else generic
           end
  | Err _ => false
  end.

Definition routable_accounts_for_model (pl : PoolSnapshot) (model : string) : list AccountMember :=
  match resolve_model (registry pl) model with
  | Err _ => []
  | Ok resolved =>
      filter (λ m, lane_admits (parse_model_prefix model).1 m
                   && existsb (routable_binding pl resolved model m)
                        (Snapshot.eligible_bindings resolved) = true) (members pl)
  end.
End gates.

End Route.
