(* ===== verification/RouteProps.v ===== *)
(** * Properties of routing

    The candidate list holds exactly the accounts every gate admits, each once, in
    priority order; exclusions and key scopes reach it; the durable binding's hold is
    bounded; and a choice is always a candidate, the bound one when there is one. *)

From Stdlib Require Import Ascii.
From stdpp Require Import gmap strings list sorting.
From S2P Require Import Prelude Slots RustStr RegistryTypes RegistrySnapshot RegistryProps RegistryResolve Types Router RouterProps Scheduler Usage AffinityStore ClaudeBudget ClaudeResetOrder ClineUsage Account AccountModels RelayRoute.
Import RustStr Usage Account Models Route.
Open Scope Z_scope.

Section route.
Context (url_host : string → option string) (embedded : Snapshot.RegistrySnapshot).

(** ** The candidates *)

(** What an account needs to be a candidate for a request. *)
Record serves (st : AppState) (route : ResolvedRoute) (requested : string) (now_ms : Z)
    (bnd : option ApiKeyBinding) (scoped : option ScopedApiKey) (m : AccountMember) (prio : Z)
  : Prop := {
  s_available : is_available (member_health m) now_ms = true;
  s_permitted : Scheduler.permits (scheduler st) (member_id m) = true;
  s_binding : member_matches_api_key_binding m bnd = true;
  s_scope : member_matches_scope m scoped = true;
  s_quota : quota_admits (settings st) (scheduler_fail_open st) m (Some (canonical_model route))
              (Z.quot now_ms 1000) = true;
  s_routable : claude_member_routable url_host st m = true;
  s_lane : lane_admits url_host (parse_model_prefix requested).1 m = true;
  s_group : group_available m (canonical_model route) now_ms = true;
  s_class : ∃ c, class_for route m = Some c ∧
                 account_declares_binding_model embedded (pool st) m requested
                   (canonical_model route) c = true ∧
                 prio = Registry.priority (binding c);
}.

Lemma rank_of_iff st route requested now_ms bnd scoped m prio :
  rank_of url_host embedded st route requested now_ms bnd scoped m = Some prio ↔
  serves st route requested now_ms bnd scoped m prio.
Proof.
  unfold rank_of, admitted. split.
  - intros H. repeat (case_if; [discriminate|]). bool_to_prop.
    destruct (class_for route m) as [c|] eqn:Hc; [|done]. cbn [mbind option_bind] in H.
    destruct (account_declares_binding_model _ _ _ _ _ _) eqn:Hd; [|done]. injection H as <-.
    split; eauto.
  - intros [H1 H2 H3 H4 H5 H6 H7 H8 (c & Hc & Hd & ->)].
    rewrite H1, H2, H3, H4, H5, H6, H7, H8, Hc. cbn. by rewrite Hd.
Qed.

(** The (index, priority) pairs the loop collects. *)
Lemma elem_of_ranked_pairs st route requested now_ms bnd scoped i prio :
  (i, prio) ∈ omap (λ im : nat * AccountMember,
                 (λ prio, (im.1, prio)) <$>
                   rank_of url_host embedded st route requested now_ms bnd scoped im.2)
                (imap pair (state_members st)) ↔
  ∃ m, state_members st !! i = Some m ∧ serves st route requested now_ms bnd scoped m prio.
Proof.
  rewrite list_elem_of_omap. split.
  - intros ([j m] & Hin & Hr). cbn [fst snd] in Hr.
    apply elem_of_lookup_imap in Hin as (k & x & [= -> ->] & Hk).
    destruct (rank_of _ _ _ _ _ _ _ _ _) as [q|] eqn:Hq; [|done]. injection Hr as -> ->.
    exists x. by rewrite <- rank_of_iff.
  - intros (m & Hm & Hs). exists (i, m). split.
    + apply elem_of_lookup_imap. eauto.
    + cbn. apply rank_of_iff in Hs. by rewrite Hs.
Qed.

Lemma ranked_fst_sublist {A} (r : A → option Z) (xs : list (nat * A)) :
  fst <$> omap (λ im : nat * A, (λ prio, (im.1, prio)) <$> r im.2) xs `sublist_of` xs.*1.
Proof.
  induction xs as [|[i a] xs IH]; [done|]. cbn. destruct (r a); cbn; by constructor.
Qed.

Lemma imap_pair_NoDup {A} (l : list A) : NoDup (imap pair l).*1.
Proof.
  apply NoDup_alt. intros i j x. rewrite !list_lookup_fmap, !list_lookup_imap.
  destruct (l !! i), (l !! j); cbn; congruence.
Qed.

Lemma ranked_NoDup st route requested now_ms bnd scoped :
  NoDup (ranked_indices url_host embedded st route requested now_ms bnd scoped).
Proof.
  unfold ranked_indices. rewrite sort_by_Permutation.
  eapply sublist_NoDup; [apply (imap_pair_NoDup (state_members st))|apply ranked_fst_sublist].
Qed.

(** The registry priority of the binding that would serve a pool index. *)
Definition prio_at (st : AppState) (route : ResolvedRoute) (i : nat) : Z :=
  match state_members st !! i with
  | Some m => match class_for route m with Some c => Registry.priority (binding c) | None => 0 end
  | None => 0
  end.

Local Instance prio_sw : StrictWeak (flip (on_key Z.ltb (snd : nat * Z → Z))).
Proof. apply flip_sw, on_key_sw, Z_ltb_sw. Qed.

Lemma ranked_sorted st route requested now_ms bnd scoped :
  StronglySorted (λ a b, b ≤ a)
    (prio_at st route <$> ranked_indices url_host embedded st route requested now_ms bnd scoped).
Proof.
  unfold ranked_indices. set (pairs := omap _ _). rewrite <- list_fmap_compose.
  assert (Hp : ∀ ip, ip ∈ sort_by (flip (on_key Z.ltb snd)) pairs → prio_at st route ip.1 = ip.2).
  { intros [i q] Hin. rewrite sort_by_elem_of in Hin.
    apply elem_of_ranked_pairs in Hin as (m & Hm & [_ _ _ _ _ _ _ _ (c & Hc & _ & ->)]).
    unfold prio_at. cbn. by rewrite Hm, Hc. }
  pose proof (sort_by_sorted (flip (on_key Z.ltb snd)) pairs) as Hs.
  induction Hs as [|[i q] l _ IH Hall]; cbn [fmap list_fmap]; [constructor|].
  constructor; [apply IH; intros ip Hip; apply Hp; by right|].
  apply list.Forall_forall. intros x Hx. apply list_elem_of_fmap in Hx as ([j q'] & -> & Hin).
  rewrite list.Forall_forall in Hall. specialize (Hall _ Hin). unfold flip, on_key in Hall.
  cbn [snd] in Hall. bool_to_prop.
  pose proof (Hp (j, q') ltac:(by right)) as Ej. pose proof (Hp (i, q) ltac:(left)) as Ei.
  unfold compose. rewrite Ej, Ei. exact Hall.
Qed.

(** Claude accounts of either kind are served by the same binding. *)
Lemma claude_same_prio st route i j :
  at_index (λ m, bool_decide (kind m = KClaude)) (state_members st) i = true →
  at_index (λ m, bool_decide (kind m = KClaude)) (state_members st) j = true →
  prio_at st route i = prio_at st route j.
Proof.
  unfold at_index, prio_at, class_for, member_provider_id.
  destruct (state_members st !! i) as [a|], (state_members st !! j) as [b|]; try done.
  intros Ha Hb. bool_to_prop. by rewrite Ha, Hb.
Qed.

Lemma claude_at_kind ms i :
  ResetOrder.claude_at ms i = true → at_index (λ m, bool_decide (kind m = KClaude)) ms i = true.
Proof.
  unfold ResetOrder.claude_at, at_index, ResetOrder.is_claude_subscription. destruct (ms !! i); [|done].
  intros [H _]%andb_true_iff. exact H.
Qed.

Lemma claude_any_kind ms i :
  at_index (λ m, is_claude_oauth url_host m || is_claude_api_key url_host m) ms i = true →
  at_index (λ m, bool_decide (kind m = KClaude)) ms i = true.
Proof.
  unfold at_index, is_claude_oauth, is_claude_api_key. destruct (ms !! i); [|done].
  by destruct (bool_decide _).
Qed.

(** Both Claude orderings permute the ranked list and leave its priorities. *)
Lemma eligible_perm st route requested_model now_ms bnd scoped :
  let requested := default (canonical_model route) requested_model in
  let ranked := ranked_indices url_host embedded st route requested now_ms bnd scoped in
  let r := (eligible_indices url_host embedded st (Some route) requested_model now_ms bnd scoped).1 in
  r ≡ₚ ranked ∧ prio_at st route <$> r = prio_at st route <$> ranked.
Proof.
  cbn zeta. unfold eligible_indices.
  set (ranked := ranked_indices _ _ _ _ _ _ _ _).
  destruct (ResetOrder.ranks _ _ _) as [rk cached]. cbn [fst].
  set (ms := state_members st). set (now := Z.quot now_ms 1000).
  change (ResetOrder.reorder_claude_slots ranked ms rk now)
    with (sort_slots (ResetOrder.claude_at ms) (ResetOrder.slot_ltb ms rk now) ranked).
  set (l1 := sort_slots _ _ ranked).
  assert (H1 : l1 ≡ₚ ranked ∧ prio_at st route <$> l1 = prio_at st route <$> ranked).
  { split; [by apply sort_slots_spec; apply _|]. apply sort_slots_fmap; [apply _|].
    intros i j _ _ Hi Hj. by apply claude_same_prio; apply claude_at_kind. }
  case_if; [|done].
  set (q := at_index (λ m, is_claude_oauth url_host m || is_claude_api_key url_host m) ms).
  change (prefer_claude_api_keys url_host l1 ms) with
    (sort_slots q (on_key bool_ltb (λ i, negb (at_index (is_claude_api_key url_host) ms i))) l1).
  destruct H1 as [Hp Hf]. split.
  - etrans; [by apply sort_slots_spec; apply _|done].
  - rewrite <- Hf. apply sort_slots_fmap; [apply _|].
    intros i j _ _ Hi Hj. by apply claude_same_prio; apply claude_any_kind.
Qed.

(** C14: Eligibility is exact.  The candidate list of a request holds every pool index
    whose account passes all gates - health, scheduler, the key's binding and scope,
    quota, the Claude safety gates, the model's lane, its cooldowns, and a provider
    class of the route that declares the model - no other index, and none twice. *)
Theorem eligible_exact st route requested_model now_ms bnd scoped :
  let requested := default (canonical_model route) requested_model in
  let r := (eligible_indices url_host embedded st (Some route) requested_model now_ms bnd scoped).1 in
  NoDup r ∧
  ∀ i, i ∈ r ↔ ∃ m prio, state_members st !! i = Some m ∧
                         serves st route requested now_ms bnd scoped m prio.
Proof.
  cbn zeta. destruct (eligible_perm st route requested_model now_ms bnd scoped) as [Hp _].
  split; [rewrite Hp; apply ranked_NoDup|]. intros i. rewrite Hp. unfold ranked_indices.
  rewrite list_elem_of_fmap. split.
  - intros ([j q] & -> & Hin). rewrite sort_by_elem_of in Hin.
    apply elem_of_ranked_pairs in Hin as (m & Hm & Hs). eauto.
  - intros (m & prio & Hm & Hs). exists (i, prio). split; [done|]. rewrite sort_by_elem_of.
    apply elem_of_ranked_pairs. eauto.
Qed.

(** Candidates come in priority order.  Whatever the Claude orderings do, an account
    of a higher registry priority is never behind one of a lower priority. *)
Theorem eligible_priority_order st route requested_model now_ms bnd scoped :
  StronglySorted (λ a b, b ≤ a)
    (prio_at st route <$>
       (eligible_indices url_host embedded st (Some route) requested_model now_ms bnd scoped).1).
Proof.
  destruct (eligible_perm st route requested_model now_ms bnd scoped) as [_ ->].
  apply ranked_sorted.
Qed.

(** ** Claude keys first *)

Lemma sorted_filter_lookup (R : nat → nat → Prop) (q : nat → bool) l : ∀ k k' i j,
  StronglySorted R (filter (λ x, q x = true) l) → (k < k')%nat →
  l !! k = Some i → l !! k' = Some j → q i = true → q j = true → R i j.
Proof.
  induction l as [|x l IH]; intros k k' i j Hs Hlt Hk Hk' Hi Hj; [done|].
  destruct k' as [|k']; [lia|]. cbn in Hk'. rewrite filter_cons in Hs.
  assert (Hj' : j ∈ filter (λ x, q x = true) l).
  { apply list_elem_of_filter. split; [done|by eapply list_elem_of_lookup_2]. }
  destruct k as [|k]; cbn in Hk.
  - injection Hk as ->. rewrite decide_True in Hs by done.
    apply StronglySorted_inv in Hs as [_ Hs]. rewrite list.Forall_forall in Hs. by apply Hs.
  - case_decide; [apply StronglySorted_inv in Hs as [Hs _]|]; eapply (IH k k'); eauto; lia.
Qed.

(** Under [ApiKeyFirst] no Claude subscription account precedes a Claude API-key
    account in the candidate list. *)
Theorem api_keys_first st route requested_model now_ms bnd scoped k k' i j :
  claude_route_mode (settings st) = ApiKeyFirst →
  let r := (eligible_indices url_host embedded st (Some route) requested_model now_ms bnd scoped).1 in
  r !! k = Some i → r !! k' = Some j →
  at_index (is_claude_oauth url_host) (state_members st) i = true →
  at_index (is_claude_api_key url_host) (state_members st) j = true →
  (k' < k)%nat.
Proof.
  intros Hmode. cbn zeta. unfold eligible_indices.
  destruct (ResetOrder.ranks _ _ _) as [rk cached]. cbn [fst].
  rewrite bool_decide_eq_true_2 by done. set (ms := state_members st). set (l := ResetOrder.reorder_claude_slots _ _ _ _).
  set (q := at_index (λ m, is_claude_oauth url_host m || is_claude_api_key url_host m) ms).
  set (ltb := on_key bool_ltb (λ i, negb (at_index (is_claude_api_key url_host) ms i))).
  change (prefer_claude_api_keys url_host l ms) with (sort_slots q ltb l).
  destruct (sort_slots_spec q ltb l) as (_ & _ & _ & Hs). intros Hk Hk' Hi Hj.
  assert (Hqi : q i = true).
  { unfold q, at_index in *. destruct (ms !! i); [|done]. by rewrite Hi. }
  assert (Hqj : q j = true).
  { unfold q, at_index in *. destruct (ms !! j); [|done]. by rewrite Hj, orb_true_r. }
  destruct (lt_eq_lt_dec k' k) as [[Hlt|Heq]|Hlt]; [done| |].
  - exfalso. subst k'. rewrite Hk in Hk'. injection Hk' as <-.
    unfold at_index, is_claude_oauth, is_claude_api_key in *. destruct (ms !! i); [|done].
    by destruct (is_some _), (bool_decide _), (negb _).
  - exfalso. pose proof (sorted_filter_lookup _ q _ k k' i j Hs Hlt Hk Hk' Hqi Hqj) as Hf.
    unfold ltb, on_key in Hf. rewrite Hj in Hf.
    assert (Hni : at_index (is_claude_api_key url_host) ms i = false).
    { unfold at_index, is_claude_oauth, is_claude_api_key in *. destruct (ms !! i); [|done].
      by destruct (is_some _), (bool_decide _), (negb _). }
    by rewrite Hni in Hf.
Qed.

(** ** Exclusions *)

Lemma resolve_admits reg req r b :
  Snapshot.resolve reg req = Ok r → b ∈ Snapshot.eligible_bindings r →
  Snapshot.excluded reg (Snapshot.canonical_id r) None = false ∧
  Snapshot.excluded reg (Snapshot.canonical_id r) (Some (Registry.provider_id b)) = false.
Proof.
  intros (_ & He & Hd & _ & Hel)%resolve_steps Hb. split; [done|].
  destruct (Snapshot.descriptor r) as [d|]; rewrite Hel in Hb.
  - by apply eligible_cases in Hb as [[Hx _]|(_ & Hx & _)].
  - by apply synthesize_admitted in Hb as (Hx & _).
Qed.

Lemma resolve_model_admits reg req r b :
  resolve_model reg req = Ok r → b ∈ Snapshot.eligible_bindings r →
  Snapshot.excluded reg (Snapshot.canonical_id r) None = false ∧
  Snapshot.excluded reg (Snapshot.canonical_id r) (Some (Registry.provider_id b)) = false.
Proof.
  unfold resolve_model. intros (base & _ & H)%rbind_Ok Hb.
  case_if; [by eapply resolve_admits|]. apply rbind_Ok in H as (c & _ & H).
  case_if; [done|]. case_if; [|by eapply resolve_admits]. case_if; [done|].
  injection H as <-. cbn in *. by apply list_elem_of_singleton in Hb as ->.
Qed.

(** An excluded provider is never dialled.  Every provider class of a resolved route
    has a loaded account, and its binding is not excluded - neither for its provider
    nor globally - whichever way the model was resolved: alias, catalog entry, dated
    spelling, open provider or the built-in Claude fallback. *)
Theorem route_respects_exclusions pl requested required route c :
  resolve_route pl (Some requested) required = Ok (Some route) → c ∈ provider_classes route →
  Snapshot.excluded (registry pl) (canonical_model route) None = false ∧
  Snapshot.excluded (registry pl) (canonical_model route)
    (Some (Registry.provider_id (binding c))) = false ∧
  has_required required (binding c) = true ∧
  ∃ m, m ∈ members pl ∧ member_provider_id m = Some (Registry.provider_id (binding c)).
Proof.
  unfold resolve_route. intros (r & Hr & H)%rbind_Ok Hc. injection H as <-.
  cbn [provider_classes canonical_model] in *. apply list_elem_of_omap in Hc as (b & Hb & Hl).
  destruct (loaded _ _) eqn:Hload; [|done]. injection Hl as <-. cbn [binding].
  apply list_elem_of_filter in Hb as [Hreq Hb].
  destruct (resolve_model_admits _ _ _ _ Hr Hb). split_and!; [done..|].
  unfold loaded in Hload. apply existsb_exists in Hload as (m & Hm & Hid). bool_to_prop.
  exists m. split; [by apply list_elem_of_In|done].
Qed.

(** ** The durable binding *)

(** A held session is held for at most two minutes.  When the durable binding answers
    "cooling down", the bound account exists, is not a candidate, is in a cooldown
    that ends within [BOUND_COOLDOWN_HOLD_MS], and the seconds the client is told to
    wait are the remaining time rounded up: between 1 and 120, never too few and
    never a whole second too many. *)
Theorem hold_bounds st route requested_model bound eligible bnd scoped now_ms secs :
  bound_member_state url_host embedded st route requested_model bound eligible bnd scoped now_ms
    = ShortCooldown secs →
  ∃ i m until, state_members st !! i = Some m ∧ member_id m = bound ∧ (i ∉ eligible) ∧
    is_claude_oauth url_host m = true ∧ member_health m = Cooldown until ∧
    claude_member_routable url_host st m = true ∧ member_matches_scope m scoped = true ∧
    1 ≤ secs ≤ 120 ∧ until ≤ now_ms + secs * 1000 < until + 1000.
Proof.
  unfold bound_member_state. destruct (position _ _) as [i|] eqn:Hpos; [|done].
  apply position_Some in Hpos as (m & Hm & Hid & _). rewrite Hm.
  unfold eqs in Hid. bool_to_prop.
  destruct (is_claude_oauth url_host m) eqn:Ho; cbn [negb]; [|done].
  destruct (bool_decide (i ∈ eligible)) eqn:Hel; [done|]. bool_to_prop.
  destruct (member_health m) as [|until| |] eqn:Hh; try done.
  destruct ((until - now_ms <=? 0) || _) eqn:Hr; [done|].
  destruct (negb (member_matches_api_key_binding m bnd) || _ || _ || _) eqn:Hg; [done|].
  bool_to_prop. unfold BOUND_COOLDOWN_HOLD_MS in *. intros Hs.
  assert (secs = Z.quot (until - now_ms + 999) 1000) as ->.
  { destruct route as [r|]; [|congruence]. case_if; [done|congruence]. }
  exists i, m, until. split_and!; try done; rewrite Z.quot_div_nonneg by lia;
    pose proof (Z.div_mod (until - now_ms + 999) 1000 ltac:(lia));
    pose proof (Z.mod_pos_bound (until - now_ms + 999) 1000 ltac:(lia)); lia.
Qed.

(** ** The choice *)

Lemma candidates_spec ms keep eligible exclude cs :
  candidates ms keep eligible exclude = Some cs →
  (∀ i m, (i, m) ∈ cs ↔ i ∈ eligible ∧ (i ∉ exclude) ∧ ms !! i = Some m ∧ keep m = true).
Proof.
  revert cs. induction eligible as [|e es IH]; intros cs; cbn [candidates].
  - intros [= <-] i m. split; [by intros ?%elem_of_nil|by intros [?%elem_of_nil _]].
  - case_bool_decide as Hex.
    + intros H i m. rewrite (IH _ H). set_solver.
    + destruct (ms !! e) as [a|] eqn:Ha; [|done]. cbn [mbind option_bind].
      destruct (candidates ms keep es exclude) as [cs'|]; [|done]. cbn [mbind option_bind].
      specialize (IH _ eq_refl). intros [= <-] i m. destruct (keep a) eqn:Hk.
      * rewrite !elem_of_cons, IH. split.
        -- intros [[= -> ->]|(? & ? & ?)]; auto.
        -- intros ([->|He] & Hn & Hi & Hm); [left; congruence|right; auto].
      * rewrite elem_of_cons, IH. split; [naive_solver|].
        intros ([->|He] & Hn & Hi & Hm); [congruence|auto].
Qed.

Lemma candidates_in_range ms keep eligible exclude :
  Forall (λ i, is_Some (ms !! i)) eligible → is_Some (candidates ms keep eligible exclude).
Proof.
  induction 1 as [|i l [m Hm] _ [cs Hcs]]; cbn; [by eexists|]. rewrite Hcs, Hm. cbn.
  case_bool_decide; by eexists.
Qed.

Lemma choice_pair (cs : list (nat * AccountMember)) i k :
  cs.*1 !! i = Some k → ∃ m, cs !! i = Some (k, m) ∧ cs.*2 !! i = Some m.
Proof.
  rewrite !list_lookup_fmap. destruct (cs !! i) as [[j m]|]; [|done]. cbn. intros [= ->]. eauto.
Qed.

(** The accounts a bound session may use: those of its provider. *)
Definition keeps (st : AppState) (hint : SessionHint) (eligible exclude : list nat)
    (m : AccountMember) : bool :=
  match bound_provider st hint eligible exclude with
  | Some p => bool_decide (member_provider_id m = Some p)
  | None => true
  end.

Lemma select_index_none st hint eligible exclude now_ms i m :
  (select_index st hint eligible exclude now_ms).1 = None →
  Forall (λ i, is_Some (state_members st !! i)) eligible →
  i ∈ eligible → (i ∉ exclude) → state_members st !! i = Some m →
  keeps st hint eligible exclude m = true → is_available (member_health m) now_ms = false.
Proof.
  intros Hnone Hall Hin Hex Hm Hk. unfold select_index in Hnone.
  set (keep := match bound_provider st hint eligible exclude with Some _ => _ | None => _ end) in *.
  destruct (candidates_in_range _ keep _ exclude Hall) as [cs Hcs]. rewrite Hcs in Hnone.
  unfold AccountRouter.select in Hnone.
  pose proof (select_available (AccountRouter.strategy (router st))
                (AccountRouter.state (router st)) cs.*2 hint now_ms) as Hav.
  destruct (AccountRouter.select_state _ _ _ _ _) as [choice rs] eqn:Hsel. cbn [fst] in *.
  assert (choice = None) as ->.
  { destruct choice as [k|]; [|done]. cbn in Hnone. destruct (Hav k eq_refl) as (m' & Hm' & _).
    rewrite !list_lookup_fmap in *. by destruct (cs !! k). }
  assert (Hno : ∀ m, m ∈ cs.*2 → is_available (health m) now_ms = false).
  { unfold AccountRouter.select_state in Hsel.
    destruct (AccountRouter.select_bound _ _ _ _) as [[? ?]|]; [done|].
    destruct (AccountRouter.select_fresh _ _ _ _) as [k|] eqn:Hf.
    - apply select_fresh_Some in Hf as (x & Hx & _). by rewrite Hx in Hsel.
    - rewrite select_fresh_None in Hf. exact Hf. }
  apply (Hno m). apply list_elem_of_fmap. exists (i, m). split; [done|].
  apply (candidates_spec _ _ _ _ _ Hcs). split_and!; try done.
  unfold keeps in Hk. unfold keep. by destruct (bound_provider _ _ _ _).
Qed.

Lemma bound_provider_kept st hint eligible exclude p :
  bound_provider st hint eligible exclude = Some p →
  ∃ i m, i ∈ eligible ∧ (i ∉ exclude) ∧ state_members st !! i = Some m ∧
         member_provider_id m = Some p.
Proof.
  unfold bound_provider. destruct (affinity_key hint) as [key|]; [|done]. cbn [mbind option_bind].
  destruct (AccountRouter.bound_affinity_member _ key) as [b|]; [|done]. cbn [mbind option_bind].
  destruct (List.find _ eligible) as [i|] eqn:Hf; [|done]. cbn [mbind option_bind].
  apply List.find_some in Hf as [Hin Hf]. apply andb_true_iff in Hf as [Hx _].
  destruct (state_members st !! i) as [m|] eqn:Hm; [|done]. cbn [mbind option_bind]. intros Hp.
  exists i, m. bool_to_prop. split_and!; [by apply list_elem_of_In|done..].
Qed.

Lemma select_index_some st hint eligible exclude now_ms i :
  (select_index st hint eligible exclude now_ms).1 = Some i →
  i ∈ eligible ∧ (i ∉ exclude) ∧
  ∃ m, state_members st !! i = Some m ∧ is_available (member_health m) now_ms = true.
Proof.
  unfold select_index.
  set (keep := match bound_provider st hint eligible exclude with Some _ => _ | None => _ end).
  destruct (candidates (state_members st) keep eligible exclude) as [cs|] eqn:Hcs; [|done].
  unfold AccountRouter.select.
  pose proof (select_available (AccountRouter.strategy (router st))
                (AccountRouter.state (router st)) cs.*2 hint now_ms) as Hav.
  destruct (AccountRouter.select_state _ _ _ _ _) as [choice rs]. cbn [fst] in *.
  intros Hi. destruct choice as [k|]; [|done]. cbn in Hi.
  destruct (choice_pair cs k i Hi) as (m & Hk & Hk2).
  destruct (Hav k eq_refl) as (m' & Hm' & Ha). rewrite Hk2 in Hm'. injection Hm' as <-.
  destruct (proj1 (candidates_spec _ _ _ _ _ Hcs i m)) as (? & ? & ? & _);
    [by eapply list_elem_of_lookup_2|]. eauto.
Qed.

Lemma select_index_exhausted st hint eligible exclude now_ms :
  (select_index st hint eligible exclude now_ms).1 = None →
  Forall (λ i, ∃ m, state_members st !! i = Some m ∧
                    is_available (member_health m) now_ms = true) eligible →
  eligible ⊆ exclude.
Proof.
  intros Hnone Hall i Hi.
  assert (Hsome : Forall (λ i, is_Some (state_members st !! i)) eligible).
  { eapply Forall_impl; [exact Hall|]. intros ? (? & ? & _). by eexists. }
  rewrite list.Forall_forall in Hall.
  assert (Hno : ∀ j m, j ∈ eligible → (j ∉ exclude) → state_members st !! j = Some m →
                       keeps st hint eligible exclude m = false).
  { intros j m Hj Hn Hm. destruct (keeps _ _ _ _ m) eqn:Hk; [|done].
    pose proof (select_index_none _ _ _ _ _ _ _ Hnone Hsome Hj Hn Hm Hk).
    destruct (Hall j Hj) as (m' & Hm' & Ha). congruence. }
  destruct (decide (i ∈ exclude)) as [|Hn]; [done|exfalso].
  destruct (Hall i Hi) as (m & Hm & _). pose proof (Hno i m Hi Hn Hm) as Hk. unfold keeps in *.
  destruct (bound_provider st hint eligible exclude) as [p|] eqn:Hb; [|done].
  destruct (bound_provider_kept _ _ _ _ _ Hb) as (j & mj & Hj & Hnj & Hmj & Hp).
  specialize (Hno j mj Hj Hnj Hmj). bool_to_prop. done.
Qed.

(** A choice is a candidate, and there is one as long as there can be.  The account
    chosen for an attempt is eligible, was not tried by this request, and is available.
    If the eligible accounts are in the pool and available, a choice fails only when
    each of them was tried - also for a session that is bound, whose choice is limited
    to the provider of its account. *)
Theorem select_index_correct st hint eligible exclude now_ms :
  let choice := (select_index st hint eligible exclude now_ms).1 in
  (∀ i, choice = Some i →
     i ∈ eligible ∧ (i ∉ exclude) ∧
     ∃ m, state_members st !! i = Some m ∧ is_available (member_health m) now_ms = true) ∧
  (choice = None →
   Forall (λ i, ∃ m, state_members st !! i = Some m ∧
                     is_available (member_health m) now_ms = true) eligible →
   eligible ⊆ exclude).
Proof.
  cbn zeta. split; [intros i; apply select_index_some|apply select_index_exhausted].
Qed.

(** The session returns to its account.  If the router has the session bound to an
    account that is among the candidates, not tried yet, admitted by the router and
    available, the choice is that account. *)
Theorem select_index_sticky st hint key bound eligible exclude now_ms i m :
  affinity_key hint = Some key →
  AccountRouter.bound_affinity_member (AccountRouter.state (router st)) key = Some bound →
  AccountRouter.admits (AccountRouter.state (router st)) bound = true →
  Forall (λ i, is_Some (state_members st !! i)) eligible →
  (∀ j m', state_members st !! j = Some m' → member_id m' = bound → j = i) →
  i ∈ eligible → (i ∉ exclude) → state_members st !! i = Some m → member_id m = bound →
  is_available (member_health m) now_ms = true →
  (select_index st hint eligible exclude now_ms).1 = Some i.
Proof.
  intros Hkey Hb Hadm Hall Huniq Hin Hex Hm Hid Hav. unfold select_index.
  set (keep := match bound_provider st hint eligible exclude with Some _ => _ | None => _ end).
  destruct (candidates_in_range _ keep _ exclude Hall) as [cs Hcs]. rewrite Hcs.
  assert (Hkeep : keep m = true).
  { unfold keep, bound_provider. rewrite Hkey. cbn [mbind option_bind]. rewrite Hb.
    cbn [mbind option_bind].
    destruct (List.find _ eligible) as [j|] eqn:Hf; [|done]. cbn [mbind option_bind].
    apply List.find_some in Hf as [_ Hf]. apply andb_true_iff in Hf as [_ Hf].
    unfold at_index in Hf. destruct (state_members st !! j) as [m'|] eqn:Hj; [|done].
    unfold eqs in Hf. bool_to_prop. pose proof (Huniq j m' Hj Hf) as ->.
    rewrite Hm in Hj. injection Hj as <-. cbn [mbind option_bind].
    destruct (member_provider_id m) eqn:Hp; [|done]. apply bool_decide_eq_true_2. done. }
  assert (Hmem : (i, m) ∈ cs) by (by apply (candidates_spec _ _ _ _ _ Hcs)).
  unfold AccountRouter.select, AccountRouter.select_state, AccountRouter.select_bound.
  rewrite Hkey. unfold AccountRouter.bound_affinity_member in Hb.
  destruct (AccountRouter.affinity _ !! key) as [[b s]|]; [|done]. injection Hb as ->.
  rewrite Hadm. destruct (position _ cs.*2) as [k|] eqn:Hpos.
  - cbn. apply position_Some in Hpos as (m' & Hk & Hok & _). apply andb_true_iff in Hok as [Hok _].
    bool_to_prop. rewrite list_lookup_fmap in Hk. rewrite list_lookup_fmap.
    destruct (cs !! k) as [[j x]|] eqn:Hck; [|done]. injection Hk as ->. cbn.
    f_equal. eapply Huniq; [|exact Hok].
    by eapply (candidates_spec _ _ _ _ _ Hcs j m'), list_elem_of_lookup_2.
  - exfalso. rewrite position_None in Hpos. specialize (Hpos m).
    rewrite (bool_decide_eq_true_2 (id m = bound)) in Hpos by done. cbn [andb] in Hpos.
    change (health m) with (member_health m) in Hpos. rewrite Hav in Hpos.
    discriminate Hpos. apply list_elem_of_fmap. by exists (i, m).
Qed.
End route.
