(* ===== verification/RelayAffinity.v ===== *)
(** * Session identity (crates/gateway/src/relay.rs, lines 1172-1201 and 5073-5763)

    How a request names its conversation: the header chain, the ids and texts of the
    body, the scope an affinity key is hashed under, the durable digest, and the
    hierarchy of explicit sessions with the prefix matcher behind it.

    Code outside the repository is a parameter: [from_slice]/[to_string] are serde_json,
    [sip] is the standard library's [DefaultHasher] over the bytes written to it (its
    algorithm is not specified), [sha16] the first sixteen bytes of SHA-256 in
    hexadecimal, and [first_key] the key a hash map happens to list first. *)

From Stdlib Require Import Ascii.
From stdpp Require Import gmap strings list.
From S2P Require Import Prelude RustStr RegistryTypes RegistrySnapshot Types Router Lcp AffinityStore Usage Account AccountModels Json RelayCooldown RelayRoute.
Import RustStr Usage Account Models Route.
Open Scope Z_scope.
Open Scope rust_scope.

Module Session.
Import Json.
Abbreviation HeaderMap := Cooldown.HeaderMap.

(** ** Headers *)

Definition SESSION_HEADERS : list string :=
  ["x-claude-code-session-id"; "session_id"; "session-id"; "thread-id";
   "x-codex-parent-thread-id"; "x-session-id"; "x-session-affinity"; "x-client-request-id";
   "conversation_id"; "x-conversation-id"; "anthropic-client-session"].

Definition HIERARCHY_EXPLICIT_HEADERS : list string :=
  ["x-session-id"; "x-claude-code-session-id"; "session_id"; "session-id";
   "x-session-affinity"; "conversation_id"].

Definition INGRESS_ROUTING_HEADERS : list string :=
  ["x-session-id"; "x-parent-session-id"; "x-session-affinity"; "x-client-request-id";
   "x-claude-code-session-id"; "session_id"; "session-id"; "thread-id";
   "x-codex-parent-thread-id"; "conversation_id"; "x-conversation-id";
   "anthropic-client-session"].

Definition header_value (h : HeaderMap) (name : string) : option string :=
  v ← Cooldown.header h name;
  let v := trim v in if is_empty v then None else Some v.

Definition affinity_header (h : HeaderMap) (claude_only : bool) : option string :=
  Registry.find_map
    (λ name, if claude_only && eqs name "x-client-request-id" then None
             else header_value h name) SESSION_HEADERS.

Definition affinity_key (h : HeaderMap) : option string := affinity_header h false.

(** [strip_ingress_headers]: what the client sent for routing is not forwarded. *)
Definition strip_ingress_headers (out : list (string * string)) (ingress : HeaderMap)
  : list (string * string) :=
  filter (λ nv : string * string,
            existsb (λ header, eq_ignore_ascii_case header nv.1) INGRESS_ROUTING_HEADERS
            && bool_decide (Cooldown.header ingress (to_ascii_lowercase nv.1) = Some nv.2) = false)
    out.

(** ** Bodies *)

Inductive BodyAffinity := BodyId (id : string) | FirstUser (text : string).

Section session.
Context (from_slice : string → option Value) (to_string : Value → string).
Context (sip : list Z → Z) (sha16 : string → string).

Definition trimmed (s : string) : option string :=
  let t := trim s in if is_empty t then None else Some t.

Definition extract_val (v : Value) : option string :=
  match v with
  | VString s => trimmed s
  | VNumber n => Some (to_string (VNumber n))
  | _ => None
  end.

Definition first_id (m : Map) (fields : list string) : option string :=
  Registry.find_map (λ field, obj_get field m ≫= extract_val) fields.

(** The text of one user message. *)
Definition user_text (msg : Value) : option string :=
  if negb (bool_decide (get "role" msg ≫= as_str = Some "user")) then None
  else
    match get "content" msg with
    | Some (VString content) => trimmed content
    | Some (VArray parts) =>
        Registry.find_map (λ part, (get "text" part ≫= as_str) ≫= trimmed) parts
    | _ => None
    end.

Definition body_affinity_material (body : string) : option BodyAffinity :=
  value ← from_slice body;
  obj ← as_object value;
  let own := first_id obj ["conversation_id"; "conversation-id"; "thread_id"; "thread-id";
                           "session_id"; "session-id"] in
  let in_metadata :=
    m ← obj_get "metadata" obj ≫= as_object;
    first_id m ["thread_id"; "thread-id"; "conversation_id"; "conversation-id"; "session_id";
                "session-id"] in
  let user :=
    u ← obj_get "user" obj ≫= as_str;
    let u := trim u in
    if starts_with u "session_" || starts_with u "conv_" || starts_with u "thread_"
    then Some u else None in
  match own, in_metadata, user with
  | Some i, _, _ | None, Some i, _ | None, None, Some i => Some (BodyId i)
  | None, None, None =>
      messages ← obj_get "messages" obj ≫= as_array;
      FirstUser <$> Registry.find_map user_text messages
  end.

Definition bytes_of (s : string) : list Z := byte_of <$> String.list_ascii_of_string s.

Definition body_affinity_key (body : string) : option string :=
  material ← body_affinity_material body;
  Some (match material with
        | BodyId i => "body-id-" +:+ i
        | FirstUser text => "body-first-user-" +:+ Affinity.hex16 (sip (bytes_of text))
        end).

Definition BODY_AFFINITY_MIN_BYTES : Z := 4096.
Definition BODY_AFFINITY_HEAD_BYTES : nat := 2048.
Definition body_head (body : string) : string := String.substring 0 BODY_AFFINITY_HEAD_BYTES body.

Definition body_prefix_affinity_key (body : string) : option string :=
  if strlen body <? BODY_AFFINITY_MIN_BYTES then None
  else Some ("body-prefix-" +:+ Affinity.hex16 (sip (bytes_of (body_head body)))).

Definition routing_affinity_key (h : HeaderMap) (body : string) (claude_only : bool)
  : option string :=
  match affinity_header h claude_only with
  | Some key => Some key
  | None => match body_affinity_key body with
            | Some key => Some key
            | None => body_prefix_affinity_key body
            end
  end.

Definition durable_affinity_digest (h : HeaderMap) (body : string) (claude_only : bool)
  : option Z :=
  match affinity_header h claude_only with
  | Some value => Some (Affinity.digest "header" (bytes_of value))
  | None =>
      match body_affinity_material body with
      | Some (BodyId i) => Some (Affinity.digest "body-id" (bytes_of i))
      | Some (FirstUser text) => Some (Affinity.digest "first-user" (bytes_of text))
      | None =>
          if strlen body <? BODY_AFFINITY_MIN_BYTES then None
          else Some (Affinity.digest "body-prefix" (bytes_of (body_head body)))
      end
  end.

(** ** Scopes *)

(** [write_u64]: eight bytes, least significant first. *)
Definition u64_le (n : Z) : list Z :=
  (λ k, Z.shiftr n (8 * Z.of_nat k) mod 256) <$> seq 0 8.

(** A field as it is fed to the hasher: its length, then its bytes. *)
Definition sized (field : string) : list Z := u64_le (strlen field) ++ bytes_of field.

Definition dedup_adjacent (l : list string) : list string :=
  foldr (λ x acc, match acc with y :: _ => if eqs x y then acc else x :: acc | [] => [x] end) [] l.

Definition scope_providers (route : option ResolvedRoute) : list string :=
  match route with
  | None => []
  | Some r => dedup_adjacent
                (sort_by string_ltb
                   ((λ c, Registry.provider_id (binding c)) <$> provider_classes r))
  end.

Definition scope_model (route : option ResolvedRoute) (requested_model : option string) : string :=
  match scope_providers route with
  | [] => match route with
          | Some r => canonical_model r
          | None => default "*" requested_model
          end
  | _ => "*"
  end.

Definition scope_bytes (caller : option string) (route : option ResolvedRoute)
    (requested_model : option string) (session : string) : list Z :=
  let providers := scope_providers route in
  concat (sized <$> [default "*" caller; default "*" (head providers);
                     scope_model route requested_model; session;
                     String.concat (String (ascii_of_nat 31) "") providers]).

Definition scoped_affinity_key (caller : option string) (route : option ResolvedRoute)
    (requested_model : option string) (session : string) : string :=
  "affinity-v2-" +:+ Affinity.hex16 (sip (scope_bytes caller route requested_model session)).

(** ** Hierarchy *)

Fixpoint join_sized (parts : list string) : string :=
  match parts with
  | [] => ""
  | part :: parts => show_u64 (strlen part) +:+ ":" +:+ part +:+ join_sized parts
  end.

Definition hierarchy_digest (parts : list string) : string := sha16 (join_sized parts).

(** One message: an environment, or a turn. *)
Definition item_role (item : Value) : string :=
  default "user" (match get "role" item ≫= as_str with
                  | Some r => Some r
                  | None => get "type" item ≫= as_str
                  end).

Definition hierarchy_item (acc : list string * string) (item : Value) : list string * string :=
  let role := item_role item in
  if eqs role "system" || eqs role "developer"
  then (acc.1, default "" (to_string <$> get "content" item))
  else
    let content := match get "content" item, get "parts" item, get "output" item with
                   | Some c, _, _ | None, Some c, _ | None, None, Some c => c
                   | None, None, None => Null
                   end in
    (acc.1 ++ [hierarchy_digest [role; to_string content]], acc.2).

Definition hierarchy_turns (body : Value) : list string * string :=
  let environment := default "" (to_string <$> get "system" body) in
  let environment := default environment (get "instructions" body ≫= as_str) in
  let items := match get "messages" body, get "input" body, get "contents" body with
               | Some v, _, _ | None, Some v, _ | None, None, Some v => default [] (as_array v)
               | None, None, None => []
               end in
  foldl hierarchy_item ([], environment) items.

Record HierarchyContext := {
  affinity_scope : string;
  session : string;
  preferred_member : option string;
  explicit : bool;
  ttl_ms : Z;
  lcp_match : option (string * Lcp.Prepared * Lcp.Bounds * Lcp.Binding);
}.

(** An unexpired binding of a scope. *)
Definition live_binding (st : AppState) (scope : string) (now_ms : Z) : option string :=
  match session_bindings st !! scope with
  | Some (m, expires) => if now_ms <? expires then Some m else None
  | None => None
  end.

Definition explicit_session (h : HeaderMap) (body : string) : option string :=
  match Registry.find_map (header_value h) HIERARCHY_EXPLICIT_HEADERS with
  | Some s => Some s
  | None => match body_affinity_key body with
            | Some key => if starts_with key "body-id-" then Some key else None
            | None => None
            end
  end.

(** [turns.iter().rev().take(32).rev()]. *)
Definition last_turns (turns : list string) : list string :=
  drop (length turns - 32) turns.

Definition resolve_hierarchy (st : AppState) (h : HeaderMap) (body : string)
    (caller : option string) (route : option ResolvedRoute) (requested_model : option string)
    (now_ms : Z) : option HierarchyContext * AppState :=
  let s := settings st in
  let scope_of := scoped_affinity_key (Some (default "*" caller)) route requested_model in
  if bool_decide (session_affinity s = Some false) then (None, st)
  else match explicit_session h body with
  | Some sess =>
      let own := live_binding st (scope_of sess) now_ms in
      let parent :=
        match header_value h "x-parent-session-id" with
        | Some p => Some p
        | None => header_value h "x-codex-parent-thread-id"
        end ≫= λ p, live_binding st (scope_of p) now_ms in
      (Some {| affinity_scope := scope_of sess; session := sess;
               preferred_member := match own with Some m => Some m | None => parent end;
               explicit := true; ttl_ms := affinity_ttl_ms s; lcp_match := None |}, st)
  | None =>
      if negb (session_affinity_lcp s) then (None, st)
      else match caller with
      | None => (None, st)
      | Some c =>
          if eqs c "master" || eqs c "unrestricted" then (None, st)
          else match from_slice body with
          | None => (None, st)
          | Some value =>
              let '(turns, environment) := hierarchy_turns value in
              let model := match route with
                           | Some r => canonical_model r
                           | None => default "*" requested_model
                           end in
              let namespace := scoped_affinity_key (Some c) route (Some model) "lcp" in
              let prepared :=
                {| Lcp.turns := hierarchy_digest ["environment"; environment] :: turns;
                   Lcp.tail := last_turns turns; Lcp.environment := environment;
                   Lcp.min_prefix := 1 |} in
              let bounds := lcp_bounds s in
              let '(found, matcher) :=
                Lcp.resolve (λ prefix parent, hierarchy_digest (default "root" parent :: prefix))
                  (lcp st) namespace prepared bounds now_ms in
              let st := with_lcp st matcher in
              match found with
              | None => (None, st)
              | Some bd =>
                  (Some {| affinity_scope := scope_of (Lcp.session bd);
                           session := Lcp.session bd;
                           preferred_member := if is_empty (Lcp.member bd) then None
                                               else Some (Lcp.member bd);
                           explicit := false; ttl_ms := affinity_ttl_ms s;
                           lcp_match := Some (namespace, prepared, bounds, bd) |}, st)
              end
          end
      end
  end.

Definition preferred_index (c : HierarchyContext) (ms : list AccountMember)
    (eligible attempted : list nat) (now_ms : Z) : option nat :=
  preferred ← preferred_member c;
  List.find (λ i, negb (bool_decide (i ∈ attempted))
                  && at_index (λ m, eqs (member_id m) preferred
                                    && is_available (member_health m) now_ms) ms i) eligible.

Definition MAX_SESSION_BINDINGS : nat := N.to_nat 65536.

Section bind.
Context (first_key : gmap string (string * Z) → option string).

(** [while bindings.len() > 65_536]: [fuel] is the number of entries. *)
Fixpoint shed (fuel : nat) (b : gmap string (string * Z)) : gmap string (string * Z) :=
  match fuel with
  | O => b
  | S fuel =>
      if (MAX_SESSION_BINDINGS <? size b)%nat then
        match first_key b with Some key => shed fuel (delete key b) | None => b end
      else b
  end.

Definition bind_hierarchy (c : HierarchyContext) (st : AppState) (m : string) (now_ms : Z)
  : HierarchyContext * AppState :=
  let c' := {| affinity_scope := affinity_scope c; session := session c;
               preferred_member := Some m; explicit := explicit c; ttl_ms := ttl_ms c;
               lcp_match := lcp_match c |} in
  if explicit c then
    let b := filter (λ kv, now_ms < kv.2.2) (session_bindings st) in
    let b := <[affinity_scope c := (m, now_ms +| ttl_ms c)]> b in
    (c', with_bindings st (shed (size b) b))
  else match lcp_match c with
       | Some (namespace, prepared, bounds, bd) =>
           let bd := {| Lcp.session := Lcp.session bd; Lcp.parent := Lcp.parent bd;
                        Lcp.member := m |} in
           (c', with_lcp st (Lcp.bind (lcp st) namespace prepared bd bounds now_ms))
       | None => (c', st)
       end.
End bind.

(** [auth_affinity_principal]: who the caller is for affinity. *)
Inductive AuthIdentity := Unrestricted | Master | Scoped (key_identifier : string).

Definition auth_affinity_principal (auth : AuthIdentity) (key_identifier : option string)
  : string :=
  match key_identifier with
  | Some key => if is_empty (trim key)
                then match auth with
                     | Unrestricted => "unrestricted"
                     | Master => "master"
                     | Scoped k => "scoped:" +:+ k
                     end
                else key
  | None => match auth with
            | Unrestricted => "unrestricted"
            | Master => "master"
            | Scoped k => "scoped:" +:+ k
            end
  end.
End session.

End Session.
