(* ===== verification/SessionProps.v ===== *)
(** * Properties of session identity

    The encodings that feed the hashes are injective, so distinct conversations are
    distinct inputs; an explicit session's binding is found again until it expires and
    the table stays bounded; and a preferred account is only ever an eligible one. *)

From Stdlib Require Import Ascii.
From stdpp Require Import gmap strings list.
From S2P Require Import Prelude RustStr RegistryTypes RegistrySnapshot Types Router Lcp AffinityStore Usage Account AccountModels Json RelayCooldown RelayRoute RelayAffinity.
Import RustStr Usage Account Models Route Session.
Open Scope Z_scope.

(** ** Encodings *)

(** Length-prefixed joining is injective.  Two lists of parts with the same joined
    text are the same list: no choice of contents makes two different conversations
    the same digest input. *)
Theorem join_sized_inj a : ∀ b,
  Forall (λ p, is_u64 (strlen p)) a → Forall (λ p, is_u64 (strlen p)) b →
  join_sized a = join_sized b → a = b.
Proof.
  induction a as [|p a IH]; intros [|q b] Ha Hb E; cbn [join_sized] in E.
  - done.
  - exfalso. by destruct (show_u64 (strlen q)).
  - exfalso. by destruct (show_u64 (strlen p)).
  - apply list.Forall_cons in Ha as [Hp Ha], Hb as [Hq Hb].
    change (":" +:+ p +:+ join_sized a) with (String ":" (p +:+ join_sized a)) in E.
    change (":" +:+ q +:+ join_sized b) with (String ":" (q +:+ join_sized b)) in E.
    apply digits_cut in E as [Hlen E]; [|by apply show_u64_digits..|done].
    apply show_u64_inj in Hlen; [|done..]. unfold strlen in Hlen. apply Nat2Z.inj in Hlen.
    destruct (append_same_length _ _ _ _ Hlen E) as [-> E']. f_equal. by apply IH.
Qed.

Lemma u64_le_inj a b : is_u64 a → is_u64 b → u64_le a = u64_le b → a = b.
Proof.
  intros Ha Hb E. unfold is_u64, u64_max in *. apply Z.bits_inj'. intros n Hn.
  destruct (Z.lt_ge_cases n 64) as [Hlt|Hge].
  - set (k := Z.to_nat (n / 8)).
    assert (Hk : (k < 8)%nat).
    { unfold k. assert (n / 8 < 8) by (apply Z.div_lt_upper_bound; lia).
      pose proof (Z.div_pos n 8). lia. }
    assert (Ek : Z.shiftr a (8 * Z.of_nat k) mod 256 = Z.shiftr b (8 * Z.of_nat k) mod 256).
    { assert (El : u64_le a !! k = u64_le b !! k) by (by rewrite E). unfold u64_le in El.
      rewrite !list_lookup_fmap in El. rewrite lookup_seq_lt in El by done. by injection El. }
    assert (Hbit : ∀ x, Z.testbit x n = Z.testbit (Z.shiftr x (8 * Z.of_nat k) mod 2 ^ 8) (n mod 8)).
    { intros x. pose proof (Z.mod_pos_bound n 8 ltac:(lia)). rewrite Z.mod_pow2_bits_low by lia.
      rewrite Z.shiftr_spec by lia. f_equal. unfold k. rewrite Z2Nat.id by (apply Z.div_pos; lia).
      pose proof (Z.div_mod n 8 ltac:(lia)). lia. }
    rewrite !Hbit. change (2 ^ 8) with 256. by rewrite Ek.
  - rewrite !Z.bits_above_log2; try lia.
    + destruct (Z.eq_dec b 0) as [->|]; [cbn; lia|]. apply Z.log2_lt_pow2; [lia|].
      assert (2 ^ 64 ≤ 2 ^ n) by (apply Z.pow_le_mono_r; lia). lia.
    + destruct (Z.eq_dec a 0) as [->|]; [cbn; lia|]. apply Z.log2_lt_pow2; [lia|].
      assert (2 ^ 64 ≤ 2 ^ n) by (apply Z.pow_le_mono_r; lia). lia.
Qed.

Lemma bytes_of_inj s t : bytes_of s = bytes_of t → s = t.
Proof.
  unfold bytes_of. intros E. apply chars_inj. revert E. apply list_fmap_eq_inj.
  intros a b E. unfold byte_of in E. apply N2Z.inj in E.
  rewrite <- (ascii_N_embedding a), <- (ascii_N_embedding b). by rewrite E.
Qed.

Lemma length_chars s : length (String.list_ascii_of_string s) = String.length s.
Proof. induction s; cbn; auto. Qed.

Lemma sized_cut a b x y :
  is_u64 (strlen a) → is_u64 (strlen b) → sized a ++ x = sized b ++ y → a = b ∧ x = y.
Proof.
  intros Ha Hb E. unfold sized in E. rewrite <- !(assoc_L (++)) in E.
  apply app_inj_1 in E as [El E]; [|done]. apply u64_le_inj in El; [|done..].
  apply app_inj_1 in E as [Eb ->].
  - by apply bytes_of_inj in Eb.
  - unfold bytes_of. rewrite !length_fmap, !length_chars. unfold strlen in El. lia.
Qed.

Lemma concat_sized_inj a : ∀ b,
  length a = length b →
  Forall (λ p, is_u64 (strlen p)) a → Forall (λ p, is_u64 (strlen p)) b →
  concat (sized <$> a) = concat (sized <$> b) → a = b.
Proof.
  induction a as [|p a IH]; intros [|q b] Hl Ha Hb E; try done.
  apply list.Forall_cons in Ha as [Hp Ha], Hb as [Hq Hb]. cbn in E.
  apply sized_cut in E as [-> E]; [|done..]. f_equal. apply IH; [by injection Hl|done..].
Qed.

(** The fields a scope is made of. *)
Definition scope_fields (caller : option string) (route : option ResolvedRoute)
    (requested_model : option string) (session : string) : list string :=
  [default "*" caller; default "*" (head (scope_providers route));
   scope_model route requested_model; session;
   String.concat (String (ascii_of_nat 31) "") (scope_providers route)].

(** Scopes do not run into each other.  Two affinity scopes feed the hasher the same
    bytes only if their caller, model group, session and provider set are the same,
    field by field (an absent caller counts as the caller "*"). *)
Theorem scope_bytes_inj c r m s c' r' m' s' :
  Forall (λ f, is_u64 (strlen f)) (scope_fields c r m s) →
  Forall (λ f, is_u64 (strlen f)) (scope_fields c' r' m' s') →
  scope_bytes c r m s = scope_bytes c' r' m' s' →
  default "*" c = default "*" c' ∧ scope_model r m = scope_model r' m' ∧ s = s' ∧
  String.concat (String (ascii_of_nat 31) "") (scope_providers r) =
  String.concat (String (ascii_of_nat 31) "") (scope_providers r').
Proof.
  intros H1 H2 E.
  assert (scope_fields c r m s = scope_fields c' r' m' s') as Hf by (by apply concat_sized_inj).
  unfold scope_fields in Hf. injection Hf as ? _ ? ? ?. done.
Qed.

(** ** Explicit sessions *)

Section hierarchy.
Context (from_slice : string → option Json.Value) (to_string : Json.Value → string).
Context (sip : list Z → Z) (sha16 : string → string).
Context (first_key : gmap string (string * Z) → option string).

Abbreviation resolve := (resolve_hierarchy from_slice to_string sip sha16).

Lemma resolve_explicit st h body caller route model now c st' :
  resolve st h body caller route model now = (Some c, st') → explicit c = true →
  ∃ sess, explicit_session from_slice to_string sip h body = Some sess ∧ st' = st ∧
    session_affinity (settings st) ≠ Some false ∧ ttl_ms c = affinity_ttl_ms (settings st) ∧
    affinity_scope c = scoped_affinity_key sip (Some (default "*" caller)) route model sess.
Proof.
  unfold resolve_hierarchy. intros E Hx. case_if; [done|]. bool_to_prop.
  destruct (explicit_session _ _ _ h body) as [sess|].
  - injection E as <- <-. exists sess. by split_and!.
  - exfalso. destruct (negb (session_affinity_lcp _)); [done|]. destruct caller as [cl|]; [|done].
    destruct (eqs cl _ || _); [done|]. destruct (from_slice body); [|done].
    destruct (hierarchy_turns _ _ _). destruct (Lcp.resolve _ _ _ _ _ _) as [[bd|] mt]; [|done].
    injection E as <- _. done.
Qed.

Lemma shed_small fuel b : (size b ≤ MAX_SESSION_BINDINGS)%nat → shed first_key fuel b = b.
Proof.
  intros Hs. destruct fuel; [done|]. cbn [shed]. by rewrite (proj2 (Nat.ltb_ge _ _)).
Qed.

(** The key a hash map lists first is one of its keys. *)
Definition lists_a_key : Prop :=
  ∀ b : gmap string (string * Z), b ≠ ∅ → ∃ k, first_key b = Some k ∧ is_Some (b !! k).

Lemma shed_bounded fuel : ∀ b,
  lists_a_key → (size b ≤ fuel)%nat → (size (shed first_key fuel b) ≤ MAX_SESSION_BINDINGS)%nat.
Proof.
  induction fuel as [|fuel IH]; intros b Hk Hf; cbn [shed]; [lia|].
  destruct (Nat.ltb_spec MAX_SESSION_BINDINGS (size b)) as [Hlt|]; [|done].
  destruct (Hk b) as (k & -> & v & Hv).
  { intros ->. rewrite map_size_empty in Hlt. lia. }
  apply IH; [done|]. rewrite map_size_delete, Hv. cbn. lia.
Qed.

(** The table of explicit sessions never exceeds 65,536 bindings. *)
Theorem session_table_bounded c st m now_ms :
  lists_a_key → explicit c = true →
  (size (session_bindings (bind_hierarchy first_key c st m now_ms).2) ≤ MAX_SESSION_BINDINGS)%nat.
Proof.
  intros Hk Hx. unfold bind_hierarchy. rewrite Hx. cbn. by apply shed_bounded.
Qed.

(** A session keeps its account until its binding expires.  After a request of an
    explicit session was served by an account, every later request that names the
    session the same way prefers that account, up to the binding's time to live and
    not beyond it (when no parent session is named). *)
Theorem session_binding_lives st h body caller route model t0 c st1 m t1 t2 :
  resolve st h body caller route model t0 = (Some c, st1) → explicit c = true →
  (size (session_bindings st1) < MAX_SESSION_BINDINGS)%nat →
  header_value h "x-parent-session-id" = None →
  header_value h "x-codex-parent-thread-id" = None →
  let st2 := (bind_hierarchy first_key c st1 m t1).2 in
  let expires := saturating_add_i64 t1 (affinity_ttl_ms (settings st)) in
  ∃ c', (resolve st2 h body caller route model t2).1 = Some c' ∧
        affinity_scope c' = affinity_scope c ∧
        preferred_member c' = if t2 <? expires then Some m else None.
Proof.
  intros Hr Hx Hsize Hp1 Hp2. cbn zeta.
  destruct (resolve_explicit _ _ _ _ _ _ _ _ _ Hr Hx) as (sess & Hs & -> & Hna & Httl & Hsc).
  unfold bind_hierarchy. rewrite Hx. cbn [snd]. rewrite shed_small.
  2: { rewrite map_size_insert. set (f := filter _ _).
       assert (Hle : (size f ≤ size (session_bindings st))%nat)
         by (apply map_subseteq_size, map_filter_subseteq).
       destruct (f !! _); cbn; lia. }
  unfold resolve_hierarchy. cbn [settings with_bindings].
  rewrite (bool_decide_eq_false_2 (session_affinity _ = _)) by done. rewrite Hs, Hp1, Hp2.
  cbn [fst mbind option_bind]. eexists. split; [done|]. cbn [affinity_scope preferred_member].
  split; [done|]. unfold live_binding. cbn [session_bindings with_bindings].
  rewrite Hsc, lookup_insert_eq, Httl. by destruct (t2 <? _).
Qed.
End hierarchy.

(** A preferred account is an ordinary candidate.  The account a hierarchy prefers is
    only chosen if it is eligible, was not tried in this request, and is available. *)
Theorem preferred_index_sound c ms eligible attempted now_ms i :
  preferred_index c ms eligible attempted now_ms = Some i →
  i ∈ eligible ∧ (i ∉ attempted) ∧
  ∃ m, ms !! i = Some m ∧ Some (member_id m) = preferred_member c ∧
       is_available (member_health m) now_ms = true.
Proof.
  unfold preferred_index. destruct (preferred_member c) as [p|]; [|done]. cbn [mbind option_bind].
  intros [Hin H]%List.find_some. apply andb_true_iff in H as [Hat H].
  unfold at_index in H. destruct (ms !! i) as [m|] eqn:Hm; [|done].
  apply andb_true_iff in H as [Hid Hav]. unfold eqs in Hid. bool_to_prop.
  split_and!; [by apply list_elem_of_In|done|]. exists m. by rewrite Hid.
Qed.
