(* ===== verification/RelayLoop.v ===== *)
(** * The relay loop (crates/gateway/src/relay.rs, lines 21-49, 764-862 and 6085-7310)

    One client request: accounts are tried until one answers, round by round.  The
    model is the loop of [handle_relay] from the candidate list on, one iteration per
    call of [iterate], with every guard, counter and state change of its branches.

    What the outside does in an iteration is an [Env]: the clocks, what other requests
    change ([interfere], applied where the loop starts an iteration) and, for each pool
    index that may be tried, the results of refreshing the credential, of the upstream
    calls and of delivering a success.  Whether Home decides is read once when the request
    starts ([home_authoritative]) and again for each attempt ([home_now]), as in the code;
    the [usize::MAX] of a request that starts under Home is the first index past the pool.
    Building the upstream request (targets, payload rules, replay, plugins) is the
    field [refused]: it either answers the client at once or not.  The history rows of
    [record_request_outcome], what a refresh writes into a credential and log lines are
    not part of the state.

    [from_slice]/[to_string] are serde_json, [env] the environment variables,
    [url_host] the [url] crate, [embedded] the built-in catalog, [first_key] the key a
    hash map lists first. *)

From Stdlib Require Import Ascii.
From stdpp Require Import gmap strings list pretty.
From S2P Require Import Prelude RustStr RegistryTypes RegistrySnapshot Types Router Scheduler AffinityStore ClaudeBudget Usage ClineUsage Account AccountModels Json RelayCooldown RelayRoute RelayAffinity.
Import RustStr Usage Account Models Route.
Open Scope Z_scope.
Open Scope rust_scope.

Module Relay.

(** ** Retry rounds *)

Definition account_retry_limit (m : AccountMember) (global_retry : Z) : nat :=
  Z.to_nat (Z.max (default (Z.max global_retry 0) (request_retry_override m)) 0).

Definition retry_round_allows (m : AccountMember) (round : nat) (global_retry : Z) : bool :=
  (round =? 0)%nat || (round <=? account_retry_limit m global_retry)%nat.

Definition retry_status (status : Z) : bool :=
  bool_decide (status ∈ [403; 408; 429; 500; 502; 503; 504]).

Definition round_wait (now_ms deadline : Z) : Z := Z.max (deadline -| now_ms) 0.

Definition retry_round_wait_ms (deadlines : list Z) (now_ms max_interval_secs : Z) : option Z :=
  let max_wait_ms := Z.min u64_max (Z.max max_interval_secs 0 * 1000) in
  min_by Z.ltb (filter (λ wait, wait ≤ max_wait_ms) (round_wait now_ms <$> deadlines)).

(** ** Answers *)

Record FinalFailure := {
  fail_status : Z;
  content_type : option string;
  fail_body : string;
}.

(** An upstream answer; the body is read with a bound, and the read can fail. *)
Record Reply := {
  reply_status : Z;
  reply_headers : Cooldown.HeaderMap;
  reply_body : result string string;
}.

Inductive Answer :=
  | JsonError (status : Z) (message : string)    (* [json_error] *)
  | Failure (f : FinalFailure)                   (* [body_response] of a failure *)
  | Exhausted (r : Cooldown.ExhaustionResponse)  (* [exhaustion_failure_response] *)
  | ErrorStream (message : string)               (* 502 as an event stream *)
  | UnknownProvider (model : string)             (* [capability::unknown_provider], a 400 *)
  | CoolingDown (retry_after_secs : Z)           (* the 429 of a held session *)
  | Delivered (account : string) (status : Z) (stream : bool).

(** What [finish_success] makes of an answer in 200..399: a reply with its status, whole
    in memory ([Some] of the collected body) or a stream. *)
Record Success := {
  success_status : Z;
  collected : option (result string unit);
}.

(** ** The environment of one iteration *)

Record Env := {
  now_ms : Z;          (* the clock at the top *)
  now_unix : Z;        (* the clock of the attempt, seconds *)
  instant : Z;         (* the monotonic clock *)
  interfere : AppState → AppState;
  wait_now_ms : Z;     (* the clock before a wait *)
  home_now : bool;     (* [is_home_authoritative], read again for each attempt *)
  dispatched : option (result string AccountMember);
                       (* what the Home client sends or refuses; [None] without a client *)
  saved : bool;        (* whether [settings.mutate] wrote its document *)
  expired : nat → bool;                           (* [member.is_expired] *)
  refresh : nat → result (bool * string) unit;    (* [Err (is_auth_failure, text)] *)
  refused : nat → option Answer;
  send : nat → result (bool * string) Reply;      (* [Err (is_ambiguous, text)] *)
  refresh_401 : nat → result (bool * string) unit;
  resend : nat → result (bool * string) Reply;
  finish : nat → result string Success;           (* [finish_success] *)
  finish_effect : nat → AppState → AppState;      (* its effect *)
}.

(** ** The request *)

Record Request := {
  initial_eligible : list nat;
  retry_limit : nat;
  round_credential_cap : nat;
  max_attempts : nat;
  home_authoritative : bool;
  auth_refresh_enabled : bool;
  fail_open_quota : bool;            (* [scheduler_fail_open] *)
  global_retry : Z;
  max_interval : Z;
  plan_model : option string;
  select_model : option string;
  stream_errors : bool;              (* OpenAI mode and a streaming client *)
  hint : SessionHint;
  affinity : option string;
  durable_key : option Z;
  durable_bound : option string;
}.

Record LoopState := {
  app : AppState;
  hierarchy : option Session.HierarchyContext;
  attempted : list nat;
  permission_denied : list nat;
  retry_round : nat;
  round_attempts : nat;
  round_retryable : bool;
  failover_budget : nat;
  last_failure : option FinalFailure;
  trace : list (nat * nat); (* the attempts so far, as (round, index); not in the code *)
}.

Inductive Flow :=
  | Next (ls : LoopState)
  | Stop (ls : LoopState)                (* [break] *)
  | Return (a : Answer) (ls : LoopState).

(** The account of an attempt: a slot of the pool, or a credential Home sent. *)
Inductive Target := Slot (i : nat) | Dispatched.

Section relay.
Context (from_slice : string → option Json.Value) (to_string : Json.Value → string).
Context (env : string → option string) (url_host : string → option string).
Context (embedded : Snapshot.RegistrySnapshot).
Context (first_key : gmap string (string * Z) → option string).

(** ** State changes of a branch *)

Definition put (st : AppState) (t : Target) (m : AccountMember) : AppState :=
  match t with
  | Slot i => with_pool st {| members := <[i := m]> (members (pool st));
                              registry := registry (pool st);
                              permissions := permissions (pool st) |}
  | Dispatched => st
  end.

Definition count_failed_over (st : AppState) : AppState :=
  with_counts st (failed_over st +% 1) (exposed_errors st) (exposed_client_errors st).
Definition count_exposed_error (st : AppState) : AppState :=
  with_counts st (failed_over st) (exposed_errors st +% 1) (exposed_client_errors st).
Definition count_client_error (st : AppState) : AppState :=
  with_counts st (failed_over st) (exposed_errors st) (exposed_client_errors st +% 1).

Definition record_error (st : AppState) (account : string) (now status : Z) (message : string)
  : AppState :=
  if match monitored st with Some ids => negb (bool_decide (account ∈ ids)) | None => false end
  then st
  else with_errors st (<[account := {| error_unix_ms := now; error_status := status;
                                  error_message := message |}]> (last_errors st)).
Definition clear_error (st : AppState) (account : string) : AppState :=
  with_errors st (delete account (last_errors st)).

Definition non_auth_failure (st : AppState) (account : string) (now : Z) : AppState :=
  with_scheduler st
    (Scheduler.record_non_auth_failure (scheduler st) account (state_members st) now).
Definition scheduler_success (st : AppState) (account : string) (now : Z) : AppState :=
  with_scheduler st (Scheduler.record_success (scheduler st) account (state_members st) now).

(** [extract_failure]. *)
Definition extract_failure (r : Reply) (status : Z) : FinalFailure :=
  match reply_body r with
  | Ok body => {| fail_status := status; content_type := Cooldown.header (reply_headers r) "content-type";
                  fail_body := body |}
  | Err message =>
      {| fail_status := 502; content_type := Some "application/json";
         fail_body := to_string (Json.VObject
                        [("error", Json.VObject [("message", Json.VString message)])]) |}
  end.

(** [rebuild_response]. *)
Definition rebuild_response (f : FinalFailure) : Reply :=
  {| reply_status := fail_status f;
     reply_headers := match content_type f with
                      | Some ct => [("content-type", Some ct)]
                      | None => []
                      end;
     reply_body := Ok (fail_body f) |}.

Definition is_claude_member (m : AccountMember) : bool :=
  bool_decide (kind m = KClaude) && negb (is_nekos_relay url_host m).

Definition is_account_scoped_model_rejection (status : Z) (body : string) : bool :=
  if status =? 402 then true
  else if negb (status =? 400) && negb (status =? 403) then false
  else contains body "is not supported when using Codex"
       || contains body "model is not supported"
       || contains body "INVALID_MODEL_ID"
       || contains body "MONTHLY_REQUEST_COUNT".

(** [handle_claude_denial]; the account is already counted as failed.  The list of
    suspected accounts is changed through [settings.mutate], whose failure - [saved] is
    false - is only logged and leaves the document as it was. *)
Definition handle_claude_denial (st : AppState) (account : string) (status : Z) (message : string)
    (denial : Denials.Denial) (now_ms now_unix : Z) (saved : bool) : AppState :=
  let '(promote, st) :=
    match denial with
    | Denials.Enforcement => (true, st)
    | Denials.Denied =>
        let '(p, d) := Denials.record (claude_denials st) account now_unix in (p, with_denials st d)
    | Denials.Other => (false, st)
    end in
  if negb promote then record_error st account now_ms status "claude permission denial"
  else
    let reason := Denials.enforcement_reason status message in
    let st := record_error st account now_ms status ("suspected enforcement: " +:+ reason) in
    let s := settings st in
    if negb saved then st
    else with_settings st
      {| request_retry := request_retry s; max_retry_credentials := max_retry_credentials s;
         max_retry_interval := max_retry_interval s;
         credit_codex_account_ids := credit_codex_account_ids s;
         claude_route_mode := claude_route_mode s;
         claude_suspected_accounts :=
           <[account := {| suspect_reason := reason; suspect_at := now_unix |}]>
             (claude_suspected_accounts s);
         claude_api_key_budgets := claude_api_key_budgets s;
         session_affinity := session_affinity s; session_affinity_lcp := session_affinity_lcp s;
         affinity_ttl_ms := affinity_ttl_ms s; lcp_bounds := lcp_bounds s |}.

(** ** Stream failures *)

Definition connect_code_to_http_status (code : string) : Z :=
  if eqs code "canceled" then 408
  else if one_of code ["invalid_argument"; "failed_precondition"; "out_of_range"] then 400
  else if eqs code "deadline_exceeded" then 504
  else if eqs code "not_found" then 404
  else if one_of code ["already_exists"; "aborted"] then 409
  else if eqs code "permission_denied" then 403
  else if eqs code "resource_exhausted" then 429
  else if eqs code "unimplemented" then 501
  else if eqs code "unavailable" then 503
  else if eqs code "unauthenticated" then 401
  else 500.

Definition CONNECT_CODES : list string :=
  ["canceled"; "unknown"; "invalid_argument"; "deadline_exceeded"; "not_found"; "already_exists";
   "permission_denied"; "resource_exhausted"; "failed_precondition"; "aborted"; "out_of_range";
   "unimplemented"; "internal"; "unavailable"; "data_loss"; "unauthenticated"].

(** The status, code and description of a stream that failed. *)
Definition stream_failure (reason : string) : Z * string * string :=
  match Cooldown.find_str ": " reason with
  | Some (c, d) =>
      if one_of c CONNECT_CODES then (connect_code_to_http_status c, c, d)
      else (502, "unknown", reason)
  | None => (502, "unknown", reason)
  end.

Definition stream_failure_body (code description : string) : string :=
  to_string (Json.VObject
    [("error", Json.VObject [("code", Json.VString code); ("message", Json.VString description);
                             ("type", Json.VString "upstream_error")])]).

Definition stream_final_failure (mapped : Z) (code description : string) : FinalFailure :=
  {| fail_status := mapped; content_type := Some "application/json";
     fail_body := stream_failure_body code description |}.

(** ** Antigravity's verification demand *)

Definition error_object (body : Json.Value) : Json.Value :=
  match Json.get "error" body with
  | Some e => if Json.is_object e then e else body
  | None => body
  end.

Definition validation_required (error : Json.Value) : bool :=
  match Json.get "details" error ≫= Json.as_array with
  | Some details =>
      existsb (λ d, bool_decide (Json.get "reason" d ≫= Json.as_str = Some "VALIDATION_REQUIRED"))
        details
  | None => false
  end.

Definition set_key (key value : string) (v : Json.Value) : Json.Value :=
  match v with
  | Json.VObject m => Json.VObject (Json.obj_insert key (Json.VString value) m)
  | _ => v
  end.

Definition verification_message (m : AccountMember) : string :=
  "Google account verification required for " +:+ default (member_id m) (email (facts m))
  +:+ " (VALIDATION_REQUIRED). Verify this Google account in your browser, then reauthenticate in the app.".

(** The failure with the account named in it, when the body asks for verification. *)
Definition verification_failure (m : AccountMember) (f : FinalFailure) : option FinalFailure :=
  body ← from_slice (fail_body f);
  if validation_required (error_object body) then
    let annotate e := set_key "account_id" (member_id m)
                        (set_key "message" (verification_message m) e) in
    let body' :=
      match Json.get "error" body with
      | Some e =>
          if Json.is_object e then
            match body with
            | Json.VObject o => Json.VObject (Json.obj_insert "error" (annotate e) o)
            | _ => body
            end
          else annotate body
      | None => annotate body
      end in
    Some {| fail_status := fail_status f; content_type := content_type f;
            fail_body := to_string body' |}
  else None.

(** ** One attempt *)

Section attempt.
Context (rq : Request) (e : Env).

Definition with_app (ls : LoopState) (st : AppState) : LoopState :=
  {| app := st; hierarchy := hierarchy ls; attempted := attempted ls;
     permission_denied := permission_denied ls; retry_round := retry_round ls;
     round_attempts := round_attempts ls; round_retryable := round_retryable ls;
     failover_budget := failover_budget ls; last_failure := last_failure ls; trace := trace ls |}.

Definition with_flags (ls : LoopState) (attempts : nat) (retryable : bool) (budget : nat)
    (denied : list nat) (failure : option FinalFailure) : LoopState :=
  {| app := app ls; hierarchy := hierarchy ls; attempted := attempted ls;
     permission_denied := denied; retry_round := retry_round ls; round_attempts := attempts;
     round_retryable := retryable; failover_budget := budget; last_failure := failure;
     trace := trace ls |}.

(** The usual end of a failed attempt: one more of the budget, and perhaps a failure to
    remember. *)
Definition spend (ls : LoopState) (st : AppState) (f : option FinalFailure) : Flow :=
  Next (with_flags (with_app ls st) (round_attempts ls) (round_retryable ls)
          (S (failover_budget ls)) (permission_denied ls)
          (match f with Some _ => f | None => last_failure ls end)).

(** As [spend], with [round_retryable] set. *)
Definition spend_retryable (ls : LoopState) (st : AppState) (f : FinalFailure) (retryable : bool)
  : Flow :=
  Next (with_flags (with_app ls st) (round_attempts ls) retryable (S (failover_budget ls))
          (permission_denied ls) (Some f)).

(** An exhausted account is not counted against the round. *)
Definition spare (ls : LoopState) (st : AppState) (f : FinalFailure) : Flow :=
  Next (with_flags (with_app ls st) (round_attempts ls - 1)%nat (round_retryable ls)
          (failover_budget ls) (permission_denied ls) (Some f)).

(** Excluding the account for the rest of the request. *)
Definition exclude (ls : LoopState) (st : AppState) (i : nat) (f : FinalFailure)
    (retryable : bool) : Flow :=
  let ls := with_flags (with_app ls st) (round_attempts ls) retryable (S (failover_budget ls))
              (permission_denied ls ++ [i]) (Some f) in
  if home_authoritative rq then Stop ls else Next ls.

(** A refresh that failed, before or after the call. *)
Definition refresh_failed (st : AppState) (t : Target) (m : AccountMember) (auth : bool)
    (text : string) (status : Z) : AppState :=
  let '(m, st) :=
    if auth then (set_health m AuthFailed,
                  record_error st (member_id m) (now_ms e) status ("refresh failed: " +:+ text))
    else (m, st) in
  count_failed_over (put st t (record_fail m (instant e))).

(** The bookkeeping of a delivered success. *)
Definition bind_durable (st : AppState) (m : AccountMember) : AppState :=
  match durable_key rq with
  | Some key =>
      if is_claude_oauth url_host m then
        let force st i := with_router st (AccountRouter.select_forced (router st) i (affinity rq)) in
        match durable_bound rq with
        | Some bound =>
            if negb (eqs bound (member_id m)) then force st bound
            else force (with_durable st (Affinity.put (claude_affinity st) key (member_id m)
                                           (now_unix e))) (member_id m)
        | None => force (with_durable st (Affinity.put (claude_affinity st) key (member_id m)
                                            (now_unix e))) (member_id m)
        end
      else st
  | None => st
  end.

Definition deliver (ls : LoopState) (st : AppState) (m : AccountMember) (s : Success) : Flow :=
  let st := bind_durable st m in
  let st := match hierarchy ls with
            | Some h => (Session.bind_hierarchy first_key h st (member_id m) (now_ms e)).2
            | None => st
            end in
  match collected s with
  | Some (Err error) => Return (JsonError 502 ("buffered upstream body failed: " +:+ error)) (with_app ls st)
  | Some (Ok _) =>
      let st := if (200 <=? success_status s) && (success_status s <=? 299)
                then scheduler_success (clear_error st (member_id m)) (member_id m) (now_unix e)
                else st in
      Return (Delivered (member_id m) (success_status s) false) (with_app ls st)
  | None => Return (Delivered (member_id m) (success_status s) true) (with_app ls st)
  end.

(** [finish_success] reported an error. *)
Definition stream_failed (ls : LoopState) (st : AppState) (t : Target) (i : nat)
    (m : AccountMember) (reason : string) : Flow :=
  let '(mapped, code, description) := stream_failure reason in
  let failure := stream_final_failure mapped code description in
  let sse_status := if eqs code "permission_denied" then 403 else 401 in
  let denial := if is_claude_member m && one_of code ["permission_denied"; "unauthenticated"]
                then Denials.classify sse_status description else Denials.Other in
  match denial with
  | Denials.Other =>
      let m := record_fail m (instant e) in
      let st := count_failed_over (put st t m) in
      let claude_denied := eqs code "permission_denied" && bool_decide (kind m = KClaude) in
      let st :=
        if eqs code "resource_exhausted" || (eqs code "permission_denied" && negb claude_denied)
        then put st t (Cooldown.bench_exhausted_quota m (plan_model rq)
                         (Cooldown.cooldown_deadline_ms (now_ms e) 300) BenchRateLimited)
        else if eqs code "unauthenticated" then put st t (set_health m AuthFailed)
        else if negb claude_denied then non_auth_failure st (member_id m) (now_unix e)
        else st in
      if claude_denied then exclude ls st i failure (round_retryable ls)
      else if bool_decide (kind m = KDevin)
              && (contains reason "ended without EndStream" || contains reason "truncated"
                  || contains reason "ambiguous")
      then Stop (with_flags (with_app ls st) (round_attempts ls) (round_retryable ls)
                   (failover_budget ls) (permission_denied ls) (Some failure))
      else if one_of code ["resource_exhausted"; "permission_denied"] then spare ls st failure
      else spend ls st (Some failure)
  | denial =>
      let st := put st t (record_fail m (instant e)) in
      let st := handle_claude_denial st (member_id m) sse_status description denial (now_ms e)
                  (now_unix e) (saved e) in
      Return (Failure failure) (with_app ls (count_client_error st))
  end.

(** An answer outside 200..399, by status. *)
Definition answer_failed (ls : LoopState) (st : AppState) (t : Target) (i : nat)
    (m : AccountMember) (resp : Reply) (status : Z) : Flow :=
  let failure := extract_failure resp status in
  if status =? 429 then
    let '(m', _) := Cooldown.record_cooldown from_slice env m (reply_headers resp)
                      (fail_body failure) (plan_model rq) (now_ms e) (instant e) in
    let st := clear_error (count_failed_over (put st t m')) (member_id m) in
    if Cooldown.failure_is_limit_exhaustion from_slice (fail_body failure)
    then spare ls st failure
    else spend_retryable ls st failure true
  else if status =? 402 then
    match plan_model rq with
    | Some model =>
        if Cooldown.failure_is_insufficient_credits from_slice (fail_body failure)
           && eqs (provider_name m) "cline"
        then spare ls (put st t (Cooldown.record_credit_402 from_slice env m (fail_body failure) model
                                   (now_ms e)).1) failure
        else spend ls st (Some failure)
    | None => spend ls st (Some failure)
    end
  else if ((500 <=? status) && (status <=? 504)) || ((status =? 529) && is_claude_member m) then
    let st := put st t (record_fail m (instant e)) in
    let st := count_failed_over (non_auth_failure st (member_id m) (now_unix e)) in
    spend_retryable ls st failure (bool_decide (status ∈ [500; 502; 503; 504]))
  else
    match (if (status =? 403) && bool_decide (kind m = KAntigravity)
           then verification_failure m failure else None) with
    | Some failure' =>
        let m' := record_fail (set_health m AuthFailed) (instant e) in
        let st := record_error (put st t m') (member_id m) (now_ms e) status
                    (verification_message m) in
        spend ls (count_failed_over st) (Some failure')
    | None =>
        match (if is_account_scoped_model_rejection status (fail_body failure)
               then plan_model rq else None) with
        | Some model =>
            let m' := record_fail (mark_model_unsupported m model) (instant e) in
            let st := count_failed_over (with_restrictions (put st t m') true) in
            let st := record_error st (member_id m) (now_ms e) status
                        "model not supported by account" in
            spend ls st (Some failure)
        | None =>
            if status =? 403 then
              let st := put st t (record_fail m (instant e)) in
              if bool_decide (kind m = KClaude) then exclude ls st i failure false
              else
                let st := count_failed_over (non_auth_failure st (member_id m) (now_unix e)) in
                spend_retryable ls (record_error st (member_id m) (now_ms e) status "forbidden denial")
                  failure true
            else if status =? 408 then spend_retryable ls st failure true
            else if status =? 401 then
              let st := put st t (record_fail (set_health m AuthFailed) (instant e)) in
              let st := record_error (count_failed_over st) (member_id m) (now_ms e) status
                          "auth failed" in
              spend ls st (Some failure)
            else
              Return (Failure failure)
                (with_app ls (record_error (count_client_error st) (member_id m) (now_ms e) status
                                "client error"))
        end
    end.

(** After the refresh-and-replay. *)
Definition answered (ls : LoopState) (st : AppState) (t : Target) (i : nat) (m : AccountMember)
    (resp : Reply) (status : Z) : Flow :=
  let ls := with_flags ls (round_attempts ls) (retry_status status) (failover_budget ls)
              (permission_denied ls) (last_failure ls) in
  if (200 <=? status) && (status <=? 399) then
    let st := finish_effect e i st in
    let m := match t with Slot i => default m (state_members st !! i) | Dispatched => m end in
    match finish e i with
    | Ok s => deliver ls st m s
    | Err reason => stream_failed ls st t i m reason
    end
  else answer_failed ls st t i m resp status.

(** Only a 401 earns a refresh and a second call. *)
Definition replay (ls : LoopState) (st : AppState) (t : Target) (i : nat) (m : AccountMember)
    (resp : Reply) (refreshed : bool) : Flow :=
  let status := reply_status resp in
  if (status =? 401) && auth_refresh_enabled rq && negb refreshed then
    match refresh_401 e i with
    | Ok _ =>
        match resend e i with
        | Ok resp' => answered ls st t i m resp' (reply_status resp')
        | Err _ => spend ls (count_failed_over (put st t (record_fail m (instant e)))) None
        end
    | Err (auth, text) =>
        spend ls (refresh_failed st t m auth text status) (Some (extract_failure resp status))
    end
  else answered ls st t i m resp status.

(** The classification of a Claude denial, before anything acts on the answer. *)
Definition denial_of (m : AccountMember) (status : Z) (body : string) : Denials.Denial :=
  if is_some (plan_model rq) && is_account_scoped_model_rejection status body
  then Denials.Other else Denials.classify status body.

Definition replied (ls : LoopState) (st : AppState) (t : Target) (i : nat) (m : AccountMember)
    (resp : Reply) (refreshed : bool) : Flow :=
  let status := reply_status resp in
  if is_claude_member m && bool_decide (status ∈ [400; 401; 403]) then
    let failure := extract_failure resp status in
    match denial_of m status (fail_body failure) with
    | Denials.Other => replay ls st t i m (rebuild_response failure) refreshed
    | denial =>
        let st := put st t (record_fail m (instant e)) in
        let st := handle_claude_denial st (member_id m) status (fail_body failure) denial
                    (now_ms e) (now_unix e) (saved e) in
        Return (Failure failure) (with_app ls (count_client_error st))
    end
  else replay ls st t i m resp refreshed.

Definition call (ls : LoopState) (st : AppState) (t : Target) (i : nat) (m : AccountMember)
    (refreshed : bool) : Flow :=
  match refused e i with
  | Some a => Return a (with_app ls st)
  | None =>
      match send e i with
      | Ok resp => replied ls st t i m resp refreshed
      | Err (ambiguous, text) =>
          let st := put st t (record_fail m (instant e)) in
          let st := count_failed_over (non_auth_failure st (member_id m) (now_unix e)) in
          if bool_decide (kind m = KDevin) && ambiguous
          then Return (JsonError 504 ("ambiguous upstream request error: " +:+ text)) (with_app ls st)
          else spend ls st None
      end
  end.

(** One account, from the start of its activity on. *)
Definition try_member (ls : LoopState) (st : AppState) (t : Target) (i : nat) (m : AccountMember)
  : Flow :=
  let m := begin_activity m (instant e) in
  let st := put st t m in
  let ls := {| app := st; hierarchy := hierarchy ls; attempted := attempted ls ++ [i];
               permission_denied := permission_denied ls; retry_round := retry_round ls;
               round_attempts := S (round_attempts ls); round_retryable := false;
               failover_budget := failover_budget ls; last_failure := last_failure ls;
               trace := trace ls ++ [(retry_round ls, i)] |} in
  if auth_refresh_enabled rq && expired e i then
    match refresh e i with
    | Ok _ => call ls st t i m true
    | Err (auth, text) => spend ls (refresh_failed st t m auth text 401) None
    end
  else call ls st t i m false.

(** The guard of an activity is dropped with the iteration, unless a stream took it. *)
Definition end_activity (t : Target) (f : Flow) : Flow :=
  let drop st := match t with
                 | Slot i => match state_members st !! i with
                             | Some m => put st t (drop_activity m (instant e))
                             | None => st
                             end
                 | Dispatched => st
                 end in
  match f with
  | Next ls => Next (with_app ls (drop (app ls)))
  | Stop ls => Stop (with_app ls (drop (app ls)))
  | Return a ls => Return a (match a with
                             | Delivered _ _ true => ls
                             | _ => with_app ls (drop (app ls))
                             end)
  end.

(** ** One iteration *)

(** The candidates of this iteration: those of the request, without the excluded, the
    exhausted and the benched, and within their own retry limit. *)
Definition still_eligible (ls : LoopState) (st : AppState) (i : nat) : bool :=
  negb (bool_decide (i ∈ permission_denied ls))
  && match state_members st !! i with
     | None => false
     | Some m =>
         quota_admits (settings st) (fail_open_quota rq) m (select_model rq)
           (Z.quot (now_ms e) 1000)
         && match select_model rq with
            | Some model => group_available m model (now_ms e)
            | None => true
            end
         && is_available (member_health m) (now_ms e)
         && retry_round_allows m (retry_round ls) (global_retry rq)
     end.

Definition choose (ls : LoopState) (st : AppState) : option nat * AppState :=
  let eligible := filter (λ i, still_eligible ls st i = true) (initial_eligible rq) in
  match hierarchy ls ≫= (λ h, Session.preferred_index h (state_members st) eligible (attempted ls)
                                (now_ms e)) with
  | Some i => (Some i, st)
  | None => select_index st (hint rq) eligible (attempted ls) (now_ms e)
  end.

(** When an account that may take part in the next round recovers. *)
Definition recovery (m : AccountMember) : option Z :=
  match member_health m with
  | AuthFailed | Disabled => None
  | health =>
      let account_deadline := match health with Cooldown until => until | _ => now_ms e end in
      let group_deadline :=
        match group_reset_at_unix m (default "" (select_model rq)) with
        | Some secs => clamp_i64 (secs * 1000)
        | None => now_ms e
        end in
      Some (Z.max account_deadline group_deadline)
  end.

Definition wait_deadlines (ls : LoopState) (st : AppState) : list Z :=
  omap recovery
    (filter (λ m, retry_round_allows m (S (retry_round ls)) (global_retry rq)
                  && Scheduler.permits (scheduler st) (member_id m) = true)
       (omap (λ i, state_members st !! i)
          (filter (λ i, negb (bool_decide (i ∈ permission_denied ls)) = true)
             (initial_eligible rq)))).

Definition next_round (ls : LoopState) (st : AppState) : Flow :=
  let ls := with_app ls st in
  if negb (round_retryable ls) || (retry_limit rq <=? retry_round ls)%nat then Stop ls
  else
    match retry_round_wait_ms (wait_deadlines ls st) (wait_now_ms e) (max_interval rq) with
    | None => Stop ls
    | Some _ =>
        Next {| app := st; hierarchy := hierarchy ls; attempted := [];
                permission_denied := permission_denied ls; retry_round := S (retry_round ls);
                round_attempts := 0; round_retryable := false; failover_budget := 0;
                last_failure := last_failure ls; trace := trace ls |}
    end.

(** The credential of an attempt: Home's when Home decides at that moment and has a
    client, the account of the pool otherwise; a fenced or failing Home answers 503. *)
Definition acquire (st : AppState) (i : nat) : option (result string (Target * AccountMember)) :=
  let slot := (λ m, Ok (Slot i, m)) <$> state_members st !! i in
  if home_now e then
    match dispatched e with
    | Some (Ok m) => Some (Ok (Dispatched, m))
    | Some (Err refusal) => Some (Err refusal)
    | None => slot
    end
  else slot.

Definition iterate (ls : LoopState) : Flow :=
  let st := interfere e (app ls) in
  let ls := with_app ls st in
  if ((retry_limit rq =? 0)%nat && (max_attempts rq <=? failover_budget ls)%nat)
     || (max_attempts rq <=? length (permission_denied ls))%nat
  then Stop ls
  else if (round_attempts ls <? round_credential_cap rq)%nat then
    let '(chosen, st) := if home_authoritative rq then (Some (length (state_members st)), st)
                         else choose ls st in
    match chosen with
    | Some i =>
        match acquire st i with
        | Some (Ok (t, m)) => end_activity t (try_member ls st t i m)
        | Some (Err refusal) => Return (JsonError 503 refusal) (with_app ls st)
        | None => Stop (with_app ls st)
        end
    | None => next_round ls st
    end
  else next_round ls st.
End attempt.

(** ** The loop *)

Section run.
Context (rq : Request) (envs : nat → Env).

(** What the client gets when the loop ends without an answer. *)
Definition final_answer (ls : LoopState) (now : Z) : Answer * AppState :=
  let st := count_exposed_error (app ls) in
  (match last_failure ls with
   | Some f =>
       if Cooldown.failure_is_limit_exhaustion from_slice (fail_body f)
       then Exhausted (Cooldown.exhaustion_failure_response url_host embedded (state_members st)
                         (select_model rq) now)
       else Failure f
   | None => if stream_errors rq then ErrorStream "all failover attempts failed"
             else JsonError 502 "all failover attempts failed"
   end, st).

(** [fuel] bounds the iterations of the [loop]; [k] counts them. *)
Fixpoint run (fuel k : nat) (ls : LoopState) : option (Answer * AppState * list (nat * nat)) :=
  match fuel with
  | O => None
  | S fuel =>
      match iterate rq (envs k) ls with
      | Next ls => run fuel (S k) ls
      | Stop ls => let '(a, st) := final_answer ls (now_ms (envs k)) in Some (a, st, trace ls)
      | Return a ls => Some (a, app ls, trace ls)
      end
  end.

Definition start (st : AppState) (h : option Session.HierarchyContext) : LoopState :=
  {| app := st; hierarchy := h; attempted := []; permission_denied := []; retry_round := 0;
     round_attempts := 0; round_retryable := false; failover_budget := 0; last_failure := None;
     trace := [] |}.
End run.

(** ** Setting up the request *)

Record Plan := {
  model : option string;
  original_body : string;
  required_capability : option ModelCapability;
  openai_stream : bool;
}.

Section setup.
Context (sip : list Z → Z) (sha16 : string → string) (sha8 : string → Z).

(** [session_digest]: [sha8] is the first eight bytes of SHA-256 as a number. *)
Definition session_digest (identity : string) : string :=
  "-" +:+ show_u64 (Z.land (sha8 identity) 0x7FFFFFFFFFFFFFFF).

Definition anchor_text (message : Json.Value) : option string :=
  if negb (bool_decide (Json.get "role" message ≫= Json.as_str = Some "user")) then None
  else
    text ← match Json.get "content" message with
           | Some (Json.VString text) => Some text
           | Some (Json.VArray parts) =>
               Registry.find_map (λ part, Json.get "text" part ≫= Json.as_str) parts
           | _ => None
           end;
    Session.trimmed text.

Definition body_session_anchor (body : Json.Value) : option string :=
  messages ← Json.get "messages" body ≫= Json.as_array;
  (λ text, "body-" +:+ text) <$> Registry.find_map anchor_text messages.

Definition claude_only (route : option ResolvedRoute) : bool :=
  match route with
  | Some r => negb (bool_decide (length (provider_classes r) = 0%nat))
              && forallb (λ c, eqs (Registry.provider_id (binding c)) "claude") (provider_classes r)
  | None => false
  end.

(** The bound account first; the loop starts again from the list as it was. *)
Definition move_to_front (ms : list AccountMember) (bound : string) (eligible : list nat)
  : list nat :=
  match position (at_index (λ m, eqs (member_id m) bound) ms) eligible with
  | Some pos => match eligible !! pos with
                | Some i => i :: take pos eligible ++ drop (S pos) eligible
                | None => eligible
                end
  | None => eligible
  end.

Definition affinity_hint (st : AppState) (h : option Session.HierarchyContext)
    (key_identifier : option string) (route : option ResolvedRoute) (requested : option string)
    (session : option string) : SessionHint :=
  {| affinity_key :=
       if bool_decide (session_affinity (settings st) = Some false) then None
       else match h with
            | Some c => (λ _, Session.affinity_scope c) <$> Session.preferred_member c
            | None => if session_affinity_lcp (settings st) then None
                      else Session.scoped_affinity_key sip key_identifier route requested <$> session
            end |}.

(** From the resolved generation to the loop: an early answer, or the request and the
    loop's first state. *)
Definition prepare (st : AppState) (plan : Plan) (headers : Cooldown.HeaderMap)
    (auth : Session.AuthIdentity) (key_identifier : option string) (bnd : option ApiKeyBinding)
    (scoped : option ScopedApiKey) (max_failover : nat) (home refresh_enabled : bool)
    (now_ms created : Z) : Answer + Request * LoopState :=
  match resolve_route (pool st) (model plan) (required_capability plan) with
  | Err _ => inl (UnknownProvider (default "" (model plan)))
  | Ok route =>
      let '(initial, st) :=
        eligible_indices url_host embedded st route (model plan) now_ms bnd scoped in
      let only_claude := claude_only route in
      let key := if negb (bool_decide (claude_route_mode (settings st) = ApiKeyOnly))
                    && route_serves_claude route
                 then Session.durable_affinity_digest from_slice to_string headers
                        (original_body plan) only_claude
                 else None in
      let bound := key ≫= (λ k, Affinity.get (claude_affinity st) k created) in
      let state := (λ b, (b, bound_member_state url_host embedded st route (model plan) b initial
                               bnd scoped now_ms)) <$> bound in
      match state with
      | Some (_, ShortCooldown secs) => inl (CoolingDown secs)
      | _ =>
          let dbound := match state with Some (b, BoundEligible) => Some b | _ => None end in
          let eligible := match dbound with
                          | Some b => move_to_front (state_members st) b initial
                          | None => initial
                          end in
          let canonical := match route with
                           | Some r => Some (canonical_model r)
                           | None => model plan
                           end in
          let attempts := Nat.min (length eligible) max_failover in
          let attempts := if (attempts =? 0)%nat && home then 1%nat else attempts in
          if bool_decide (length eligible = 0%nat) && is_some scoped then
            inl (JsonError 403 "no permitted accounts/providers available for this API key")
          else if (attempts =? 0)%nat then
            if negb (bool_decide (length (state_members st) = 0%nat))
               && match route with
                  | Some r => bool_decide (length (provider_classes r) = 0%nat)
                  | None => false
                  end
            then inl (UnknownProvider (default "" (model plan)))
            else if is_some (Cooldown.earliest_exhaustion_reset_unix_secs url_host embedded
                               (state_members st) canonical (Z.quot now_ms 1000))
            then inl (Exhausted (Cooldown.exhaustion_failure_response url_host embedded
                                   (state_members st) canonical now_ms))
            else inl (JsonError 503 "no available accounts for this model")
          else
            let aff := Session.routing_affinity_key from_slice to_string sip headers
                         (original_body plan) only_claude in
            let session := match aff with
                           | Some identity => Some (session_digest identity)
                           | None => (from_slice (original_body plan) ≫= body_session_anchor)
                                       ≫= (λ anchor, Some (session_digest anchor))
                           end in
            let principal := Session.auth_affinity_principal auth key_identifier in
            let '(h, st) :=
              Session.resolve_hierarchy from_slice to_string sip sha16 st headers
                (original_body plan) (Some principal) route (model plan) now_ms in
            let hnt := affinity_hint st h key_identifier route (model plan) session in
            let st := match dbound with
                      | Some b => with_router st (AccountRouter.select_forced (router st) b aff)
                      | None => st
                      end in
            let s := settings st in
            let limit := foldr Nat.max 0%nat
                           ((λ m, account_retry_limit m (request_retry s)) <$>
                              omap (λ i, state_members st !! i) initial) in
            let cap := if home then 1%nat
                       else if (max_retry_credentials s =? 0)%nat then length eligible
                       else Nat.min (max_retry_credentials s) (length eligible) in
            inr ({| initial_eligible := initial; retry_limit := limit; round_credential_cap := cap;
                    max_attempts := attempts; home_authoritative := home;
                    auth_refresh_enabled := refresh_enabled;
                    fail_open_quota := scheduler_fail_open st; global_retry := request_retry s;
                    max_interval := max_retry_interval s; plan_model := model plan;
                    select_model := canonical; stream_errors := openai_stream plan; hint := hnt;
                    affinity := aff; durable_key := key; durable_bound := dbound |},
                 start st h)
      end
  end.
End setup.

End relay.
End Relay.
