(* ===== verification/RelayProps.v ===== *)
(** * Properties of the relay loop

    Every request that does not start under Home is answered within a bounded number of
    attempts, even if Home takes over in the middle of it; no account is tried
    twice in a round or against the gates; a healthy account that answers is reached
    before the request is given up; a Claude denial is never failed over - except after
    a refresh and replay - and a request dispatched by Home has no such bound. *)

From Stdlib Require Import Ascii.
From stdpp Require Import gmap strings list sorting.
From S2P Require Import Prelude RustStr RegistryTypes RegistrySnapshot RegistryBuilder Types Router RouterProps Scheduler AffinityStore ClaudeBudget Usage ClineUsage Account AccountModels Json RelayCooldown RelayRoute RouteProps RelayAffinity SessionProps RelayLoop.
Import RustStr Usage Account Models Route Relay.
Open Scope Z_scope.

Definition flow_state (f : Flow) : LoopState :=
  match f with Next ls | Stop ls | Return _ ls => ls end.

(** What an attempt on [i] leaves alone, and how it may exclude [i]. *)
Record kept (i : nat) (ls ls' : LoopState) : Prop := {
  k_attempted : attempted ls' = attempted ls;
  k_trace : trace ls' = trace ls;
  k_round : retry_round ls' = retry_round ls;
  k_hierarchy : hierarchy ls' = hierarchy ls;
  k_denied : permission_denied ls' = permission_denied ls ∨
             permission_denied ls' = permission_denied ls ++ [i];
}.

Section relay.
Context (from_slice : string → option Json.Value) (to_string : Json.Value → string).
Context (env : string → option string) (url_host : string → option string).
Context (embedded : Snapshot.RegistrySnapshot).
Context (first_key : gmap string (string * Z) → option string).

Abbreviation iterate := (iterate from_slice to_string env url_host first_key).
Abbreviation try_member := (try_member from_slice to_string env url_host first_key).
Abbreviation run := (run from_slice to_string env url_host embedded first_key).

(** ** One attempt *)

Ltac flow := repeat (case_match; cbn [flow_state]); try (split; cbn; auto; fail).

Lemma exclude_kept rq ls st i f r : kept i ls (flow_state (exclude rq ls st i f r)).
Proof. unfold exclude. flow. Qed.

Lemma deliver_kept rq e ls st m s i :
  kept i ls (flow_state (deliver url_host first_key rq e ls st m s)).
Proof. unfold deliver. flow. Qed.

Lemma stream_failed_kept rq e ls st t i m reason :
  kept i ls (flow_state (stream_failed to_string url_host rq e ls st t i m reason)).
Proof.
  unfold stream_failed. destruct (stream_failure reason) as [[? ?] ?].
  destruct (if is_claude_member url_host m && _ then _ else _); [split; cbn; auto..|].
  case_if; [apply exclude_kept|]. unfold spare, spend. flow.
Qed.

Lemma answer_failed_kept rq e ls st t i m resp status :
  kept i ls (flow_state (answer_failed from_slice to_string env url_host rq e ls st t i m resp status)).
Proof.
  unfold answer_failed, spare, spend, spend_retryable.
  destruct (Cooldown.record_cooldown _ _ _ _ _ _ _ _) as [? ?].
  repeat first [apply exclude_kept | split; cbn; auto; fail | case_match; cbn [flow_state]].
Qed.

Lemma kept_trans i a b c :
  kept i a b → kept i b c → permission_denied b = permission_denied a → kept i a c.
Proof.
  intros [A1 A2 A3 A4 _] [B1 B2 B3 B4 B5] E. rewrite E in B5. split; congruence || done.
Qed.

Lemma answered_kept rq e ls st t i m resp status :
  kept i ls (flow_state (answered from_slice to_string env url_host first_key rq e ls st t i m
                           resp status)).
Proof.
  unfold answered. set (ls1 := with_flags _ _ _ _ _ _).
  apply (kept_trans _ _ ls1); [split; cbn; auto| |done]. case_if; [|apply answer_failed_kept].
  case_match; [apply deliver_kept|apply stream_failed_kept].
Qed.

Lemma call_kept rq e ls st t i m refreshed :
  kept i ls (flow_state (call from_slice to_string env url_host first_key rq e ls st t i m refreshed)).
Proof.
  unfold call, replied, replay, spend.
  repeat first [apply answered_kept | split; cbn; auto; fail | case_match; cbn [flow_state]].
Qed.

(** An attempt is entered in both lists, and nothing else of the progress changes. *)
Lemma try_member_kept rq e ls st t i m :
  let ls' := flow_state (try_member rq e ls st t i m) in
  attempted ls' = attempted ls ++ [i] ∧ trace ls' = trace ls ++ [(retry_round ls, i)] ∧
  retry_round ls' = retry_round ls ∧ hierarchy ls' = hierarchy ls ∧
  (permission_denied ls' = permission_denied ls ∨
   permission_denied ls' = permission_denied ls ++ [i]).
Proof.
  cbn zeta. unfold Relay.try_member. set (ls1 := {| app := _ |}).
  match goal with |- context [if ?b then ?x else ?y] => set (f := if b then x else y) end.
  assert (Hk : kept i ls1 (flow_state f)).
  { unfold f, spend.
    repeat first [apply call_kept | split; cbn; auto; fail | case_match; cbn [flow_state]]. }
  destruct Hk as [-> -> -> -> Hd]. done.
Qed.

Lemma end_activity_state e t f :
  match end_activity e t f, f with
  | Next a, Next b | Stop a, Stop b => ∃ st, a = with_app b st
  | Return x a, Return y b => x = y ∧ ∃ st, a = with_app b st
  | _, _ => False
  end.
Proof.
  destruct f as [ls|ls|a ls]; cbn; eauto. split; [done|].
  assert (∃ st, ls = with_app ls st) by (exists (app ls); by destruct ls).
  destruct a as [| | | | | |? ? []]; eauto.
Qed.

Lemma end_activity_progress e t f :
  trace (flow_state (end_activity e t f)) = trace (flow_state f) ∧
  permission_denied (flow_state (end_activity e t f)) = permission_denied (flow_state f).
Proof.
  pose proof (end_activity_state e t f) as H. destruct f, (end_activity e _ _); try done; cbn;
    [destruct H as [? ->]..|destruct H as (_ & ? & ->)]; done.
Qed.

(** ** The choice *)

Lemma still_eligible_spec rq e ls st i :
  still_eligible rq e ls st i = true →
  (i ∉ permission_denied ls) ∧
  ∃ m, state_members st !! i = Some m ∧
    quota_admits (settings st) (fail_open_quota rq) m (select_model rq) (Z.quot (now_ms e) 1000) = true ∧
    (∀ model, select_model rq = Some model → group_available m model (now_ms e) = true) ∧
    is_available (member_health m) (now_ms e) = true ∧
    retry_round_allows m (retry_round ls) (global_retry rq) = true.
Proof.
  unfold still_eligible. destruct (state_members st !! i) as [m|]; [|by rewrite andb_false_r].
  intros [Hd [[[Hq Hg]%andb_true_iff Ha]%andb_true_iff Hr]%andb_true_iff]%andb_true_iff.
  bool_to_prop. split; [done|]. exists m. split_and!; try done.
  intros model Hm. by rewrite Hm in Hg.
Qed.

Lemma with_router_same st : with_router st (router st) = st.
Proof. by destruct st. Qed.

Lemma select_index_frame st hint eligible exclude now :
  ∃ r, (select_index st hint eligible exclude now).2 = with_router st r.
Proof.
  unfold select_index. destruct (candidates _ _ _ _); [|exists (router st); by rewrite with_router_same].
  destruct (AccountRouter.select _ _ _ _). by eexists.
Qed.

Lemma choose_spec rq e ls st i st' :
  choose rq e ls st = (Some i, st') →
  i ∈ initial_eligible rq ∧ (i ∉ attempted ls) ∧ still_eligible rq e ls st i = true ∧
  ∃ r, st' = with_router st r.
Proof.
  unfold choose. set (eligible := filter _ _).
  assert (Hsub : ∀ j, j ∈ eligible → j ∈ initial_eligible rq ∧ still_eligible rq e ls st j = true).
  { intros j Hj. apply list_elem_of_filter in Hj. tauto. }
  destruct (hierarchy ls ≫= _) as [j|] eqn:Hp.
  - intros [= -> <-]. destruct (hierarchy ls) as [h|]; [|done].
    apply preferred_index_sound in Hp as (Hin & Hn & _). apply Hsub in Hin as [? ?].
    split_and!; try done. exists (router st). by rewrite with_router_same.
  - intros E. pose proof (select_index_some st (hint rq) eligible (attempted ls) (now_ms e) i) as H.
    pose proof (select_index_frame st (hint rq) eligible (attempted ls) (now_ms e)) as [r Hs].
    rewrite E in *. cbn in *. destruct (H eq_refl) as (Hin & Hn & _). apply Hsub in Hin as [? ?].
    split_and!; eauto.
Qed.

Lemma choose_exhausted rq e ls st st' i :
  choose rq e ls st = (None, st') → i ∈ initial_eligible rq → still_eligible rq e ls st i = true →
  i ∈ attempted ls.
Proof.
  unfold choose. set (eligible := filter _ _). intros E Hi Hs. destruct (hierarchy ls ≫= _); [done|].
  apply (select_index_exhausted st (hint rq) eligible (attempted ls) (now_ms e)).
  - by rewrite E.
  - apply list.Forall_forall. intros j [Hj _]%list_elem_of_filter.
    apply still_eligible_spec in Hj as (_ & m & Hm & _ & _ & Ha & _). eauto.
  - by apply list_elem_of_filter.
Qed.

Lemma acquire_pool e st i :
  home_now e = false → acquire e st i = (λ m, Ok (Slot i, m)) <$> state_members st !! i.
Proof. unfold acquire. by intros ->. Qed.

(** Whose credential an attempt uses. *)
Lemma acquire_some e st i t m :
  acquire e st i = Some (Ok (t, m)) →
  t = Slot i ∧ state_members st !! i = Some m ∨
  t = Dispatched ∧ home_now e = true ∧ dispatched e = Some (Ok m).
Proof.
  unfold acquire. destruct (home_now e); [destruct (dispatched e) as [[]|]|];
    destruct (state_members st !! i); naive_solver.
Qed.

(** An iteration gives up, is refused by Home, starts the next round, or attempts the
    chosen account. *)
Lemma iterate_cases rq e ls :
  home_authoritative rq = false →
  let st := interfere e (app ls) in
  let f := iterate rq e ls in
  (∃ st', f = Stop (with_app ls st') ∨
          ∃ refusal, home_now e = true ∧ f = Return (JsonError 503 refusal) (with_app ls st')) ∨
  (∃ ls', f = Next ls' ∧ (retry_round ls < retry_limit rq)%nat ∧
          retry_round ls' = S (retry_round ls) ∧ attempted ls' = [] ∧ trace ls' = trace ls ∧
          permission_denied ls' = permission_denied ls) ∨
  (∃ i st' t m, choose rq e (with_app ls st) st = (Some i, st') ∧
     acquire e st' i = Some (Ok (t, m)) ∧
     f = end_activity e t (try_member rq e (with_app ls st) st' t i m)).
Proof.
  intros Hh. cbn zeta. unfold Relay.iterate. set (st := interfere e (app ls)).
  assert (Hr : ∀ st', let f := next_round rq e (with_app ls st) st' in
     (∃ st', f = Stop (with_app ls st')) ∨
     (∃ ls', f = Next ls' ∧ (retry_round ls < retry_limit rq)%nat ∧
             retry_round ls' = S (retry_round ls) ∧ attempted ls' = [] ∧ trace ls' = trace ls ∧
          permission_denied ls' = permission_denied ls)).
  { intros st'. cbn zeta. unfold next_round. destruct (_ || (retry_limit rq <=? _)%nat) eqn:Hc; [left; eauto|].
    apply orb_false_iff in Hc as [_ Hc%Nat.leb_gt].
    destruct (retry_round_wait_ms _ _ _); [right|left]; eauto 10. }
  rewrite Hh. case_if; [left; eauto|]. case_if; [|destruct (Hr st) as [[x H]|H]; [left|right; left]; eauto].
  destruct (choose rq e (with_app ls st) st) as [[i|] st'] eqn:Hc.
  - destruct (acquire e st' i) as [[[t m]|refusal]|] eqn:Hm; [right; right; eauto 10|left|left; eauto].
    exists st'. right. exists refusal. split; [|done]. revert Hm. unfold acquire.
    destruct (home_now e); [done|]. by destruct (state_members st' !! i).
  - destruct (Hr st') as [[x H]|H]; [left|right; left]; eauto.
Qed.

(** ** Reachable states *)

Inductive reachable (rq : Request) : LoopState → Prop :=
  | reach_start st h : reachable rq (start st h)
  | reach_next e ls ls' : reachable rq ls → iterate rq e ls = Next ls' → reachable rq ls'.

(** The bookkeeping of the rounds. *)
Record rounds_ok (rq : Request) (ls : LoopState) : Prop := {
  r_round : (retry_round ls ≤ retry_limit rq)%nat;
  r_attempted : NoDup (attempted ls);
  r_initial : Forall (λ i, i ∈ initial_eligible rq) (attempted ls);
  r_trace : NoDup (trace ls);
  r_now : ∀ i, i ∈ attempted ls ↔ (retry_round ls, i) ∈ trace ls;
  r_past : Forall (λ p, (p.1 ≤ retry_round ls)%nat ∧ p.2 ∈ initial_eligible rq) (trace ls);
}.

Lemma start_ok rq st h : rounds_ok rq (start st h).
Proof. split; cbn; try constructor; try lia; set_solver. Qed.

Lemma attempt_ok rq ls ls' i :
  rounds_ok rq ls → i ∈ initial_eligible rq → (i ∉ attempted ls) →
  attempted ls' = attempted ls ++ [i] → trace ls' = trace ls ++ [(retry_round ls, i)] →
  retry_round ls' = retry_round ls → rounds_ok rq ls'.
Proof.
  intros [H1 H2 H3 H4 H5 H6] Hi Hn Ea Et Er. split; rewrite ?Ea, ?Et, ?Er; try done.
  - apply NoDup_app. split_and!; [done| |apply NoDup_singleton]. set_solver.
  - apply Forall_app. split; [done|]. by apply Forall_singleton.
  - apply NoDup_app. split_and!; [done| |apply NoDup_singleton].
    intros x Hx ->%list_elem_of_singleton. by apply Hn, H5.
  - intros j. rewrite !elem_of_app, !list_elem_of_singleton, H5. split; [|naive_solver].
    intros [?| ->]; auto.
  - apply Forall_app. split; [done|]. apply Forall_singleton. cbn. auto.
Qed.

Lemma round_ok rq ls ls' :
  rounds_ok rq ls → (retry_round ls < retry_limit rq)%nat →
  retry_round ls' = S (retry_round ls) → attempted ls' = [] → trace ls' = trace ls →
  rounds_ok rq ls'.
Proof.
  intros [H1 H2 H3 H4 H5 H6] Hlt Er Ea Et.
  split; rewrite ?Ea, ?Et, ?Er; try done; [constructor..| |].
  - intros j. split; [by intros ?%elem_of_nil|]. intros Hj.
    rewrite list.Forall_forall in H6. apply H6 in Hj as [Hj _]. cbn in Hj. lia.
  - eapply Forall_impl; [exact H6|]. cbn. intros p [? ?]. split; [lia|done].
Qed.

Lemma with_app_ok rq ls st : rounds_ok rq ls → rounds_ok rq (with_app ls st).
Proof. intros [H1 H2 H3 H4 H5 H6]. by split. Qed.

Lemma end_activity_ok rq e t f :
  rounds_ok rq (flow_state f) → rounds_ok rq (flow_state (end_activity e t f)).
Proof.
  pose proof (end_activity_state e t f) as H.
  destruct f, (end_activity e t _); try done; cbn;
    [destruct H as [st ->]..|destruct H as (_ & st & ->)]; apply with_app_ok.
Qed.

Lemma iterate_ok rq e ls :
  home_authoritative rq = false → rounds_ok rq ls → rounds_ok rq (flow_state (iterate rq e ls)).
Proof.
  intros Hh Hok. destruct (iterate_cases rq e ls Hh)
    as [(st' & [-> | (refusal & _ & ->)])|[(ls' & -> & Hlt & Er & Ea & Et & _)|
        (i & st' & t & m & Hc & Hm & ->)]].
  1-2: by apply with_app_ok.
  - by eapply round_ok.
  - apply choose_spec in Hc as (Hi & Hn & _).
    apply end_activity_ok. set (ls1 := with_app ls _) in *.
    destruct (try_member_kept rq e ls1 st' t i m) as (Ea & Et & Er & _).
    by apply (attempt_ok rq ls1 _ i); [apply with_app_ok|..].
Qed.

Lemma reachable_ok rq ls :
  home_authoritative rq = false → reachable rq ls → rounds_ok rq ls.
Proof.
  intros Hh. induction 1 as [st h|e ls ls' _ IH E]; [apply start_ok|].
  pose proof (iterate_ok rq e ls Hh IH) as H. by rewrite E in H.
Qed.

(** ** Termination *)

(** What is left of a request: the rounds to come and the accounts of this round. *)
Definition remaining (rq : Request) (ls : LoopState) : nat :=
  let n := length (initial_eligible rq) in
  ((retry_limit rq - retry_round ls) * S n + (n - length (attempted ls)))%nat.

Lemma attempted_le rq ls :
  rounds_ok rq ls → (length (attempted ls) ≤ length (initial_eligible rq))%nat.
Proof.
  intros [_ Hn Hi _ _ _]. apply submseteq_length. apply NoDup_submseteq; [done|].
  by apply list.Forall_forall.
Qed.

Lemma iterate_remaining rq e ls ls' :
  home_authoritative rq = false → rounds_ok rq ls → iterate rq e ls = Next ls' →
  (remaining rq ls' < remaining rq ls)%nat.
Proof.
  intros Hh Hok E. pose proof (iterate_ok rq e ls Hh Hok) as Hok'. rewrite E in Hok'. cbn in Hok'.
  pose proof (attempted_le _ _ Hok) as Hl. pose proof (attempted_le _ _ Hok') as Hl'.
  unfold remaining. destruct (iterate_cases rq e ls Hh)
    as [(st' & [Ec|(refusal & _ & Ec)])|[(x & Ec & Hlt & Er & Ea & Et & _)|
        (i & st' & t & m & Hc & Hm & Ec)]]; rewrite E in Ec; [done..| |].
  - injection Ec as <-. rewrite Er, Ea. cbn [length].
    replace (retry_limit rq - retry_round ls)%nat
      with (S (retry_limit rq - S (retry_round ls)))%nat by lia. lia.
  - set (ls1 := with_app ls _) in *.
    destruct (try_member_kept rq e ls1 st' t i m) as (Ea & _ & Er & _).
    pose proof (end_activity_state e t (try_member rq e ls1 st' t i m)) as H.
    rewrite <- Ec in H. destruct (try_member rq e ls1 st' t i m); try done.
    destruct H as [st ->]. cbn in *. rewrite Er. rewrite Ea, length_app in *. cbn in *. lia.
Qed.

Lemma run_returns rq envs : ∀ fuel k ls,
  home_authoritative rq = false → rounds_ok rq ls → (remaining rq ls < fuel)%nat →
  ∃ a st tr, run rq envs fuel k ls = Some (a, st, tr) ∧ NoDup tr ∧
    Forall (λ p, (p.1 ≤ retry_limit rq)%nat ∧ p.2 ∈ initial_eligible rq) tr.
Proof.
  induction fuel as [|fuel IH]; intros k ls Hh Hok Hf; [lia|]. cbn [Relay.run].
  pose proof (iterate_ok rq (envs k) ls Hh Hok) as Hok'.
  assert (Htr : ∀ ls', rounds_ok rq ls' → NoDup (trace ls') ∧
    Forall (λ p, (p.1 ≤ retry_limit rq)%nat ∧ p.2 ∈ initial_eligible rq) (trace ls')).
  { intros ls' [H1 _ _ H4 _ H6]. split; [done|]. eapply Forall_impl; [exact H6|]. cbn.
    intros p [? ?]. split; [lia|done]. }
  destruct (iterate rq (envs k) ls) as [ls'|ls'|a ls'] eqn:E; cbn in Hok'.
  - apply IH; [done..|]. pose proof (iterate_remaining _ _ _ _ Hh Hok E). lia.
  - destruct (final_answer _ _ _ _ _ _) as [a st]. eauto 10.
  - eauto 10.
Qed.

(** C1: Every request that does not start under Home is answered, and in a bounded number
    of attempts.  If Home is not authoritative, or has no client, when the request starts
    ([home_authoritative] is false: the side condition, and needed, since
    [home_exhaustion_unbounded] shows that a request which starts under Home can go on
    for ever), then whatever the upstreams answer, whatever other requests do meanwhile
    and even if Home becomes authoritative in the middle of it, the loop ends with an
    answer after at most [(retry_limit + 1) * (candidates + 1)] iterations; each
    attempt is on a candidate of the request, in a round within the retry limit, and
    no account is tried twice in a round. *)
Theorem relay_terminates rq envs st h :
  home_authoritative rq = false →
  ∃ a st' tr,
    run rq envs (S (retry_limit rq) * S (length (initial_eligible rq)))%nat 0 (start st h)
      = Some (a, st', tr) ∧
    NoDup tr ∧ Forall (λ p, (p.1 ≤ retry_limit rq)%nat ∧ p.2 ∈ initial_eligible rq) tr.
Proof.
  intros Hh. apply run_returns; [done|apply start_ok|]. unfold remaining. cbn. lia.
Qed.

(** C4: No attempt goes around the gates.  For a request that does not start under Home
    (the side condition [home_authoritative rq = false]), each iteration attempts only an
    account that is in the pool, available, within quota, not cooling down for the model
    and within its own retry limit, and not if the request tried it in this round or saw
    it denied; what the request saw denied stays so for all its rounds.  The credential
    sent is that account's own, except when Home is authoritative at the moment of the
    attempt: then it is the one Home dispatches in the account's place, which these
    gates do not look at. *)
Theorem attempts_admitted rq e ls :
  home_authoritative rq = false →
  let st := interfere e (app ls) in
  let ls' := flow_state (iterate rq e ls) in
  permission_denied ls `prefix_of` permission_denied ls' ∧
  ∀ i, trace ls' = trace ls ++ [(retry_round ls, i)] →
    (i ∉ permission_denied ls) ∧ (i ∉ attempted ls) ∧ i ∈ initial_eligible rq ∧
    ∃ m, state_members st !! i = Some m ∧ is_available (member_health m) (now_ms e) = true ∧
      quota_admits (settings st) (fail_open_quota rq) m (select_model rq)
        (Z.quot (now_ms e) 1000) = true ∧
      (∀ model, select_model rq = Some model → group_available m model (now_ms e) = true) ∧
      retry_round_allows m (retry_round ls) (global_retry rq) = true ∧
      ∃ r t m', iterate rq e ls =
          end_activity e t (try_member rq e (with_app ls st) (with_router st r) t i m') ∧
        (t = Slot i ∧ m' = m ∨
         t = Dispatched ∧ home_now e = true ∧ dispatched e = Some (Ok m')).
Proof.
  intros Hh. cbn zeta. set (st := interfere e (app ls)).
  assert (Hne : ∀ i, trace ls ≠ trace ls ++ [(retry_round ls, i)]).
  { intros i E. apply (f_equal length) in E. rewrite length_app in E. cbn in E. lia. }
  destruct (iterate_cases rq e ls Hh)
    as [(st' & [-> | (refusal & _ & ->)])|[(ls' & -> & _ & _ & _ & Et & Ed)|
        (i & st' & t & m & Hc & Hm & Ei)]]; cbn [flow_state].
  1-2: split; [done|]; intros i E; by destruct (Hne i).
  - rewrite Ed. split; [done|]. intros i E. rewrite Et in E. by destruct (Hne i).
  - rewrite Ei. fold st in Hc, Ei |- *. pose proof (choose_spec _ _ _ _ _ _ Hc) as (Hi & Hn & Hs & r & ->).
    apply still_eligible_spec in Hs as (Hd & m' & Hm' & Hq & Hg & Ha & Hr).
    set (ls1 := with_app ls st) in *. set (f := try_member rq e ls1 (with_router st r) t i m) in *.
    destruct (try_member_kept rq e ls1 (with_router st r) t i m) as (_ & Et & _ & _ & Hden).
    fold f in Et, Hden. destruct (end_activity_progress e t f) as [Hf1 Hf2]. rewrite Hf1, Hf2, Et.
    split.
    + destruct Hden as [-> | ->]; [done|]. by exists [i].
    + intros j E. apply app_inj_1 in E as [_ [= <-]]; [|done]. split_and!; try done.
      exists m'. split_and!; try done. exists r, t, m. split; [done|].
      apply acquire_some in Hm as [[-> Hm]|Hm]; [left|by right].
      change (state_members st !! i = Some m) in Hm. by rewrite Hm in Hm'; injection Hm'.
Qed.

(** ** Claude denials *)

Lemma record_error_frame st a now status msg :
  state_members (record_error st a now status msg) = state_members st ∧
  settings (record_error st a now status msg) = settings st.
Proof. unfold record_error. by case_if. Qed.

Lemma denial_members st a status msg d nm nu saved :
  state_members (handle_claude_denial st a status msg d nm nu saved) = state_members st.
Proof.
  unfold handle_claude_denial. destruct d, saved; try destruct (Denials.record _ _ _) as [[] ?]; cbn [negb];
    try (rewrite (proj1 (record_error_frame _ _ _ _ _)); done);
    unfold state_members; cbn; apply record_error_frame.
Qed.

(** Whether a denial makes the account suspect: an enforcement notice at once, a bare
    denial the second time within ten minutes. *)
Definition promotes (st : AppState) (account : string) (d : Denials.Denial) (now : Z) : Prop :=
  d = Denials.Enforcement ∨
  d = Denials.Denied ∧
    ∃ at_, claude_denials st !! account = Some at_ ∧ now - at_ ≤ Denials.DENIED_PROMOTION_WINDOW_SECS.

Lemma denial_suspects st account status msg d nm nu :
  promotes st account d nu →
  is_Some (claude_suspected_accounts
             (settings (handle_claude_denial st account status msg d nm nu true)) !! account).
Proof.
  unfold promotes, handle_claude_denial, Denials.record. intros [-> |(-> & at_ & -> & Hle)].
  - cbn. rewrite lookup_insert_eq. by eexists.
  - rewrite (proj2 (Z.leb_le _ _)) by done. cbn. rewrite lookup_insert_eq. by eexists.
Qed.

Lemma suspect_not_routable st m :
  is_claude_member url_host m = true →
  is_Some (claude_suspected_accounts (settings st) !! member_id m) →
  claude_member_routable url_host st m = false.
Proof.
  unfold is_claude_member, claude_member_routable. intros [Hk Hr]%andb_true_iff [x ->].
  bool_to_prop. rewrite (bool_decide_eq_true_2 (kind m = KClaude)) by done. rewrite Hr. done.
Qed.

(** The attempt on [i] that the trace shows, unfolded. *)
Lemma iterate_attempt rq e ls i :
  home_authoritative rq = false → home_now e = false →
  let st := interfere e (app ls) in
  trace (flow_state (iterate rq e ls)) = trace ls ++ [(retry_round ls, i)] →
  ∃ r m, state_members st !! i = Some m ∧
    iterate rq e ls =
      end_activity e (Slot i) (try_member rq e (with_app ls st) (with_router st r) (Slot i) i m).
Proof.
  intros Hh Hnow. cbn zeta. set (st := interfere e (app ls)). intros Ht.
  assert (Hne : trace ls ≠ trace ls ++ [(retry_round ls, i)]).
  { intros E. apply (f_equal length) in E. rewrite length_app in E. cbn in E. lia. }
  destruct (iterate_cases rq e ls Hh)
    as [(st' & [E|(refusal & _ & E)])|[(ls' & E & _ & _ & _ & Et & Ed)|
        (j & st' & t & m & Hc & Hm & E)]];
    rewrite E in Ht; [by destruct Hne..|cbn in Ht; rewrite Et in Ht; by destruct Hne|].
  rewrite acquire_pool in Hm by done. destruct (state_members st' !! j) as [m0|] eqn:Hm0; [|done].
  cbn in Hm. injection Hm as <- ->. fold st in Hc, E, Ht. pose proof (choose_spec _ _ _ _ _ _ Hc) as (_ & _ & _ & r & ->).
  set (f := try_member rq e (with_app ls st) (with_router st r) (Slot j) j m) in *.
  destruct (try_member_kept rq e (with_app ls st) (with_router st r) (Slot j) j m) as (_ & Et & _). fold f in Et.
  assert (i = j) as ->.
  { rewrite (proj1 (end_activity_progress e (Slot j) f)), Et in Ht.
    by apply app_inj_1 in Ht as [_ [= E']]. }
  eauto.
Qed.


Lemma put_slot st i m m0 :
  state_members st !! i = Some m0 → state_members (put st (Slot i) m) !! i = Some m.
Proof.
  intros H. unfold put, state_members. cbn. apply list_lookup_insert_eq. by eapply lookup_lt_Some.
Qed.

(** What the end of an attempt does to the account's state: one request less. *)
Lemma end_activity_return e i a ls m :
  state_members (app ls) !! i = Some m →
  ∃ st, end_activity e (Slot i) (Return a ls) = Return a (with_app ls st) ∧
    settings st = settings (app ls) ∧
    ∃ m', state_members st !! i = Some m' ∧ member_health m' = member_health m.
Proof.
  intros Hm. destruct a as [| | | | | |? ? []].
  1-6,8: exists (put (app ls) (Slot i) (drop_activity m (instant e))); cbn; rewrite Hm;
    split_and!; [done..|eexists; split; [by eapply put_slot|done]].
  exists (app ls). split_and!; [by destruct ls|done|eauto].
Qed.

(** The loop state an attempt starts from. *)
Definition entered (ls : LoopState) (st : AppState) (i : nat) : LoopState :=
  {| app := st; hierarchy := hierarchy ls; attempted := attempted ls ++ [i];
     permission_denied := permission_denied ls; retry_round := retry_round ls;
     round_attempts := S (round_attempts ls); round_retryable := false;
     failover_budget := failover_budget ls; last_failure := last_failure ls;
     trace := trace ls ++ [(retry_round ls, i)] |}.

(** The account's credential is usable: not expired, or refreshed. *)
Definition credential_ok (rq : Request) (e : Env) (i : nat) : Prop :=
  auth_refresh_enabled rq && expired e i = false ∨ refresh e i = Ok tt.

Lemma try_member_calls rq e ls st t i m :
  credential_ok rq e i →
  let m' := begin_activity m (instant e) in
  ∃ refreshed, try_member rq e ls st t i m =
    call from_slice to_string env url_host first_key rq e (entered ls (put st t m') i)
      (put st t m') t i m' refreshed.
Proof.
  cbn zeta. unfold Relay.try_member. intros [-> | ->]; [by eexists|].
  destruct (auth_refresh_enabled rq && expired e i); by eexists.
Qed.

(** C3: A Claude denial ends the request.  Take an attempt on a Claude account of the pool
    (Home authoritative neither when the request started nor at the attempt), whose
    credential is usable or could be refreshed and whose request is not refused before it
    is sent.  When the first answer has status 400, 401 or 403 and is classified as an
    enforcement notice or a bare denial, the client gets that answer and no other account
    is tried; the account keeps its health; and when the denial is an enforcement notice,
    or the second within ten minutes, and the settings document could be written, the
    account is no longer routable for any request.  (When the write fails the code only
    logs it, see [unsaved_denial_stays_routable]; and a denial that answers a replayed
    request is failed over, see [replayed_denial_fails_over].) *)
Theorem denial_ends_request rq envs fuel k ls i m resp :
  home_authoritative rq = false → home_now (envs k) = false →
  let e := envs k in
  let st := interfere e (app ls) in
  let body := fail_body (extract_failure to_string resp (reply_status resp)) in
  let d := denial_of rq m (reply_status resp) body in
  trace (flow_state (iterate rq e ls)) = trace ls ++ [(retry_round ls, i)] →
  state_members st !! i = Some m → is_claude_member url_host m = true →
  credential_ok rq e i → refused e i = None → send e i = Ok resp → reply_status resp ∈ [400; 401; 403] →
  d ≠ Denials.Other →
  ∃ st', run rq envs (S fuel) k ls =
           Some (Failure (extract_failure to_string resp (reply_status resp)), st',
                 trace ls ++ [(retry_round ls, i)]) ∧
         (∃ m', state_members st' !! i = Some m' ∧ member_health m' = member_health m) ∧
         (promotes st (member_id m) d (now_unix e) → saved e = true →
          claude_member_routable url_host st' m = false).
Proof.
  intros Hh Hnow. cbn zeta. set (e := envs k) in *. set (st := interfere e (app ls)).
  intros Ht Hm Hc Hexp Hrf Hsend Hst Hd. cbn [Relay.run]. fold e.
  destruct (iterate_attempt rq e ls i Hh Hnow Ht) as (r & m1 & Hm1 & ->). fold st in Hm1 |- *.
  rewrite Hm in Hm1. injection Hm1 as <-.
  destruct (try_member_calls rq e (with_app ls st) (with_router st r) (Slot i) i m Hexp)
    as [refreshed ->].
  set (m1 := begin_activity m (instant e)). set (st1 := put (with_router st r) (Slot i) m1).
  set (ls1 := entered (with_app ls st) st1 i).
  assert (Hm1 : state_members st1 !! i = Some m1) by (by eapply put_slot).
  set (failure := extract_failure to_string resp (reply_status resp)) in *.
  set (d := denial_of rq m (reply_status resp) (fail_body failure)) in *.
  set (st2 := handle_claude_denial (put st1 (Slot i) (record_fail m1 (instant e))) (member_id m)
                (reply_status resp) (fail_body failure) d (now_ms e) (now_unix e) (saved e)).
  assert (Hcall :
    call from_slice to_string env url_host first_key rq e ls1 st1 (Slot i) i m1 refreshed =
    Return (Failure failure) (with_app ls1 (count_client_error st2))).
  { unfold call. rewrite Hrf, Hsend. unfold replied.
    change (is_claude_member url_host m1) with (is_claude_member url_host m). rewrite Hc.
    rewrite (bool_decide_eq_true_2 _ Hst). cbn [andb]. fold failure.
    change (denial_of rq m1 (reply_status resp) (fail_body failure)) with d.
    change (member_id m1) with (member_id m). unfold st2. by destruct d. }
  rewrite Hcall.
  assert (Hm2 : state_members (count_client_error st2) !! i = Some (record_fail m1 (instant e))).
  { change (state_members (count_client_error st2)) with (state_members st2). unfold st2.
    rewrite denial_members. by eapply put_slot. }
  destruct (end_activity_return e i (Failure failure) (with_app ls1 (count_client_error st2)) _ Hm2)
    as (st' & -> & Es & m' & Hm' & Hh').
  exists st'. split_and!; [done|eauto|]. intros Hp Hsaved. apply suspect_not_routable; [done|].
  rewrite Es. change (settings (app _)) with (settings st2). unfold st2. rewrite Hsaved. apply (denial_suspects (put st1 (Slot i) (record_fail m1 (instant e)))). exact Hp.
Qed.

(** ** Reaching a healthy account *)

(** What an attempt on another account leaves of account [g]. *)
Definition frame (g : nat) (st st' : AppState) : Prop :=
  state_members st' !! g = state_members st !! g ∧ settings st' = settings st.

Lemma frame_put g i st m : i ≠ g → frame g st (put st (Slot i) m).
Proof.
  intros Hn. split; [|done]. unfold put, state_members. cbn. by apply list_lookup_insert_ne.
Qed.

Lemma frame_trans g a b c : frame g a b → frame g b c → frame g a c.
Proof. intros [? ?] [? ?]. split; congruence. Qed.

Lemma frame_end g e i f :
  i ≠ g → frame g (app (flow_state f)) (app (flow_state (end_activity e (Slot i) f))).
Proof.
  intros Hn. destruct f as [ls|ls|a ls]; cbn; [..|destruct a as [| | | | | |? ? []]]; cbn; try done;
    destruct (state_members (app ls) !! i); try done; by apply frame_put.
Qed.

(** An attempt that only moves on: at most one more of each count. *)
Definition moves_on (g : nat) (ls : LoopState) (st : AppState) (f : Flow) : Prop :=
  ∃ ls', f = Next ls' ∧ frame g st (app ls') ∧ permission_denied ls' = permission_denied ls ∧
    (round_attempts ls' ≤ round_attempts ls)%nat ∧
    (failover_budget ls' ≤ S (failover_budget ls))%nat.

Lemma moves_on_frame g ls st st' f : frame g st st' → moves_on g ls st' f → moves_on g ls st f.
Proof.
  intros Hf (ls' & -> & H1 & H2). exists ls'. split; [done|]. split; [|done]. by eapply frame_trans.
Qed.

Lemma spend_moves g ls st f : moves_on g ls st (spend ls st f).
Proof. eexists. split; [done|]. cbn. split_and!; [done..|lia|lia]. Qed.
Lemma spend_retryable_moves g ls st f r : moves_on g ls st (spend_retryable ls st f r).
Proof. eexists. split; [done|]. cbn. split_and!; [done..|lia|lia]. Qed.
Lemma spare_moves g ls st f : moves_on g ls st (spare ls st f).
Proof. eexists. split; [done|]. cbn. split_and!; [done..|lia|lia]. Qed.

(** Evaluates the conditions that are decided by known statuses. *)
Ltac decide_ifs :=
  repeat match goal with
         | |- context [if ?b then _ else _] =>
             let v := eval cbn [Z.eqb Z.leb Z.compare Pos.eqb Pos.compare Pos.compare_cont andb orb negb
                                is_account_scoped_model_rejection] in b in
             match v with true => change b with true | false => change b with false end;
             cbv iota
         end.

(** The answers that always lead to the next account. *)
Definition fails_over (r : result (bool * string) Reply) : Prop :=
  match r with
  | Err (ambiguous, _) => ambiguous = false
  | Ok resp => reply_status resp ∈ [402; 408; 429; 500; 502; 503; 504]
  end.

Lemma answer_failed_moves rq e g ls st i m resp :
  i ≠ g → reply_status resp ∈ [402; 408; 429; 500; 502; 503; 504] →
  moves_on g ls st (answer_failed from_slice to_string env url_host rq e ls st (Slot i) i m resp
                      (reply_status resp)).
Proof.
  intros Hn Hs. unfold answer_failed.
  destruct (Cooldown.record_cooldown _ _ _ _ _ _ _ _) as [mc ?].
  assert (Hp : ∀ m', frame g st (put st (Slot i) m')) by (intros; by apply frame_put).
  repeat (apply elem_of_cons in Hs as [->|Hs]); [..|by apply elem_of_nil in Hs]; decide_ifs.
  - destruct (plan_model rq); [case_if|]; [|apply spend_moves..].
    eapply moves_on_frame; [apply Hp|apply spare_moves].
  - apply spend_retryable_moves.
  - case_if; (eapply moves_on_frame; [|apply spare_moves || apply spend_retryable_moves]); apply Hp.
  - eapply moves_on_frame; [|apply spend_retryable_moves]. apply Hp.
  - eapply moves_on_frame; [|apply spend_retryable_moves]. apply Hp.
  - eapply moves_on_frame; [|apply spend_retryable_moves]. apply Hp.
  - eapply moves_on_frame; [|apply spend_retryable_moves]. apply Hp.
Qed.

Lemma status_not_success status :
  status ∈ [402; 408; 429; 500; 502; 503; 504] →
  (200 <=? status) && (status <=? 399) = false ∧ (status =? 401) = false ∧
  bool_decide (status ∈ [400; 401; 403]) = false.
Proof.
  intros Hs. repeat (apply elem_of_cons in Hs as [->|Hs]); [..|by apply elem_of_nil in Hs];
    split_and!; reflexivity.
Qed.

Lemma moves_on_flags g ls ls' st f :
  permission_denied ls' = permission_denied ls → round_attempts ls' = round_attempts ls →
  failover_budget ls' = failover_budget ls → moves_on g ls' st f → moves_on g ls st f.
Proof.
  intros E1 E2 E3 (x & -> & Hf & H1 & H2 & H3). exists x. rewrite <- E1, <- E2, <- E3. done.
Qed.

Lemma call_moves rq e g ls st i m refreshed :
  i ≠ g → refused e i = None → fails_over (send e i) →
  moves_on g ls st (call from_slice to_string env url_host first_key rq e ls st (Slot i) i m refreshed).
Proof.
  intros Hn Hr Hs. unfold call. rewrite Hr. destruct (send e i) as [resp|[amb text]]; cbn in Hs.
  - destruct (status_not_success _ Hs) as (H1 & H2 & H3). unfold replied, replay, answered.
    rewrite H3, andb_false_r, H2. cbn [andb]. rewrite H1.
    eapply moves_on_flags; [..|by apply answer_failed_moves]; done.
  - subst amb. rewrite andb_false_r. eapply moves_on_frame; [|apply spend_moves].
    by apply (frame_put g i st).
Qed.

Lemma try_member_moves rq e g ls st i m :
  i ≠ g → refused e i = None → fails_over (send e i) →
  ∃ ls', try_member rq e ls st (Slot i) i m = Next ls' ∧ frame g st (app ls') ∧
    permission_denied ls' = permission_denied ls ∧
    (round_attempts ls' ≤ S (round_attempts ls))%nat ∧
    (failover_budget ls' ≤ S (failover_budget ls))%nat.
Proof.
  intros Hn Hr Hs. set (m' := begin_activity m (instant e)).
  enough (moves_on g (entered ls (put st (Slot i) m') i) st (try_member rq e ls st (Slot i) i m))
    as H by exact H.
  apply (moves_on_frame _ _ _ (put st (Slot i) m')); [by apply frame_put|].
  unfold Relay.try_member. fold m'. change {| app := _ |} with (entered ls (put st (Slot i) m') i).
  case_if; [|by apply call_moves]. destruct (refresh e i) as [|[auth text]]; [by apply call_moves|].
  eapply moves_on_frame; [|apply spend_moves]. unfold refresh_failed.
  destruct auth; [|by apply (frame_put g i (put st (Slot i) m'))].
  eapply frame_trans; [|by apply (frame_put g i)].
  destruct (record_error_frame (put st (Slot i) m') (member_id m') (now_ms e) 401
              ("refresh failed: " +:+ text)) as [E1 E2].
  split; [by rewrite E1|done].
Qed.

(** An account that answers: its credential is usable, nothing refuses the request
    before it is sent, and the answer is a success that can be delivered. *)
Record answers (rq : Request) (e : Env) (i : nat) : Prop := {
  a_credential : credential_ok rq e i;
  a_refused : refused e i = None;
  a_send : ∃ resp, send e i = Ok resp ∧ 200 ≤ reply_status resp ≤ 399;
  a_finish : ∃ s, finish e i = Ok s ∧ ∀ error, collected s ≠ Some (Err error);
  a_effect : ∀ st, member_id <$> state_members (finish_effect e i st) !! i =
                   member_id <$> state_members st !! i;
}.

Lemma try_member_delivers rq e ls st i m :
  answers rq e i → state_members st !! i = Some m →
  ∃ status stream ls', try_member rq e ls st (Slot i) i m = Return (Delivered (member_id m) status stream) ls'.
Proof.
  intros [Hc Hr (resp & Hsend & Hst) (s & Hfin & Hcol) Heff] Hm.
  destruct (try_member_calls rq e ls st (Slot i) i m Hc) as [refreshed ->].
  set (m1 := begin_activity m (instant e)). set (st1 := put st (Slot i) m1).
  unfold call. rewrite Hr, Hsend. unfold replied, replay, answered.
  rewrite (bool_decide_eq_false_2 (reply_status resp ∈ _)).
  2: { intros H. repeat (apply elem_of_cons in H as [H|H]); [lia..|by apply elem_of_nil in H]. }
  rewrite andb_false_r, (proj2 (Z.eqb_neq (reply_status resp) 401)) by lia. cbn [andb].
  rewrite (proj2 (Z.leb_le 200 _)), (proj2 (Z.leb_le _ 399)) by lia. cbn [andb]. rewrite Hfin.
  specialize (Heff st1). unfold st1 in Heff at 2. rewrite (put_slot _ _ _ _ Hm) in Heff.
  destruct (state_members (finish_effect e i st1) !! i) as [m2|] eqn:E2; [|done].
  cbn in Heff. injection Heff as Hid. change (default m1 (Some m2)) with m2.
  unfold deliver. destruct (collected s) as [[u|err]|] eqn:Ec; [|by destruct (Hcol err)|];
    rewrite Hid; eauto.
Qed.

(** An untried eligible account keeps the loop choosing. *)
Lemma iterate_chooses rq e ls g :
  let st := interfere e (app ls) in
  home_authoritative rq = false → home_now e = false →
  g ∈ initial_eligible rq → (g ∉ attempted ls) →
  still_eligible rq e (with_app ls st) st g = true →
  (failover_budget ls < max_attempts rq)%nat → (length (permission_denied ls) < max_attempts rq)%nat →
  (round_attempts ls < round_credential_cap rq)%nat →
  ∃ i r m, i ∈ initial_eligible rq ∧ (i ∉ attempted ls) ∧ state_members st !! i = Some m ∧
    iterate rq e ls =
      end_activity e (Slot i) (try_member rq e (with_app ls st) (with_router st r) (Slot i) i m).
Proof.
  cbn zeta. set (st := interfere e (app ls)). intros Hh Hnow Hg Hn He Hb Hd Ha.
  unfold Relay.iterate. fold st. cbn [failover_budget permission_denied round_attempts with_app].
  rewrite (proj2 (Nat.leb_gt _ (failover_budget ls))), (proj2 (Nat.leb_gt _ (length _))) by done.
  rewrite andb_false_r, (proj2 (Nat.ltb_lt (round_attempts ls) _)), Hh by done. cbn [orb].
  destruct (choose rq e (with_app ls st) st) as [[i|] st'] eqn:Hc.
  - pose proof (choose_spec _ _ _ _ _ _ Hc) as (Hi & Hni & Hs & r & ->).
    apply still_eligible_spec in Hs as (_ & m & Hm & _). exists i, r, m.
    rewrite acquire_pool by done.
    change (state_members (with_router st r)) with (state_members st). by rewrite Hm.
  - by pose proof (choose_exhausted _ _ _ _ _ _ Hc Hg He).
Qed.

(** Account [g] passes the gates of every iteration to come. *)
Definition ready (rq : Request) (envs : nat → Env) (g : nat) (account : string) (st : AppState)
  : Prop :=
  ∃ m, state_members st !! g = Some m ∧ member_id m = account ∧
    ∀ k, quota_admits (settings st) (fail_open_quota rq) m (select_model rq)
           (Z.quot (now_ms (envs k)) 1000) = true ∧
         (∀ model, select_model rq = Some model →
            group_available m model (now_ms (envs k)) = true) ∧
         is_available (member_health m) (now_ms (envs k)) = true.

Lemma ready_frame rq envs g account st st' :
  frame g st st' → ready rq envs g account st → ready rq envs g account st'.
Proof. intros [E1 E2] (m & Hm & H). exists m. rewrite E1, E2. done. Qed.

Lemma ready_eligible rq envs g account st ls k :
  ready rq envs g account st → retry_round ls = 0%nat → permission_denied ls = [] →
  still_eligible rq (envs k) ls st g = true.
Proof.
  intros (m & Hm & _ & H) Hr Hd. destruct (H k) as (H1 & H2 & H3). unfold still_eligible.
  rewrite Hd, Hm, H1, H3, Hr. rewrite (bool_decide_eq_false_2 (g ∈ []))
    by (intros ?%elem_of_nil; done). unfold retry_round_allows. cbn.
  destruct (select_model rq) as [model|]; [|done]. by rewrite (H2 model eq_refl).
Qed.

(** The first round, before [g] was tried. *)
Record searching (rq : Request) (envs : nat → Env) (g : nat) (account : string) (ls : LoopState)
  : Prop := {
  w_rounds : rounds_ok rq ls;
  w_round : retry_round ls = 0%nat;
  w_denied : permission_denied ls = [];
  w_attempts : (round_attempts ls ≤ length (attempted ls))%nat;
  w_budget : (failover_budget ls ≤ length (attempted ls))%nat;
  w_ready : ready rq envs g account (app ls);
  w_untried : (g ∉ attempted ls);
}.

Section live.
Context (rq : Request) (envs : nat → Env) (g : nat) (account : string).
Hypothesis Hhome : home_authoritative rq = false.
Hypothesis Hnow : ∀ k, home_now (envs k) = false.
Hypothesis Hcand : g ∈ initial_eligible rq.
Hypothesis Hmax : (length (initial_eligible rq) ≤ max_attempts rq)%nat.
Hypothesis Hcap : (length (initial_eligible rq) ≤ round_credential_cap rq)%nat.
Hypothesis Hcalm : ∀ k st, ready rq envs g account st → ready rq envs g account (interfere (envs k) st).
Hypothesis Hgood : ∀ k, answers rq (envs k) g.
Hypothesis Hothers : ∀ k i, i ∈ initial_eligible rq → i ≠ g →
  refused (envs k) i = None ∧ fails_over (send (envs k) i).

Lemma untried_lt ls :
  rounds_ok rq ls → (g ∉ attempted ls) → (length (attempted ls) < length (initial_eligible rq))%nat.
Proof.
  intros [_ Hn Hi _ _ _] Hg. apply (submseteq_length (g :: attempted ls)).
  apply NoDup_submseteq; [by constructor|]. intros x [->|Hx]%elem_of_cons; [done|].
  rewrite list.Forall_forall in Hi. auto.
Qed.

(** While [g] is untried, an iteration delivers its answer or moves past another. *)
Lemma search_step k ls :
  searching rq envs g account ls →
  (∃ status stream ls', iterate rq (envs k) ls = Return (Delivered account status stream) ls') ∨
  (∃ ls', iterate rq (envs k) ls = Next ls' ∧ searching rq envs g account ls' ∧
          length (attempted ls') = S (length (attempted ls))).
Proof.
  intros [Hok Hr Hd Ha Hb Hready Hg]. pose proof (untried_lt ls Hok Hg) as Hlt.
  pose proof (iterate_ok rq (envs k) ls Hhome Hok) as Hok'.
  assert (Hrst : ready rq envs g account (interfere (envs k) (app ls))) by (by apply Hcalm).
  destruct (iterate_chooses rq (envs k) ls g) as (i & r & m & Hi & Hn & Hm & E); try done; try lia.
  { by eapply ready_eligible. }
  { rewrite Hd. cbn. lia. }
  set (st := interfere (envs k) (app ls)) in *. set (ls1 := with_app ls st) in *.
  destruct (decide (i = g)) as [->|Hne].
  - left. destruct Hrst as (m' & Hm' & <- & _). rewrite Hm in Hm'. injection Hm' as <-.
    destruct (try_member_delivers rq (envs k) ls1 (with_router st r) g m (Hgood k) Hm)
      as (status & stream & ls' & E').
    exists status, stream. rewrite E, E'. cbn. by eexists.
  - right. destruct (Hothers k i Hi Hne) as [Href Hsend].
    destruct (try_member_moves rq (envs k) g ls1 (with_router st r) i m Hne Href Hsend)
      as (ls' & E' & Hf & Hd' & Ha' & Hb').
    destruct (try_member_kept rq (envs k) ls1 (with_router st r) (Slot i) i m) as (Ka & _ & Kr & _).
    rewrite E' in *. cbn [flow_state] in Ka, Kr. rewrite E in *.
    pose proof (frame_end g (envs k) i (Next ls') Hne) as Hfe.
    pose proof (end_activity_state (envs k) (Slot i) (Next ls')) as H.
    destruct (end_activity _ _ _) as [ls''| |]; try done. destruct H as [st'' ->].
    cbn [flow_state] in *. eexists. split; [done|]. split; [split|]; cbn; try done.
    + by rewrite Kr.
    + by rewrite Hd'.
    + rewrite Ka, length_app. cbn in *. lia.
    + rewrite Ka, length_app. cbn in *. lia.
    + eapply ready_frame; [exact Hfe|]. eapply ready_frame; [exact Hf|]. exact Hrst.
    + rewrite Ka. cbn. rewrite elem_of_app, list_elem_of_singleton. naive_solver.
    + rewrite Ka, length_app. cbn. lia.
Qed.

Lemma search_ends : ∀ fuel k ls,
  searching rq envs g account ls →
  (length (initial_eligible rq) ≤ fuel + length (attempted ls))%nat →
  ∃ status stream st' tr,
    run rq envs fuel k ls = Some (Delivered account status stream, st', tr).
Proof.
  induction fuel as [|fuel IH]; intros k ls Hs Hf.
  - pose proof (untried_lt ls (w_rounds _ _ _ _ _ Hs) (w_untried _ _ _ _ _ Hs)). lia.
  - cbn [Relay.run]. destruct (search_step k ls Hs) as [(status & stream & ls' & ->)|(ls' & -> & Hs' & Hl)].
    + eauto.
    + apply IH; [done|lia].
Qed.

(** C2: A healthy account is reached.  Suppose Home is authoritative neither when the
    request starts nor during it; that neither the failover limit nor the credential cap
    is smaller than the number of candidates; that one candidate passes the quota, model
    and health gates at every clock of the request, that what other requests do
    meanwhile leaves it so, and that it answers whenever it is asked: its credential is
    usable or can be refreshed, nothing refuses the request before it is sent, the answer
    has a status from 200 to 399 and is delivered, and delivering it leaves the account at
    its place in the pool.  Suppose every other candidate fails
    over: nothing refuses the request before it is sent, and the call either fails
    without being ambiguous or is answered 402, 408, 429, 500, 502, 503 or 504 (exactly
    these).  Then the client gets the healthy account's answer, within as many iterations
    as there are candidates. *)
Theorem healthy_account_reached st h :
  ready rq envs g account st →
  ∃ status stream st' tr,
    run rq envs (length (initial_eligible rq)) 0 (start st h) =
      Some (Delivered account status stream, st', tr).
Proof.
  intros Hr. apply search_ends; [|cbn; lia]. split; cbn; try done; [apply start_ok|set_solver].
Qed.
End live.

(** ** Home dispatch *)

(** A credential of Home whose quota is spent. *)
Definition dispatches_exhausted (rq : Request) (e : Env) : Prop :=
  ∃ m resp, home_now e = true ∧ dispatched e = Some (Ok m) ∧
    (∀ i, credential_ok rq e i ∧ refused e i = None ∧ send e i = Ok resp) ∧
    reply_status resp = 429 ∧
    Cooldown.failure_is_limit_exhaustion from_slice
      (fail_body (extract_failure to_string resp 429)) = true.

Lemma exhausted_iteration rq e ls :
  home_authoritative rq = true → (1 ≤ max_attempts rq)%nat → (1 ≤ round_credential_cap rq)%nat →
  dispatches_exhausted rq e →
  round_attempts ls = 0%nat ∧ failover_budget ls = 0%nat ∧ permission_denied ls = [] →
  ∃ ls', iterate rq e ls = Next ls' ∧
    round_attempts ls' = 0%nat ∧ failover_budget ls' = 0%nat ∧ permission_denied ls' = [].
Proof.
  intros Hh Hmax Hcap (m & resp & Hnow & Hd & Hcall & Hst & Hx) (Ha & Hb & Hp).
  unfold Relay.iterate. cbn [failover_budget permission_denied round_attempts with_app].
  rewrite Ha, Hb, Hp, (proj2 (Nat.leb_gt (max_attempts rq) _)) by lia. cbn [length].
  rewrite andb_false_r, (proj2 (Nat.leb_gt (max_attempts rq) _)) by lia. cbn [orb].
  rewrite (proj2 (Nat.ltb_lt _ _)), Hh by lia. unfold acquire. rewrite Hnow, Hd.
  set (st := interfere e (app ls)). destruct (Hcall (length (state_members st))) as (Hc & Hr & Hs).
  destruct (try_member_calls rq e (with_app ls st) st Dispatched (length (state_members st)) m Hc)
    as [refreshed ->].
  unfold call. rewrite Hr, Hs. unfold replied, replay, answered. rewrite Hst.
  rewrite (bool_decide_eq_false_2 (429 ∈ _)) by (apply (bool_decide_unpack _); vm_compute; exact I).
  rewrite andb_false_r. cbn [Z.eqb Pos.eqb Z.leb Z.compare Pos.compare Pos.compare_cont andb].
  unfold answer_failed. cbn [Z.eqb Pos.eqb].
  destruct (Cooldown.record_cooldown _ _ _ _ _ _ _ _) as [mc ?]. rewrite Hx.
  eexists. split; [done|]. cbn. rewrite Ha, Hb, Hp. done.
Qed.

(** A request dispatched by Home has no bound.  As long as Home keeps sending
    credentials whose quota is spent, the loop goes on asking for another one: such an
    answer counts neither against the failover limit nor against the round. *)
Theorem home_exhaustion_unbounded rq envs :
  home_authoritative rq = true → (1 ≤ max_attempts rq)%nat → (1 ≤ round_credential_cap rq)%nat →
  (∀ k, dispatches_exhausted rq (envs k)) →
  ∀ fuel st h, run rq envs fuel 0 (start st h) = None.
Proof.
  intros Hh Hmax Hcap He fuel st h.
  enough (H : ∀ fuel k ls,
    round_attempts ls = 0%nat ∧ failover_budget ls = 0%nat ∧ permission_denied ls = [] →
    run rq envs fuel k ls = None) by (apply H; done).
  clear fuel st h. induction fuel as [|fuel IH]; intros k ls Hls; [done|]. cbn [Relay.run].
  destruct (exhausted_iteration rq (envs k) ls) as (ls' & -> & Hls'); auto.
Qed.
End relay.
