(* ===== verification/RelayCases.v ===== *)
(** * Whole requests

    A small gateway with two Claude subscription accounts, and requests through it from
    the candidate list to the answer: the instances of the relay theorems, and two
    behaviours the comments of the code rule out. *)

From Stdlib Require Import Ascii.
From stdpp Require Import gmap strings list.
From S2P Require Import Prelude RustStr RegistryTypes RegistrySnapshot Types Router Lcp Scheduler AffinityStore ClaudeBudget Usage Account AccountModels Json RelayCooldown RelayRoute RouteProps RelayAffinity SessionProps RelayLoop RelayProps.
Import RustStr Usage Account Models Route Relay.
Open Scope Z_scope.

Module Cases.

(** ** The gateway *)

Definition MODEL : string := "claude-sonnet-4-5".

Definition catalog : Snapshot.RegistrySnapshot :=
  {| Snapshot.version := 1; Snapshot.snap_source := RemoteSigned;
     Snapshot.models :=
       {[ MODEL := Registry.with_bindings (Registry.ModelDescriptor_new MODEL "anthropic")
                     {[ "claude" := Registry.ProviderBinding_new "claude" PolicyClosed RemoteSigned ]} ]};
     Snapshot.providers := {[ "claude" := PolicyClosed ]}; Snapshot.aliases := ∅;
     Snapshot.exclusions := ∅ |}.

Definition alpha : AccountMember := for_test_with_id "alpha" (Claude None false) 0.
Definition beta : AccountMember := for_test_with_id "beta" (Claude None false) 0.

Definition plain_settings : Settings :=
  {| request_retry := 0; max_retry_credentials := 0; max_retry_interval := 30;
     credit_codex_account_ids := []; claude_route_mode := OauthFirst;
     claude_suspected_accounts := ∅; claude_api_key_budgets := ∅; session_affinity := None;
     session_affinity_lcp := false; affinity_ttl_ms := 3600000; lcp_bounds := Lcp.default_bounds |}.

Definition gateway : AppState :=
  {| pool := new_snapshot [alpha; beta] catalog; settings := plain_settings;
     router := AccountRouter.new FillFirst;
     scheduler := {| Scheduler.settings := Scheduler.default_settings;
                     Scheduler.snapshot := Scheduler.default_snapshot;
                     Scheduler.runtime := Scheduler.default_persisted;
                     Scheduler.state_generation := 0; Scheduler.pending := [];
                     Scheduler.published := 0; Scheduler.disk := None;
                     Scheduler.state_parse_failed := false;
                     Scheduler.reserved := {| Scheduler.live := None; Scheduler.reservations := ∅ |} |};
     claude_budgets := Budget.default_tracker; claude_denials := ∅;
     claude_affinity := {| Affinity.has_path := false; Affinity.map := ∅; Affinity.dirty := false |};
     egress_clients := ∅; claude_reset_order := None; session_bindings := ∅;
     lcp := Lcp.default_matcher; monitored := None; last_errors := ∅; model_restrictions := false;
     failed_over := 0; exposed_errors := 0; exposed_client_errors := 0 |}.

(** ** Upstreams *)

Definition reply (status : Z) (body : string) : Reply :=
  {| reply_status := status; reply_headers := []; reply_body := Ok body |}.

(** An iteration at [now] in which account [i] answers [first i], and [second i] after
    a refresh; nothing is expired and refreshing works. *)
Definition answering (now : Z) (first second : nat → Reply) : Env :=
  {| now_ms := now; now_unix := Z.quot now 1000; instant := now; interfere := λ st, st;
     wait_now_ms := now; home_now := false; dispatched := None; saved := true; expired := λ _, false; refresh := λ _, Ok tt;
     refused := λ _, None; send := λ i, Ok (first i); refresh_401 := λ _, Ok tt;
     resend := λ i, Ok (second i);
     finish := λ _, Ok {| success_status := 200; collected := Some (Ok tt) |};
     finish_effect := λ _ st, st |}.

(** ** Requests *)

(** Bodies are opaque here, and nothing is configured outside. *)
Definition no_json (s : string) : option Json.Value := None.
Definition no_text (v : Json.Value) : string := "".
Definition nothing (s : string) : option string := None.
Definition sum_bytes (bytes : list Z) : Z := foldr Z.add 0 bytes.
Definition any_key (b : gmap string (string * Z)) : option string := head (map_to_list b).*1.

Definition a_plan : Plan :=
  {| model := Some MODEL; original_body := "{}"; required_capability := None;
     openai_stream := false |}.

Definition request (st : AppState) (headers : Cooldown.HeaderMap) (now : Z)
  : Answer + Request * LoopState :=
  prepare no_json no_text nothing catalog sum_bytes (λ s, s) strlen st a_plan headers
    Session.Unrestricted None None None 3 false true now (Z.quot now 1000).

Definition relayed (st : AppState) (headers : Cooldown.HeaderMap) (now : Z)
    (first second : nat → Reply) : option (Answer * AppState * list (nat * nat)) :=
  match request st headers now with
  | inl a => Some (a, st, [])
  | inr (rq, ls) => run no_json no_text nothing nothing catalog any_key rq
                      (λ _, answering now first second) 6 0 ls
  end.

(** Where a request ended, and whom it asked. *)
Definition outcome (r : option (Answer * AppState * list (nat * nat)))
  : option (Answer * list (nat * nat)) := (λ x, (x.1.1, x.2)) <$> r.
Definition after (r : option (Answer * AppState * list (nat * nat))) : AppState :=
  match r with Some (_, st, _) => st | None => gateway end.

Definition DISABLED : string := "This organization has been disabled.".

(** A replayed denial is failed over.  A Claude account that answers 401, is
    refreshed, and then answers the replayed request with an enforcement notice is
    passed over for the next account, and is not marked: the notice is not classified
    the second time, while the same notice as a first answer ends the request. *)
Theorem replayed_denial_fails_over :
  let ok := reply 200 "" in
  let notice := reply 403 DISABLED in
  let direct := relayed gateway [] 1000 (λ i, if (i =? 0)%nat then notice else ok) (λ _, ok) in
  let replayed := relayed gateway [] 1000 (λ i, if (i =? 0)%nat then reply 401 "expired" else ok)
                    (λ _, notice) in
  outcome direct = Some (Failure {| fail_status := 403; content_type := None;
                                    fail_body := DISABLED |}, [(0, 0)]%nat) ∧
  dom (claude_suspected_accounts (settings (after direct))) = {[ "alpha" ]} ∧
  outcome replayed = Some (Delivered "beta" 200 false, [(0, 0); (0, 1)]%nat) ∧
  claude_suspected_accounts (settings (after replayed)) = ∅.
Proof. vm_compute. split_and!; reflexivity. Qed.

Definition session_header : Cooldown.HeaderMap := [("x-claude-code-session-id", Some "session-one")].

(** A one-off failover moves the session.  The session is bound to the first account;
    one 503 of it is served by the second, which leaves the durable binding as it is;
    but the next request of the session asks the second account first. *)
Theorem one_off_failover_moves_session :
  let ok := reply 200 "" in
  let turn1 := relayed gateway session_header 1000 (λ _, ok) (λ _, ok) in
  let turn2 := relayed (after turn1) session_header 2000
                 (λ i, if (i =? 0)%nat then reply 503 "" else ok) (λ _, ok) in
  let turn3 := relayed (after turn2) session_header 3000 (λ _, ok) (λ _, ok) in
  outcome turn1 = Some (Delivered "alpha" 200 false, [(0, 0)]%nat) ∧
  outcome turn2 = Some (Delivered "beta" 200 false, [(0, 0); (0, 1)]%nat) ∧
  outcome turn3 = Some (Delivered "beta" 200 false, [(0, 1)]%nat) ∧
  Affinity.account_id <$> (map_to_list (Affinity.map (claude_affinity (after turn3)))).*2 = ["alpha"].
Proof. vm_compute. split_and!; reflexivity. Qed.

(** An iteration in which the settings document cannot be written. *)
Definition unsaved (e : Env) : Env :=
  {| now_ms := now_ms e; now_unix := now_unix e; instant := instant e; interfere := interfere e;
     wait_now_ms := wait_now_ms e; home_now := home_now e; dispatched := dispatched e;
     saved := false; expired := expired e; refresh := refresh e; refused := refused e;
     send := send e; refresh_401 := refresh_401 e; resend := resend e; finish := finish e;
     finish_effect := finish_effect e |}.

(** ** Instances of the relay theorems *)

Definition two_candidates : Request :=
  {| initial_eligible := [0; 1]%nat; retry_limit := 0; round_credential_cap := 2; max_attempts := 2;
     home_authoritative := false; auth_refresh_enabled := true; fail_open_quota := false;
     global_retry := 0; max_interval := 30; plan_model := Some MODEL; select_model := Some MODEL;
     stream_errors := false; hint := default_hint; affinity := None; durable_key := None;
     durable_bound := None |}.

(** The first account is failing with a server error, the second is fine. *)
Definition one_failing (k : nat) : Env :=
  let f i := if (i =? 0)%nat then reply 503 "" else reply 200 "" in answering 1000 f f.
Definition one_denied (k : nat) : Env :=
  let f i := if (i =? 0)%nat then reply 403 DISABLED else reply 200 "" in answering 1000 f f.

(** A denial that cannot be saved leaves the account in use: the client gets the notice,
    and the next request may ask the account again. *)
Theorem unsaved_denial_stays_routable :
  let r := run no_json no_text nothing nothing catalog any_key two_candidates
             (λ k, unsaved (one_denied k)) 1 0 (start gateway None) in
  outcome r = Some (Failure {| fail_status := 403; content_type := None; fail_body := DISABLED |},
                    [(0, 0)]%nat) ∧
  claude_member_routable nothing (after r) alpha = true.
Proof. vm_compute. split; reflexivity. Qed.

Lemma relay_terminates_witness :
  home_authoritative two_candidates = false ∧
  ∃ a st tr, run no_json no_text nothing nothing catalog any_key two_candidates one_failing 3 0
               (start gateway None) = Some (a, st, tr).
Proof.
  split; [done|].
  destruct (relay_terminates no_json no_text nothing nothing catalog any_key two_candidates
              one_failing gateway None eq_refl) as (a & st & tr & H & _). eauto.
Defined.

Lemma attempts_admitted_witness :
  ∃ m, state_members gateway !! 0%nat = Some m ∧ is_available (member_health m) 1000 = true ∧
       group_available m MODEL 1000 = true.
Proof.
  destruct (attempts_admitted no_json no_text nothing nothing any_key two_candidates
              (one_failing 0) (start gateway None) eq_refl) as [_ H].
  destruct (H 0%nat ltac:(vm_compute; reflexivity)) as (_ & _ & _ & m & Hm & Ha & _ & Hg & _).
  exists m. split; [exact Hm|]. split; [exact Ha|]. apply Hg. reflexivity.
Defined.

Lemma denial_ends_request_witness :
  ∃ st', run no_json no_text nothing nothing catalog any_key two_candidates one_denied 1 0
           (start gateway None) =
         Some (Failure {| fail_status := 403; content_type := None; fail_body := DISABLED |}, st',
               [(0, 0)]%nat) ∧
         claude_member_routable nothing st' alpha = false.
Proof.
  destruct (denial_ends_request no_json no_text nothing nothing catalog any_key two_candidates
              one_denied 0 0 (start gateway None) 0 alpha (reply 403 DISABLED) eq_refl eq_refl)
    as (st' & H & _ & Hr).
  1-2,6: vm_compute; reflexivity.
  - reflexivity.
  - left. reflexivity.
  - reflexivity.
  - apply (bool_decide_unpack _). vm_compute. exact I.
  - vm_compute. discriminate.
  - exists st'. split; [exact H|]. apply Hr; [left; vm_compute; reflexivity|reflexivity].
Defined.

Lemma healthy_account_reached_witness :
  ∃ status stream st' tr,
    run no_json no_text nothing nothing catalog any_key two_candidates one_failing 2 0
      (start gateway None) = Some (Delivered "beta" status stream, st', tr).
Proof.
  apply (healthy_account_reached no_json no_text nothing nothing catalog any_key two_candidates
           one_failing 1 "beta"); [done|done| |cbn; lia..|done| | |].
  - apply (bool_decide_unpack _). vm_compute. exact I.
  - intros k. split; [left; reflexivity|done| | |done].
    + exists (reply 200 ""). split; [reflexivity|cbn; lia].
    + eexists. split; [reflexivity|]. intros error. discriminate.
  - intros k i Hi Hn. split; [done|]. cbn.
    destruct i as [|[|i]]; [|done|].
    + apply (bool_decide_unpack _). vm_compute. exact I.
    + exfalso. apply elem_of_cons in Hi as [Hi|Hi]; [done|].
      apply list_elem_of_singleton in Hi. lia.
  - exists beta. split; [reflexivity|]. split; [reflexivity|]. intros k.
    split; [vm_compute; reflexivity|]. split; [|reflexivity].
    intros model Hm. injection Hm as <-. vm_compute. reflexivity.
Defined.

(** ** Instances of the routing and session theorems *)

Definition claude_class : ResolvedProviderClass :=
  {| binding := Registry.ProviderBinding_new "claude" PolicyClosed RemoteSigned;
     upstream_model := MODEL |}.
Definition claude_route : ResolvedRoute :=
  {| canonical_model := MODEL; capabilities := ∅; provider_classes := [claude_class] |}.

Lemma route_exclusions_witness :
  Snapshot.excluded catalog MODEL (Some "claude") = false.
Proof.
  apply (route_respects_exclusions (pool gateway) MODEL None claude_route claude_class).
  - vm_compute. reflexivity.
  - left.
Defined.

(** The first account in a cooldown of a minute. *)
Definition cooling : AppState :=
  with_pool gateway (new_snapshot [set_health alpha (Cooldown 61000); beta] catalog).

Lemma hold_bounds_witness :
  ∃ m until, state_members cooling !! 0%nat = Some m ∧ member_health m = Cooldown until ∧
             until ≤ 1000 + 60 * 1000 < until + 1000.
Proof.
  destruct (hold_bounds nothing catalog cooling (Some claude_route) (Some MODEL) "alpha" [1%nat]
              None None 1000 60 ltac:(vm_compute; reflexivity))
    as (i & m & until & Hm & Hid & _ & _ & Hh & _ & _ & _ & Hb).
  exists m, until. split; [|done]. destruct i as [|[|i]]; [exact Hm| |done].
  injection Hm as <-. discriminate Hid.
Defined.

Lemma scope_bytes_witness : default "*" None = "*" ∧ scope_fields None None (Some MODEL) "s" ≠ [].
Proof.
  destruct (scope_bytes_inj None None (Some MODEL) "s" (Some "*") None (Some MODEL) "s") as [H _].
  1-2: repeat constructor; vm_compute; discriminate.
  - vm_compute. reflexivity.
  - split; [exact H|]. discriminate.
Defined.

Lemma session_binding_witness :
  ∃ c, (Session.resolve_hierarchy no_json no_text sum_bytes (λ s, s) gateway session_header "{}" None
          (Some claude_route) (Some MODEL) 1000).1 = Some c ∧
  let st := (Session.bind_hierarchy any_key c gateway "beta" 1000).2 in
  ∃ c', (Session.resolve_hierarchy no_json no_text sum_bytes (λ s, s) st session_header "{}" None
           (Some claude_route) (Some MODEL) 2000).1 = Some c' ∧
        Session.preferred_member c' = Some "beta".
Proof.
  eexists. split; [vm_compute; reflexivity|]. cbn zeta.
  edestruct (session_binding_lives no_json no_text sum_bytes (λ s, s) any_key gateway session_header
               "{}" None (Some claude_route) (Some MODEL) 1000) as (c' & H & _ & Hp).
  - reflexivity.
  - reflexivity.
  - change (session_bindings _) with (∅ : gmap string (string * Z)). rewrite map_size_empty. unfold Session.MAX_SESSION_BINDINGS. lia.
  - reflexivity.
  - reflexivity.
  - exists c'. split; [exact H|exact Hp].
Defined.

End Cases.
