(* ===== verification/Payload.v ===== *)
(** * Payload rules (crates/gateway/src/relay_payload.rs)

    Dotted paths into a JSON body, the conditions of a rule, and the default,
    override and filter rules applied to a request body. *)

From Stdlib Require Import Ascii.
From stdpp Require Import base strings list.
From S2P Require Import Prelude RustStr Json.
Import RustStr Json.
Open Scope Z_scope.

Module Payload.

(** [str::parse::<usize>()]. *)
Definition parse_usize (s : string) : option nat := Z.to_nat <$> parse_u64 s.

(** ** Paths *)

Definition step_path (current : Value) (part : string) : option Value :=
  match current with
  | VObject map => obj_get part map
  | VArray arr => idx ← parse_usize part; arr !! idx
  | _ => None
  end.

Fixpoint get_parts (value : Value) (parts : list string) : option Value :=
  match parts with
  | [] => Some value
  | part :: parts => current ← step_path value part; get_parts current parts
  end.
Definition get_path (value : Value) (path : string) : option Value :=
  get_parts value (split "."%char path).

(** At the last part the value is inserted if the parent is an object; before
    that, anything that is not an object is replaced by an empty one. *)
Fixpoint set_parts (value : Value) (parts : list string) (new_val : Value) : Value :=
  match parts with
  | [] => value
  | [part] =>
      match value with VObject map => VObject (obj_insert part new_val map) | _ => value end
  | part :: parts =>
      let map := match value with VObject map => map | _ => [] end in
      let child := default (VObject []) (obj_get part map) in
      VObject (obj_insert part (set_parts child parts new_val) map)
  end.
Definition set_path (value : Value) (path : string) (new_val : Value) : Value :=
  set_parts value (split "."%char path) new_val.

Fixpoint remove_parts (value : Value) (parts : list string) : Value :=
  match parts with
  | [] => value
  | [part] => match value with VObject map => VObject (obj_remove part map) | _ => value end
  | part :: parts =>
      match value with
      | VObject map =>
          match obj_get part map with
          | Some next => VObject (obj_insert part (remove_parts next parts) map)
          | None => value
          end
      | _ => value
      end
  end.
Definition remove_path (value : Value) (path : string) : Value :=
  remove_parts value (split "."%char path).

(** ** Rules *)

Record PayloadRuleContext := {
  model : string;
  requested_model : string;
  protocol : string;
  from_protocol : string;
  headers : string → option string; (* [headers.get(k).and_then(to_str)] *)
  original_body : Value;
}.

(** [if let Some(name) = rule.get(key).and_then(as_str) { check }]. *)
Definition str_check (rule : Value) (key : string) (check : string → bool) : bool :=
  match get key rule ≫= as_str with Some s => check s | None => true end.
Definition array_check (rule : Value) (key : string) (check : Value → bool) : bool :=
  match get key rule ≫= as_array with Some l => forallb check l | None => true end.
Definition entries_check (v : Value) (check : string → Value → bool) : bool :=
  match as_object v with Some m => forallb (λ kv, check kv.1 kv.2) m | None => true end.

Definition path_is (body : Value) (k : string) (v : Value) : bool :=
  match get_path body k with Some a => value_eqb a v | None => false end.
Definition path_exists (body : Value) (k : string) : bool :=
  match get_path body k with Some _ => true | None => false end.

Definition matches_model_rule (rule : Value) (ctx : PayloadRuleContext) (body : Value) : bool :=
  str_check rule "name" (λ name,
    bool_decide (name = "*") || bool_decide (name = model ctx)
    || bool_decide (name = requested_model ctx))
  && str_check rule "protocol" (λ p,
       is_empty p || bool_decide (p = "*") || bool_decide (p = protocol ctx))
  && str_check rule "from-protocol" (λ p,
       is_empty p || bool_decide (p = "*") || bool_decide (p = from_protocol ctx))
  && match get "headers" rule ≫= as_object with
     | Some hs => forallb (λ kv : string * Value,
         match as_str kv.2 with
         | Some expected => bool_decide (default "" (headers ctx kv.1) = expected)
         | None => true
         end) hs
     | None => true
     end
  && array_check rule "match" (λ m, entries_check m (λ k v, path_is body k v))
  && array_check rule "not-match" (λ m, entries_check m (λ k v, negb (path_is body k v)))
  && array_check rule "exist" (λ p,
       match as_str p with Some s => path_exists body s | None => true end)
  && array_check rule "not-exist" (λ p,
       match as_str p with Some s => negb (path_exists body s) | None => true end).

(** A rule applies when any of its [models] conditions holds of the current body. *)
Definition rule_applies (rule : Value) (ctx : PayloadRuleContext) (body : Value) : bool :=
  match get "models" rule ≫= as_array with
  | Some ms => existsb (λ m, matches_model_rule m ctx body) ms
  | None => false
  end.

Section apply.
(** [serde_json::from_str] at [Value]. *)
Context (from_str : string → option Value).

Definition rule_value (kind : string) (value : Value) : Value :=
  if ends_with kind "-raw" then
    match as_str value ≫= from_str with Some parsed => parsed | None => value end
  else value.

Definition rules_of (config : Map) (key : string) : list Value :=
  default [] (obj_get key config ≫= as_array).
Definition params_of (rule : Value) : Map := default [] (get "params" rule ≫= as_object).

Definition set_default (kind : string) (ctx : PayloadRuleContext) (body : Value)
    (kv : string * Value) : Value :=
  if negb (path_exists body kv.1) && negb (path_exists (original_body ctx) kv.1)
  then set_path body kv.1 (rule_value kind kv.2) else body.

Definition set_override (kind : string) (body : Value) (kv : string * Value) : Value :=
  set_path body kv.1 (rule_value kind kv.2).

Definition apply_default (ctx : PayloadRuleContext) (kind : string) (body rule : Value) : Value :=
  if rule_applies rule ctx body
  then foldl (set_default kind ctx) body (params_of rule) else body.

Definition apply_override (ctx : PayloadRuleContext) (kind : string) (body rule : Value) : Value :=
  if rule_applies rule ctx body
  then foldl (set_override kind) body (params_of rule) else body.

Definition apply_filter (ctx : PayloadRuleContext) (body rule : Value) : Value :=
  if rule_applies rule ctx body
  then foldl (λ body p, match as_str p with Some s => remove_path body s | None => body end)
         body (default [] (get "params" rule ≫= as_array))
  else body.

Definition apply_payload_rules (config : Map) (body : Value) (ctx : PayloadRuleContext) : Value :=
  let body := foldl (λ body key, foldl (apply_default ctx key) body (rules_of config key))
                body ["default"; "default-raw"] in
  let body := foldl (λ body key, foldl (apply_override ctx key) body (rules_of config key))
                body ["override"; "override-raw"] in
  foldl (apply_filter ctx) body (rules_of config "filter").
End apply.

End Payload.

Import Payload.

(** ** Laws of the path operations *)

(** Every value met on the way to the parent of the last part is an object, or is
    not there yet. *)
Fixpoint objects_along (v : Value) (parts : list string) : Prop :=
  match parts with
  | [] => True
  | [_] => is_object v = true
  | part :: parts =>
      match v with
      | VObject m => match obj_get part m with Some c => objects_along c parts | None => True end
      | _ => False
      end
  end.

(** Two paths that split at some part: neither is a prefix of the other. *)
Fixpoint diverge (p q : list string) : Prop :=
  match p, q with
  | x :: p, y :: q => x = y → diverge p q
  | _, _ => False
  end.

Lemma objects_along_empty parts : objects_along (VObject []) parts.
Proof. destruct parts as [|x [|y parts]]; done. Qed.

Lemma objects_along_child m x y ps :
  objects_along (VObject m) (x :: y :: ps) →
  objects_along (default (VObject []) (obj_get x m)) (y :: ps).
Proof.
  cbn. destruct (obj_get x m); cbn; [done|]. intros _. by destruct ps.
Qed.

Lemma get_set_parts parts : ∀ v new,
  parts ≠ [] → objects_along v parts → get_parts (set_parts v parts new) parts = Some new.
Proof.
  induction parts as [|x [|y ps] IH]; intros v new Hne Hob; [done|..].
  - destruct v; try done. cbn. by rewrite obj_get_insert, bool_decide_eq_true_2.
  - destruct v as [| | | | |m]; try done. apply objects_along_child in Hob.
    cbn [get_parts set_parts step_path]. rewrite obj_get_insert, bool_decide_eq_true_2 by done.
    cbn [mbind option_bind]. by apply IH.
Qed.

Lemma get_set_diverge parts : ∀ v new q,
  objects_along v parts → diverge parts q → get_parts (set_parts v parts new) q = get_parts v q.
Proof.
  induction parts as [|x [|y ps] IH]; intros v new q Hob Hd; [done|..];
    (destruct q as [|z q]; [done|]); destruct v as [| | | | |m]; try done;
    cbn [get_parts set_parts step_path]; rewrite obj_get_insert;
    (destruct (decide (z = x)) as [->|Hne];
      [rewrite bool_decide_eq_true_2 by done|by rewrite bool_decide_eq_false_2]).
  - by destruct (Hd eq_refl).
  - apply objects_along_child in Hob. specialize (Hd eq_refl).
    cbn [mbind option_bind].
    transitivity (get_parts (default (VObject []) (obj_get x m)) q); [by apply IH|].
    destruct (obj_get x m); cbn; [done|]. by destruct q.
Qed.

Lemma get_remove_parts parts : ∀ v,
  parts ≠ [] → objects_along v parts → get_parts (remove_parts v parts) parts = None.
Proof.
  induction parts as [|x [|y ps] IH]; intros v Hne Hob; [done|..].
  - destruct v; try done. cbn. by rewrite obj_get_remove, bool_decide_eq_true_2.
  - destruct v as [| | | | |m]; try done. cbn [get_parts remove_parts step_path].
    destruct (obj_get x m) as [c|] eqn:Hx.
    + cbn [step_path]. rewrite obj_get_insert, bool_decide_eq_true_2 by done.
      cbn [mbind option_bind]. apply IH; [done|]. cbn in Hob. by rewrite Hx in Hob.
    + cbn. by rewrite Hx.
Qed.

Lemma get_remove_diverge parts : ∀ v q,
  diverge parts q → get_parts (remove_parts v parts) q = get_parts v q.
Proof.
  induction parts as [|x [|y ps] IH]; intros v q Hd; [done|..];
    (destruct q as [|z q]; [done|]); destruct v as [| | | | |m]; try done;
    cbn [get_parts remove_parts step_path].
  - rewrite obj_get_remove. destruct (decide (z = x)) as [->|Hne]; [by destruct (Hd eq_refl)|].
    by rewrite bool_decide_eq_false_2.
  - destruct (obj_get x m) as [c|] eqn:Hx; [|done]. cbn. rewrite obj_get_insert.
    destruct (decide (z = x)) as [->|Hne].
    + rewrite bool_decide_eq_true_2, Hx by done. cbn. apply IH. by apply Hd.
    + by rewrite bool_decide_eq_false_2.
Qed.

(** Setting a path sets that path and nothing else: if no value on the way is a
    scalar or an array, reading the path back gives the new value, and reading
    any path that is neither above nor below it gives what was there. *)
Theorem set_path_correct v path new :
  objects_along v (split "."%char path) →
  get_path (set_path v path new) path = Some new ∧
  ∀ other, diverge (split "."%char path) (split "."%char other) →
           get_path (set_path v path new) other = get_path v other.
Proof.
  intros Hob. split.
  - apply get_set_parts; [apply split_nonempty|done].
  - intros other Hd. by apply get_set_diverge.
Qed.

(** Removing a path removes that path and nothing else. *)
Theorem remove_path_correct v path :
  objects_along v (split "."%char path) →
  get_path (remove_path v path) path = None ∧
  ∀ other, diverge (split "."%char path) (split "."%char other) →
           get_path (remove_path v path) other = get_path v other.
Proof.
  intros Hob. split.
  - apply get_remove_parts; [apply split_nonempty|done].
  - intros other Hd. by apply get_remove_diverge.
Qed.

(** An absent path and the path of an existing scalar cannot be nested. *)
Lemma absent_diverges k : ∀ v q w,
  objects_along v k → get_parts v k = None → get_parts v q = Some w → is_object w = false →
  diverge k q.
Proof.
  induction k as [|x ps IH]; intros v q w Hob Hk Hq Hw; [done|].
  destruct q as [|z q].
  { injection Hq as ->. destruct w; try done; cbn in Hob; by destruct ps. }
  cbn. intros <-. cbn in Hk, Hq.
  destruct (step_path v x) as [c|] eqn:Hs; cbn in Hk, Hq; [|done].
  destruct ps as [|y ps]; [done|].
  eapply IH; [|exact Hk|exact Hq|done].
  destruct v as [| | | | |m]; try done. cbn in Hob, Hs. by rewrite Hs in Hob.
Qed.

(** A default never overwrites.  Applying a default parameter keeps every scalar
    and array that the body already has, whatever its path, provided the
    parameter's own path runs through objects only. *)
Theorem default_keeps_existing from_str kind ctx body kv other w :
  objects_along body (split "."%char kv.1) →
  get_path body other = Some w → is_object w = false →
  get_path (set_default from_str kind ctx body kv) other = Some w.
Proof.
  intros Hob Hw Hobj. unfold set_default, path_exists.
  destruct (get_path body kv.1) eqn:Hk; cbn; [done|]. case_if; [|done].
  rewrite <- Hw. apply get_set_diverge; [done|]. by eapply absent_diverges.
Qed.

(** A path through an array does not set an element of it: [set_path] replaces
    the whole array by an object, although [get_path] does follow array
    indices. *)
Theorem set_path_clobbers_array :
  let body := VObject [("messages", VArray [VObject [("role", VString "user")]])] in
  get_path body "messages.0.role" = Some (VString "user") ∧
  set_path body "messages.0.name" (VString "x") =
    VObject [("messages", VObject [("0", VObject [("name", VString "x")])])].
Proof. split; vm_compute; reflexivity. Qed.

(** ** Witnesses *)
Definition sample_body : Value :=
  VObject [("a", VObject [("b", VString "old")]); ("c", VBool true)].

Lemma set_path_witness :
  get_path (set_path sample_body "a.b" Null) "a.b" = Some Null ∧
  ∀ other, diverge (split "."%char "a.b") (split "."%char other) →
           get_path (set_path sample_body "a.b" Null) other = get_path sample_body other.
Proof. apply (set_path_correct sample_body "a.b" Null). vm_compute. reflexivity. Defined.

Lemma remove_path_witness :
  get_path (remove_path sample_body "a.b") "a.b" = None ∧
  ∀ other, diverge (split "."%char "a.b") (split "."%char other) →
           get_path (remove_path sample_body "a.b") other = get_path sample_body other.
Proof. apply (remove_path_correct sample_body "a.b"). vm_compute. reflexivity. Defined.

Definition empty_ctx : PayloadRuleContext :=
  {| model := ""; requested_model := ""; protocol := ""; from_protocol := "";
     headers := λ _, None; original_body := Null |}.

Lemma default_keeps_witness :
  get_path (set_default (λ _, None) "default" empty_ctx sample_body ("a.d", Null)) "a.b"
    = Some (VString "old").
Proof.
  apply (default_keeps_existing (λ _, None) "default" empty_ctx sample_body ("a.d", Null) "a.b");
    vm_compute; reflexivity.
Defined.
