(* ===== verification/PrefixWatch.v ===== *)
(** * Prompt-cache prefix watch (crates/gateway/src/claude_prefix_watch.rs)

    A request is fingerprinted as a list of block hashes; per session the
    previous fingerprint must be a prefix of the current one.  The hash of a
    value's rendering (SHA-256 of [to_string], first eight bytes) is the
    parameter [digest]; instants are milliseconds. *)

From stdpp Require Import gmap strings list.
From S2P Require Import Prelude Json.
Import Json.
Open Scope Z_scope.

Module PrefixWatch.

Definition SESSION_TTL : Z := 15 * 60 * 1000.
Definition MAX_SESSIONS : nat := 4096.

Record Block := { section : string; kind : string; hash : Z }.

Record PrefixBreak := {
  index : nat;
  previous_len : nat;
  current_len : nat;
  break_section : string;
  previous_kind : string;
  current_kind : string;
}.

Definition kind_of (v : Value) : string :=
  match v with
  | VString _ => "text"
  | VObject m => default "object" (obj_get "type" m ≫= as_str)
  | _ => "other"
  end.

Section watch.
Context (digest : Value → Z).

Definition hash_value (v : Value) : Z :=
  digest match v with VObject m => VObject (obj_remove "cache_control" m) | _ => v end.

Definition block (sec kd : string) (v : Value) : Block :=
  {| section := sec; kind := kd; hash := hash_value v |}.

Definition tool_blocks (body : Value) : list Block :=
  block "tools" "tool" <$> default [] (get "tools" body ≫= as_array).

Definition system_blocks (body : Value) : list Block :=
  match get "system" body with
  | Some (VArray items) => (λ item, block "system" (kind_of item) item) <$> items
  | Some (VString s) => [block "system" "text" (VString s)]
  | _ => []
  end.

Definition message_blocks (message : Value) : list Block :=
  let role := default "?" (get "role" message ≫= as_str) in
  match get "content" message with
  | Some (VArray parts) =>
      (λ part, block "messages" (role +:+ ":" +:+ kind_of part) part) <$> parts
  | Some content => [block "messages" (role +:+ ":text") content]
  | None => []
  end.

Definition messages (body : Value) : list Value :=
  default [] (get "messages" body ≫= as_array).

Definition fingerprint (body : Value) : list Block :=
  tool_blocks body ++ system_blocks body ++ mjoin (message_blocks <$> messages body).

Definition block_at (l : list Block) (i : nat) (f : Block → string) : string :=
  match l !! i with Some b => f b | None => "end" end.

Definition first_break (previous current : list Block) : option PrefixBreak :=
  let differs := position (λ ab : Block * Block, negb (hash ab.1 =? hash ab.2))
                   (zip previous current) in
  let at_ := match differs with
             | Some i => Some i
             | None => if (length current <? length previous)%nat
                       then Some (length current) else None
             end in
  match at_ with
  | None => None
  | Some i =>
      Some {| index := i;
              previous_len := length previous;
              current_len := length current;
              break_section := match previous !! i, current !! i with
                               | Some b, _ | None, Some b => section b
                               | None, None => "end"
                               end;
              previous_kind := block_at previous i kind;
              current_kind := block_at current i kind |}
  end.

Abbreviation Sessions := (gmap string (Z * list Block)).

(** [now.duration_since(seen)] saturates at zero. *)
Definition elapsed (now seen : Z) : Z := Z.max 0 (now - seen).

Definition make_room (sessions : Sessions) (now : Z) : Sessions :=
  if (MAX_SESSIONS <=? size sessions)%nat then
    let kept := filter (λ kv, elapsed now kv.2.1 < SESSION_TTL) sessions in
    if (MAX_SESSIONS <=? size kept)%nat then ∅ else kept
  else sessions.

Definition observe (sessions : Sessions) (session : string) (body : Value) (now : Z)
  : option PrefixBreak * Sessions :=
  let current := fingerprint body in
  let sessions := make_room sessions now in
  (match sessions !! session with
   | None => None
   | Some (seen, previous) =>
       if SESSION_TTL <=? elapsed now seen then None else first_break previous current
   end,
   <[session := (now, current)]> sessions).

(** ** Correctness *)

Lemma zip_position_prefix (p c : list Block) :
  (position (λ ab : Block * Block, negb (hash ab.1 =? hash ab.2)) (zip p c) = None ∧
   (length p ≤ length c)%nat) ↔ (hash <$> p) `prefix_of` (hash <$> c).
Proof.
  revert c. induction p as [|a p IH]; intros c; cbn.
  - split; [intros _; apply prefix_nil|]. split; [done|lia].
  - destruct c as [|b c]; cbn.
    { split; [intros [_ ?]; lia|]. by intros ?%prefix_nil_not. }
    destruct (hash a =? hash b) eqn:E; cbn; bool_to_prop.
    + rewrite fmap_None, E. split.
      * intros [? ?]. apply prefix_cons, IH. split; [done|lia].
      * intros Hp%prefix_cons_inv_2. apply IH in Hp as [? ?]. split; [done|lia].
    + split; [by intros []|]. by intros ?%prefix_cons_inv_1.
Qed.

(** No break is reported exactly when the previous request's block hashes are a
    prefix of the current ones. *)
Theorem first_break_prefix previous current :
  first_break previous current = None ↔ (hash <$> previous) `prefix_of` (hash <$> current).
Proof.
  rewrite <- zip_position_prefix. unfold first_break.
  destruct (position _ _) as [i|]; [by split; [|intros []]|].
  destruct (length current <? length previous)%nat eqn:E; bool_to_prop.
  - split; [done|]. intros [_ ?]. lia.
  - by split.
Qed.

(** The reported index is where the shared prefix ends: all earlier blocks
    agree, and at the index the blocks differ or the current request is over. *)
Theorem first_break_index previous current b :
  first_break previous current = Some b →
  (index b < length previous)%nat ∧ (index b ≤ length current)%nat ∧
  (∀ j x y, (j < index b)%nat → previous !! j = Some x → current !! j = Some y →
            hash x = hash y) ∧
  (∀ x y, previous !! index b = Some x → current !! index b = Some y → hash x ≠ hash y).
Proof.
  unfold first_break. destruct (position _ _) as [i|] eqn:Hp.
  - intros [= <-]. cbn. apply position_Some in Hp as ([x y] & Hz & Hne & Hall).
    apply lookup_zip_with_Some in Hz as (x' & y' & [= -> ->] & Hx & Hy).
    pose proof (lookup_lt_Some _ _ _ Hx). pose proof (lookup_lt_Some _ _ _ Hy).
    split_and!; [done|lia| |].
    + intros j u w Hj Hu Hw. specialize (Hall j (u, w) Hj). cbn in Hall.
      destruct (hash u =? hash w) eqn:E; [by bool_to_prop|]. exfalso.
      assert (negb false = false); [|done]. apply Hall.
      apply lookup_zip_with_Some. eauto.
    + intros u w Hu Hw. simplify_eq. cbn in Hne. by bool_to_prop.
  - case_if; [|done]. intros [= <-]. cbn. bool_to_prop. rewrite position_None in Hp.
    split_and!; [done|done| |].
    + intros j u w Hj Hu Hw. specialize (Hp (u, w)). cbn in Hp.
      destruct (hash u =? hash w) eqn:E; [by bool_to_prop|]. exfalso.
      assert (negb false = false); [|done]. apply Hp.
      apply list_elem_of_lookup. exists j. apply lookup_zip_with_Some. eauto.
    + intros u w Hu Hw. apply lookup_lt_Some in Hw. lia.
Qed.

(** A conversation that only grows never breaks: with the same tools and system
    blocks and messages appended at the end, no break is reported. *)
Theorem append_not_break body body' extra :
  tool_blocks body' = tool_blocks body → system_blocks body' = system_blocks body →
  messages body' = messages body ++ extra →
  first_break (fingerprint body) (fingerprint body') = None.
Proof.
  intros Ht Hs Hm. apply first_break_prefix. unfold fingerprint. rewrite Ht, Hs, Hm.
  rewrite (fmap_app message_blocks), join_app, !(assoc_L (++)).
  rewrite (fmap_app hash _ (mjoin (message_blocks <$> extra))). by apply prefix_app_r.
Qed.

(** The watch holds at most [MAX_SESSIONS] sessions, whatever is observed. *)
Theorem observe_bounded sessions session body now :
  (size sessions ≤ MAX_SESSIONS)%nat →
  (size (observe sessions session body now).2 ≤ MAX_SESSIONS)%nat.
Proof.
  intros Hs. cbn.
  assert (Hr : (size (make_room sessions now) < MAX_SESSIONS)%nat).
  { unfold make_room. case_if; bool_to_prop; [|done]. case_if; bool_to_prop; [|done].
    rewrite map_size_empty. unfold MAX_SESSIONS. lia. }
  destruct (make_room sessions now !! session) eqn:E.
  - rewrite map_size_insert_Some by eauto. lia.
  - rewrite map_size_insert_None by done. lia.
Qed.
End watch.

Definition sample (content : string) : Value :=
  VObject [("messages", VArray [VObject [("content", VString content); ("role", VString "user")]])].
Definition digest0 (v : Value) : Z :=
  match v with VString s => Z.of_nat (String.length s) | _ => 0 end.

Lemma first_break_index_witness :
  let p := fingerprint digest0 (sample "ab") in
  let c := fingerprint digest0 (sample "abc") in
  (0 < length p)%nat ∧ (0 ≤ length c)%nat ∧
  (∀ j x y, (j < 0)%nat → p !! j = Some x → c !! j = Some y → hash x = hash y) ∧
  (∀ x y, p !! 0%nat = Some x → c !! 0%nat = Some y → hash x ≠ hash y).
Proof.
  apply (first_break_index (fingerprint digest0 (sample "ab")) (fingerprint digest0 (sample "abc"))
    {| index := 0; previous_len := 1; current_len := 1; break_section := "messages";
       previous_kind := "user:text"; current_kind := "user:text" |}).
  vm_compute. reflexivity.
Defined.

Lemma append_not_break_witness :
  first_break (fingerprint digest0 (VObject [("messages", VArray [])]))
    (fingerprint digest0 (sample "hi")) = None.
Proof.
  apply (append_not_break digest0 _ _
    [VObject [("content", VString "hi"); ("role", VString "user")]]); reflexivity.
Defined.

Lemma observe_bounded_witness :
  (size (observe digest0 ∅ "s" (sample "hi") 0).2 ≤ MAX_SESSIONS)%nat.
Proof. apply (observe_bounded digest0 ∅). unfold MAX_SESSIONS. rewrite map_size_empty. lia. Defined.

End PrefixWatch.
