(* ===== verification/SignatureLedger.v ===== *)
(** * The thought-signature ledger (crates/gateway/src/compat/signature_ledger/)

    [LruStore] (store.rs): a map of entries, an access order keyed by sequence
    number, and byte accounting; snapshots and their restoration; and the ledger
    around it (mod.rs).  Instants are nanoseconds. *)

From Stdlib Require Import Ascii.
From stdpp Require Import gmap strings list sorting.
From S2P Require Import Prelude RustStr.
Import RustStr.
Open Scope Z_scope.
Open Scope rust_scope.

Module Ledger.

Definition DEFAULT_MAX_ENTRIES : Z := 1024.
Definition DEFAULT_MAX_BYTES : Z := 32 * 1024 * 1024.
Definition TTL : Z := 60 * 60 * 1000 * MS.

Record Entry := {
  arguments : string;
  signature : string;
  stored_at : Z;
  seq : Z; (* u64 *)
}.

Definition weight (e : Entry) (key : string) : Z :=
  strlen key + strlen (arguments e) + strlen (signature e).

(** [BTreeMap<u64, String>] as its sorted entries. *)
Abbreviation Order := (list (Z * string)).

Fixpoint ord_insert (n : Z) (k : string) (o : Order) : Order :=
  match o with
  | [] => [(n, k)]
  | (n', k') :: o' =>
      if n =? n' then (n, k) :: o'
      else if n <? n' then (n, k) :: o
      else (n', k') :: ord_insert n k o'
  end.
Definition ord_remove (n : Z) (o : Order) : Order := filter (λ nk, nk.1 ≠ n) o.

Record LruStore := {
  entries : gmap string Entry;
  order : Order;
  bytes : Z;
  next_seq : Z; (* u64 *)
  max_entries : Z;
  max_bytes : Z;
}.

Definition new (me mb : Z) : LruStore :=
  {| entries := ∅; order := []; bytes := 0; next_seq := 0;
     max_entries := Z.max me 1; max_bytes := Z.max mb 1 |}.

Definition len (s : LruStore) : Z := Z.of_nat (size (entries s)).

Definition remove (s : LruStore) (key : string) : LruStore :=
  match entries s !! key with
  | None => s
  | Some entry =>
      {| entries := delete key (entries s);
         order := ord_remove (seq entry) (order s);
         bytes := saturating_sub_u64 (bytes s) (weight entry key);
         next_seq := next_seq s; max_entries := max_entries s; max_bytes := max_bytes s |}
  end.

(** [bump] is folded into its callers: the next sequence number. *)
Definition bump (s : LruStore) : Z := next_seq s +% 1.

(** The eviction loop; each turn removes the oldest entry, so as many turns as
    there are entries in the order are enough. *)
Fixpoint evict_loop (fuel : nat) (s : LruStore) : LruStore :=
  match fuel with
  | O => s
  | S fuel =>
      if (max_entries s <? len s) || (max_bytes s <? bytes s) then
        match order s with
        | (_, victim) :: _ => evict_loop fuel (remove s victim)
        | [] => s
        end
      else s
  end.
Definition evict (s : LruStore) : LruStore := evict_loop (length (order s)) s.

(** The fresh entry, before eviction. *)
Definition push (s : LruStore) (key : string) (args sig : string) (at_ : Z) : LruStore :=
  let n := bump s in
  let entry := {| arguments := args; signature := sig; stored_at := at_; seq := n |} in
  {| entries := <[key := entry]> (entries s);
     order := ord_insert n key (order s);
     bytes := bytes s + weight entry key;
     next_seq := n; max_entries := max_entries s; max_bytes := max_bytes s |}.

Definition insert (s : LruStore) (key args sig : string) (at_ : Z) : LruStore :=
  evict (push (remove s key) key args sig at_).

Definition expired (now : Z) (at_ : Z) : bool := TTL <? Z.max 0 (now - at_).

Definition get (s : LruStore) (key args : string) (now : Z) : option string * LruStore :=
  match entries s !! key with
  | None => (None, s)
  | Some entry =>
      if expired now (stored_at entry) then (None, remove s key)
      else if negb (bool_decide (arguments entry = args)) then (None, s)
      else
        let n := bump s in
        let entry' := {| arguments := arguments entry; signature := signature entry;
                         stored_at := now; seq := n |} in
        (Some (signature entry),
         {| entries := <[key := entry']> (entries s);
            order := ord_insert n key (ord_remove (seq entry) (order s));
            bytes := bytes s; next_seq := n;
            max_entries := max_entries s; max_bytes := max_bytes s |})
  end.

(** ** Snapshots *)

Record SnapshotRecord := {
  rec_key : string;
  rec_arguments : string;
  rec_signature : string;
  age_ms : Z; (* u64 *)
}.

Fixpoint snapshot_loop (s : LruStore) (me mb now : Z) (keys : list string)
    (out : list SnapshotRecord) (used : Z) : list SnapshotRecord :=
  match keys with
  | [] => out
  | key :: keys =>
      match entries s !! key with
      | None => snapshot_loop s me mb now keys out used
      | Some entry =>
          let age := Z.max 0 (now - stored_at entry) in
          if TTL <? age then snapshot_loop s me mb now keys out used
          else
            let w := weight entry key in
            if (me <=? Z.of_nat (length out)) || (mb <? used + w) then out
            else snapshot_loop s me mb now keys
                   (out ++ [{| rec_key := key; rec_arguments := arguments entry;
                               rec_signature := signature entry; age_ms := age / MS |}])
                   (used + w)
      end
  end.

Definition snapshot (s : LruStore) (me mb now : Z) : list SnapshotRecord :=
  snapshot_loop s me mb now (reverse (order s).*2) [] 0.

Definition restore (s : LruStore) (records : list SnapshotRecord) (now : Z) : LruStore :=
  foldl (λ s r,
           let age := age_ms r * MS in
           if TTL <? age then s
           else insert s (rec_key r) (rec_arguments r) (rec_signature r)
                  (checked_sub_instant now age))
    s (reverse records).

(** ** The ledger and its scopes (mod.rs) *)

Record SignatureLedger := {
  store : LruStore;
  dirty : bool;
  writes : Z;
  hits : Z;
  misses : Z;
}.

Record ReplayScope := { scope_model : string; session_id : string }.

Definition US : string := String (ascii_of_nat 31) "".

Definition scope_key (sc : ReplayScope) (call_id name : string) : string :=
  scope_model sc +:+ US +:+ session_id sc +:+ US +:+ name +:+ US +:+ call_id.

Section ledger.
(** [serde_json::from_str(..).map(to_string)], [None] on unparsable text. *)
Context (reprint : string → option string).

Definition canonical_arguments (args : string) : string := default args (reprint args).

Definition remember (l : SignatureLedger) (sc : ReplayScope) (call_id name args sig : string)
    (now : Z) : SignatureLedger :=
  if is_empty call_id || is_empty sig then l
  else {| store := insert (store l) (scope_key sc call_id name) (canonical_arguments args) sig now;
          dirty := true;
          writes := writes l +% 1; hits := hits l; misses := misses l |}.

Definition recall (l : SignatureLedger) (sc : ReplayScope) (call_id name args : string)
    (now : Z) : option string * SignatureLedger :=
  if is_empty call_id then (None, l)
  else
    let '(found, st) := get (store l) (scope_key sc call_id name) (canonical_arguments args) now in
    (found,
     match found with
     | Some _ => {| store := st; dirty := dirty l; writes := writes l;
                    hits := hits l +% 1; misses := misses l |}
     | None => {| store := st; dirty := dirty l; writes := writes l; hits := hits l;
                  misses := misses l +% 1 |}
     end).
End ledger.

End Ledger.
