(* ===== verification/LedgerProps.v ===== *)
(** * The signature ledger refines a bounded recency list

    The abstract store is a list of items, least recently used first.  Every
    operation of [LruStore] is simulated by an operation on that list, with the
    same results; bounds, recall, snapshots and scoping follow. *)

From Stdlib Require Import Ascii.
From stdpp Require Import gmap strings list sorting.
From S2P Require Import Prelude RustStr SignatureLedger.
Import RustStr Ledger.
Open Scope Z_scope.

(** ** Abstract specification *)
Module LruSpec.

Record Item := { ikey : string; iargs : string; isig : string; istored : Z }.

Definition iweight (i : Item) : Z := strlen (ikey i) + strlen (iargs i) + strlen (isig i).
Definition total (l : list Item) : Z := foldr (λ i acc, iweight i + acc) 0 l.

Section spec.
Context (me mb : Z).

Definition over (l : list Item) : bool := (me <? Z.of_nat (length l)) || (mb <? total l).

(** Drop the least recently used items until the rest fits. *)
Fixpoint evict (l : list Item) : list Item :=
  match l with
  | [] => []
  | _ :: r => if over l then evict r else l
  end.

Definition remove (k : string) (l : list Item) : list Item := filter (λ i, ikey i ≠ k) l.
Definition find (k : string) (l : list Item) : option Item :=
  snd <$> list_find (λ i, ikey i = k) l.

Definition insert (k args sig : string) (at_ : Z) (l : list Item) : list Item :=
  evict (remove k l ++ [{| ikey := k; iargs := args; isig := sig; istored := at_ |}]).

Definition get (k args : string) (now : Z) (l : list Item) : option string * list Item :=
  match find k l with
  | None => (None, l)
  | Some i =>
      if expired now (istored i) then (None, remove k l)
      else if negb (bool_decide (iargs i = args)) then (None, l)
      else (Some (isig i),
            remove k l ++ [{| ikey := k; iargs := iargs i; isig := isig i; istored := now |}])
  end.
End spec.

End LruSpec.

(** ** The representation relation *)

Abbreviation Row := (string * Entry)%type.
Definition item_of (r : Row) : LruSpec.Item :=
  {| LruSpec.ikey := r.1; LruSpec.iargs := arguments r.2; LruSpec.isig := signature r.2;
     LruSpec.istored := stored_at r.2 |}.
Definition row_order (r : Row) : Z * string := (seq r.2, r.1).

Record rep (s : LruStore) (l : list Row) : Prop := {
  rep_order : order s = row_order <$> l;
  rep_entries : entries s = list_to_map l;
  rep_nodup : NoDup l.*1;
  rep_sorted : StronglySorted Z.lt ((λ r : Row, seq r.2) <$> l);
  rep_seq : Forall (λ r : Row, seq r.2 ≤ next_seq s) l;
  rep_next : 0 ≤ next_seq s;
  rep_bytes : bytes s = LruSpec.total (item_of <$> l);
}.

Lemma total_app l1 l2 : LruSpec.total (l1 ++ l2) = LruSpec.total l1 + LruSpec.total l2.
Proof. unfold LruSpec.total. induction l1 as [|i l1 IH]; cbn; [done|]. rewrite IH. lia. Qed.

Lemma total_cons i l : LruSpec.total (i :: l) = LruSpec.iweight i + LruSpec.total l.
Proof. done. Qed.

Lemma iweight_nonneg i : 0 ≤ LruSpec.iweight i.
Proof. unfold LruSpec.iweight, strlen. lia. Qed.

Lemma total_nonneg l : 0 ≤ LruSpec.total l.
Proof.
  unfold LruSpec.total in *. induction l as [|i l IH]; cbn; [done|].
  pose proof (iweight_nonneg i). lia.
Qed.

Lemma remove_notin k (l : list Row) :
  k ∉ l.*1 → LruSpec.remove k (item_of <$> l) = item_of <$> l.
Proof.
  intros Hk. apply filter_all. intros i (r & -> & Hr)%list_elem_of_fmap Heq.
  apply Hk. rewrite <- Heq. apply list_elem_of_fmap. by exists r.
Qed.

Lemma remove_at k e (l1 l2 : list Row) :
  NoDup (l1 ++ (k, e) :: l2).*1 →
  LruSpec.remove k (item_of <$> l1 ++ (k, e) :: l2) = item_of <$> l1 ++ l2.
Proof.
  intros Hnd. rewrite fmap_app, fmap_cons in Hnd. apply NoDup_app in Hnd as (_ & Hd & Hnd).
  apply NoDup_cons in Hnd as [Hk2 _]. rewrite !fmap_app, fmap_cons. unfold LruSpec.remove.
  rewrite filter_app, filter_cons_False by (cbn; tauto).
  fold (LruSpec.remove k (item_of <$> l1)). fold (LruSpec.remove k (item_of <$> l2)).
  rewrite !remove_notin; [done|done|]. intros Hk1. apply (Hd k Hk1). left.
Qed.

Lemma rep_lookup s l k e : rep s l → entries s !! k = Some e ↔ (k, e) ∈ l.
Proof. intros []. rewrite rep_entries0. symmetry. by apply elem_of_list_to_map. Qed.

Lemma rep_lookup_None s l k : rep s l → entries s !! k = None ↔ k ∉ l.*1.
Proof. intros []. rewrite rep_entries0. symmetry. apply not_elem_of_list_to_map. Qed.

Lemma StronglySorted_drop_middle {A} (R : A → A → Prop) l1 x l2 :
  StronglySorted R (l1 ++ x :: l2) → StronglySorted R (l1 ++ l2).
Proof.
  induction l1 as [|y l1 IH]; cbn; intros Hs; apply StronglySorted_inv in Hs as [Hs Hall]; [done|].
  constructor; [by apply IH|]. rewrite !list.Forall_app in *. destruct Hall as [? Hall].
  split; [done|]. by apply list.Forall_cons in Hall as [_ ?].
Qed.

(** Removing the row of a key. *)
Lemma rep_remove s k e l1 l2 :
  rep s (l1 ++ (k, e) :: l2) → rep (remove s k) (l1 ++ l2).
Proof.
  intros Hrep. pose proof Hrep as [Ho He Hnd Hss Hsq Hn Hb].
  assert (Hlk : entries s !! k = Some e) by (apply (rep_lookup _ _ _ _ Hrep); set_solver).
  unfold remove. rewrite Hlk.
  pose proof Hnd as Hnd'. rewrite fmap_app, fmap_cons in Hnd'.
  apply NoDup_app in Hnd' as (Hnd1 & Hd & Hnd2). apply NoDup_cons in Hnd2 as [Hk2 Hnd2].
  assert (Hk1 : k ∉ l1.*1) by (intros Hk1; apply (Hd k Hk1); left).
  split; cbn.
  - rewrite Ho, !fmap_app, fmap_cons. unfold ord_remove.
    rewrite filter_app, filter_cons_False by (cbn; tauto).
    rewrite fmap_app, fmap_cons in Hss.
    rewrite !filter_all; [done|..].
    + intros x (r & -> & Hr)%list_elem_of_fmap. cbn.
      apply StronglySorted_app in Hss as (_ & _ & Hss).
      apply StronglySorted_inv in Hss as [_ Hall]. rewrite list.Forall_forall in Hall.
      specialize (Hall (seq r.2)). cbn in Hall.
      assert (seq e < seq r.2) by (apply Hall, list_elem_of_fmap; eauto). lia.
    + intros x (r & -> & Hr)%list_elem_of_fmap. cbn.
      apply StronglySorted_app in Hss as (Hlt & _ & _).
      assert (seq r.2 < seq e); [|lia].
      apply (Hlt (seq r.2) (seq e)); [apply list_elem_of_fmap; eauto|left].
  - rewrite He, !list_to_map_app, list_to_map_cons.
    rewrite delete_union, delete_insert_eq. f_equal; apply delete_id;
      by apply not_elem_of_list_to_map_1.
  - rewrite fmap_app. apply NoDup_app. split_and!; [done| |done].
    intros x Hx1 Hx2. apply (Hd x Hx1). by right.
  - rewrite fmap_app, fmap_cons in Hss. rewrite fmap_app. by eapply StronglySorted_drop_middle.
  - rewrite list.Forall_app, list.Forall_cons in Hsq. apply list.Forall_app. tauto.
  - done.
  - rewrite Hb, !fmap_app, fmap_cons, !total_app, total_cons. unfold saturating_sub_u64, weight.
    pose proof (total_nonneg (item_of <$> l1)). pose proof (total_nonneg (item_of <$> l2)).
    unfold LruSpec.iweight. cbn. lia.
Qed.

Lemma ord_insert_last n k o : Forall (λ nk, nk.1 < n) o → ord_insert n k o = o ++ [(n, k)].
Proof.
  induction 1 as [|[n' k'] o Hn _ IH]; cbn in *; [done|].
  rewrite (proj2 (Z.eqb_neq n n')), (proj2 (Z.ltb_ge n n')) by lia. by rewrite IH.
Qed.

(** Adding a row for a key that is not there. *)
Lemma rep_push s l k args sig at_ :
  rep s l → k ∉ l.*1 → next_seq s < u64_max →
  rep (push s k args sig at_)
    (l ++ [(k, {| arguments := args; signature := sig; stored_at := at_;
                  seq := next_seq s + 1 |})]).
Proof.
  intros [Ho He Hnd Hss Hsq Hn Hb] Hk Hlt. unfold push, bump.
  rewrite wrapping_succ_u64 by lia. split; cbn.
  - rewrite Ho, fmap_app. apply ord_insert_last. apply list.Forall_forall.
    intros x (r & -> & Hr)%list_elem_of_fmap. cbn. rewrite list.Forall_forall in Hsq.
    specialize (Hsq r Hr). lia.
  - by rewrite He, list_to_map_snoc.
  - rewrite fmap_app. apply NoDup_app. split_and!; [done| |apply NoDup_singleton].
    intros x Hx ->%list_elem_of_singleton. done.
  - rewrite fmap_app. apply StronglySorted_app. split_and!; [|done|repeat constructor].
    intros x y (r & -> & Hr)%list_elem_of_fmap ->%list_elem_of_singleton. cbn.
    rewrite list.Forall_forall in Hsq. specialize (Hsq r Hr). lia.
  - apply list.Forall_app. split; [|by repeat constructor].
    eapply Forall_impl; [exact Hsq|]. cbn. intros; lia.
  - lia.
  - rewrite Hb, fmap_app, total_app. cbn [fmap list_fmap]. rewrite total_cons.
    unfold weight, LruSpec.iweight. cbn. lia.
Qed.

Lemma rep_over s l :
  rep s l →
  (max_entries s <? len s) || (max_bytes s <? bytes s) =
  LruSpec.over (max_entries s) (max_bytes s) (item_of <$> l).
Proof.
  intros [Ho He Hnd Hss Hsq Hn Hb]. unfold LruSpec.over, len.
  by rewrite Hb, He, map_size_list_to_map, length_fmap.
Qed.

Lemma evict_limits fuel : ∀ s,
  max_entries (evict_loop fuel s) = max_entries s ∧ max_bytes (evict_loop fuel s) = max_bytes s ∧
  next_seq (evict_loop fuel s) = next_seq s.
Proof.
  induction fuel as [|fuel IH]; intros s; cbn; [done|]. case_if; [|done].
  destruct (order s) as [|[n v] o]; [done|]. destruct (IH (remove s v)) as (-> & -> & ->).
  unfold remove. by destruct (entries s !! v).
Qed.

(** Eviction drops a prefix of the rows. *)
Lemma rep_evict l : ∀ s,
  rep s l →
  ∃ l', rep (evict_loop (length l) s) l' ∧
        item_of <$> l' = LruSpec.evict (max_entries s) (max_bytes s) (item_of <$> l).
Proof.
  induction l as [|[k e] l IH]; intros s Hrep; cbn [length evict_loop]; [by exists []|].
  rewrite (rep_over _ _ Hrep). cbn [fmap list_fmap LruSpec.evict].
  destruct (LruSpec.over _ _ _) eqn:Ho; [|by exists ((k, e) :: l)].
  rewrite (rep_order _ _ Hrep). cbn.
  pose proof (rep_remove s k e [] l Hrep) as Hr. cbn in Hr.
  destruct (IH _ Hr) as (l' & Hl' & E). exists l'. split; [done|]. rewrite E.
  unfold remove. by destruct (entries s !! k).
Qed.

Lemma rep_find s l k :
  rep s l → LruSpec.find k (item_of <$> l) = (λ e, item_of (k, e)) <$> entries s !! k.
Proof.
  intros Hrep. unfold LruSpec.find.
  destruct (entries s !! k) as [e|] eqn:Hk.
  - apply (rep_lookup _ _ _ _ Hrep) in Hk. apply list_elem_of_split in Hk as (l1 & l2 & ->).
    pose proof (rep_nodup _ _ Hrep) as Hnd. rewrite fmap_app, fmap_cons in Hnd.
    apply NoDup_app in Hnd as (_ & Hd & _).
    assert (Hf : list_find (λ i, LruSpec.ikey i = k) (item_of <$> l1 ++ (k, e) :: l2) =
                 Some (length l1, item_of (k, e))); [|by rewrite Hf].
    apply list_find_Some. rewrite fmap_app, fmap_cons. split_and!; [|done|].
    + by rewrite list_lookup_middle by (by rewrite length_fmap).
    + intros j y Hy Hj Hky. rewrite lookup_app_l in Hy by (by rewrite length_fmap).
      apply list_elem_of_lookup_2, list_elem_of_fmap in Hy as (r & -> & Hr). cbn in Hky. subst k.
      apply (Hd r.1); [apply list_elem_of_fmap; eauto|left].
  - apply (rep_lookup_None _ _ _ Hrep) in Hk. cbn.
    destruct (list_find _ _) as [[n i]|] eqn:Hf; [exfalso|done].
    apply list_find_Some in Hf as (Hi & Hik & _).
    apply list_elem_of_lookup_2, list_elem_of_fmap in Hi as (r & -> & Hr). cbn in Hik.
    apply Hk. rewrite <- Hik. apply list_elem_of_fmap. eauto.
Qed.

Lemma rep_remove_any s l k :
  rep s l → ∃ l', rep (remove s k) l' ∧ (k ∉ l'.*1) ∧
                  item_of <$> l' = LruSpec.remove k (item_of <$> l).
Proof.
  intros Hrep. destruct (entries s !! k) as [e|] eqn:Hk.
  - apply (rep_lookup _ _ _ _ Hrep) in Hk. apply list_elem_of_split in Hk as (l1 & l2 & ->).
    pose proof (rep_nodup _ _ Hrep) as Hnd. exists (l1 ++ l2). split; [by eapply rep_remove|].
    split; [|by rewrite (remove_at k e)].
    rewrite fmap_app, fmap_cons in Hnd. apply NoDup_app in Hnd as (_ & Hd & Hnd).
    apply NoDup_cons in Hnd as [? _]. rewrite fmap_app. intros [Hk|Hk]%elem_of_app; [|done].
    apply (Hd k Hk). left.
  - pose proof (proj1 (rep_lookup_None _ _ _ Hrep) Hk) as Hn. exists l.
    rewrite remove_notin by done. unfold remove. by rewrite Hk.
Qed.

Lemma rep_insert s l k args sig at_ :
  rep s l → next_seq s < u64_max →
  ∃ l', rep (insert s k args sig at_) l' ∧
    item_of <$> l' = LruSpec.insert (max_entries s) (max_bytes s) k args sig at_ (item_of <$> l).
Proof.
  intros Hrep Hlt. destruct (rep_remove_any s l k Hrep) as (l1 & Hr1 & Hk & E1).
  assert (Hs1 : next_seq (remove s k) = next_seq s ∧ max_entries (remove s k) = max_entries s ∧
                max_bytes (remove s k) = max_bytes s)
    by (unfold remove; by destruct (entries s !! k)).
  destruct Hs1 as (En & Em & Eb).
  pose proof (rep_push _ _ k args sig at_ Hr1 Hk ltac:(lia)) as Hp.
  destruct (rep_evict _ _ Hp) as (l' & Hl' & E). exists l'. split.
  - unfold insert, evict. by rewrite (rep_order _ _ Hp), length_fmap.
  - rewrite E. cbn. rewrite Em, Eb. unfold LruSpec.insert. by rewrite <- E1, fmap_app.
Qed.

(** A hit is a removal followed by a push. *)
Lemma get_hit s l k e args now :
  rep s l → entries s !! k = Some e → expired now (stored_at e) = false → arguments e = args →
  get s k args now = (Some (signature e), push (remove s k) k args (signature e) now).
Proof.
  intros Hrep Hk Hx Ha. unfold get. rewrite Hk, Hx, Ha, bool_decide_eq_true_2 by done. cbn.
  unfold push, remove. rewrite Hk. cbn. unfold bump. cbn. rewrite insert_delete_eq.
  do 2 f_equal. unfold weight. cbn. rewrite Ha.
  apply (rep_lookup _ _ _ _ Hrep) in Hk. apply list_elem_of_split in Hk as (l1 & l2 & ->).
  rewrite (rep_bytes _ _ Hrep), fmap_app, fmap_cons, total_app, total_cons.
  pose proof (total_nonneg (item_of <$> l1)). pose proof (total_nonneg (item_of <$> l2)).
  cbn. unfold LruSpec.iweight, saturating_sub_u64. cbn. rewrite Ha. lia.
Qed.

Lemma rep_get s l k args now :
  rep s l → next_seq s < u64_max →
  ∃ l', rep (get s k args now).2 l' ∧
    LruSpec.get k args now (item_of <$> l) = ((get s k args now).1, item_of <$> l').
Proof.
  intros Hrep Hlt. unfold LruSpec.get. rewrite (rep_find _ _ _ Hrep).
  destruct (entries s !! k) as [e|] eqn:Hk; cbn [fmap option_fmap option_map].
  2: { unfold get. rewrite Hk. eauto. }
  cbn [item_of LruSpec.istored LruSpec.iargs LruSpec.isig snd].
  destruct (expired now (stored_at e)) eqn:Hx; [|destruct (decide (arguments e = args)) as [Ha|Ha]].
  - destruct (rep_remove_any s l k Hrep) as (l' & Hl' & _ & E). exists l'.
    unfold get. rewrite Hk, Hx. cbn. by rewrite E.
  - rewrite (bool_decide_eq_true_2 _ Ha). cbn [negb].
    rewrite (get_hit _ _ _ _ _ _ Hrep Hk Hx Ha).
    destruct (rep_remove_any s l k Hrep) as (l1 & Hr1 & Hk1 & E).
    assert (En : next_seq (remove s k) = next_seq s)
      by (unfold remove; by destruct (entries s !! k)).
    eexists. split; [apply rep_push; [done|done|lia]|]. cbn. by rewrite fmap_app, E, <- Ha.
  - rewrite (bool_decide_eq_false_2 _ Ha). exists l. unfold get.
    by rewrite Hk, Hx, bool_decide_eq_false_2.
Qed.

(** ** Runs *)

Inductive LruOp :=
  | LInsert (key args sig : string) (at_ : Z)
  | LGet (key args : string) (now : Z)
  | LRemove (key : string).

Definition run_lru (s : LruStore) (op : LruOp) : option string * LruStore :=
  match op with
  | LInsert k a g t => (None, insert s k a g t)
  | LGet k a t => get s k a t
  | LRemove k => (None, remove s k)
  end.

Definition run_spec (me mb : Z) (l : list LruSpec.Item) (op : LruOp)
  : option string * list LruSpec.Item :=
  match op with
  | LInsert k a g t => (None, LruSpec.insert me mb k a g t l)
  | LGet k a t => LruSpec.get k a t l
  | LRemove k => (None, LruSpec.remove k l)
  end.

(** The answers of a run, and its last state. *)
Fixpoint run_all {S O} (step : S → O → option string * S) (s : S) (ops : list O)
  : list (option string) * S :=
  match ops with
  | [] => ([], s)
  | op :: ops => let '(r, s1) := step s op in let '(rs, s2) := run_all step s1 ops in (r :: rs, s2)
  end.

Lemma run_lru_limits s op :
  max_entries (run_lru s op).2 = max_entries s ∧ max_bytes (run_lru s op).2 = max_bytes s ∧
  (0 ≤ next_seq s < u64_max → next_seq s ≤ next_seq (run_lru s op).2 ≤ next_seq s + 1).
Proof.
  assert (Hrm : ∀ k, max_entries (remove s k) = max_entries s ∧ max_bytes (remove s k) = max_bytes s ∧
                     next_seq (remove s k) = next_seq s)
    by (intros k; unfold remove; by destruct (entries s !! k)).
  destruct op as [k a g t|k a t|k]; cbn [run_lru snd].
  - unfold insert, evict. destruct (evict_limits (length (order (push (remove s k) k a g t)))
      (push (remove s k) k a g t)) as (-> & -> & ->). cbn. destruct (Hrm k) as (-> & -> & E).
    unfold bump. rewrite E. split_and!; [done..|]. intros. rewrite wrapping_succ_u64; lia.
  - unfold get. destruct (entries s !! k) as [e|] eqn:Hk; cbn; [|split_and!; [done..|lia]].
    destruct (Hrm k) as (E1 & E2 & E3).
    case_if; [cbn; rewrite E1, E2, E3; split_and!; [done..|lia]|].
    case_if; cbn; [split_and!; [done..|lia]|]. split_and!; [done..|].
    intros. unfold bump. rewrite wrapping_succ_u64; lia.
  - destruct (Hrm k) as (-> & -> & ->). split_and!; [done..|lia].
Qed.

Lemma run_refines ops : ∀ s l,
  rep s l → next_seq s + Z.of_nat (length ops) ≤ u64_max →
  ∃ l', rep (run_all run_lru s ops).2 l' ∧
        run_all (run_spec (max_entries s) (max_bytes s)) (item_of <$> l) ops =
          ((run_all run_lru s ops).1, item_of <$> l').
Proof.
  induction ops as [|op ops IH]; intros s l Hrep Hlen; cbn [run_all length] in *; [by exists l|].
  destruct (run_lru_limits s op) as (E1 & E2 & En).
  pose proof (rep_next _ _ Hrep). specialize (En ltac:(lia)).
  assert (∃ l1, rep (run_lru s op).2 l1 ∧
            run_spec (max_entries s) (max_bytes s) (item_of <$> l) op =
              ((run_lru s op).1, item_of <$> l1)) as (l1 & Hr1 & ES).
  { destruct op as [k a g t|k a t|k]; cbn [run_lru run_spec fst snd].
    - destruct (rep_insert s l k a g t Hrep ltac:(lia)) as (l1 & ? & E). exists l1. by rewrite E.
    - apply rep_get; [done|lia].
    - destruct (rep_remove_any s l k Hrep) as (l1 & ? & _ & E). exists l1. by rewrite E. }
  rewrite ES. destruct (run_lru s op) as [r s1]. cbn [fst snd] in *.
  destruct (IH s1 l1 Hr1 ltac:(lia)) as (l' & Hr' & E'). rewrite E1, E2 in E'.
  destruct (run_all run_lru s1 ops) as [rs s2]. cbn [fst snd] in *.
  exists l'. by rewrite E'.
Qed.

Lemma rep_new me mb : rep (new me mb) [].
Proof. split; cbn; try done; constructor. Qed.

(** C34: The store is a bounded recency list.  For every sequence of inserts, lookups
    and removals, [LruStore] gives the same answers as a list of items ordered by
    last use from which the least recently used are dropped until the limits
    hold, and ends in a state that represents that list: same keys in the same
    order, same contents, same byte count. *)
Theorem lru_refines me mb ops :
  Z.of_nat (length ops) ≤ u64_max →
  let '(answers, s) := run_all run_lru (new me mb) ops in
  let '(answers', l) := run_all (run_spec (Z.max me 1) (Z.max mb 1)) [] ops in
  answers = answers' ∧ (order s).*2 = LruSpec.ikey <$> l ∧ bytes s = LruSpec.total l ∧
  (∀ k, (λ e, item_of (k, e)) <$> entries s !! k = LruSpec.find k l).
Proof.
  intros Hlen. destruct (run_refines ops (new me mb) [] (rep_new me mb)) as (l & Hrep & E).
  { cbn. lia. }
  cbn [max_entries max_bytes new fmap list_fmap] in E. rewrite E.
  destruct (run_all run_lru (new me mb) ops) as [answers s]. cbn [fst snd] in *.
  split_and!; [done| |by apply rep_bytes|].
  - rewrite (rep_order _ _ Hrep), <- !list_fmap_compose. done.
  - intros k. by rewrite (rep_find _ _ _ Hrep).
Qed.

(** ** Bounds and recall *)

Lemma spec_evict_fits me mb l : 0 ≤ me → 0 ≤ mb → LruSpec.over me mb (LruSpec.evict me mb l) = false.
Proof.
  intros Hm Hb. induction l as [|i l IH]; cbn [LruSpec.evict].
  - unfold LruSpec.over. apply orb_false_iff. rewrite !Z.ltb_ge. cbn. lia.
  - destruct (LruSpec.over me mb (i :: l)) eqn:E; done.
Qed.

Lemma spec_evict_last me mb x l :
  LruSpec.over me mb [x] = false → ∃ l', LruSpec.evict me mb (l ++ [x]) = l' ++ [x].
Proof.
  intros Hx. induction l as [|i l IH]; cbn [app LruSpec.evict].
  - rewrite Hx. by exists [].
  - case_if; [done|]. by exists (i :: l).
Qed.

Definition within (s : LruStore) : Prop := len s ≤ max_entries s ∧ bytes s ≤ max_bytes s.

Lemma remove_within s k : 0 ≤ max_bytes s → within s → within (remove s k).
Proof.
  unfold within, remove, len. destruct (entries s !! k) as [e|] eqn:Hk; [|done]. cbn.
  rewrite map_size_delete_Some by eauto. unfold saturating_sub_u64, weight, strlen. intros. lia.
Qed.

Lemma run_lru_within s l op :
  rep s l → next_seq s < u64_max → 1 ≤ max_entries s → 1 ≤ max_bytes s → within s →
  within (run_lru s op).2.
Proof.
  intros Hrep Hlt Hm Hb Hw. destruct (run_lru_limits s op) as (E1 & E2 & _).
  destruct op as [k a g t|k a t|k]; cbn [run_lru snd] in *.
  - destruct (rep_insert s l k a g t Hrep Hlt) as (l' & Hr & E).
    pose proof (rep_over _ _ Hr) as Ho. rewrite E1, E2, E in Ho. unfold LruSpec.insert in Ho.
    rewrite spec_evict_fits in Ho by lia. unfold within. rewrite E1, E2. bool_to_prop. lia.
  - unfold get. destruct (entries s !! k) as [e|] eqn:Hk; [|done].
    case_if; [apply remove_within; [lia|done]|]. case_if; [done|]. unfold within, len in *. cbn.
    by rewrite map_size_insert_Some by eauto.
  - apply remove_within; [lia|done].
Qed.

Lemma new_within me mb : within (new me mb).
Proof. unfold within, len, new. cbn [entries bytes max_entries max_bytes]. rewrite map_size_empty. lia. Qed.

Lemma run_all_within ops : ∀ s l,
  rep s l → next_seq s + Z.of_nat (length ops) ≤ u64_max →
  1 ≤ max_entries s → 1 ≤ max_bytes s → within s →
  let s' := (run_all run_lru s ops).2 in
  within s' ∧ max_entries s' = max_entries s ∧ max_bytes s' = max_bytes s ∧
  next_seq s' ≤ next_seq s + Z.of_nat (length ops).
Proof.
  induction ops as [|op ops IH]; intros s l Hrep Hlen Hm Hb Hw; cbn [run_all length] in *.
  { split_and!; done || cbn; lia. }
  destruct (run_lru_limits s op) as (E1 & E2 & En).
  pose proof (rep_next _ _ Hrep). specialize (En ltac:(lia)).
  pose proof (run_lru_within s l op Hrep ltac:(lia) Hm Hb Hw) as Hw1.
  destruct (run_refines [op] s l Hrep) as (l1 & Hr1 & _); [cbn [length]; lia|].
  cbn [run_all] in Hr1. destruct (run_lru s op) as [r s1]. cbn [fst snd] in *.
  destruct (IH s1 l1) as (H1 & H2 & H3 & H4); [done|lia..|done|].
  destruct (run_all run_lru s1 ops) as [rs s2]. cbn [snd] in *. split_and!; [done|congruence..|lia].
Qed.

(** The store never exceeds its limits, whatever is inserted, looked up and
    removed: not more entries than [max_entries] and not more bytes than
    [max_bytes]. *)
Theorem lru_bounded me mb ops :
  Z.of_nat (length ops) ≤ u64_max →
  let s := (run_all run_lru (new me mb) ops).2 in
  len s ≤ Z.max me 1 ∧ bytes s ≤ Z.max mb 1.
Proof.
  intros Hlen. destruct (run_all_within ops (new me mb) [] (rep_new me mb))
    as ([H1 H2] & H3 & H4 & _); [cbn; lia..|apply new_within|].
  rewrite H3 in H1. rewrite H4 in H2. done.
Qed.

(** A signature just stored is recalled.  In every reachable store, after
    inserting an entry that fits the byte limit on its own, a lookup with the
    same arguments before the TTL returns its signature - even if making room
    evicted everything else. *)
Theorem insert_then_get me mb ops k args sig at_ now :
  Z.of_nat (length ops) < u64_max →
  strlen k + strlen args + strlen sig ≤ Z.max mb 1 →
  now - at_ ≤ TTL →
  (get (insert (run_all run_lru (new me mb) ops).2 k args sig at_) k args now).1 = Some sig.
Proof.
  intros Hlen Hfit Hnow.
  destruct (run_refines ops (new me mb) [] (rep_new me mb)) as (l & Hrep & _); [cbn; lia|].
  destruct (run_all_within ops (new me mb) [] (rep_new me mb)) as (_ & Em & Eb & En);
    [cbn; lia..|apply new_within|].
  set (s := (run_all run_lru (new me mb) ops).2) in *. cbn in Em, Eb, En.
  destruct (rep_insert s l k args sig at_ Hrep ltac:(lia)) as (l' & Hr & E).
  unfold LruSpec.insert in E. set (it := {| LruSpec.ikey := k |}) in E.
  destruct (spec_evict_last (max_entries s) (max_bytes s) it
              (LruSpec.remove k (item_of <$> l))) as (l'' & E'').
  { unfold LruSpec.over, LruSpec.total, LruSpec.iweight. cbn. rewrite Em, Eb.
    apply orb_false_iff. rewrite !Z.ltb_ge. lia. }
  rewrite E'' in E. assert (Hit : it ∈ item_of <$> l') by (rewrite E; set_solver).
  apply list_elem_of_fmap in Hit as ([k' e] & Hit & Hin). injection Hit as <- -> -> ->.
  apply (rep_lookup _ _ _ _ Hr) in Hin. unfold get. rewrite Hin.
  unfold expired. rewrite (proj2 (Z.ltb_ge _ _)) by (unfold TTL, MS in *; lia).
  by rewrite bool_decide_eq_true_2.
Qed.

(** ** Scoping *)

Fixpoint no_us (s : string) : Prop :=
  match s with EmptyString => True | String a s => a ≠ ascii_of_nat 31 ∧ no_us s end.

Lemma sep_inj a a' r r' :
  no_us a → no_us a' → a +:+ US +:+ r = a' +:+ US +:+ r' → a = a' ∧ r = r'.
Proof.
  revert a'. induction a as [|x a IH]; intros [|y a'] Ha Ha' E; cbn in *.
  - injection E as E. done.
  - injection E as <- _. by destruct Ha' as [[] _].
  - injection E as -> _. by destruct Ha as [[] _].
  - injection E as -> E. destruct (IH a') as [-> ->]; tauto.
Qed.

(** Signatures are scoped.  Two calls share an entry only if they agree on the
    model, the session, the tool name and the call id, as long as model, session
    and name do not contain the separator. *)
Theorem scope_key_injective sc sc' call name call' name' :
  no_us (scope_model sc) → no_us (scope_model sc') → no_us (session_id sc) →
  no_us (session_id sc') → no_us name → no_us name' →
  scope_key sc call name = scope_key sc' call' name' →
  sc = sc' ∧ name = name' ∧ call = call'.
Proof.
  unfold scope_key. intros Hm Hm' Hs Hs' Hn Hn' E.
  apply sep_inj in E as [E1 E]; [|done..]. apply sep_inj in E as [E2 E]; [|done..].
  apply sep_inj in E as [E3 E4]; [|done..]. destruct sc, sc'; cbn in *; subst. done.
Qed.

(** ** Witnesses *)
Definition demo_ops : list LruOp :=
  [LInsert "a" "{}" "s1" 0; LInsert "b" "{}" "s2" 1; LGet "a" "{}" 2; LInsert "c" "{}" "s3" 3].

Lemma lru_refines_witness :
  let '(answers, s) := run_all run_lru (new 2 100) demo_ops in
  let '(answers', l) := run_all (run_spec 2 100) [] demo_ops in
  answers = answers' ∧ (order s).*2 = LruSpec.ikey <$> l ∧ bytes s = LruSpec.total l ∧
  (∀ k, (λ e, item_of (k, e)) <$> entries s !! k = LruSpec.find k l).
Proof. apply (lru_refines 2 100 demo_ops). vm_compute. done. Defined.

(** The entry used in between survives, the other one is evicted. *)
Example demo_order : (order (run_all run_lru (new 2 100) demo_ops).2).*2 = ["a"; "c"].
Proof. vm_compute. reflexivity. Qed.

Lemma lru_bounded_witness :
  len (run_all run_lru (new 2 100) demo_ops).2 ≤ 2 ∧
  bytes (run_all run_lru (new 2 100) demo_ops).2 ≤ 100.
Proof. apply (lru_bounded 2 100 demo_ops). vm_compute. done. Defined.

Lemma insert_then_get_witness :
  (get (insert (run_all run_lru (new 1 100) demo_ops).2 "k" "args" "sig" 5) "k" "args" 9).1
    = Some "sig".
Proof.
  apply (insert_then_get 1 100 demo_ops "k" "args" "sig" 5 9); vm_compute; done.
Defined.

Lemma scope_key_witness :
  let sc := {| scope_model := "m"; session_id := "s" |} in
  sc = sc ∧ "n" = "n" ∧ "c" = "c".
Proof.
  intros sc. apply (scope_key_injective sc sc "c" "n" "c" "n"); repeat split; discriminate.
Defined.
