(* ===== verification/Gate.v ===== *)
(** * The management gate (crates/gateway/src/management/gate.rs)

    Failed attempts per peer address, the ban after [MAX_FAILURES] of them, the
    bounded number of concurrent verifications, and the check of the presented key.
    A request is two steps under the lock - [begin_verification] and, after the key
    was verified outside it, [authenticate] - and other requests may run in between.
    [bcrypt::verify] is a parameter. *)

From Stdlib Require Import Ascii.
From stdpp Require Import gmap strings list pretty.
From S2P Require Import Prelude RustStr.
Import RustStr.
Open Scope Z_scope.

Module Gate.

Definition MAX_FAILURES : Z := 5.
Definition BAN_DURATION : Z := 30 * 60 * SEC.
Definition IDLE_LIMIT : Z := 2 * 3600 * SEC.
Definition MAX_VERIFIERS : Z := 128.

Inductive IpAddr := V4 (octets : Z) | V6 (segments : Z).

Global Instance IpAddr_eq_dec : EqDecision IpAddr.
Proof. solve_decision. Defined.
Global Instance IpAddr_countable : Countable IpAddr.
Proof.
  refine (inj_countable' (λ a, match a with V4 z => inl z | V6 z => inr z end)
                         (λ s, match s with inl z => V4 z | inr z => V6 z end) _).
  by intros [].
Defined.

(** [127.0.0.1] and [::1]. *)
Definition LOCALHOST_V4 : IpAddr := V4 (127 * 2 ^ 24 + 1).
Definition LOCALHOST_V6 : IpAddr := V6 1.

Inductive StatusCode :=
  | FORBIDDEN | SERVICE_UNAVAILABLE | UNAUTHORIZED | NOT_FOUND.

Global Instance StatusCode_eq_dec : EqDecision StatusCode.
Proof. solve_decision. Defined.

(** The triple [(u32, Option<Instant>, Instant)]. *)
Record Attempts := { failures : Z; ban : option Z; activity : Z }.

Record ManagementAttempts := {
  ips : gmap IpAddr Attempts;
  verifiers : Z; (* permits left in the semaphore *)
}.

Definition default_attempts : ManagementAttempts := {| ips := ∅; verifiers := MAX_VERIFIERS |}.

Abbreviation Denied := (StatusCode * string)%type.

Definition with_ips (a : ManagementAttempts) (m : gmap IpAddr Attempts) : ManagementAttempts :=
  {| ips := m; verifiers := verifiers a |}.

Definition keeps (now : Z) (e : Attempts) : Prop :=
  (match ban e with Some until => now <? until | None => false end)
  || (duration_since now (activity e) <=? IDLE_LIMIT) = true.
Global Instance keeps_dec now e : Decision (keeps now e).
Proof. unfold keeps. apply _. Defined.

(** The [retain] that opens [preflight]. *)
Definition sweep (now : Z) (m : gmap IpAddr Attempts) : gmap IpAddr Attempts :=
  filter (λ kv : IpAddr * Attempts, keeps now kv.2) m.

Definition ban_message (left : Z) : string :=
  "IP banned due to too many failed attempts. Try again in " +:+ pretty (left / SEC) +:+ "s".

Definition is_local (peer : IpAddr) : bool :=
  bool_decide (peer = LOCALHOST_V4) || bool_decide (peer = LOCALHOST_V6).

Definition preflight (a : ManagementAttempts) (peer : IpAddr) (allow_remote : bool) (now : Z)
  : result Denied unit * ManagementAttempts :=
  let m := sweep now (ips a) in
  let remote_check m :=
    if negb (is_local peer) && negb allow_remote
    then (Err (FORBIDDEN, "remote management disabled"), with_ips a m)
    else (Ok tt, with_ips a m) in
  match m !! peer with
  | Some e =>
      match ban e with
      | Some until =>
          if now <? until then
            (Err (FORBIDDEN, ban_message (duration_since until now)), with_ips a m)
          else remote_check (<[peer := {| failures := 0; ban := None; activity := activity e |}]> m)
      | None => remote_check m
      end
  | None => remote_check m
  end.

Definition begin_verification (a : ManagementAttempts) (peer : IpAddr) (allow_remote : bool) (now : Z)
  : result Denied unit * ManagementAttempts :=
  match preflight a peer allow_remote now with
  | (Err e, a) => (Err e, a)
  | (Ok _, a) =>
      if verifiers a <=? 0 then (Err (SERVICE_UNAVAILABLE, "management verifier busy"), a)
      else (Ok tt, {| ips := ips a; verifiers := verifiers a - 1 |})
  end.

(** Dropping the permit. *)
Definition drop_permit (a : ManagementAttempts) : ManagementAttempts :=
  {| ips := ips a; verifiers := verifiers a + 1 |}.

Definition fail_entry (now : Z) (o : option Attempts) : Attempts :=
  let e := default {| failures := 0; ban := None; activity := now |} o in
  if MAX_FAILURES <=? failures e + 1
  then {| failures := 0; ban := Some (now + BAN_DURATION); activity := now |}
  else {| failures := failures e + 1; ban := ban e; activity := now |}.

Definition authenticate (a : ManagementAttempts) (peer : IpAddr) (allow_remote valid missing : bool)
    (now : Z) : result Denied unit * ManagementAttempts :=
  match preflight a peer allow_remote now with
  | (Err e, a) => (Err e, a)
  | (Ok _, a) =>
      if valid then (Ok tt, with_ips a (delete peer (ips a)))
      else
        (Err (UNAUTHORIZED, if missing then "missing management key" else "invalid management key"),
         with_ips a (<[peer := fail_entry now (ips a !! peer)]> (ips a)))
  end.

(** ** The presented key *)

(** The two headers, when present and readable as text. *)
Record Headers := { authorization : option string; x_management_key : option string }.

Definition presented_management_key (h : Headers) : string :=
  let auth := default "" (authorization h) in
  let provided :=
    match split_once " "%char auth with
    | Some (scheme, key) => if eq_ignore_ascii_case scheme "bearer" then key else auth
    | None => auth
    end in
  if is_empty provided then default "" (x_management_key h) else provided.

(** [fold(0u8, |diff, (a, b)| diff | (a ^ b))] over the zipped bytes. *)
Fixpoint xor_fold (diff : Z) (l r : string) : Z :=
  match l, r with
  | String a l, String b r => xor_fold (Z.lor diff (Z.lxor (byte_of a) (byte_of b))) l r
  | _, _ => diff
  end.

Definition constant_time_equal (l r : string) : bool :=
  if negb (String.length l =? String.length r)%nat then false else xor_fold 0 l r =? 0.

Section request.
Context (bcrypt_verify : string → string → bool).

Definition verify_key (env_secret secret provided : string) : bool :=
  if negb (is_empty env_secret) && constant_time_equal env_secret provided then true
  else if starts_with secret "$2" then bcrypt_verify provided secret
  else negb (is_empty secret) && constant_time_equal secret provided.

(** What the operator configured: the stored secret with [allow_remote], and the
    [MANAGEMENT_PASSWORD] of the environment (empty when unset). *)
Record Secrets := { stored : option (string * bool); env_secret : string }.

Definition secret_of (c : Secrets) : string :=
  match stored c with Some (secret, _) => secret | None => "" end.
Definition allow_remote_of (c : Secrets) : bool :=
  negb (is_empty (env_secret c))
  || match stored c with Some (_, allow) => allow | None => false end.

(** The request up to the verification of the key: an immediate answer, or the
    permit to verify. *)
Definition admit_request (c : Secrets) (peer : option IpAddr) (a : ManagementAttempts) (now : Z)
  : result Denied unit * ManagementAttempts :=
  if is_empty (secret_of c) && is_empty (env_secret c) then (Err (NOT_FOUND, ""), a)
  else match peer with
       | None => (Err (FORBIDDEN, "management peer unavailable"), a)
       | Some peer => begin_verification a peer (allow_remote_of c) now
       end.

(** The verdict on the request. *)
Definition settle (c : Secrets) (peer : IpAddr) (h : Headers) (a : ManagementAttempts) (now : Z)
  : result Denied unit * ManagementAttempts :=
  let provided := presented_management_key h in
  let missing := is_empty provided in
  let valid := if missing then false else verify_key (env_secret c) (secret_of c) provided in
  authenticate (drop_permit a) peer (allow_remote_of c) valid missing now.

(** A whole request; [meanwhile] is what other requests do to the table while the
    key is verified outside the lock. *)
Definition require_management_key (c : Secrets) (peer : option IpAddr) (h : Headers)
    (a : ManagementAttempts) (now : Z) (meanwhile : ManagementAttempts → ManagementAttempts)
    (now' : Z) : result Denied unit * ManagementAttempts :=
  match admit_request c peer a now, peer with
  | (Err e, a), _ => (Err e, a)
  | (Ok _, a), Some peer => settle c peer h (meanwhile a) now'
  | (Ok _, a), None => (Err (FORBIDDEN, "management peer unavailable"), a)
  end.
End request.

End Gate.

(** * Properties of the management gate

    The constant-time comparison is equality; whoever gets through presented a
    configured secret from an allowed address; and guessing is rate-limited. *)

Import RustStr Gate.

(** ** The comparison *)

Lemma byte_of_inj a b : byte_of a = byte_of b → a = b.
Proof.
  unfold byte_of. intros E. rewrite <- (ascii_N_embedding a), <- (ascii_N_embedding b). f_equal. lia.
Qed.

Lemma xor_fold_zero l : ∀ r d,
  String.length l = String.length r → xor_fold d l r = 0 ↔ d = 0 ∧ l = r.
Proof.
  induction l as [|a l IH]; intros [|b r] d Hl; cbn in *; try done; [tauto|].
  rewrite IH by lia. rewrite Z.lor_eq_0_iff, Z.lxor_eq_0_iff. split.
  - by intros [[-> ->%byte_of_inj] ->].
  - by intros [-> [= -> ->]].
Qed.

Lemma constant_time_equal_iff l r : constant_time_equal l r = true ↔ l = r.
Proof.
  unfold constant_time_equal. destruct (Nat.eqb_spec (String.length l) (String.length r)) as [Hl|Hl].
  - cbn [negb]. rewrite Z.eqb_eq, xor_fold_zero by done. tauto.
  - split; [done|]. by intros ->.
Qed.

(** The branch-free comparison is string equality: equal strings are accepted,
    any two strings that differ anywhere, or in length, are refused. *)
Theorem constant_time_equal_correct l r : constant_time_equal l r = bool_decide (l = r).
Proof.
  apply eq_bool_prop_intro. rewrite !Is_true_true, constant_time_equal_iff. symmetry.
  apply bool_decide_eq_true.
Qed.

(** ** What passing the gate means *)

Definition banned (a : ManagementAttempts) (peer : IpAddr) (now : Z) : Prop :=
  ∃ e until, ips a !! peer = Some e ∧ ban e = Some until ∧ now < until.

Lemma sweep_lookup now m p e :
  sweep now m !! p = Some e ↔ m !! p = Some e ∧ keeps now e.
Proof. apply map_lookup_filter_Some. Qed.

Lemma keeps_banned now e until : ban e = Some until → now < until → keeps now e.
Proof. intros Hb Hlt. unfold keeps. rewrite Hb. by rewrite (proj2 (Z.ltb_lt _ _) Hlt). Qed.

(** What a successful [preflight] establishes. *)
Lemma preflight_Ok a peer allow now u a' :
  preflight a peer allow now = (Ok u, a') →
  (is_local peer || allow = true) ∧ ¬ banned a peer now ∧
  (∀ e, ips a' !! peer = Some e → ban e = None) ∧ verifiers a' = verifiers a.
Proof.
  unfold preflight. intros E. set (m := sweep now (ips a)) in E.
  assert (Hcheck : ∀ m', (if negb (is_local peer) && negb allow
      then (Err (FORBIDDEN, "remote management disabled"), with_ips a m')
      else (Ok tt, with_ips a m')) = (Ok u, a') →
      is_local peer || allow = true ∧ a' = with_ips a m').
  { intros m'. destruct (is_local peer), allow; cbn; naive_solver. }
  assert (Hban : ∀ e, m !! peer = None ∨ m !! peer = Some e → (∀ until, ban e = Some until → until ≤ now) →
      m !! peer = None ∨ m !! peer = Some e → ¬ banned a peer now).
  { intros e _ He Hm (e' & until & Hp & Hb & Hlt).
    assert (Hm' : m !! peer = Some e') by (apply sweep_lookup; split; [done|by eapply keeps_banned]).
    rewrite Hm' in Hm. destruct Hm as [?|[= ->]]; [done|]. specialize (He _ Hb). lia. }
  destruct (m !! peer) as [e|] eqn:Hm; [destruct (ban e) as [until|] eqn:Hb|].
  - destruct (Z.ltb_spec now until); [done|]. apply Hcheck in E as [H1 ->].
    split_and!; [done|eapply Hban; naive_solver| |done].
    cbn. intros e'. rewrite lookup_insert_eq. by intros [= <-].
  - apply Hcheck in E as [H1 ->]. split_and!; [done|eapply Hban; naive_solver| |done].
    cbn. intros e'. rewrite Hm. by intros [= <-].
  - apply Hcheck in E as [H1 ->]. split_and!; [done| | |done].
    + eapply (Hban {| failures := 0; ban := None; activity := 0 |}); naive_solver.
    + cbn. intros e'. by rewrite Hm.
Qed.

(** The table after a [preflight]: swept, and an expired ban of the peer lifted. *)
Lemma preflight_ips a peer allow now r a' :
  preflight a peer allow now = (r, a') →
  ips a' = sweep now (ips a) ∨
  ∃ e until, sweep now (ips a) !! peer = Some e ∧ ban e = Some until ∧ until ≤ now ∧
    ips a' = <[peer := {| failures := 0; ban := None; activity := activity e |}]> (sweep now (ips a)).
Proof.
  unfold preflight. destruct (sweep now (ips a) !! peer) as [e|] eqn:Hm;
    [destruct (ban e) as [until|] eqn:Hb|]; [destruct (Z.ltb_spec now until)| |];
    repeat case_if; intros [= _ <-]; cbn; eauto 8.
Qed.

Section sound.
Context (bcrypt_verify : string → string → bool).

(** The presented key is one of the configured secrets. *)
Definition authorised (c : Secrets) (key : string) : Prop :=
  key ≠ "" ∧
  ((env_secret c ≠ "" ∧ key = env_secret c) ∨
   (starts_with (secret_of c) "$2" = true ∧ bcrypt_verify key (secret_of c) = true) ∨
   (starts_with (secret_of c) "$2" = false ∧ secret_of c ≠ "" ∧ key = secret_of c)).

Lemma is_empty_iff s : is_empty s = true ↔ s = "".
Proof. by destruct s. Qed.

Lemma is_empty_false s : is_empty s = false ↔ s ≠ "".
Proof. by destruct s. Qed.

Lemma verify_key_sound c key :
  key ≠ "" → verify_key bcrypt_verify (env_secret c) (secret_of c) key = true → authorised c key.
Proof.
  intros Hk. unfold verify_key, authorised. intros E. split; [done|]. case_if.
  - left. bool_to_prop. by rewrite <- is_empty_false, constant_time_equal_iff in *.
  - right. case_if; [by left|]. right. bool_to_prop.
    by rewrite <- is_empty_false, constant_time_equal_iff in *.
Qed.

Lemma authenticate_Ok a peer allow valid missing now u a' :
  authenticate a peer allow valid missing now = (Ok u, a') → valid = true ∧ ¬ banned a peer now.
Proof.
  unfold authenticate. destruct (preflight _ _ _ _) as [[|] a0] eqn:Hp; [|done].
  apply preflight_Ok in Hp as (_ & Hb & _). by destruct valid.
Qed.

Lemma gate_passes c peer h a now meanwhile now' u a' :
  require_management_key bcrypt_verify c peer h a now meanwhile now' = (Ok u, a') →
  ∃ p, peer = Some p ∧ authorised c (presented_management_key h) ∧
       is_local p || allow_remote_of c = true ∧ ¬ banned a p now ∧
       ¬ banned (meanwhile (admit_request c peer a now).2) p now'.
Proof.
  unfold require_management_key, admit_request. case_if; [done|]. destruct peer as [p|]; [|done].
  unfold begin_verification. destruct (preflight a p (allow_remote_of c) now) as [[v|e] a0] eqn:Hp; [|done].
  apply preflight_Ok in Hp as (Hl & Hb & _ & _). case_if; [done|]. unfold settle.
  intros [Hv Hb']%authenticate_Ok. exists p. split_and!; try done.
  destruct (is_empty (presented_management_key h)) eqn:He; [done|].
  apply verify_key_sound; [by apply is_empty_false|done].
Qed.

(** C6: The gate is sound.  Whatever other requests do while its key is being
    verified, a management request passes only if a secret is configured, the
    transport peer is known, local or remotely allowed, banned neither when the
    request arrives nor when the verdict falls, and the presented key is the
    environment's password, a password bcrypt accepts for the stored secret if that
    is a hash, or else the stored secret itself. *)
Theorem gate_sound c peer h a now meanwhile now' u a' :
  require_management_key bcrypt_verify c peer h a now meanwhile now' = (Ok u, a') →
  ∃ p, peer = Some p ∧ authorised c (presented_management_key h) ∧
       is_local p || allow_remote_of c = true ∧ ¬ banned a p now ∧
       ¬ banned (meanwhile (admit_request c peer a now).2) p now'.
Proof. apply gate_passes. Qed.
End sound.

(** ** Guessing is rate-limited *)

Inductive GateOp :=
  | GBegin (peer : IpAddr) (allow : bool) (now : Z)
  | GAuth (peer : IpAddr) (allow valid missing : bool) (now : Z)
  | GDrop.

Definition run_gate (a : ManagementAttempts) (op : GateOp) : result Denied unit * ManagementAttempts :=
  match op with
  | GBegin peer allow now => begin_verification a peer allow now
  | GAuth peer allow valid missing now => authenticate a peer allow valid missing now
  | GDrop => (Ok tt, drop_permit a)
  end.

(** A verdict on a wrong or missing key of [p]. *)
Definition guess (p : IpAddr) (op : GateOp) (r : result Denied unit) : nat :=
  match op, r with
  | GAuth peer _ _ _ _, Err (UNAUTHORIZED, _) => if bool_decide (peer = p) then 1 else 0
  | _, _ => 0
  end.

Fixpoint guesses (p : IpAddr) (a : ManagementAttempts) (ops : list GateOp) : nat :=
  match ops with
  | [] => 0
  | op :: ops => let '(r, a') := run_gate a op in guess p op r + guesses p a' ops
  end.

Section window.
Context (p : IpAddr) (t0 : Z).

Definition in_window (op : GateOp) : Prop :=
  match op with
  | GBegin _ _ now => t0 ≤ now < t0 + BAN_DURATION
  | GAuth peer _ valid _ now =>
      t0 ≤ now < t0 + BAN_DURATION ∧ (peer = p → valid = false)
  | GDrop => True
  end.

Definition entries_ok (m : gmap IpAddr Attempts) : Prop :=
  ∀ q e, m !! q = Some e → 0 ≤ failures e < MAX_FAILURES.

(** After [k] wrong keys of [p] in the window. *)
Definition tally (k : Z) (m : gmap IpAddr Attempts) : Prop :=
  0 ≤ k ≤ MAX_FAILURES ∧
  (0 < k → ∃ e, m !! p = Some e ∧ t0 ≤ activity e ∧
     match ban e with
     | Some until => t0 + BAN_DURATION ≤ until
     | None => k ≤ failures e
     end).

Lemma keeps_window now e :
  t0 ≤ now < t0 + BAN_DURATION → t0 ≤ activity e → keeps now e.
Proof.
  intros Hn Ha. unfold keeps. apply orb_true_iff. right. apply Z.leb_le.
  unfold duration_since, IDLE_LIMIT, BAN_DURATION in *. unfold SEC, MS in *. lia.
Qed.

(** [preflight] keeps the tally, and passes [p] only while it is not banned. *)
Lemma preflight_tally a peer allow now k r a' :
  t0 ≤ now < t0 + BAN_DURATION → tally k (ips a) → entries_ok (ips a) →
  preflight a peer allow now = (r, a') →
  tally k (ips a') ∧ entries_ok (ips a').
Proof.
  intros Hn [Hk Ht] Hok E.
  assert (Hs : entries_ok (sweep now (ips a)) ∧ tally k (sweep now (ips a))).
  { split; [intros q e [Hq _]%sweep_lookup; by eapply Hok|]. split; [done|]. intros Hpos.
    destruct (Ht Hpos) as (e & He & Ha & Hb). exists e. split; [|done].
    apply sweep_lookup. split; [done|by apply keeps_window]. }
  destruct Hs as [Hok1 [_ Ht1]]. apply preflight_ips in E as [->|(e & until & Hm & Hb & Hle & ->)].
  { split; [by split|exact Hok1]. }
  split; [split; [done|]|].
  - intros Hpos. destruct (Ht1 Hpos) as (e' & He' & Ha' & Hb').
    destruct (decide (peer = p)) as [->|Hne].
    + rewrite Hm in He'. injection He' as <-. rewrite Hb in Hb'. lia.
    + exists e'. by rewrite lookup_insert_ne.
  - intros q e' [[<- <-]|[_ Hq]]%lookup_insert_Some; [cbn; unfold MAX_FAILURES; lia|by eapply Hok1].
Qed.

Lemma fail_entry_ok now o :
  (∀ e, o = Some e → 0 ≤ failures e < MAX_FAILURES) → 0 ≤ failures (fail_entry now o) < MAX_FAILURES.
Proof.
  intros Ho. unfold fail_entry. case_if; cbn [failures]; bool_to_prop.
  - unfold MAX_FAILURES. lia.
  - destruct o as [e|]; cbn in *; [specialize (Ho e eq_refl); lia|unfold MAX_FAILURES; lia].
Qed.

(** One more wrong key of [p] that was compared. *)
Lemma fail_tally now k m :
  t0 ≤ now < t0 + BAN_DURATION → tally k m → entries_ok m →
  (∀ e, m !! p = Some e → ban e = None) →
  tally (k + 1) (<[p := fail_entry now (m !! p)]> m).
Proof.
  intros Hn [Hk Ht] Hok Hban.
  assert (Hf : k ≤ failures (default {| failures := 0; ban := None; activity := now |} (m !! p))
               < MAX_FAILURES ∧
               ban (default {| failures := 0; ban := None; activity := now |} (m !! p)) = None).
  { destruct (m !! p) as [e|] eqn:He; cbn.
    - pose proof (Hok _ _ He). specialize (Hban _ eq_refl). split; [|done].
      destruct (decide (0 < k)) as [Hpos|]; [|lia].
      destruct (Ht Hpos) as (e' & He' & _ & Hb). injection He' as <-. rewrite Hban in Hb. lia.
    - unfold MAX_FAILURES. split; [|done]. destruct (decide (0 < k)) as [Hpos|]; [|lia].
      destruct (Ht Hpos) as (e' & He' & _). done. }
  destruct Hf as [Hf Hb]. split; [lia|]. intros _. exists (fail_entry now (m !! p)).
  rewrite lookup_insert_eq. split; [done|]. unfold fail_entry.
  case_if; cbn [activity ban failures]; [lia|]. rewrite Hb. lia.
Qed.

Lemma authenticate_tally a peer allow valid missing now k r a' :
  t0 ≤ now < t0 + BAN_DURATION → (peer = p → valid = false) →
  tally k (ips a) → entries_ok (ips a) →
  authenticate a peer allow valid missing now = (r, a') →
  tally (k + Z.of_nat (guess p (GAuth peer allow valid missing now) r)) (ips a') ∧
  entries_ok (ips a').
Proof.
  intros Hn Hv Ht Hok E. unfold authenticate in E.
  destruct (preflight a peer allow now) as [pr a0] eqn:Hp.
  pose proof (preflight_tally _ _ _ _ _ _ _ Hn Ht Hok Hp) as [Ht0 Hok0].
  destruct pr as [u|[st msg]].
  - apply preflight_Ok in Hp as (_ & _ & Hban & _). destruct valid; injection E as <- <-; cbn.
    + rewrite Z.add_0_r. assert (peer ≠ p) by (intros ->; by specialize (Hv eq_refl)).
      split; [|intros q e [_ Hq]%lookup_delete_Some; by eapply Hok0].
      destruct Ht0 as [Hk Ht0]. split; [done|]. intros Hpos. destruct (Ht0 Hpos) as (e & He & Hb).
      exists e. by rewrite lookup_delete_ne.
    + split.
      * case_bool_decide; subst; [by apply fail_tally|]. rewrite Z.add_0_r.
        destruct Ht0 as [Hk Ht0]. split; [done|]. intros Hpos.
        destruct (Ht0 Hpos) as (e & He & Hb). exists e. by rewrite lookup_insert_ne.
      * intros q e [[<- <-]|[_ Hq]]%lookup_insert_Some; [|by eapply Hok0].
        apply fail_entry_ok. intros e. apply Hok0.
  - injection E as <- <-. assert (Hst : st = FORBIDDEN).
    { unfold preflight in Hp. by repeat case_match; simplify_eq. }
    subst st. cbn. by rewrite Z.add_0_r.
Qed.

Lemma guesses_tally ops : ∀ a k,
  Forall in_window ops → tally k (ips a) → entries_ok (ips a) →
  k + Z.of_nat (guesses p a ops) ≤ MAX_FAILURES.
Proof.
  induction ops as [|op ops IH]; intros a k Hops Ht Hok; cbn [guesses].
  { destruct Ht. lia. }
  apply list.Forall_cons in Hops as [Hop Hops]. destruct (run_gate a op) as [r a'] eqn:E.
  destruct op as [peer allow now|peer allow valid missing now|]; cbn in Hop, E.
  - unfold begin_verification in E. destruct (preflight a peer allow now) as [pr a0] eqn:Hp.
    pose proof (preflight_tally _ _ _ _ _ _ _ Hop Ht Hok Hp) as [Ht0 Hok0].
    assert (Ha : ips a' = ips a0) by (destruct pr; repeat case_if; by simplify_eq).
    rewrite <- Ha in *. cbn. by apply IH.
  - destruct Hop as [Hn Hv].
    pose proof (authenticate_tally _ _ _ _ _ _ _ _ _ Hn Hv Ht Hok E) as [Ht' Hok'].
    specialize (IH a' _ Hops Ht' Hok'). lia.
  - injection E as <- <-. cbn. by apply IH.
Qed.
End window.

Lemma run_gate_ok a op : entries_ok (ips a) → entries_ok (ips (run_gate a op).2).
Proof.
  assert (Hpre : ∀ peer allow now, entries_ok (ips a) → entries_ok (ips (preflight a peer allow now).2)).
  { intros peer allow now Hok. destruct (preflight a peer allow now) as [r a'] eqn:E. cbn.
    assert (Hs : entries_ok (sweep now (ips a))) by (intros q e [Hq _]%sweep_lookup; by eapply Hok).
    apply preflight_ips in E as [->|(e & until & _ & _ & _ & ->)]; [done|].
    intros q e' [[<- <-]|[_ Hq]]%lookup_insert_Some; [cbn; unfold MAX_FAILURES; lia|by eapply Hs]. }
  intros Hok. destruct op as [peer allow now|peer allow valid missing now|]; cbn; [| |done];
    specialize (Hpre peer allow now Hok); unfold begin_verification, authenticate;
    destruct (preflight a peer allow now) as [[u|e] a0]; cbn in *; try done.
  - by case_if.
  - destruct valid; cbn.
    + intros q e [_ Hq]%lookup_delete_Some. by eapply Hpre.
    + intros q e [[<- <-]|[_ Hq]]%lookup_insert_Some; [|by eapply Hpre].
      apply fail_entry_ok. intros e. apply Hpre.
Qed.

(** C7: Guessing is rate-limited.  Whatever happened before, and however the two
    steps of its own requests and those of other peers interleave, in any period
    shorter than [BAN_DURATION] in which an address presents no valid key, the
    gate gives it at most [MAX_FAILURES] verdicts on a key: verifications that end
    after that are answered with the ban. *)
Theorem brute_force_bounded p t0 before ops :
  Forall (in_window p t0) ops →
  Z.of_nat (guesses p (foldl (λ a op, (run_gate a op).2) default_attempts before) ops) ≤ MAX_FAILURES.
Proof.
  intros Hops.
  assert (Hok : entries_ok (ips (foldl (λ a op, (run_gate a op).2) default_attempts before))).
  { assert (H0 : entries_ok (ips default_attempts)) by (intros q e; cbn; by rewrite lookup_empty).
    revert H0. generalize default_attempts.
    induction before as [|op before IH]; intros a Ha; cbn; [done|]. by apply IH, run_gate_ok. }
  apply (guesses_tally p t0 ops _ 0 Hops); [|done]. split; [unfold MAX_FAILURES; lia|lia].
Qed.

(** ** Witnesses *)
Definition attacker : IpAddr := V4 1.
Definition wrong (now : Z) : GateOp := GAuth attacker true false false now.

Lemma gate_sound_witness :
  ∃ p, Some LOCALHOST_V4 = Some p ∧
    authorised (λ _ _, false) {| stored := Some ("secret", false); env_secret := "" |} "secret" ∧
    is_local p || false = true ∧ ¬ banned default_attempts p 0 ∧
    ¬ banned (admit_request {| stored := Some ("secret", false); env_secret := "" |}
                (Some LOCALHOST_V4) default_attempts 0).2 p 1.
Proof.
  apply (gate_sound (λ _ _, false) {| stored := Some ("secret", false); env_secret := "" |}
           (Some LOCALHOST_V4) {| authorization := Some "Bearer secret"; x_management_key := None |}
           default_attempts 0 (λ a, a) 1 tt default_attempts).
  vm_compute. reflexivity.
Defined.

Lemma brute_force_bounded_witness :
  Z.of_nat (guesses attacker (foldl (λ a op, (run_gate a op).2) default_attempts [wrong 0])
    [wrong 1; wrong 2; wrong 3; wrong 4; wrong 5; wrong 6; wrong 7]) ≤ MAX_FAILURES.
Proof.
  apply (brute_force_bounded attacker 0 [wrong 0]).
  repeat constructor; unfold BAN_DURATION, SEC, MS; lia.
Defined.

(** The limit is reached: the first wrong key before the window leaves four more. *)
Example brute_force_tight :
  guesses attacker (foldl (λ a op, (run_gate a op).2) default_attempts [wrong 0])
    [wrong 1; wrong 2; wrong 3; wrong 4; wrong 5; wrong 6; wrong 7] = 4%nat.
Proof. vm_compute. reflexivity. Qed.
