(* ===== verification/Inbound.v ===== *)
(** * Inbound authentication (crates/gateway/src/inbound.rs, realtime.rs)

    Who a request is: a master key, a scoped key, or a short-lived realtime secret minted
    for one of them.  The middleware runs before every handler: on the control plane it
    defers to the management gate, elsewhere it decides from the presented credential.

    The clock, the random token of a secret and what other requests do to the gate while a
    key is verified are arguments. *)

From Stdlib Require Import Ascii.
From stdpp Require Import gmap strings list.
From S2P Require Import Prelude RustStr Sha256 Json ScopedKeys Gate.
Import RustStr Sha256.
Open Scope Z_scope.

Module Inbound.

Inductive AuthIdentity :=
  | Unrestricted
  | Master
  | ScopedKey (k : Scoped.ScopedApiKey).   (* [Scoped] *)

Record ResolvedAuth := { identity : AuthIdentity; key_identifier : option string }.

Definition is_scoped (i : AuthIdentity) : bool :=
  match i with ScopedKey _ => true | _ => false end.
Definition may_manage (i : AuthIdentity) : bool := negb (is_scoped i).
Definition scoped (i : AuthIdentity) : option Scoped.ScopedApiKey :=
  match i with ScopedKey k => Some k | _ => None end.

(** [settings]: the live document's master keys and scoped keys, when bound. *)
Record ApiKeys := {
  overrides : list string;
  settings : option (list string * list Scoped.ScopedApiKey);
}.

Definition live_keys (a : ApiKeys) : list string :=
  match settings a with Some (ks, _) => ks | None => [] end.
Definition scoped_keys (a : ApiKeys) : list Scoped.ScopedApiKey :=
  match settings a with Some (_, ks) => ks | None => [] end.

Definition from_env_value (raw : string) : ApiKeys :=
  {| overrides := filter (λ s, is_empty s = false) (trim <$> split ","%char raw);
     settings := None |}.

Definition is_nil {A} (l : list A) : bool := match l with [] => true | _ => false end.

Definition keys_is_empty (a : ApiKeys) : bool := is_nil (overrides a) && is_nil (live_keys a).

Definition accepts (a : ApiKeys) (presented : string) : bool :=
  bool_decide (presented ∈ overrides a) || bool_decide (presented ∈ live_keys a).

Definition usable_scoped (a : ApiKeys) (presented : string) (now_ms : Z)
  : option Scoped.ScopedApiKey :=
  let identifier := stable_key_identifier presented in
  find (λ k, bool_decide (Scoped.key_identifier k = identifier) && Scoped.is_usable_at k now_ms)
    (scoped_keys a).

Definition authorizes (a : ApiKeys) (presented : option string) (now_ms : Z) : option AuthIdentity :=
  if keys_is_empty a then
    match presented ≫= λ p, usable_scoped a p now_ms with
    | Some k => Some (ScopedKey k)
    | None => Some Master
    end
  else
    match presented with
    | None => None
    | Some p =>
        if accepts a p then Some Master
        else if is_nil (scoped_keys a) then None
        else ScopedKey <$> usable_scoped a p now_ms
    end.

(** ** Requests *)

Record Request := {
  path : string;
  original_path : option string;   (* [OriginalUri], under a nested router *)
  query : option string;
  authorization : option string;
  x_api_key : option string;
  x_management_key : option string;
  peer : option Gate.IpAddr;
}.

Definition gate_headers (r : Request) : Gate.Headers :=
  {| Gate.authorization := authorization r; Gate.x_management_key := x_management_key r |}.

Definition under (path prefix : string) : bool :=
  match strip_prefix prefix path with
  | Some rest => is_empty rest || starts_with rest "/"
  | None => false
  end.

Definition is_management_path (path : string) : bool :=
  bool_decide (path = "/api/codex-auth/accounts/credits")
  || existsb (under path) ["/v0/management"; "/v8/management"; "/admin"].

Definition request_targets_management (r : Request) : bool :=
  match original_path r with Some p => is_management_path p | None => false end
  || is_management_path (path r).

Definition bearer (auth : string) : option string :=
  match strip_prefix "Bearer " auth with
  | Some t => Some (trim t)
  | None => trim <$> strip_prefix "bearer " auth
  end.

Definition presented_api_key (r : Request) : option string :=
  match authorization r ≫= bearer with
  | Some t => Some t
  | None => trim <$> x_api_key r
  end.

(** The first [key=...] of the query. *)
Fixpoint query_key (pairs : list string) : option string :=
  match pairs with
  | [] => None
  | p :: pairs =>
      match split_once "="%char p with
      | Some (k, v) => if bool_decide (k = "key") then Some v else query_key pairs
      | None => query_key pairs
      end
  end.

Definition extract_presented_key (r : Request) : option string :=
  match presented_api_key r with
  | Some t => Some t
  | None => query r ≫= λ q, query_key (split "&"%char q)
  end.

(** ** Realtime secrets *)

Definition MIN_EPHEMERAL_TTL_SECS : Z := 10.
Definition MAX_EPHEMERAL_TTL_SECS : Z := 7200.
Definition MAX_SECRETS : nat := 1024.
Definition MAX_SECRETS_PER_ISSUER : nat := 64.

Record RealtimeSecret := {
  issuer : string;
  model : string;
  scope : option Scoped.ScopedApiKey;
  expires_at : Z;
  expires_instant : Z;
  member_id : option string;
}.

Abbreviation RealtimeStore := (gmap string RealtimeSecret).

Definition retain_live (now : Z) (s : RealtimeStore) : RealtimeStore :=
  filter (λ kv : string * RealtimeSecret, now < expires_instant kv.2) s.

Definition of_issuer (i : string) (s : RealtimeStore) : RealtimeStore :=
  filter (λ kv : string * RealtimeSecret, issuer kv.2 = i) s.

(** [token] is the random part of the value; [now] is monotonic, [unix] the wall clock. *)
Definition mint (s : RealtimeStore) (iss mdl : string) (scp : option Scoped.ScopedApiKey)
    (member : option string) (lifetime_secs : Z) (token : string) (now unix : Z)
  : result string (string * Z) * RealtimeStore :=
  let lifetime := Z.min MAX_EPHEMERAL_TTL_SECS (Z.max MIN_EPHEMERAL_TTL_SECS lifetime_secs) in
  let expires := saturating_add_u64 unix lifetime in
  let s := retain_live now s in
  if (MAX_SECRETS <=? size s)%nat then (Err "realtime secret capacity reached", s)
  else if (MAX_SECRETS_PER_ISSUER <=? size (of_issuer iss s))%nat
  then (Err "realtime issuer secret capacity reached", s)
  else
    let value := "ek_" +:+ token in
    (Ok (value, expires),
     <[value := {| issuer := iss; model := mdl; scope := scp; expires_at := expires;
                   expires_instant := now + lifetime * SEC; member_id := member |}]> s).

Definition lookup_secret (s : RealtimeStore) (value : string) (now : Z)
  : option RealtimeSecret * RealtimeStore :=
  if starts_with value "ek_" then let s := retain_live now s in (s !! value, s) else (None, s).

(** ** The middleware *)

Definition realtime_path (p : string) : bool :=
  bool_decide (p = "/v1/realtime/calls") || starts_with p "/v1/realtime/calls/"
  || starts_with p "/v1/live/".

Inductive Outcome :=
  | Denied (status : Gate.StatusCode) (message : string)
  | Handled (auth : ResolvedAuth) (secret : option RealtimeSecret).   (* [next.run] *)

Section middleware.
Context (bcrypt_verify : string → string → bool).

(** [store] is the realtime store when it is among the request's extensions; [meanwhile]
    and [now'] are what the gate sees while and after the key is verified. *)
Definition require_api_key (a : ApiKeys) (secrets : Gate.Secrets) (r : Request)
    (attempts : Gate.ManagementAttempts) (store : option RealtimeStore) (now now_ms : Z)
    (meanwhile : Gate.ManagementAttempts → Gate.ManagementAttempts) (now' : Z)
  : Outcome * Gate.ManagementAttempts * option RealtimeStore :=
  if request_targets_management r then
    match authorizes a (extract_presented_key r) now_ms with
    | Some (ScopedKey _) => (Denied Gate.UNAUTHORIZED "", attempts, store)
    | _ =>
        match Gate.require_management_key bcrypt_verify secrets (peer r) (gate_headers r)
                attempts now meanwhile now' with
        | (Err (status, message), attempts) => (Denied status message, attempts, store)
        | (Ok _, attempts) =>
            (Handled {| identity := Master; key_identifier := None |} None, attempts, store)
        end
    end
  else
    match authorizes a (extract_presented_key r) now_ms with
    | None =>
        match presented_api_key r, store with
        | Some value, Some s =>
            let '(found, s) := lookup_secret s value now in
            match found with
            | Some secret =>
                if realtime_path (path r) then
                  (Handled {| identity := match scope secret with
                                          | Some k => ScopedKey k
                                          | None => Master
                                          end;
                              key_identifier := Some (issuer secret) |} (Some secret),
                   attempts, Some s)
                else (Denied Gate.UNAUTHORIZED "", attempts, Some s)
            | None => (Denied Gate.UNAUTHORIZED "invalid api key", attempts, Some s)
            end
        | _, _ => (Denied Gate.UNAUTHORIZED "invalid api key", attempts, store)
        end
    | Some who =>
        if negb (may_manage who) && request_targets_management r then
          (Denied Gate.FORBIDDEN "scoped api keys cannot access management endpoints", attempts, store)
        else
        (Handled {| identity := who;
                    key_identifier := stable_key_identifier <$> extract_presented_key r |} None,
         attempts, store)
    end.
End middleware.

End Inbound.
