(* ===== verification/InboundProps.v ===== *)
(** * Who may do what

    Authentication decides from the configured keys alone, the control plane is closed to
    scoped keys, and realtime secrets are bounded in number, in lifetime and in reach. *)

From Stdlib Require Import Ascii.
From stdpp Require Import gmap strings list.
From S2P Require Import Prelude RustStr Sha256 Json ScopedKeys Gate Inbound.
Import RustStr Inbound.
Open Scope Z_scope.

(** ** Identities *)

Lemma is_nil_iff {A} (l : list A) : is_nil l = true ↔ l = [].
Proof. by destruct l. Qed.

Lemma accepts_iff a p : accepts a p = true ↔ p ∈ overrides a ∨ p ∈ live_keys a.
Proof. unfold accepts. rewrite orb_true_iff, !bool_decide_eq_true. done. Qed.

Lemma keys_is_empty_iff a : keys_is_empty a = true ↔ overrides a = [] ∧ live_keys a = [].
Proof. unfold keys_is_empty. by rewrite andb_true_iff, !is_nil_iff. Qed.

Lemma open_accepts a p : keys_is_empty a = true → accepts a p = false.
Proof.
  intros [H1 H2]%keys_is_empty_iff. apply not_true_is_false. rewrite accepts_iff, H1, H2.
  by intros [?%elem_of_nil|?%elem_of_nil].
Qed.

Lemma usable_scoped_nil a p now : is_nil (scoped_keys a) = true → usable_scoped a p now = None.
Proof. intros H%is_nil_iff. unfold usable_scoped. by rewrite H. Qed.

Lemma usable_scoped_Some a p now k :
  usable_scoped a p now = Some k →
  k ∈ scoped_keys a ∧ Scoped.key_identifier k = Sha256.stable_key_identifier p ∧
  Scoped.is_active k = true ∧ ∀ t, Scoped.expires_at_ms k = Some t → now < t.
Proof.
  intros [Hin Hb]%find_some. apply andb_true_iff in Hb as [Hi Hu]. apply bool_decide_eq_true in Hi.
  apply andb_true_iff in Hu as [Ha He]. split_and!; [by apply list_elem_of_In|done|done|].
  intros t Ht. rewrite Ht in He. by apply Z.ltb_lt.
Qed.

Lemma authorizes_cases a presented now : authorizes a presented now =
  let anonymous := if keys_is_empty a then Some Master else None in
  match presented with
  | None => anonymous
  | Some p => if accepts a p then Some Master
              else match usable_scoped a p now with
                   | Some k => Some (ScopedKey k)
                   | None => anonymous
                   end
  end.
Proof.
  unfold authorizes. cbn zeta. destruct (keys_is_empty a) eqn:He.
  - destruct presented as [p|]; [|done]. rewrite open_accepts by done. cbn. by destruct (usable_scoped a p now).
  - destruct presented as [p|]; [|done]. destruct (accepts a p); [done|].
    destruct (is_nil (scoped_keys a)) eqn:En; [by rewrite usable_scoped_nil|].
    by destruct (usable_scoped a p now).
Qed.

(** Authentication is exact.  A credential is a master key exactly when it is one of
    the configured master keys, or when no master key is configured and it is no usable
    scoped key; it authenticates as a scoped key exactly when it is no master key and the
    first usable scoped key with its digest is that one, which is then active and not
    expired.  An absent credential is accepted only by a gateway without master keys. *)
Theorem authorizes_exact (a : ApiKeys) (presented : option string) (now_ms : Z) :
  (authorizes a presented now_ms = Some Master ↔
     (∃ p, presented = Some p ∧ (p ∈ overrides a ∨ p ∈ live_keys a)) ∨
     (overrides a = [] ∧ live_keys a = [] ∧
      ∀ p, presented = Some p → usable_scoped a p now_ms = None)) ∧
  (∀ k, authorizes a presented now_ms = Some (ScopedKey k) ↔
     ∃ p, presented = Some p ∧ (p ∉ overrides a) ∧ (p ∉ live_keys a) ∧
          usable_scoped a p now_ms = Some k) ∧
  (∀ p k, usable_scoped a p now_ms = Some k →
     k ∈ scoped_keys a ∧ Scoped.key_identifier k = Sha256.stable_key_identifier p ∧
     Scoped.is_active k = true ∧ ∀ t, Scoped.expires_at_ms k = Some t → now_ms < t) ∧
  (authorizes a None now_ms = None ↔ ¬ (overrides a = [] ∧ live_keys a = [])).
Proof.
  assert (Hacc : ∀ p, reflect (p ∈ overrides a ∨ p ∈ live_keys a) (accepts a p)).
  { intros p. apply iff_reflect. symmetry. apply accepts_iff. }
  assert (Hopen : reflect (overrides a = [] ∧ live_keys a = []) (keys_is_empty a)).
  { apply iff_reflect. symmetry. apply keys_is_empty_iff. }
  split_and!; [| |by intros p k; apply usable_scoped_Some|].
  - rewrite authorizes_cases. cbn zeta. destruct presented as [p|].
    + destruct (Hacc p) as [Hp|Hp]; [naive_solver|].
      destruct (usable_scoped a p now_ms) eqn:Eu; [naive_solver|].
      destruct Hopen; naive_solver.
    + destruct Hopen; naive_solver.
  - intros k. rewrite authorizes_cases. cbn zeta. destruct presented as [p|].
    + destruct (Hacc p) as [Hp|Hp]; [naive_solver|].
      destruct (usable_scoped a p now_ms) eqn:Eu; [naive_solver|].
      destruct Hopen; naive_solver.
    + destruct Hopen; naive_solver.
  - rewrite authorizes_cases. cbn zeta. destruct Hopen; naive_solver.
Qed.

(** ** The middleware *)

Section middleware.
Context (bcrypt_verify : string → string → bool).

(** C5: The middleware is sound.  A handler runs for exactly three reasons.  On a control
    plane path: the presented credential is not a scoped key, and the management gate let
    the request pass - known peer, local or remotely allowed, not banned, presenting the
    configured secret.  Elsewhere: the credential authenticated, and the handler sees that
    identity with the credential's digest.  Or the credential is an unexpired realtime
    secret, the path is a realtime path, and the handler acts for the key the secret was
    minted with.  So no scoped key, and no secret minted with one, reaches the control
    plane. *)
Theorem inbound_sound (a : ApiKeys) (secrets : Gate.Secrets) (r : Request)
  (attempts : Gate.ManagementAttempts) (store : option RealtimeStore) (now now_ms now' : Z)
  (meanwhile : Gate.ManagementAttempts → Gate.ManagementAttempts)
  (auth : ResolvedAuth) (secret : option RealtimeSecret) (attempts' : Gate.ManagementAttempts)
  (store' : option RealtimeStore)
  (H : require_api_key bcrypt_verify a secrets r attempts store now now_ms meanwhile now'
       = (Handled auth secret, attempts', store')) :
  (request_targets_management r = true ∧ identity auth = Master ∧
     (∀ k, authorizes a (extract_presented_key r) now_ms ≠ Some (ScopedKey k)) ∧
     ∃ p, peer r = Some p ∧
       authorised bcrypt_verify secrets (Gate.presented_management_key (gate_headers r)) ∧
       Gate.is_local p || Gate.allow_remote_of secrets = true ∧ ¬ banned attempts p now) ∨
  (request_targets_management r = false ∧
     ((authorizes a (extract_presented_key r) now_ms = Some (identity auth) ∧
       key_identifier auth = Sha256.stable_key_identifier <$> extract_presented_key r) ∨
      (authorizes a (extract_presented_key r) now_ms = None ∧ realtime_path (path r) = true ∧
       ∃ s value sec, store = Some s ∧ presented_api_key r = Some value ∧
         s !! value = Some sec ∧ now < expires_instant sec ∧ secret = Some sec ∧
         identity auth = match scope sec with Some k => ScopedKey k | None => Master end ∧
         key_identifier auth = Some (issuer sec)))).
Proof.
  unfold require_api_key in H. destruct (request_targets_management r) eqn:Em.
  - left. destruct (authorizes a (extract_presented_key r) now_ms) as [[| |k]|] eqn:Ea; try done;
      destruct (Gate.require_management_key _ _ _ _ _ _ _ _) as [[u|[st msg]] at'] eqn:Eg; try done;
      injection H as <- <- <- <-;
      apply gate_passes in Eg as (p & Hp & Hauth & Hl & Hb & _);
      (split_and!; [done|done|congruence|by exists p]).
  - right. split; [done|].
    destruct (authorizes a (extract_presented_key r) now_ms) as [who|] eqn:Ea.
    + left. rewrite andb_false_r in H. by injection H as <- <- <- <-.
    + right. destruct (presented_api_key r) as [value|] eqn:Ep; [|done].
      destruct store as [s|]; [|done]. unfold lookup_secret in H.
      destruct (starts_with value "ek_"); [|done].
      destruct (retain_live now s !! value) as [sec|] eqn:Es; [|done].
      destruct (realtime_path (path r)) eqn:Er; [|done]. injection H as <- <- <- <-.
      apply map_lookup_filter_Some in Es as [Hs Hlt]. cbn in Hlt.
      split_and!; [done|done|]. by exists s, value, sec.
Qed.
End middleware.

(** ** Realtime secrets *)

Inductive rop :=
  | RMint (iss mdl : string) (scp : option Scoped.ScopedApiKey) (member : option string)
      (lifetime : Z) (token : string) (now unix : Z)
  | RLookup (value : string) (now : Z).

Definition rstep (s : RealtimeStore) (op : rop) : RealtimeStore :=
  match op with
  | RMint iss mdl scp member lifetime token now unix =>
      (mint s iss mdl scp member lifetime token now unix).2
  | RLookup value now => (lookup_secret s value now).2
  end.

Definition rtime (op : rop) : Z :=
  match op with RMint _ _ _ _ _ _ now _ | RLookup _ now => now end.
(** The random tokens do not repeat. *)
Definition fresh_from (value : string) (op : rop) : Prop :=
  match op with RMint _ _ _ _ _ token _ _ => "ek_" +:+ token ≠ value | RLookup _ _ => True end.

Definition secrets_ok (s : RealtimeStore) : Prop :=
  (size s ≤ MAX_SECRETS)%nat ∧ ∀ i, (size (of_issuer i s) ≤ MAX_SECRETS_PER_ISSUER)%nat.

Lemma secrets_ok_subseteq s s' : s' ⊆ s → secrets_ok s → secrets_ok s'.
Proof.
  intros Hs [H1 H2]. split; [pose proof (map_subseteq_size _ _ Hs); lia|].
  intros i. specialize (H2 i).
  assert (Hsub : of_issuer i s' ⊆ of_issuer i s); [|pose proof (map_subseteq_size _ _ Hsub); lia].
  apply map_subseteq_spec. intros k v [Hk Hi]%map_lookup_filter_Some.
  apply map_lookup_filter_Some. split; [by eapply lookup_weaken|done].
Qed.

Lemma of_issuer_insert i s value sec : of_issuer i (<[value := sec]> s) ⊆ <[value := sec]> (of_issuer i s).
Proof.
  apply map_subseteq_spec. intros k v [Hk Hi]%map_lookup_filter_Some.
  apply lookup_insert_Some in Hk as [[-> ->]|[Hne Hk]]; [by rewrite lookup_insert_eq|].
  rewrite lookup_insert_ne by done. by apply map_lookup_filter_Some.
Qed.

Lemma of_issuer_other i s value sec : issuer sec ≠ i → of_issuer i (<[value := sec]> s) ⊆ of_issuer i s.
Proof.
  intros Hi. apply map_subseteq_spec. intros k v [Hk Hv]%map_lookup_filter_Some.
  apply lookup_insert_Some in Hk as [[-> ->]|[Hne Hk]]; [done|]. by apply map_lookup_filter_Some.
Qed.

Lemma size_insert_le (s : RealtimeStore) value sec : (size (<[value := sec]> s) ≤ S (size s))%nat.
Proof. rewrite map_size_insert. destruct (s !! value); cbn; lia. Qed.

Lemma rstep_ok s op : secrets_ok s → secrets_ok (rstep s op).
Proof.
  intros Hs. assert (Hr : ∀ now, secrets_ok (retain_live now s)).
  { intros now. eapply secrets_ok_subseteq; [apply map_filter_subseteq|done]. }
  destruct op as [iss mdl scp member lifetime token now unix|value now]; cbn.
  - unfold mint. specialize (Hr now). destruct (Nat.leb_spec MAX_SECRETS (size (retain_live now s))); [done|].
    destruct (Nat.leb_spec MAX_SECRETS_PER_ISSUER (size (of_issuer iss (retain_live now s)))); [done|].
    destruct Hr as [_ Hi]. cbn [snd]. set (sec := Build_RealtimeSecret _ _ _ _ _ _). split.
    + pose proof (size_insert_le (retain_live now s) ("ek_" +:+ token) sec). lia.
    + intros i. destruct (decide (i = iss)) as [->|Hne].
      * pose proof (map_subseteq_size _ _ (of_issuer_insert iss (retain_live now s) ("ek_" +:+ token) sec)).
        pose proof (size_insert_le (of_issuer iss (retain_live now s)) ("ek_" +:+ token) sec). lia.
      * pose proof (map_subseteq_size _ _ (of_issuer_other i (retain_live now s) ("ek_" +:+ token) sec
          (λ H, Hne (eq_sym H)))). specialize (Hi i). lia.
  - unfold lookup_secret. destruct (starts_with value "ek_"); [apply Hr|done].
Qed.

(** While it has not expired a secret stays, and once it is gone its time was up. *)
Definition kept (value : string) (sec : RealtimeSecret) (horizon : Z) (s : RealtimeStore) : Prop :=
  s !! value = Some sec ∨ (s !! value = None ∧ expires_instant sec ≤ horizon).

Lemma kept_retain value sec horizon now s :
  now ≤ horizon → kept value sec horizon s → kept value sec horizon (retain_live now s).
Proof.
  intros Hn [Hs|[Hs He]].
  - destruct (Z.ltb_spec now (expires_instant sec)).
    + left. by apply map_lookup_filter_Some.
    + right. split; [|lia]. apply map_lookup_filter_None. right. intros x Hx.
      replace x with sec by congruence. cbn. lia.
  - right. split; [|done]. apply map_lookup_filter_None. by left.
Qed.

Lemma kept_step value sec horizon s op :
  rtime op ≤ horizon → fresh_from value op → kept value sec horizon s →
  kept value sec horizon (rstep s op).
Proof.
  intros Ht Hf Hk. destruct op as [iss mdl scp member lifetime token now unix|v now]; cbn in *.
  - pose proof (kept_retain value sec horizon now s Ht Hk) as Hr. unfold mint.
    repeat case_match; try done. cbn. unfold kept. by rewrite lookup_insert_ne.
  - unfold lookup_secret. case_match; [by apply kept_retain|done].
Qed.

(** Realtime secrets are bounded in number and in time.  Whatever requests mint and
    look up, the store never holds more than 1024 secrets, nor more than 64 of one key.
    A secret minted at [now] is found by every lookup before [now] plus its lifetime -
    the requested one, clamped between 10 seconds and 2 hours - with the key it was minted
    for, and by none after. *)
Theorem secrets_bounded (before after : list rop) (iss mdl value : string)
  (scp : option Scoped.ScopedApiKey) (member : option string) (lifetime : Z) (token : string)
  (now unix expires horizon : Z) (s' : RealtimeStore)
  (Hmint : mint (foldl rstep ∅ before) iss mdl scp member lifetime token now unix
           = (Ok (value, expires), s'))
  (Htime : Forall (λ op, rtime op ≤ horizon) after) (Hfresh : Forall (fresh_from value) after) :
  secrets_ok (foldl rstep ∅ (before ++ after)) ∧
  ∃ ttl, MIN_EPHEMERAL_TTL_SECS ≤ ttl ≤ MAX_EPHEMERAL_TTL_SECS ∧
    (MIN_EPHEMERAL_TTL_SECS ≤ lifetime ≤ MAX_EPHEMERAL_TTL_SECS → ttl = lifetime) ∧
    (lookup_secret (foldl rstep s' after) value horizon).1
    = if horizon <? now + ttl * SEC
      then Some {| issuer := iss; model := mdl; scope := scp; expires_at := expires;
                   expires_instant := now + ttl * SEC; member_id := member |}
      else None.
Proof.
  assert (Hok : ∀ ops s, secrets_ok s → secrets_ok (foldl rstep s ops)).
  { induction ops as [|op ops IH]; intros s Hs; [done|]. cbn. apply IH. by apply rstep_ok. }
  split.
  { apply Hok. split; [|intros i; unfold of_issuer; rewrite map_filter_empty];
      rewrite map_size_empty; apply Nat.le_0_l. }
  exists (Z.min MAX_EPHEMERAL_TTL_SECS (Z.max MIN_EPHEMERAL_TTL_SECS lifetime)).
  split; [unfold MAX_EPHEMERAL_TTL_SECS, MIN_EPHEMERAL_TTL_SECS; lia|].
  split; [unfold MAX_EPHEMERAL_TTL_SECS, MIN_EPHEMERAL_TTL_SECS; lia|].
  unfold mint in Hmint. do 2 (destruct (_ <=? _)%nat; [done|]). injection Hmint as <- <- <-.
  set (sec := Build_RealtimeSecret _ _ _ _ _ _). set (value := "ek_" +:+ token) in *.
  assert (Hk : ∀ ops s, Forall (λ op, rtime op ≤ horizon) ops → Forall (fresh_from value) ops →
            kept value sec horizon s → kept value sec horizon (foldl rstep s ops)).
  { induction ops as [|op ops IH]; intros s Ho Hf Hs; [done|]. cbn.
    apply list.Forall_cons in Ho as [Ho Hos]. apply list.Forall_cons in Hf as [Hf Hfs].
    apply IH; [done..|]. by apply kept_step. }
  unfold lookup_secret. replace (starts_with value "ek_") with true by done. cbn [fst].
  match goal with |- context [foldl rstep ?s0 after] => set (s1 := s0) end.
  assert (Hf : kept value sec horizon (foldl rstep s1 after)).
  { apply Hk; [done..|]. left. apply lookup_insert_eq. }
  destruct (kept_retain value sec horizon horizon _ (Z.le_refl _) Hf) as [Hs|[Hs He]].
  - rewrite Hs. apply map_lookup_filter_Some in Hs as [_ Hlt]. cbn in Hlt.
    rewrite (proj2 (Z.ltb_lt _ _) Hlt). done.
  - rewrite Hs. cbn in He. rewrite (proj2 (Z.ltb_ge _ _) He). done.
Qed.

(** ** Concrete requests *)

Module InboundDemo.

Definition master_only : ApiKeys := {| overrides := ["m"]; settings := Some ([], []) |}.

Definition call : Request :=
  {| path := "/v1/realtime/calls"; original_path := None; query := None;
     authorization := Some "Bearer ek_t"; x_api_key := None; x_management_key := None;
     peer := Some Gate.LOCALHOST_V4 |}.

(** A secret minted for the master key, used 5 seconds later. *)
Definition minted : RealtimeStore := (mint ∅ "who" "gpt-realtime" None None 10 "t" 0 1000).2.

Lemma secrets_bounded_witness :
  secrets_ok (foldl rstep ∅ ([] ++ [RLookup "ek_t" (5 * SEC)])) ∧
  ∃ ttl, MIN_EPHEMERAL_TTL_SECS ≤ ttl ≤ MAX_EPHEMERAL_TTL_SECS ∧
    (MIN_EPHEMERAL_TTL_SECS ≤ 10 ≤ MAX_EPHEMERAL_TTL_SECS → ttl = 10) ∧
    (lookup_secret (foldl rstep minted [RLookup "ek_t" (5 * SEC)]) "ek_t" (6 * SEC)).1
    = if 6 * SEC <? 0 + ttl * SEC
      then Some {| issuer := "who"; model := "gpt-realtime"; scope := None; expires_at := 1010;
                   expires_instant := 0 + ttl * SEC; member_id := None |}
      else None.
Proof.
  apply (secrets_bounded [] [RLookup "ek_t" (5 * SEC)] "who" "gpt-realtime" "ek_t" None None 10 "t"
           0 1000 1010 (6 * SEC) minted).
  - reflexivity.
  - repeat constructor. done.
  - repeat constructor.
Defined.

Definition no_secrets : Gate.Secrets := {| Gate.stored := None; Gate.env_secret := "" |}.

Definition handled : ResolvedAuth := {| identity := Master; key_identifier := Some "who" |}.

Definition the_secret : RealtimeSecret :=
  {| issuer := "who"; model := "gpt-realtime"; scope := None; expires_at := 1010;
     expires_instant := 10 * SEC; member_id := None |}.

Lemma inbound_witness : realtime_path (path call) = true ∧
  authorizes master_only (extract_presented_key call) 0 = None.
Proof.
  assert (H : require_api_key (λ _ _, false) master_only no_secrets call Gate.default_attempts
                (Some minted) (5 * SEC) 0 (λ a, a) (5 * SEC)
              = (Handled handled (Some the_secret), Gate.default_attempts, Some minted)).
  { reflexivity. }
  destruct (inbound_sound (λ _ _, false) master_only no_secrets call Gate.default_attempts
              (Some minted) (5 * SEC) 0 (5 * SEC) (λ a, a) handled (Some the_secret)
              Gate.default_attempts (Some minted) H) as [[Hm _]|[_ [[Ha _]|(Ha & Hp & _)]]].
  - discriminate Hm.
  - discriminate Ha.
  - split; [exact Hp|exact Ha].
Defined.
End InboundDemo.
