(* ===== verification/UsageQueue.v ===== *)
(** * The usage queue (crates/gateway/src/resp.rs, lines 15-290)

    A time-bounded FIFO stored as a vector with a head index and compacted lazily,
    the subscribers that take precedence over it, and the hub of the two channels.
    A [tokio] channel is its buffer, capacity and whether the receiver still lives;
    every operation runs under the queue's lock and is one step.  The abstract queue
    at the end is a plain list. *)

From Stdlib Require Import Ascii.
From stdpp Require Import gmap strings list sorting.
From S2P Require Import Prelude RustStr.
Import RustStr.
Open Scope Z_scope.

Module UsageQueue.

Definition REDIS_USAGE_CHANNEL : string := "usage".
Definition REDIS_ERRORS_CHANNEL : string := "errors".
Definition QUOTE : string := String (ascii_of_nat 34) "".
Definition USAGE_SUPPORT_REFRESH_PAYLOAD : string :=
  "{" +:+ QUOTE +:+ "support_refresh" +:+ QUOTE +:+ ":true}".
Definition USAGE_REFRESH_PAYLOAD : string := "{" +:+ QUOTE +:+ "refresh" +:+ QUOTE +:+ ":true}".
Definition DEFAULT_RETENTION_SECS : Z := 60.
Definition MAX_RETENTION_SECS : Z := 3600.
Definition USAGE_SUBSCRIBER_BUFFER : nat := 256.
Definition ERROR_SUBSCRIBER_BUFFER : nat := 256.

Record QueueItem := { enqueued_at : Z; payload : string }.

(** An [mpsc] channel as its sender sees it. *)
Record Channel := { capacity : nat; buffer : list string; receiver_alive : bool }.

(** [try_send]: [None] when the buffer is full or the receiver is gone. *)
Definition try_send (c : Channel) (p : string) : option Channel :=
  if negb (receiver_alive c) || (capacity c <=? length (buffer c))%nat then None
  else Some {| capacity := capacity c; buffer := buffer c ++ [p]; receiver_alive := true |}.

Record Queue := {
  items : list QueueItem;
  head : nat;
  subscribers : gmap Z Channel;
  next_subscriber_id : Z; (* u64 *)
}.

Definition empty_queue : Queue :=
  {| items := []; head := 0; subscribers := ∅; next_subscriber_id := 0 |}.

Definition with_items (q : Queue) (its : list QueueItem) (h : nat) : Queue :=
  {| items := its; head := h; subscribers := subscribers q;
     next_subscriber_id := next_subscriber_id q |}.

Definition clear (q : Queue) : Queue :=
  {| items := []; head := 0; subscribers := ∅; next_subscriber_id := next_subscriber_id q |}.

(** The loop of [prune]; [length items] steps are enough. *)
Fixpoint skip_stale (fuel : nat) (its : list QueueItem) (h : nat) (cutoff : Z) : nat :=
  match fuel with
  | O => h
  | S fuel =>
      match its !! h with
      | Some it => if enqueued_at it <? cutoff then skip_stale fuel its (S h) cutoff else h
      | None => h
      end
  end.

Definition prune (q : Queue) (now retention : Z) : Queue :=
  if (length (items q) <=? head q)%nat then with_items q [] 0
  else
    let cutoff := checked_sub_instant now retention in
    with_items q (items q) (skip_stale (length (items q)) (items q) (head q) cutoff).

Definition maybe_compact (q : Queue) : Queue :=
  if (head q =? 0)%nat then q
  else if (length (items q) <=? head q)%nat then with_items q [] 0
  else if (head q <? 1024)%nat && (head q * 2 <? length (items q))%nat then q
  else with_items q (drop (head q) (items q)) 0.

Definition len (q : Queue) (now retention : Z) : nat * Queue :=
  let q := prune q now retention in ((length (items q) - head q)%nat, q).

Definition enqueue (q : Queue) (p : string) (now retention : Z) : Queue :=
  let q := prune q now retention in
  maybe_compact (with_items q (items q ++ [{| enqueued_at := now; payload := p |}]) (head q)).

Definition publish_to_subscribers (q : Queue) (p : string) : bool * Queue :=
  if decide (subscribers q = ∅) then (false, q)
  else (true, {| items := items q; head := head q;
                 subscribers := omap (λ c, try_send c p) (subscribers q);
                 next_subscriber_id := next_subscriber_id q |}).

Definition subscribe (q : Queue) (cap : nat) (initial : option string) : Z * Queue :=
  let c := {| capacity := cap; buffer := []; receiver_alive := true |} in
  let c := match initial with Some p => default c (try_send c p) | None => c end in
  let i := next_subscriber_id q + 1 in
  (i, {| items := items q; head := head q; subscribers := <[i := c]> (subscribers q);
         next_subscriber_id := i |}).

Definition unsubscribe (q : Queue) (i : Z) : Queue :=
  {| items := items q; head := head q; subscribers := delete i (subscribers q);
     next_subscriber_id := next_subscriber_id q |}.

Definition pop_oldest (q : Queue) (count : nat) (now retention : Z) : list string * Queue :=
  let q := prune q now retention in
  let available := (length (items q) - head q)%nat in
  if (available =? 0)%nat || (count =? 0)%nat then ([], q)
  else
    let pop_count := Nat.min count available in
    (payload <$> take pop_count (drop (head q) (items q)),
     maybe_compact (with_items q (items q) (head q + pop_count))).

(** ** The hub *)

Record RedisQueueHub := {
  enabled : bool;
  retention_secs : Z;
  usage_statistics_enabled : bool;
  global_usage : Queue;
  global_errors : Queue;
}.

Definition default_hub : RedisQueueHub :=
  {| enabled := true; retention_secs := DEFAULT_RETENTION_SECS; usage_statistics_enabled := true;
     global_usage := empty_queue; global_errors := empty_queue |}.

Definition with_usage_queue (h : RedisQueueHub) (q : Queue) : RedisQueueHub :=
  {| enabled := enabled h; retention_secs := retention_secs h;
     usage_statistics_enabled := usage_statistics_enabled h; global_usage := q;
     global_errors := global_errors h |}.

Definition with_errors_queue (h : RedisQueueHub) (q : Queue) : RedisQueueHub :=
  {| enabled := enabled h; retention_secs := retention_secs h;
     usage_statistics_enabled := usage_statistics_enabled h; global_usage := global_usage h;
     global_errors := q |}.

Definition set_enabled (h : RedisQueueHub) (value : bool) : RedisQueueHub :=
  {| enabled := value; retention_secs := retention_secs h;
     usage_statistics_enabled := usage_statistics_enabled h;
     global_usage := if value then global_usage h else clear (global_usage h);
     global_errors := if value then global_errors h else clear (global_errors h) |}.

Definition set_usage_statistics_enabled (h : RedisQueueHub) (value : bool) : RedisQueueHub :=
  {| enabled := enabled h; retention_secs := retention_secs h; usage_statistics_enabled := value;
     global_usage := global_usage h; global_errors := global_errors h |}.

Definition set_retention_secs (h : RedisQueueHub) (value : Z) : RedisQueueHub :=
  let normalized :=
    if value <=? 0 then DEFAULT_RETENTION_SECS
    else if MAX_RETENTION_SECS <? value then MAX_RETENTION_SECS else value in
  {| enabled := enabled h; retention_secs := normalized;
     usage_statistics_enabled := usage_statistics_enabled h;
     global_usage := global_usage h; global_errors := global_errors h |}.

Definition retention_duration (h : RedisQueueHub) : Z := Z.max (retention_secs h) 1 * SEC.

Definition enqueue_usage (h : RedisQueueHub) (p : string) (now : Z) : RedisQueueHub :=
  if negb (enabled h) || negb (usage_statistics_enabled h) || is_empty p then h
  else
    let '(published, q) := publish_to_subscribers (global_usage h) p in
    with_usage_queue h (if published then q else enqueue q p now (retention_duration h)).

Definition enqueue_error (h : RedisQueueHub) (p : string) : RedisQueueHub :=
  if negb (enabled h) || is_empty p then h
  else with_errors_queue h (publish_to_subscribers (global_errors h) p).2.

Definition pop_oldest_usage (h : RedisQueueHub) (count : nat) (now : Z) : list string * RedisQueueHub :=
  if negb (enabled h) || (count =? 0)%nat then ([], h)
  else
    let '(out, q) := pop_oldest (global_usage h) count now (retention_duration h) in
    (out, with_usage_queue h q).

Definition queue_len (h : RedisQueueHub) (channel : string) (now : Z) : option nat * RedisQueueHub :=
  if negb (enabled h) then (Some 0%nat, h)
  else
    let c := trim (to_ascii_lowercase channel) in
    if bool_decide (c = REDIS_USAGE_CHANNEL) then
      let '(n, q) := len (global_usage h) now (retention_duration h) in
      (Some n, with_usage_queue h q)
    else if bool_decide (c = REDIS_ERRORS_CHANNEL) then (Some 0%nat, h)
    else (None, h).

Definition subscribe_usage (h : RedisQueueHub) : Z * RedisQueueHub :=
  let '(i, q) := subscribe (global_usage h) USAGE_SUBSCRIBER_BUFFER
                   (Some USAGE_SUPPORT_REFRESH_PAYLOAD) in
  (i, with_usage_queue h q).

Definition subscribe_errors (h : RedisQueueHub) : Z * RedisQueueHub :=
  let '(i, q) := subscribe (global_errors h) ERROR_SUBSCRIBER_BUFFER None in
  (i, with_errors_queue h q).

Definition unsubscribe_usage (h : RedisQueueHub) (i : Z) : RedisQueueHub :=
  with_usage_queue h (unsubscribe (global_usage h) i).
Definition unsubscribe_errors (h : RedisQueueHub) (i : Z) : RedisQueueHub :=
  with_errors_queue h (unsubscribe (global_errors h) i).

Definition notify_usage_refresh (h : RedisQueueHub) : RedisQueueHub :=
  if negb (enabled h) then h
  else with_usage_queue h (publish_to_subscribers (global_usage h) USAGE_REFRESH_PAYLOAD).2.

End UsageQueue.

Import UsageQueue.

(** ** The queue refines a list *)

(** The items still in the queue. *)
Definition view (q : Queue) : list QueueItem := drop (head q) (items q).

Fixpoint drop_stale (cutoff : Z) (l : list QueueItem) : list QueueItem :=
  match l with
  | [] => []
  | it :: l' => if enqueued_at it <? cutoff then drop_stale cutoff l' else l
  end.

Lemma skip_stale_spec its cutoff : ∀ fuel h,
  (length its ≤ h + fuel)%nat →
  drop (skip_stale fuel its h cutoff) its = drop_stale cutoff (drop h its).
Proof.
  induction fuel as [|fuel IH]; intros h Hf; cbn [skip_stale].
  - by rewrite drop_ge by lia.
  - destruct (its !! h) as [it|] eqn:E.
    + rewrite (drop_S _ _ _ E). cbn [drop_stale]. case_if; [apply IH; lia|]. by apply drop_S.
    + apply lookup_ge_None in E. by rewrite drop_ge by lia.
Qed.

Lemma prune_view q now retention :
  view (prune q now retention) = drop_stale (checked_sub_instant now retention) (view q).
Proof.
  unfold prune, view. case_if; cbn.
  - bool_to_prop. by rewrite drop_ge by lia.
  - apply skip_stale_spec. lia.
Qed.

Lemma maybe_compact_view q : view (maybe_compact q) = view q.
Proof.
  unfold maybe_compact, view. repeat case_if; cbn; try done. bool_to_prop. by rewrite drop_ge by lia.
Qed.

(** The head never runs past the vector, and what it wastes is bounded. *)
Definition compact (q : Queue) : Prop :=
  (head q = 0)%nat ∨ ((head q < 1024)%nat ∧ (head q * 2 < length (items q))%nat).

Lemma maybe_compact_compact q : compact (maybe_compact q).
Proof.
  unfold maybe_compact, compact. repeat case_if; bool_to_prop; cbn; auto.
Qed.

Lemma prune_head q now retention :
  (head (prune q now retention) ≤ length (items (prune q now retention)))%nat.
Proof.
  unfold prune. case_if; cbn; [lia|]. bool_to_prop.
  assert (H : ∀ fuel h, (h ≤ length (items q))%nat →
    (skip_stale fuel (items q) h (checked_sub_instant now retention) ≤ length (items q))%nat).
  { induction fuel as [|fuel IH]; intros h Hh; cbn; [done|].
    destruct (items q !! h) eqn:E; [|done]. case_if; [|done].
    apply IH. apply lookup_lt_Some in E. lia. }
  apply H. lia.
Qed.

Inductive QueueOp :=
  | QEnqueue (p : string) (now retention : Z)
  | QPop (count : nat) (now retention : Z)
  | QLen (now retention : Z).

Definition run_queue (q : Queue) (op : QueueOp) : list string * nat * Queue :=
  match op with
  | QEnqueue p now retention => ([], 0%nat, enqueue q p now retention)
  | QPop count now retention =>
      let '(out, q) := pop_oldest q count now retention in (out, 0%nat, q)
  | QLen now retention => let '(n, q) := len q now retention in ([], n, q)
  end.

(** The abstract queue: a list, oldest first, from whose front stale items fall. *)
Definition run_list (l : list QueueItem) (op : QueueOp) : list string * nat * list QueueItem :=
  match op with
  | QEnqueue p now retention =>
      ([], 0%nat, drop_stale (checked_sub_instant now retention) l ++
                    [{| enqueued_at := now; payload := p |}])
  | QPop count now retention =>
      let l := drop_stale (checked_sub_instant now retention) l in
      (payload <$> take count l, 0%nat, drop count l)
  | QLen now retention =>
      let l := drop_stale (checked_sub_instant now retention) l in ([], length l, l)
  end.

Lemma take_min_length {A} n (l : list A) : take (Nat.min n (length l)) l = take n l.
Proof. destruct (le_ge_dec n (length l)); [by rewrite Nat.min_l by lia|]. rewrite !take_ge; [done|lia..]. Qed.

Lemma drop_min_length {A} n (l : list A) : drop (Nat.min n (length l)) l = drop n l.
Proof. destruct (le_ge_dec n (length l)); [by rewrite Nat.min_l by lia|]. rewrite !drop_ge; [done|lia..]. Qed.

Lemma advance_view q n : view (with_items q (items q) (head q + n)) = drop n (view q).
Proof. unfold view. cbn. by rewrite drop_drop. Qed.

Lemma pop_oldest_view q count now retention :
  let l := drop_stale (checked_sub_instant now retention) (view q) in
  let '(out, q') := pop_oldest q count now retention in
  out = payload <$> take count l ∧ view q' = drop count l.
Proof.
  cbn zeta. unfold pop_oldest. rewrite <- prune_view. set (q1 := prune q now retention).
  rewrite <- length_drop. fold (view q1). case_if.
  - apply orb_true_iff in Heqb as [->%Nat.eqb_eq%nil_length_inv| ->%Nat.eqb_eq]; [|done].
    by rewrite take_nil, drop_nil.
  - rewrite maybe_compact_view, advance_view. fold (view q1).
    by rewrite take_min_length, drop_min_length.
Qed.

Lemma run_queue_view q op :
  let '(out, n, q') := run_queue q op in run_list (view q) op = (out, n, view q').
Proof.
  destruct op as [p now retention|count now retention|now retention]; cbn [run_queue run_list].
  - unfold enqueue. rewrite maybe_compact_view, <- prune_view. unfold view at 2. cbn.
    by rewrite drop_app_le by apply prune_head.
  - pose proof (pop_oldest_view q count now retention) as H. cbn zeta in H.
    destruct (pop_oldest q count now retention) as [out q']. by destruct H as [-> ->].
  - rewrite <- prune_view. unfold len. by rewrite <- length_drop.
Qed.

Fixpoint run_each {S} (step : S → QueueOp → list string * nat * S) (s : S) (ops : list QueueOp)
  : list (list string * nat) * S :=
  match ops with
  | [] => ([], s)
  | op :: ops =>
      let '(out, n, s1) := step s op in
      let '(rs, s2) := run_each step s1 ops in ((out, n) :: rs, s2)
  end.

(** The usage queue is a FIFO.  For every sequence of enqueues, pops and length
    queries at any times, the vector with its moving head and lazy compaction gives
    the answers of a plain list that grows at the back, is consumed from the front
    and loses its stale front before every operation. *)
Theorem queue_refines q ops :
  let '(answers, q') := run_each run_queue q ops in
  run_each run_list (view q) ops = (answers, view q').
Proof.
  revert q. induction ops as [|op ops IH]; intros q; cbn [run_each]; [done|].
  pose proof (run_queue_view q op) as H. destruct (run_queue q op) as [[out n] q1].
  rewrite H. specialize (IH q1). destruct (run_each run_queue q1 ops) as [rs q2]. by rewrite IH.
Qed.

(** *** Wasted space and freshness *)

Lemma run_queue_compact q op :
  match op with
  | QEnqueue p now retention => compact (enqueue q p now retention)
  | QPop count now retention =>
      (0 < count)%nat → view (prune q now retention) ≠ [] →
      compact (pop_oldest q count now retention).2
  | QLen _ _ => True
  end.
Proof.
  destruct op as [p now retention|count now retention|now retention]; [| |done].
  - apply maybe_compact_compact.
  - intros Hc Hv. unfold pop_oldest. rewrite <- length_drop. fold (view (prune q now retention)).
    case_if; [|apply maybe_compact_compact].
    apply orb_true_iff in Heqb as [?%Nat.eqb_eq%nil_length_inv|?%Nat.eqb_eq]; [done|lia].
Qed.

(** Items are in the order of their timestamps. *)
Definition time_ordered (l : list QueueItem) : Prop :=
  StronglySorted (λ a b, enqueued_at a ≤ enqueued_at b) l.

Lemma drop_stale_fresh cutoff l :
  time_ordered l → Forall (λ it, cutoff ≤ enqueued_at it) (drop_stale cutoff l) ∧
                   drop_stale cutoff l `suffix_of` l ∧ time_ordered (drop_stale cutoff l).
Proof.
  induction l as [|it l IH]; intros Hs; cbn; [done|].
  pose proof (StronglySorted_inv Hs) as [Hl Hall]. destruct (IH Hl) as (H1 & H2 & H3).
  case_if; [split_and!; [done|by apply suffix_cons_r|done]|]. bool_to_prop. split_and!; [|done|done].
  constructor; [done|]. eapply Forall_impl; [exact Hall|]. cbn. lia.
Qed.

Lemma drop_stale_split cutoff l :
  ∃ stale, l = stale ++ drop_stale cutoff l ∧ Forall (λ it, enqueued_at it < cutoff) stale.
Proof.
  induction l as [|it l (stale & E & H)]; cbn; [by exists []|]. case_if; [|by exists []].
  bool_to_prop. exists (it :: stale). split; [cbn; by rewrite <- E|by constructor].
Qed.

Definition op_time (op : QueueOp) : Z :=
  match op with QEnqueue _ now _ | QPop _ now _ | QLen now _ => now end.

Lemma run_list_ordered l op t :
  time_ordered l → Forall (λ it, enqueued_at it ≤ t) l → t ≤ op_time op →
  let '(_, _, l') := run_list l op in
  time_ordered l' ∧ Forall (λ it, enqueued_at it ≤ op_time op) l'.
Proof.
  intros Hs Ht Hle.
  assert (Hd : ∀ cutoff, time_ordered (drop_stale cutoff l) ∧
                         Forall (λ it, enqueued_at it ≤ op_time op) (drop_stale cutoff l)).
  { intros cutoff. destruct (drop_stale_fresh cutoff l Hs) as (_ & [k Hk] & H). split; [done|].
    rewrite Hk in Ht. apply list.Forall_app in Ht as [_ Ht].
    eapply Forall_impl; [exact Ht|]. cbn. lia. }
  destruct op as [p now retention|count now retention|now retention]; cbn [run_list op_time] in *.
  - destruct (Hd (checked_sub_instant now retention)) as [H1 H2]. split.
    + apply StronglySorted_app. split_and!; [|done|repeat constructor].
      intros x y Hx ->%list_elem_of_singleton. cbn. rewrite list.Forall_forall in H2. by apply H2.
    + apply list.Forall_app. split; [done|]. repeat constructor. cbn. lia.
  - destruct (Hd (checked_sub_instant now retention)) as [H1 H2].
    set (l0 := drop_stale _ l) in *. rewrite <- (take_drop count l0) in H1, H2. split.
    + by apply StronglySorted_app in H1 as (_ & _ & ?).
    + by apply list.Forall_app in H2 as [_ ?].
  - apply Hd.
Qed.

Fixpoint clock_ordered (t : Z) (ops : list QueueOp) : Prop :=
  match ops with [] => True | op :: ops => t ≤ op_time op ∧ clock_ordered (op_time op) ops end.

Lemma run_queue_ordered ops : ∀ q t,
  time_ordered (view q) → Forall (λ it, enqueued_at it ≤ t) (view q) → clock_ordered t ops →
  time_ordered (view (run_each run_queue q ops).2).
Proof.
  induction ops as [|op ops IH]; intros q t Hs Ht Hc; cbn [run_each]; [done|].
  destruct Hc as [Hle Hc]. pose proof (run_list_ordered _ op t Hs Ht Hle) as H.
  pose proof (run_queue_view q op) as E. destruct (run_queue q op) as [[out n] q1].
  rewrite E in H. destruct H as [H1 H2]. specialize (IH q1 _ H1 H2 Hc).
  by destruct (run_each run_queue q1 ops).
Qed.

(** No stale usage is handed out.  With a clock that does not run backwards, after
    any history every payload a pop returns was enqueued within the retention
    before the pop, and an item is only dropped for being older than that. *)
Theorem popped_fresh ops count now retention t0 :
  clock_ordered t0 ops → 0 ≤ retention → instant_min ≤ now - retention →
  let q := (run_each run_queue empty_queue ops).2 in
  ∃ stale fresh,
    view q = stale ++ fresh ∧
    Forall (λ it, enqueued_at it < now - retention) stale ∧
    Forall (λ it, now - retention ≤ enqueued_at it) fresh ∧
    (pop_oldest q count now retention).1 = payload <$> take count fresh.
Proof.
  intros Hc Hr Hmin q.
  assert (Hs : time_ordered (view q)) by (apply (run_queue_ordered _ empty_queue t0); [apply SSorted_nil|apply Forall_nil_2|done]).
  pose proof (pop_oldest_view q count now retention) as Hp. cbn zeta in Hp.
  assert (Ecut : checked_sub_instant now retention = now - retention).
  { unfold checked_sub_instant. by rewrite (proj2 (Z.ltb_ge _ _)). }
  rewrite Ecut in Hp. destruct (pop_oldest q count now retention) as [out q']. cbn [fst].
  destruct Hp as [-> _]. destruct (drop_stale_fresh (now - retention) _ Hs) as (H1 & _ & _).
  destruct (drop_stale_split (now - retention) (view q)) as (stale & E & Hst).
  exists stale, (drop_stale (now - retention) (view q)). split_and!; done.
Qed.

(** ** Delivery *)

Definition delivered (p : string) (c : Channel) : option Channel :=
  if receiver_alive c && (length (buffer c) <? capacity c)%nat
  then Some {| capacity := capacity c; buffer := buffer c ++ [p]; receiver_alive := true |}
  else None.

Lemma try_send_delivered c p : try_send c p = delivered p c.
Proof.
  unfold try_send, delivered. destruct (receiver_alive c); cbn; [|done].
  by rewrite Nat.leb_antisym, if_negb.
Qed.

(** A usage record goes to the subscribers or to the queue, never to both.  While
    somebody subscribes, every subscriber with room gets the record, the others are
    dropped, and the queue is untouched; with no subscriber the record is appended
    to the queue and can be popped. *)
Theorem usage_delivery h p now :
  enabled h = true → usage_statistics_enabled h = true → p ≠ "" →
  let q := global_usage h in
  let q' := global_usage (enqueue_usage h p now) in
  (subscribers q = ∅ →
     subscribers q' = ∅ ∧
     view q' = drop_stale (checked_sub_instant now (retention_duration h)) (view q) ++
               [{| enqueued_at := now; payload := p |}]) ∧
  (subscribers q ≠ ∅ →
     view q' = view q ∧ ∀ i, subscribers q' !! i = subscribers q !! i ≫= delivered p).
Proof.
  intros He Hu Hp q q'. subst q q'. unfold enqueue_usage. rewrite He, Hu. cbn [negb orb].
  destruct (is_empty p) eqn:Hem; [by destruct p|]. unfold publish_to_subscribers.
  split; intros Hs; case_decide; try done; cbn.
  - pose proof (run_queue_view (global_usage h) (QEnqueue p now (retention_duration h))) as E.
    cbn [run_queue run_list] in E. injection E as E. split; [|done].
    unfold enqueue, maybe_compact, prune. by repeat case_if.
  - split; [done|]. intros i. rewrite lookup_omap.
    destruct (subscribers (global_usage h) !! i) as [c|]; cbn; [apply try_send_delivered|done].
Qed.

(** A record can be lost.  When the only subscriber's buffer is full, the send
    fails and the subscriber is dropped, but the record counts as published: it is
    neither delivered nor queued. *)
Theorem usage_lost_when_full p now :
  let full := {| capacity := 1; buffer := ["old"]; receiver_alive := true |} in
  let h := with_usage_queue default_hub
    {| items := []; head := 0; subscribers := {[ 1 := full ]}; next_subscriber_id := 1 |} in
  let h' := enqueue_usage h (String "x" p) now in
  view (global_usage h') = [] ∧ subscribers (global_usage h') = ∅.
Proof. cbn zeta. split; reflexivity. Qed.

(** ** Witnesses *)
Lemma popped_fresh_witness :
  let q := (run_each run_queue empty_queue [QEnqueue "a" 0 60; QEnqueue "b" 50 60]).2 in
  ∃ stale fresh,
    view q = stale ++ fresh ∧
    Forall (λ it, enqueued_at it < 100 - 60) stale ∧
    Forall (λ it, 100 - 60 ≤ enqueued_at it) fresh ∧
    (pop_oldest q 5 100 60).1 = payload <$> take 5 fresh.
Proof.
  apply (popped_fresh [QEnqueue "a" 0 60; QEnqueue "b" 50 60] 5 100 60 0).
  - cbn. lia.
  - lia.
  - unfold instant_min, SEC, MS. lia.
Defined.

Example popped_fresh_value :
  (pop_oldest (run_each run_queue empty_queue [QEnqueue "a" 0 60; QEnqueue "b" 50 60]).2 5 100 60).1
  = ["b"].
Proof. vm_compute. reflexivity. Qed.

Lemma usage_delivery_witness :
  let q' := global_usage (enqueue_usage default_hub "r" 7) in
  subscribers q' = ∅ ∧ view q' = [{| enqueued_at := 7; payload := "r" |}].
Proof.
  destruct (usage_delivery default_hub "r" 7) as [H _]; [reflexivity..|discriminate|].
  apply H. reflexivity.
Defined.
