(* ===== verification/Resp.v ===== *)
(** * The RESP endpoint (crates/gateway/src/resp.rs, lines 292-802)

    Reading commands with their size limits, the replies, authentication through the
    management gate, and the command loop of a connection up to [SUBSCRIBE].  The
    stream is the bytes still to be read; at its end reads fail, with [eof] the
    text of the I/O error.  Writes are taken to succeed: a failed write only ends
    the connection. *)

From Stdlib Require Import Ascii.
From stdpp Require Import gmap strings list.
From S2P Require Import Prelude RustStr Gate UsageQueue.
Import RustStr Gate UsageQueue.
Open Scope Z_scope.

Module Resp.

Definition MAX_RESP_ARGS : Z := 128.
Definition MAX_RESP_LINE : Z := 8 * 1024.
Definition MAX_RESP_BULK : Z := 64 * 1024.
Definition MAX_RESP_COMMAND : Z := 256 * 1024.

Definition CR : ascii := ascii_of_nat 13.
Definition LF : ascii := ascii_of_nat 10.
Definition CRLF : string := String CR (String LF "").

Definition charge_resp (remaining count : Z) : result string Z :=
  if remaining <? count then Err "command too large" else Ok (remaining - count).

Definition from_utf8 (s : string) : result string string :=
  if valid_utf8 s then Ok s else Err "protocol error: invalid utf-8".

(** The line without its terminator. *)
Definition strip_cr (line : string) : string := default line (strip_suffix (String CR "") line).

(** The first [n] bytes, [None] when there are not as many. *)
Fixpoint split_at (n : nat) (s : string) : option (string * string) :=
  match n, s with
  | O, _ => Some ("", s)
  | S n, String a s => '(l, r) ← split_at n s; Some (String a l, r)
  | S _, EmptyString => None
  end.

Section reading.
Context (eof : string).

(** [line] are the bytes read so far. *)
Fixpoint read_resp_line (input line : string) (remaining : Z)
  : result string (string * Z * string) :=
  if strlen line =? MAX_RESP_LINE then Err "line too large" else
  match charge_resp remaining 1 with
  | Err e => Err e
  | Ok remaining =>
      match input with
      | EmptyString => Err eof
      | String byte input =>
          if bool_decide (byte = LF) then
            s ← from_utf8 (strip_cr line); Ok (s, remaining, input)
          else read_resp_line input (line +:+ String byte "") remaining
      end
  end.

Definition parse_len (line : string) : result string Z :=
  match parse_u64 line with Some n => Ok n | None => Err "protocol error" end.

Definition read_bulk (line input : string) (remaining : Z)
  : result string (string * Z * string) :=
  len ← parse_len line;
  if MAX_RESP_BULK <? len then Err "bulk string too large" else
  remaining ← charge_resp remaining (len + 2);
  match split_at (Z.to_nat (len + 2)) input with
  | None => Err eof
  | Some (buf, input) =>
      match split_at (Z.to_nat len) buf with
      | Some (body, tail) =>
          if bool_decide (tail = CRLF) then s ← from_utf8 body; Ok (s, remaining, input)
          else Err "protocol error"
      | None => Err "protocol error"
      end
  end.

Definition read_arg (input : string) (remaining : Z) : result string (string * Z * string) :=
  remaining ← charge_resp remaining 1;
  match input with
  | EmptyString => Err eof
  | String prefix input =>
      '(line, remaining, input) ← read_resp_line input "" remaining;
      if bool_decide (prefix = "$"%char) then read_bulk line input remaining
      else if bool_decide (prefix = "+"%char) || bool_decide (prefix = ":"%char)
      then Ok (line, remaining, input)
      else Err "protocol error"
  end.

Fixpoint read_args (count : nat) (input : string) (remaining : Z)
  : result string (list string * string) :=
  match count with
  | O => Ok ([], input)
  | S count =>
      '(arg, remaining, input) ← read_arg input remaining;
      '(args, input) ← read_args count input remaining;
      Ok (arg :: args, input)
  end.

Definition read_resp_command (input : string) : result string (list string * string) :=
  match input with
  | EmptyString => Err "EOF"
  | String prefix input =>
      if negb (bool_decide (prefix = "*"%char)) then Err "protocol error" else
      '(line, remaining, input) ← read_resp_line input "" (MAX_RESP_COMMAND - 1);
      count ← parse_len line;
      if MAX_RESP_ARGS <? count then Err "too many command arguments"
      else read_args (Z.to_nat count) input remaining
  end.
End reading.

(** ** Replies *)

Definition write_simple_string (s : string) : string := "+" +:+ s +:+ CRLF.
Definition write_error (msg : string) : string := "-" +:+ msg +:+ CRLF.
Definition write_integer (val : Z) : string := ":" +:+ show_i64 val +:+ CRLF.
Definition write_nil_bulk_string : string := "$-1" +:+ CRLF.
Definition write_bulk_string (data : string) : string :=
  "$" +:+ show_u64 (strlen data) +:+ CRLF +:+ data +:+ CRLF.

Fixpoint write_bulks (items : list string) : string :=
  match items with [] => "" | item :: items => write_bulk_string item +:+ write_bulks items end.

Definition write_array_of_bulk_strings (items : list string) : string :=
  "*" +:+ show_u64 (Z.of_nat (length items)) +:+ CRLF +:+ write_bulks items.

Definition write_pubsub_subscribe (channel : string) (count : Z) : string :=
  "*3" +:+ CRLF +:+ "$9" +:+ CRLF +:+ "subscribe" +:+ CRLF +:+
  "$" +:+ show_u64 (strlen channel) +:+ CRLF +:+ channel +:+ CRLF +:+
  ":" +:+ show_u64 count +:+ CRLF.

(** ** Authentication *)

Section connection.
Context (bcrypt_verify : string → string → bool) (eof : string).

(** [now] and [now'] are the two readings of the clock.  The permit is held until
    the verdict is in. *)
Definition check_management_auth (c : Secrets) (a : ManagementAttempts) (ip : IpAddr)
    (password : string) (now now' : Z) : result Denied unit * ManagementAttempts :=
  if is_empty (secret_of c) && is_empty (env_secret c)
  then (Err (NOT_FOUND, "remote management disabled"), a)
  else
    let missing := is_empty password in
    match begin_verification a ip (allow_remote_of c) now with
    | (Err e, a) => (Err e, a)
    | (Ok _, a) =>
        let valid :=
          if missing then false
          else verify_key bcrypt_verify (env_secret c) (secret_of c) password in
        let '(verdict, a) := authenticate a ip (allow_remote_of c) valid missing now' in
        (verdict, drop_permit a)
    end.

Definition parse_auth_password (args : list string) : option string :=
  match args with
  | [_; password] => Some password
  | [_; _; password] => Some password
  | _ => None
  end.

Definition NOT_INTEGER : string := "value is not an integer or out of range".

Definition parse_pop_count (args : list string) : result string (Z * bool) :=
  match args with
  | [_; _] => Ok (1, false)
  | [_; _; n] =>
      match parse_i64 (trim n) with
      | Some count => if count <=? 0 then Err NOT_INTEGER else Ok (count, true)
      | None => Err NOT_INTEGER
      end
  | _ => Err "wrong number of arguments"
  end.

(** ** The command loop *)

Record Conn := { authed : bool; attempts : ManagementAttempts; hub : RedisQueueHub }.

(** What the loop does next: read another command, end, or stream a subscription
    of the given channel. *)
Inductive Next := Continue | Close | Stream (channel : string) (subscriber : Z).

Definition with_hub (s : Conn) (h : RedisQueueHub) : Conn :=
  {| authed := authed s; attempts := attempts s; hub := h |}.

Definition is_ban (d : Denied) : bool :=
  bool_decide (d.1 = FORBIDDEN) && starts_with d.2 "IP banned".

Definition unsupported (channel : string) : string :=
  write_error ("ERR unsupported channel '" +:+ channel +:+ "'").

(** A command other than AUTH before authentication. *)
Definition refuse (c : Secrets) (ip : IpAddr) (s : Conn) (now now' : Z) : string * Conn :=
  let '(verdict, a) := check_management_auth c (attempts s) ip "" now now' in
  let s := {| authed := authed s; attempts := a; hub := hub s |} in
  match verdict with
  | Err d => if is_ban d then (write_error ("ERR " +:+ d.2), s)
             else (write_error "NOAUTH Authentication required.", s)
  | Ok _ => (write_error "NOAUTH Authentication required.", s)
  end.

Definition auth_command (c : Secrets) (ip : IpAddr) (s : Conn) (args : list string)
    (now now' : Z) : string * Conn :=
  match parse_auth_password args with
  | None =>
      let '(verdict, a) := check_management_auth c (attempts s) ip "" now now' in
      let s := {| authed := authed s; attempts := a; hub := hub s |} in
      match verdict with
      | Err d => if is_ban d then (write_error ("ERR " +:+ d.2), s)
                 else (write_error "ERR wrong number of arguments for 'auth' command", s)
      | Ok _ => (write_error "ERR wrong number of arguments for 'auth' command", s)
      end
  | Some password =>
      let '(verdict, a) := check_management_auth c (attempts s) ip password now now' in
      match verdict with
      | Ok _ => (write_simple_string "OK", {| authed := true; attempts := a; hub := hub s |})
      | Err d => (write_error ("ERR " +:+ d.2),
                  {| authed := authed s; attempts := a; hub := hub s |})
      end
  end.

Definition ping_command (args : list string) : string :=
  match args with
  | _ :: msg :: _ => write_bulk_string msg
  | _ => write_simple_string "PONG"
  end.

Definition llen_command (s : Conn) (args : list string) (now : Z) : string * Conn :=
  match args with
  | [_; channel] =>
      let '(n, h) := queue_len (hub s) channel now in
      (match n with
       | Some len => write_integer (Z.of_nat len)
       | None => unsupported channel
       end, with_hub s h)
  | _ => (write_error "ERR wrong number of arguments for 'llen' command", s)
  end.

Definition pop_command (s : Conn) (args : list string) (now : Z) : string * Conn :=
  match parse_pop_count args with
  | Err e => (write_error ("ERR " +:+ e), s)
  | Ok (count, has_count) =>
      let channel := default "" (args !! 1%nat) in
      if negb (bool_decide (to_ascii_lowercase channel = REDIS_USAGE_CHANNEL))
      then (unsupported channel, s)
      else
        let '(items, h) := pop_oldest_usage (hub s) (Z.to_nat count) now in
        (if has_count then write_array_of_bulk_strings items
         else match items with
              | [] => write_nil_bulk_string
              | item :: _ => write_bulk_string item
              end, with_hub s h)
  end.

Definition subscribe_command (s : Conn) (args : list string) : string * Conn * Next :=
  match args with
  | [_; arg] =>
      let channel := trim arg in
      let lower := to_ascii_lowercase channel in
      if bool_decide (lower = REDIS_USAGE_CHANNEL) then
        let '(i, h) := subscribe_usage (hub s) in
        (write_pubsub_subscribe channel 1, with_hub s h, Stream channel i)
      else if bool_decide (lower = REDIS_ERRORS_CHANNEL) then
        let '(i, h) := subscribe_errors (hub s) in
        (write_pubsub_subscribe channel 1, with_hub s h, Stream channel i)
      else (unsupported channel, s, Continue)
  | _ => (write_error "ERR wrong number of arguments for 'subscribe' command", s, Continue)
  end.

Definition handle_command (c : Secrets) (ip : IpAddr) (s : Conn) (args : list string)
    (now now' : Z) : string * Conn * Next :=
  match args with
  | [] => (write_error "ERR empty command", s, Continue)
  | name :: _ =>
      let cmd := to_ascii_uppercase name in
      let cmd_is x := bool_decide (cmd = x) in
      if negb (cmd_is "AUTH") && negb (authed s) then (refuse c ip s now now', Continue)
      else if cmd_is "AUTH" then (auth_command c ip s args now now', Continue)
      else if cmd_is "PING" then (ping_command args, s, Continue)
      else if cmd_is "LLEN" then (llen_command s args now, Continue)
      else if cmd_is "LPOP" || cmd_is "RPOP" then (pop_command s args now, Continue)
      else if cmd_is "SUBSCRIBE" then subscribe_command s args
      else if cmd_is "QUIT" then (write_simple_string "OK", s, Close)
      else (write_error ("ERR unknown command '" +:+ to_ascii_lowercase cmd +:+ "'"), s, Continue)
  end.

(** The loop from command [i] on; [clock i] are the two readings of the clock for it.  Every
    command consumes at least one byte, so the length of the input is enough fuel. *)
Fixpoint serve (fuel i : nat) (clock : nat → Z * Z) (c : Secrets) (ip : IpAddr) (s : Conn)
    (input : string) : string * Conn * Next :=
  match fuel with
  | O => ("", s, Close)
  | S fuel =>
      match read_resp_command eof input with
      | Err e =>
          (if bool_decide (e = "EOF") then "" else write_error ("ERR " +:+ e), s, Close)
      | Ok (args, input) =>
          let '(now, now') := clock i in
          match handle_command c ip s args now now' with
          | (reply, s, Continue) =>
              let '(replies, s, next) := serve fuel (S i) clock c ip s input in
              (reply +:+ replies, s, next)
          | (reply, s, next) => (reply, s, next)
          end
      end
  end.

Definition handle_redis_connection (home_enabled : bool) (clock : nat → Z * Z) (c : Secrets)
    (ip : IpAddr) (a : ManagementAttempts) (h : RedisQueueHub) (input : string)
  : string * Conn * Next :=
  let s := {| authed := false; attempts := a; hub := h |} in
  if home_enabled
  then (write_error "ERR redis usage output disabled in home mode", s, Close)
  else serve (S (String.length input)) 0 clock c ip s input.
End connection.

End Resp.
