(* ===== verification/RespProps.v ===== *)
(** * Properties of the RESP endpoint

    Commands survive being written and read back; a connection that has not
    authenticated changes nothing and learns nothing; authentication needs a
    configured secret; and the loop always ends within its fuel. *)

From Stdlib Require Import Ascii.
From stdpp Require Import gmap strings list.
From S2P Require Import Prelude RustStr Gate UsageQueue Resp.
Import RustStr Gate UsageQueue Resp.
Open Scope Z_scope.

(** ** Strings *)

Lemma str_app_assoc (a b c : string) : (a +:+ b) +:+ c = a +:+ b +:+ c.
Proof. apply chars_inj. by rewrite !chars_app, app_assoc. Qed.

Lemma str_app_nil_r (a : string) : a +:+ "" = a.
Proof. apply chars_inj. by rewrite chars_app, app_nil_r. Qed.

Lemma split_at_app a b : split_at (String.length a) (a +:+ b) = Some (a, b).
Proof.
  induction a as [|x a IH]; [done|].
  change (String x a +:+ b) with (String x (a +:+ b)). cbn [String.length split_at]. by rewrite IH.
Qed.

Lemma show_digits_all fuel : ∀ z rest,
  0 ≤ z → all_bytes is_ascii_digit rest = true → all_bytes is_ascii_digit (show_digits fuel z rest) = true.
Proof.
  induction fuel as [|fuel IH]; intros z rest Hz Hr; cbn [show_digits]; [done|].
  pose proof (Z.mod_pos_bound z 10 ltac:(lia)).
  assert (H1 : all_bytes is_ascii_digit (String (digit_char (z mod 10)) rest) = true).
  { cbn [all_bytes]. rewrite digit_char_digit by lia. done. }
  case_if; [done|]. apply IH; [by apply Z.div_pos|done].
Qed.

Lemma show_digits_length fuel : ∀ z rest,
  strlen (show_digits fuel z rest) ≤ Z.of_nat fuel + strlen rest.
Proof.
  induction fuel as [|fuel IH]; intros z rest; cbn [show_digits]; [lia|].
  case_if; [unfold strlen; cbn; lia|]. etrans; [apply IH|]. unfold strlen. cbn. lia.
Qed.

Lemma digits_utf8 s : all_bytes is_ascii_digit s = true → valid_utf8 s = true.
Proof.
  induction s as [|a s IH]; [done|]. cbn [all_bytes]. intros [Ha Hs]%andb_true_iff.
  cbn [valid_utf8]. unfold is_ascii_digit in Ha. bool_to_prop. unfold byte_in at 1.
  rewrite (proj2 (Z.leb_le 0 _)), (proj2 (Z.leb_le _ 127)) by lia. cbn. by apply IH.
Qed.

(** ** Reading what was written *)

Section roundtrip.
Context (eof : string).

Lemma digit_not_LF a : is_ascii_digit a = true → a ≠ LF.
Proof. by intros H ->. Qed.

Lemma strip_cr_CR s : strip_cr (s +:+ String CR "") = s.
Proof.
  unfold strip_cr, strip_suffix. assert (E : strip_prefix (reverse_str (String CR ""))
    (reverse_str (s +:+ String CR "")) = Some (reverse_str s)).
  { apply strip_prefix_Some, chars_inj. unfold reverse_str.
    by rewrite !chars_app, !String.list_ascii_of_string_of_list_ascii, reverse_app. }
  rewrite E. cbn. unfold reverse_str.
  by rewrite String.list_ascii_of_string_of_list_ascii, reverse_involutive, String.string_of_list_ascii_of_string.
Qed.

(** A line of digits. *)
Lemma read_line_digits s rest : ∀ line remaining,
  all_bytes is_ascii_digit s = true → valid_utf8 (line +:+ s) = true →
  strlen line + strlen s + 2 ≤ MAX_RESP_LINE → strlen s + 2 ≤ remaining →
  read_resp_line eof (s +:+ CRLF +:+ rest) line remaining =
    Ok (line +:+ s, remaining - (strlen s + 2), rest).
Proof.
  induction s as [|a s IH]; intros line remaining Hd Hv Hl Hr.
  - change ("" +:+ CRLF +:+ rest) with (String CR (String LF rest)). unfold strlen in *.
    cbn [String.length read_resp_line] in *. rewrite str_app_nil_r in *.
    rewrite (proj2 (Z.eqb_neq _ _)) by (unfold strlen; lia).
    unfold charge_resp. rewrite (proj2 (Z.ltb_ge _ _)) by lia.
    rewrite bool_decide_eq_false_2 by done.
    rewrite (proj2 (Z.eqb_neq _ _)) by (rewrite strlen_app; unfold strlen; cbn; lia).
    rewrite (proj2 (Z.ltb_ge _ _)) by lia. rewrite bool_decide_eq_true_2 by done.
    rewrite strip_cr_CR. unfold from_utf8. rewrite Hv. cbn. do 3 f_equal. lia.
  - change (String a s +:+ CRLF +:+ rest) with (String a (s +:+ CRLF +:+ rest)).
    cbn [all_bytes] in Hd. apply andb_true_iff in Hd as [Ha Hd].
    change (strlen (String a s)) with (Z.of_nat (S (String.length s))) in *.
    pose proof (strlen_nonneg line). pose proof (strlen_nonneg s).
    assert (Es : Z.of_nat (S (String.length s)) = strlen s + 1) by (unfold strlen; lia).
    rewrite Es in *. cbn [read_resp_line].
    rewrite (proj2 (Z.eqb_neq _ _)) by lia. unfold charge_resp.
    rewrite (proj2 (Z.ltb_ge _ _)) by lia.
    rewrite bool_decide_eq_false_2 by (by apply digit_not_LF).
    assert (Ea : (line +:+ String a "") +:+ s = line +:+ String a s) by (by rewrite str_app_assoc).
    rewrite IH; [rewrite Ea; do 3 f_equal; lia|done|by rewrite Ea| |lia].
    rewrite strlen_app. unfold strlen at 2. cbn. lia.
Qed.

Lemma read_number z rest remaining :
  is_u64 z → strlen (show_u64 z) + 2 ≤ remaining →
  read_resp_line eof (show_u64 z +:+ CRLF +:+ rest) "" remaining =
    Ok (show_u64 z, remaining - (strlen (show_u64 z) + 2), rest).
Proof.
  intros [Hz _] Hr. assert (Hd : all_bytes is_ascii_digit (show_u64 z) = true)
    by (by apply show_digits_all).
  rewrite (read_line_digits (show_u64 z) rest "" remaining Hd); [done|by apply digits_utf8| |done].
  pose proof (show_digits_length 20 z ""). unfold show_u64, strlen, MAX_RESP_LINE in *. cbn in *. lia.
Qed.

Lemma strlen_bulk item : strlen (write_bulk_string item) =
  1 + (strlen (show_u64 (strlen item)) + 2) + (strlen item + 2).
Proof. unfold write_bulk_string. rewrite !strlen_app. unfold strlen. cbn. lia. Qed.

Definition wire_ok (item : string) : Prop := valid_utf8 item = true ∧ strlen item ≤ MAX_RESP_BULK.

Lemma read_arg_bulk item rest remaining :
  wire_ok item → strlen (write_bulk_string item) ≤ remaining →
  read_arg eof (write_bulk_string item +:+ rest) remaining =
    Ok (item, remaining - strlen (write_bulk_string item), rest).
Proof.
  intros [Hv Hl] Hr. rewrite strlen_bulk in *. pose proof (strlen_nonneg item).
  pose proof (strlen_nonneg (show_u64 (strlen item))).
  assert (Hu : is_u64 (strlen item)) by (unfold is_u64, MAX_RESP_BULK, u64_max in *; lia).
  unfold write_bulk_string. rewrite !str_app_assoc.
  change ("$" +:+ ?x) with (String "$" x). unfold read_arg.
  unfold charge_resp at 1. rewrite (proj2 (Z.ltb_ge _ _)) by lia. cbn [mbind result_bind].
  rewrite read_number by (done || lia). cbn [mbind result_bind].
  rewrite bool_decide_eq_true_2 by done. unfold read_bulk, parse_len.
  rewrite parse_show_u64 by done. cbn [mbind result_bind].
  rewrite (proj2 (Z.ltb_ge _ _)) by lia. unfold charge_resp.
  rewrite (proj2 (Z.ltb_ge _ _)) by lia. cbn [mbind result_bind].
  assert (E1 : Z.to_nat (strlen item + 2) = String.length (item +:+ CRLF)).
  { rewrite <- !chars_length, chars_app, length_app, !chars_length. unfold strlen. cbn. lia. }
  rewrite <- (str_app_assoc item CRLF rest), E1, split_at_app.
  assert (E2 : Z.to_nat (strlen item) = String.length item) by (unfold strlen; lia).
  rewrite E2, split_at_app, bool_decide_eq_true_2 by done. unfold from_utf8. rewrite Hv.
  cbn. do 3 f_equal. lia.
Qed.

Lemma read_args_bulks items rest : ∀ remaining,
  Forall wire_ok items → strlen (write_bulks items) ≤ remaining →
  read_args eof (length items) (write_bulks items +:+ rest) remaining = Ok (items, rest).
Proof.
  induction items as [|item items IH]; intros remaining Hok Hr; cbn [length read_args write_bulks] in *.
  { done. }
  apply list.Forall_cons in Hok as [Hi Hok]. rewrite strlen_app in Hr.
  pose proof (strlen_nonneg (write_bulks items)).
  rewrite str_app_assoc, read_arg_bulk by (done || lia). cbn [mbind result_bind].
  rewrite IH by (done || lia). done.
Qed.

(** Commands survive the wire.  An array of bulk strings within the limits -
    at most 128 arguments of at most 64 KiB of valid UTF-8 each, 256 KiB in all -
    is read back exactly as it was written, leaving the rest of the stream
    untouched. *)
Theorem resp_roundtrip items rest :
  Forall wire_ok items → Z.of_nat (length items) ≤ MAX_RESP_ARGS →
  strlen (write_array_of_bulk_strings items) ≤ MAX_RESP_COMMAND →
  read_resp_command eof (write_array_of_bulk_strings items +:+ rest) = Ok (items, rest).
Proof.
  intros Hok Hn Hlen. unfold write_array_of_bulk_strings in *. rewrite !strlen_app in Hlen.
  change (strlen "*") with 1 in Hlen. change (strlen CRLF) with 2 in Hlen.
  pose proof (strlen_nonneg (write_bulks items)).
  assert (Hu : is_u64 (Z.of_nat (length items))) by (unfold is_u64, MAX_RESP_ARGS, u64_max in *; lia).
  rewrite !str_app_assoc. change ("*" +:+ ?x) with (String "*" x). unfold read_resp_command.
  rewrite bool_decide_eq_true_2 by done. cbn [negb].
  rewrite read_number by (done || lia). cbn [mbind result_bind].
  unfold parse_len. rewrite parse_show_u64 by done. cbn [mbind result_bind].
  rewrite (proj2 (Z.ltb_ge _ _)), Nat2Z.id by lia. apply read_args_bulks; [done|lia].
Qed.
End roundtrip.

(** ** Authentication *)

Section auth.
Context (bcrypt_verify : string → string → bool) (eof : string).

Lemma check_auth_sound c a ip password now now' u a' :
  check_management_auth bcrypt_verify c a ip password now now' = (Ok u, a') →
  authorised bcrypt_verify c password ∧ is_local ip || allow_remote_of c = true ∧
  ¬ banned a ip now.
Proof.
  unfold check_management_auth. case_if; [done|]. unfold begin_verification.
  destruct (preflight a ip (allow_remote_of c) now) as [[v|e] a0] eqn:Hp; [|done].
  apply preflight_Ok in Hp as (Hl & Hb & _ & _). case_if; [done|].
  destruct (authenticate _ _ _ _ _ _) as [verdict a1] eqn:Ha. intros [= -> <-].
  apply authenticate_Ok in Ha as [Ha _]. split_and!; try done.
  destruct (is_empty password) eqn:He; [done|].
  apply verify_key_sound; [by apply is_empty_false|done].
Qed.

Definition is_error (reply : string) : Prop := starts_with reply "-" = true.

Lemma write_error_is_error msg : is_error (write_error msg).
Proof. apply starts_with_iff. by eexists. Qed.

(** One command on a connection that is not authenticated. *)
Lemma command_unauthed c ip s args now now' :
  authed s = false →
  let '(reply, s', next) := handle_command bcrypt_verify c ip s args now now' in
  hub s' = hub s ∧ next = Continue ∧
  ((authed s' = false ∧ is_error reply) ∨
   (authed s' = true ∧ ∃ password, parse_auth_password args = Some password ∧
      authorised bcrypt_verify c password ∧ is_local ip || allow_remote_of c = true)).
Proof.
  intros Hs. unfold handle_command. destruct args as [|name args].
  { split_and!; [done..|left]. split; [done|apply write_error_is_error]. }
  rewrite Hs. case_if.
  - unfold refuse. destruct (check_management_auth _ _ _ _ _ _ _) as [[u|d] a]; [|case_if];
      (split_and!; [done..|left]; split; [done|apply write_error_is_error]).
  - destruct (bool_decide (to_ascii_uppercase name = "AUTH")) eqn:Hc; [|done].
    unfold auth_command. destruct (parse_auth_password _) as [password|].
    + destruct (check_management_auth _ _ _ _ _ _ _) as [[u|d] a] eqn:E.
      * apply check_auth_sound in E as (H1 & H2 & _). split_and!; [done..|right]. eauto.
      * split_and!; [done..|left]. split; [done|apply write_error_is_error].
    + destruct (check_management_auth _ _ _ _ _ _ _) as [[u|d] a]; [|case_if];
        (split_and!; [done..|left]; split; [done|apply write_error_is_error]).
Qed.

(** Some command of the list is an AUTH with a configured secret. *)
Definition presents_secret (c : Secrets) (cmds : list (list string)) : Prop :=
  ∃ args password, args ∈ cmds ∧ parse_auth_password args = Some password ∧
                   authorised bcrypt_verify c password.

(** A conversation of commands, each with its two clock readings, until the loop
    is left. *)
Fixpoint converse (c : Secrets) (ip : IpAddr) (s : Conn) (cmds : list (list string * Z * Z))
  : list string * Conn :=
  match cmds with
  | [] => ([], s)
  | (args, now, now') :: cmds =>
      match handle_command bcrypt_verify c ip s args now now' with
      | (reply, s, Continue) => let '(rs, s) := converse c ip s cmds in (reply :: rs, s)
      | (reply, s, _) => ([reply], s)
      end
  end.

Lemma converse_unauthed c ip cmds : ∀ s,
  authed s = false → ¬ presents_secret c cmds.*1.*1 →
  let '(replies, s') := converse c ip s cmds in
  authed s' = false ∧ hub s' = hub s ∧ Forall is_error replies.
Proof.
  induction cmds as [|[[args now] now'] cmds IH]; intros s Hs Hn; cbn [converse]; [done|].
  pose proof (command_unauthed c ip s args now now' Hs) as H.
  destruct (handle_command _ _ _ _ _ _ _) as [[reply s1] next]. destruct H as (Hh & -> & H).
  destruct H as [[Ha He]|[_ (password & Hp & Hau & _)]].
  - specialize (IH s1 Ha). destruct (converse c ip s1 cmds) as [rs s2].
    destruct IH as (H1 & H2 & H3); [|split_and!; [done|congruence|by constructor]].
    intros (args' & pw & Hin & ?). apply Hn. exists args', pw. split; [by right|done].
  - exfalso. apply Hn. exists args, password. split; [left|done].
Qed.

(** No access without a secret.  Until a command presents a configured secret
    with AUTH, a connection stays unauthenticated whatever it sends: every reply
    is an error and neither queue, no subscription and no setting of the hub
    changes. *)
Theorem unauthenticated_inert c ip cmds a h :
  ¬ presents_secret c cmds.*1.*1 →
  let '(replies, s') := converse c ip {| authed := false; attempts := a; hub := h |} cmds in
  authed s' = false ∧ hub s' = h ∧ Forall is_error replies.
Proof.
  intros Hn. pose proof (converse_unauthed c ip cmds {| authed := false; attempts := a; hub := h |}
    eq_refl Hn) as H. by destruct (converse c ip _ cmds).
Qed.

(** ** The loop ends *)

Lemma charge_Ok r n r' : charge_resp r n = Ok r' → r' = r - n.
Proof. unfold charge_resp. case_if; [done|]. by intros [= <-]. Qed.

Lemma read_line_rest input : ∀ line remaining s r rest,
  read_resp_line eof input line remaining = Ok (s, r, rest) →
  (String.length rest < String.length input)%nat.
Proof.
  induction input as [|a input IH]; intros line remaining s r rest; cbn [read_resp_line];
    (case_if; [done|]); destruct (charge_resp remaining 1); try done.
  case_if.
  - destruct (from_utf8 _); cbn; [|done]. intros [= _ _ <-]. lia.
  - intros H%IH. cbn. lia.
Qed.

Lemma split_at_rest n : ∀ s l r,
  split_at n s = Some (l, r) → (String.length r ≤ String.length s)%nat.
Proof.
  induction n as [|n IH]; intros s l r; cbn; [by intros [= _ <-]|].
  destruct s as [|a s]; [done|]. destruct (split_at n s) as [[l' r']|] eqn:E; cbn; [|done].
  intros [= _ <-]. apply IH in E. lia.
Qed.

Lemma read_arg_rest input remaining arg r rest :
  read_arg eof input remaining = Ok (arg, r, rest) → (String.length rest < String.length input)%nat.
Proof.
  unfold read_arg. destruct (charge_resp remaining 1) as [rem|]; cbn [mbind result_bind]; [|done].
  destruct input as [|p input]; [done|].
  destruct (read_resp_line eof input "" rem) as [[[line rem'] input']|] eqn:El; cbn [mbind result_bind];
    [|done]. apply read_line_rest in El. case_if.
  - unfold read_bulk. destruct (parse_len line) as [n|]; cbn [mbind result_bind]; [|done].
    case_if; [done|]. destruct (charge_resp rem' (n + 2)); cbn [mbind result_bind]; [|done].
    destruct (split_at (Z.to_nat (n + 2)) input') as [[buf rest']|] eqn:E1; [|done].
    apply split_at_rest in E1. destruct (split_at (Z.to_nat n) buf) as [[body tail]|]; [|done].
    case_if; [|done]. destruct (from_utf8 body); cbn; [|done]. intros [= _ _ <-]. lia.
  - case_if; [|done]. intros [= _ _ <-]. cbn. lia.
Qed.

Lemma read_args_rest n : ∀ input remaining args rest,
  read_args eof n input remaining = Ok (args, rest) → (String.length rest ≤ String.length input)%nat.
Proof.
  induction n as [|n IH]; intros input remaining args rest; cbn [read_args]; [by intros [= _ <-]|].
  destruct (read_arg eof input remaining) as [[[arg rem] input']|] eqn:E; cbn [mbind result_bind]; [|done].
  apply read_arg_rest in E. destruct (read_args eof n input' rem) as [[args' rest']|] eqn:E2;
    cbn [mbind result_bind]; [|done]. intros [= _ <-]. apply IH in E2. lia.
Qed.

Lemma read_command_rest input args rest :
  read_resp_command eof input = Ok (args, rest) → (String.length rest < String.length input)%nat.
Proof.
  unfold read_resp_command. destruct input as [|p input]; [done|]. case_if; [done|].
  destruct (read_resp_line eof input "" _) as [[[line rem] input']|] eqn:El; cbn [mbind result_bind]; [|done].
  apply read_line_rest in El. destruct (parse_len line); cbn [mbind result_bind]; [|done].
  case_if; [done|]. intros H%read_args_rest. cbn. lia.
Qed.

(** The command loop terminates.  Every command takes at least one byte from the
    stream, so a connection on a finite input is served to its end: with fuel for
    one command more than the input has bytes, any larger fuel gives the same
    replies, state and outcome. *)
Theorem serve_terminates clock c ip s input i n k :
  (String.length input < n)%nat →
  serve bcrypt_verify eof (n + k) i clock c ip s input =
  serve bcrypt_verify eof n i clock c ip s input.
Proof.
  revert i s input. induction n as [|n IH]; intros i s input Hn; [lia|]. cbn [serve Nat.add].
  destruct (read_resp_command eof input) as [[args rest]|e] eqn:E; [|done].
  apply read_command_rest in E. destruct (clock i) as [now now'].
  destruct (handle_command _ _ _ _ _ _ _) as [[reply s1] next].
  destruct next; [|done..]. by rewrite IH by lia.
Qed.
End auth.

(** ** Witnesses *)
Definition local_secret : Secrets := {| stored := Some ("pw", false); env_secret := "" |}.

Lemma resp_roundtrip_witness :
  read_resp_command "eof" (write_array_of_bulk_strings ["AUTH"; "pw"] +:+ "rest") = Ok (["AUTH"; "pw"], "rest").
Proof.
  apply resp_roundtrip; [|vm_compute; congruence..].
  repeat constructor; vm_compute; congruence.
Defined.

Lemma unauthenticated_inert_witness :
  let cmds := [(["LPOP"; "usage"], 0, 0); (["AUTH"; "wrong"], 1, 1); (["SUBSCRIBE"; "usage"], 2, 2)] in
  let '(replies, s') := converse (λ _ _, false) local_secret LOCALHOST_V4
    {| authed := false; attempts := default_attempts; hub := default_hub |} cmds in
  authed s' = false ∧ hub s' = default_hub ∧ Forall is_error replies.
Proof.
  apply (unauthenticated_inert (λ _ _, false)). intros (args & pw & Hin & Hp & [_ Ha]).
  cbn in Ha. destruct Ha as [[? _]|[[? ?]|(_ & _ & ->)]]; [done..|].
  cbn in Hin. rewrite !elem_of_cons, elem_of_nil in Hin.
  destruct Hin as [->|[->|[->|[]]]]; cbn in Hp; discriminate Hp.
Defined.

(** The same connection with the right password is served. *)
Example authenticated_session :
  converse (λ _ _, false) local_secret LOCALHOST_V4
    {| authed := false; attempts := default_attempts; hub := enqueue_usage default_hub "record" 0 |}
    [(["AUTH"; "pw"], 0, 0); (["LPOP"; "usage"], 1, 1); (["LLEN"; "usage"], 1, 1)]
  = ([write_simple_string "OK"; write_bulk_string "record"; write_integer 0],
     {| authed := true; attempts := default_attempts; hub := default_hub |}).
Proof. vm_compute. reflexivity. Qed.

Lemma serve_terminates_witness :
  serve (λ _ _, false) "eof" (20 + 5) 0 (λ i, (Z.of_nat i, Z.of_nat i)) local_secret LOCALHOST_V4
    {| authed := false; attempts := default_attempts; hub := default_hub |}
    (write_array_of_bulk_strings ["PING"]) =
  serve (λ _ _, false) "eof" 20 0 (λ i, (Z.of_nat i, Z.of_nat i)) local_secret LOCALHOST_V4
    {| authed := false; attempts := default_attempts; hub := default_hub |}
    (write_array_of_bulk_strings ["PING"]).
Proof. apply serve_terminates. vm_compute. lia. Defined.
