(* ===== verification/Sse.v ===== *)
(** * Server-sent events (crates/gateway/src/compat/events.rs)

    The incremental parser every upstream stream goes through: lines ended by CR, LF or
    CRLF, [data:] payloads joined per event, two accumulation limits, and on top of it the
    events of the Responses protocol.  [push] and [finish] return the events they append.

    [serde_json] is the parameter [parse_json]. *)

From Stdlib Require Import Ascii.
From stdpp Require Import base strings list.
From S2P Require Import Prelude RustStr Json.
Import RustStr.
Open Scope Z_scope.

Module Sse.

Record Usage := {
  prompt_tokens : Z;
  completion_tokens : Z;
  total_tokens : Z;
  cached_tokens : Z;
  cached_tokens_known : bool;
  reasoning_tokens : Z;
  cache_write_tokens : Z;
  cache_write_tokens_known : bool;
}.

Inductive CodexEvent :=
  | Created (response_id : string)
  | TextDelta (text : string)
  | ReasoningDelta (text : string)
  | ReasoningSignature (sig : string)
  | ReasoningRedacted
  | ToolCallBegin (output_index : Z) (call_id name : string)
  | ToolArgsDelta (output_index : Z) (delta : string)
  | OutputLimitReached
  | Completed (usage : option Usage)
  | Failed (message : string).

Definition MAX_SSE_LINE_BYTES : Z := 8 * 1024 * 1024.
Definition MAX_SSE_FRAME_BYTES : Z := 32 * 1024 * 1024.

Inductive SseLimitError := Line | Frame.

Definition limit_message (e : SseLimitError) : string :=
  match e with
  | Line => "upstream SSE line exceeds the size limit"
  | Frame => "upstream SSE event exceeds the size limit"
  end.

Record SseParser := {
  buf : string;
  data : string;
  after_cr : bool;
  failure : option SseLimitError;
  terminal : bool;
}.

Definition initial : SseParser :=
  {| buf := ""; data := ""; after_cr := false; failure := None; terminal := false |}.

Definition with_buf (p : SseParser) (b : string) : SseParser :=
  {| buf := b; data := data p; after_cr := after_cr p; failure := failure p; terminal := terminal p |}.
Definition with_data (p : SseParser) (d : string) : SseParser :=
  {| buf := buf p; data := d; after_cr := after_cr p; failure := failure p; terminal := terminal p |}.
Definition with_after_cr (p : SseParser) (b : bool) : SseParser :=
  {| buf := buf p; data := data p; after_cr := b; failure := failure p; terminal := terminal p |}.
Definition with_terminal (p : SseParser) (b : bool) : SseParser :=
  {| buf := buf p; data := data p; after_cr := after_cr p; failure := failure p; terminal := b |}.

Definition record_failure (p : SseParser) (e : SseLimitError) : SseParser :=
  {| buf := ""; data := ""; after_cr := after_cr p; failure := Some e; terminal := terminal p |}.

(** ** Lines *)

Definition CR : ascii := ascii_of_nat 13.
Definition LF : ascii := ascii_of_nat 10.

(** [Vec::pop]. *)
Fixpoint pop (s : string) : string :=
  match s with
  | EmptyString => ""
  | String _ EmptyString => ""
  | String a s => String a (pop s)
  end.

(** [data.push(b'\n')] and the check that follows it. *)
Definition push_line (p : SseParser) (payload : string) : SseParser * option SseLimitError :=
  let p := with_data p (data p +:+ payload +:+ String LF "") in
  (p, if MAX_SSE_FRAME_BYTES <? strlen (data p) then Some Frame else None).

(** The frames it emits - one at most -, the parser and the breach. *)
Definition consume_line (p : SseParser) (line : string)
  : list string * SseParser * option SseLimitError :=
  if is_empty line then
    if is_empty (data p) then ([], p, None) else ([pop (data p)], with_data p "", None)
  else
    match strip_prefix "data:" line with
    | Some payload =>
        let '(p, e) := push_line p (default payload (strip_prefix " " payload)) in ([], p, e)
    | None =>
        if bool_decide (line = "data") then let '(p, e) := push_line p "" in ([], p, e)
        else ([], p, None)
    end.

Fixpoint feed (p : SseParser) (chunk : string)
  : list string * SseParser * option SseLimitError :=
  match chunk with
  | EmptyString => ([], p, None)
  | String byte chunk =>
      if after_cr p && bool_decide (byte = LF) then feed (with_after_cr p false) chunk
      else
        let p := with_after_cr p (bool_decide (byte = CR)) in
        if bool_decide (byte = CR) || bool_decide (byte = LF) then
          let '(fs, p, e) := consume_line (with_buf p "") (buf p) in
          match e with
          | Some e => (fs, record_failure p e, Some e)
          | None => let '(fs', p, e) := feed p chunk in (fs ++ fs', p, e)
          end
        else
          let p := with_buf p (buf p +:+ String byte "") in
          if MAX_SSE_LINE_BYTES <? strlen (buf p) then ([], record_failure p Line, Some Line)
          else feed p chunk
  end.

Definition push_raw_data (p : SseParser) (chunk : string)
  : list string * SseParser * option SseLimitError :=
  match failure p with Some _ => ([], p, None) | None => feed p chunk end.

Definition finish_raw_data (p : SseParser) : list string * SseParser * option SseLimitError :=
  match failure p with
  | Some _ => ([], p, None)
  | None =>
      let '(fs, p, e) :=
        if is_empty (buf p) then ([], p, None) else consume_line (with_buf p "") (buf p) in
      match e with
      | Some e => (fs, record_failure p e, Some e)
      | None =>
          let '(fs', p, e) := consume_line p "" in
          match e with
          | Some e => (fs ++ fs', record_failure p e, Some e)
          | None => (fs ++ fs', with_after_cr p false, None)
          end
      end
  end.

(** ** Events *)

Definition or_get (o : option Json.Value) (o' : option Json.Value) : option Json.Value :=
  match o with Some v => Some v | None => o' end.

Definition parse_usage (usage : Json.Value) : Usage :=
  let g k := Json.get k usage in
  let pt path := Json.pointer path usage in
  let prompt := default 0 (or_get (g "input_tokens") (g "prompt_tokens") ≫= Json.as_u64) in
  let completion := default 0 (or_get (g "output_tokens") (g "completion_tokens") ≫= Json.as_u64) in
  let total := default (wrapping_add_u64 prompt completion) (g "total_tokens" ≫= Json.as_u64) in
  let cached := or_get (pt ["input_tokens_details"; "cached_tokens"])
                  (or_get (pt ["prompt_tokens_details"; "cached_tokens"])
                     (or_get (g "cache_read_input_tokens") (g "cache_read_tokens")))
                ≫= Json.as_u64 in
  let written := or_get (pt ["input_tokens_details"; "cache_creation_tokens"])
                  (or_get (pt ["input_tokens_details"; "cache_write_tokens"])
                  (or_get (pt ["prompt_tokens_details"; "cache_creation_tokens"])
                  (or_get (pt ["prompt_tokens_details"; "cache_write_tokens"])
                  (or_get (g "cache_creation_input_tokens")
                  (or_get (g "cache_write_tokens") (g "cache_creation_tokens"))))))
                ≫= Json.as_u64 in
  let reasoning := default 0
                     (or_get (pt ["output_tokens_details"; "reasoning_tokens"])
                        (or_get (pt ["completion_tokens_details"; "reasoning_tokens"])
                           (g "reasoning_tokens")) ≫= Json.as_u64) in
  let '(final_prompt, final_completion) :=
    if (prompt =? 0) && (completion =? 0) && (0 <? total) then (0, total) else (prompt, completion) in
  {| prompt_tokens := final_prompt; completion_tokens := final_completion; total_tokens := total;
     cached_tokens := default 0 cached; cached_tokens_known := is_some cached;
     reasoning_tokens := reasoning; cache_write_tokens := default 0 written;
     cache_write_tokens_known := is_some written |}.

Definition str_at (path : list string) (v : Json.Value) : option string :=
  Json.pointer path v ≫= Json.as_str.

Definition failed_message (value : Json.Value) : string :=
  default "upstream response failed"
    (or_get (Json.pointer ["response"; "error"; "message"] value)
       (or_get (Json.pointer ["response"; "incomplete_details"; "reason"] value)
          (Json.pointer ["response"; "status"] value)) ≫= Json.as_str).

Definition index_of (value : Json.Value) : Z := default 0 (Json.get "output_index" value ≫= Json.as_u64).

Definition classify (value : Json.Value) : option CodexEvent :=
  kind ← str_at ["type"] value;
  if bool_decide (kind = "response.created") then
    Some (Created (default "" (str_at ["response"; "id"] value)))
  else if bool_decide (kind = "response.output_text.delta") then
    TextDelta <$> str_at ["delta"] value
  else if bool_decide (kind = "response.reasoning_summary_text.delta")
          || bool_decide (kind = "response.reasoning_text.delta") then
    ReasoningDelta <$> str_at ["delta"] value
  else if bool_decide (kind = "response.output_item.added") then
    item ← Json.get "item" value;
    if bool_decide (str_at ["type"] item = Some "function_call") then
      Some (ToolCallBegin (index_of value) (default "" (str_at ["call_id"] item))
              (default "" (str_at ["name"] item)))
    else None
  else if bool_decide (kind = "response.function_call_arguments.delta") then
    Some (ToolArgsDelta (index_of value) (default "" (str_at ["delta"] value)))
  else if bool_decide (kind = "response.completed") then
    Some (Completed (parse_usage <$> Json.pointer ["response"; "usage"] value))
  else if bool_decide (kind = "response.failed") || bool_decide (kind = "response.incomplete")
          || bool_decide (kind = "response.cancelled") then
    Some (Failed (failed_message value))
  else if bool_decide (kind = "error") then
    Some (Failed (default "upstream error"
      (or_get (Json.get "message" value) (Json.pointer ["error"; "message"] value) ≫= Json.as_str)))
  else None.

Definition is_terminal (e : CodexEvent) : bool :=
  match e with Completed _ | Failed _ => true | _ => false end.

Section decode.
Context (parse_json : string → option Json.Value).

Definition limit_reached (value : Json.Value) : bool :=
  bool_decide (str_at ["type"] value = Some "response.incomplete")
  && match Json.pointer ["response"; "error"] value with Some v => Json.is_null v | None => true end
  && bool_decide (str_at ["response"; "incomplete_details"; "reason"] value
                  = Some "max_output_tokens").

Definition decode (payload : string) : list CodexEvent :=
  if bool_decide (payload = "[DONE]") then []
  else match parse_json payload with
       | None => []
       | Some value =>
           if limit_reached value then
             [OutputLimitReached;
              Completed (parse_usage <$> Json.pointer ["response"; "usage"] value)]
           else match classify value with Some e => [e] | None => [] end
       end.

(** [decode_codex] over the frames of one call: nothing is decoded past a terminal event. *)
Fixpoint decode_frames (terminal : bool) (frames : list string) : list CodexEvent * bool :=
  match frames with
  | [] => ([], terminal)
  | f :: frames =>
      if terminal then decode_frames true frames
      else let es := decode f in
           let '(es', t) := decode_frames (existsb is_terminal es) frames in (es ++ es', t)
  end.

Definition push (p : SseParser) (chunk : string) : list CodexEvent * SseParser :=
  if is_some (failure p) || terminal p then ([], p)
  else
    let '(frames, p, r) := push_raw_data p chunk in
    let '(es, t) := decode_frames (terminal p) frames in
    let p := with_terminal p t in
    if t then (es, p)
    else match r with
         | Some e => (es ++ [Failed (limit_message e)], with_terminal p true)
         | None => (es, p)
         end.

Definition finish (p : SseParser) : list CodexEvent * SseParser :=
  if terminal p then ([], p)
  else
    let '(frames, p, r) := finish_raw_data p in
    let '(es, t) := decode_frames (terminal p) frames in
    let p := with_terminal p t in
    if t then (es, p)
    else match r with
         | Some e => (es ++ [Failed (limit_message e)], with_terminal p true)
         | None => (es ++ [Failed "Responses stream ended before a terminal event"],
                    with_terminal p true)
         end.

(** A whole stream: its chunks, then its end. *)
Fixpoint pushes (p : SseParser) (chunks : list string) : list CodexEvent * SseParser :=
  match chunks with
  | [] => ([], p)
  | c :: chunks =>
      let '(es, p) := push p c in
      let '(es', p) := pushes p chunks in (es ++ es', p)
  end.

Definition stream (chunks : list string) : list CodexEvent :=
  let '(es, p) := pushes initial chunks in
  let '(es', _) := finish p in es ++ es'.
End decode.

End Sse.
