(* ===== verification/SseProps.v ===== *)
(** * The event parser

    The events do not depend on how the bytes were cut into chunks, every stream ends with
    exactly one terminal event, and the two buffers stay below their limits.  What a
    renderer writes as a frame is read back as that frame, whatever the line ending. *)

From Stdlib Require Import Ascii.
From stdpp Require Import base strings list.
From S2P Require Import Prelude RustStr Json Sse.
Import RustStr Sse.
Open Scope Z_scope.

(** ** Chunk boundaries *)

Lemma feed_app c1 : ∀ p c2,
  feed p (c1 +:+ c2) =
  match feed p c1 with
  | (fs, p1, Some e) => (fs, p1, Some e)
  | (fs, p1, None) => let '(fs', p2, e) := feed p1 c2 in (fs ++ fs', p2, e)
  end.
Proof.
  induction c1 as [|b c1 IH]; intros p c2.
  - change ("" +:+ c2) with c2. cbn [feed]. by destruct (feed p c2) as [[fs p2] e].
  - change (String b c1 +:+ c2) with (String b (c1 +:+ c2)). cbn [feed].
    destruct (after_cr p && bool_decide (b = LF)); [apply IH|].
    destruct (bool_decide (b = CR) || bool_decide (b = LF)).
    + destruct (consume_line _ _) as [[fs p1] [e|]]; [done|]. rewrite IH.
      destruct (feed p1 c1) as [[fs1 p2] [e|]]; [done|].
      destruct (feed p2 c2) as [[fs2 p3] e]. by rewrite app_assoc.
    + case_if; [done|apply IH].
Qed.

(** A parser that failed only does so for good. *)
Lemma feed_failure c : ∀ p fs p' e, failure p = None → feed p c = (fs, p', e) →
  failure p' = e.
Proof.
  assert (Hl : ∀ p l fs p' e, consume_line p l = (fs, p', e) → failure p' = failure p).
  { intros p l fs p' e. unfold consume_line, push_line. repeat case_match; intros; simplify_eq; done. }
  induction c as [|b c IH]; intros p fs p' e Hp; cbn [feed]; [by intros [= <- <- <-]|].
  case_if; [by apply IH|]. case_if.
  - destruct (consume_line _ _) as [[fs1 p1] e1] eqn:El. apply Hl in El. cbn in El.
    destruct e1 as [e1|]; [by intros [= <- <- <-]|]. destruct (feed p1 c) as [[fs2 p2] e2] eqn:Ef.
    intros [= <- <- <-]. eapply IH; [|done]. by rewrite El.
  - case_if; [by intros [= <- <- <-]|by apply IH].
Qed.

Lemma feed_terminal c : ∀ p fs p' e, feed p c = (fs, p', e) → terminal p' = terminal p.
Proof.
  assert (Hl : ∀ p l fs p' e, consume_line p l = (fs, p', e) → terminal p' = terminal p).
  { intros p l fs p' e. unfold consume_line, push_line. repeat case_match; intros; simplify_eq; done. }
  induction c as [|b c IH]; intros p fs p' e; cbn [feed]; [by intros [= <- <- <-]|].
  case_if; [by intros ?%IH|]. case_if.
  - destruct (consume_line _ _) as [[fs1 p1] e1] eqn:El. apply Hl in El. cbn in El.
    destruct e1 as [e1|]; [by intros [= <- <- <-]|]. destruct (feed p1 c) as [[fs2 p2] e2] eqn:Ef.
    intros [= <- <- <-]. apply IH in Ef. congruence.
  - case_if; [by intros [= <- <- <-]|by intros ?%IH].
Qed.

Section events.
Context (parse_json : string → option Json.Value).
Abbreviation decode := (decode parse_json).
Abbreviation decode_frames := (decode_frames parse_json).
Abbreviation push := (push parse_json).
Abbreviation finish := (finish parse_json).
Abbreviation pushes := (pushes parse_json).
Abbreviation stream := (stream parse_json).

Lemma decode_frames_true fs : decode_frames true fs = ([], true).
Proof. by induction fs. Qed.

Lemma decode_frames_app fs1 : ∀ t fs2,
  decode_frames t (fs1 ++ fs2) =
  let '(es1, t1) := decode_frames t fs1 in
  let '(es2, t2) := decode_frames t1 fs2 in (es1 ++ es2, t2).
Proof.
  induction fs1 as [|f fs1 IH]; intros t fs2; cbn.
  - by destruct (decode_frames t fs2).
  - destruct t; [by rewrite IH|]. rewrite IH.
    destruct (decode_frames _ fs1) as [es1 t1]. destruct (decode_frames t1 fs2) as [es2 t2].
    by rewrite app_assoc.
Qed.

(** Parsers that nothing tells apart any more. *)
Definition alike (p p' : SseParser) : Prop := p = p' ∨ (terminal p = true ∧ terminal p' = true).

Lemma push_terminal p c : terminal p = true → push p c = ([], p).
Proof. intros H. unfold Sse.push. rewrite H. by rewrite orb_true_r. Qed.

(** One call of [push] on a live parser, from what [feed] returns. *)
Definition settled (p : SseParser) (frames : list string) (r : option SseLimitError)
  : list CodexEvent * SseParser :=
  let '(es, t) := decode_frames false frames in
  if t then (es, with_terminal p true)
  else match r with
       | Some e => (es ++ [Failed (limit_message e)], with_terminal p true)
       | None => (es, p)
       end.

Lemma push_live p c fs p' r :
  failure p = None → terminal p = false → feed p c = (fs, p', r) → push p c = settled p' fs r.
Proof.
  intros Hf Ht Hc. unfold Sse.push, push_raw_data. rewrite Hf, Ht, Hc. cbn [is_some orb].
  pose proof (feed_terminal _ _ _ _ _ Hc) as Ht'. rewrite Ht in Ht'. rewrite Ht'. unfold settled.
  destruct (decode_frames false fs) as [es t]. destruct t; [done|].
  assert (with_terminal p' false = p') as Hp by (destruct p'; cbn in *; by subst).
  by destruct r; rewrite ?Hp.
Qed.

Lemma push_app p c1 c2 es1 p1 es2 p2 :
  push p c1 = (es1, p1) → push p1 c2 = (es2, p2) →
  ∃ p', push p (c1 +:+ c2) = (es1 ++ es2, p') ∧ alike p' p2.
Proof.
  intros H1 H2. destruct (is_some (failure p) || terminal p) eqn:Hlive.
  { unfold Sse.push in *. rewrite Hlive in *. injection H1 as <- <-. rewrite Hlive in H2.
    injection H2 as <- <-. exists p. split; [done|by left]. }
  apply orb_false_iff in Hlive as [Hf Ht].
  assert (Hnf : failure p = None) by (by destruct (failure p)).
  destruct (feed p c1) as [[fs1 q1] r1] eqn:E1.
  rewrite (push_live _ _ _ _ _ Hnf Ht E1) in H1.
  pose proof (feed_app c1 p c2) as Ea. rewrite E1 in Ea.
  pose proof (feed_failure _ _ _ _ _ Hnf E1) as Hf1. pose proof (feed_terminal _ _ _ _ _ E1) as Ht1.
  destruct r1 as [e1|].
  - rewrite (push_live _ _ _ _ _ Hnf Ht Ea), H1. exists p1.
    rewrite push_terminal in H2; [injection H2 as <- <-; split; [by rewrite app_nil_r|by left]|].
    unfold settled in H1. destruct (decode_frames false fs1) as [es [|]]; by injection H1 as <- <-.
  - destruct (feed q1 c2) as [[fs2 q2] r2] eqn:E2.
    rewrite (push_live _ _ _ _ _ Hnf Ht Ea). unfold settled in *. rewrite decode_frames_app.
    destruct (decode_frames false fs1) as [es [|]] eqn:D1; injection H1 as <- <-.
    + rewrite push_terminal in H2 by done. injection H2 as <- <-.
      rewrite decode_frames_true. eexists. split; [done|]. by right.
    + rewrite (push_live _ _ _ _ _ Hf1 (eq_trans Ht1 Ht) E2) in H2. unfold settled in H2.
      destruct (decode_frames false fs2) as [es' [|]]; [|destruct r2]; injection H2 as <- <-;
        eexists; (split; [by rewrite ?app_assoc|by left]).
Qed.

Lemma push_alike p p' c es q :
  alike p p' → push p c = (es, q) → ∃ q', push p' c = (es, q') ∧ alike q q'.
Proof.
  intros [<-|[H1 H2]] Hp; [exists q; split; [done|by left]|].
  rewrite push_terminal in Hp by done. injection Hp as <- <-. rewrite push_terminal by done.
  eexists. split; [done|by right].
Qed.

Lemma pushes_concat cs : ∀ p es q,
  pushes p cs = (es, q) → ∃ q', push p (String.concat "" cs) = (es, q') ∧ alike q' q.
Proof.
  assert (Hcat : ∀ c cs, String.concat "" (c :: cs) = c +:+ String.concat "" cs).
  { intros c [|c' cs']; cbn; by rewrite ?append_nil_r. }
  induction cs as [|c cs IH]; intros p es q.
  - cbn. intros [= <- <-]. unfold Sse.push. case_if; [eexists; split; [done|by left]|].
    bool_to_prop. unfold push_raw_data. destruct (failure p); [done|]. cbn.
    destruct p as [b d a f t]. cbn in *. subst. eexists. split; [done|by left].
  - cbn [Sse.pushes]. destruct (push p c) as [es1 p1] eqn:E1. destruct (pushes p1 cs) as [es2 p2] eqn:E2.
    intros [= <- <-]. destruct (IH _ _ _ E2) as (q' & Hq & Ha). rewrite Hcat.
    destruct (push_app _ _ _ _ _ _ _ E1 Hq) as (q2 & Hq2 & Ha2). exists q2. split; [done|].
    destruct Ha2 as [->|[]], Ha as [->|[]]; unfold alike; auto.
Qed.

Lemma finish_alike p p' : alike p p' → (finish p).1 = (finish p').1.
Proof. intros [<-|[H1 H2]]; [done|]. unfold Sse.finish. by rewrite H1, H2. Qed.

Lemma stream_one cs :
  stream cs = let '(es, p) := push initial (String.concat "" cs) in es ++ (finish p).1.
Proof.
  unfold Sse.stream. destruct (pushes initial cs) as [es p] eqn:E.
  destruct (pushes_concat _ _ _ _ E) as (q & -> & Ha). rewrite (finish_alike _ _ Ha).
  by destruct (finish p).
Qed.

(** The cuts do not matter.  However a transport cuts the bytes of an upstream stream
    into chunks - in the middle of a line, between the CR and the LF of a line ending, in
    the middle of a character - the parser decodes the same events, limits and failures
    included. *)
Theorem chunking_irrelevant (chunks : list string) :
  stream chunks = stream [String.concat "" chunks].
Proof. by rewrite !stream_one. Qed.

(** ** One terminal event *)

(** Events in order, none terminal but perhaps the last. *)
Definition pending (es : list CodexEvent) : Prop := Forall (λ e, is_terminal e = false) es.
Definition closed (es : list CodexEvent) : Prop :=
  ∃ es' e, es = es' ++ [e] ∧ pending es' ∧ is_terminal e = true.

Lemma closed_app es es' : pending es → closed es' → closed (es ++ es').
Proof.
  intros Hp (es1 & e & -> & Hp1 & He). exists (es ++ es1), e. rewrite app_assoc.
  split_and!; [done| |done]. apply list.Forall_app. done.
Qed.

Lemma decode_closed payload :
  if existsb is_terminal (decode payload) then closed (decode payload) else pending (decode payload).
Proof.
  unfold Sse.decode. destruct (bool_decide (payload = "[DONE]")); [by apply list.Forall_nil_2|].
  destruct (parse_json payload) as [v|]; [|by apply list.Forall_nil_2]. destruct (limit_reached v); [exists [OutputLimitReached]; eexists; split_and!; [done|by repeat constructor|done]|].
  destruct (classify v) as [e|]; [|by apply list.Forall_nil_2]. cbn. destruct (is_terminal e) eqn:He; cbn.
  - exists [], e. split_and!; [done|constructor|done].
  - by repeat constructor.
Qed.

Lemma decode_frames_closed fs es t :
  decode_frames false fs = (es, t) → if t then closed es else pending es.
Proof.
  revert es t. induction fs as [|f fs IH]; intros es t; cbn; [intros [= <- <-]; constructor|].
  pose proof (decode_closed f) as Hd. destruct (existsb is_terminal (decode f)).
  - rewrite decode_frames_true. intros [= <- <-]. by rewrite app_nil_r.
  - destruct (decode_frames false fs) as [es1 t1]. specialize (IH _ _ eq_refl).
    intros [= <- <-]. destruct t1; [by apply closed_app|]. by apply list.Forall_app.
Qed.

Lemma failed_closed es m : pending es → closed (es ++ [Failed m]).
Proof. intros H. by exists es, (Failed m). Qed.

(** Live: no terminal event yet and no breach. *)
Definition live (p : SseParser) : Prop := failure p = None ∧ terminal p = false.

Lemma push_closed p c es q : live p → push p c = (es, q) →
  (live q ∧ pending es) ∨ (terminal q = true ∧ closed es).
Proof.
  intros [Hf Ht] Hp. destruct (feed p c) as [[fs p'] r] eqn:E.
  rewrite (push_live _ _ _ _ _ Hf Ht E) in Hp. unfold settled in Hp.
  pose proof (feed_failure _ _ _ _ _ Hf E) as Hf'. pose proof (feed_terminal _ _ _ _ _ E) as Ht'.
  destruct (decode_frames false fs) as [es' t] eqn:D. apply decode_frames_closed in D.
  destruct t; [|destruct r]; injection Hp as <- <-.
  - by right.
  - right. split; [done|by apply failed_closed].
  - left. split; [|done]. split; [done|congruence].
Qed.

Lemma pushes_closed cs : ∀ p es q, live p → pushes p cs = (es, q) →
  (live q ∧ pending es) ∨ (terminal q = true ∧ closed es).
Proof.
  induction cs as [|c cs IH]; intros p es q Hp; cbn [Sse.pushes].
  { intros [= <- <-]. left. split; [done|constructor]. }
  destruct (push p c) as [es1 p1] eqn:E1. destruct (pushes p1 cs) as [es2 p2] eqn:E2.
  intros [= <- <-]. destruct (push_closed _ _ _ _ Hp E1) as [[Hl Hes]|[Ht Hc]].
  - destruct (IH _ _ _ Hl E2) as [[Hl2 Hes2]|[Ht2 Hc2]].
    + left. split; [done|by apply list.Forall_app].
    + right. split; [done|by apply closed_app].
  - assert (Hn : ∀ cs, pushes p1 cs = ([], p1)).
    { clear -Ht. induction cs as [|c cs IH]; [done|]. cbn. by rewrite push_terminal, IH. }
    rewrite Hn in E2. injection E2 as <- <-. right. by rewrite app_nil_r.
Qed.

Lemma finish_closed p : live p → closed (finish p).1.
Proof.
  intros [Hf Ht]. unfold Sse.finish. rewrite Ht.
  destruct (finish_raw_data p) as [[fs p'] r] eqn:E.
  assert (Ht' : terminal p' = false).
  { unfold finish_raw_data, consume_line, push_line in E. rewrite Hf in E.
    repeat case_match; simplify_eq; done. }
  rewrite Ht'. destruct (decode_frames false fs) as [es t] eqn:D. apply decode_frames_closed in D.
  destruct t; [done|]. destruct r; by apply failed_closed.
Qed.

Lemma stream_shape (chunks : list string) :
  ∃ es e, stream chunks = es ++ [e] ∧ Forall (λ e, is_terminal e = false) es ∧
          is_terminal e = true.
Proof.
  unfold Sse.stream. destruct (pushes initial chunks) as [es p] eqn:E.
  apply pushes_closed in E as [[Hl Hp]|[Ht Hc]]; [| |done].
  - pose proof (finish_closed p Hl) as Hc. destruct (finish p) as [es' p']. by apply closed_app.
  - unfold Sse.finish. rewrite Ht. by rewrite app_nil_r.
Qed.

(** Every upstream stream ends, once.  Whatever bytes arrive - nothing, a truncated
    event, events after the end, a line beyond the limit - the decoded events are a
    sequence without terminal event followed by exactly one: the completion or failure the
    upstream sent, or a failure that names the limit or the missing end. *)
Theorem stream_ends_once (chunks : list string) :
  ∃ es e, stream chunks = es ++ [e] ∧ Forall (λ e, is_terminal e = false) es ∧
          is_terminal e = true.
Proof. apply stream_shape. Qed.

(** ** Memory *)

Definition bounded (p : SseParser) : Prop :=
  strlen (buf p) ≤ MAX_SSE_LINE_BYTES ∧ strlen (data p) ≤ MAX_SSE_FRAME_BYTES.

Lemma record_failure_bounded p e : bounded (record_failure p e).
Proof. by split; cbn. Qed.

Lemma consume_line_bounded p l fs p' :
  bounded p → consume_line p l = (fs, p', None) → bounded p'.
Proof.
  assert (Hpush : ∀ payload p1, push_line p payload = (p1, None) → bounded p → bounded p1).
  { intros payload p1. unfold push_line. case_if; [done|]. intros [= <-] [H1 H2].
    apply Z.ltb_ge in Heqb. by split. }
  intros Hp. unfold consume_line. destruct (is_empty l).
  - destruct (is_empty (data p)); intros [= <- <-]; [done|]. destruct Hp. by split.
  - destruct (strip_prefix "data:" l) as [payload|].
    + destruct (push_line _ _) as [p1 e] eqn:E. intros [= <- <- ->]. by eapply Hpush.
    + case_if; [|by intros [= <- <-]]. destruct (push_line _ _) as [p1 e] eqn:E.
      intros [= <- <- ->]. by eapply Hpush.
Qed.

Lemma feed_bounded c : ∀ p fs p' e, bounded p → feed p c = (fs, p', e) → bounded p'.
Proof.
  induction c as [|b c IH]; intros p fs p' e Hp; cbn [feed]; [by intros [= <- <- <-]|].
  destruct (after_cr p && bool_decide (b = LF)); [by apply IH|].
  destruct (bool_decide (b = CR) || bool_decide (b = LF)).
  - destruct (consume_line _ _) as [[fs1 p1] [e1|]] eqn:El.
    + intros [= <- <- <-]. apply record_failure_bounded.
    + apply consume_line_bounded in El; [|by destruct Hp].
      destruct (feed p1 c) as [[fs2 p2] e2] eqn:Ef. intros [= <- <- <-]. by eapply IH.
  - destruct (Z.ltb_spec MAX_SSE_LINE_BYTES (strlen (buf p +:+ String b ""))) as [H|H]; cbn [buf with_buf with_after_cr];
      rewrite ?(proj2 (Z.ltb_lt _ _) H), ?(proj2 (Z.ltb_ge _ _) H).
    + intros [= <- <- <-]. apply record_failure_bounded.
    + apply IH. split; [done|]. by destruct Hp.
Qed.

Lemma push_bounded p c : bounded p → bounded (push p c).2.
Proof.
  intros Hp. unfold Sse.push, push_raw_data. case_if; [done|]. destruct (failure p); [done|].
  destruct (feed p c) as [[fs p'] e] eqn:E. apply feed_bounded in E; [|done].
  destruct (decode_frames (terminal p') fs) as [es [|]]; [done|]. by destruct e.
Qed.

(** An upstream cannot grow the parser's memory: after any chunks the unterminated line
    is at most 8 MiB and the pending event at most 32 MiB, whatever their number and size. *)
Theorem sse_memory_bounded (chunks : list string) :
  let p := (pushes initial chunks).2 in
  strlen (buf p) ≤ MAX_SSE_LINE_BYTES ∧ strlen (data p) ≤ MAX_SSE_FRAME_BYTES.
Proof.
  cbn zeta. change (bounded (pushes initial chunks).2).
  assert (H : ∀ cs p, bounded p → bounded (pushes p cs).2).
  { induction cs as [|c cs IH]; intros p Hp; [done|]. cbn [Sse.pushes].
    pose proof (push_bounded p c Hp) as H1. destruct (push p c) as [es p1].
    specialize (IH p1 H1). by destruct (pushes p1 cs). }
  apply H. by split.
Qed.
End events.

(** ** Frames come back *)

Inductive ending := LFs | CRLFs | CRs.
Definition eol (k : ending) : string :=
  match k with LFs => String LF "" | CRLFs => String CR (String LF "") | CRs => String CR "" end.
Definition ends_in_cr (k : ending) : bool := match k with CRs => true | _ => false end.

Definition plain (b : ascii) : bool := negb (bool_decide (b = CR)) && negb (bool_decide (b = LF)).

(** An event: its lines, each behind [data: ], and a blank line. *)
Fixpoint encode (k : ending) (lines : list string) : string :=
  match lines with
  | [] => eol k
  | l :: lines => "data: " +:+ l +:+ eol k +:+ encode k lines
  end.

Lemma feed_plain l : ∀ p rest,
  all_bytes plain l = true → strlen (buf p) + strlen l ≤ MAX_SSE_LINE_BYTES →
  feed p (l +:+ rest) =
  feed (with_buf (with_after_cr p (after_cr p && is_empty l)) (buf p +:+ l)) rest.
Proof.
  induction l as [|b l IH]; intros p rest Hl Hlen.
  - change ("" +:+ rest) with rest. rewrite append_nil_r, andb_true_r. by destruct p.
  - change (String b l +:+ rest) with (String b (l +:+ rest)). cbn in Hl.
    apply andb_true_iff in Hl as [Hb Hl]. apply andb_true_iff in Hb as [Hc Hf].
    apply negb_true_iff in Hc, Hf. cbn [feed]. rewrite Hc, Hf, andb_false_r. cbn [orb].
    assert (Hlen' : strlen (buf p +:+ String b "") + strlen l ≤ MAX_SSE_LINE_BYTES).
    { rewrite strlen_app. unfold strlen in *. cbn [String.length] in *. lia. }
    cbn [buf with_buf with_after_cr].
    rewrite (proj2 (Z.ltb_ge _ _)) by (pose proof (strlen_nonneg l); lia).
    rewrite IH by done. cbn [buf with_buf with_after_cr after_cr is_empty andb].
    rewrite append_assoc, andb_false_r. done.
Qed.

Lemma feed_eol k p rest fs p1 :
  (after_cr p = true → k = CRs) →
  (∀ a, consume_line (with_after_cr (with_buf p "") a) (buf p) = (fs, with_after_cr p1 a, None)) →
  feed p (eol k +:+ rest) =
  let '(fs', p2, e) := feed (with_after_cr p1 (ends_in_cr k)) rest in (fs ++ fs', p2, e).
Proof.
  intros Hk Hc.
  assert (Hcr : ∀ rest, feed p (String CR rest) =
            let '(fs', p2, e) := feed (with_after_cr p1 true) rest in (fs ++ fs', p2, e)).
  { intros r. cbn [feed]. rewrite (bool_decide_eq_false_2 (CR = LF)), andb_false_r by done.
    rewrite bool_decide_eq_true_2 by done. cbn [orb].
    change (with_buf (with_after_cr p true) "") with (with_after_cr (with_buf p "") true).
    cbn [buf with_after_cr with_buf]. by rewrite Hc. }
  destruct k; cbn [ends_in_cr].
  - change (eol LFs +:+ rest) with (String LF rest). cbn [feed].
    assert (after_cr p = false) as -> by (destruct (after_cr p); [by specialize (Hk eq_refl)|done]).
    cbn [andb]. rewrite (bool_decide_eq_false_2 (LF = CR)) by done.
    rewrite bool_decide_eq_true_2 by done. cbn [orb].
    change (with_buf (with_after_cr p false) "") with (with_after_cr (with_buf p "") false).
    cbn [buf with_after_cr with_buf]. by rewrite Hc.
  - change (eol CRLFs +:+ rest) with (String CR (String LF rest)). rewrite Hcr. cbn [feed].
    rewrite bool_decide_eq_true_2 by done. done.
  - change (eol CRs +:+ rest) with (String CR rest). apply Hcr.
Qed.

Lemma pop_snoc s b : pop (s +:+ String b "") = s.
Proof.
  induction s as [|a s IH]; [done|]. change (String a s +:+ String b "") with (String a (s +:+ String b "")).
  cbn [pop]. rewrite IH. destruct (s +:+ String b "") eqn:E; [|done]. by destruct s.
Qed.

(** Between events: nothing pending but perhaps the memory of a CR. *)
Definition at_event (k : ending) (d : string) (p : SseParser) : Prop :=
  buf p = "" ∧ data p = d ∧ failure p = None ∧ (after_cr p = true → k = CRs).

Definition with_lines (lines : list string) : string :=
  foldr (λ l s, l +:+ String LF s) "" lines.

Lemma join_lines l lines : with_lines (l :: lines) = String.concat (String LF "") (l :: lines) +:+ String LF "".
Proof.
  revert l. induction lines as [|l' lines IH]; intros l; [done|].
  change (with_lines (l :: l' :: lines)) with (l +:+ String LF (with_lines (l' :: lines))).
  rewrite IH. cbn [String.concat]. by rewrite !append_assoc.
Qed.

Lemma feed_data_line k d p l rest :
  at_event k d p → all_bytes plain l = true → 6 + strlen l ≤ MAX_SSE_LINE_BYTES →
  strlen d + strlen l + 1 ≤ MAX_SSE_FRAME_BYTES →
  ∃ p', at_event k (d +:+ l +:+ String LF "") p' ∧ terminal p' = terminal p ∧
        feed p ("data: " +:+ l +:+ eol k +:+ rest) = feed p' rest.
Proof.
  intros (Hb & Hd & Hf & Ha) Hl Hline Hframe.
  exists (with_after_cr (with_data p (d +:+ l +:+ String LF "")) (ends_in_cr k)).
  split; [by split_and!; cbn; [| | |destruct k]|]. split; [done|].
  change ("data: " +:+ l +:+ eol k +:+ rest) with (("data: " +:+ l) +:+ eol k +:+ rest).
  assert (Hnd : strlen ("data: " +:+ l) = 6 + strlen l) by by rewrite strlen_app.
  rewrite feed_plain; [|exact Hl|rewrite Hb, Hnd; exact Hline].
  change (is_empty ("data: " +:+ l)) with false. rewrite Hb, andb_false_r.
  rewrite (feed_eol k _ _ [] (with_data p (d +:+ l +:+ String LF ""))).
  - cbn [with_after_cr]. match goal with |- context [feed ?q rest] => destruct (feed q rest) as [[fs p2] e] end. done.
  - done.
  - intros a. cbn [buf with_buf with_after_cr]. change ("" +:+ ("data: " +:+ l)) with ("data: " +:+ l).
    unfold consume_line. change (is_empty ("data: " +:+ l)) with false.
    change (strip_prefix "data:" ("data: " +:+ l)) with (Some (" " +:+ l)). cbn iota.
    change (default (" " +:+ l) (strip_prefix " " (" " +:+ l))) with l. unfold push_line.
    cbn [data with_data with_buf with_after_cr].
    rewrite Hd. rewrite (proj2 (Z.ltb_ge _ _)).
    + by destruct p; cbn in *; subst.
    + rewrite !strlen_app. change (strlen (String LF "")) with 1. lia.
Qed.

Lemma feed_blank k d p rest :
  at_event k (d +:+ String LF "") p →
  ∃ p', at_event k "" p' ∧ terminal p' = terminal p ∧
        feed p (eol k +:+ rest) = let '(fs, p2, e) := feed p' rest in (d :: fs, p2, e).
Proof.
  intros (Hb & Hd & Hf & Ha). exists (with_after_cr (with_data p "") (ends_in_cr k)).
  split; [by split_and!; cbn; [| | |destruct k]|]. split; [done|].
  rewrite (feed_eol k p rest [d] (with_data p "")); [done|done|].
  intros a. rewrite Hb. unfold consume_line. cbn [is_empty data with_after_cr with_buf]. rewrite Hd.
  assert (is_empty (d +:+ String LF "") = false) as -> by by destruct d.
  rewrite pop_snoc. by destruct p; cbn in *; subst.
Qed.

Lemma feed_lines k lines : ∀ d p rest,
  at_event k d p → Forall (λ l, all_bytes plain l = true ∧ 6 + strlen l ≤ MAX_SSE_LINE_BYTES) lines →
  strlen (d +:+ with_lines lines) ≤ MAX_SSE_FRAME_BYTES →
  ∃ p', at_event k (d +:+ with_lines lines) p' ∧ terminal p' = terminal p ∧
        feed p (encode k lines +:+ rest) = feed p' (eol k +:+ rest).
Proof.
  induction lines as [|l lines IH]; intros d p rest Hp Hl Hlen.
  - exists p. cbn [with_lines foldr]. by rewrite append_nil_r.
  - apply list.Forall_cons in Hl as [[Hpl Hll] Hls].
    change (with_lines (l :: lines)) with (l +:+ String LF (with_lines lines)) in *.
    assert (Hsplit : d +:+ l +:+ String LF (with_lines lines)
                     = (d +:+ l +:+ String LF "") +:+ with_lines lines) by by rewrite !append_assoc.
    rewrite Hsplit in *.
    assert (encode k (l :: lines) +:+ rest = "data: " +:+ l +:+ eol k +:+ (encode k lines +:+ rest)) as ->
      by (cbn [encode]; by rewrite !append_assoc).
    destruct (feed_data_line k d p l (encode k lines +:+ rest) Hp Hpl Hll) as (p1 & Hp1 & Ht1 & ->).
    { rewrite !strlen_app in Hlen. change (strlen (String LF "")) with 1 in Hlen.
      pose proof (strlen_nonneg (with_lines lines)). lia. }
    destruct (IH _ p1 rest Hp1 Hls Hlen) as (p2 & Hp2 & Ht2 & ->). exists p2.
    split; [done|]. split; [congruence|done].
Qed.

(** Lines a frame may hold. *)
Definition sendable (lines : list string) : Prop :=
  lines ≠ [] ∧
  Forall (λ l, all_bytes plain l = true ∧ 6 + strlen l ≤ MAX_SSE_LINE_BYTES) lines ∧
  strlen (String.concat (String LF "") lines) + 1 ≤ MAX_SSE_FRAME_BYTES.

Lemma feed_event k p lines rest :
  at_event k "" p → sendable lines →
  ∃ p', at_event k "" p' ∧ terminal p' = terminal p ∧
        feed p (encode k lines +:+ rest)
        = let '(fs, p2, e) := feed p' rest in (String.concat (String LF "") lines :: fs, p2, e).
Proof.
  intros Hp (Hne & Hl & Hlen). destruct lines as [|l lines]; [done|].
  destruct (feed_lines k (l :: lines) "" p rest Hp Hl) as (p1 & Hp1 & Ht1 & ->).
  { change ("" +:+ with_lines (l :: lines)) with (with_lines (l :: lines)).
    rewrite join_lines, strlen_app. change (strlen (String LF "")) with 1. lia. }
  change ("" +:+ with_lines (l :: lines)) with (with_lines (l :: lines)) in Hp1.
  rewrite join_lines in Hp1. destruct (feed_blank k _ p1 rest Hp1) as (p2 & Hp2 & Ht2 & ->).
  exists p2. split; [done|]. split; [congruence|done].
Qed.

(** What is framed is read back.  Events written as [data: ] lines and a blank line,
    with LF, CRLF or CR line endings, lines without line breaks and within the limits, come
    out of the parser one by one, their lines joined by LF; nothing is left behind. *)
Theorem frames_roundtrip (k : ending) (events : list (list string))
  (H : Forall sendable events) :
  ∃ p, push_raw_data initial (String.concat "" (encode k <$> events))
       = (String.concat (String LF "") <$> events, p, None) ∧ buf p = "" ∧ data p = "".
Proof.
  change (push_raw_data initial) with (feed initial).
  assert (Hcat : ∀ c cs, String.concat "" (c :: cs) = c +:+ String.concat "" cs).
  { intros c [|c' cs']; cbn; by rewrite ?append_nil_r. }
  assert (Hall : ∀ evs p, Forall sendable evs → at_event k "" p →
    ∃ p', feed p (String.concat "" (encode k <$> evs))
          = (String.concat (String LF "") <$> evs, p', None) ∧ at_event k "" p').
  { induction evs as [|ls evs IH]; intros p Hevs Hp; [by exists p|].
    apply list.Forall_cons in Hevs as [Hls Hevs]. rewrite !fmap_cons, Hcat.
    destruct (feed_event k p ls (String.concat "" (encode k <$> evs)) Hp Hls) as (p1 & Hp1 & _ & ->).
    destruct (IH p1 Hevs Hp1) as (p2 & -> & Hp2). by exists p2. }
  destruct (Hall events initial H) as (p & -> & Hb & Hd & _); [by split_and!|]. by exists p.
Qed.

Lemma frames_roundtrip_witness :
  ∃ p, push_raw_data initial (String.concat "" (encode CRLFs <$> [["a"; "b"]; [""]]))
       = ([String "a" (String LF "b"); ""], p, None) ∧ buf p = "" ∧ data p = "".
Proof.
  apply (frames_roundtrip CRLFs [["a"; "b"]; [""]]).
  repeat (constructor; [split_and!; [done|repeat constructor; by vm_compute|by vm_compute]|]). constructor.
Defined.
