(* ===== verification/Wire.v ===== *)
(** * Named events on the wire

    The event streams that go to clients name their events: a line with the name, a line with
    the payload, a blank line.  The parser of [Sse] reads such a stream back, whatever the
    names are, as long as every line is a line.

    The JSON library is the parameters [parse_json] and [print_json]. *)

From Stdlib Require Import Ascii.
From stdpp Require Import base numbers strings list.
From S2P Require Import Prelude RustStr Json Sse SseProps.
Import RustStr Sse.
Open Scope Z_scope.

Module Wire.

(** An event: its name and its payload. *)
Record Frame := { event_name : string; payload : Json.Value }.

(** [format!("event: {event}\ndata: {payload}\n\n")]. *)
Definition event_text (name data : string) : string :=
  "event: " +:+ name +:+ String LF "data: " +:+ data +:+ String LF (String LF "").

(** A name that is one line within the limit. *)
Definition line_name (name : string) : Prop :=
  all_bytes plain name = true ∧ 7 + strlen name ≤ MAX_SSE_LINE_BYTES.

Lemma feed_event_line p d name rest :
  at_event LFs d p → all_bytes plain name = true → 7 + strlen name ≤ MAX_SSE_LINE_BYTES →
  ∃ p', at_event LFs d p' ∧ terminal p' = terminal p ∧
        feed p ("event: " +:+ name +:+ eol LFs +:+ rest) = feed p' rest.
Proof.
  intros (Hb & Hd & Hf & Ha) Hl Hline. exists (with_after_cr p false).
  split; [by split_and!|]. split; [done|].
  change ("event: " +:+ name +:+ eol LFs +:+ rest) with (("event: " +:+ name) +:+ eol LFs +:+ rest).
  assert (Hnd : strlen ("event: " +:+ name) = 7 + strlen name) by by rewrite strlen_app.
  rewrite feed_plain; [|exact Hl|rewrite Hb, Hnd; exact Hline].
  change (is_empty ("event: " +:+ name)) with false. rewrite Hb, andb_false_r.
  rewrite (feed_eol LFs _ _ [] p).
  - cbn [with_after_cr ends_in_cr]. match goal with |- context [feed ?q rest] => destruct (feed q rest) as [[fs p2] e] end. done.
  - done.
  - intros a. cbn [buf with_buf with_after_cr]. destruct p. cbn in Hb. by subst.
Qed.

Section wire.
Context (parse_json : string → option Json.Value) (print_json : Json.Value → string).

(** What is relied on of the JSON library for a value: its text is one line within the
    limits, not the stream's end marker, and reads back. *)
Definition codec (v : Json.Value) : Prop :=
  parse_json (print_json v) = Some v ∧ all_bytes plain (print_json v) = true ∧
  print_json v ≠ "[DONE]" ∧ 6 + strlen (print_json v) ≤ MAX_SSE_LINE_BYTES.

Definition frame_text (f : Frame) : string := event_text (event_name f) (print_json (payload f)).
Definition wire (fs : list Frame) : string := String.concat "" (frame_text <$> fs).

Lemma feed_frame p f rest : at_event LFs "" p → line_name (event_name f) → codec (payload f) →
  ∃ p', at_event LFs "" p' ∧ terminal p' = terminal p ∧
    feed p (frame_text f +:+ rest)
    = let '(fs, p2, e) := feed p' rest in (print_json (payload f) :: fs, p2, e).
Proof.
  intros Hp [Hn1 Hn2] (_ & Hpl & _ & Hlen).
  assert (frame_text f +:+ rest = "event: " +:+ event_name f +:+ eol LFs +:+ (encode LFs [print_json (payload f)] +:+ rest)) as ->.
  { unfold frame_text, event_text. cbn [encode eol]. by rewrite !append_assoc. }
destruct (feed_event_line p "" (event_name f) (encode LFs [print_json (payload f)] +:+ rest) Hp Hn1 Hn2) as (p1 & Hp1 & Ht1 & ->).
  destruct (feed_event LFs p1 [print_json (payload f)] rest Hp1) as (p2 & Hp2 & Ht2 & ->).
  { split; [done|]. split; [by repeat constructor|]. cbn [String.concat].
    assert (MAX_SSE_LINE_BYTES ≤ MAX_SSE_FRAME_BYTES) by (by vm_compute). lia. }
  exists p2. split; [done|]. split; [congruence|done].
Qed.

Lemma feed_wire fs : ∀ p, at_event LFs "" p → Forall (λ f, line_name (event_name f)) fs → Forall codec (payload <$> fs) →
  ∃ p', feed p (wire fs) = (print_json ∘ payload <$> fs, p', None) ∧ at_event LFs "" p' ∧
        terminal p' = terminal p.
Proof.
  assert (Hcat : ∀ c cs, String.concat "" (c :: cs) = c +:+ String.concat "" cs).
  { intros c [|c' cs']; cbn; by rewrite ?append_nil_r. }
  unfold wire. induction fs as [|f fs IH]; intros p Hp Hn Hc.
  - exists p. by cbn.
  - apply list.Forall_cons in Hn as [Hf Hn]. rewrite fmap_cons in Hc. apply list.Forall_cons in Hc as [Hcf Hc].
    rewrite fmap_cons, Hcat. destruct (feed_frame p f (String.concat "" (frame_text <$> fs)) Hp Hf Hcf) as (p1 & Hp1 & Ht1 & ->).
    destruct (IH p1 Hp1 Hn Hc) as (p2 & -> & Hf2 & Ht2). exists p2. split; [done|]. split; [done|congruence].
Qed.
End wire.

End Wire.
