(* ===== verification/Render.v ===== *)
(** * Rendering a response (crates/gateway/src/compat/render.rs)

    The decoded events of an upstream response as an OpenAI chat stream ([ChunkRenderer]),
    as a Gemini stream ([GeminiChunkRenderer]) or as one answer ([Aggregator]).

    A frame is the payload it carries, or the closing [DONE]; [bytes_of] is what is sent.
    [serde_json] is the parameters [parse_json] and [print_json]; [recall] is the replay
    ledger's answer, when the request has one. *)

From Stdlib Require Import Ascii.
From stdpp Require Import base strings list.
From S2P Require Import Prelude RustStr Json Sse.
Import RustStr Sse JsonMake.
Open Scope Z_scope.

Module Render.

Inductive Frame := Payload (v : Json.Value) | Done.

Section bytes.
Context (print_json : Json.Value → string).
Definition bytes_of (f : Frame) : string :=
  let blank := String LF (String LF "") in
  match f with
  | Payload v => "data: " +:+ print_json v +:+ blank
  | Done => "data: [DONE]" +:+ blank
  end.
End bytes.

Definition usage_value (u : Usage) : Json.Value :=
  let value := obj [("prompt_tokens", uint (prompt_tokens u));
                    ("completion_tokens", uint (completion_tokens u));
                    ("total_tokens", uint (total_tokens u));
                    ("completion_tokens_details", obj [("reasoning_tokens", uint (reasoning_tokens u))])] in
  let value := if cached_tokens_known u
               then set2 "prompt_tokens_details" "cached_tokens" (uint (cached_tokens u)) value
               else value in
  if cache_write_tokens_known u
  then set2 "prompt_tokens_details" "cache_write_tokens" (uint (cache_write_tokens u)) value
  else value.

Record ToolAccumulator := {
  output_index : Z;
  call_id : string;
  name : string;
  arguments : string;
}.

(** [iter_mut().find(|t| t.output_index == i)] *)
Fixpoint update_tool (i : Z) (f : ToolAccumulator → ToolAccumulator) (ts : list ToolAccumulator)
  : option (list ToolAccumulator) :=
  match ts with
  | [] => None
  | t :: ts => if output_index t =? i then Some (f t :: ts) else cons t <$> update_tool i f ts
  end.

Definition add_args (delta : string) (t : ToolAccumulator) : ToolAccumulator :=
  {| output_index := output_index t; call_id := call_id t; name := name t;
     arguments := arguments t +:+ delta |}.
Definition opened (i : Z) (id nm : string) : ToolAccumulator :=
  {| output_index := i; call_id := id; name := nm; arguments := "" |}.

(** ** OpenAI chat chunks *)

Record ChunkRenderer := {
  cr_id : string;
  cr_model : string;
  cr_created : Z;
  include_usage : bool;
  role_sent : bool;
  saw_tool_call : bool;
  output_limit_reached : bool;
  terminated : bool;
  tool_slots : list Z;
}.

Definition chunk_new (model : string) (created : Z) (usage : bool) : ChunkRenderer :=
  {| cr_id := "chatcmpl-" +:+ show_i64 created; cr_model := model; cr_created := created;
     include_usage := usage; role_sent := false; saw_tool_call := false;
     output_limit_reached := false; terminated := false; tool_slots := [] |}.

Definition with_id (r : ChunkRenderer) (i : string) : ChunkRenderer :=
  {| cr_id := i; cr_model := cr_model r; cr_created := cr_created r; include_usage := include_usage r;
     role_sent := role_sent r; saw_tool_call := saw_tool_call r;
     output_limit_reached := output_limit_reached r; terminated := terminated r;
     tool_slots := tool_slots r |}.
Definition with_role (r : ChunkRenderer) : ChunkRenderer :=
  {| cr_id := cr_id r; cr_model := cr_model r; cr_created := cr_created r;
     include_usage := include_usage r; role_sent := true; saw_tool_call := saw_tool_call r;
     output_limit_reached := output_limit_reached r; terminated := terminated r;
     tool_slots := tool_slots r |}.
Definition with_slots (r : ChunkRenderer) (saw : bool) (slots : list Z) : ChunkRenderer :=
  {| cr_id := cr_id r; cr_model := cr_model r; cr_created := cr_created r;
     include_usage := include_usage r; role_sent := role_sent r; saw_tool_call := saw;
     output_limit_reached := output_limit_reached r; terminated := terminated r;
     tool_slots := slots |}.
Definition with_limit (r : ChunkRenderer) : ChunkRenderer :=
  {| cr_id := cr_id r; cr_model := cr_model r; cr_created := cr_created r;
     include_usage := include_usage r; role_sent := role_sent r; saw_tool_call := saw_tool_call r;
     output_limit_reached := true; terminated := terminated r; tool_slots := tool_slots r |}.
Definition with_end (r : ChunkRenderer) : ChunkRenderer :=
  {| cr_id := cr_id r; cr_model := cr_model r; cr_created := cr_created r;
     include_usage := include_usage r; role_sent := role_sent r; saw_tool_call := saw_tool_call r;
     output_limit_reached := output_limit_reached r; terminated := true; tool_slots := tool_slots r |}.

Definition slot (r : ChunkRenderer) (i : Z) : nat * list Z :=
  match position (λ j, j =? i) (tool_slots r) with
  | Some pos => (pos, tool_slots r)
  | None => (length (tool_slots r), tool_slots r ++ [i])
  end.

Definition chunk (r : ChunkRenderer) (delta : Json.Value) (finish_reason : option string) : Frame :=
  Payload (obj [("id", str (cr_id r)); ("object", str "chat.completion.chunk");
                ("created", int (cr_created r)); ("model", str (cr_model r));
                ("choices", Json.VArray [obj [("index", uint 0); ("delta", delta);
                                              ("finish_reason", opt_str finish_reason)]])]).

Definition role_prelude (r : ChunkRenderer) : list Frame * ChunkRenderer :=
  if role_sent r then ([], r)
  else ([chunk (with_role r) (obj [("role", str "assistant"); ("content", str "")]) None], with_role r).

Definition finish_reason_of (r : ChunkRenderer) : string :=
  if output_limit_reached r then "length" else if saw_tool_call r then "tool_calls" else "stop".

Definition usage_frame (r : ChunkRenderer) (usage : option Usage) : Frame :=
  Payload (obj [("id", str (cr_id r)); ("object", str "chat.completion.chunk");
                ("created", int (cr_created r)); ("model", str (cr_model r));
                ("choices", Json.VArray []);
                ("usage", match usage with Some u => usage_value u | None => nul end)]).

Definition render (r : ChunkRenderer) (event : CodexEvent) : list Frame * ChunkRenderer :=
  if terminated r then ([], r)
  else
    match event with
    | Created response_id =>
        ([], if is_empty response_id then r else with_id r ("chatcmpl-" +:+ response_id))
    | TextDelta text =>
        let '(out, r) := role_prelude r in
        (out ++ [chunk r (obj [("content", str text)]) None], r)
    | ReasoningDelta text =>
        let '(out, r) := role_prelude r in
        (out ++ [chunk r (obj [("reasoning_content", str text)]) None], r)
    | ReasoningSignature _ | ReasoningRedacted => ([], r)
    | ToolCallBegin i id nm =>
        let '(out, r) := role_prelude r in
        let '(index, slots) := slot r i in
        let r := with_slots r true slots in
        (out ++ [chunk r (obj [("tool_calls", Json.VArray [obj
                   [("index", uint (Z.of_nat index)); ("id", str id); ("type", str "function");
                    ("function", obj [("name", str nm); ("arguments", str "")])]])]) None], r)
    | ToolArgsDelta i delta =>
        let '(out, r) := role_prelude r in
        let '(index, slots) := slot r i in
        let r := with_slots r (saw_tool_call r) slots in
        (out ++ [chunk r (obj [("tool_calls", Json.VArray [obj
                   [("index", uint (Z.of_nat index));
                    ("function", obj [("arguments", str delta)])]])]) None], r)
    | OutputLimitReached => ([], with_limit r)
    | Completed usage =>
        let '(out, r) := role_prelude r in
        (out ++ [chunk r (obj []) (Some (finish_reason_of r))]
             ++ (if include_usage r then [usage_frame r usage] else []) ++ [Done], with_end r)
    | Failed message =>
        ([Payload (obj [("error", obj [("message", str message); ("type", str "upstream_error")])]); Done],
         with_end r)
    end.

Definition close_unterminated (r : ChunkRenderer) : list Frame * ChunkRenderer :=
  if terminated r then ([], r) else render r (Failed "upstream stream ended before completion").

(** The events of a response, in order. *)
Fixpoint renders (r : ChunkRenderer) (events : list CodexEvent) : list Frame * ChunkRenderer :=
  match events with
  | [] => ([], r)
  | e :: events =>
      let '(out, r) := render r e in
      let '(out', r) := renders r events in (out ++ out', r)
  end.

(** ** The whole answer *)

Record Aggregator := {
  ag_id : string;
  ag_model : string;
  ag_created : Z;
  text : string;
  reasoning : string;
  native_events : list CodexEvent;
  reasoning_signature : option string;
  tools : list ToolAccumulator;
  ag_usage : option Usage;
  ag_failure : option string;
  ag_limit : bool;
}.

Definition ag_new (model : string) (created : Z) : Aggregator :=
  {| ag_id := "chatcmpl-" +:+ show_i64 created; ag_model := model; ag_created := created; text := "";
     reasoning := ""; native_events := []; reasoning_signature := None; tools := [];
     ag_usage := None; ag_failure := None; ag_limit := false |}.

Definition ag_push (a : Aggregator) (event : CodexEvent) : Aggregator :=
  let '{| ag_id := i; ag_model := m; ag_created := c; text := t; reasoning := rs;
          native_events := n; reasoning_signature := sg; tools := ts; ag_usage := u;
          ag_failure := f; ag_limit := l |} := a in
  let n := n ++ [event] in
  match event with
  | Created response_id =>
      Build_Aggregator (if is_empty response_id then i else "chatcmpl-" +:+ response_id)
        m c t rs n sg ts u f l
  | TextDelta d => Build_Aggregator i m c (t +:+ d) rs n sg ts u f l
  | ReasoningDelta d => Build_Aggregator i m c t (rs +:+ d) n sg ts u f l
  | ToolCallBegin oi id nm => Build_Aggregator i m c t rs n sg (ts ++ [opened oi id nm]) u f l
  | ToolArgsDelta oi d =>
      Build_Aggregator i m c t rs n sg (default ts (update_tool oi (add_args d) ts)) u f l
  | ReasoningSignature s => Build_Aggregator i m c t rs n (Some s) ts u f l
  | ReasoningRedacted => Build_Aggregator i m c t rs n sg ts u f l
  | Completed usage => Build_Aggregator i m c t rs n sg ts usage f l
  | OutputLimitReached => Build_Aggregator i m c t rs n sg ts u f true
  | Failed message => Build_Aggregator i m c t rs n sg ts u (Some message) l
  end.

Definition with_usage (a : Aggregator) (payload : Json.Value) : Json.Value :=
  match ag_usage a with Some u => set "usage" (usage_value u) payload | None => payload end.

Definition into_text_completion (a : Aggregator) : Json.Value :=
  with_usage a (obj [("id", str (ag_id a)); ("object", str "text_completion");
    ("created", int (ag_created a)); ("model", str (ag_model a));
    ("choices", Json.VArray [obj [("index", uint 0); ("text", str (text a));
       ("finish_reason", str (if ag_limit a then "length" else "stop"))]])]).

Definition tool_value (t : ToolAccumulator) : Json.Value :=
  obj [("id", str (call_id t)); ("type", str "function");
       ("function", obj [("name", str (name t)); ("arguments", str (arguments t))])].

Definition ag_finish_reason (a : Aggregator) : string :=
  if ag_limit a then "length" else match tools a with [] => "stop" | _ => "tool_calls" end.

Definition message_of (a : Aggregator) : Json.Value :=
  let m := obj [("role", str "assistant"); ("content", nul)] in
  let m := if is_empty (reasoning a) then m else set "reasoning_content" (str (reasoning a)) m in
  let m := if is_empty (text a) then m else set "content" (str (text a)) m in
  match tools a with
  | [] => m
  | ts => set "tool_calls" (Json.VArray (tool_value <$> ts)) m
  end.

Definition into_completion (a : Aggregator) : Json.Value :=
  with_usage a (obj [("id", str (ag_id a)); ("object", str "chat.completion");
    ("created", int (ag_created a)); ("model", str (ag_model a));
    ("choices", Json.VArray [obj [("index", uint 0); ("message", message_of a);
       ("finish_reason", str (ag_finish_reason a))]])]).

(** ** Gemini frames *)

Section gemini.
Context (parse_json : string → option Json.Value) (print_json : Json.Value → string).
Context (recall : string → string → string → option string).

Record GeminiChunkRenderer := {
  g_id : string;
  g_model : string;
  g_terminated : bool;
  open_calls : list ToolAccumulator;
  g_limit : bool;
}.

Definition gemini_new (model : string) (created : Z) : GeminiChunkRenderer :=
  {| g_id := "resp-" +:+ show_i64 created; g_model := model; g_terminated := false;
     open_calls := []; g_limit := false |}.

Definition with_calls (g : GeminiChunkRenderer) (ts : list ToolAccumulator) : GeminiChunkRenderer :=
  {| g_id := g_id g; g_model := g_model g; g_terminated := g_terminated g; open_calls := ts;
     g_limit := g_limit g |}.
(** Terminated, no call open. *)
Definition ended (g : GeminiChunkRenderer) : GeminiChunkRenderer :=
  {| g_id := g_id g; g_model := g_model g; g_terminated := true; open_calls := [];
     g_limit := g_limit g |}.

Definition usage_metadata (u : Usage) : Json.Value :=
  let v := obj [("promptTokenCount", uint (prompt_tokens u));
                ("candidatesTokenCount", uint (completion_tokens u));
                ("totalTokenCount", uint (total_tokens u));
                ("thoughtsTokenCount", uint (reasoning_tokens u))] in
  if cached_tokens_known u then set "cachedContentTokenCount" (uint (cached_tokens u)) v else v.

Definition frame_for (g : GeminiChunkRenderer) (parts : list Json.Value) (fin : option string)
    (usage : option Usage) : Frame :=
  let candidate := obj [("content", obj [("role", str "model"); ("parts", Json.VArray parts)])] in
  let candidate := match fin with
                   | Some reason => set "index" (uint 0) (set "finishReason" (str reason) candidate)
                   | None => candidate
                   end in
  let payload := obj [("candidates", Json.VArray [candidate]); ("modelVersion", str (g_model g));
                      ("responseId", str (g_id g))] in
  Payload match usage with
          | Some u => set "usageMetadata" (usage_metadata u) payload
          | None => payload
          end.

(** The arguments of a call as an object, if they are one. *)
Definition parsed_arguments (t : ToolAccumulator) : option Json.Value :=
  if is_empty (trim (arguments t)) then Some (obj [])
  else match parse_json (arguments t) with
       | Some (Json.VObject m) => Some (Json.VObject m)
       | _ => None
       end.

Definition call_part (t : ToolAccumulator) (args : Json.Value) : Json.Value :=
  let part := obj [("functionCall", obj [("id", str (call_id t)); ("name", str (name t));
                                         ("args", args)])] in
  match recall (call_id t) (name t) (print_json args) with
  | Some sig => set "thoughtSignature" (str sig) part
  | None => part
  end.

Definition invalid_arguments (t : ToolAccumulator) : Frame :=
  Payload (obj [("error", obj [("code", uint 400);
    ("message", str ("invalid functionCall arguments for tool '" +:+ name t
                     +:+ "': must be a JSON object"));
    ("status", str "INVALID_ARGUMENT")])]).

(** The loop of [close_open_calls]; true when it ended the stream. *)
Fixpoint close_calls (g : GeminiChunkRenderer) (ts : list ToolAccumulator) : list Frame * bool :=
  match ts with
  | [] => ([], false)
  | t :: ts =>
      match parsed_arguments t with
      | None => if g_limit g then close_calls g ts else ([invalid_arguments t], true)
      | Some args =>
          let '(out, stop) := close_calls g ts in (frame_for g [call_part t args] None None :: out, stop)
      end
  end.

Definition close_open_calls (g : GeminiChunkRenderer) : list Frame * GeminiChunkRenderer :=
  if g_terminated g then ([], g)
  else let '(out, stop) := close_calls g (open_calls g) in
       (out, if stop then ended g else with_calls g []).

Definition gemini_finish (g : GeminiChunkRenderer) (usage : option Usage)
  : list Frame * GeminiChunkRenderer :=
  let '(out, g) := close_open_calls g in
  if g_terminated g then (out, g)
  else (out ++ [frame_for g [] (Some (if g_limit g then "MAX_TOKENS" else "STOP")) usage], ended g).

Definition reopen (i : Z) (id nm : string) (t : ToolAccumulator) : ToolAccumulator :=
  {| output_index := output_index t; call_id := id; name := nm; arguments := arguments t |}.

Definition gemini_render (g : GeminiChunkRenderer) (event : CodexEvent)
  : list Frame * GeminiChunkRenderer :=
  if g_terminated g then ([], g)
  else
    match event with
    | Created response_id =>
        ([], if is_empty response_id then g
             else {| g_id := response_id; g_model := g_model g; g_terminated := g_terminated g;
                     open_calls := open_calls g; g_limit := g_limit g |})
    | TextDelta t => ([frame_for g [obj [("text", str t)]] None None], g)
    | ReasoningDelta t =>
        ([frame_for g [obj [("text", str t); ("thought", Json.VBool true)]] None None], g)
    | ReasoningSignature sig => ([frame_for g [obj [("thoughtSignature", str sig)]] None None], g)
    | ReasoningRedacted => ([], g)
    | ToolCallBegin i id nm =>
        ([], with_calls g match update_tool i (reopen i id nm) (open_calls g) with
                          | Some ts => ts
                          | None => open_calls g ++ [opened i id nm]
                          end)
    | ToolArgsDelta i delta =>
        ([], with_calls g (default (open_calls g) (update_tool i (add_args delta) (open_calls g))))
    | OutputLimitReached =>
        ([], {| g_id := g_id g; g_model := g_model g; g_terminated := g_terminated g;
                open_calls := open_calls g; g_limit := true |})
    | Completed usage => gemini_finish g usage
    | Failed message =>
        ([Payload (obj [("error", obj [("code", uint 500); ("message", str message);
                                       ("status", str "INTERNAL")])])], ended g)
    end.

Definition gemini_close (g : GeminiChunkRenderer) : list Frame * GeminiChunkRenderer :=
  if g_terminated g then ([], g) else gemini_finish g None.

Fixpoint gemini_renders (g : GeminiChunkRenderer) (events : list CodexEvent)
  : list Frame * GeminiChunkRenderer :=
  match events with
  | [] => ([], g)
  | e :: events =>
      let '(out, g) := gemini_render g e in
      let '(out', g) := gemini_renders g events in (out ++ out', g)
  end.

(** [into_gemini] reads the frames back: an error, or the parts they carry. *)
Definition error_of (v : Json.Value) : option string := str_at ["error"; "message"] v.
Definition parts_of (v : Json.Value) : list Json.Value :=
  match Json.get "candidates" v with
  | Some (Json.VArray (c :: _)) =>
      default [] (Json.pointer ["content"; "parts"] c ≫= Json.as_array)
  | _ => []
  end.

(** [serde_json::from_slice(&frame[6..]).expect(..)]; a panic is the outer [None]. *)
Definition reread (f : Frame) : option Json.Value :=
  match f with
  | Payload v => parse_json (print_json v +:+ String LF (String LF ""))
  | Done => parse_json ("[DONE]" +:+ String LF (String LF ""))
  end.

Fixpoint collect (fs : list Frame) : option (result string (list Json.Value)) :=
  match fs with
  | [] => Some (Ok [])
  | f :: fs =>
      v ← reread f;
      match error_of v with
      | Some e => Some (Err e)
      | None =>
          match collect fs with
          | Some (Ok parts) => Some (Ok (parts_of v ++ parts))
          | other => other
          end
      end
  end.

Definition into_gemini (a : Aggregator) : option (result string Json.Value) :=
  let '(fs, g) := gemini_renders (gemini_new (ag_model a) (ag_created a)) (native_events a) in
  let '(fs', _) := gemini_close g in
  match collect (fs ++ fs') with
  | None => None
  | Some (Err e) => Some (Err e)
  | Some (Ok parts) =>
      let payload := obj [("candidates", Json.VArray [obj
          [("content", obj [("role", str "model"); ("parts", Json.VArray parts)]);
           ("finishReason", str (if ag_limit a then "MAX_TOKENS" else "STOP")); ("index", uint 0)]]);
        ("modelVersion", str (ag_model a)); ("responseId", str (ag_id a))] in
      Some (Ok match ag_usage a with
               | Some u => set "usageMetadata" (usage_metadata u) payload
               | None => payload
               end)
  end.
End gemini.

End Render.
