(* ===== verification/RenderProps.v ===== *)
(** * Streaming and aggregating agree

    A client that follows the chat stream ends with the text, the reasoning, the tool calls
    and the finish reason of the aggregated answer; and every stream closes with exactly one
    end marker, whatever bytes the upstream sent. *)

From Stdlib Require Import Ascii.
From stdpp Require Import base strings list.
From S2P Require Import Prelude RustStr Json Sse SseProps Render.
Import RustStr Sse JsonMake Render.
Open Scope Z_scope.

(** ** A chat client *)

(** What a client of the streaming API keeps: deltas are appended, a tool call delta goes to
    the call at its index and opens it if it is the next one. *)
Record Client := {
  c_id : string;
  c_text : string;
  c_reasoning : string;
  c_tools : list (string * string * string);
  c_finish : option string;
  c_usage : option Json.Value;
  c_error : option string;
  c_done : nat;
}.

Definition fresh_client : Client :=
  {| c_id := ""; c_text := ""; c_reasoning := ""; c_tools := []; c_finish := None;
     c_usage := None; c_error := None; c_done := 0 |}.

Definition append_call (ts : list (string * string * string)) (call : Json.Value)
  : list (string * string * string) :=
  let i := Z.to_nat (default 0 (Json.get "index" call ≫= Json.as_u64)) in
  let args := default "" (str_at ["function"; "arguments"] call) in
  match ts !! i with
  | Some (id, nm, old) => <[i := (id, nm, old +:+ args)]> ts
  | None => ts ++ [(default "" (str_at ["id"] call),
                    default "" (str_at ["function"; "name"] call), args)]
  end.

Definition see_delta (c : Client) (id : string) (delta : Json.Value) (fin : option string) : Client :=
  {| c_id := id;
     c_text := c_text c +:+ default "" (str_at ["content"] delta);
     c_reasoning := c_reasoning c +:+ default "" (str_at ["reasoning_content"] delta);
     c_tools := match Json.get "tool_calls" delta with
                | Some (Json.VArray calls) => foldl append_call (c_tools c) calls
                | _ => c_tools c
                end;
     c_finish := match fin with Some f => Some f | None => c_finish c end;
     c_usage := c_usage c; c_error := c_error c; c_done := c_done c |}.

Definition see (c : Client) (f : Frame) : Client :=
  match f with
  | Done => {| c_id := c_id c; c_text := c_text c; c_reasoning := c_reasoning c;
               c_tools := c_tools c; c_finish := c_finish c; c_usage := c_usage c;
               c_error := c_error c; c_done := S (c_done c) |}
  | Payload v =>
      match Json.get "error" v, Json.get "choices" v with
      | Some e, _ =>
          {| c_id := c_id c; c_text := c_text c; c_reasoning := c_reasoning c;
             c_tools := c_tools c; c_finish := c_finish c; c_usage := c_usage c;
             c_error := str_at ["message"] e; c_done := c_done c |}
      | None, Some (Json.VArray (choice :: _)) =>
          see_delta c (default "" (str_at ["id"] v)) (default Json.Null (Json.get "delta" choice))
            (str_at ["finish_reason"] choice)
      | None, _ =>
          {| c_id := c_id c; c_text := c_text c; c_reasoning := c_reasoning c;
             c_tools := c_tools c; c_finish := c_finish c; c_usage := Json.get "usage" v;
             c_error := c_error c; c_done := c_done c |}
      end
  end.

Definition watch (c : Client) (fs : list Frame) : Client := foldl see c fs.

Lemma see_chunk c r delta fin : see c (chunk r delta fin) = see_delta c (cr_id r) delta fin.
Proof. destruct fin; reflexivity. Qed.

(** ** The simulation *)

Definition calls (ts : list ToolAccumulator) : list (string * string * string) :=
  (λ t, (call_id t, name t, arguments t)) <$> ts.

Record matches (r : ChunkRenderer) (c : Client) (a : Aggregator) : Prop := {
  m_live : terminated r = false;
  m_id : cr_id r = ag_id a;
  m_text : c_text c = text a;
  m_reasoning : c_reasoning c = reasoning a;
  m_tools : c_tools c = calls (tools a);
  m_slots : tool_slots r = output_index <$> tools a;
  m_saw : saw_tool_call r = negb (bool_decide (tools a = []));
  m_limit : output_limit_reached r = ag_limit a;
  m_open : c_finish c = None ∧ c_error c = None ∧ c_done c = 0%nat;
}.

(** A tool call starts once, before its arguments. *)
Fixpoint tools_ok (open : list Z) (events : list CodexEvent) : Prop :=
  match events with
  | [] => True
  | ToolCallBegin i _ _ :: events => (i ∉ open) ∧ tools_ok (open ++ [i]) events
  | ToolArgsDelta i _ :: events => i ∈ open ∧ tools_ok open events
  | _ :: events => tools_ok open events
  end.

Lemma matches_prelude r c a out r' :
  matches r c a → role_prelude r = (out, r') → matches r' (watch c out) a.
Proof.
  intros Hm. unfold role_prelude. destruct (role_sent r); intros [= <- <-]; [done|].
  cbn [watch foldl]. rewrite see_chunk. destruct Hm as [H1 H2 H3 H4 H5 H6 H7 H8 H9].
  split; try done; cbn; by rewrite ?append_nil_r.
Qed.

Lemma update_tool_position i f ts n :
  position (λ j, j =? i) (output_index <$> ts) = Some n → ∃ t, ts !! n = Some t ∧
  update_tool i f ts = Some (<[n := f t]> ts).
Proof.
  revert n. induction ts as [|t ts IH]; intros n; [done|]. rewrite fmap_cons. cbn [position update_tool].
  destruct (output_index t =? i); [intros [= <-]; by exists t|].
  destruct (position _ _) as [m|] eqn:E; [|done]. cbn. intros [= <-].
  destruct (IH m eq_refl) as (t' & Ht & ->). by exists t'.
Qed.

Lemma position_fresh (i : Z) l : i ∉ l → position (λ j, j =? i) l = None.
Proof. intros H. apply position_None. intros x Hx. apply Z.eqb_neq. congruence. Qed.

Lemma position_elem (i : Z) l : i ∈ l → ∃ n, position (λ j, j =? i) l = Some n.
Proof.
  intros H. destruct (position (λ j, j =? i) l) as [n|] eqn:E; [by exists n|].
  rewrite position_None in E. specialize (E i H). lia.
Qed.

Lemma watch_snoc c out f : watch c (out ++ [f]) = see (watch c out) f.
Proof. unfold watch. by rewrite foldl_app. Qed.

Lemma calls_insert n f ts : calls (<[n := f]> ts) = <[n := (call_id f, name f, arguments f)]> (calls ts).
Proof. unfold calls. by rewrite list_fmap_insert. Qed.

Definition begin_delta (z : Z) (id nm : string) : Json.Value :=
  obj [("tool_calls", Json.VArray [obj
       [("index", uint z); ("id", str id); ("type", str "function");
        ("function", obj [("name", str nm); ("arguments", str "")])]])].
Definition args_delta (z : Z) (d : string) : Json.Value :=
  obj [("tool_calls", Json.VArray [obj
       [("index", uint z); ("function", obj [("arguments", str d)])]])].

Lemma see_text c i t : see_delta c i (obj [("content", str t)]) None =
  {| c_id := i; c_text := c_text c +:+ t; c_reasoning := c_reasoning c; c_tools := c_tools c;
     c_finish := c_finish c; c_usage := c_usage c; c_error := c_error c; c_done := c_done c |}.
Proof. rewrite <- (append_nil_r (c_reasoning c)). reflexivity. Qed.

Lemma see_reasoning c i t : see_delta c i (obj [("reasoning_content", str t)]) None =
  {| c_id := i; c_text := c_text c; c_reasoning := c_reasoning c +:+ t; c_tools := c_tools c;
     c_finish := c_finish c; c_usage := c_usage c; c_error := c_error c; c_done := c_done c |}.
Proof. rewrite <- (append_nil_r (c_text c)). reflexivity. Qed.

Lemma see_end c i f : see_delta c i (obj []) (Some f) =
  {| c_id := i; c_text := c_text c; c_reasoning := c_reasoning c; c_tools := c_tools c;
     c_finish := Some f; c_usage := c_usage c; c_error := c_error c; c_done := c_done c |}.
Proof. rewrite <- (append_nil_r (c_text c)), <- (append_nil_r (c_reasoning c)). reflexivity. Qed.

Lemma see_usage_frame c r u : see c (usage_frame r u) =
  {| c_id := c_id c; c_text := c_text c; c_reasoning := c_reasoning c; c_tools := c_tools c;
     c_finish := c_finish c; c_error := c_error c; c_done := c_done c;
     c_usage := Some match u with Some u => usage_value u | None => nul end |}.
Proof. destruct u; reflexivity. Qed.

Lemma see_begin c i z id nm : c_tools c !! Z.to_nat z = None →
  see_delta c i (begin_delta z id nm) None =
  {| c_id := i; c_text := c_text c; c_reasoning := c_reasoning c;
     c_tools := c_tools c ++ [(id, nm, "")]; c_finish := c_finish c; c_usage := c_usage c;
     c_error := c_error c; c_done := c_done c |}.
Proof.
  intros Hz. transitivity
    {| c_id := i; c_text := c_text c +:+ ""; c_reasoning := c_reasoning c +:+ "";
       c_tools := match c_tools c !! Z.to_nat z with
                  | Some (id', nm', old) => <[Z.to_nat z := (id', nm', old +:+ "")]> (c_tools c)
                  | None => c_tools c ++ [(id, nm, "")]
                  end; c_finish := c_finish c; c_usage := c_usage c;
       c_error := c_error c; c_done := c_done c |}; [reflexivity|].
  by rewrite Hz, !append_nil_r.
Qed.

Lemma see_args c i z d id nm old : c_tools c !! Z.to_nat z = Some (id, nm, old) →
  see_delta c i (args_delta z d) None =
  {| c_id := i; c_text := c_text c; c_reasoning := c_reasoning c;
     c_tools := <[Z.to_nat z := (id, nm, old +:+ d)]> (c_tools c); c_finish := c_finish c;
     c_usage := c_usage c; c_error := c_error c; c_done := c_done c |}.
Proof.
  intros Hz. transitivity
    {| c_id := i; c_text := c_text c +:+ ""; c_reasoning := c_reasoning c +:+ "";
       c_tools := match c_tools c !! Z.to_nat z with
                  | Some (id', nm', old) => <[Z.to_nat z := (id', nm', old +:+ d)]> (c_tools c)
                  | None => c_tools c ++ [("", "", d)]
                  end; c_finish := c_finish c; c_usage := c_usage c;
       c_error := c_error c; c_done := c_done c |}; [reflexivity|].
  by rewrite Hz, !append_nil_r.
Qed.

Lemma matches_begin r c a i id nm :
  matches r c a → i ∉ tool_slots r →
  matches (with_slots r true (tool_slots r ++ [i]))
    (see_delta c (cr_id r) (begin_delta (Z.of_nat (length (tool_slots r))) id nm) None)
    (ag_push a (ToolCallBegin i id nm)).
Proof.
  intros [H1 H2 H3 H4 H5 H6 H7 H8 H9] Hi. destruct a as [ai am ac at_ ar an asg ats au af al]. cbn in *.
  assert (Hlen : c_tools c !! length (tool_slots r) = None).
  { apply lookup_ge_None. rewrite H5, H6. unfold calls. by rewrite !length_fmap. }
  rewrite see_begin by (by rewrite Nat2Z.id). split; cbn; try done.
  - unfold calls. by rewrite fmap_app, H5.
  - by rewrite fmap_app, H6.
  - rewrite bool_decide_eq_false_2; [done|]. by destruct ats.
Qed.

Lemma matches_args r c a i d n :
  matches r c a → position (λ j, j =? i) (tool_slots r) = Some n →
  matches r (see_delta c (cr_id r) (args_delta (Z.of_nat n) d) None)
    (ag_push a (ToolArgsDelta i d)).
Proof.
  intros [H1 H2 H3 H4 H5 H6 H7 H8 H9] Hn. destruct a as [ai am ac at_ ar an asg ats au af al]. cbn in *.
  rewrite H6 in Hn. destruct (update_tool_position i (add_args d) ats n Hn) as (t & Ht & Hu).
  rewrite (see_args _ _ _ _ (call_id t) (name t) (arguments t))
    by (by rewrite Nat2Z.id, H5; unfold calls; rewrite list_lookup_fmap, Ht).
  split; cbn; rewrite ?Hu, ?Nat2Z.id; try done; cbn.
  - by rewrite calls_insert, H5.
  - rewrite list_fmap_insert, H6. cbn. symmetry. apply list_insert_id. by rewrite list_lookup_fmap, Ht.
  - rewrite H7. f_equal. apply bool_decide_ext.
    split; intros E; apply length_zero_iff_nil; apply length_zero_iff_nil in E;
      by rewrite ?length_insert in *.
Qed.

Lemma matches_step r c a e out r' :
  matches r c a → is_terminal e = false → tools_ok (tool_slots r) [e] → render r e = (out, r') →
  matches r' (watch c out) (ag_push a e).
Proof.
  intros Hm He Hok. unfold render. rewrite (m_live _ _ _ Hm).
  destruct (role_prelude r) as [o r1] eqn:Ep. pose proof (matches_prelude _ _ _ _ _ Hm Ep) as H.
  assert (Hs : tool_slots r1 = tool_slots r).
  { unfold role_prelude in Ep. destruct (role_sent r); by injection Ep as <- <-. }
  assert (Hw : saw_tool_call r1 = saw_tool_call r).
  { unfold role_prelude in Ep. destruct (role_sent r); by injection Ep as <- <-. }
  destruct e as [i|t|t|s| |i id nm|i d| |u|m]; try done.
  1,4,5,8: intros [= <- <-]; destruct Hm as [H1 H2 H3 H4 H5 H6 H7 H8 H9], a; cbn in *;
    try destruct (is_empty _); by split.
  1,2: intros [= <- <-]; rewrite watch_snoc, see_chunk, ?see_text, ?see_reasoning;
    destruct H as [H1 H2 H3 H4 H5 H6 H7 H8 H9], a; cbn in *; split; cbn; congruence.
  - cbn in Hok. destruct Hok as [Hok _]. unfold slot. rewrite position_fresh by (by rewrite Hs).
    intros [= <- <-]. rewrite watch_snoc, see_chunk. refine (matches_begin r1 (watch c o) a i id nm H _). by rewrite Hs.
  - cbn in Hok. destruct Hok as [Hok _]. rewrite <- Hs in Hok.
    destruct (position_elem _ _ Hok) as [n Hn]. unfold slot. rewrite Hn.
    intros [= <- <-]. rewrite watch_snoc, see_chunk.
    assert (with_slots r1 (saw_tool_call r1) (tool_slots r1) = r1) as -> by by destruct r1.
    exact (matches_args r1 (watch c o) a i d n H Hn).
Qed.

Lemma matches_new model created usage :
  matches (chunk_new model created usage) fresh_client (ag_new model created).
Proof. by split. Qed.

Lemma render_slots r e out r' :
  tools_ok (tool_slots r) [e] → render r e = (out, r') → terminated r = false →
  is_terminal e = false →
  tool_slots r' = match e with ToolCallBegin i _ _ => tool_slots r ++ [i] | _ => tool_slots r end.
Proof.
  intros Hok Hr Ht He. unfold render in Hr. rewrite Ht in Hr.
  destruct (role_prelude r) as [o r1] eqn:Ep.
  assert (Hs : tool_slots r1 = tool_slots r).
  { unfold role_prelude in Ep. destruct (role_sent r); by injection Ep as <- <-. }
  destruct e as [i|t|t|s| |i id nm|i d| |u|m]; try done; cbn in Hok.
  1: injection Hr as <- <-; by destruct (is_empty i).
  1,2,3,4,7: injection Hr as <- <-; done.
  - unfold slot in Hr. rewrite position_fresh in Hr by (rewrite Hs; naive_solver).
    injection Hr as <- <-. cbn. by rewrite Hs.
  - unfold slot in Hr. destruct (position_elem i (tool_slots r1)) as [n Hn]; [rewrite Hs; naive_solver|].
    rewrite Hn in Hr. by injection Hr as <- <-.
Qed.

Lemma tools_ok_cons open e es : tools_ok open (e :: es) →
  tools_ok open [e] ∧
  tools_ok (match e with ToolCallBegin i _ _ => open ++ [i] | _ => open end) es.
Proof. destruct e; cbn; naive_solver. Qed.

Lemma matches_renders es : ∀ r c a out r',
  matches r c a → Forall (λ e, is_terminal e = false) es → tools_ok (tool_slots r) es →
  renders r es = (out, r') → matches r' (watch c out) (foldl ag_push a es).
Proof.
  induction es as [|e es IH]; intros r c a out r' Hm Hes Hok; cbn [renders].
  { by intros [= <- <-]. }
  apply list.Forall_cons in Hes as [He Hes]. apply tools_ok_cons in Hok as [Hok1 Hok].
  destruct (render r e) as [o1 r1] eqn:E1. destruct (renders r1 es) as [o2 r2] eqn:E2.
  intros [= <- <-]. unfold watch. rewrite foldl_app. cbn [foldl]. eapply IH; [|done| |done].
  - by eapply matches_step.
  - by rewrite (render_slots _ _ _ _ Hok1 E1 (m_live _ _ _ Hm) He).
Qed.

Lemma renders_app es1 : ∀ r es2,
  renders r (es1 ++ es2) =
  let '(o1, r1) := renders r es1 in let '(o2, r2) := renders r1 es2 in (o1 ++ o2, r2).
Proof.
  induction es1 as [|e es1 IH]; intros r es2; cbn [app renders]; [by destruct (renders r es2)|].
  destruct (render r e) as [o r1]. rewrite IH. destruct (renders r1 es1) as [o1 r2].
  destruct (renders r2 es2) as [o2 r3]. by rewrite app_assoc.
Qed.

Lemma finish_reasons r c a u :
  matches r c a → finish_reason_of r = ag_finish_reason (ag_push a (Completed u)).
Proof.
  intros [H1 H2 H3 H4 H5 H6 H7 H8 H9]. unfold finish_reason_of, ag_finish_reason. rewrite H7, H8.
  destruct a as [ai am ac at_ ar an asg ats au af al]. cbn. destruct al; [done|]. by destruct ats.
Qed.

(** C25: Streaming and aggregating agree.  For the events of a response - in which every
    tool call starts once, before its arguments - a client that follows the rendered chat
    stream up to its end sees what the aggregated completion says: the same id, text,
    reasoning and tool calls with their arguments, the same finish reason or the same
    error, the usage when asked for, and one end marker. *)
Theorem stream_matches_aggregate (model : string) (created : Z) (usage : bool)
  (es : list CodexEvent) (last : CodexEvent)
  (Hes : Forall (λ e, is_terminal e = false) es) (Hlast : is_terminal last = true)
  (Htools : tools_ok [] es) :
  let c := watch fresh_client (renders (chunk_new model created usage) (es ++ [last])).1 in
  let a := foldl ag_push (ag_new model created) (es ++ [last]) in
  c_text c = text a ∧ c_reasoning c = reasoning a ∧
  c_tools c = (λ t, (call_id t, name t, arguments t)) <$> tools a ∧
  c_error c = ag_failure a ∧ c_done c = 1%nat ∧
  match last with
  | Completed u =>
      c_id c = ag_id a ∧ c_finish c = Some (ag_finish_reason a) ∧
      (usage = true → c_usage c = Some match ag_usage a with Some u => usage_value u | None => nul end)
  | _ => c_finish c = None
  end.
Proof.
  cbn zeta. rewrite renders_app, foldl_app.
  destruct (renders (chunk_new model created usage) es) as [o r] eqn:Er.
  pose proof (matches_renders es _ _ _ o r (matches_new model created usage) Hes Htools Er) as Hm.
  assert (Hfail : ag_failure (foldl ag_push (ag_new model created) es) = None).
  { clear -Hes. assert (H : ∀ a, ag_failure a = None → ag_failure (foldl ag_push a es) = None).
    { induction Hes as [|e es He Hes IH]; intros a Ha; [done|]. cbn. apply IH. by destruct e, a. }
    by apply H. }
  assert (Hu : include_usage r = usage).
  { clear -Er. revert o r Er. assert (H : ∀ es r o r', renders r es = (o, r') → include_usage r' = include_usage r).
    { clear. induction es as [|e es IH]; intros r o r'; cbn; [by intros [= <- <-]|].
      destruct (render r e) as [o1 r1] eqn:E1. destruct (renders r1 es) as [o2 r2] eqn:E2.
      intros [= <- <-]. rewrite (IH _ _ _ E2). unfold render, role_prelude, slot in E1.
      repeat case_match; simplify_eq; done. }
    intros o r Er. by rewrite (H _ _ _ _ Er). }
  set (a := foldl ag_push (ag_new model created) es) in *. cbn [foldl renders].
  destruct (render r last) as [o1 r1] eqn:E1. cbn [fst]. rewrite app_nil_r.
  unfold watch. rewrite foldl_app. fold (watch fresh_client o). fold (watch (watch fresh_client o) o1).
  set (c := watch fresh_client o) in *. clearbody c a. clear Er.
  unfold render in E1. rewrite (m_live _ _ _ Hm) in E1. destruct last as [| | | | | | | |u|m]; try done.
  - destruct (role_prelude r) as [o2 r2] eqn:Ep. pose proof (matches_prelude _ _ _ _ _ Hm Ep) as H2.
    assert (Hu2 : include_usage r2 = usage).
    { unfold role_prelude in Ep. destruct (role_sent r); by injection Ep as <- <-. }
    injection E1 as <- <-. unfold watch in *. rewrite foldl_app. set (c2 := foldl see c o2) in *. clearbody c2.
    cbn [app foldl]. rewrite see_chunk, see_end, Hu2. rewrite (finish_reasons _ _ _ u H2).
    destruct H2 as [H1 H2 H3 H4 H5 H6 H7 H8 (H9 & H10 & H11)], a. cbn in *.
    destruct usage; cbn [app foldl]; rewrite ?see_usage_frame; cbn; split_and!; congruence.
  - injection E1 as <- <-. destruct Hm as [H1 H2 H3 H4 H5 H6 H7 H8 (H9 & H10 & H11)], a.
    cbn in *. rewrite H11. split_and!; done.
Qed.

Lemma stream_matches_witness :
  let es := [Created "r"; TextDelta "hi"; ToolCallBegin 3 "call" "f"; ToolArgsDelta 3 "{}"] in
  let c := watch fresh_client (renders (chunk_new "m" 7 false) (es ++ [Completed None])).1 in
  let a := foldl ag_push (ag_new "m" 7) (es ++ [Completed None]) in
  c_tools c = [("call", "f", "{}")] ∧
  c_text c = text a ∧ c_reasoning c = reasoning a ∧
  c_tools c = (λ t, (call_id t, name t, arguments t)) <$> tools a ∧
  c_error c = ag_failure a ∧ c_done c = 1%nat ∧
  c_id c = ag_id a ∧ c_finish c = Some (ag_finish_reason a) ∧
  (false = true → c_usage c = Some match ag_usage a with Some u => usage_value u | None => nul end).
Proof.
  cbn zeta. split; [vm_compute; reflexivity|].
  apply (stream_matches_aggregate "m" 7 false
           [Created "r"; TextDelta "hi"; ToolCallBegin 3 "call" "f"; ToolArgsDelta 3 "{}"] (Completed None)).
  - repeat constructor.
  - reflexivity.
  - cbn. split_and!; [by intros ?%elem_of_nil|left|done].
Defined.

(** ** Ends *)

Section pipeline.
Context (parse_json : string → option Json.Value).

Definition is_done (f : Frame) : bool := match f with Done => true | Payload _ => false end.

Lemma render_shape r e out r' : terminated r = false → render r e = (out, r') →
  if is_terminal e then terminated r' = true ∧ ∃ fs, out = fs ++ [Done] ∧ Forall (λ f, is_done f = false) fs
  else terminated r' = false ∧ Forall (λ f, is_done f = false) out.
Proof.
  intros Ht. unfold render, role_prelude, slot. rewrite Ht.
  assert (Hc : ∀ r d f, is_done (chunk r d f) = false) by done.
  destruct e; cbn [is_terminal];
    repeat case_match; intros; simplify_eq; cbn [app];
    try (split; [done|]; rewrite ?list.Forall_cons; by repeat split); try (by split);
    (split; [done|]).
  all: try (by eexists [_]; split; [reflexivity|repeat constructor]).
  all: try (by eexists [_; _]; split; [reflexivity|repeat constructor]).
  all: try (by eexists [_; _; _]; split; [reflexivity|repeat constructor]).
Qed.

Lemma renders_terminated r es : terminated r = true → renders r es = ([], r).
Proof.
  intros Ht. induction es as [|e es IH]; [done|]. cbn. unfold render at 1. by rewrite Ht, IH.
Qed.

Lemma renders_open es : ∀ r out r', terminated r = false → Forall (λ e, is_terminal e = false) es →
  renders r es = (out, r') → terminated r' = false ∧ Forall (λ f, is_done f = false) out.
Proof.
  induction es as [|e es IH]; intros r out r' Ht Hes; cbn; [by intros [= <- <-]|].
  apply list.Forall_cons in Hes as [He Hes].
  destruct (render r e) as [o1 r1] eqn:E1. destruct (renders r1 es) as [o2 r2] eqn:E2.
  intros [= <- <-]. pose proof (render_shape _ _ _ _ Ht E1) as Hs. rewrite He in Hs.
  destruct Hs as [Ht1 Ho1]. destruct (IH _ _ _ Ht1 Hes E2) as [Ht2 Ho2].
  split; [done|by apply list.Forall_app].
Qed.

(** From bytes to bytes: whatever an upstream sends, in whatever chunks, the chat stream
    the client receives is a sequence of payload frames followed by exactly one [DONE], and
    closing the renderer afterwards adds nothing. *)
Theorem chat_stream_closes (model : string) (created : Z) (usage : bool) (chunks : list string) :
  let '(out, r) := renders (chunk_new model created usage) (stream parse_json chunks) in
  (∃ fs, out = fs ++ [Done] ∧ Forall (λ f, is_done f = false) fs) ∧
  (close_unterminated r).1 = [].
Proof.
  destruct (stream_shape parse_json chunks) as (es & e & -> & Hes & He).
  rewrite renders_app. destruct (renders (chunk_new model created usage) es) as [o1 r1] eqn:E1.
  destruct (renders_open es (chunk_new model created usage) _ _ eq_refl Hes E1) as [Ht1 Ho1]. cbn [renders].
  destruct (render r1 e) as [o2 r2] eqn:E2. pose proof (render_shape _ _ _ _ Ht1 E2) as Hs.
  rewrite He in Hs. destruct Hs as [Ht2 (fs & -> & Hfs)]. rewrite app_nil_r. split.
  - exists (o1 ++ fs). rewrite app_assoc. split; [done|by apply list.Forall_app].
  - unfold close_unterminated. by rewrite Ht2.
Qed.
End pipeline.

(** ** Gemini streams *)

Section gemini.
Context (parse_json : string → option Json.Value) (print_json : Json.Value → string).
Context (recall : string → string → string → option string).
Abbreviation gemini_render := (gemini_render parse_json print_json recall).
Abbreviation gemini_renders := (gemini_renders parse_json print_json recall).

(** A frame that ends a Gemini stream: an error, or a candidate with a finish reason. *)
Definition ends_gemini (f : Frame) : bool :=
  match f with
  | Done => true
  | Payload v =>
      is_some (Json.get "error" v)
      || match Json.get "candidates" v with
         | Some (Json.VArray (c :: _)) => is_some (Json.get "finishReason" c)
         | _ => false
         end
  end.

Lemma frame_for_goes_on g parts u : ends_gemini (frame_for g parts None u) = false.
Proof. destruct u; reflexivity. Qed.
Lemma frame_for_ends g parts reason u : ends_gemini (frame_for g parts (Some reason) u) = true.
Proof. destruct u; reflexivity. Qed.

(** [fs] and one ending frame. *)
Definition one_end (out : list Frame) : Prop :=
  ∃ fs f, out = fs ++ [f] ∧ Forall (λ f, ends_gemini f = false) fs ∧ ends_gemini f = true.

Lemma close_calls_shape g ts out stop : close_calls parse_json print_json recall g ts = (out, stop) →
  if stop then one_end out else Forall (λ f, ends_gemini f = false) out.
Proof.
  revert out stop. induction ts as [|t ts IH]; intros out stop; cbn [close_calls].
  { intros [= <- <-]. by apply list.Forall_nil_2. }
  destruct (parsed_arguments parse_json t) as [args|].
  - destruct (close_calls _ _ _ g ts) as [o s]. specialize (IH _ _ eq_refl). intros [= <- <-].
    destruct s.
    + destruct IH as (fs & f & -> & Hfs & Hf). eexists (_ :: fs), f. split; [done|].
      split; [|done]. constructor; [apply frame_for_goes_on|done].
    + constructor; [apply frame_for_goes_on|done].
  - destruct (g_limit g); [by apply IH|]. intros [= <- <-]. exists [], (invalid_arguments t).
    split_and!; [done|by apply list.Forall_nil_2|done].
Qed.

Lemma gemini_finish_shape g u out g' :
  g_terminated g = false → gemini_finish parse_json print_json recall g u = (out, g') →
  g_terminated g' = true ∧ one_end out.
Proof.
  intros Ht. unfold gemini_finish, close_open_calls. rewrite Ht.
  destruct (close_calls _ _ _ g (open_calls g)) as [o stop] eqn:E. apply close_calls_shape in E.
  destruct stop; cbn; [by intros [= <- <-]|]. rewrite Ht. intros [= <- <-]. split; [done|].
  eexists o, _. split_and!; [done|done|apply frame_for_ends].
Qed.

Lemma gemini_render_shape g e out g' : g_terminated g = false → gemini_render g e = (out, g') →
  if is_terminal e then g_terminated g' = true ∧ one_end out
  else g_terminated g' = false ∧ Forall (λ f, ends_gemini f = false) out.
Proof.
  intros Ht. unfold Render.gemini_render. rewrite Ht.
  destruct e; cbn [is_terminal];
    try (intros [= <- <-]; split; [try case_match; done|];
         repeat (constructor; [apply frame_for_goes_on|]); by apply list.Forall_nil_2).
  - by apply gemini_finish_shape.
  - intros [= <- <-]. split; [done|]. eexists [], _. split_and!; [done|by apply list.Forall_nil_2|done].
Qed.

Lemma gemini_renders_app es1 : ∀ g es2,
  gemini_renders g (es1 ++ es2) =
  let '(o1, g1) := gemini_renders g es1 in
  let '(o2, g2) := gemini_renders g1 es2 in (o1 ++ o2, g2).
Proof.
  induction es1 as [|e es1 IH]; intros g es2; cbn [app Render.gemini_renders].
  { by destruct (gemini_renders g es2). }
  destruct (gemini_render g e) as [o g1]. rewrite IH. destruct (gemini_renders g1 es1) as [o1 g2].
  destruct (gemini_renders g2 es2) as [o2 g3]. by rewrite app_assoc.
Qed.

Lemma gemini_open es : ∀ g out g', g_terminated g = false → Forall (λ e, is_terminal e = false) es →
  gemini_renders g es = (out, g') →
  g_terminated g' = false ∧ Forall (λ f, ends_gemini f = false) out.
Proof.
  induction es as [|e es IH]; intros g out g' Ht Hes; cbn [Render.gemini_renders]; [by intros [= <- <-]|].
  apply list.Forall_cons in Hes as [He Hes].
  destruct (gemini_render g e) as [o1 g1] eqn:E1. destruct (gemini_renders g1 es) as [o2 g2] eqn:E2.
  intros [= <- <-]. pose proof (gemini_render_shape _ _ _ _ Ht E1) as Hs. rewrite He in Hs.
  destruct Hs as [Ht1 Ho1]. destruct (IH _ _ _ Ht1 Hes E2) as [Ht2 Ho2].
  split; [done|by apply list.Forall_app].
Qed.

(** The Gemini surface has no [DONE]: its stream ends with exactly one frame that carries an
    error or a finish reason - also when the arguments of a tool call are no object, which
    ends it early - and closing it adds nothing. *)
Theorem gemini_stream_closes (model : string) (created : Z) (chunks : list string) :
  let '(out, g) := gemini_renders (gemini_new model created) (stream parse_json chunks) in
  one_end out ∧ (gemini_close parse_json print_json recall g).1 = [].
Proof.
  destruct (stream_shape parse_json chunks) as (es & e & -> & Hes & He).
  rewrite gemini_renders_app.
  destruct (gemini_renders (gemini_new model created) es) as [o1 g1] eqn:E1.
  destruct (gemini_open es (gemini_new model created) _ _ eq_refl Hes E1) as [Ht1 Ho1].
  cbn [Render.gemini_renders].
  destruct (gemini_render g1 e) as [o2 g2] eqn:E2. pose proof (gemini_render_shape _ _ _ _ Ht1 E2) as Hs.
  rewrite He in Hs. destruct Hs as [Ht2 (fs & f & -> & Hfs & Hf)]. rewrite app_nil_r. split.
  - exists (o1 ++ fs), f. rewrite app_assoc. split_and!; [done|by apply list.Forall_app|done].
  - unfold gemini_close. by rewrite Ht2.
Qed.
End gemini.
