(* ===== verification/ToolSchema.v ===== *)
(** * Tool schemas (crates/gateway/src/compat/tool_schema.rs)

    What the gateway makes of a caller's JSON schema before it sends it to a Claude model:
    unions flattened, the root and every object node made explicit and, for Antigravity,
    local references inlined.

    The source edits the value in place; here each pass returns the edited value.  Recursion
    is bounded by the nesting limit: [depth_left] is the number of levels that remain, and
    none left is the source's error.  A visitor may thread a state through the children
    ([remaining], the budget of expanded nodes). *)

From Stdlib Require Import Ascii.
From stdpp Require Import base strings list.
From S2P Require Import Prelude RustStr Json.
Import RustStr Json.
Open Scope Z_scope.

Module ToolSchema.

Definition MAX_SCHEMA_DEPTH : nat := 64.
Definition MAX_EXPANDED_NODES : Z := 8192.
Definition UNION_KEYS : list string := ["anyOf"; "oneOf"].
Definition ANNOTATION_KEYS : list string := ["title"; "description"; "default"; "examples"; "$comment"].

Definition str_is (v : Value) (s : string) : bool := bool_decide (as_str v = Some s).
Definition get_is (k s : string) (m : Map) : bool :=
  match obj_get k m with Some v => str_is v s | None => false end.
Definition contains_key (k : string) (m : Map) : bool := is_some (obj_get k m).
Definition is_array (v : Value) : bool := match v with VArray _ => true | _ => false end.

(** ** Schema positions *)

Definition MAP_KEYS : list string :=
  ["properties"; "patternProperties"; "$defs"; "definitions"; "dependentSchemas"].
Definition SINGLE_KEYS : list string :=
  ["items"; "additionalProperties"; "additionalItems"; "contains"; "not"; "if"; "then"; "else";
   "propertyNames"; "unevaluatedProperties"; "unevaluatedItems"; "contentSchema"].
Definition ARRAY_KEYS : list string := ["allOf"; "anyOf"; "oneOf"; "prefixItems"].

(** [*get_mut(k) = v]. *)
Definition obj_replace (k : string) (v : Value) (m : Map) : Map :=
  (λ kv, if bool_decide (kv.1 = k) then (kv.1, v) else kv) <$> m.

Section visit.
Context {S : Type} (visit : S → Value → result string (S * Value)).

Fixpoint visit_entries (s : S) (m : Map) : result string (S * Map) :=
  match m with
  | [] => Ok (s, [])
  | (k, v) :: m =>
      r ← visit s v; let '(s, v) := r in
      r ← visit_entries s m; let '(s, m) := r in Ok (s, (k, v) :: m)
  end.

Fixpoint visit_list (s : S) (l : list Value) : result string (S * list Value) :=
  match l with
  | [] => Ok (s, [])
  | v :: l =>
      r ← visit s v; let '(s, v) := r in
      r ← visit_list s l; let '(s, l) := r in Ok (s, v :: l)
  end.

Fixpoint visit_dependencies (s : S) (m : Map) : result string (S * Map) :=
  match m with
  | [] => Ok (s, [])
  | (k, v) :: m =>
      r ← (if is_array v then Ok (s, v) else visit s v); let '(s, v) := r in
      r ← visit_dependencies s m; let '(s, m) := r in Ok (s, (k, v) :: m)
  end.

Definition at_map (k : string) (s : S) (v : Value) : result string (S * Value) :=
  match v with
  | VObject cs => r ← visit_entries s cs; let '(s, cs) := r in Ok (s, VObject cs)
  | _ => Err (k +:+ " must be a map of schemas")
  end.
Definition at_single (k : string) (s : S) (v : Value) : result string (S * Value) := visit s v.
Definition at_array (k : string) (s : S) (v : Value) : result string (S * Value) :=
  match v with
  | VArray l => r ← visit_list s l; let '(s, l) := r in Ok (s, VArray l)
  | _ => Err (k +:+ " must be an array of schemas")
  end.
Definition at_dependencies (k : string) (s : S) (v : Value) : result string (S * Value) :=
  match v with
  | VObject cs => r ← visit_dependencies s cs; let '(s, cs) := r in Ok (s, VObject cs)
  | _ => Ok (s, v)
  end.

(** One [if let Some(..) = map.get_mut(key)]. *)
Definition on_key (g : string → S → Value → result string (S * Value)) (s : S) (k : string) (m : Map)
  : result string (S * Map) :=
  match obj_get k m with
  | None => Ok (s, m)
  | Some v => r ← g k s v; let '(s, v) := r in Ok (s, obj_replace k v m)
  end.

Fixpoint on_keys (g : string → S → Value → result string (S * Value)) (ks : list string) (s : S)
    (m : Map) : result string (S * Map) :=
  match ks with
  | [] => Ok (s, m)
  | k :: ks => r ← on_key g s k m; let '(s, m) := r in on_keys g ks s m
  end.

Definition visit_schema_children (s : S) (m : Map) : result string (S * Map) :=
  r ← on_keys at_map MAP_KEYS s m; let '(s, m) := r in
  r ← on_keys at_single SINGLE_KEYS s m; let '(s, m) := r in
  r ← on_keys at_array ARRAY_KEYS s m; let '(s, m) := r in
  on_key at_dependencies s "dependencies" m.
End visit.

(** A pass without state. *)
Definition visit_pure (f : Value → result string Value) (m : Map) : result string Map :=
  r ← visit_schema_children (λ s v, w ← f v; Ok (s, w)) tt m; Ok r.2.

(** ** Unions *)

Definition is_null_branch (branch : Value) : bool :=
  match branch with VObject m => get_is "type" "null" m | _ => false end.

Definition union_has_null_branch (schema : Value) : bool :=
  match schema with
  | VObject m =>
      existsb (λ k, match obj_get k m with
                    | Some (VArray branches) => existsb is_null_branch branches
                    | _ => false
                    end) UNION_KEYS
  | _ => false
  end.

(** [entry(k).or_insert(v)]. *)
Definition or_insert (k : string) (v : Value) (m : Map) : Map :=
  if contains_key k m then m else obj_insert k v m.

Definition overlay_annotations (reduced union_node : Map) : Map :=
  foldl (λ m k, match obj_get k union_node with Some v => or_insert k v m | None => m end)
    reduced ANNOTATION_KEYS.

Definition is_object_schema (branch : Value) : bool :=
  match branch with
  | VObject m => contains_key "properties" m || get_is "type" "object" m
  | _ => false
  end.

Definition entries_of (branch : Value) : Map := match branch with VObject m => m | _ => [] end.

Definition strings_of (v : option Value) : list string :=
  match v with Some (VArray l) => omap as_str l | _ => [] end.

(** The properties of all branches; the first to declare a name wins. *)
Definition merged_properties (branches : list Value) : Map :=
  foldl (λ ps b, match obj_get "properties" (entries_of b) with
                 | Some (VObject props) => foldl (λ ps kv, or_insert kv.1 kv.2 ps) ps props
                 | _ => ps
                 end) [] branches.

(** Required by every branch. *)
Definition merged_required (branches : list Value) : list string :=
  match branches with
  | [] => []
  | b :: bs =>
      foldl (λ kept b, filter (λ n, n ∈ strings_of (obj_get "required" (entries_of b))) kept)
        (strings_of (obj_get "required" (entries_of b))) bs
  end.

Definition reduce_union (branches : list Value) (union_node : Map) : Map :=
  let non_null := filter (λ b, is_null_branch b = false) branches in
  let first := match non_null with b :: _ => b | [] => VObject [] end in
  let reduced :=
    match non_null with
    | [] => VObject []
    | [b] => b
    | b :: _ =>
        if forallb is_object_schema non_null then
          let rest := filter (λ kv : string * Value, (kv.1 ≠ "properties" ∧ kv.1 ≠ "required") ∧ kv.1 ∉ UNION_KEYS)
                        (entries_of b) in
          VObject (obj_insert "required" (VArray (VString <$> merged_required non_null))
                    (obj_insert "properties" (VObject (merged_properties non_null))
                      (obj_insert "type" (VString "object") rest)))
        else first
    end in
  match reduced with
  | VObject m => overlay_annotations m union_node
  | _ => []
  end.

Definition nullable_names (m : Map) : list string :=
  match obj_get "properties" m with
  | Some (VObject props) => (filter (λ kv, union_has_null_branch kv.2 = true) props).*1
  | _ => []
  end.

Definition named (names : list string) (v : Value) : bool :=
  match as_str v with Some n => bool_decide (n ∈ names) | None => false end.

(** [required] without the names of nullable properties. *)
Definition drop_nullable (names : list string) (m : Map) : Map :=
  match names, obj_get "required" m with
  | [], _ => m
  | _, Some (VArray l) =>
      obj_replace "required"
        (VArray (filter (λ v, named names v = false) l)) m
  | _, _ => m
  end.

(** The first union key that holds an array is reduced. *)
Definition flatten_node (m : Map) : Map :=
  match obj_get "anyOf" m with
  | Some (VArray branches) => reduce_union branches m
  | _ =>
      match obj_get "oneOf" m with
      | Some (VArray branches) => reduce_union branches m
      | _ => m
      end
  end.

Definition NESTING : string := "tool input_schema exceeds the schema nesting limit".

Fixpoint flatten_unions (depth_left : nat) (schema : Value) : result string Value :=
  match depth_left with
  | O => Err NESTING
  | S left_ =>
      match schema with
      | VObject m =>
          let names := nullable_names m in
          m ← visit_pure (flatten_unions left_) m;
          Ok (VObject (flatten_node (drop_nullable names m)))
      | _ => Ok schema
      end
  end.

(** ** Explicit objects *)

Definition null_or_absent (k : string) (m : Map) : bool :=
  match obj_get k m with None => true | Some v => is_null v end.

Definition object_type (m : Map) : bool :=
  match obj_get "type" m with
  | Some v => str_is v "object" || match v with
                                   | VArray l => existsb (λ k, str_is k "object") l
                                   | _ => false
                                   end
  | None => false
  end.

(** [names.retain(|name| seen.insert(name.clone()))] *)
Fixpoint dedup (seen : list string) (names : list string) : list string :=
  match names with
  | [] => []
  | n :: names => if bool_decide (n ∈ seen) then dedup seen names else n :: dedup (n :: seen) names
  end.

Definition explicit_node (m : Map) : Map :=
  let m := if contains_key "properties" m && null_or_absent "type" m
           then obj_insert "type" (VString "object") m else m in
  if object_type m || contains_key "properties" m then
    let m := or_insert "properties" (VObject []) m in
    if null_or_absent "required" m then obj_insert "required" (VArray []) m else m
  else m.

Definition check_required (m : Map) : result string Map :=
  match obj_get "required" m with
  | None => Ok m
  | Some (VArray l) =>
      if forallb (λ v, is_some (as_str v)) l
      then Ok (obj_replace "required" (VArray (VString <$> dedup [] (omap as_str l))) m)
      else Err "required must contain only strings"
  | Some _ => Err "required must be an array of strings"
  end.

Fixpoint normalize_node (depth_left : nat) (schema : Value) : result string Value :=
  match depth_left with
  | O => Err NESTING
  | S left_ =>
      match schema with
      | VBool _ => Ok schema
      | VObject m =>
          m ← check_required (explicit_node m);
          m ← visit_pure (normalize_node left_) m; Ok (VObject m)
      | _ => Err "schema nodes must be objects or booleans"
      end
  end.

Definition normalize_root (schema : Value) : result string Value :=
  let schema := match schema with Null | VBool true => VObject [] | _ => schema end in
  match schema with
  | VObject m =>
      match obj_get "type" m with
      | None | Some Null =>
          normalize_node (S MAX_SCHEMA_DEPTH) (VObject (obj_insert "type" (VString "object") m))
      | Some (VString "object") => normalize_node (S MAX_SCHEMA_DEPTH) schema
      | Some _ => Err "tool input_schema type must be object"
      end
  | _ => Err "tool input_schema must be an object schema"
  end.

Definition anthropic_schema (parameters : option Value) : result string Value :=
  schema ← flatten_unions (S MAX_SCHEMA_DEPTH) (default (VObject []) parameters);
  normalize_root schema.

(** ** References *)

Section refs.
(** [Value::pointer] on the root, the pointer as text. *)
Context (pointer : string → Value → option Value).

Definition is_annotation (k : string) : bool :=
  bool_decide (k ∈ ["title"; "description"; "default"; "examples"; "$comment"; "$schema"; "$id"]).

(** The siblings of a [$ref] over its target. *)
Fixpoint merge_siblings (reference : string) (target siblings : Map) : result string Map :=
  match siblings with
  | [] => Ok target
  | (k, v) :: siblings =>
      if bool_decide (k = "$ref") then merge_siblings reference target siblings
      else if negb (is_annotation k)
              && match obj_get k target with Some old => negb (value_eqb old v) | None => false end
      then Err ("cannot inline $ref " +:+ reference +:+ " with conflicting " +:+ k)
      else merge_siblings reference (obj_insert k v target) siblings
  end.

(** The pointer of a local reference. *)
Definition local_pointer (reference : string) : option string :=
  match strip_prefix "#" reference with
  | Some p => if is_empty p || starts_with p "/" then Some p else None
  | None => None
  end.

Definition EXPANSION : string := "Antigravity tool schema reference expansion limit exceeded".

Definition is_root (depth_left : nat) : bool := Nat.eqb depth_left MAX_SCHEMA_DEPTH.

Fixpoint inline_refs (depth_left : nat) (root : Value) (stack : list string) (remaining : Z)
    (schema : Value) : result string (Z * Value) :=
  match depth_left with
  | O => Err EXPANSION
  | S left_ =>
      if remaining =? 0 then Err EXPANSION else
      let remaining := remaining - 1 in
      if negb (is_root left_) && is_some (Json.get "$id" schema)
      then Err "Antigravity cannot inline schemas with nested $id resources" else
      r ← match Json.get "$ref" schema with
          | None => Ok (remaining, schema)
          | Some r =>
              match as_str r with
              | None => Err "$ref must be a string"
              | Some reference =>
                  match local_pointer reference with
                  | None => Err ("Antigravity requires a local JSON Pointer $ref: " +:+ reference)
                  | Some p =>
                      if bool_decide (reference ∈ stack)
                      then Err ("Antigravity cannot inline recursive $ref: " +:+ reference)
                      else
                        match pointer p root with
                        | None => Err ("unresolved tool schema $ref: " +:+ reference)
                        | Some target =>
                            t ← inline_refs left_ root (stack ++ [reference]) remaining target;
                            let '(remaining, target) := t in
                            match (match target with VBool true => VObject [] | _ => target end) with
                            | VObject tm =>
                                m ← merge_siblings reference tm (entries_of schema);
                                Ok (remaining, VObject m)
                            | _ => Err ("Antigravity cannot inline non-object schema at " +:+ reference)
                            end
                        end
                  end
              end
          end;
      let '(remaining, schema) := r in
      match schema with
      | VObject m =>
          if contains_key "$dynamicRef" m || contains_key "$recursiveRef" m
          then Err "Antigravity cannot inline dynamic or recursive schema references"
          else
            let m := obj_remove "definitions" (obj_remove "$defs" m) in
            r ← visit_schema_children (λ s v, inline_refs left_ root stack s v) remaining m;
            let '(remaining, m) := r in Ok (remaining, VObject m)
      | _ => Ok (remaining, schema)
      end
  end.

Definition antigravity_claude_schema (parameters : option Value) : result string Value :=
  let root := default (VObject []) parameters in
  r ← inline_refs (S MAX_SCHEMA_DEPTH) root [] MAX_EXPANDED_NODES root;
  schema ← flatten_unions (S MAX_SCHEMA_DEPTH) r.2;
  normalize_root schema.
End refs.

End ToolSchema.
