(* ===== verification/ToolSchemaProps.v ===== *)
(** * What tool schemas become

    A schema that leaves the gateway has no union and, for Antigravity, no reference at any
    schema position, and its root is an explicit object. *)

From Stdlib Require Import Ascii.
From stdpp Require Import base strings list.
From S2P Require Import Prelude RustStr Json ToolSchema.
Import RustStr Json ToolSchema.
Open Scope Z_scope.

(** ** Schema positions *)

Definition CHILD_KEYS : list string := MAP_KEYS ++ SINGLE_KEYS ++ ARRAY_KEYS ++ ["dependencies"].

(** The schemas directly under a node. *)
Definition child (m : Map) (w : Value) : Prop :=
  (∃ k cs j, k ∈ MAP_KEYS ∧ obj_get k m = Some (VObject cs) ∧ (j, w) ∈ cs) ∨
  (∃ k, k ∈ SINGLE_KEYS ∧ obj_get k m = Some w) ∨
  (∃ k l, k ∈ ARRAY_KEYS ∧ obj_get k m = Some (VArray l) ∧ w ∈ l) ∨
  (∃ cs j, obj_get "dependencies" m = Some (VObject cs) ∧ (j, w) ∈ cs ∧ is_array w = false).

(** No key of [bad] at the node or at any schema position below it. *)
Inductive Clean (bad : list string) : Value → Prop :=
  | Clean_other v : is_object v = false → Clean bad v
  | Clean_object m : (∀ k, k ∈ bad → obj_get k m = None) → (∀ w, child m w → Clean bad w) →
      Clean bad (VObject m).

Lemma Clean_inv bad m : Clean bad (VObject m) →
  (∀ k, k ∈ bad → obj_get k m = None) ∧ ∀ w, child m w → Clean bad w.
Proof. inversion 1; done. Qed.

Lemma Clean_app a b v : Clean a v → Clean b v → Clean (a ++ b) v.
Proof.
  intros Ha. induction Ha as [v Hv|m Hm Hc IH]; intros Hb; [by apply Clean_other|].
  apply Clean_inv in Hb as [Hb1 Hb2]. apply Clean_object.
  - intros k [?|?]%elem_of_app; auto.
  - intros w Hw. apply IH; auto.
Qed.

(** Nodes that agree on the child keys have the same children. *)
Lemma child_ext m m' w :
  (∀ k, k ∈ CHILD_KEYS → obj_get k m' = obj_get k m) → child m' w → child m w.
Proof.
  assert (Hk : ∀ k, k ∈ MAP_KEYS ∨ k ∈ SINGLE_KEYS ∨ k ∈ ARRAY_KEYS ∨ k = "dependencies" → k ∈ CHILD_KEYS).
  { intros k. unfold CHILD_KEYS. rewrite !elem_of_app, list_elem_of_singleton. tauto. }
  intros He. unfold child.
  intros [(k & cs & j & H1 & H2 & H3)|[(k & H1 & H2)|[(k & l & H1 & H2 & H3)|(cs & j & H1 & H2 & H3)]]];
    [rewrite He in H2 by auto|rewrite He in H2 by auto|rewrite He in H2 by auto|rewrite He in H1 by auto];
    naive_solver.
Qed.

Lemma obj_get_replace j k v (m : Map) :
  obj_get j (obj_replace k v m)
  = if bool_decide (j = k) then (λ _, v) <$> obj_get k m else obj_get j m.
Proof.
  unfold obj_replace. induction m as [|[i w] m IH]; [cbn; by case_bool_decide|].
  rewrite fmap_cons. cbn [fst]. destruct (decide (i = k)) as [->|Hne].
  - rewrite (bool_decide_eq_true_2 (k = k)) by done. cbn [obj_get].
    destruct (decide (j = k)) as [->|Hj].
    + by rewrite !bool_decide_eq_true_2 by done.
    + rewrite !bool_decide_eq_false_2 in * by done. by rewrite IH.
  - rewrite (bool_decide_eq_false_2 (i = k)) by done. cbn [obj_get].
    destruct (decide (j = i)) as [->|Hj].
    + rewrite (bool_decide_eq_true_2 (i = i)) by done. by rewrite bool_decide_eq_false_2.
    + rewrite (bool_decide_eq_false_2 (j = i)) by done. rewrite IH.
      case_bool_decide as E; [|done]. subst. by rewrite (bool_decide_eq_false_2 (k = i)) by congruence.
Qed.

(** The four groups of child keys are disjoint. *)
Lemma map_keys_apart k : k ∈ MAP_KEYS → (k ∉ SINGLE_KEYS) ∧ (k ∉ ARRAY_KEYS) ∧ k ≠ "dependencies".
Proof.
  revert k. apply list.Forall_forall. apply (bool_decide_unpack _). vm_compute. exact I.
Qed.
Lemma single_keys_apart k : k ∈ SINGLE_KEYS → (k ∉ MAP_KEYS) ∧ (k ∉ ARRAY_KEYS) ∧ k ≠ "dependencies".
Proof.
  revert k. apply list.Forall_forall. apply (bool_decide_unpack _). vm_compute. exact I.
Qed.
Lemma array_keys_apart k : k ∈ ARRAY_KEYS → (k ∉ MAP_KEYS) ∧ (k ∉ SINGLE_KEYS) ∧ k ≠ "dependencies".
Proof.
  revert k. apply list.Forall_forall. apply (bool_decide_unpack _). vm_compute. exact I.
Qed.
Lemma dependencies_apart :
  ("dependencies" ∉ MAP_KEYS) ∧ ("dependencies" ∉ SINGLE_KEYS) ∧ ("dependencies" ∉ ARRAY_KEYS).
Proof. apply (bool_decide_unpack _). vm_compute. exact I. Qed.

(** ** Visiting *)

Section visit.
Context {S : Type} (visit : S → Value → result string (S * Value)).

Definition visited (w w' : Value) : Prop := ∃ s s', visit s w = Ok (s', w').

Lemma visit_entries_spec m : ∀ s s' m', visit_entries visit s m = Ok (s', m') →
  ∀ j w', (j, w') ∈ m' → ∃ w, (j, w) ∈ m ∧ visited w w'.
Proof.
  induction m as [|[k v] m IH]; intros s s' m'; cbn.
  { intros [= <- <-] j w' H. by apply elem_of_nil in H. }
  destruct (visit s v) as [[s1 v1]|] eqn:Ev; [|done]. cbn.
  destruct (visit_entries visit s1 m) as [[s2 m2]|] eqn:Em; [|done]. cbn. intros [= <- <-] j w'.
  rewrite elem_of_cons. intros [[= -> ->]|H].
  - exists v. split; [left|by exists s, s1].
  - destruct (IH _ _ _ Em j w' H) as (w & Hw & Hv). exists w. split; [by right|done].
Qed.

Lemma visit_list_spec l : ∀ s s' l', visit_list visit s l = Ok (s', l') →
  ∀ w', w' ∈ l' → ∃ w, w ∈ l ∧ visited w w'.
Proof.
  induction l as [|v l IH]; intros s s' l'; cbn.
  { intros [= <- <-] w' H. by apply elem_of_nil in H. }
  destruct (visit s v) as [[s1 v1]|] eqn:Ev; [|done]. cbn.
  destruct (visit_list visit s1 l) as [[s2 l2]|] eqn:Em; [|done]. cbn. intros [= <- <-] w'.
  rewrite elem_of_cons. intros [->|H].
  - exists v. split; [left|by exists s, s1].
  - destruct (IH _ _ _ Em w' H) as (w & Hw & Hv). exists w. split; [by right|done].
Qed.

Lemma visit_dependencies_spec m : ∀ s s' m', visit_dependencies visit s m = Ok (s', m') →
  ∀ j w', (j, w') ∈ m' → is_array w' = false →
  ∃ w, (j, w) ∈ m ∧ is_array w = false ∧ visited w w'.
Proof.
  induction m as [|[k v] m IH]; intros s s' m'; cbn.
  { intros [= <- <-] j w' H. by apply elem_of_nil in H. }
  destruct (if is_array v then Ok (s, v) else visit s v) as [[s1 v1]|] eqn:Ev; [|done]. cbn.
  destruct (visit_dependencies visit s1 m) as [[s2 m2]|] eqn:Em; [|done]. cbn. intros [= <- <-] j w'.
  rewrite elem_of_cons. intros [[= -> ->]|H] Ha.
  - destruct (is_array v) eqn:Hv; [injection Ev as -> ->; congruence|].
    exists v. split_and!; [left|done|by exists s, s1].
  - destruct (IH _ _ _ Em j w' H Ha) as (w & Hw & Hwa & Hv). exists w. split_and!; [by right|done..].
Qed.

(** What became of the value at a key that [g] handles. *)
Definition handled (g : string → S → Value → result string (S * Value)) (k : string)
    (m m' : Map) : Prop :=
  match obj_get k m with
  | None => obj_get k m' = None
  | Some v => ∃ s s' v', g k s v = Ok (s', v') ∧ obj_get k m' = Some v'
  end.

Lemma on_key_spec g s k m s' m' : on_key g s k m = Ok (s', m') →
  handled g k m m' ∧ ∀ j, j ≠ k → obj_get j m' = obj_get j m.
Proof.
  unfold on_key, handled. destruct (obj_get k m) as [v|] eqn:Ek; [|by intros [= <- <-]].
  destruct (g k s v) as [[s1 v1]|] eqn:Eg; [|done]. cbn. intros [= <- <-]. split.
  - exists s, s1, v1. split; [done|]. rewrite obj_get_replace, Ek. by rewrite bool_decide_eq_true_2.
  - intros j Hj. rewrite obj_get_replace. by rewrite bool_decide_eq_false_2.
Qed.

Lemma on_keys_spec g ks : ∀ s m s' m', NoDup ks → on_keys g ks s m = Ok (s', m') →
  (∀ k, k ∈ ks → handled g k m m') ∧ ∀ j, j ∉ ks → obj_get j m' = obj_get j m.
Proof.
  induction ks as [|k ks IH]; intros s m s' m' Hnd; cbn.
  { intros [= <- <-]. split; [by intros k ?%elem_of_nil|done]. }
  apply NoDup_cons in Hnd as [Hk Hnd]. destruct (on_key g s k m) as [[s1 m1]|] eqn:E1; [|done]. cbn.
  intros E2. destruct (on_key_spec _ _ _ _ _ _ E1) as [H1 H1'].
  destruct (IH _ _ _ _ Hnd E2) as [H2 H2']. split.
  - intros j [->|Hj]%elem_of_cons.
    + unfold handled in *. destruct (obj_get k m) as [v|]; rewrite H2' by done; exact H1.
    + assert (j ≠ k) by congruence. specialize (H2 j Hj). unfold handled in *. by rewrite H1' in H2.
  - intros j Hj. rewrite elem_of_cons in Hj. rewrite H2' by tauto. apply H1'. tauto.
Qed.

Lemma handled_ext g k m m1 m2 m' :
  handled g k m1 m2 → obj_get k m1 = obj_get k m → obj_get k m' = obj_get k m2 → handled g k m m'.
Proof. unfold handled. intros H E1 E2. rewrite <- E1, E2. exact H. Qed.

(** The four kinds of keys, each handled by its group alone. *)
Lemma visit_children_handled s m s' m' : visit_schema_children visit s m = Ok (s', m') →
  (∀ k, k ∈ MAP_KEYS → handled (at_map visit) k m m') ∧
  (∀ k, k ∈ SINGLE_KEYS → handled (at_single visit) k m m') ∧
  (∀ k, k ∈ ARRAY_KEYS → handled (at_array visit) k m m') ∧
  handled (at_dependencies visit) "dependencies" m m' ∧
  (∀ j, j ∉ CHILD_KEYS → obj_get j m' = obj_get j m).
Proof.
  unfold visit_schema_children. intros H.
  apply rbind_Ok in H as ([s1 m1] & E1 & H). cbv beta iota in H.
  apply rbind_Ok in H as ([s2 m2] & E2 & H). cbv beta iota in H.
  apply rbind_Ok in H as ([s3 m3] & E3 & H). cbv beta iota in H.
  apply on_keys_spec in E1 as [A1 B1]; [|apply (bool_decide_unpack _); vm_compute; exact I].
  apply on_keys_spec in E2 as [A2 B2]; [|apply (bool_decide_unpack _); vm_compute; exact I].
  apply on_keys_spec in E3 as [A3 B3]; [|apply (bool_decide_unpack _); vm_compute; exact I].
  apply on_key_spec in H as [A4 B4]. split_and!.
  - intros k Hk. destruct (map_keys_apart k Hk) as (D1 & D2 & D3).
    apply (handled_ext _ _ _ m m1); [by apply A1|done|by rewrite B4, B3, B2].
  - intros k Hk. destruct (single_keys_apart k Hk) as (D1 & D2 & D3).
    apply (handled_ext _ _ _ m1 m2); [by apply A2|by rewrite B1|by rewrite B4, B3].
  - intros k Hk. destruct (array_keys_apart k Hk) as (D1 & D2 & D3).
    apply (handled_ext _ _ _ m2 m3); [by apply A3|by rewrite B2, B1|by rewrite B4].
  - destruct dependencies_apart as (D1 & D2 & D3).
    apply (handled_ext _ _ _ m3 m'); [done|by rewrite B3, B2, B1|done].
  - intros j Hj. unfold CHILD_KEYS in Hj. rewrite !not_elem_of_app, list_elem_of_singleton in Hj.
    destruct Hj as (D1 & D2 & D3 & D4). by rewrite B4, B3, B2, B1.
Qed.

Lemma visit_children_spec s m s' m' : visit_schema_children visit s m = Ok (s', m') →
  (∀ j, j ∉ CHILD_KEYS → obj_get j m' = obj_get j m) ∧
  (∀ j, obj_get j m' = None ↔ obj_get j m = None) ∧
  (∀ k v, k ∈ ARRAY_KEYS → obj_get k m' = Some v → is_array v = true) ∧
  (∀ w', child m' w' → ∃ w, child m w ∧ visited w w').
Proof.
  intros H. apply visit_children_handled in H as (A1 & A2 & A3 & A4 & A5). split_and!; [done| | |].
  - intros j. destruct (decide (j ∈ CHILD_KEYS)) as [Hc|Hc]; [|by rewrite A5].
    unfold CHILD_KEYS in Hc. rewrite !elem_of_app, list_elem_of_singleton in Hc.
    assert (Hh : ∃ g, handled g j m m') by (destruct Hc as [Hc|[Hc|[Hc| ->]]]; eauto).
    destruct Hh as [g Hh]. unfold handled in Hh.
    destruct (obj_get j m); [destruct Hh as (? & ? & ? & _ & ->)|rewrite Hh]; done.
  - intros k v Hk Hv. specialize (A3 k Hk). unfold handled in A3.
    destruct (obj_get k m) as [v0|]; [|congruence]. destruct A3 as (s0 & s1 & v' & Hg & Hv').
    assert (v' = v) as -> by congruence. unfold at_array in Hg. destruct v0; try done.
    destruct (visit_list _ _ _) as [[s2 l2]|]; [|done]. by injection Hg as <- <-.
  - intros w' [(k & cs & j & H1 & H2 & H3)|[(k & H1 & H2)|[(k & l & H1 & H2 & H3)|(cs & j & H1 & H2 & H3)]]].
    + specialize (A1 k H1). unfold handled in A1. destruct (obj_get k m) as [v0|] eqn:E0; [|congruence].
      destruct A1 as (s0 & s1 & v' & Hg & Hv'). rewrite Hv' in H2. injection H2 as ->.
      unfold at_map in Hg. destruct v0 as [| | | | |cs0]; try done.
      destruct (visit_entries visit s0 cs0) as [[s2 cs2]|] eqn:Ev; [|done]. injection Hg as <- <-.
      destruct (visit_entries_spec _ _ _ _ Ev _ _ H3) as (w & Hw & Hvis). exists w.
      split; [left; by exists k, cs0, j|done].
    + specialize (A2 k H1). unfold handled in A2. destruct (obj_get k m) as [v0|] eqn:E0; [|congruence].
      destruct A2 as (s0 & s1 & v' & Hg & Hv'). rewrite Hv' in H2. injection H2 as ->.
      exists v0. split; [right; left; by exists k|by exists s0, s1].
    + specialize (A3 k H1). unfold handled in A3. destruct (obj_get k m) as [v0|] eqn:E0; [|congruence].
      destruct A3 as (s0 & s1 & v' & Hg & Hv'). rewrite Hv' in H2. injection H2 as ->.
      unfold at_array in Hg. destruct v0 as [| | | |l0|]; try done.
      destruct (visit_list visit s0 l0) as [[s2 l2]|] eqn:Ev; [|done]. injection Hg as <- <-.
      destruct (visit_list_spec _ _ _ _ Ev _ H3) as (w & Hw & Hvis). exists w.
      split; [right; right; left; by exists k, l0|done].
    + unfold handled in A4. destruct (obj_get "dependencies" m) as [v0|] eqn:E0; [|congruence].
      destruct A4 as (s0 & s1 & v' & Hg & Hv'). rewrite Hv' in H1. injection H1 as ->.
      unfold at_dependencies in Hg. destruct v0 as [| | | | |cs0]; try done.
      destruct (visit_dependencies visit s0 cs0) as [[s2 cs2]|] eqn:Ev; [|done]. injection Hg as <- <-.
      destruct (visit_dependencies_spec _ _ _ _ Ev _ _ H2 H3) as (w & Hw & Hwa & Hvis). exists w.
      split; [right; right; right; by exists cs0, j|done].
Qed.
End visit.

Lemma visit_pure_spec f m m' : visit_pure f m = Ok m' →
  (∀ j, j ∉ CHILD_KEYS → obj_get j m' = obj_get j m) ∧
  (∀ j, obj_get j m' = None ↔ obj_get j m = None) ∧
  (∀ k v, k ∈ ARRAY_KEYS → obj_get k m' = Some v → is_array v = true) ∧
  (∀ w', child m' w' → ∃ w, child m w ∧ f w = Ok w').
Proof.
  unfold visit_pure. intros H. apply rbind_Ok in H as ([s m1] & E & H). injection H as <-. cbn.
  apply visit_children_spec in E as (H1 & H2 & H3 & H4). split_and!; [done..|].
  intros w' Hw'. destruct (H4 w' Hw') as (w & Hw & s0 & s1 & Hv). exists w. split; [done|].
  apply rbind_Ok in Hv as (v & Hf & Hv). by injection Hv as <- <-.
Qed.

(** ** Keys the passes add *)

Definition ADDED_KEYS : list string := ["type"; "properties"; "required"] ++ ANNOTATION_KEYS.
Definition spared (bad : list string) : Prop := ∀ k, k ∈ bad → k ∉ ADDED_KEYS.

(** Setting a key that is no schema position. *)
Lemma child_insert k v m w : k ∉ CHILD_KEYS → child (obj_insert k v m) w → child m w.
Proof.
  intros Hk. refine (child_ext _ _ _ _). intros j Hj. rewrite obj_get_insert.
  by rewrite bool_decide_eq_false_2 by congruence.
Qed.

Lemma Clean_insert bad k v m : k ∉ CHILD_KEYS → k ∉ bad →
  Clean bad (VObject m) → Clean bad (VObject (obj_insert k v m)).
Proof.
  intros Hk Hb [H1 H2]%Clean_inv. apply Clean_object.
  - intros j Hj. rewrite obj_get_insert. rewrite bool_decide_eq_false_2 by congruence. by apply H1.
  - intros w Hw. apply H2. by eapply child_insert.
Qed.

Lemma Clean_replace bad k v m : k ∉ CHILD_KEYS →
  Clean bad (VObject m) → Clean bad (VObject (obj_replace k v m)).
Proof.
  intros Hk [H1 H2]%Clean_inv. apply Clean_object.
  - intros j Hj. rewrite obj_get_replace. case_bool_decide as E; [|by apply H1]. subst.
    by rewrite H1.
  - intros w Hw. apply H2. revert Hw. refine (child_ext _ _ _ _). intros j Hj. rewrite obj_get_replace.
    by rewrite bool_decide_eq_false_2 by congruence.
Qed.

Lemma Clean_or_insert bad k v m : k ∉ CHILD_KEYS → k ∉ bad →
  Clean bad (VObject m) → Clean bad (VObject (or_insert k v m)).
Proof. intros. unfold or_insert. case_match; [done|]. by apply Clean_insert. Qed.

(** ** Unions *)

Lemma Clean_overlay bad reduced node : spared bad →
  Clean bad (VObject reduced) → Clean bad (VObject (overlay_annotations reduced node)).
Proof.
  intros Hs. unfold overlay_annotations.
  assert (Hk : ∀ k, k ∈ ANNOTATION_KEYS → (k ∉ CHILD_KEYS) ∧ k ∈ ADDED_KEYS).
  { apply list.Forall_forall. apply (bool_decide_unpack _). vm_compute. exact I. }
  revert reduced. generalize ANNOTATION_KEYS Hk. clear Hk.
  induction l as [|k ks IH]; intros Hk m Hm; [done|]. cbn. apply IH; [intros; apply Hk; by right|].
  destruct (Hk k) as [H1 H2]; [left|]. destruct (obj_get k node) as [v|]; [|done].
  apply Clean_or_insert; [done| |done]. intros Hb. by apply (Hs k).
Qed.

Lemma obj_get_elem k (m : Map) v : obj_get k m = Some v → (k, v) ∈ m.
Proof.
  induction m as [|[j w] m IH]; cbn; [done|]. case_bool_decide as E; [intros [= <-]; subst; left|].
  intros Hv. right. by apply IH.
Qed.

(** A predicate of all entries survives [or_insert]. *)
Lemma or_insert_elem k v (m : Map) j w : (j, w) ∈ or_insert k v m → (j, w) = (k, v) ∨ (j, w) ∈ m.
Proof.
  unfold or_insert. destruct (contains_key k m); [by right|]. induction m as [|[i x] m IH]; cbn.
  - intros ?%list_elem_of_singleton. by left.
  - destruct (bool_decide (k = i)); [|destruct (string_ltb k i)]; rewrite !elem_of_cons; naive_solver.
Qed.

Lemma merged_properties_clean bad bs :
  (∀ b m props j w, b ∈ bs → b = VObject m → obj_get "properties" m = Some (VObject props) →
     (j, w) ∈ props → Clean bad w) →
  ∀ j w, (j, w) ∈ merged_properties bs → Clean bad w.
Proof.
  unfold merged_properties. intros Hall.
  assert (H : ∀ bs ps, (∀ b m props j w, b ∈ bs → b = VObject m →
      obj_get "properties" m = Some (VObject props) → (j, w) ∈ props → Clean bad w) →
    (∀ j w, (j, w) ∈ ps → Clean bad w) →
    ∀ j w, (j, w) ∈ foldl (λ ps b, match obj_get "properties" (entries_of b) with
                 | Some (VObject props) => foldl (λ ps kv, or_insert kv.1 kv.2 ps) ps props
                 | _ => ps
                 end) ps bs → Clean bad w).
  { clear. induction bs as [|b bs IH]; intros ps Hb Hps; [done|]. cbn. apply IH.
    { intros b' m props j w Hin. apply Hb. by right. }
    destruct (obj_get "properties" (entries_of b)) as [[| | | | |props]|] eqn:Ep; try done.
    destruct b as [| | | | |m]; try done. cbn in Ep.
    assert (Hp : ∀ j w, (j, w) ∈ props → Clean bad w) by (intros j w; eapply Hb; [left|done|done]).
    clear -Hp Hps. revert ps Hps. induction props as [|[k v] props IH]; intros ps Hps; [done|]. cbn.
    apply IH; [intros; eapply Hp; by right|]. intros j w [[= -> ->]|Hin]%or_insert_elem; [|by eapply Hps].
    eapply Hp. left. }
  apply H; [done|]. by intros j w ?%elem_of_nil.
Qed.

(** A node made of part of [m] and a new map of properties. *)
Lemma Clean_with_properties bad m rest props :
  spared bad → Clean bad (VObject m) → (∀ k v, obj_get k rest = Some v → obj_get k m = Some v) →
  (∀ j w, (j, w) ∈ props → Clean bad w) →
  Clean bad (VObject (obj_insert "properties" (VObject props)
                       (obj_insert "type" (VString "object") rest))).
Proof.
  intros Hs [Hm Hc]%Clean_inv Hrest Hprops.
  set (m' := obj_insert "properties" _ _).
  assert (Hget : ∀ k v, k ≠ "properties" → k ≠ "type" → obj_get k m' = Some v → obj_get k m = Some v).
  { intros k v H1 H2. unfold m'. rewrite !obj_get_insert, !bool_decide_eq_false_2 by done. apply Hrest. }
  assert (Hp : obj_get "properties" m' = Some (VObject props)).
  { unfold m'. by rewrite obj_get_insert, bool_decide_eq_true_2. }
  assert (Hty : ∀ k, k ∈ CHILD_KEYS → k ≠ "type").
  { apply list.Forall_forall. apply (bool_decide_unpack _). vm_compute. exact I. }
  clearbody m'.
  assert (Hch : ∀ k, k ∈ MAP_KEYS ∨ k ∈ SINGLE_KEYS ∨ k ∈ ARRAY_KEYS ∨ k = "dependencies" → k ∈ CHILD_KEYS).
  { intros k. unfold CHILD_KEYS. rewrite !elem_of_app, list_elem_of_singleton. tauto. }
  apply Clean_object.
  - intros k Hk. destruct (obj_get k m') as [v|] eqn:E; [|done].
    assert (k ∉ ADDED_KEYS) as Hadd by by apply Hs.
    rewrite <- (Hm k Hk). symmetry. apply Hget; [| |done]; intros ->; apply Hadd;
      apply (bool_decide_unpack _); vm_compute; exact I.
  - intros w [(k & cs & j & H1 & H2 & H3)|[(k & H1 & H2)|[(k & l & H1 & H2 & H3)|(cs & j & H1 & H2 & H3)]]].
    + destruct (decide (k = "properties")) as [->|Hne].
      * rewrite Hp in H2. injection H2 as <-. by eapply Hprops.
      * apply Hc. left. exists k, cs, j. split_and!; [done|apply Hget; [done|apply Hty, Hch; tauto|done]|done].
    + destruct (single_keys_apart k H1) as (D & _). apply Hc. right. left. exists k. split; [done|].
      apply Hget; [|apply Hty, Hch; tauto|done]. intros ->. apply D. by repeat constructor.
    + destruct (array_keys_apart k H1) as (D & _). apply Hc. right. right. left. exists k, l.
      split_and!; [done|apply Hget; [|apply Hty, Hch; tauto|done]|done]. intros ->. apply D. by repeat constructor.
    + apply Hc. right. right. right. exists cs, j. split_and!; [by apply Hget|done|done].
Qed.

Lemma obj_get_filter (P : string * Value → Prop) `{∀ x, Decision (P x)} (m : Map) k v :
  (∀ j w w', P (j, w) ↔ P (j, w')) → obj_get k (filter P m) = Some v → obj_get k m = Some v.
Proof.
  intros HP. induction m as [|[j w] m IH]; [done|]. rewrite filter_cons.
  destruct (decide (P (j, w))) as [Hd|Hd]; cbn; [by case_bool_decide|]. case_bool_decide as E; [|done].
  intros Hv. exfalso. subst. apply Hd. apply obj_get_elem in Hv.
  apply list_elem_of_filter in Hv as [Hv _]. by eapply HP.
Qed.

Lemma Clean_nil bad : Clean bad (VObject []).
Proof. apply Clean_object; [done|]. intros w [H|[H|[H|H]]]; naive_solver. Qed.

(** Branches that are clean reduce to a clean node. *)
Lemma reduce_clean bad branches node :
  spared bad → (∀ b, b ∈ branches → Clean bad b) → Clean bad (VObject (reduce_union branches node)).
Proof.
  intros Hs Hb. unfold reduce_union.
  set (non_null := filter (λ b, is_null_branch b = false) branches).
  assert (Hn : ∀ b, b ∈ non_null → Clean bad b).
  { intros b [_ Hin]%list_elem_of_filter. by apply Hb. }
  clearbody non_null. clear Hb.
  assert (Hgo : ∀ v, Clean bad v →
            Clean bad (VObject match v with VObject m => overlay_annotations m node | _ => [] end)).
  { intros v Hv. destruct v; try apply Clean_nil. by apply Clean_overlay. }
  apply Hgo. destruct non_null as [|b [|b' bs]]; [apply Clean_nil|apply Hn; left|].
  destruct (forallb is_object_schema (b :: b' :: bs)) eqn:Ef; [|apply Hn; left].
  assert (Hb : Clean bad b) by (apply Hn; left).
  assert (is_object b = true) as Ho.
  { cbn in Ef. apply andb_true_iff in Ef as [Ef _]. by destruct b. }
  destruct b as [| | | | |m]; try done. cbn [entries_of].
  apply Clean_insert; [apply (bool_decide_unpack _); vm_compute; exact I| |].
  { intros Hin. apply (Hs _ Hin). apply (bool_decide_unpack _). vm_compute. exact I. }
  apply (Clean_with_properties bad m); [done|done| |].
  - intros k v. by apply obj_get_filter.
  - apply merged_properties_clean. intros b0 m0 props j w Hin -> Hp Hw.
    pose proof (Hn _ Hin) as [_ Hc]%Clean_inv. apply Hc. left. exists "properties", props, j.
    split_and!; [by repeat constructor|done|done].
Qed.

Lemma flatten_clean bad n : spared bad → ∀ v v',
  flatten_unions n v = Ok v' → bad = UNION_KEYS ∨ Clean bad v → Clean bad v'.
Proof.
  intros Hs. induction n as [|n IH]; intros v v'; [done|]. cbn [flatten_unions].
  destruct v as [| | | | |m]; try (intros [= <-] _; by apply Clean_other).
  intros H Hor. apply rbind_Ok in H as (m1 & Ev & H). injection H as <-.
  apply visit_pure_spec in Ev as (H1 & H2 & H3 & H4).
  assert (Hkids : ∀ w, child m1 w → Clean bad w).
  { intros w Hw. destruct (H4 w Hw) as (w0 & Hw0 & Hf). apply (IH _ _ Hf).
    destruct Hor as [?|[_ Hc]%Clean_inv]; [by left|right; by apply Hc]. }
  set (m2 := drop_nullable (nullable_names m) m1).
  assert (Hreq : ∀ k, k ≠ "required" → obj_get k m2 = obj_get k m1).
  { intros k Hk. unfold m2, drop_nullable. repeat case_match; try done.
    rewrite obj_get_replace. by rewrite bool_decide_eq_false_2. }
  assert (Hkids2 : ∀ w, child m2 w → Clean bad w).
  { intros w Hw. apply Hkids. revert w Hw. intros w. refine (child_ext _ _ _ _).
    assert (Hc : ∀ k, k ∈ CHILD_KEYS → k ≠ "required")
      by (apply list.Forall_forall; apply (bool_decide_unpack _); vm_compute; exact I).
    intros k Hk. apply Hreq. by apply Hc. }
  assert (Hbranch : ∀ k l, k ∈ UNION_KEYS → obj_get k m2 = Some (VArray l) → ∀ b, b ∈ l → Clean bad b).
  { intros k l Hk Hl b Hbl. apply Hkids2. right. right. left. exists k, l. split_and!; [|done|done].
    clear -Hk. unfold UNION_KEYS, ARRAY_KEYS in *. rewrite !elem_of_cons in *. naive_solver. }
  assert (Harr : ∀ k v, k ∈ UNION_KEYS → obj_get k m2 = Some v → is_array v = true).
  { intros k v Hk Hv. apply (H3 k); [clear -Hk; unfold UNION_KEYS, ARRAY_KEYS in *; rewrite !elem_of_cons in *; naive_solver|].
    rewrite <- Hv. symmetry. apply Hreq. clear -Hk. unfold UNION_KEYS in Hk. rewrite !elem_of_cons in Hk.
    intros ->. destruct Hk as [?|[?|?%elem_of_nil]]; done. }
  unfold flatten_node. 
  destruct (obj_get "anyOf" m2) as [va|] eqn:Ea.
  { pose proof (Harr "anyOf" va (list_elem_of_here _ _) Ea) as Hva. destruct va; try done.
    apply reduce_clean; [done|]. by apply (Hbranch "anyOf"); [left|]. }
  destruct (obj_get "oneOf" m2) as [vo|] eqn:Eo.
  { assert (Hin : "oneOf" ∈ UNION_KEYS) by by right; left.
    pose proof (Harr "oneOf" vo Hin Eo) as Hvo. destruct vo; try done.
    apply reduce_clean; [done|]. by apply (Hbranch "oneOf"). }
  apply Clean_object; [|done]. intros k Hk. destruct Hor as [->|[Hb _]%Clean_inv].
  - unfold UNION_KEYS in Hk. rewrite !elem_of_cons in Hk. destruct Hk as [->|[->|?%elem_of_nil]]; done.
  - rewrite Hreq; [by apply H2, Hb|]. intros ->. apply (Hs _ Hk). apply (bool_decide_unpack _). vm_compute. exact I.
Qed.

(** ** Explicit objects *)

Lemma Clean_empty_properties bad m : spared bad →
  Clean bad (VObject m) → Clean bad (VObject (or_insert "properties" (VObject []) m)).
Proof.
  intros Hs Hm. unfold or_insert, contains_key. destruct (obj_get "properties" m) eqn:Ep; [done|]. cbn [is_some].
  apply Clean_inv in Hm as [Hm Hc]. apply Clean_object.
  - intros k Hk. rewrite obj_get_insert. rewrite bool_decide_eq_false_2; [by apply Hm|].
    intros ->. apply (Hs _ Hk). apply (bool_decide_unpack _). vm_compute. exact I.
  - intros w [(k & cs & j & H1 & H2 & H3)|[(k & H1 & H2)|[(k & l & H1 & H2 & H3)|(cs & j & H1 & H2 & H3)]]];
      [rewrite obj_get_insert in H2..|rewrite obj_get_insert in H1]; apply Hc; unfold child.
    + case_bool_decide; [injection H2 as <-; by apply elem_of_nil in H3|]. left. by exists k, cs, j.
    + rewrite bool_decide_eq_false_2 in H2; [right; left; by exists k|].
      intros ->. destruct (single_keys_apart _ H1) as [D _]. apply D. by repeat constructor.
    + rewrite bool_decide_eq_false_2 in H2; [right; right; left; by exists k, l|].
      intros ->. destruct (array_keys_apart _ H1) as [D _]. apply D. by repeat constructor.
    + right. right. right. by exists cs, j.
Qed.

Lemma spared_key bad k : spared bad → bool_decide (k ∈ ADDED_KEYS) = true → k ∉ bad.
Proof. intros Hs Hk%bool_decide_eq_true Hb. by apply (Hs k). Qed.

Lemma explicit_clean bad m : spared bad → Clean bad (VObject m) → Clean bad (VObject (explicit_node m)).
Proof.
  intros Hs Hm. unfold explicit_node.
  assert (Hty : "type" ∉ CHILD_KEYS) by (apply (bool_decide_unpack _); vm_compute; exact I).
  assert (Hrq : "required" ∉ CHILD_KEYS) by (apply (bool_decide_unpack _); vm_compute; exact I).
  set (m1 := if contains_key "properties" m && null_or_absent "type" m then _ else m).
  assert (H1 : Clean bad (VObject m1)).
  { unfold m1. case_match; [|done]. apply Clean_insert; [done| |done]. by apply spared_key. }
  clearbody m1. case_match; [|done].
  assert (H2 := Clean_empty_properties bad m1 Hs H1). case_match; [|done].
  apply Clean_insert; [done| |done]. by apply spared_key.
Qed.

Lemma check_required_clean bad m m' :
  check_required m = Ok m' → Clean bad (VObject m) → Clean bad (VObject m').
Proof.
  unfold check_required. intros H Hm. repeat case_match; simplify_eq; try done.
  apply Clean_replace; [apply (bool_decide_unpack _); vm_compute; exact I|done].
Qed.

Lemma visit_clean bad f m m' :
  (∀ w w', f w = Ok w' → Clean bad w → Clean bad w') →
  visit_pure f m = Ok m' → Clean bad (VObject m) → Clean bad (VObject m').
Proof.
  intros Hf (_ & H2 & _ & H4)%visit_pure_spec [Hm Hc]%Clean_inv. apply Clean_object.
  - intros k Hk. by apply H2, Hm.
  - intros w Hw. destruct (H4 w Hw) as (w0 & Hw0 & Hv). eapply Hf; [done|by apply Hc].
Qed.

Lemma normalize_clean bad n : spared bad → ∀ v v',
  normalize_node n v = Ok v' → Clean bad v → Clean bad v'.
Proof.
  intros Hs. induction n as [|n IH]; intros v v'; [done|]. cbn [normalize_node].
  destruct v as [|b| | | |m]; try done; [by intros [= <-]|].
  intros H Hm. apply rbind_Ok in H as (m1 & E1 & H). apply rbind_Ok in H as (m2 & E2 & H).
  injection H as <-. apply (visit_clean bad (normalize_node n) m1); [done|done|].
  eapply check_required_clean; [done|]. by apply explicit_clean.
Qed.

(** The root a provider's validator sees. *)
Definition explicit_root (v : Value) : Prop :=
  ∃ m names, v = VObject m ∧ obj_get "type" m = Some (VString "object") ∧
    is_Some (obj_get "properties" m) ∧ obj_get "required" m = Some (VArray (VString <$> names)) ∧
    NoDup names.

Lemma dedup_spec seen l : NoDup (dedup seen l) ∧ ∀ x, x ∈ dedup seen l → x ∉ seen.
Proof.
  revert seen. induction l as [|x l IH]; intros seen; cbn.
  { split; [constructor|]. by intros x ?%elem_of_nil. }
  case_bool_decide as E; [apply IH|]. destruct (IH (x :: seen)) as [H1 H2]. split.
  - constructor; [|done]. intros Hin. apply (H2 x Hin). left.
  - intros y [->|Hy]%elem_of_cons; [done|]. intros Hs. apply (H2 y Hy). by right.
Qed.

Lemma explicit_node_object m : obj_get "type" m = Some (VString "object") →
  let m0 := explicit_node m in
  obj_get "type" m0 = Some (VString "object") ∧ is_Some (obj_get "properties" m0) ∧
  is_Some (obj_get "required" m0).
Proof.
  intros Ht m0. unfold m0, explicit_node.
  assert (Hn : null_or_absent "type" m = false) by (unfold null_or_absent; by rewrite Ht).
  assert (Ho : object_type m = true) by (unfold object_type; by rewrite Ht).
  rewrite Hn, andb_false_r, Ho. cbn [orb].
  set (mp := or_insert "properties" (VObject []) m).
  assert (Hp : obj_get "type" mp = Some (VString "object") ∧ is_Some (obj_get "properties" mp)).
  { unfold mp, or_insert, contains_key. destruct (obj_get "properties" m) eqn:Ep; cbn [is_some]; [by rewrite Ep|].
    rewrite !obj_get_insert. by rewrite Ht. }
  clearbody mp. unfold null_or_absent. destruct (obj_get "required" mp) as [v|] eqn:Er.
  - destruct (is_null v); [|naive_solver]. rewrite !obj_get_insert. naive_solver.
  - rewrite !obj_get_insert. naive_solver.
Qed.

Lemma normalize_explicit n m v' : obj_get "type" m = Some (VString "object") →
  normalize_node (S n) (VObject m) = Ok v' → explicit_root v'.
Proof.
  intros Ht H. cbn [normalize_node] in H. apply rbind_Ok in H as (m1 & E1 & H).
  apply rbind_Ok in H as (m2 & E2 & H). injection H as <-.
  apply visit_pure_spec in E2 as (H1 & H2 & _ & _).
  destruct (explicit_node_object m Ht) as (Hty & Hpr & [r Er]).
  set (m0 := explicit_node m) in *. unfold check_required in E1. rewrite Er in E1.
  destruct r as [| | | |l|]; try done.
  destruct (forallb _ l); [|done]. injection E1 as <-.
  exists m2, (dedup [] (omap as_str l)). split; [done|].
  assert (D1 : "type" ∉ CHILD_KEYS) by (apply (bool_decide_unpack _); vm_compute; exact I).
  assert (D2 : "required" ∉ CHILD_KEYS) by (apply (bool_decide_unpack _); vm_compute; exact I).
  rewrite (H1 "type" D1), (H1 "required" D2), !obj_get_replace.
  rewrite (bool_decide_eq_false_2 ("type" = "required")) by done.
  rewrite (bool_decide_eq_true_2 ("required" = "required")), Er by done.
  split_and!; [done| |done|apply dedup_spec]. apply not_eq_None_Some. rewrite H2, obj_get_replace.
  rewrite bool_decide_eq_false_2 by done. by apply not_eq_None_Some.
Qed.

(** The root of a tool schema: an explicit object, and as clean as it came. *)
Lemma normalize_root_spec bad v v' : spared bad → normalize_root v = Ok v' → Clean bad v →
  Clean bad v' ∧ explicit_root v'.
Proof.
  intros Hs H Hc. unfold normalize_root in H.
  set (w := match v with Null | VBool true => VObject [] | _ => v end) in H.
  assert (Hw : Clean bad w).
  { unfold w. destruct v as [|[]| | | |]; try done; apply Clean_nil. }
  clearbody w. clear Hc v. destruct w as [| | | | |m]; try done.
  assert (Hins : Clean bad (VObject (obj_insert "type" (VString "object") m))).
  { apply Clean_insert; [apply (bool_decide_unpack _); vm_compute; exact I| |done]. by apply spared_key. }
  assert (Hty : obj_get "type" (obj_insert "type" (VString "object") m) = Some (VString "object")).
  { by rewrite obj_get_insert. }
  destruct (obj_get "type" m) as [t|] eqn:Et;
    [|split; [by eapply normalize_clean|by eapply normalize_explicit]].
  destruct t as [| | |s| |]; try done; [split; [by eapply normalize_clean|by eapply normalize_explicit]|].
  destruct (decide (s = "object")) as [->|Hne];
    [split; [by eapply normalize_clean|by apply (normalize_explicit MAX_SCHEMA_DEPTH m)]|].
  exfalso. revert H. clear -Hne. intros H. repeat (case_match; try done).
Qed.

(** ** References *)

Lemma merge_siblings_ref reference siblings : ∀ target m,
  merge_siblings reference target siblings = Ok m →
  obj_get "$ref" target = None → obj_get "$ref" m = None.
Proof.
  induction siblings as [|[k v] siblings IH]; intros target m; cbn; [by intros [= <-]|].
  case_bool_decide as E; [apply IH|]. destruct (_ && _); [done|]. intros H Ht. eapply IH; [done|].
  rewrite obj_get_insert. by rewrite bool_decide_eq_false_2 by congruence.
Qed.

Lemma inline_clean pointer n root : ∀ stack remaining v remaining' v',
  inline_refs pointer n root stack remaining v = Ok (remaining', v') → Clean ["$ref"] v'.
Proof.
  induction n as [|n IH]; intros stack remaining v remaining' v'; [done|]. cbn [inline_refs].
  destruct (remaining =? 0); [done|]. destruct (_ && _); [done|].
  intros H. apply rbind_Ok in H as ([r1 w] & E1 & H). cbv beta iota in H.
  assert (Hw : ∀ m, w = VObject m → obj_get "$ref" m = None).
  { intros m ->. destruct (Json.get "$ref" v) as [rv|] eqn:Er; [|by injection E1 as <- ->].
    destruct (as_str rv) as [reference|]; [|done]. destruct (local_pointer reference) as [p|]; [|done].
    case_bool_decide; [done|]. destruct (pointer p root) as [target|]; [|done].
    apply rbind_Ok in E1 as ([r2 tv] & E2 & E1). cbv beta iota in E1. apply IH in E2.
    set (tw := match tv with VBool true => VObject [] | _ => tv end) in E1.
    assert (Htw : Clean ["$ref"] tw) by (unfold tw; repeat case_match; try done; apply Clean_nil).
    clearbody tw. destruct tw as [| | | | |tm]; try done.
    apply rbind_Ok in E1 as (m' & E3 & E1). injection E1 as <- <-.
    eapply merge_siblings_ref; [done|]. apply Clean_inv in Htw as [Htw _]. apply Htw. left. }
  destruct w as [| | | | |m]; try (injection H as <- <-; by apply Clean_other).
  destruct (_ || _); [done|]. apply rbind_Ok in H as ([r2 m2] & E2 & H). injection H as <- <-.
  apply visit_children_spec in E2 as (_ & H2 & _ & H4). apply Clean_object.
  - intros k ->%list_elem_of_singleton. apply H2. rewrite !obj_get_remove. by apply Hw.
  - intros w' Hw'. destruct (H4 w' Hw') as (w0 & _ & s0 & s1 & Hv). by eapply IH.
Qed.

Lemma spared_unions : spared UNION_KEYS.
Proof. unfold spared. apply list.Forall_forall. apply (bool_decide_unpack _). vm_compute. exact I. Qed.
Lemma spared_ref : spared ["$ref"].
Proof. unfold spared. apply list.Forall_forall. apply (bool_decide_unpack _). vm_compute. exact I. Qed.

(** C27: A tool schema accepted for Claude has no [anyOf] or [oneOf] at its root or at any
    schema position below it, and its root is an explicit object whose [required] is a list of
    distinct names.  For Antigravity no [$ref] is left either, whatever the references named. *)
Theorem tool_schema_clean parameters v :
  (anthropic_schema parameters = Ok v → Clean UNION_KEYS v ∧ explicit_root v) ∧
  (∀ pointer, antigravity_claude_schema pointer parameters = Ok v →
     Clean (["$ref"] ++ UNION_KEYS) v ∧ explicit_root v).
Proof.
  split.
  - intros H. apply rbind_Ok in H as (w & E & H).
    eapply normalize_root_spec; [apply spared_unions|done|].
    eapply flatten_clean; [apply spared_unions|done|by left].
  - intros pointer H. apply rbind_Ok in H as ([r w0] & E0 & H). apply rbind_Ok in H as (w & E & H).
    apply inline_clean in E0.
    destruct (normalize_root_spec UNION_KEYS w v) as [C1 X]; [apply spared_unions|done| |].
    { eapply flatten_clean; [apply spared_unions|done|by left]. }
    destruct (normalize_root_spec ["$ref"] w v) as [C2 _]; [apply spared_ref|done| |].
    { eapply flatten_clean; [apply spared_ref|done|by right]. }
    split; [by apply Clean_app|done].
Qed.

(** A schema with a nullable union and a reference to a definition. *)
Definition demo_schema : Value :=
  VObject [("$defs", VObject [("Id", VObject [("type", VString "string")])]);
           ("properties", VObject [("id", VObject [("$ref", VString "#/$defs/Id")]);
              ("note", VObject [("anyOf", VArray [VObject [("type", VString "string")];
                                                  VObject [("type", VString "null")]])])]);
           ("required", VArray [VString "id"; VString "note"; VString "id"])].
Definition demo_pointer (p : string) (v : Value) : option Value := Json.pointer ["$defs"; "Id"] v.
Definition demo_result : Value :=
  VObject [("properties", VObject [("id", VObject [("type", VString "string")]);
                                   ("note", VObject [("type", VString "string")])]);
           ("required", VArray [VString "id"]); ("type", VString "object")].

Lemma tool_schema_witness :
  antigravity_claude_schema demo_pointer (Some demo_schema) = Ok demo_result ∧
  Clean (["$ref"] ++ UNION_KEYS) demo_result ∧ explicit_root demo_result.
Proof.
  assert (E : antigravity_claude_schema demo_pointer (Some demo_schema) = Ok demo_result)
    by (vm_compute; reflexivity).
  split; [exact E|]. exact (proj2 (tool_schema_clean (Some demo_schema) demo_result) demo_pointer E).
Defined.
