(* ===== verification/Request.v ===== *)
(** * Chat requests for Codex (crates/gateway/src/compat/request.rs)

    An OpenAI chat request becomes a Responses request for the Codex backend: the model's
    effort suffix, messages, tools, response formats - and the thinking modes that the
    other translators share, with their fit to what a model supports.

    [serde_json] is the parameters [parse_json] (an error carries its message) and
    [print_json].  Levels and budgets are matched in lower case; the source lowers all of
    Unicode, which agrees with ASCII here because no letter outside ASCII lowers to a
    character of a level name or a number. *)

From Stdlib Require Import Ascii.
From stdpp Require Import base strings list gmap.
From S2P Require Import Prelude RustStr Json RegistryTypes.
Import Registry RustStr Json JsonMake.
Open Scope Z_scope.

Module Request.

Inductive TranslateError :=
  | JsonError (message : string)
  | Missing (field : string)
  | UnsupportedOption (message : string)
  | UnsupportedThinking (message : string).

Record TranslatedRequest := {
  body : string;
  model : string;
  stream : bool;
  include_usage : bool;
}.

(** ** Model suffixes and levels *)

Definition parse_model_suffix (model : string) : result TranslateError (string * option string) :=
  let invalid := UnsupportedThinking ("invalid model suffix syntax in '" +:+ model +:+ "'") in
  match rsplit_once "(" model with
  | Some (base, rest) =>
      if ends_with model ")" && negb (is_empty base) && negb (contains base "(" || contains base ")")
      then Ok (base, Some (default "" (strip_suffix ")" rest)))
      else Err invalid
  | None => if contains model ")" then Err invalid else Ok (model, None)
  end.

Definition LEVELS : list string := ["none"; "minimal"; "low"; "medium"; "high"; "xhigh"; "max"].

(** The level a budget of tokens stands for. *)
Definition budget_level (budget : Z) : string :=
  if budget =? 0 then "none" else if budget <=? 512 then "minimal" else if budget <=? 1024 then "low"
  else if budget <=? 8192 then "medium" else if budget <=? 24576 then "high" else "xhigh".

Definition normalize_thinking_level (raw : string) : result TranslateError string :=
  let lower := to_ascii_lowercase (trim raw) in
  if one_of lower LEVELS then Ok lower
  else if one_of lower ["auto"; "-1"] then Ok "medium"
  else match parse_i64 lower with
       | Some budget =>
           if budget <? -1 then Err (UnsupportedThinking ("invalid negative budget: " +:+ show_i64 budget))
           else if budget =? -1 then Ok "medium"
           else Ok (budget_level budget)
       | None => Err (UnsupportedThinking ("unsupported thinking level: '" +:+ raw +:+ "'"))
       end.

(** ** Messages *)

Definition flatten_text (content : option Value) : string :=
  match content with
  | Some (VString s) => s
  | Some (VArray parts) => String.concat "" (omap (get_str "text") parts)
  | _ => ""
  end.

Definition user_part (part : Value) : option Value :=
  if bool_decide (get_str "type" part = Some "image_url") then
    image ← get "image_url" part;
    url ← get_str "url" image;
    Some (set_some "detail" (get "detail" image)
            (obj [("type", str "input_image"); ("image_url", str url)]))
  else
    (λ text, obj [("type", str "input_text"); ("text", str text)]) <$> get_str "text" part.

Definition user_parts (content : option Value) : list Value :=
  match content with
  | Some (VArray parts) => omap user_part parts
  | other => [obj [("type", str "input_text"); ("text", str (flatten_text other))]]
  end.

Definition is_image (part : Value) : bool := is_str "input_image" (idx "type" part).

Definition tool_output (content : option Value) : Value :=
  match content with
  | Some (VArray _) =>
      let parts := user_parts content in
      if existsb is_image parts then VArray parts else VString (flatten_text content)
  | _ => VString (flatten_text content)
  end.

Definition message (role : string) (content : list Value) : Value :=
  obj [("type", str "message"); ("role", str role); ("content", VArray content)].

Definition tool_items (msg : Value) : list Value :=
  let from_anthropic := default false (get_bool "x_anthropic_tool_result" msg) in
  let output := obj [("type", str "function_call_output");
                     ("call_id", str (default "" (get_str "tool_call_id" msg)));
                     ("output", if from_anthropic then VString (flatten_text (get "content" msg))
                                else tool_output (get "content" msg))] in
  let images := if from_anthropic then filter (λ p, is_image p = true) (user_parts (get "content" msg))
                else [] in
  output :: match images with
            | [] => []
            | _ => [message "user" (obj [("type", str "input_text"); ("text", str "")] :: images)]
            end.

Definition call_item (call : Value) : Value :=
  let function := get "function" call in
  obj [("type", str "function_call"); ("call_id", str (default "" (get_str "id" call)));
       ("name", str (default "" (function ≫= get_str "name")));
       ("arguments", str (default "{}" (function ≫= get_str "arguments")))].

Definition assistant_items (msg : Value) : list Value :=
  let text := flatten_text (get "content" msg) in
  (if is_empty text then []
   else [message "assistant" [obj [("type", str "output_text"); ("text", str text)]]])
  ++ (call_item <$> default [] (get_array "tool_calls" msg)).

Definition user_items (msg : Value) : list Value :=
  match user_parts (get "content" msg) with
  | [] => []
  | content => [message "user" content]
  end.

Definition role_of (msg : Value) : string := default "user" (get_str "role" msg).

(** One turn of the loop: the text it adds to the instructions, and its input items. *)
Definition split_message (acc : string * list Value) (msg : Value) : string * list Value :=
  let '(instructions, input) := acc in
  let role := role_of msg in
  if one_of role ["system"; "developer"] then
    let text := flatten_text (get "content" msg) in
    if is_empty text then acc
    else ((if is_empty instructions then text
           else instructions +:+ String "010" (String "010" text)), input)
  else if one_of role ["tool"; "function"] then (instructions, input ++ tool_items msg)
  else if bool_decide (role = "assistant") then (instructions, input ++ assistant_items msg)
  else (instructions, input ++ user_items msg).

Definition split_messages (messages : list Value) : string * list Value :=
  foldl split_message ("", []) messages.

(** ** Tools *)

Definition map_tool (tool : Value) : option Value :=
  function ← get "function" tool;
  name ← get_str "name" function;
  Some (obj [("type", str "function"); ("name", str name);
             ("description", str (default "" (get_str "description" function)));
             ("parameters", default (obj [("type", str "object"); ("properties", obj [])])
                              (get "parameters" function));
             ("strict", VBool (default false (get_bool "strict" function)))]).

Definition map_tools (tools : list Value) : list Value := omap map_tool tools.

Definition map_tool_choice (choice : option Value) : option Value :=
  match choice with
  | Some (VString s) => Some (VString s)
  | Some (VObject o) =>
      name ← obj_get "function" o ≫= get_str "name";
      Some (obj [("type", str "function"); ("name", str name)])
  | _ => None
  end.

(** ** The request *)

Definition effort_of (o : Map) (suffix : option string) : result TranslateError (option string) :=
  match suffix with
  | Some s => Some <$> normalize_thinking_level s
  | None =>
      match obj_get "reasoning_effort" o with
      | Some effort =>
          s ← ok_or (UnsupportedThinking "reasoning_effort must be a string") (as_str effort);
          Some <$> normalize_thinking_level s
      | None =>
          match obj_get "reasoning" o with
          | Some reasoning =>
              m ← ok_or (UnsupportedThinking "reasoning must be an object") (as_object reasoning);
              match obj_get "effort" m with
              | Some effort =>
                  s ← ok_or (UnsupportedThinking "reasoning.effort must be a string") (as_str effort);
                  Some <$> normalize_thinking_level s
              | None => Ok None
              end
          | None => Ok None
          end
      end
  end.

Definition check_budget (o : Map) : result TranslateError unit :=
  match or_else (obj_get "thinking_budget" o) (obj_get "thinking" o ≫= get "budget_tokens") with
  | None => Ok tt
  | Some budget =>
      match as_i64 budget with
      | Some z => if -1 <=? z then Ok tt else Err (UnsupportedThinking "invalid thinking budget")
      | None => Err (UnsupportedThinking "invalid thinking budget")
      end
  end.

Definition format_of (rf : Value) : result TranslateError Map :=
  rf_obj ← ok_or (UnsupportedOption "response_format must be an object") (as_object rf);
  rft ← ok_or (UnsupportedOption "response_format must have a string 'type'")
          (obj_get "type" rf_obj ≫= as_str);
  if bool_decide (rft = "text") then Ok [("type", str "text")]
  else if bool_decide (rft = "json_schema") then
    js ← ok_or (UnsupportedOption "json_schema object is required for response_format json_schema")
           (obj_get "json_schema" rf_obj ≫= as_object);
    Ok (insert_some "schema" (obj_get "schema" js)
          (insert_some "strict" (obj_get "strict" js)
            (insert_some "name" (obj_get "name" js) [("type", str "json_schema")])))
  else if bool_decide (rft = "json_object") then Ok [("type", str "json_object")]
  else Err (UnsupportedOption ("unsupported response_format type: '" +:+ rft +:+ "'")).

Definition text_of (o : Map) : result TranslateError (option Value) :=
  match obj_get "response_format" o with
  | Some rf =>
      format ← format_of rf;
      Ok (Some (VObject (insert_some "verbosity" (obj_get "text" o ≫= get "verbosity")
                           [("format", VObject format)])))
  | None =>
      match obj_get "text" o ≫= as_object with
      | Some text_in =>
          match insert_some "verbosity" (obj_get "verbosity" text_in)
                  (insert_some "format" (obj_get "format" text_in) []) with
          | [] => Ok None
          | m => Ok (Some (VObject m))
          end
      | None => Ok None
      end
  end.

Definition cache_key_of (prompt_cache_key : option string) : option Value :=
  match trim <$> prompt_cache_key with
  | Some key => if is_empty key then None else Some (str key)
  | None => None
  end.

(** The body, with the model, whether to stream and whether to report usage. *)
Definition translate (o : Map) (prompt_cache_key : option string)
  : result TranslateError (Map * string * bool * bool) :=
  raw_model ← ok_or (Missing "model") (obj_get "model" o ≫= as_str);
  m ← parse_model_suffix raw_model; let '(model, suffix) := m in
  let stream := default false (obj_get "stream" o ≫= as_bool) in
  let usage := default false (obj_get "stream_options" o ≫= get_bool "include_usage") in
  messages ← ok_or (Missing "messages") (obj_get "messages" o ≫= as_array);
  let '(instructions, input) := split_messages messages in
  effort ← effort_of o suffix;
  _ ← check_budget o;
  text ← text_of o;
  let mapped := map_tools (default [] (obj_get "tools" o ≫= as_array)) in
  let out := [("input", VArray input); ("instructions", str instructions); ("model", str model);
              ("store", VBool false); ("stream", VBool true)] in
  let out := insert_some "prompt_cache_key" (cache_key_of prompt_cache_key) out in
  let out := obj_insert "reasoning" (obj [("effort", str (default "medium" effort))]) out in
  let out := match mapped with [] => out | _ => obj_insert "tools" (VArray mapped) out end in
  let out := insert_some "tool_choice" (map_tool_choice (obj_get "tool_choice" o)) out in
  let out := obj_insert "parallel_tool_calls"
               (default (VBool true) (obj_get "parallel_tool_calls" o)) out in
  Ok (insert_some "text" text out, model, stream, usage).

Section bytes.
Context (parse_json : string → result string Value) (print_json : Value → string).

Definition openai_to_codex_with_cache_key (raw : string) (prompt_cache_key : option string)
  : result TranslateError TranslatedRequest :=
  match parse_json raw with
  | Err e => Err (JsonError e)
  | Ok root =>
      o ← ok_or (Missing "body") (as_object root);
      r ← translate o prompt_cache_key; let '(out, model, stream, usage) := r in
      Ok {| body := print_json (VObject out); model := model; stream := stream; include_usage := usage |}
  end.

Definition openai_to_codex (raw : string) : result TranslateError TranslatedRequest :=
  openai_to_codex_with_cache_key raw None.

Definition extract_model (raw : string) : option string :=
  match parse_json raw with
  | Err _ => None
  | Ok root =>
      m ← get_str "model" root;
      Some match parse_model_suffix m with Ok (base, _) => base | Err _ => m end
  end.
End bytes.

(** ** Thinking modes *)

Inductive ThinkingMode :=
  | ModeNone
  | ModeAuto
  | ModeBudget (budget : Z) (* i64 *)
  | ModeLevel (level : string).

(** What the request asks for, before it is read as a mode. *)
Definition raw_effort (suffix : option string) (body : Value) : result TranslateError (option Value) :=
  match suffix with
  | Some s => Ok (Some (VString s))
  | None =>
      match get "reasoning_effort" body with
      | Some effort => Ok (Some effort)
      | None =>
          match get "reasoning" body with
          | Some reasoning =>
              m ← ok_or (UnsupportedThinking "reasoning must be an object") (as_object reasoning);
              Ok (obj_get "effort" m)
          | None => Ok None
          end
      end
  end.

Definition mode_of_effort (raw : string) : result TranslateError ThinkingMode :=
  if one_of raw ["none"; "0"] then Ok ModeNone
  else if one_of raw ["auto"; "-1"] then Ok ModeAuto
  else match parse_i64 raw with
       | Some budget =>
           if 0 <? budget then Ok (ModeBudget budget)
           else if budget =? 0 then Ok ModeNone
           else if budget =? -1 then Ok ModeAuto
           else ModeLevel <$> normalize_thinking_level raw
       | None => ModeLevel <$> normalize_thinking_level raw
       end.

Definition mode_of_budget (budget : Value) : result TranslateError ThinkingMode :=
  z ← ok_or (UnsupportedThinking "thinking budget must be an integer") (as_i64 budget);
  if z =? -1 then Ok ModeAuto else if z =? 0 then Ok ModeNone
  else if 1 <=? z then Ok (ModeBudget z)
  else Err (UnsupportedThinking "invalid negative thinking budget").

Definition thinking_mode (model : string) (body : Value)
  : result TranslateError (option ThinkingMode) :=
  m ← parse_model_suffix model; let '(_, suffix) := m in
  raw ← raw_effort suffix body;
  match raw with
  | Some raw =>
      s ← ok_or (UnsupportedThinking "reasoning effort must be a string") (as_str raw);
      Some <$> mode_of_effort (to_ascii_lowercase (trim s))
  | None =>
      match or_else (pointer ["thinking"; "budget_tokens"] body) (get "thinking_budget" body) with
      | Some budget => Some <$> mode_of_budget budget
      | None => Ok None
      end
  end.

Definition level_budget (level : string) : Z :=
  if bool_decide (level = "minimal") then 512 else if bool_decide (level = "low") then 1024
  else if bool_decide (level = "medium") then 8192 else if bool_decide (level = "high") then 24576
  else if bool_decide (level = "xhigh") then 32768 else if bool_decide (level = "max") then 128000
  else 0.

Definition ORDER : list string := ["minimal"; "low"; "medium"; "high"; "xhigh"; "max"].
Definition rank (level : string) : option nat := position (λ c, bool_decide (c = level)) ORDER.

Definition nearer (index : nat) : nat * string → nat * string → bool :=
  lex (on_key Z.ltb (λ p, Z.abs (Z.of_nat p.1 - Z.of_nat index))) (on_key Z.ltb (λ p, Z.of_nat p.1)).

Definition clamp_thinking_level (level : string) (support : ThinkingSupport) : string :=
  if one_of level (levels support) then level
  else match rank level with
       | None => level
       | Some index =>
           match min_by (nearer index) (omap (λ l, (λ p, (p, l)) <$> rank l) (levels support)) with
           | Some (_, l) => l
           | None => level
           end
       end.

Definition wrap_i64 (z : Z) : Z := (z + 2 ^ 63) mod 2 ^ 64 - 2 ^ 63.

(** [i64::clamp]: it panics ([None]) unless [min <= max]. *)
Definition clamp (b lo hi : Z) : option Z :=
  if lo <=? hi then Some (Z.max lo (Z.min hi b)) else None.

Definition budget_capable (s : ThinkingSupport) : bool := (0 <? th_min s) || (0 <? th_max s).
Definition level_capable (s : ThinkingSupport) : bool :=
  match levels s with [] => false | _ => true end.

(** A mode of the kind the model has. *)
Definition convert_mode (mode : ThinkingMode) (support : ThinkingSupport) (claude : bool)
  : result TranslateError ThinkingMode :=
  match mode with
  | ModeLevel level =>
      Ok (if negb (level_capable support) && budget_capable support
          then ModeBudget (level_budget level)
          else ModeLevel (clamp_thinking_level level support))
  | ModeBudget budget =>
      if negb (budget_capable support) && level_capable support then
        level ← normalize_thinking_level (show_i64 budget);
        Ok (ModeLevel (clamp_thinking_level level support))
      else Ok mode
  | ModeAuto =>
      if negb claude && negb (dynamic_allowed support) then
        Ok (if negb (budget_capable support) && level_capable support
            then ModeLevel (clamp_thinking_level "medium" support)
            else ModeBudget (wrap_i64 (th_min support + Z.quot (wrap_i64 (th_max support - th_min support)) 2)))
      else Ok mode
  | ModeNone => Ok mode
  end.

(** A mode within the model's limits. *)
Definition limit_mode (mode : ThinkingMode) (support : ThinkingSupport) (claude : bool)
  : option ThinkingMode :=
  match mode with
  | ModeBudget budget =>
      if budget_capable support
      then ModeBudget <$> clamp budget (th_min support) (th_max support) else Some mode
  | ModeNone =>
      Some (if negb claude && negb (zero_allowed support)
            then match levels support with
                 | level :: _ => ModeLevel level
                 | [] => ModeBudget (th_min support)
                 end
            else mode)
  | other => Some other
  end.

(** [None] is a panic. *)
Definition target_thinking_mode (show_error : TranslateError → string) (mode : ThinkingMode)
    (capability : ThinkingCapability) (claude : bool) : option (result string ThinkingMode) :=
  match capability with
  | ThinkingUnknown => Some (Ok mode)
  | Unsupported =>
      match mode with
      | ModeNone => Some (Ok ModeNone)
      | _ => Some (Err "thinking not supported for this target: unsupported option conflict")
      end
  | Supported support =>
      match convert_mode mode support claude with
      | Err e => Some (Err (show_error e))
      | Ok mode => Ok <$> limit_mode mode support claude
      end
  end.

End Request.
