(* ===== verification/RequestProps.v ===== *)
(** * Thinking modes fit the model

    A request may ask for thinking by a level, a budget or not at all; what is sent is of a
    kind the model has and within its limits, and computing it never panics. *)

From Stdlib Require Import Ascii String.
From stdpp Require Import base strings list gmap.
From S2P Require Import Prelude RustStr Json RegistryTypes Request.
Import Registry RustStr Json JsonMake Request.
Open Scope Z_scope.

(** ** Levels *)

Definition is_level (l : string) : Prop := l ∈ ORDER.

Lemma rank_Some l i : rank l = Some i → ORDER !! i = Some l.
Proof.
  intros H. apply position_Some in H as (x & Hx & Hp & _). by apply bool_decide_eq_true in Hp as ->.
Qed.

Lemma rank_level l : is_level l → is_Some (rank l).
Proof.
  unfold is_level, ORDER. rewrite !elem_of_cons, elem_of_nil.
  intros [->|[->|[->|[->|[->|[->|[]]]]]]]; vm_compute; eauto.
Qed.

Lemma nearer_min index l p r : min_by (nearer index) l = Some (p, r) →
  (p, r) ∈ l ∧ ∀ q s, (q, s) ∈ l →
    Z.abs (Z.of_nat p - Z.of_nat index) ≤ Z.abs (Z.of_nat q - Z.of_nat index).
Proof.
  intros H. pose proof (min_by_Some (nearer index) l (p, r) H) as [H1 H2]. split; [done|].
  intros q s Hq. specialize (H2 _ Hq). unfold nearer in H2. apply lex_false in H2 as [H2 _].
  unfold on_key in H2. cbn in H2. apply Z.ltb_ge in H2. lia.
Qed.

Section level.
Context (s : ThinkingSupport).

Abbreviation candidates := (omap (λ l, (λ p, (p, l)) <$> rank l) (levels s)).

Lemma candidates_elem p l : (p, l) ∈ candidates ↔ l ∈ levels s ∧ rank l = Some p.
Proof.
  rewrite list_elem_of_omap. split.
  - intros (l' & Hl' & Hr). destruct (rank l') as [q|] eqn:E; [|done]. cbn in Hr.
    injection Hr as -> ->. done.
  - intros [Hl Hr]. exists l. split; [done|]. by rewrite Hr.
Qed.

(** The level sent is one the model has, when it has any that is ordered, and none it has
    is nearer to the level asked for. *)
Lemma clamp_level_nearest level : is_level level →
  (∃ l, l ∈ levels s ∧ is_level l) →
  let r := clamp_thinking_level level s in
  r ∈ levels s ∧
  ∀ l i j k, l ∈ levels s → rank level = Some i → rank r = Some j → rank l = Some k →
    Z.abs (Z.of_nat j - Z.of_nat i) ≤ Z.abs (Z.of_nat k - Z.of_nat i).
Proof.
  intros Hl (l0 & Hl0 & Ho). unfold clamp_thinking_level, one_of. case_bool_decide as E.
  { split; [done|]. intros l i j k _ -> [= ->] _. lia. }
  destruct (rank_level level Hl) as [i Hi]. rewrite Hi.
  destruct (min_by (nearer i) candidates) as [[p r]|] eqn:Em.
  - apply nearer_min in Em as [H1 H2]. apply candidates_elem in H1 as [H1 Hp]. split; [done|].
    intros l i' j k Hin [= <-] Hj Hk. rewrite Hp in Hj. injection Hj as <-.
    apply (H2 k l). by apply candidates_elem.
  - exfalso. apply min_by_None in Em. destruct (rank_level l0 Ho) as [q Hq].
    assert (Hin : (q, l0) ∈ candidates) by by apply candidates_elem.
    rewrite Em in Hin. by apply elem_of_nil in Hin.
Qed.
End level.

(** ** Modes *)

(** What [thinking_mode] makes. *)
Definition wf_mode (m : ThinkingMode) : Prop :=
  match m with
  | ModeBudget b => 0 < b ≤ i64_max
  | ModeLevel l => is_level l
  | _ => True
  end.

Lemma level_not_none l : one_of l LEVELS = true → l ≠ "none" → is_level l.
Proof.
  unfold one_of, is_level, LEVELS, ORDER. rewrite bool_decide_eq_true. rewrite !elem_of_cons. naive_solver.
Qed.

Lemma budget_level_is_level b : b ≠ 0 → is_level (budget_level b).
Proof.
  intros Hb. unfold budget_level, is_level. rewrite (proj2 (Z.eqb_neq b 0)) by done.
  repeat case_match; apply (bool_decide_unpack _); vm_compute; exact I.
Qed.

Lemma mode_of_effort_wf s m : mode_of_effort (to_ascii_lowercase (trim s)) = Ok m → wf_mode m.
Proof.
  unfold mode_of_effort. set (r := to_ascii_lowercase (trim s)).
  assert (Hr : to_ascii_lowercase (trim r) = r) by apply lower_trim_idemp. clearbody r.
  destruct (one_of r ["none"; "0"]) eqn:E0; [by intros [= <-]|].
  destruct (one_of r ["auto"; "-1"]) eqn:E1; [by intros [= <-]|].
  assert (Hn : ModeLevel <$> normalize_thinking_level r = Ok m →
               (∀ b, parse_i64 r = Some b → b < -1) → wf_mode m).
  { intros H Hb. apply rfmap_Ok in H as (l & H & ->). cbn. unfold normalize_thinking_level in H.
    rewrite Hr in H. destruct (one_of r LEVELS) eqn:E2.
    - injection H as <-. apply level_not_none; [done|]. intros ->. done.
    - rewrite E1 in H. destruct (parse_i64 r) as [b|]; [|done].
      specialize (Hb b eq_refl). by rewrite (proj2 (Z.ltb_lt b (-1))) in H. }
  destruct (parse_i64 r) as [b|] eqn:Ep; [|intros H; by apply Hn].
  destruct (Z.ltb_spec 0 b).
  { intros [= <-]. apply parse_i64_range in Ep. unfold is_i64 in Ep. unfold wf_mode. lia. }
  destruct (Z.eqb_spec b 0); [by intros [= <-]|].
  destruct (Z.eqb_spec b (-1)); [by intros [= <-]|].
  intros Hm. apply Hn; [done|]. intros b' [= <-]. lia.
Qed.

Lemma thinking_mode_wf model body m : thinking_mode model body = Ok (Some m) → wf_mode m.
Proof.
  unfold thinking_mode. intros H. apply rbind_Ok in H as ([base suffix] & _ & H). cbv beta iota in H.
  apply rbind_Ok in H as (raw & _ & H). destruct raw as [raw|].
  - apply rbind_Ok in H as (s & _ & H). apply rfmap_Ok in H as (m' & H & [= ->]).
    by eapply mode_of_effort_wf.
  - destruct (or_else _ _) as [budget|]; [|done]. apply rfmap_Ok in H as (m' & H & [= ->]).
    apply rbind_Ok in H as (z & Hz & H). apply ok_or_Ok in Hz.
    assert (Hm : z ≤ i64_max).
    { unfold as_i64 in Hz. destruct budget as [| |[n|n|f]| | |]; try done.
      - destruct (Z.leb_spec n i64_max); by simplify_eq.
      - destruct (Z.ltb_spec n 0); [|done]. injection Hz as ->. unfold i64_max. lia. }
    repeat case_match; simplify_eq; try done. cbn. bool_to_prop. lia.
Qed.

(** ** What is sent *)

Definition ordered (s : ThinkingSupport) : Prop := ∃ l, l ∈ levels s ∧ is_level l.

(** A mode the model [s] describes can take: of a kind it has, within its limits. *)
Definition fits (s : ThinkingSupport) (claude : bool) (m : ThinkingMode) : Prop :=
  match m with
  | ModeBudget b =>
      (level_capable s = true → budget_capable s = true) ∧
      (budget_capable s = true → th_min s ≤ b ≤ th_max s)
  | ModeLevel l =>
      (budget_capable s = true → level_capable s = true) ∧ (ordered s → l ∈ levels s)
  | ModeNone => claude = true ∨ zero_allowed s = true
  | ModeAuto => claude = true ∨ dynamic_allowed s = true
  end.

Lemma convert_level_fits s claude l : is_level l →
  (budget_capable s = true → level_capable s = true) → fits s claude (ModeLevel (clamp_thinking_level l s)).
Proof. intros Hl Hk. split; [done|]. intros Ho. by apply (clamp_level_nearest s l). Qed.

(** The midpoint of valid limits does not overflow. *)
Lemma midpoint s : 0 ≤ th_min s → th_min s ≤ th_max s → is_i64 (th_max s) →
  th_min s ≤ wrap_i64 (th_min s + Z.quot (wrap_i64 (th_max s - th_min s)) 2) ≤ th_max s.
Proof.
  unfold is_i64, i64_min, i64_max. intros H0 H1 H2.
  assert (Hw : ∀ z, 0 ≤ z < 2 ^ 63 → wrap_i64 z = z).
  { intros z Hz. unfold wrap_i64. rewrite Z.mod_small by lia. lia. }
  rewrite (Hw (th_max s - th_min s)) by lia. rewrite Z.quot_div_nonneg by lia.
  assert (Hd : 0 ≤ (th_max s - th_min s) / 2 ≤ th_max s - th_min s).
  { split; [apply Z.div_pos; lia|apply Z.div_le_upper_bound; lia]. }
  rewrite Hw by lia. lia.
Qed.

Lemma limit_fits s claude m : 0 ≤ th_min s → th_min s ≤ th_max s →
  (∀ b, m = ModeBudget b → level_capable s = true → budget_capable s = true) →
  (∀ l, m = ModeLevel l → fits s claude m) → (m = ModeAuto → fits s claude m) →
  ∃ m', limit_mode m s claude = Some m' ∧ fits s claude m'.
Proof.
  intros H0 H1 Hb Hl Ha. destruct m as [| |b|l].
  - cbn. destruct claude, (zero_allowed s) eqn:Ez; cbn; eexists; (split; [reflexivity|]); try (cbn; tauto).
    unfold fits, level_capable, budget_capable. destruct (levels s) as [|l ls] eqn:El; cbn.
    + split; [done|lia].
    + split; [done|]. intros _. left.
  - cbn. eexists. split; [reflexivity|]. by apply Ha.
  - cbn [limit_mode]. destruct (budget_capable s) eqn:Ec.
    + unfold clamp. rewrite (proj2 (Z.leb_le _ _)) by done. eexists. split; [reflexivity|]. split; [done|].
      intros _. lia.
    + eexists. split; [reflexivity|]. split; [by intros ?%(Hb b)|]. by rewrite Ec.
  - cbn. eexists. split; [reflexivity|]. by eapply Hl.
Qed.

(** A budget as a level. *)
Lemma normalize_budget b : 0 < b ≤ i64_max →
  normalize_thinking_level (show_i64 b) = Ok (budget_level b).
Proof.
  intros Hb. assert (Hd : all_bytes is_ascii_digit (show_i64 b) = true).
  { unfold show_i64. rewrite (proj2 (Z.ltb_ge b 0)) by lia. by apply show_u64_digits. }
  destruct (digits_plain _ Hd) as [H1 H2]. unfold normalize_thinking_level. rewrite H1, H2.
  assert (Hp : parse_i64 (show_i64 b) = Some b) by (apply parse_show_i64; lia).
  assert (Hne : ∀ l, l ∈ LEVELS ++ ["auto"; "-1"] → show_i64 b ≠ l).
  { assert (Hl : Forall (λ l, all_bytes is_ascii_digit l = false) (LEVELS ++ ["auto"; "-1"]))
      by by repeat constructor.
    rewrite list.Forall_forall in Hl. intros l Hin <-. by rewrite (Hl _ Hin) in Hd. }
  assert (Hone : ∀ ls, ls ⊆ LEVELS ++ ["auto"; "-1"] → one_of (show_i64 b) ls = false).
  { intros ls Hls. apply bool_decide_eq_false. intros Hin. by apply (Hne (show_i64 b)); [apply Hls|]. }
  rewrite Hone by (intros l Hl; apply elem_of_app; by left).
  rewrite Hone by (intros l Hl; apply elem_of_app; by right). rewrite Hp.
  rewrite (proj2 (Z.ltb_ge b (-1))), (proj2 (Z.eqb_neq b (-1))) by lia. done.
Qed.

Lemma convert_fits s claude m : wf_mode m → 0 ≤ th_min s → th_min s ≤ th_max s → is_i64 (th_max s) →
  ∃ m', convert_mode m s claude = Ok m' ∧
    (∀ b, m' = ModeBudget b → level_capable s = true → budget_capable s = true) ∧
    (∀ l, m' = ModeLevel l → fits s claude m') ∧ (m' = ModeAuto → fits s claude m').
Proof.
  intros Hm H0 H1 H2.
  assert (Hlevel : ∀ l, is_level l → negb (level_capable s) && budget_capable s = false →
    fits s claude (ModeLevel (clamp_thinking_level l s))).
  { intros l Hl Hk. apply convert_level_fits; [done|]. intros Hb. rewrite Hb, andb_true_r in Hk.
    by destruct (level_capable s). }
  destruct m as [| |b|l]; cbn [convert_mode].
  - eexists. split; [reflexivity|]. done.
  - destruct (negb claude && negb (dynamic_allowed s)) eqn:Ed.
    + destruct (negb (budget_capable s) && level_capable s) eqn:Ek; eexists; (split; [reflexivity|]).
      * split_and!; [done| |done]. intros _ _. apply Hlevel; [by repeat constructor|].
        apply andb_true_iff in Ek as [_ ->]. done.
      * split_and!; [|done..]. intros _ _ Hl. rewrite Hl, andb_true_r in Ek. by destruct (budget_capable s).
    + eexists. split; [reflexivity|]. split_and!; [done..|]. intros _. cbn.
      destruct claude, (dynamic_allowed s); cbn in Ed; auto.
  - destruct (negb (budget_capable s) && level_capable s) eqn:Ek.
    + rewrite normalize_budget by done. cbn. eexists. split; [reflexivity|]. split_and!; [done| |done].
      intros _ _. apply Hlevel; [apply budget_level_is_level; cbn in Hm; lia|].
      apply andb_true_iff in Ek as [_ ->]. done.
    + eexists. split; [reflexivity|]. split_and!; [|done..]. intros _ _ Hl. rewrite Hl, andb_true_r in Ek.
      by destruct (budget_capable s).
  - destruct (negb (level_capable s) && budget_capable s) eqn:Ek; eexists; (split; [reflexivity|]).
    + split_and!; [|done..]. intros _ _ _. by apply andb_true_iff in Ek as [_ ->].
    + split_and!; [done| |done]. intros _ _. by apply Hlevel.
Qed.

Section target.
Context (from_str : string → result string (option ThinkingSupport))
        (show_error : TranslateError → string).
(** The limits of a profile are 64-bit integers. *)
Hypothesis i64_profile : ∀ raw s, from_str raw = Ok (Some s) → is_i64 (th_min s) ∧ is_i64 (th_max s).

(** Thinking fits the model.  Whatever a request asks for - a level, a budget, automatic
    or no thinking - against whatever profile the registry accepts: computing what is sent
    does not panic and does not fail on a model that thinks; the result is of a kind the
    model has, a budget lies within its limits, a level is one it lists, and thinking is
    left automatic or off only where the model allows it (Claude's translator decides that
    itself).  A model that does not think gets an error unless no thinking was asked for,
    an unknown model gets the request unchanged. *)
Theorem thinking_fits (d : ModelDescriptor) (provider model : string) (body : Value)
  (cap : ThinkingCapability) (mode : ThinkingMode) (claude : bool)
  (Hcap : thinking_capability from_str d provider = Ok cap)
  (Hmode : thinking_mode model body = Ok (Some mode)) :
  match cap with
  | Supported s => ∃ mode', target_thinking_mode show_error mode cap claude = Some (Ok mode') ∧
                            fits s claude mode'
  | Unsupported => match mode with
                   | ModeNone => target_thinking_mode show_error mode cap claude = Some (Ok ModeNone)
                   | _ => ∃ e, target_thinking_mode show_error mode cap claude = Some (Err e)
                   end
  | ThinkingUnknown => target_thinking_mode show_error mode cap claude = Some (Ok mode)
  end.
Proof.
  apply thinking_mode_wf in Hmode. destruct cap as [| |s]; [done|by destruct mode; cbn; eauto|].
  unfold thinking_capability in Hcap. destruct (metadata d !! _) as [raw|]; [|done].
  destruct (from_str raw) as [[s'|]|] eqn:Ef; try done.
  destruct (_ || _) eqn:Eb in Hcap; [done|]. injection Hcap as ->.
  apply orb_false_iff in Eb as [[H1 H2]%orb_false_iff _]. bool_to_prop.
  destruct (i64_profile _ _ Ef) as [_ H3].
  destruct (convert_fits s claude mode) as (m & Em & Hb & Hl & Ha); [done|lia|lia|done|].
  destruct (limit_fits s claude m) as (m' & Em' & Hf); [lia|lia|done..|].
  exists m'. cbn [target_thinking_mode]. rewrite Em, Em'. done.
Qed.
End target.

(** ** Model suffixes *)

Lemma chars_reverse_str s : chars (reverse_str s) = reverse (chars s).
Proof. unfold reverse_str. by rewrite list_ascii_of_string_of_list_ascii. Qed.

Lemma reverse_str_involutive s : reverse_str (reverse_str s) = s.
Proof. apply chars_inj. by rewrite !chars_reverse_str, reverse_involutive. Qed.

Lemma strip_suffix_Some p s t : strip_suffix p s = Some t ↔ s = t +:+ p.
Proof.
  unfold strip_suffix. rewrite fmap_Some. split.
  - intros (r & H & ->). apply strip_prefix_Some in H. apply chars_inj.
    rewrite chars_app, chars_reverse_str. apply (f_equal chars) in H.
    rewrite chars_app, !chars_reverse_str in H.
    by rewrite <- (reverse_involutive (chars s)), H, reverse_app, reverse_involutive.
  - intros ->. exists (reverse_str t). rewrite reverse_str_involutive. split; [|done].
    apply strip_prefix_Some. apply chars_inj.
    by rewrite chars_app, !chars_reverse_str, chars_app, reverse_app.
Qed.

(** A suffix is read off exactly when the name is [base(suffix)] with a base that is not
    empty and has no parentheses; every other name with a parenthesis is refused. *)
Theorem model_suffix_exact (model base : string) (suffix : option string) :
  parse_model_suffix model = Ok (base, suffix) →
  match suffix with
  | Some s => model = base +:+ String "(" (s +:+ ")") ∧ base ≠ "" ∧
              contains base "(" = false ∧ contains base ")" = false
  | None => model = base ∧ contains model ")" = false
  end.
Proof.
  unfold parse_model_suffix. destruct (rsplit_once "(" model) as [[l r]|] eqn:E.
  - destruct (_ && _) eqn:Eb; [|done]. intros [= <- <-]. bool_to_prop.
    apply rsplit_once_Some in E as ->. assert (Hs : ∃ t, r = t +:+ ")").
    { match goal with H : ends_with _ _ = true |- _ => unfold ends_with in H; rename H into He end.
      destruct (strip_suffix _ _) as [t|] eqn:Es in He; [|done]. apply strip_suffix_Some in Es.
      apply (f_equal chars) in Es. rewrite !chars_app in Es. change (chars ")") with [")"%char] in Es.
      change (chars (String "(" r)) with ("("%char :: chars r) in Es.
      destruct (chars r) as [|x k _] eqn:Er using rev_ind.
      - by apply app_inj_tail in Es as [_ Es].
      - rewrite app_comm_cons, app_assoc in Es. apply app_inj_tail in Es as [_ ->].
        exists (string_of_list_ascii k). apply chars_inj. rewrite chars_app, Er.
        by rewrite list_ascii_of_string_of_list_ascii. }
    destruct Hs as [t ->]. rewrite (proj2 (strip_suffix_Some ")" (t +:+ ")") t) eq_refl). cbn [default].
    split_and!; [done|by intros ->|done..].
  - destruct (contains model ")") eqn:Ec; [done|]. by intros [= <- <-].
Qed.

(** ** A request through the pipeline *)

Module ThinkingDemo.
Definition profile : ThinkingSupport :=
  {| th_min := 0; th_max := 0; zero_allowed := false; dynamic_allowed := false;
     levels := ["low"; "medium"] |}.
Definition from_str (raw : string) : result string (option ThinkingSupport) := Ok (Some profile).
Definition model : ModelDescriptor :=
  with_metadata (ModelDescriptor_new "gpt-5" "openai") {["thinking.codex" := "profile"]}.

Lemma thinking_fits_witness :
  thinking_mode "gpt-5(high)" (VObject []) = Ok (Some (ModeLevel "high")) ∧
  target_thinking_mode (λ _, "") (ModeLevel "high") (Supported profile) false
  = Some (Ok (ModeLevel "medium")) ∧
  ∃ mode', target_thinking_mode (λ _, "") (ModeLevel "high") (Supported profile) false
           = Some (Ok mode') ∧ fits profile false mode'.
Proof.
  split_and!; [vm_compute; reflexivity|vm_compute; reflexivity|].
  apply (thinking_fits from_str (λ _, "")) with (d := model) (provider := "codex")
    (model := "gpt-5(high)") (body := VObject []) (cap := Supported profile).
  - intros raw s [= <-]. unfold is_i64, i64_min, i64_max, profile. cbn [th_min th_max]. lia.
  - vm_compute. reflexivity.
  - vm_compute. reflexivity.
Defined.
End ThinkingDemo.
