(* ===== verification/ResponsesStream.v ===== *)
(** * The Responses stream (crates/gateway/src/compat/responses.rs, lines 690-1312)

    Decoded events as the frames of an OpenAI Responses stream, and as one Responses object.

    A frame is its event name and its payload; [sse_frame] is the text that is sent, and
    [stamp_bytes] what [stamp_sequence] does to that text: it is the stamping of the payload
    ([stamp_frame]) whenever the JSON library reads back what it wrote, which
    [stamp_bytes_frame] states.  [parse_json] is [serde_json::from_str]. *)

From Stdlib Require Import Ascii.
From stdpp Require Import base strings list.
From S2P Require Import Prelude RustStr Json Sse Wire.
Import RustStr Sse Wire JsonMake.
Open Scope Z_scope.

Module ResponsesStream.

(** ** Frames *)

(** A frame whose payload names its type. *)
Definition frame (kind : string) (fields : list (string * Json.Value)) : Frame :=
  {| event_name := kind; payload := obj (("type", str kind) :: fields) |}.

Section bytes.
Context (parse_json : string → option Json.Value) (print_json : Json.Value → string).

Definition sse_frame (f : Frame) : string :=
  "event: " +:+ event_name f +:+ String LF "data: " +:+ print_json (payload f)
    +:+ String LF (String LF "").

(** [text.find("\ndata: ")]: what is before the data, this marker included, and the data. *)
Fixpoint split_data (text : string) : option (string * string) :=
  match strip_prefix (String LF "data: ") text with
  | Some data => Some (String LF "data: ", data)
  | None =>
      match text with
      | EmptyString => None
      | String a text => (λ p, (String a p.1, p.2)) <$> split_data text
      end
  end.

Definition stamp_bytes (next : Z) (text : string) : string * Z :=
  match split_data text with
  | None => (text, next)
  | Some (head, rest) =>
      match parse_json (trim_end_matches LF rest) with
      | Some (Json.VObject o) =>
          (head +:+ print_json (Json.VObject (Json.obj_insert "sequence_number" (uint next) o))
             +:+ String LF (String LF ""), next + 1)
      | _ => (text, next)
      end
  end.
End bytes.

Definition stamp_frame (next : Z) (f : Frame) : Frame :=
  {| event_name := event_name f; payload := set "sequence_number" (uint next) (payload f) |}.

Fixpoint stamp_sequence (frames : list Frame) (next : Z) : list Frame * Z :=
  match frames with
  | [] => ([], next)
  | f :: frames =>
      let '(fs, n) := stamp_sequence frames (next + 1) in (stamp_frame next f :: fs, n)
  end.

(** ** The renderer *)

Definition build_usage_json (usage : option Usage) : Json.Value :=
  match usage with
  | None => nul
  | Some u =>
      let value := obj [("input_tokens", uint (prompt_tokens u));
                        ("output_tokens", uint (completion_tokens u));
                        ("total_tokens", uint (total_tokens u));
                        ("output_tokens_details", obj [("reasoning_tokens", uint (reasoning_tokens u))])] in
      let value := if cached_tokens_known u
                   then set "input_tokens_details" (obj [("cached_tokens", uint (cached_tokens u))]) value
                   else value in
      if cache_write_tokens_known u then
        let value := match Json.get "input_tokens_details" value with
                     | None => set "input_tokens_details" (obj []) value
                     | Some _ => value
                     end in
        set2 "input_tokens_details" "cache_write_tokens" (uint (cache_write_tokens u)) value
      else value
  end.

Inductive TextItemState :=
  | Unstarted
  | Open (item_id : string) (output_index : Z)
  | TextDone.

Record ToolCallItem := {
  item_id : string;
  output_index : Z;
  decoder_index : Z;
  call_id : string;
  name : string;
  arguments : string;
  args_done_emitted : bool;
  item_done_emitted : bool;
}.

(** [BTreeMap<u64, Value>]: entries in key order. *)
Fixpoint index_insert (k : Z) (v : Json.Value) (m : list (Z * Json.Value)) : list (Z * Json.Value) :=
  match m with
  | [] => [(k, v)]
  | (j, w) :: m' =>
      if k <? j then (k, v) :: m else if k =? j then (k, v) :: m' else (j, w) :: index_insert k v m'
  end.

Record Renderer := {
  id : string;
  model : string;
  created : Z;
  created_sent : bool;
  terminated : bool;
  output_limit_reached : bool;
  failure : option string;
  usage : option Usage;
  text_accumulator : string;
  reasoning_accumulator : string;
  reasoning_signature : option string;
  reasoning_redacted : bool;
  text_state : TextItemState;
  tools : list ToolCallItem;
  next_output_index : Z;
  closed_text : list (Z * Json.Value);
  reasoning_index : option Z;
  next_sequence : Z;
}.

Definition new (m : string) (c : Z) : Renderer :=
  {| id := "resp_" +:+ show_i64 c; model := m; created := c; created_sent := false;
     terminated := false; output_limit_reached := false; failure := None; usage := None;
     text_accumulator := ""; reasoning_accumulator := ""; reasoning_signature := None;
     reasoning_redacted := false; text_state := Unstarted; tools := []; next_output_index := 0;
     closed_text := []; reasoning_index := None; next_sequence := 0 |}.

(** Assignments to the fields that change. *)
Definition with_identity (r : Renderer) (i : string) (sent : bool) : Renderer :=
  {| id := i; model := model r; created := created r; created_sent := sent;
     terminated := terminated r; output_limit_reached := output_limit_reached r;
     failure := failure r; usage := usage r; text_accumulator := text_accumulator r;
     reasoning_accumulator := reasoning_accumulator r; reasoning_signature := reasoning_signature r;
     reasoning_redacted := reasoning_redacted r; text_state := text_state r; tools := tools r;
     next_output_index := next_output_index r; closed_text := closed_text r;
     reasoning_index := reasoning_index r; next_sequence := next_sequence r |}.
Definition with_outcome (r : Renderer) (t l : bool) (f : option string) (u : option Usage) : Renderer :=
  {| id := id r; model := model r; created := created r; created_sent := created_sent r;
     terminated := t; output_limit_reached := l; failure := f; usage := u;
     text_accumulator := text_accumulator r; reasoning_accumulator := reasoning_accumulator r;
     reasoning_signature := reasoning_signature r; reasoning_redacted := reasoning_redacted r;
     text_state := text_state r; tools := tools r; next_output_index := next_output_index r;
     closed_text := closed_text r; reasoning_index := reasoning_index r;
     next_sequence := next_sequence r |}.
Definition with_text (r : Renderer) (a : string) (s : TextItemState) (n : Z)
    (c : list (Z * Json.Value)) : Renderer :=
  {| id := id r; model := model r; created := created r; created_sent := created_sent r;
     terminated := terminated r; output_limit_reached := output_limit_reached r;
     failure := failure r; usage := usage r; text_accumulator := a;
     reasoning_accumulator := reasoning_accumulator r; reasoning_signature := reasoning_signature r;
     reasoning_redacted := reasoning_redacted r; text_state := s; tools := tools r;
     next_output_index := n; closed_text := c; reasoning_index := reasoning_index r;
     next_sequence := next_sequence r |}.
Definition with_reasoning (r : Renderer) (a : string) (sig : option string) (red : bool)
    (i : option Z) (n : Z) : Renderer :=
  {| id := id r; model := model r; created := created r; created_sent := created_sent r;
     terminated := terminated r; output_limit_reached := output_limit_reached r;
     failure := failure r; usage := usage r; text_accumulator := text_accumulator r;
     reasoning_accumulator := a; reasoning_signature := sig; reasoning_redacted := red;
     text_state := text_state r; tools := tools r; next_output_index := n;
     closed_text := closed_text r; reasoning_index := i; next_sequence := next_sequence r |}.
Definition with_tools (r : Renderer) (ts : list ToolCallItem) (n : Z) : Renderer :=
  {| id := id r; model := model r; created := created r; created_sent := created_sent r;
     terminated := terminated r; output_limit_reached := output_limit_reached r;
     failure := failure r; usage := usage r; text_accumulator := text_accumulator r;
     reasoning_accumulator := reasoning_accumulator r; reasoning_signature := reasoning_signature r;
     reasoning_redacted := reasoning_redacted r; text_state := text_state r; tools := ts;
     next_output_index := n; closed_text := closed_text r; reasoning_index := reasoning_index r;
     next_sequence := next_sequence r |}.
Definition with_sequence (r : Renderer) (s : Z) : Renderer :=
  {| id := id r; model := model r; created := created r; created_sent := created_sent r;
     terminated := terminated r; output_limit_reached := output_limit_reached r;
     failure := failure r; usage := usage r; text_accumulator := text_accumulator r;
     reasoning_accumulator := reasoning_accumulator r; reasoning_signature := reasoning_signature r;
     reasoning_redacted := reasoning_redacted r; text_state := text_state r; tools := tools r;
     next_output_index := next_output_index r; closed_text := closed_text r;
     reasoning_index := reasoning_index r; next_sequence := s |}.

(** Every step returns the frames it pushes and the next renderer. *)
Abbreviation step := (list Frame * Renderer)%type.

Definition ensure_created_frame (r : Renderer) : step :=
  if created_sent r then ([], r)
  else ([frame "response.created"
           [("response", obj [("id", str (id r)); ("object", str "response");
                              ("status", str "in_progress"); ("model", str (model r))])]],
        with_identity r (id r) true).

Definition item_status (r : Renderer) : string :=
  if output_limit_reached r then "incomplete" else "completed".

Definition item_done (index : Z) (item : Json.Value) : Frame :=
  frame "response.output_item.done" [("output_index", uint index); ("item", item)].
Definition item_added (index : Z) (item : Json.Value) : Frame :=
  frame "response.output_item.added" [("output_index", uint index); ("item", item)].

Definition text_item (r : Renderer) (i : string) : Json.Value :=
  let item := obj [("id", str i); ("type", str "message"); ("status", str (item_status r));
                   ("role", str "assistant");
                   ("content", Json.VArray [obj [("type", str "output_text");
                                                 ("text", str (text_accumulator r))]])] in
  let item := if is_empty (reasoning_accumulator r) then item
              else set "reasoning_content" (str (reasoning_accumulator r)) item in
  let item := set_some "reasoning_signature" (str <$> reasoning_signature r) item in
  if reasoning_redacted r then set "reasoning_redacted" (Json.VBool true) item else item.

Definition close_text_item (r : Renderer) : step :=
  match text_state r with
  | Open i index =>
      let item := text_item r i in
      ([item_done index item],
       with_text r "" TextDone (next_output_index r) (index_insert index item (closed_text r)))
  | _ => ([], r)
  end.

Section render.
Context (parse_json : string → option Json.Value).

Definition is_server_search (nm cid : string) : bool :=
  bool_decide (nm = "web_search") && starts_with cid "srvtoolu_".

Definition tool_value (t : ToolCallItem) (status : string) : Json.Value :=
  if is_server_search (name t) (call_id t) then
    let query := default nul (parse_json (arguments t) ≫= Json.get "query") in
    obj [("id", str (item_id t)); ("type", str "web_search_call"); ("status", str status);
         ("action", obj [("type", str "search"); ("query", query)])]
  else
    obj [("id", str (item_id t)); ("type", str "function_call"); ("status", str status);
         ("arguments", str (arguments t)); ("call_id", str (call_id t)); ("name", str (name t))].

Definition tool_closed (t : ToolCallItem) : ToolCallItem :=
  {| item_id := item_id t; output_index := output_index t; decoder_index := decoder_index t;
     call_id := call_id t; name := name t; arguments := arguments t;
     args_done_emitted := true; item_done_emitted := true |}.

Definition close_tool_item (status : string) (t : ToolCallItem) : list Frame * ToolCallItem :=
  ((if args_done_emitted t then []
    else [frame "response.function_call_arguments.done"
            [("item_id", str (item_id t)); ("output_index", uint (output_index t));
             ("arguments", str (arguments t))]])
   ++ (if item_done_emitted t then [] else [item_done (output_index t) (tool_value t status)]),
   tool_closed t).

(** [for i in 0..tools.len()]. *)
Fixpoint close_tools (status : string) (ts : list ToolCallItem) : list Frame * list ToolCallItem :=
  match ts with
  | [] => ([], [])
  | t :: ts =>
      let '(f, t) := close_tool_item status t in
      let '(fs, ts) := close_tools status ts in (f ++ fs, t :: ts)
  end.

Definition reasoning_id (index : Z) : string := "rs_" +:+ show_u64 index.

Definition ensure_reasoning_item (r : Renderer) : list Frame * Renderer * Z :=
  let '(out, r) := ensure_created_frame r in
  match reasoning_index r with
  | Some index => (out, r, index)
  | None =>
      let index := next_output_index r in
      (out ++ [item_added index (obj [("id", str (reasoning_id index)); ("type", str "reasoning");
                                      ("summary", Json.VArray [])])],
       with_reasoning r (reasoning_accumulator r) (reasoning_signature r) (reasoning_redacted r)
         (Some index) (index + 1), index)
  end.

Definition reasoning_item (r : Renderer) (index : Z) : Json.Value :=
  set_some "encrypted_content" (str <$> reasoning_signature r)
    (obj [("id", str (reasoning_id index)); ("type", str "reasoning");
          ("summary", Json.VArray (if is_empty (reasoning_accumulator r) then []
                                   else [obj [("type", str "summary_text");
                                              ("text", str (reasoning_accumulator r))]]))]).

Definition close_reasoning_item (r : Renderer) : list Frame :=
  match reasoning_index r with
  | Some index => [item_done index (reasoning_item r index)]
  | None => []
  end.

Definition status_of (r : Renderer) : string :=
  match failure r with
  | Some _ => "failed"
  | None => if output_limit_reached r then "incomplete"
            else if terminated r then "completed" else "in_progress"
  end.

Definition output_items (r : Renderer) : list (Z * Json.Value) :=
  let items := closed_text r in
  let items := match reasoning_index r with
               | Some index => index_insert index (reasoning_item r index) items
               | None => items
               end in
  let items := match text_state r with
               | Open i index =>
                   index_insert index
                     (obj [("id", str i); ("type", str "message"); ("status", str "in_progress");
                           ("role", str "assistant");
                           ("content", Json.VArray [obj [("type", str "output_text");
                                                         ("text", str (text_accumulator r))]])]) items
               | _ => items
               end in
  foldl (λ items t, index_insert (output_index t) (tool_value t (item_status r)) items) items (tools r).

Definition current_response (r : Renderer) : Json.Value :=
  let payload := obj [("id", str (id r)); ("object", str "response"); ("created_at", int (created r));
                      ("status", str (status_of r)); ("model", str (model r));
                      ("output", Json.VArray (output_items r).*2);
                      ("usage", build_usage_json (usage r))] in
  let payload := if output_limit_reached r
                 then set "incomplete_details" (obj [("reason", str "max_output_tokens")]) payload
                 else payload in
  set_some "error" ((λ err, obj [("message", str err); ("type", str "server_error")]) <$> failure r)
    payload.

(** The three steps that close what is open. *)
Definition close_items (r : Renderer) : step :=
  let reasoning := close_reasoning_item r in
  let '(text, r) := close_text_item r in
  let '(fs, ts) := close_tools (item_status r) (tools r) in
  (reasoning ++ text ++ fs, with_tools r ts (next_output_index r)).

(** The text item a delta goes to. *)
Definition open_text (r : Renderer) : list Frame * Renderer * string * Z :=
  match text_state r with
  | Open i index => ([], r, i, index)
  | _ =>
      let index := next_output_index r in
      let i := "msg_" +:+ show_u64 index in
      ([item_added index (obj [("id", str i); ("type", str "message"); ("status", str "in_progress");
                               ("role", str "assistant"); ("content", Json.VArray [])]);
        frame "response.content_part.added"
          [("output_index", uint index); ("content_index", uint 0); ("item_id", str i);
           ("part", obj [("type", str "output_text"); ("text", str "")])]],
       with_text r (text_accumulator r) (Open i index) (index + 1) (closed_text r), i, index)
  end.

Definition tool_begun (index decoder : Z) (cid nm : string) : ToolCallItem :=
  {| item_id := if is_server_search nm cid then cid else "fc_" +:+ show_u64 index;
     output_index := index; decoder_index := decoder; call_id := cid; name := nm; arguments := "";
     args_done_emitted := false; item_done_emitted := false |}.

Definition takes_args (decoder : Z) (t : ToolCallItem) : bool :=
  (decoder_index t =? decoder) && negb (args_done_emitted t).

Definition add_args (delta : string) (t : ToolCallItem) : ToolCallItem :=
  {| item_id := item_id t; output_index := output_index t; decoder_index := decoder_index t;
     call_id := call_id t; name := name t; arguments := arguments t +:+ delta;
     args_done_emitted := args_done_emitted t; item_done_emitted := item_done_emitted t |}.

(** The first tool that takes the arguments, updated. *)
Fixpoint push_args (decoder : Z) (delta : string) (ts : list ToolCallItem)
  : option (ToolCallItem * list ToolCallItem) :=
  match ts with
  | [] => None
  | t :: ts =>
      if takes_args decoder t then Some (add_args delta t, add_args delta t :: ts)
      else (λ p, (p.1, t :: p.2)) <$> push_args decoder delta ts
  end.

Definition response_id_of (response_id : string) : string :=
  if starts_with response_id "resp_" then response_id else "resp_" +:+ response_id.

Definition render_unstamped (r : Renderer) (event : CodexEvent) : step :=
  if terminated r then ([], r) else
  match event with
  | Created response_id =>
      let r := if is_empty response_id then r
               else with_identity r (response_id_of response_id) (created_sent r) in
      ensure_created_frame r
  | ReasoningDelta delta =>
      let '(out, r, index) := ensure_reasoning_item r in
      (out ++ [frame "response.reasoning_text.delta"
                 [("delta", str delta); ("output_index", uint index);
                  ("item_id", str (reasoning_id index))]],
       with_reasoning r (reasoning_accumulator r +:+ delta) (reasoning_signature r)
         (reasoning_redacted r) (reasoning_index r) (next_output_index r))
  | ReasoningSignature sig =>
      let '(out, r, _) := ensure_reasoning_item r in
      (out, with_reasoning r (reasoning_accumulator r) (Some sig) (reasoning_redacted r)
              (reasoning_index r) (next_output_index r))
  | ReasoningRedacted =>
      let '(out, r, _) := ensure_reasoning_item r in
      (out, with_reasoning r (reasoning_accumulator r) (reasoning_signature r) true
              (reasoning_index r) (next_output_index r))
  | TextDelta delta =>
      let '(out, r) := ensure_created_frame r in
      let '(out', r, i, index) := open_text r in
      (out ++ out' ++ [frame "response.output_text.delta"
                         [("output_index", uint index); ("content_index", uint 0);
                          ("item_id", str i); ("delta", str delta)]],
       with_text r (text_accumulator r +:+ delta) (text_state r) (next_output_index r) (closed_text r))
  | ToolCallBegin decoder cid nm =>
      let '(out, r) := ensure_created_frame r in
      let '(out', r) := close_text_item r in
      let index := next_output_index r in
      let t := tool_begun index decoder cid nm in
      (out ++ out' ++ [item_added index (tool_value t "in_progress")],
       with_tools r (tools r ++ [t]) (index + 1))
  | ToolArgsDelta decoder delta =>
      let '(out, r) := ensure_created_frame r in
      match push_args decoder delta (tools r) with
      | Some (t, ts) =>
          (out ++ [frame "response.function_call_arguments.delta"
                     [("output_index", uint (output_index t)); ("item_id", str (item_id t));
                      ("delta", str delta)]],
           with_tools r ts (next_output_index r))
      | None => (out, r)
      end
  | OutputLimitReached =>
      ([], with_outcome r (terminated r) true (failure r) (usage r))
  | Completed u =>
      let '(out, r) := ensure_created_frame r in
      let '(out', r) := close_items r in
      let r := with_outcome r true (output_limit_reached r) (failure r) u in
      (out ++ out' ++ [frame (if output_limit_reached r then "response.incomplete"
                              else "response.completed") [("response", current_response r)]], r)
  | Failed message =>
      let '(out, r) := close_items r in
      let r := with_outcome r true (output_limit_reached r) (Some message) (usage r) in
      (out ++ [frame "response.failed"
                 [("response", obj [("id", str (id r)); ("object", str "response");
                                    ("status", str "failed");
                                    ("error", obj [("message", str message);
                                                   ("type", str "server_error")])])]], r)
  end.

Definition render (r : Renderer) (event : CodexEvent) : step :=
  let '(out, r) := render_unstamped r event in
  let '(out, n) := stamp_sequence out (next_sequence r) in (out, with_sequence r n).

Definition close_unterminated (r : Renderer) : step :=
  render r (Failed "upstream stream ended before completion").

Fixpoint renders (r : Renderer) (events : list CodexEvent) : step :=
  match events with
  | [] => ([], r)
  | e :: events =>
      let '(out, r) := render r e in
      let '(out', r) := renders r events in (out ++ out', r)
  end.

(** The loop of [responses_response]: it stops once the renderer is terminated. *)
Fixpoint feed_until_terminated (r : Renderer) (events : list CodexEvent) : Renderer :=
  match events with
  | [] => r
  | e :: events =>
      let r := (render r e).2 in if terminated r then r else feed_until_terminated r events
  end.

Definition responses_response (events : list CodexEvent) (m : string) (c : Z)
  : result string Json.Value :=
  let r := feed_until_terminated (new m c) events in
  let r := if terminated r then r else (close_unterminated r).2 in
  match failure r with
  | Some err => Err err
  | None => Ok (current_response r)
  end.
End render.

End ResponsesStream.
