(* ===== verification/ResponsesProps.v ===== *)
(** * What a Responses client sees

    The frames of a stream are numbered without gaps, every item that is added is done, and
    the final response lists exactly the items that were done.  Decoding the stream again
    gives the response it was rendered from. *)

From Stdlib Require Import Ascii Sorted.
From stdpp Require Import base numbers strings list sorting.
From S2P Require Import Prelude RustStr Json Sse SseProps Wire ResponsesStream.
Import RustStr Sse Wire JsonMake ResponsesStream.
Open Scope Z_scope.

(** ** Reading frames *)

Definition index_at (f : Frame) : option Z := Json.get "output_index" (payload f) ≫= Json.as_u64.

(** The index of an item that is added, and an item that is done. *)
Definition added (f : Frame) : option Z :=
  if bool_decide (event_name f = "response.output_item.added") then index_at f else None.
Definition done_item (f : Frame) : option (Z * Json.Value) :=
  if bool_decide (event_name f = "response.output_item.done") then
    i ← index_at f; v ← Json.get "item" (payload f); Some (i, v)
  else None.
Definition ends (f : Frame) : bool :=
  one_of (event_name f) ["response.completed"; "response.incomplete"; "response.failed"].
Definition sequence_number (f : Frame) : option Z :=
  Json.get "sequence_number" (payload f) ≫= Json.as_u64.

Lemma added_stamp n f : added (stamp_frame n f) = added f.
Proof. unfold added, index_at. cbn [event_name payload stamp_frame]. by rewrite get_set_ne by done. Qed.
Lemma done_stamp n f : done_item (stamp_frame n f) = done_item f.
Proof. unfold done_item, index_at. cbn [event_name payload stamp_frame]. by rewrite !get_set_ne by done. Qed.

Lemma stamp_omap {A} (g : Frame → option A) fs : (∀ n f, g (stamp_frame n f) = g f) →
  ∀ n, omap g (stamp_sequence fs n).1 = omap g fs.
Proof.
  intros Hg. induction fs as [|f fs IH]; intros n; [done|]. cbn.
  specialize (IH (n + 1)). destruct (stamp_sequence fs (n + 1)) as [fs' m]. cbn in *. by rewrite Hg, IH.
Qed.

Lemma stamp_length fs : ∀ n, length (stamp_sequence fs n).1 = length fs.
Proof.
  induction fs as [|f fs IH]; intros n; [done|]. cbn. specialize (IH (n + 1)).
  destruct (stamp_sequence fs (n + 1)). cbn in *. by f_equal.
Qed.

Lemma stamp_app fs fs' : ∀ n, stamp_sequence (fs ++ fs') n =
  let '(a, m) := stamp_sequence fs n in let '(b, k) := stamp_sequence fs' m in (a ++ b, k).
Proof.
  induction fs as [|f fs IH]; intros n; cbn; [by destruct (stamp_sequence fs' n)|].
  rewrite IH. destruct (stamp_sequence fs (n + 1)) as [a m]. by destruct (stamp_sequence fs' m).
Qed.

Definition is_object_frame (f : Frame) : Prop := Json.is_object (payload f) = true.

(** Frames are numbered from [n] on. *)
Lemma stamp_numbers fs : Forall is_object_frame fs → ∀ n,
  sequence_number <$> (stamp_sequence fs n).1 = Some <$> seqZ n (Z.of_nat (length fs)).
Proof.
  induction 1 as [|f fs Hf _ IH]; intros n; [done|]. cbn [stamp_sequence length].
  specialize (IH (n + 1)). destruct (stamp_sequence fs (n + 1)) as [fs' m]. cbn [fst] in *.
  rewrite fmap_cons, IH, (seqZ_cons n) by lia. rewrite fmap_cons. f_equal.
  - unfold sequence_number. cbn [payload stamp_frame]. unfold is_object_frame in Hf. destruct (payload f); try done.
    rewrite get_set. by rewrite bool_decide_eq_true_2.
  - f_equal. f_equal; lia.
Qed.

Section stream.
Context (parse_json : string → option Json.Value).
Abbreviation render_unstamped := (render_unstamped parse_json).
Abbreviation render := (render parse_json).
Abbreviation renders := (renders parse_json).

(** ** Rendering and stamping *)

Fixpoint renders_unstamped (r : Renderer) (events : list CodexEvent) : list Frame * Renderer :=
  match events with
  | [] => ([], r)
  | e :: events =>
      let '(out, r) := render_unstamped r e in
      let '(out', r) := renders_unstamped r events in (out ++ out', r)
  end.

Lemma render_sequence r s e : render_unstamped (with_sequence r s) e =
  let '(out, r') := render_unstamped r e in (out, with_sequence r' s).
Proof.
  destruct r as [i m c cs tm lm fl us ta ra rs rd ts tools n ct ri ns].
  unfold ResponsesStream.render_unstamped, ensure_reasoning_item, open_text, close_items, close_text_item,
    ensure_created_frame, item_status.
  cbn [terminated with_sequence created_sent]. destruct tm; [done|].
  destruct e as [x|x|x|x| |j ci nm|j x| |u|x].
  - destruct (is_empty x), cs; reflexivity.
  - destruct cs, ts; reflexivity.
  - destruct cs, ri; reflexivity.
  - destruct cs, ri; reflexivity.
  - destruct cs, ri; reflexivity.
  - destruct cs, ts; reflexivity.
  - destruct cs; cbn; destruct (push_args j x tools) as [[t ts']|]; reflexivity.
  - reflexivity.
  - destruct cs, ts; cbn; destruct (close_tools parse_json _ tools); reflexivity.
  - destruct ts; cbn; destruct (close_tools parse_json _ tools); reflexivity.
Qed.

Lemma render_keeps_sequence r e out r' :
  render_unstamped r e = (out, r') → next_sequence r' = next_sequence r.
Proof.
  intros H. pose proof (render_sequence r (next_sequence r) e) as Hs. rewrite H in Hs.
  assert (E : with_sequence r (next_sequence r) = r) by by destruct r. rewrite E, H in Hs.
  injection Hs as Hs. by rewrite Hs.
Qed.

Lemma with_sequence_twice r a b : with_sequence (with_sequence r a) b = with_sequence r b.
Proof. done. Qed.

Lemma renders_stamp es : ∀ r, renders r es =
  let '(out, r') := renders_unstamped r es in
  let '(out', n) := stamp_sequence out (next_sequence r) in (out', with_sequence r' n).
Proof.
  induction es as [|e es IH]; intros r; [by destruct r|]. cbn [ResponsesStream.renders renders_unstamped].
  unfold ResponsesStream.render. destruct (render_unstamped r e) as [o r1] eqn:E1.
  pose proof (render_keeps_sequence _ _ _ _ E1) as Hk. rewrite Hk.
  destruct (stamp_sequence o (next_sequence r)) as [o' n] eqn:Eo. rewrite IH.
  assert (Hc : renders_unstamped (with_sequence r1 n) es =
    let '(x, y) := renders_unstamped r1 es in (x, with_sequence y n)).
  { clear. revert r1. induction es as [|e es IH]; intros r1; [done|]. cbn [renders_unstamped].
    rewrite render_sequence. destruct (render_unstamped r1 e) as [o r2]. rewrite IH.
    by destruct (renders_unstamped r2 es). }
  rewrite Hc. destruct (renders_unstamped r1 es) as [o2 r2]. cbn [next_sequence with_sequence].
  rewrite stamp_app, Eo. by destruct (stamp_sequence o2 n).
Qed.

(** ** Items in index order *)

Abbreviation keys := (λ m : list (Z * Json.Value), m.*1).

Lemma index_insert_fresh k v m : (k ∉ keys m) → index_insert k v m ≡ₚ (k, v) :: m.
Proof.
  induction m as [|[j w] m IH]; intros Hk; [done|]. cbn. rewrite fmap_cons, not_elem_of_cons in Hk.
  destruct Hk as [Hne Hk]. destruct (k <? j); [done|]. rewrite (proj2 (Z.eqb_neq k j)) by done.
  rewrite IH by done. constructor.
Qed.

Lemma index_insert_sorted k v m : StronglySorted Z.lt (keys m) → (k ∉ keys m) →
  StronglySorted Z.lt (keys (index_insert k v m)).
Proof.
  induction m as [|[j w] m IH]; intros Hs Hk; cbn in *; [by repeat constructor|].
  rewrite not_elem_of_cons in Hk. destruct Hk as [Hne Hk]. apply StronglySorted_inv in Hs as [Hs Hj].
  destruct (Z.ltb_spec k j) as [Hlt|Hge].
  - cbn. constructor; [by constructor|]. constructor; [done|]. eapply Forall_impl; [done|]. cbn. lia.
  - rewrite (proj2 (Z.eqb_neq k j)) by done. cbn. constructor; [by apply IH|].
    assert (Hp : keys (index_insert k v m) ≡ₚ k :: keys m) by by rewrite index_insert_fresh.
    rewrite Hp. constructor; [lia|done].
Qed.

(** Two sorted lists with the same elements are equal. *)
Lemma sorted_perm_eq (l k : list Z) : StronglySorted Z.lt l → StronglySorted Z.lt k → l ≡ₚ k → l = k.
Proof. intros Hl Hk Hp. by apply (StronglySorted_unique_strong Z.lt); [intros; lia|..]. Qed.

Lemma seqZ_snoc n : 0 ≤ n → seqZ 0 (n + 1) = seqZ 0 n ++ [n].
Proof.
  intros Hn. rewrite <- (Z2Nat.id n) by done.
  replace (Z.of_nat (Z.to_nat n) + 1) with (Z.of_nat (S (Z.to_nat n))) by lia. by rewrite seqZ_S.
Qed.

Lemma seqZ_sorted n : 0 ≤ n → StronglySorted Z.lt (seqZ 0 n).
Proof.
  intros Hn. pattern n. apply natlike_ind; [constructor| |done]. intros x Hx IH.
  rewrite <- Z.add_1_r, seqZ_snoc by done. apply StronglySorted_app_2; [|done|by repeat constructor].
  intros a b Ha Hb. apply elem_of_seqZ in Ha. apply list_elem_of_singleton in Hb. lia.
Qed.

(** ** The invariant of an open stream *)

Definition text_index (r : Renderer) : list Z :=
  match text_state r with Open _ i => [i] | _ => [] end.
Definition open_items (r : Renderer) : list Z :=
  text_index r ++ option_list (reasoning_index r) ++ (output_index <$> tools r).

Definition plain_frame (f : Frame) : Prop :=
  is_object_frame f ∧ added f = None ∧ done_item f = None ∧ ends f = false.

Record open_stream (out : list Frame) (r : Renderer) : Prop := {
  os_live : terminated r = false;
  os_fine : ResponsesStream.failure r = None;
  os_next : 0 ≤ next_output_index r;
  os_added : omap added out = seqZ 0 (next_output_index r);
  os_done : omap done_item out ≡ₚ closed_text r;
  os_keys : keys (closed_text r) ++ open_items r ≡ₚ seqZ 0 (next_output_index r);
  os_sorted : StronglySorted Z.lt (keys (closed_text r));
  os_tools : Forall (λ t, args_done_emitted t = false ∧ item_done_emitted t = false) (tools r);
  os_objects : Forall is_object_frame out;
  os_goes_on : Forall (λ f, ends f = false) out;
}.

Lemma plain_omap fs : Forall plain_frame fs →
  omap added fs = [] ∧ omap done_item fs = [] ∧ Forall is_object_frame fs ∧ Forall (λ f, ends f = false) fs.
Proof.
  induction 1 as [|f fs (H1 & H2 & H3 & H4) _ (I1 & I2 & I3 & I4)]; [done|]. cbn.
  rewrite H2, H3. split_and!; [done|done|by constructor|by constructor].
Qed.

(** Frames that are no items, and changes of the state that touch no item. *)
Lemma open_stream_plain out r fs r' : open_stream out r → Forall plain_frame fs →
  terminated r' = false → ResponsesStream.failure r' = None → next_output_index r' = next_output_index r →
  closed_text r' = closed_text r → open_items r' ≡ₚ open_items r →
  Forall (λ t, args_done_emitted t = false ∧ item_done_emitted t = false) (tools r') →
  open_stream (out ++ fs) r'.
Proof.
  intros [] Hfs Ht Hf Hn Hc Ho Htools. destruct (plain_omap fs Hfs) as (P1 & P2 & P3 & P4).
  split; try done.
  - by rewrite Hn.
  - by rewrite omap_app, P1, app_nil_r, Hn.
  - by rewrite omap_app, P2, app_nil_r, Hc.
  - by rewrite Hc, Ho, Hn.
  - by rewrite Hc.
  - by apply Forall_app.
  - by apply Forall_app.
Qed.

(** A new item at the next index. *)
Lemma open_stream_added out r fs r' f : open_stream out r → Forall plain_frame fs →
  is_object_frame f → added f = Some (next_output_index r) → done_item f = None → ends f = false →
  terminated r' = false → ResponsesStream.failure r' = None →
  next_output_index r' = next_output_index r + 1 → closed_text r' = closed_text r →
  open_items r' ≡ₚ next_output_index r :: open_items r →
  Forall (λ t, args_done_emitted t = false ∧ item_done_emitted t = false) (tools r') →
  open_stream (out ++ f :: fs) r'.
Proof.
  intros [] Hfs Hf1 Hf2 Hf3 Hf4 Ht Hf Hn Hc Ho Htools. destruct (plain_omap fs Hfs) as (P1 & P2 & P3 & P4).
  split; try done.
  - lia.
  - rewrite omap_app. cbn. rewrite Hf2, P1, Hn, seqZ_snoc by done. by f_equal.
  - rewrite omap_app. cbn. by rewrite Hf3, P2, app_nil_r, Hc.
  - rewrite Hc, Ho, Hn, seqZ_snoc, <- Permutation_middle by done.
    rewrite os_keys0. by rewrite Permutation_app_comm.
  - by rewrite Hc.
  - apply Forall_app. split; [done|]. by constructor.
  - apply Forall_app. split; [done|]. by constructor.
Qed.

Lemma open_stream_created out r fs r' : open_stream out r → ensure_created_frame r = (fs, r') →
  open_stream (out ++ fs) r' ∧ next_output_index r' = next_output_index r ∧ tools r' = tools r ∧
  text_state r' = text_state r ∧ reasoning_index r' = reasoning_index r ∧
  output_limit_reached r' = output_limit_reached r.
Proof.
  intros H. unfold ensure_created_frame. destruct (created_sent r); intros [= <- <-].
  - by rewrite app_nil_r.
  - split; [|done]. apply (open_stream_plain _ r); try done; try by destruct H. by repeat constructor.
Qed.

Lemma open_index_fresh out r i : open_stream out r → text_index r = [i] → i ∉ keys (closed_text r).
Proof.
  intros H Hi Hin. pose proof (NoDup_seqZ 0 (next_output_index r)) as Hnd.
  rewrite <- (os_keys _ _ H) in Hnd. apply NoDup_app in Hnd as (_ & Hd & _). apply (Hd i Hin).
  unfold open_items. rewrite Hi. left.
Qed.

Lemma open_stream_close_text out r fs r' : open_stream out r → close_text_item r = (fs, r') →
  open_stream (out ++ fs) r' ∧ next_output_index r' = next_output_index r ∧ tools r' = tools r ∧
  text_index r' = [] ∧ reasoning_index r' = reasoning_index r ∧
  output_limit_reached r' = output_limit_reached r ∧
  (∀ i, reasoning_item r' i = reasoning_item r i).
Proof.
  intros H. unfold close_text_item. destruct (text_state r) as [|i index|] eqn:Es; intros [= <- <-].
  1,3: rewrite app_nil_r; split; [done|]; unfold text_index; by rewrite Es.
  assert (Hfresh : index ∉ keys (closed_text r)).
  { apply (open_index_fresh _ _ _ H). unfold text_index. by rewrite Es. }
  split; [|done]. pose proof H as []. split; try done.
  - rewrite omap_app. cbn. by rewrite app_nil_r.
  - rewrite omap_app. cbn. rewrite index_insert_fresh by done. rewrite os_done0. by rewrite Permutation_app_comm.
  - cbn. rewrite index_insert_fresh by done. cbn. rewrite <- os_keys0. unfold open_items, text_index.
    cbn. rewrite Es. cbn. by rewrite Permutation_middle.
  - cbn. by apply index_insert_sorted.
  - apply Forall_app. split; [done|]. by repeat constructor.
  - apply Forall_app. split; [done|]. by repeat constructor.
Qed.

Lemma open_stream_reasoning out r fs r' i : open_stream out r → ensure_reasoning_item r = (fs, r', i) →
  open_stream (out ++ fs) r' ∧ reasoning_index r' = Some i.
Proof.
  intros H. unfold ensure_reasoning_item. destruct (ensure_created_frame r) as [o r1] eqn:E1.
  destruct (open_stream_created _ _ _ _ H E1) as (H1 & Hn & Ht & Hs & Hi & _).
  destruct (reasoning_index r1) as [j|] eqn:Ej; intros [= <- <- <-]; [done|].
  split; [|done]. rewrite app_assoc.
  apply (open_stream_added _ r1 []); try done; try by destruct H1. cbn.
  unfold open_items. cbn. rewrite Ej. unfold text_index. cbn. by rewrite Permutation_middle.
Qed.

Lemma open_stream_text out r fs r' i index : open_stream out r → open_text r = (fs, r', i, index) →
  open_stream (out ++ fs) r' ∧ text_state r' = Open i index.
Proof.
  intros H. unfold open_text. destruct (text_state r) as [|i' index'|] eqn:Es; intros [= <- <- <- <-].
  2: by rewrite app_nil_r.
  all: split; [|done]; apply (open_stream_added _ r [_]); try done; try (by destruct H); try by repeat constructor.
  all: unfold open_items, text_index; cbn; by rewrite Es.
Qed.

Lemma push_args_spec d x ts t ts' : push_args d x ts = Some (t, ts') →
  output_index <$> ts' = output_index <$> ts ∧
  (Forall (λ t, args_done_emitted t = false ∧ item_done_emitted t = false) ts →
   Forall (λ t, args_done_emitted t = false ∧ item_done_emitted t = false) ts').
Proof.
  revert t ts'. induction ts as [|u ts IH]; intros t ts'; cbn; [done|].
  destruct (takes_args d u) eqn:E; [intros [= <- <-]; split; [done|]; rewrite !list.Forall_cons; done|].
  destruct (push_args d x ts) as [[v vs]|]; [|done]. intros [= <- <-]. destruct (IH v vs eq_refl) as [H1 H2].
  split; [cbn; by rewrite H1|]. rewrite !list.Forall_cons. naive_solver.
Qed.

Lemma open_stream_step out r e fs r' : open_stream out r → is_terminal e = false →
  render_unstamped r e = (fs, r') → open_stream (out ++ fs) r'.
Proof.
  intros H He. unfold ResponsesStream.render_unstamped. rewrite (os_live _ _ H).
  assert (Hmap : ∀ (q : Renderer) o (r2 : Renderer), open_stream o q → terminated r2 = false →
    ResponsesStream.failure r2 = None → next_output_index r2 = next_output_index q → closed_text r2 = closed_text q →
    text_state r2 = text_state q → reasoning_index r2 = reasoning_index q → tools r2 = tools q →
    ∀ gs, Forall plain_frame gs → open_stream (o ++ gs) r2).
  { intros q o r2 Hq Ht Hf Hn Hc Hs Hi Hto gs Hgs. apply (open_stream_plain _ q); try done.
    - unfold open_items, text_index. by rewrite Hs, Hi, Hto.
    - rewrite Hto. by destruct Hq. }
  destruct e as [x|x|x|x| |j ci nm|j x| |u|x]; try done.
  - intros Hc. destruct (is_empty x); [by eapply open_stream_created|].
    assert (H' : open_stream out (with_identity r (response_id_of x) (created_sent r))).
    { rewrite <- (app_nil_r out). by apply (Hmap r); try (by destruct H). }
    exact (proj1 (open_stream_created _ _ _ _ H' Hc)).
  - destruct (ensure_created_frame r) as [o r1] eqn:E1.
    destruct (open_stream_created _ _ _ _ H E1) as (H1 & _).
    destruct (open_text r1) as [[[o2 r2] i] index] eqn:E2.
    destruct (open_stream_text _ _ _ _ _ _ H1 E2) as (H2 & Hs). intros [= <- <-].
    rewrite !app_assoc. by apply (Hmap r2); try (by destruct H2); repeat constructor.
  - destruct (ensure_reasoning_item r) as [[o r1] i] eqn:E1.
    destruct (open_stream_reasoning _ _ _ _ _ H E1) as (H1 & Hi). intros [= <- <-].
    rewrite app_assoc. by apply (Hmap r1); try (by destruct H1); repeat constructor.
  - destruct (ensure_reasoning_item r) as [[o r1] i] eqn:E1.
    destruct (open_stream_reasoning _ _ _ _ _ H E1) as (H1 & Hi). intros [= <- <-].
    rewrite <- (app_nil_r (out ++ o)). by apply (Hmap r1); try (by destruct H1).
  - destruct (ensure_reasoning_item r) as [[o r1] i] eqn:E1.
    destruct (open_stream_reasoning _ _ _ _ _ H E1) as (H1 & Hi). intros [= <- <-].
    rewrite <- (app_nil_r (out ++ o)). by apply (Hmap r1); try (by destruct H1).
  - destruct (ensure_created_frame r) as [o r1] eqn:E1.
    destruct (open_stream_created _ _ _ _ H E1) as (H1 & _).
    destruct (close_text_item r1) as [o2 r2] eqn:E2.
    destruct (open_stream_close_text _ _ _ _ H1 E2) as (H2 & _). intros [= <- <-].
    rewrite !app_assoc. apply (open_stream_added _ r2 []); try done; try by destruct H2.
    + unfold open_items, text_index. cbn. rewrite fmap_app. cbn. rewrite !app_assoc.
      by rewrite Permutation_app_comm.
    + cbn. apply Forall_app. split; [by destruct H2|by repeat constructor].
  - destruct (ensure_created_frame r) as [o r1] eqn:E1.
    destruct (open_stream_created _ _ _ _ H E1) as (H1 & _).
    destruct (push_args j x (tools r1)) as [[t ts]|] eqn:Ep; intros [= <- <-]; [|done].
    destruct (push_args_spec _ _ _ _ _ Ep) as [P1 P2]. rewrite app_assoc.
    apply (open_stream_plain _ r1); try done; try by destruct H1.
    + by repeat constructor.
    + unfold open_items, text_index. cbn. by rewrite P1.
    + apply P2. by destruct H1.
  - intros [= <- <-]. by apply (Hmap r); try (by destruct H).
Qed.

(** ** The end of a stream *)

Lemma close_tools_spec status ts : ∀ fs ts',
  Forall (λ t, args_done_emitted t = false ∧ item_done_emitted t = false) ts →
  close_tools parse_json status ts = (fs, ts') →
  omap added fs = [] ∧
  omap done_item fs = (λ t, (output_index t, tool_value parse_json t status)) <$> ts ∧
  Forall is_object_frame fs ∧ Forall (λ f, ends f = false) fs ∧ ts' = tool_closed <$> ts.
Proof.
  induction ts as [|t ts IH]; intros fs ts' Hf; cbn; [by intros [= <- <-]|].
  apply list.Forall_cons in Hf as [[Ha Hi] Hf].
  destruct (close_tools parse_json status ts) as [gs us] eqn:E. destruct (IH _ _ Hf eq_refl) as (I1 & I2 & I3 & I4 & I5).
  rewrite Ha, Hi. intros [= <- <-]. cbn. rewrite I1, I2, I5. split_and!; try done; by repeat constructor.
Qed.

Lemma inserts_spec (ts : list ToolCallItem) (g : ToolCallItem → Json.Value) : ∀ items,
  StronglySorted Z.lt (keys items) → NoDup (keys items ++ (output_index <$> ts)) →
  let m := foldl (λ items t, index_insert (output_index t) (g t) items) items ts in
  m ≡ₚ items ++ ((λ t, (output_index t, g t)) <$> ts) ∧ StronglySorted Z.lt (keys m).
Proof.
  induction ts as [|t ts IH]; intros items Hs Hnd; cbn in *; [by rewrite app_nil_r|].
  assert (Hk : output_index t ∉ keys items).
  { apply NoDup_app in Hnd as (_ & Hd & _). intros Hin. apply (Hd _ Hin). left. }
  destruct (IH (index_insert (output_index t) (g t) items)) as [I1 I2].
  - by apply index_insert_sorted.
  - rewrite index_insert_fresh by done. cbn. by rewrite <- Permutation_middle in Hnd.
  - split; [|done]. rewrite I1, index_insert_fresh by done. cbn. by rewrite Permutation_middle.
Qed.

Definition final_items (out : list Frame) (r : Renderer) : Prop :=
  omap added out = seqZ 0 (next_output_index r) ∧
  omap done_item out ≡ₚ output_items parse_json r ∧
  keys (output_items parse_json r) = seqZ 0 (next_output_index r).

Lemma close_items_spec out r fs r' t l f u : open_stream out r →
  close_items parse_json r = (fs, r') → l = output_limit_reached r' →
  final_items (out ++ fs) (with_outcome r' t l f u) ∧
  Forall is_object_frame (out ++ fs) ∧ Forall (λ f, ends f = false) (out ++ fs).
Proof.
  intros H. unfold close_items. destruct (close_text_item r) as [gs r1] eqn:E1.
  destruct (open_stream_close_text _ _ _ _ H E1) as (H1 & Hn & Ht & Hs & Hi & Hl & Hr).
  destruct (close_tools parse_json (item_status r1) (tools r1)) as [hs ts] eqn:E2.
  intros [= <- <-] ->.
  destruct (close_tools_spec _ _ _ _ (os_tools _ _ H1) E2) as (C1 & C2 & C3 & C4 & ->).
  set (rs := match reasoning_index r with Some i => [(i, reasoning_item r i)] | None => [] end).
  assert (Hrf : omap added (close_reasoning_item r) = [] ∧ omap done_item (close_reasoning_item r) = rs ∧
    Forall is_object_frame (close_reasoning_item r) ∧ Forall (λ f, ends f = false) (close_reasoning_item r)).
  { unfold close_reasoning_item, rs. destruct (reasoning_index r); [|done].
    split_and!; try done; by repeat constructor. }
  destruct Hrf as (R1 & R2 & R3 & R4).
  set (r2 := with_outcome _ _ _ _ _).
  set (items := match reasoning_index r1 with
                | Some i => index_insert i (reasoning_item r1 i) (closed_text r1)
                | None => closed_text r1 end).
  pose proof (NoDup_seqZ 0 (next_output_index r1)) as Hnd. rewrite <- (os_keys _ _ H1) in Hnd.
  unfold open_items in Hnd. rewrite Hs in Hnd. cbn [app] in Hnd.
  assert (Hitems : items ≡ₚ closed_text r1 ++ rs ∧ StronglySorted Z.lt (keys items)).
  { unfold items, rs. rewrite <- Hi. destruct (reasoning_index r1) as [i|]; cbn in Hnd.
    - assert (i ∉ keys (closed_text r1)).
      { apply NoDup_app in Hnd as (_ & Hd & _). intros Hin. apply (Hd _ Hin). left. }
      rewrite Hr. split; [rewrite index_insert_fresh by done; by rewrite Permutation_app_comm|].
      apply index_insert_sorted; [by destruct H1|done].
    - rewrite app_nil_r. split; [done|by destruct H1]. }
  destruct Hitems as [Hp Hsort].
  assert (Hout : output_items parse_json r2 =
    foldl (λ items t, index_insert (output_index t) (tool_value parse_json t (item_status r1)) items) items (tools r1)).
  { unfold output_items, r2. cbn [closed_text reasoning_index text_state tools with_outcome with_tools].
    assert (Htx : text_state r1 = Unstarted ∨ text_state r1 = TextDone).
    { unfold text_index in Hs. destruct (text_state r1); auto. done. }
    assert (Hfold : ∀ its, foldl (λ items t, index_insert (output_index t)
        (tool_value parse_json t (item_status r2)) items) its (tool_closed <$> tools r1)
      = foldl (λ items t, index_insert (output_index t) (tool_value parse_json t (item_status r1)) items) its (tools r1)).
    { generalize (tools r1). induction l as [|t0 l IH]; intros its; [done|]. cbn. apply IH. }
    destruct Htx as [-> | ->]; apply Hfold. }
  assert (Hk : keys items ++ (output_index <$> tools r1) ≡ₚ seqZ 0 (next_output_index r1)).
  { rewrite <- (os_keys _ _ H1). unfold open_items. rewrite Hs. cbn [app].
    rewrite Hp, fmap_app, <- app_assoc. apply Permutation_app_head, Permutation_app_tail. unfold rs. rewrite <- Hi. by destruct (reasoning_index r1). }
  destruct (inserts_spec (tools r1) (λ t, tool_value parse_json t (item_status r1)) items Hsort) as [I1 I2].
  { rewrite Hk. apply NoDup_seqZ. }
  rewrite <- Hout in I1, I2. split.
  - assert (Hperm : omap done_item (out ++ close_reasoning_item r ++ gs ++ hs) ≡ₚ output_items parse_json r2).
    { rewrite I1, Hp, <- (os_done _ _ H1), !omap_app, R2, C2. rewrite <- !app_assoc.
      apply Permutation_app_head. rewrite !app_assoc. apply Permutation_app_tail, Permutation_app_comm. }
    split_and!; [|done|].
    + rewrite !omap_app, R1, C1, app_nil_r. cbn [app]. rewrite <- omap_app. apply (os_added _ _ H1).
    + apply sorted_perm_eq; [done|apply seqZ_sorted; by destruct H1|].
      rewrite I1, fmap_app, <- list_fmap_compose. exact Hk.
  - pose proof (os_objects _ _ H1) as Ho. pose proof (os_goes_on _ _ H1) as Hg.
    apply Forall_app in Ho as [? ?]. apply Forall_app in Hg as [? ?].
    split; repeat (apply Forall_app; split); done.
Qed.

(** The frames of a whole stream, before stamping. *)
Lemma renders_stay_open es : ∀ out r fs r', open_stream out r → Forall (λ e, is_terminal e = false) es →
  renders_unstamped r es = (fs, r') → open_stream (out ++ fs) r'.
Proof.
  induction es as [|e es IH]; intros out r fs r' H Hes; cbn; [intros [= <- <-]; by rewrite app_nil_r|].
  apply list.Forall_cons in Hes as [He Hes]. destruct (render_unstamped r e) as [o r1] eqn:E1.
  destruct (renders_unstamped r1 es) as [o2 r2] eqn:E2. intros [= <- <-]. rewrite app_assoc.
  eapply IH; [|done|done]. by eapply open_stream_step.
Qed.

Lemma renders_unstamped_app es es' : ∀ r, renders_unstamped r (es ++ es') =
  let '(a, r1) := renders_unstamped r es in
  let '(b, r2) := renders_unstamped r1 es' in (a ++ b, r2).
Proof.
  induction es as [|e es IH]; intros r; cbn; [by destruct (renders_unstamped r es')|].
  destruct (render_unstamped r e) as [o r1]. rewrite IH. destruct (renders_unstamped r1 es) as [a r2].
  destruct (renders_unstamped r2 es') as [b r3]. by rewrite app_assoc.
Qed.

Lemma open_stream_new m c : open_stream [] (new m c).
Proof. split; try done; constructor. Qed.

(** What the last event adds. *)
Lemma last_frames out r e fs r' : open_stream out r → is_terminal e = true →
  render_unstamped r e = (fs, r') →
  ∃ gs f, fs = gs ++ [f] ∧ Forall (λ f, ends f = false) (out ++ gs) ∧ ends f = true ∧
    Forall is_object_frame (out ++ fs) ∧ terminated r' = true ∧ final_items (out ++ fs) r' ∧
    match e with
    | Completed _ => ResponsesStream.failure r' = None ∧
        Json.get "response" (payload f) = Some (current_response parse_json r')
    | Failed m => ResponsesStream.failure r' = Some m ∧
        str_at ["response"; "error"; "message"] (payload f) = Some m
    | _ => True
    end.
Proof.
  intros H He. unfold ResponsesStream.render_unstamped. rewrite (os_live _ _ H).
  assert (Hfin : ∀ o q f, final_items o q → added f = None → done_item f = None → final_items (o ++ [f]) q).
  { intros o q f (F1 & F2 & F3) Ha Hd. split_and!; [| |done]; rewrite omap_app; cbn; rewrite ?Ha, ?Hd, app_nil_r; done. }
  destruct e as [x|x|x|x| |j ci nm|j x| |u|x]; try done.
  - destruct (ensure_created_frame r) as [o r1] eqn:E1.
    destruct (open_stream_created _ _ _ _ H E1) as (H1 & _).
    destruct (close_items parse_json r1) as [o2 r2] eqn:E2. intros [= <- <-].
    set (r3 := with_outcome r2 true (output_limit_reached r2) (ResponsesStream.failure r2) u).
    destruct (close_items_spec _ _ _ _ true (output_limit_reached r2) (ResponsesStream.failure r2) u H1 E2 eq_refl) as (F & O & G).
    exists (o ++ o2). eexists. rewrite app_assoc. split; [reflexivity|]. rewrite <- !app_assoc in F, O, G.
    assert (Hf2 : ResponsesStream.failure r2 = None).
    { unfold close_items in E2. destruct (close_text_item r1) as [a b] eqn:Ec.
      destruct (open_stream_close_text _ _ _ _ H1 Ec) as (H2 & _). destruct (close_tools _ _ _). injection E2 as _ <-.
      cbn. by destruct H2. }
    assert (Ha : ∀ f : Frame, out ++ (o ++ o2) ++ [f] = (out ++ o ++ o2) ++ [f])
      by (intros f; by rewrite <- !app_assoc).
    split_and!; try done.
    + cbn. by destruct (output_limit_reached r2).
    + rewrite Ha. apply Forall_app. split; [done|]. repeat constructor.
    + rewrite Ha. apply Hfin; [done| |]; cbn; by destruct (output_limit_reached r2).
  - destruct (close_items parse_json r) as [o2 r2] eqn:E2. intros [= <- <-].
    destruct (close_items_spec _ _ _ _ true (output_limit_reached r2) (Some x) (usage r2) H E2 eq_refl) as (F & O & G).
    exists o2. eexists. split; [reflexivity|]. split_and!; try done.
    + rewrite app_assoc. apply Forall_app. split; [done|]. by repeat constructor.
    + rewrite app_assoc. by apply Hfin.
Qed.

Lemma feed_until_renders es : ∀ r, Forall (λ e, is_terminal e = false) es →
  terminated r = false → ∀ last fs r', is_terminal last = true →
  (∀ e out q, e ∈ es → render q e = out → terminated q = false → terminated out.2 = false) →
  renders r (es ++ [last]) = (fs, r') → terminated r' = true →
  feed_until_terminated parse_json r (es ++ [last]) = r'.
Proof.
  induction es as [|e es IH]; intros r Hes Ht last fs r' Hlast Hlive; cbn.
  - destruct (render r last) as [o r1]. intros [= <- <-] Hend. cbn. by rewrite Hend.
  - apply list.Forall_cons in Hes as [He Hes]. destruct (render r e) as [o r1] eqn:E1.
    destruct (renders r1 (es ++ [last])) as [o2 r2] eqn:E2. intros [= <- <-] Hend.
    assert (H1 : terminated r1 = false) by (apply (Hlive e (o, r1) r); [left|done|done]).
    cbn. rewrite H1. eapply IH; try done. intros e' out q Hin. apply Hlive. by right.
Qed.

Lemma render_live r e : terminated r = false → is_terminal e = false →
  terminated (render r e).2 = false.
Proof.
  intros Ht He. unfold ResponsesStream.render.
  destruct (render_unstamped r e) as [o r1] eqn:E. destruct (stamp_sequence _ _). cbn.
  revert E. unfold ResponsesStream.render_unstamped. rewrite Ht.
  unfold ensure_reasoning_item, ensure_created_frame, open_text, close_text_item.
  destruct e as [x|x|x|x| |j ci nm|j x| |u|x]; try done.
  all: repeat case_match; intros; simplify_eq; done.
Qed.

Lemma current_output r :
  Json.get "output" (current_response parse_json r) = Some (Json.VArray (output_items parse_json r).*2).
Proof.
  unfold current_response. destruct (ResponsesStream.failure r), (output_limit_reached r); reflexivity.
Qed.

Lemma stamp_snoc fs f n : ∃ fs' f' k, (stamp_sequence (fs ++ [f]) n).1 = fs' ++ [f'] ∧
  (stamp_sequence fs n).1 = fs' ∧ f' = stamp_frame k f.
Proof.
  rewrite stamp_app. destruct (stamp_sequence fs n) as [a m]. cbn. by exists a, (stamp_frame m f), m.
Qed.

Lemma stamp_goes_on fs : Forall (λ f, ends f = false) fs → ∀ n,
  Forall (λ f, ends f = false) (stamp_sequence fs n).1.
Proof.
  induction 1 as [|f fs Hf _ IH]; intros n; [constructor|]. cbn. specialize (IH (n + 1)).
  destruct (stamp_sequence fs (n + 1)). by constructor.
Qed.

(** Only the last frame ends the stream. *)
Lemma renders_last m c es last : Forall (λ e, is_terminal e = false) es → is_terminal last = true →
  ∃ fs f, (renders (new m c) (es ++ [last])).1 = fs ++ [f] ∧ Forall (λ f, ends f = false) fs ∧ ends f = true.
Proof.
  intros Hes Hlast. rewrite renders_stamp, renders_unstamped_app.
  destruct (renders_unstamped (new m c) es) as [o1 r1] eqn:E1.
  pose proof (renders_stay_open _ _ _ _ _ (open_stream_new m c) Hes E1) as H1.
  cbn [renders_unstamped]. destruct (render_unstamped r1 last) as [o2 r2] eqn:E2. rewrite app_nil_r.
  destruct (last_frames _ _ _ _ _ H1 Hlast E2) as (gs & f & -> & G1 & G2 & _).
  rewrite app_assoc. destruct (stamp_snoc (o1 ++ gs) f (next_sequence (new m c))) as (fs & g & k & S1 & S2 & S3).
  destruct (stamp_sequence ((o1 ++ gs) ++ [f]) _) as [out n]. cbn [fst] in *. exists fs, g.
  split_and!; [done|rewrite <- S2; by apply stamp_goes_on|by rewrite S3].
Qed.

(** C38: A Responses stream is consistent with itself and with the one-shot answer.  For the
    events of a response - any events, then the one that ends it - the frames are numbered
    0, 1, 2, ... without gaps; exactly the last one is terminal; output items are added at
    indices 0, 1, 2, ... and each of them is done exactly once.  When the response
    completed, the object in the terminal frame is what the non-streaming endpoint returns
    for the same events, and its output lists exactly the items that were done, in the
    order of their indices; when it failed, both report the same message.  (The numbers are
    those of the frames' payloads; the code stamps the text, which is the same whenever the
    JSON library reads back what it wrote, [stamp_bytes_frame].) *)
Theorem responses_stream_consistent (m : string) (c : Z) (es : list CodexEvent) (last : CodexEvent)
  (Hes : Forall (λ e, is_terminal e = false) es) (Hlast : is_terminal last = true) :
  let out := (renders (new m c) (es ++ [last])).1 in
  sequence_number <$> out = Some <$> seqZ 0 (Z.of_nat (length out)) ∧
  ∃ fs f n, out = fs ++ [f] ∧ Forall (λ f, ends f = false) fs ∧ ends f = true ∧
    omap added out = seqZ 0 n ∧ (omap done_item out).*1 ≡ₚ seqZ 0 n ∧
    match last with
    | Failed msg => responses_response parse_json (es ++ [last]) m c = Err msg ∧
        str_at ["response"; "error"; "message"] (payload f) = Some msg
    | _ => ∃ response items, responses_response parse_json (es ++ [last]) m c = Ok response ∧
        Json.get "response" (payload f) = Some response ∧
        Json.get "output" response = Some (Json.VArray items) ∧
        omap done_item out ≡ₚ zip (seqZ 0 n) items
    end.
Proof.
  pose proof (renders_stamp (es ++ [last]) (new m c)) as Hstamp. rewrite renders_unstamped_app in Hstamp.
  destruct (renders_unstamped (new m c) es) as [o1 r1] eqn:E1.
  pose proof (renders_stay_open _ _ _ _ _ (open_stream_new m c) Hes E1) as H1. cbn [app] in H1.
  cbn [renders_unstamped] in Hstamp. destruct (render_unstamped r1 last) as [o2 r2] eqn:E2.
  rewrite app_nil_r in Hstamp.
  destruct (last_frames _ _ _ _ _ H1 Hlast E2) as (gs & f & -> & G1 & G2 & G3 & G4 & (F1 & F2 & F3) & G5).
  rewrite app_assoc in Hstamp, F1, F2, G3. set (fs := o1 ++ gs) in *.
  change (next_sequence (new m c)) with 0 in Hstamp.
  destruct (stamp_sequence (fs ++ [f]) 0) as [out n] eqn:Es.
  assert (Hout : out = (stamp_sequence (fs ++ [f]) 0).1) by by rewrite Es.
  rewrite Hstamp. cbn [fst]. rewrite Hout at 1 2. clear Es.
  split; [rewrite stamp_length; by apply stamp_numbers|].
  destruct (stamp_snoc fs f 0) as (fs' & f' & k & S1 & S2 & S3).
  assert (Hresp : responses_response parse_json (es ++ [last]) m c =
    match ResponsesStream.failure r2 with Some e => Err e | None => Ok (current_response parse_json r2) end).
  { unfold responses_response.
    rewrite (feed_until_renders es (new m c) Hes eq_refl last out (with_sequence r2 n)); try done.
    - cbn [terminated with_sequence]. by rewrite G4.
    - intros e q0 q Hin <- Hq. apply render_live; [done|]. rewrite list.Forall_forall in Hes. by apply Hes. }
  exists fs', f', (next_output_index r2). rewrite <- S1, Hout.
  rewrite (stamp_omap added), (stamp_omap done_item) by (intros; apply added_stamp || apply done_stamp).
  assert (Hdone : (omap done_item (fs ++ [f])).*1 ≡ₚ seqZ 0 (next_output_index r2)) by by rewrite F2, F3.
  split_and!; [done|rewrite <- S2; by apply stamp_goes_on|by rewrite S3|done|done|].
  rewrite Hresp, S3. cbn [payload stamp_frame].
  destruct last as [x|x|x|x| |j ci nm|j x| |u|x]; try done; destruct G5 as [-> G5].
  - exists (current_response parse_json r2), (output_items parse_json r2).*2.
    split_and!; [done|by rewrite get_set_ne|apply current_output|].
    rewrite F2, <- F3. by rewrite zip_fst_snd.
  - split; [done|]. rewrite <- G5. unfold str_at. cbn [Json.pointer]. by rewrite get_set_ne.
Qed.
End stream.

(** ** A call between two texts *)

Module ResponsesDemo.
Definition events : list CodexEvent :=
  [Created "resp_7"; ReasoningDelta "hm"; TextDelta "hi"; ToolCallBegin 3 "c1" "f";
   ToolArgsDelta 3 "{}"; TextDelta "bye"].
Definition out : list Frame := (renders (λ _, None) (new "m" 7) (events ++ [Completed None])).1.

Lemma responses_consistent_witness :
  length out = 17%nat ∧ (sequence_number <$> out = Some <$> seqZ 0 (Z.of_nat (length out))) ∧
  omap added out = [0; 1; 2; 3] ∧ (omap done_item out).*1 = [1; 0; 3; 2].
Proof.
  split; [vm_compute; reflexivity|]. split; [|split; vm_compute; reflexivity].
  refine (proj1 (responses_stream_consistent (λ _, None) "m" 7 events (Completed None) _ eq_refl)).
  repeat (constructor; [reflexivity|]). constructor.
Defined.
End ResponsesDemo.
