(* ===== verification/ResponsesDecode.v ===== *)
(** * A Responses stream decodes to the response it was rendered from

    Rendering as Responses frames ([ResponsesStream]), sending the bytes, parsing them
    ([Sse]) and aggregating ([Render]) gives what aggregating the events directly gives. *)

From Stdlib Require Import Ascii.
From stdpp Require Import base numbers strings list.
From S2P Require Import Prelude RustStr Json Sse SseProps Wire Render RenderProps ResponsesStream ResponsesProps.
Import RustStr Sse JsonMake Render Wire ResponsesStream.
Open Scope Z_scope.

(** ** Decoding a payload *)

Definition decode_value (v : Json.Value) : list CodexEvent :=
  if limit_reached v then
    [OutputLimitReached; Completed (parse_usage <$> Json.pointer ["response"; "usage"] v)]
  else option_list (classify v).

Definition decoded (fs : list Frame) : list CodexEvent := fs ≫= λ f, decode_value (payload f).

Lemma decode_value_stamp n v : decode_value (set "sequence_number" n v) = decode_value v.
Proof.
  unfold decode_value, limit_reached, classify, failed_message, index_of, str_at. cbn [Json.pointer].
  by rewrite !get_set_ne by done.
Qed.

Lemma decoded_stamp fs : ∀ n, decoded (stamp_sequence fs n).1 = decoded fs.
Proof.
  unfold decoded. induction fs as [|f fs IH]; intros n; [done|]. cbn [stamp_sequence]. specialize (IH (n + 1)).
  destruct (stamp_sequence fs (n + 1)) as [fs' m]. cbn [fst] in *. rewrite !bind_cons, IH. f_equal.
  apply decode_value_stamp.
Qed.

Lemma decoded_app fs gs : decoded (fs ++ gs) = decoded fs ++ decoded gs.
Proof. unfold decoded. by rewrite bind_app. Qed.

(** ** What each frame decodes to *)

Section frames.
Context (parse_json : string → option Json.Value).

Lemma decode_created r : decoded (ensure_created_frame r).1 = if created_sent r then [] else [Created (id r)].
Proof. unfold ensure_created_frame. by destruct (created_sent r). Qed.

Lemma decode_text_done r : decoded (close_text_item r).1 = [].
Proof. unfold close_text_item. by destruct (text_state r). Qed.

Lemma decode_open_text r : decoded (open_text r).1.1.1 = [].
Proof. unfold open_text. by destruct (text_state r). Qed.

Lemma decode_text_delta index i d :
  decoded [frame "response.output_text.delta"
             [("output_index", uint index); ("content_index", uint 0); ("item_id", str i); ("delta", str d)]]
  = [TextDelta d].
Proof. reflexivity. Qed.

Lemma decode_reasoning_delta index d :
  decoded [frame "response.reasoning_text.delta"
             [("delta", str d); ("output_index", uint index); ("item_id", str (reasoning_id index))]]
  = [ReasoningDelta d].
Proof. reflexivity. Qed.

Lemma decode_tool_begin index decoder cid nm : is_server_search nm cid = false →
  decoded [item_added index (tool_value parse_json (tool_begun index decoder cid nm) "in_progress")]
  = [ToolCallBegin index cid nm].
Proof. intros H. unfold tool_value. cbn [name call_id tool_begun]. rewrite H. reflexivity. Qed.

Lemma decode_args t d :
  decoded [frame "response.function_call_arguments.delta"
             [("output_index", uint (output_index t)); ("item_id", str (item_id t)); ("delta", str d)]]
  = [ToolArgsDelta (output_index t) d].
Proof. reflexivity. Qed.

Lemma decode_item_done index v : decoded [item_done index v] = [].
Proof. reflexivity. Qed.

Lemma decode_close_tools status ts : decoded (close_tools parse_json status ts).1 = [].
Proof.
  induction ts as [|t ts IH]; [done|]. cbn [close_tools]. destruct (close_tools parse_json status ts) as [fs ts'].
  unfold close_tool_item. cbn [fst] in *. rewrite decoded_app, IH, app_nil_r.
  rewrite decoded_app. destruct (args_done_emitted t), (item_done_emitted t); reflexivity.
Qed.

Lemma decode_close_items r : decoded (close_items parse_json r).1 = [].
Proof.
  unfold close_items. pose proof (decode_text_done r) as Ht.
  destruct (close_text_item r) as [gs r1]. pose proof (decode_close_tools (item_status r1) (tools r1)) as Hc.
  destruct (close_tools parse_json (item_status r1) (tools r1)) as [hs ts]. cbn [fst] in *.
  rewrite !decoded_app, Ht, Hc. unfold close_reasoning_item. by destruct (reasoning_index r).
Qed.

Definition zero_usage : Usage := parse_usage Json.Null.

(** A usage record as the parser makes them. *)
Definition usage_normal (u : Usage) : Prop :=
  ((prompt_tokens u =? 0) && (completion_tokens u =? 0) && (0 <? total_tokens u)) = false ∧
  (cached_tokens_known u = false → cached_tokens u = 0) ∧
  (cache_write_tokens_known u = false → cache_write_tokens u = 0).

Lemma parse_usage_normal v : usage_normal (parse_usage v).
Proof.
  unfold parse_usage. set (p := default 0 _). set (c := default 0 _). set (t := default _ _).
  destruct ((p =? 0) && (c =? 0) && (0 <? t)) eqn:E; split_and!;
    cbn [prompt_tokens completion_tokens total_tokens cached_tokens_known cached_tokens
         cache_write_tokens_known cache_write_tokens].
  2,3,5,6: match goal with |- is_some ?o = false → _ => destruct o; done end.
  - bool_to_prop. rewrite (proj2 (Z.eqb_neq t 0)) by lia. by rewrite andb_false_r.
  - done.
Qed.

Lemma usage_reread u : parse_usage (build_usage_json (Some u)) =
  let '(fp, fc) := if (prompt_tokens u =? 0) && (completion_tokens u =? 0) && (0 <? total_tokens u)
                   then (0, total_tokens u) else (prompt_tokens u, completion_tokens u) in
  {| prompt_tokens := fp; completion_tokens := fc; total_tokens := total_tokens u;
     cached_tokens := if cached_tokens_known u then cached_tokens u else 0;
     cached_tokens_known := cached_tokens_known u; reasoning_tokens := reasoning_tokens u;
     cache_write_tokens := if cache_write_tokens_known u then cache_write_tokens u else 0;
     cache_write_tokens_known := cache_write_tokens_known u |}.
Proof. destruct u as [p c t ca [] re cw []]; reflexivity. Qed.

Lemma usage_roundtrip u : usage_normal u → parse_usage (build_usage_json (Some u)) = u.
Proof.
  intros (H1 & H2 & H3). rewrite usage_reread, H1. destruct u as [p c t ca ck re cw wk]. cbn in *.
  destruct ck, wk; by rewrite ?H2, ?H3 by done.
Qed.

Lemma decode_completed r u : ResponsesStream.failure r = None →
  decoded [frame (if output_limit_reached r then "response.incomplete" else "response.completed")
             [("response", current_response parse_json (with_outcome r true (output_limit_reached r) None u))]]
  = (if output_limit_reached r then [OutputLimitReached] else [])
    ++ [Completed (Some (parse_usage (build_usage_json u)))].
Proof.
  intros Hf. unfold current_response. cbn [output_limit_reached with_outcome ResponsesStream.failure usage].
  destruct (output_limit_reached r); reflexivity.
Qed.

Lemma decode_failed i msg :
  decoded [frame "response.failed"
             [("response", obj [("id", str i); ("object", str "response"); ("status", str "failed");
                                ("error", obj [("message", str msg); ("type", str "server_error")])])]]
  = [Failed msg].
Proof. reflexivity. Qed.
End frames.

(** ** Aggregating the decoded events *)

Section relate.
Context (parse_json : string → option Json.Value).
Abbreviation render_unstamped := (render_unstamped parse_json).
Abbreviation renders_unstamped := (renders_unstamped parse_json).

(** A tool of the renderer, under the index its events came with or go out with. *)
Definition as_decoded (t : ToolCallItem) := (decoder_index t, (call_id t, name t, arguments t)).
Definition as_rendered (t : ToolCallItem) := (output_index t, (call_id t, name t, arguments t)).
Definition as_called (t : ToolAccumulator) :=
  (Render.output_index t, (Render.call_id t, Render.name t, Render.arguments t)).

(** The renderer between the aggregator [a] of its input and [a'] of what it sent. *)
Record relayed (r : Renderer) (a a' : Aggregator) : Prop := {
  re_live : terminated r = false;
  re_fine : ResponsesStream.failure r = None;
  re_text : text a' = text a;
  re_reasoning : reasoning a' = reasoning a;
  re_in : as_decoded <$> tools r = as_called <$> Render.tools a;
  re_out : as_rendered <$> tools r = as_called <$> Render.tools a';
  re_indices : Forall (λ i, i < next_output_index r) (output_index <$> tools r);
  re_distinct : NoDup (output_index <$> tools r);
  re_flags : Forall (λ t, args_done_emitted t = false) (tools r);
  re_limit : ag_limit a = output_limit_reached r ∧ ag_limit a' = false;
  re_fail : ag_failure a = None ∧ ag_failure a' = None;
}.

Lemma relayed_new m c mm cc : relayed (new m c) (ag_new mm cc) (ag_new mm cc).
Proof. split; try done; constructor. Qed.

Definition same_items (r r' : Renderer) : Prop :=
  terminated r' = terminated r ∧ ResponsesStream.failure r' = ResponsesStream.failure r ∧
  tools r' = tools r ∧ next_output_index r ≤ next_output_index r' ∧
  output_limit_reached r' = output_limit_reached r.

(** Changes the aggregators do not see. *)
Lemma relayed_same r r' a a' b : relayed r a a' → same_items r r' →
  text b = text a → reasoning b = reasoning a → Render.tools b = Render.tools a → ag_limit b = ag_limit a →
  ag_failure b = ag_failure a → relayed r' b a'.
Proof.
  intros [] (T & F & O & N & L) B1 B2 B3 B4 B5. split; try congruence.
  - rewrite O. eapply Forall_impl; [done|]. cbn. lia.
Qed.

Lemma relayed_created r a a' x : relayed r a a' → relayed r a (ag_push a' (Created x)).
Proof. intros []. destruct a'. by split. Qed.

Lemma created_step r fs r1 a a' : relayed r a a' → ensure_created_frame r = (fs, r1) →
  relayed r1 a (foldl ag_push a' (decoded fs)) ∧ reasoning_accumulator r1 = reasoning_accumulator r.
Proof.
  intros H E. pose proof (decode_created r) as Hd. rewrite E in Hd. cbn [fst] in Hd. rewrite Hd.
  assert (Hs : same_items r r1).
  { revert E. unfold ensure_created_frame. destruct (created_sent r); intros [= <- <-]; by repeat split. }
  split.
  - destruct (created_sent r); cbn [foldl].
    + eapply relayed_same; [exact H|exact Hs|done..].
    + eapply relayed_same; [by apply relayed_created|exact Hs|done..].
  - revert E. unfold ensure_created_frame. by destruct (created_sent r); intros [= <- <-].
Qed.

Lemma relayed_reasoning r fs r1 i a a' : relayed r a a' → ensure_reasoning_item r = (fs, r1, i) →
  relayed r1 a (foldl ag_push a' (decoded fs)).
Proof.
  intros H. unfold ensure_reasoning_item. destruct (ensure_created_frame r) as [o r2] eqn:E.
  destruct (created_step _ _ _ _ _ H E) as [H1 _].
  destruct (reasoning_index r2); intros [= <- <- <-]; [done|].
  rewrite decoded_app. change (decoded [_]) with (@nil CodexEvent). rewrite app_nil_r.
  eapply relayed_same; [exact H1| |done..]. repeat split; cbn; lia.
Qed.

Lemma position_fmap {A B} (f : A → B) (p : B → bool) l : position p (f <$> l) = position (λ x, p (f x)) l.
Proof. induction l as [|x l IH]; [done|]. cbn. by rewrite IH. Qed.

Lemma push_args_position d x ts n : Forall (λ t, args_done_emitted t = false) ts →
  position (λ j, j =? d) (decoder_index <$> ts) = Some n →
  ∃ t, ts !! n = Some t ∧ push_args d x ts = Some (add_args x t, <[n := add_args x t]> ts).
Proof.
  revert n. induction ts as [|u ts IH]; intros n Hf; [done|]. apply list.Forall_cons in Hf as [Hu Hf].
  rewrite fmap_cons. cbn [position push_args]. unfold takes_args. rewrite Hu. cbn [negb]. rewrite andb_true_r.
  destruct (decoder_index u =? d); [intros [= <-]; by exists u|].
  destruct (position _ _) as [m|]; [|done]. cbn. intros [= <-].
  destruct (IH m Hf eq_refl) as (t & Ht & ->). by exists t.
Qed.

Lemma position_NoDup (l : list Z) n i : NoDup l → l !! n = Some i → position (λ j, j =? i) l = Some n.
Proof.
  intros Hnd Hi. apply position_Some. exists i. split_and!; [done|lia|]. intros k y Hk Hy.
  apply Z.eqb_neq. intros ->. assert (k = n) by (eapply NoDup_lookup; done). lia.
Qed.

Lemma fmap_fst_eq {A B C} (f : A → Z * B) (g : C → Z * B) (l : list A) (k : list C) :
  f <$> l = g <$> k → (λ x, (f x).1) <$> l = (λ x, (g x).1) <$> k.
Proof.
  intros H. apply (f_equal (fmap (M := list) fst)) in H. by rewrite <- !list_fmap_compose in H.
Qed.

Lemma relayed_args r a a' d x : relayed r a a' → d ∈ (decoder_index <$> tools r) →
  ∃ t ts, push_args d x (tools r) = Some (t, ts) ∧
    relayed (with_tools r ts (next_output_index r)) (ag_push a (ToolArgsDelta d x))
            (ag_push a' (ToolArgsDelta (output_index t) x)).
Proof.
  intros H Hd. destruct (position_elem d _ Hd) as [n Hn].
  destruct (push_args_position d x _ n (re_flags _ _ _ H) Hn) as (t & Ht & Hp).
  exists (add_args x t), (<[n := add_args x t]> (tools r)). split; [done|].
  assert (Hin : decoder_index <$> tools r = Render.output_index <$> Render.tools a)
    by exact (fmap_fst_eq _ _ _ _ (re_in _ _ _ H)).
  assert (Hout : output_index <$> tools r = Render.output_index <$> Render.tools a')
    by exact (fmap_fst_eq _ _ _ _ (re_out _ _ _ H)).
  assert (Hpa : position (λ j, j =? d) (Render.output_index <$> Render.tools a) = Some n) by by rewrite <- Hin.
  assert (Hpb : position (λ j, j =? output_index t) (Render.output_index <$> Render.tools a') = Some n).
  { rewrite <- Hout. apply position_NoDup; [apply H|]. by rewrite list_lookup_fmap, Ht. }
  destruct (update_tool_position _ (Render.add_args x) _ _ Hpa) as (ta & Hta & Hua).
  destruct (update_tool_position _ (Render.add_args x) _ _ Hpb) as (tb & Htb & Hub).
  assert (Ea : as_called ta = as_decoded t).
  { pose proof (f_equal (.!! n) (re_in _ _ _ H)) as E. cbn in E. rewrite !list_lookup_fmap, Ht, Hta in E. cbn in E. congruence. }
  assert (Eb : as_called tb = as_rendered t).
  { pose proof (f_equal (.!! n) (re_out _ _ _ H)) as E. cbn in E. rewrite !list_lookup_fmap, Ht, Htb in E. cbn in E. congruence. }
  assert (Ho : output_index <$> <[n := add_args x t]> (tools r) = output_index <$> tools r).
  { rewrite list_fmap_insert. cbn. apply list_insert_id. by rewrite list_lookup_fmap, Ht. }
  destruct H, a as [i1 m1 c1 t1 g1 n1 s1 ts1 u1 f1 l1], a' as [i2 m2 c2 t2 g2 n2 s2 ts2 u2 f2 l2]. cbn in *.
  split; cbn; try done.
  - rewrite Hua. cbn. rewrite !list_fmap_insert. f_equal; [|done].
    unfold as_called, as_decoded in Ea |- *. cbn. injection Ea as <- <- <- <-. done.
  - rewrite Hub. cbn. rewrite !list_fmap_insert. f_equal; [|done].
    unfold as_called, as_rendered in Eb |- *. cbn. injection Eb as <- <- <- <-. done.
  - by rewrite Ho.
  - by rewrite Ho.
  - apply Forall_insert; [done|]. cbn. rewrite list.Forall_forall in re_flags0.
    exact (re_flags0 t (list_elem_of_lookup_2 _ _ _ Ht)).
Qed.

(** No call is a search the upstream runs itself. *)
Definition client_call (e : CodexEvent) : bool :=
  match e with ToolCallBegin _ cid nm => negb (is_server_search nm cid) | _ => true end.

Lemma created_same r fs r1 : ensure_created_frame r = (fs, r1) → same_items r r1.
Proof. unfold ensure_created_frame. destruct (created_sent r); intros [= <- <-]; repeat split; cbn; lia. Qed.

Lemma reasoning_same r fs r1 i : ensure_reasoning_item r = (fs, r1, i) → tools r1 = tools r.
Proof.
  unfold ensure_reasoning_item. destruct (ensure_created_frame r) as [o r2] eqn:E.
  apply created_same in E as (_ & _ & <- & _). by destruct (reasoning_index r2); intros [= <- <- <-].
Qed.

Lemma close_text_same r fs r1 : close_text_item r = (fs, r1) → same_items r r1.
Proof. unfold close_text_item. destruct (text_state r); intros [= <- <-]; repeat split; cbn; lia. Qed.

Lemma open_text_same r fs r1 i j : open_text r = (fs, r1, i, j) → same_items r r1.
Proof. unfold open_text. destruct (text_state r); intros [= <- <- <- <-]; repeat split; cbn; lia. Qed.

Lemma relayed_text r a a' x : relayed r a a' → relayed r (ag_push a (TextDelta x)) (ag_push a' (TextDelta x)).
Proof. intros []. destruct a, a'. cbn in *. split; cbn; congruence. Qed.

Lemma relayed_think r a a' x :
  relayed r a a' → relayed r (ag_push a (ReasoningDelta x)) (ag_push a' (ReasoningDelta x)).
Proof. intros []. destruct a, a'. cbn in *. split; cbn; congruence. Qed.

Lemma relayed_begin r a a' d cid nm : relayed r a a' →
  let index := next_output_index r in
  relayed (with_tools r (tools r ++ [tool_begun index d cid nm]) (index + 1))
    (ag_push a (ToolCallBegin d cid nm)) (ag_push a' (ToolCallBegin index cid nm)).
Proof.
  intros []. destruct a, a'. cbn in *. split; cbn; try done.
  - rewrite !fmap_app, re_in0. done.
  - rewrite !fmap_app, re_out0. done.
  - rewrite fmap_app. apply Forall_app. split; [eapply Forall_impl; [done|]; cbn; lia|].
    repeat constructor. cbn. lia.
  - rewrite fmap_app. apply NoDup_app. split_and!; [done| |apply NoDup_singleton].
    intros y Hy Hn. apply list_elem_of_singleton in Hn. rewrite list.Forall_forall in re_indices0.
    specialize (re_indices0 y Hy). cbn in *. lia.
  - apply Forall_app. split; [done|by repeat constructor].
Qed.

Lemma relayed_step r a a' e fs r' : relayed r a a' → is_terminal e = false →
  tools_ok (decoder_index <$> tools r) [e] → client_call e = true → render_unstamped r e = (fs, r') →
  relayed r' (ag_push a e) (foldl ag_push a' (decoded fs)) ∧
  decoder_index <$> tools r' = match e with
                               | ToolCallBegin i _ _ => (decoder_index <$> tools r) ++ [i]
                               | _ => decoder_index <$> tools r
                               end.
Proof.
  intros H He Hok Hc. unfold ResponsesStream.render_unstamped. rewrite (re_live _ _ _ H).
  destruct e as [x|x|x|x| |j ci nm|j x| |u|x]; try done.
  - set (r0 := if is_empty x then r else with_identity r (response_id_of x) (created_sent r)). intros E.
    assert (H0 : relayed r0 a a' ∧ tools r0 = tools r).
    { unfold r0. destruct (is_empty x); [done|]. split; [|done].
      eapply relayed_same; [exact H| |done..]. repeat split; cbn; lia. }
    destruct H0 as [H0 Ht]. destruct (created_step _ _ _ _ _ H0 E) as [H1 _].
    apply created_same in E as (_ & _ & Et & _). rewrite Et, Ht. split; [|done].
    eapply relayed_same; [exact H1| |by destruct a..]. repeat split; lia.
  - destruct (ensure_created_frame r) as [o r1] eqn:E1. destruct (created_step _ _ _ _ _ H E1) as [H1 _].
    pose proof (decode_open_text r1) as Hd. destruct (open_text r1) as [[[o2 r2] i] index] eqn:E2. cbn [fst] in Hd.
    apply open_text_same in E2. apply created_same in E1 as (_ & _ & Et1 & _).
    intros [= <- <-]. rewrite !decoded_app, Hd, foldl_app. cbn [app]. rewrite decode_text_delta. cbn [foldl].
    pose proof E2 as (_ & _ & Et2 & _). split; [|cbn; by rewrite Et2, Et1].
    apply relayed_text. eapply relayed_same; [exact H1| |done..].
    destruct E2 as (? & ? & ? & ? & ?). by repeat split.
  - destruct (ensure_reasoning_item r) as [[o r1] i] eqn:E1.
    pose proof (relayed_reasoning _ _ _ _ _ _ H E1) as H1. apply reasoning_same in E1.
    intros [= <- <-]. rewrite decoded_app, foldl_app, decode_reasoning_delta. cbn [foldl].
    split; [|cbn; by rewrite E1]. apply relayed_think. eapply relayed_same; [exact H1| |done..].
    repeat split; cbn; lia.
  - destruct (ensure_reasoning_item r) as [[o r1] i] eqn:E1.
    pose proof (relayed_reasoning _ _ _ _ _ _ H E1) as H1. apply reasoning_same in E1.
    intros [= <- <-]. split; [|cbn; by rewrite E1].
    eapply relayed_same; [exact H1| |by destruct a..]. repeat split; cbn; lia.
  - destruct (ensure_reasoning_item r) as [[o r1] i] eqn:E1.
    pose proof (relayed_reasoning _ _ _ _ _ _ H E1) as H1. apply reasoning_same in E1.
    intros [= <- <-]. split; [|cbn; by rewrite E1].
    eapply relayed_same; [exact H1| |by destruct a..]. repeat split; cbn; lia.
  - destruct (ensure_created_frame r) as [o r1] eqn:E1. destruct (created_step _ _ _ _ _ H E1) as [H1 _].
    pose proof (decode_text_done r1) as Hd. destruct (close_text_item r1) as [o2 r2] eqn:E2. cbn [fst] in Hd.
    apply close_text_same in E2. apply created_same in E1 as (_ & _ & Et1 & _).
    intros [= <- <-]. rewrite !decoded_app, Hd, foldl_app. cbn [app].
    rewrite decode_tool_begin by (cbn in Hc; by destruct (is_server_search nm ci)). cbn [foldl].
    pose proof E2 as (_ & _ & Et2 & _). split; [|cbn; by rewrite fmap_app, Et2, Et1].
    apply relayed_begin. by eapply relayed_same; [exact H1|exact E2|..].
  - destruct (ensure_created_frame r) as [o r1] eqn:E1. destruct (created_step _ _ _ _ _ H E1) as [H1 _].
    apply created_same in E1 as (_ & _ & Et1 & _). destruct Hok as [Hok _].
    destruct (relayed_args _ _ _ j x H1) as (t & ts & Ep & H2); [by rewrite Et1|]. rewrite Ep.
    intros [= <- <-]. rewrite decoded_app, foldl_app, decode_args. cbn [foldl]. split; [done|].
    pose proof (fmap_fst_eq _ _ _ _ (re_in _ _ _ H2)) as Hin. cbn in Hin.
    assert (Hd : decoder_index <$> ts = decoder_index <$> tools r1).
    { clear -Ep. revert t ts Ep. generalize (tools r1). induction l as [|u l IH]; intros t ts; cbn; [done|].
      destruct (takes_args j u); [by intros [= <- <-]|]. destruct (push_args j x l) as [[v vs]|]; [|done].
      intros [= <- <-]. cbn. by rewrite (IH v vs eq_refl). }
    cbn. by rewrite Hd, Et1.
  - intros [= <- <-]. split; [|done]. destruct H as [? ? ? ? ? ? ? ? ? [_ L] ?], a. cbn in *. by split.
Qed.

Lemma relayed_renders es : ∀ r a a' fs r', relayed r a a' → Forall (λ e, is_terminal e = false) es →
  tools_ok (decoder_index <$> tools r) es → Forall (λ e, client_call e = true) es →
  renders_unstamped r es = (fs, r') →
  relayed r' (foldl ag_push a es) (foldl ag_push a' (decoded fs)).
Proof.
  induction es as [|e es IH]; intros r a a' fs r' H Hes Hok Hc; cbn [ResponsesProps.renders_unstamped foldl].
  { by intros [= <- <-]. }
  apply list.Forall_cons in Hes as [He Hes], Hc as [Hc1 Hc].
  destruct (render_unstamped r e) as [o r1] eqn:E1. destruct (renders_unstamped r1 es) as [o2 r2] eqn:E2.
  intros [= <- <-]. rewrite decoded_app, foldl_app. apply tools_ok_cons in Hok as [Hok1 Hok].
  destruct (relayed_step _ _ _ _ _ _ H He Hok1 Hc1 E1) as [H1 Hd].
  eapply IH; try done. rewrite Hd. by destruct e.
Qed.

(** What the aggregator of the decoded stream shares with the aggregator of the events. *)
Definition agrees (last : CodexEvent) (a a' : Aggregator) : Prop :=
  text a' = text a ∧ reasoning a' = reasoning a ∧ calls (Render.tools a') = calls (Render.tools a) ∧
  ag_failure a' = ag_failure a ∧
  match last with
  | Completed u => ag_usage a' = Some (default zero_usage u) ∧ ag_limit a' = ag_limit a
  | _ => True
  end.

Lemma relayed_calls r a a' : relayed r a a' → calls (Render.tools a') = calls (Render.tools a).
Proof.
  intros H. pose proof (re_in _ _ _ H) as H1. pose proof (re_out _ _ _ H) as H2.
  apply (f_equal (fmap (M := list) snd)) in H1, H2. rewrite <- !list_fmap_compose in H1, H2.
  change (calls (Render.tools a')) with (snd ∘ as_called <$> Render.tools a').
  change (calls (Render.tools a)) with (snd ∘ as_called <$> Render.tools a).
  rewrite <- H1, <- H2. done.
Qed.

Lemma close_items_same r fs r1 : close_items parse_json r = (fs, r1) →
  ResponsesStream.failure r1 = ResponsesStream.failure r ∧ output_limit_reached r1 = output_limit_reached r.
Proof.
  unfold close_items. destruct (close_text_item r) as [gs r2] eqn:E. apply close_text_same in E as (_ & F & _ & _ & L).
  destruct (close_tools _ _ _). intros [= <- <-]. cbn. by rewrite F, L.
Qed.

Lemma relayed_last r a a' last fs r' : relayed r a a' → is_terminal last = true →
  (∀ u, last = Completed (Some u) → usage_normal u) → render_unstamped r last = (fs, r') →
  agrees last (ag_push a last) (foldl ag_push a' (decoded fs)).
Proof.
  intros H Hl Hu. unfold ResponsesStream.render_unstamped. rewrite (re_live _ _ _ H).
  destruct last as [x|x|x|x| |j ci nm|j x| |u|x]; try done.
  - destruct (ensure_created_frame r) as [o r1] eqn:E1. destruct (created_step _ _ _ _ _ H E1) as [H1 _].
    pose proof (decode_close_items parse_json r1) as Hd.
    destruct (close_items parse_json r1) as [o2 r2] eqn:E2. cbn [fst] in Hd.
    apply close_items_same in E2 as [F2 L2]. rewrite (re_fine _ _ _ H1) in F2.
    intros [= <- <-]. rewrite !decoded_app, Hd, foldl_app. cbn [app].
    rewrite F2. cbn [output_limit_reached with_outcome]. rewrite decode_completed by done.
    rewrite foldl_app. set (b := foldl ag_push a' (decoded o)) in *.
    assert (Hus : parse_usage (build_usage_json u) = default zero_usage u).
    { destruct u as [u|]; [by apply usage_roundtrip, Hu|done]. }
    rewrite Hus. pose proof (relayed_calls _ _ _ H1) as Hcalls. destruct H1 as [? ? ? ? ? ? ? ? ? [L La] [Fa Fb]].
    rewrite L2, <- L. clearbody b. destruct a as [? ? ? ? ? ? ? ? ? ? l], b. cbn in *.
    destruct l; cbn; unfold agrees; cbn; repeat split; try done; congruence.
  - pose proof (decode_close_items parse_json r) as Hd.
    destruct (close_items parse_json r) as [o2 r2] eqn:E2. cbn [fst] in Hd.
    intros [= <- <-]. rewrite decoded_app, Hd. cbn [app]. rewrite decode_failed. cbn [foldl].
    pose proof (relayed_calls _ _ _ H) as Hcalls. destruct H. destruct a, a'. cbn in *.
    unfold agrees. cbn. repeat split; try done; congruence.
Qed.

(** From events to decoded events, before the bytes. *)
Lemma decoded_agrees m c mm cc es last :
  Forall (λ e, is_terminal e = false) es → is_terminal last = true → tools_ok [] es →
  Forall (λ e, client_call e = true) es → (∀ u, last = Completed (Some u) → usage_normal u) →
  agrees last (foldl ag_push (ag_new mm cc) (es ++ [last]))
    (foldl ag_push (ag_new mm cc) (decoded (renders parse_json (new m c) (es ++ [last])).1)).
Proof.
  intros Hes Hl Hok Hc Hu. rewrite renders_stamp.
  destruct (renders_unstamped (new m c) (es ++ [last])) as [fs r2] eqn:E.
  pose proof (decoded_stamp fs (next_sequence (new m c))) as Hd.
  destruct (stamp_sequence fs _) as [out n]. cbn [fst] in *. rewrite Hd. clear out n Hd.
  rewrite renders_unstamped_app in E. destruct (renders_unstamped (new m c) es) as [o1 r1] eqn:E1.
  cbn [ResponsesProps.renders_unstamped] in E. destruct (render_unstamped r1 last) as [o2 r3] eqn:E2.
  rewrite app_nil_r in E. injection E as <- <-. rewrite decoded_app, !foldl_app. cbn [foldl].
  eapply relayed_last; [|done|done|exact E2].
  eapply relayed_renders; [apply relayed_new|done|exact Hok|done|exact E1].
Qed.
End relate.

(** ** The frames are named *)

Definition NAMES : list string :=
  ["response.created"; "response.output_item.added"; "response.output_item.done";
   "response.content_part.added"; "response.output_text.delta"; "response.reasoning_text.delta";
   "response.function_call_arguments.delta"; "response.function_call_arguments.done";
   "response.completed"; "response.incomplete"; "response.failed"].

(** The payload carries the event's name, and it is one of the eleven. *)
Definition named (f : Frame) : Prop :=
  str_at ["type"] (payload f) = Some (event_name f) ∧ event_name f ∈ NAMES.

Ltac names := split; [reflexivity|refine (bool_decide_unpack _ _); vm_compute; exact I].

Lemma stamp_named fs : Forall named fs → ∀ n, Forall named (stamp_sequence fs n).1.
Proof.
  induction 1 as [|f fs [Hf1 Hf2] _ IH]; intros n; [constructor|]. cbn. specialize (IH (n + 1)).
  destruct (stamp_sequence fs (n + 1)). constructor; [|done]. split; [|done].
  revert Hf1. unfold str_at. cbn [Json.pointer payload stamp_frame event_name]. by rewrite get_set_ne.
Qed.

Lemma pending_frame f : named f → ends f = false → pending (decode_value (payload f)).
Proof.
  intros [Ht Hn] He. unfold decode_value, limit_reached, classify. rewrite Ht. cbn [mbind option_bind].
  unfold ends in He. generalize dependent (event_name f). intros k _ Hk He.
  unfold NAMES in Hk. rewrite !elem_of_cons in Hk.
  destruct_or! Hk; subst; try discriminate He; try (by apply not_elem_of_nil in Hk);
    repeat match goal with |- context [bool_decide ?P] =>
      first [rewrite (bool_decide_eq_false_2 P) by done|rewrite (bool_decide_eq_true_2 P) by done]
    end; cbn [andb orb]; unfold pending.
  all: repeat match goal with
         | |- context [str_at ?l ?v] => destruct (str_at l v)
         | |- context [Json.get ?l ?v ≫= ?g] => destruct (Json.get l v); cbn [mbind option_bind]
         | |- context [bool_decide ?P] => destruct (bool_decide P)
         end; repeat constructor.
Qed.

Section naming.
Context (parse_json : string → option Json.Value).
Abbreviation render_unstamped := (render_unstamped parse_json).

Lemma created_named r : Forall named (ensure_created_frame r).1.
Proof. unfold ensure_created_frame. destruct (created_sent r); constructor; names || constructor. Qed.

Lemma reasoning_named r : Forall named (ensure_reasoning_item r).1.1.
Proof.
  unfold ensure_reasoning_item. pose proof (created_named r) as H. destruct (ensure_created_frame r) as [o r1].
  destruct (reasoning_index r1); [done|]. apply Forall_app. split; [done|]. constructor; [names|constructor].
Qed.

Lemma text_done_named r : Forall named (close_text_item r).1.
Proof. unfold close_text_item. destruct (text_state r); constructor; names || constructor. Qed.

Lemma close_tools_named status ts : Forall named (close_tools parse_json status ts).1.
Proof.
  induction ts as [|t ts IH]; [constructor|]. cbn [close_tools]. destruct (close_tools parse_json status ts) as [fs ts'].
  unfold close_tool_item. cbn [fst] in *. apply Forall_app. split; [|done]. apply Forall_app.
  destruct (args_done_emitted t), (item_done_emitted t); split; constructor; names || constructor.
Qed.

Lemma close_items_named r : Forall named (close_items parse_json r).1.
Proof.
  unfold close_items. pose proof (text_done_named r) as Ht. destruct (close_text_item r) as [gs r1].
  pose proof (close_tools_named (item_status r1) (tools r1)) as Hc. destruct (close_tools _ _ _) as [hs ts].
  cbn [fst] in *. repeat (apply Forall_app; split); try done.
  unfold close_reasoning_item. destruct (reasoning_index r); constructor; names || constructor.
Qed.

Lemma open_text_named r : Forall named (open_text r).1.1.1.
Proof. unfold open_text. destruct (text_state r); repeat (constructor; [names|]); constructor. Qed.

Lemma render_named r e : Forall named (render_unstamped r e).1.
Proof.
  unfold ResponsesStream.render_unstamped. destruct (terminated r); [constructor|].
  pose proof (created_named r) as Hc. pose proof (reasoning_named r) as Hr.
  pose proof (close_items_named r) as Hi.
  destruct e as [x|x|x|x| |j ci nm|j x| |u|x]; [apply created_named| | | | | | |constructor| |].
  2-4: destruct (ensure_reasoning_item r) as [[o r1] i]; try done.
  all: try (destruct (ensure_created_frame r) as [o r1]; cbn [fst] in Hc).
  - pose proof (open_text_named r1) as Ho. destruct (open_text r1) as [[[o2 r2] i] k]. cbn [fst] in *.
    repeat (apply Forall_app; split); try done. constructor; [names|constructor].
  - apply Forall_app. split; [done|]. constructor; [names|constructor].
  - pose proof (text_done_named r1) as Ho. destruct (close_text_item r1) as [o2 r2]. cbn [fst] in *.
    repeat (apply Forall_app; split); try done. constructor; [names|constructor].
  - destruct (push_args _ _ _) as [[t ts]|]; [|done].
    apply Forall_app. split; [done|]. constructor; [names|constructor].
  - pose proof (close_items_named r1) as Ho. destruct (close_items parse_json r1) as [o2 r2]. cbn [fst] in *.
    repeat (apply Forall_app; split); try done.
    destruct (output_limit_reached _); (constructor; [names|constructor]).
  - destruct (close_items parse_json r) as [o2 r2]. cbn [fst] in *.
    apply Forall_app. split; [done|]. constructor; [names|constructor].
Qed.

Lemma renders_named es : ∀ r, Forall named (renders parse_json r es).1.
Proof.
  induction es as [|e es IH]; intros r; [constructor|]. cbn [renders]. unfold render.
  pose proof (render_named r e) as H. destruct (render_unstamped r e) as [o r1].
  pose proof (stamp_named o H (next_sequence r1)) as Hs. destruct (stamp_sequence o _) as [o' n].
  specialize (IH (with_sequence r1 n)). destruct (renders _ _ es) as [o2 r2]. cbn [fst] in *.
  by apply Forall_app.
Qed.
End naming.

(** ** The bytes *)

Lemma event_names_plain name : name ∈ NAMES → line_name name.
Proof.
  unfold NAMES. rewrite !elem_of_cons. intros H.
  destruct_or! H; subst; try (by apply not_elem_of_nil in H); split; vm_compute; done.
Qed.

Section wire.
Context (parse_json : string → option Json.Value) (print_json : Json.Value → string).
Abbreviation sse_frame := (sse_frame print_json).
Abbreviation codec := (Wire.codec parse_json print_json).
Abbreviation wire := (Wire.wire print_json).
Abbreviation stream := (stream parse_json).
Abbreviation decode := (decode parse_json).

Lemma split_data_line name rest : all_bytes plain name = true →
  split_data (name +:+ String LF "data: " +:+ rest) = Some (name +:+ String LF "data: ", rest).
Proof.
  induction name as [|a name IH]; intros H; [done|]. cbn [all_bytes] in H. apply andb_true_iff in H as [Ha H].
  change (String a name +:+ ?t) with (String a (name +:+ t)). cbn [split_data].
  assert (strip_prefix (String LF "data: ") (String a (name +:+ String LF "data: " +:+ rest)) = None) as ->.
  { cbn [strip_prefix]. apply andb_true_iff in Ha as [_ Ha]. apply negb_true_iff, bool_decide_eq_false in Ha.
    by case_decide. }
  by rewrite (IH H).
Qed.

(** Stamping the text that is sent is sending the stamped payload. *)
Lemma stamp_bytes_frame n f : named f → codec (payload f) → Json.is_object (payload f) = true →
  stamp_bytes parse_json print_json n (sse_frame f) = (sse_frame (stamp_frame n f), n + 1).
Proof.
  intros [_ Hn] (Hp & Hpl & _) Ho. destruct (event_names_plain _ Hn) as [Hn1 _].
  unfold stamp_bytes, ResponsesStream.sse_frame. cbn [event_name payload stamp_frame].
  assert (Hs := split_data_line ("event: " +:+ event_name f) (print_json (payload f) +:+ String LF (String LF "")) Hn1).
  rewrite !append_assoc in Hs. rewrite Hs.
  change (String LF (String LF "")) with (String LF "" +:+ String LF ""). rewrite <- append_assoc.
  rewrite !trim_end_matches_snoc, trim_end_matches_id, Hp by first [done | eapply all_bytes_impl; [|exact Hpl]; by intros a [_ ?]%andb_true_iff].
  destruct (payload f) as [| | | | |o]; try done. cbn [set]. by rewrite !append_assoc.
Qed.

Lemma decode_codec v : codec v → decode (print_json v) = decode_value v.
Proof.
  intros (Hp & _ & Hd & _). unfold Sse.decode. rewrite bool_decide_eq_false_2 by done. by rewrite Hp.
Qed.

Lemma decode_wire fs : ∀ f, Forall (λ f, pending (decode_value (payload f))) fs →
  closed (decode_value (payload f)) → Forall codec (payload <$> fs ++ [f]) →
  decode_frames parse_json false (print_json ∘ payload <$> fs ++ [f]) = (decoded (fs ++ [f]), true).
Proof.
  unfold decoded. induction fs as [|g fs IH]; intros f Hp Hcl Hc.
  - apply list.Forall_cons in Hc as [Hcg _]. destruct Hcl as (es & e & E & Hes & He).
    cbn [app fmap list_fmap decode_frames compose mbind list_bind]. rewrite (decode_codec _ Hcg), E, existsb_app.
    cbn [existsb]. by rewrite He, orb_true_r.
  - apply list.Forall_cons in Hc as [Hcg Hc], Hp as [Hpg Hp].
    assert (Hx : existsb is_terminal (decode_value (payload g)) = false).
    { apply not_true_iff_false. rewrite existsb_exists. intros (e & Hin & He). unfold pending in Hpg.
      rewrite List.Forall_forall in Hpg. by rewrite Hpg in He. }
    cbn [app fmap list_fmap decode_frames compose mbind list_bind]. rewrite (decode_codec _ Hcg), Hx.
    specialize (IH f Hp Hcl Hc). cbn [fmap compose] in IH. by rewrite IH.
Qed.

Lemma ending_closed f : named f → ends f = true → closed (decode_value (payload f)).
Proof.
  intros [Ht Hn] He. unfold decode_value. destruct (limit_reached (payload f)).
  { exists [OutputLimitReached], (Completed (parse_usage <$> Json.pointer ["response"; "usage"] (payload f))). by repeat constructor. }
  unfold ends, one_of in He. apply bool_decide_eq_true in He. unfold classify. rewrite Ht. cbn [mbind option_bind].
  generalize dependent (event_name f). intros k _ _ He. rewrite !elem_of_cons in He.
  destruct_or! He; subst; try (by apply not_elem_of_nil in He);
    repeat match goal with |- context [bool_decide ?P] =>
      first [rewrite (bool_decide_eq_false_2 P) by done|rewrite (bool_decide_eq_true_2 P) by done]
    end; cbn [orb option_list]; eexists [], _; by repeat constructor.
Qed.

Lemma stream_wire chunks fs f : Forall named (fs ++ [f]) → Forall (λ f, ends f = false) fs → ends f = true →
  Forall codec (payload <$> fs ++ [f]) → String.concat "" chunks = wire (fs ++ [f]) →
  stream chunks = decoded (fs ++ [f]).
Proof.
  intros Hn Hfs Hf Hc Hw. rewrite stream_one, Hw.
  destruct (feed_wire parse_json print_json (fs ++ [f]) initial) as (p & Hfeed & Hp & Ht);
    [by split_and!|eapply Forall_impl; [exact Hn|]; intros g []; by apply event_names_plain|done|].
  rewrite (push_live parse_json initial _ _ _ _ eq_refl eq_refl Hfeed). unfold settled. apply Forall_app in Hn as [Hn1 Hn2].
  rewrite decode_wire; [|..|done].
  - cbn. by rewrite app_nil_r.
  - rewrite list.Forall_forall in Hfs, Hn1 |- *. intros g Hg. apply pending_frame; auto.
  - apply ending_closed; [by inversion Hn2|done].
Qed.

(** C39: What is sent as a Responses stream reads back as the response it was rendered from.
    Take the events of a response - text, reasoning, calls of client tools whose indices each
    begin once, with arguments only for calls that began, then a completion or a failure -,
    render them as Responses frames, write the frames to the wire, cut the bytes anywhere,
    parse them with the parser of upstream streams and aggregate the events: text, reasoning,
    tool calls with their arguments and the failure, if any, are those of aggregating the
    events directly.  When the response completed, so is the output limit, and so is the usage
    (a completion without usage is read as one that used nothing), provided the usage is in
    the form the parser makes ([usage_normal]: not a bare total without parts, and no cache
    count that is not marked as known; [parse_usage] always gives that form).  Nothing is said
    of limit and usage when it failed: the failure frame carries neither.  Of the JSON library
    it is asked that the payloads sent print as one line within the limits and read back. *)
Theorem responses_stream_rereads (m mm : string) (c cc : Z) (es : list CodexEvent)
  (last : CodexEvent) (chunks : list string)
  (Hes : Forall (λ e, is_terminal e = false) es) (Hlast : is_terminal last = true)
  (Hok : tools_ok [] es) (Hclient : Forall (λ e, client_call e = true) es)
  (Husage : ∀ u, last = Completed (Some u) → usage_normal u)
  (Hcodec : Forall codec (payload <$> (renders parse_json (new m c) (es ++ [last])).1))
  (Hchunks : String.concat "" chunks = wire (renders parse_json (new m c) (es ++ [last])).1) :
  agrees last (foldl ag_push (ag_new mm cc) (es ++ [last]))
    (foldl ag_push (ag_new mm cc) (stream chunks)).
Proof.
  destruct (renders_last parse_json m c es last Hes Hlast) as (fs & f & Hout & Hfs & Hf).
  pose proof (renders_named parse_json (es ++ [last]) (new m c)) as Hn.
  pose proof (decoded_agrees parse_json m c mm cc es last Hes Hlast Hok Hclient Husage) as Ha.
  rewrite Hout in *. by rewrite (stream_wire _ _ _ Hn Hfs Hf Hcodec Hchunks).
Qed.
End wire.

(** ** The events of [ResponsesDemo] over the wire *)

Module WireDemo.
Definition events : list CodexEvent := ResponsesDemo.events.
Definition usage : Usage := parse_usage (obj [("input_tokens", uint 5); ("output_tokens", uint 2)]).
Definition out : list Frame := (renders (λ _, None) (new "m" 7) (events ++ [Completed (Some usage)])).1.

(** A payload as its number. *)
Definition print_json (v : Json.Value) : string :=
  default "?" (show_u64 <$> (Json.get "sequence_number" v ≫= Json.as_u64)).
Definition parse_json (s : string) : option Json.Value :=
  payload <$> List.find (λ f, bool_decide (print_json (payload f) = s)) out.

Definition chunks : list string :=
  ["event: resp"; String.substring 11 4000 (wire print_json out)].

Lemma responses_rereads_witness :
  agrees (Completed (Some usage)) (foldl ag_push (ag_new "m" 7) (events ++ [Completed (Some usage)]))
    (foldl ag_push (ag_new "m" 7) (stream parse_json chunks)) ∧
  text (foldl ag_push (ag_new "m" 7) (stream parse_json chunks)) = "hibye".
Proof.
  split; [|vm_compute; reflexivity].
  apply (responses_stream_rereads parse_json print_json "m" "m" 7 7).
  - repeat (constructor; [reflexivity|]). constructor.
  - reflexivity.
  - cbn. split; [apply not_elem_of_nil|]. split; [apply list_elem_of_here|done].
  - repeat (constructor; [reflexivity|]). constructor.
  - intros u [= <-]. apply parse_usage_normal.
  - let l := eval vm_compute in (payload <$> out) in
      assert (E : payload <$> (renders parse_json (new "m" 7) (events ++ [Completed (Some usage)])).1 = l)
        by (vm_compute; reflexivity).
    rewrite E. repeat (constructor; [split_and!; [vm_compute; reflexivity..|done|vm_compute; discriminate]|]).
    constructor.
  - vm_compute. reflexivity.
Defined.
End WireDemo.
