(* ===== verification/ResponsesRequest.v ===== *)
(** * Responses requests (crates/gateway/src/compat/responses.rs, lines 33-686)

    An OpenAI Responses request becomes a chat request: what needs state on the server is
    refused, tools and images are checked, and the tool history must match.  Compaction
    capsules are sealed summaries that a client sends back.

    Parameters: [parse_json] and [print_json] are [serde_json] ([debug_json] its [Debug]
    text), [encode_base64] and [decode_base64] the URL-safe engine, [seal] and [open] the
    AEAD under a key, [sha256] the digest of the key, [write_payload] and [read_payload]
    the derived codec of the capsule's record. *)

From stdpp Require Import base strings list gmap.
From S2P Require Import Prelude RustStr Json.
Import RustStr Json JsonMake.
Open Scope Z_scope.

Module ResponsesRequest.

(** [compat::split_data_url]. *)
Fixpoint split_at_text (p s : string) : option (string * string) :=
  match strip_prefix p s with
  | Some rest => Some ("", rest)
  | None =>
      match s with
      | EmptyString => None
      | String a s => '(l, r) ← split_at_text p s; Some (String a l, r)
      end
  end.

Definition split_data_url (url : string) : option (string * string) :=
  data_url ← strip_prefix "data:" url; split_at_text ";base64," data_url.

Inductive ResponsesError :=
  | InvalidRequest (message : string) (param : option string)
  | Unsupported (message : string) (param : option string).

Definition to_json_value (e : ResponsesError) : Value :=
  let '(message, param) := match e with
                           | InvalidRequest message param => (message, param)
                           | Unsupported message param => (message, param)
                           end in
  obj [("error", obj [("message", str message); ("type", str "invalid_request_error");
                      ("param", opt_str param); ("code", nul)])].

(** [Display]. *)
Definition error_text (e : ResponsesError) : string :=
  match e with
  | InvalidRequest message _ => "invalid request: " +:+ message
  | Unsupported message _ => "unsupported feature: " +:+ message
  end.

Definition invalid_input (message : string) : ResponsesError := InvalidRequest message (Some "input").

(** [.filter(|s| !s.trim().is_empty())]. *)
Definition nonblank (o : option string) : option string :=
  match o with Some s => if is_empty (trim s) then None else Some s | None => None end.

(** [a.get(k).or_else(|| a.get(k'))]. *)
Definition get_either (k k' : string) (v : Value) : option Value := or_else (get k v) (get k' v).

(** ** Compaction capsules *)

Definition COMPACTION_CAPSULE_PREFIX : string := "cpa-ag-compact-v1:".
Definition COMPACTION_SECRET_KEY : string := "CLIProxyAPI".

Record CompactionPayload := { summary : string; cp_model : string; created_at : Z }.

Section capsules.
Context (encode_base64 : string → string) (decode_base64 : string → result string string)
        (sha256 : string → string)
        (seal : string → string → string → result string string)
        (open : string → string → string → result string string)
        (write_payload : CompactionPayload → string)
        (read_payload : string → result string CompactionPayload).

Definition is_recognized_compaction_capsule (capsule : string) : bool :=
  starts_with capsule COMPACTION_CAPSULE_PREFIX.

Definition derive_compaction_key : string := sha256 COMPACTION_SECRET_KEY.

(** [nonce] is what the generator filled in, [now] the clock in seconds. *)
Definition seal_compaction_capsule (nonce : result string string) (now : Z) (summary model : string)
  : result string string :=
  let json_bytes := write_payload {| summary := summary; cp_model := model; created_at := now |} in
  nonce_bytes ← match nonce with Ok n => Ok n | Err e => Err ("rng error: " +:+ e) end;
  in_out ← match seal derive_compaction_key nonce_bytes json_bytes with
           | Ok c => Ok c
           | Err e => Err ("seal error: " +:+ e)
           end;
  Ok (COMPACTION_CAPSULE_PREFIX +:+ encode_base64 (nonce_bytes +:+ in_out)).

Definition unseal_payload (capsule : string) : result string CompactionPayload :=
  match strip_prefix COMPACTION_CAPSULE_PREFIX capsule with
  | None => Err "unrecognized capsule prefix"
  | Some encoded =>
      decoded ← match decode_base64 encoded with
                | Ok d => Ok d
                | Err e => Err ("decode error: " +:+ e)
                end;
      if strlen decoded <? 12 + 16 then Err "invalid capsule: payload too short"
      else
        let nonce := String.substring 0 12 decoded in
        let ct := String.substring 12 (String.length decoded - 12) decoded in
        pt ← match open derive_compaction_key nonce ct with
             | Ok pt => Ok pt
             | Err e => Err ("invalid or tampered capsule: " +:+ e)
             end;
        match read_payload pt with
        | Ok p => Ok p
        | Err e => Err ("invalid JSON in capsule: " +:+ e)
        end
  end.

Definition unseal_compaction_capsule (capsule : string) : result string string :=
  payload ← unseal_payload capsule; Ok (summary payload).

Definition unseal_compaction_capsule_for_model (capsule expected_model : string)
  : result string string :=
  payload ← unseal_payload capsule;
  if negb (is_empty expected_model) && negb (bool_decide (cp_model payload = expected_model))
  then Err ("model mismatch: capsule sealed for '" +:+ cp_model payload
            +:+ "' but requested for '" +:+ expected_model +:+ "'")
  else Ok (summary payload).
End capsules.

(** ** Tools *)

(** [tool.function.k], or [tool.k]. *)
Definition tool_field (k : string) (tool : Value) : option Value :=
  or_else (get "function" tool ≫= get k) (get k tool).

Definition map_tool (tool : Value) : result ResponsesError Value :=
  let tool_type := default "function" (get_str "type" tool) in
  if negb (bool_decide (tool_type = "function")) then
    Err (Unsupported ("unsupported tool type '" +:+ tool_type
                      +:+ "': only function tools are supported") (Some "tools"))
  else
    name ← ok_or (InvalidRequest "tool function missing name" (Some "tools"))
             (nonblank (tool_field "name" tool ≫= as_str));
    let parameters := default (obj [("type", str "object"); ("properties", obj [])])
                        (tool_field "parameters" tool) in
    let function := obj [("name", str name); ("parameters", parameters)] in
    let function := set_some "description" (tool_field "description" tool) function in
    let function := set_some "strict" (tool_field "strict" tool) function in
    Ok (obj [("type", str "function"); ("function", function)]).

Definition map_tools (o : Map) : result ResponsesError (list Value) :=
  match obj_get "tools" o with
  | None => Ok []
  | Some tools =>
      tools_arr ← ok_or (InvalidRequest "tools must be an array" (Some "tools")) (as_array tools);
      try_fold (λ mapped tool, t ← map_tool tool; Ok (mapped ++ [t])) [] tools_arr
  end.

Definition map_tool_choice (choice : Value) : Value :=
  match choice with
  | VObject m =>
      match obj_get "name" m ≫= as_str with
      | Some name => obj [("type", str "function"); ("function", obj [("name", str name)])]
      | None => choice
      end
  | _ => choice
  end.

(** ** Message items *)

(** What the parts of a message add up to. *)
Record Parts := {
  text_parts : string;
  image_parts : list Value;
  reasoning_text : option string;
  reasoning_signature : option string;
  reasoning_redacted : bool;
}.

Definition add_text (p : Parts) (t : option string) : Parts :=
  match t with
  | Some t => {| text_parts := text_parts p +:+ t; image_parts := image_parts p;
                 reasoning_text := reasoning_text p; reasoning_signature := reasoning_signature p;
                 reasoning_redacted := reasoning_redacted p |}
  | None => p
  end.
Definition add_image (p : Parts) (i : Value) : Parts :=
  {| text_parts := text_parts p; image_parts := image_parts p ++ [i];
     reasoning_text := reasoning_text p; reasoning_signature := reasoning_signature p;
     reasoning_redacted := reasoning_redacted p |}.
Definition add_reasoning (p : Parts) (r sig : option string) (redacted : bool) : Parts :=
  {| text_parts := text_parts p; image_parts := image_parts p;
     reasoning_text := or_else r (reasoning_text p);
     reasoning_signature := or_else sig (reasoning_signature p);
     reasoning_redacted := redacted || reasoning_redacted p |}.

(** [u.get("url").and_then(as_str).or_else(|| u.as_str())], and the two other places. *)
Definition image_url_of (part : Value) : option string :=
  or_else (u ← get "image_url" part; or_else (get_str "url" u) (as_str u))
    (or_else (get_str "data" part) (get_str "url" part)).

Definition image_part (part : Value) : result ResponsesError Value :=
  url ← ok_or (invalid_input "missing image_url") (image_url_of part);
  if negb (starts_with url "data:") then
    Err (Unsupported "remote image url is unsupported" (Some "input"))
  else match split_data_url url with
       | None => Err (invalid_input "invalid base64 data url for image")
       | Some _ => Ok (obj [("type", str "image_url"); ("image_url", obj [("url", str url)])])
       end.

Definition add_part (p : Parts) (part : Value) : result ResponsesError Parts :=
  match get_str "type" part with
  | Some ptype =>
      if one_of ptype ["input_text"; "text"; "output_text"] then Ok (add_text p (get_str "text" part))
      else if one_of ptype ["input_image"; "image_url"] then i ← image_part part; Ok (add_image p i)
      else if one_of ptype ["reasoning"; "thinking"] then
        Ok (add_reasoning p (or_else (get_either "reasoning" "thinking" part) (get "text" part) ≫= as_str)
              (get_str "signature" part) (bool_decide (get_bool "redacted" part = Some true)))
      else if bool_decide (ptype = "reasoning_redacted") then Ok (add_reasoning p None None true)
      else Ok (add_text p (get_str "text" part))
  | None => Ok (add_text p (get_str "text" part))
  end.

Definition parts_of (item : Value) : result ResponsesError Parts :=
  let p := {| text_parts := ""; image_parts := [];
              reasoning_text := get_either "reasoning_content" "thinking" item ≫= as_str;
              reasoning_signature := get_either "reasoning_signature" "signature" item ≫= as_str;
              reasoning_redacted := default false (get_bool "reasoning_redacted" item) |} in
  match get "content" item with
  | Some (VString s) => Ok (add_text p (Some s))
  | Some (VArray parts) => try_fold add_part p parts
  | _ => Ok p
  end.

Definition message_content (p : Parts) : Value :=
  match image_parts p with
  | [] => VString (text_parts p)
  | images =>
      VArray ((if is_empty (text_parts p) then []
               else [obj [("type", str "text"); ("text", str (text_parts p))]]) ++ images)
  end.

Definition plain_message (item : Value) : result ResponsesError Value :=
  let role := default "user" (get_str "role" item) in
  p ← parts_of item;
  let msg := obj [("role", str role); ("content", message_content p)] in
  Ok (if bool_decide (role = "assistant") then
        let msg := set_some "reasoning_content" (str <$> reasoning_text p) msg in
        let msg := set_some "reasoning_signature" (str <$> reasoning_signature p) msg in
        if reasoning_redacted p then set "reasoning_redacted" (VBool true) msg else msg
      else msg).

(** ** Tool items *)

Section items.
Context (parse_json : string → result string Value) (print_json : Value → string)
        (debug_json : Value → string).
(** [unseal capsule model] is [unseal_compaction_capsule_for_model]. *)
Context (unseal : string → string → result string string).

(** The messages so far, and the two sets of call ids. *)
Record Input := {
  messages : list Value;
  defined_tool_calls : gset string;
  answered_tool_calls : gset string;
}.

Definition push_message (st : Input) (m : Value) : Input :=
  {| messages := messages st ++ [m]; defined_tool_calls := defined_tool_calls st;
     answered_tool_calls := answered_tool_calls st |}.

Definition compaction_item (target_model : string) (st : Input) (item : Value)
  : result ResponsesError Input :=
  capsule ← ok_or (invalid_input "missing compaction encrypted_content")
              (get_either "encrypted_content" "content" item ≫= as_str);
  match unseal capsule target_model with
  | Err err => Err (invalid_input ("invalid compaction capsule: " +:+ err))
  | Ok unsealed => Ok (push_message st (obj [("role", str "developer"); ("content", str unsealed)]))
  end.

Definition call_arguments (name : string) (item : Value) : result ResponsesError string :=
  match get "arguments" item with
  | Some (VString s) =>
      match parse_json s with
      | Err err => Err (invalid_input ("malformed JSON in function_call arguments for '" +:+ name
                                       +:+ "': " +:+ err))
      | Ok _ => Ok s
      end
  | Some (VObject m) => Ok (print_json (VObject m))
  | Some _ => Err (invalid_input ("invalid function_call arguments type for '" +:+ name
                                  +:+ "': must be a JSON string or object"))
  | None => Ok "{}"
  end.

Definition call_message (call_id name arguments : string) : Value :=
  obj [("role", str "assistant"); ("content", nul);
       ("tool_calls", VArray [obj [("id", str call_id); ("type", str "function");
          ("function", obj [("name", str name); ("arguments", str arguments)])]])].

Definition call_item (st : Input) (item : Value) : result ResponsesError Input :=
  call_id ← ok_or (invalid_input "missing function_call call_id")
              (nonblank (get_either "call_id" "id" item ≫= as_str));
  if bool_decide (call_id ∈ defined_tool_calls st) then
    Err (invalid_input ("duplicate function_call call_id: '" +:+ call_id +:+ "'"))
  else
    name ← ok_or (invalid_input "missing function_call name") (nonblank (get_str "name" item));
    arguments ← call_arguments name item;
    Ok {| messages := messages st ++ [call_message call_id name arguments];
          defined_tool_calls := {[call_id]} ∪ defined_tool_calls st;
          answered_tool_calls := answered_tool_calls st |}.

Definition output_text (item : Value) : string :=
  match get "output" item with
  | Some (VString s) => s
  | Some val => print_json val
  | None => ""
  end.

Definition output_message (call_id : string) (item : Value) : Value :=
  let tool_msg := obj [("role", str "tool"); ("tool_call_id", str call_id);
                       ("content", str (output_text item))] in
  if bool_decide (get_bool "is_error" item = Some true)
     || bool_decide (get_str "status" item = Some "error")
  then set "is_error" (VBool true) tool_msg else tool_msg.

Definition output_item (st : Input) (item : Value) : result ResponsesError Input :=
  call_id ← ok_or (invalid_input "missing function_call_output call_id")
              (nonblank (get_either "call_id" "tool_call_id" item ≫= as_str));
  if negb (bool_decide (call_id ∈ defined_tool_calls st)) then
    Err (invalid_input ("unmatched function_call_output for call_id: '" +:+ call_id
                        +:+ "' (no preceding function_call)"))
  else if bool_decide (call_id ∈ answered_tool_calls st) then
    Err (invalid_input ("duplicate function_call_output for call_id: '" +:+ call_id +:+ "'"))
  else
    Ok {| messages := messages st ++ [output_message call_id item];
          defined_tool_calls := defined_tool_calls st;
          answered_tool_calls := {[call_id]} ∪ answered_tool_calls st |}.

Definition input_item (target_model : string) (st : Input) (item : Value)
  : result ResponsesError Input :=
  let item_type := get_str "type" item in
  if bool_decide (item_type = Some "compaction") then compaction_item target_model st item
  else if bool_decide (item_type = Some "function_call") then call_item st item
  else if bool_decide (item_type = Some "function_call_output") then output_item st item
  else m ← plain_message item; Ok (push_message st m).

(** ** The request *)

Definition refusals (o : Map) : result ResponsesError unit :=
  if match obj_get "previous_response_id" o with Some v => negb (is_null v) | None => false end then
    Err (Unsupported "previous_response_id is not supported for Devin models"
           (Some "previous_response_id"))
  else if bool_decide (obj_get "background" o ≫= as_bool = Some true) then
    Err (Unsupported "background=true is not supported" (Some "background"))
  else if bool_decide (obj_get "store" o ≫= as_bool = Some true) then
    Err (Unsupported "store=true is not supported" (Some "store"))
  else Ok tt.

Definition system_message (o : Map) : list Value :=
  match obj_get "instructions" o ≫= as_str with
  | Some instructions =>
      if is_empty instructions then []
      else [obj [("role", str "system"); ("content", str instructions)]]
  | None => []
  end.

Definition input_messages (o : Map) : result ResponsesError (list Value) :=
  let target_model := default "" (obj_get "model" o ≫= as_str) in
  let st := {| messages := system_message o; defined_tool_calls := ∅; answered_tool_calls := ∅ |} in
  match obj_get "input" o with
  | Some (VString text) =>
      Ok (messages (push_message st (obj [("role", str "user"); ("content", str text)])))
  | Some (VArray items) => messages <$> try_fold (input_item target_model) st items
  | None => Ok (messages st)
  | Some other =>
      Err (invalid_input ("invalid input type: expected string or array, got " +:+ debug_json other))
  end.

Definition responses_to_openai (req : Value) : result ResponsesError Value :=
  o ← ok_or (InvalidRequest "request body must be an object" None) (as_object req);
  _ ← refusals o;
  mapped_tools ← map_tools o;
  let mapped_tool_choice := map_tool_choice <$> obj_get "tool_choice" o in
  msgs ← input_messages o;
  let model := default "devin/glm-5-2" (obj_get "model" o ≫= as_str) in
  let chat := obj [("model", str model); ("messages", VArray msgs);
                   ("stream", VBool (default false (obj_get "stream" o ≫= as_bool)))] in
  let chat := match mapped_tools with [] => chat | _ => set "tools" (VArray mapped_tools) chat end in
  let chat := set_some "tool_choice" mapped_tool_choice chat in
  let chat := set_some "temperature" (obj_get "temperature" o) chat in
  let chat := set_some "top_p" (obj_get "top_p" o) chat in
  Ok (set_some "max_tokens" (or_else (obj_get "max_output_tokens" o) (obj_get "max_tokens" o)) chat).
End items.

End ResponsesRequest.
