(* ===== verification/ResponsesRequestProps.v ===== *)
(** * Accepted Responses requests

    The stateful walk over the input items is a per-item translation under one condition on
    the tool history ([items_exact]); from it, what an accepted request looks like, and that
    capsules open again. *)

From stdpp Require Import base strings list gmap.
From S2P Require Import Prelude RustStr Json ResponsesRequest.
Import RustStr Json JsonMake ResponsesRequest.
Open Scope Z_scope.

Ltac refused := split; [by intros|naive_solver].

Ltac decide_types :=
  repeat match goal with |- context [bool_decide (Some ?a = Some ?b)] =>
    first [rewrite (bool_decide_eq_false_2 (Some a = Some b)) by done
          |rewrite (bool_decide_eq_true_2 (Some a = Some b)) by done] end.

(** ** The tool history, item by item *)

Section exact.
Context (parse_json : string → result string Value) (print_json : Value → string).
Context (unseal : string → string → result string string) (target : string).
Abbreviation input_item := (input_item parse_json print_json unseal target).
Abbreviation E := ResponsesError.

(** The role an item plays in the tool history. *)
Inductive Kind := KCall (id : string) | KOutput (id : string) | KOther.

Definition kind_of (item : Value) : Kind :=
  let t := get_str "type" item in
  if bool_decide (t = Some "function_call") then
    KCall (default "" (nonblank (get_either "call_id" "id" item ≫= as_str)))
  else if bool_decide (t = Some "function_call_output") then
    KOutput (default "" (nonblank (get_either "call_id" "tool_call_id" item ≫= as_str)))
  else KOther.

(** One item on its own: no history is consulted. *)
Definition item_message (item : Value) : option Value :=
  let t := get_str "type" item in
  if bool_decide (t = Some "compaction") then
    capsule ← get_either "encrypted_content" "content" item ≫= as_str;
    match unseal capsule target with
    | Ok unsealed => Some (obj [("role", str "developer"); ("content", str unsealed)])
    | Err _ => None
    end
  else if bool_decide (t = Some "function_call") then
    call_id ← nonblank (get_either "call_id" "id" item ≫= as_str);
    name ← nonblank (get_str "name" item);
    match call_arguments parse_json print_json name item with
    | Ok arguments => Some (call_message call_id name arguments)
    | Err _ => None
    end
  else if bool_decide (t = Some "function_call_output") then
    call_id ← nonblank (get_either "call_id" "tool_call_id" item ≫= as_str);
    Some (output_message print_json call_id item)
  else match plain_message item with Ok m => Some m | Err _ => None end.

(** Calls have new ids; an output answers a call that came before it, once. *)
Fixpoint matched (defined answered : gset string) (items : list Value) : Prop :=
  match items with
  | [] => True
  | item :: items =>
      match kind_of item with
      | KCall i => (i ∉ defined) ∧ matched ({[i]} ∪ defined) answered items
      | KOutput i => i ∈ defined ∧ (i ∉ answered) ∧ matched defined ({[i]} ∪ answered) items
      | KOther => matched defined answered items
      end
  end.

Lemma item_step st item st' : input_item st item = Ok st' ↔
  ∃ m, item_message item = Some m ∧ messages st' = messages st ++ [m] ∧
    match kind_of item with
    | KCall i => (i ∉ defined_tool_calls st) ∧
        defined_tool_calls st' = {[i]} ∪ defined_tool_calls st ∧
        answered_tool_calls st' = answered_tool_calls st
    | KOutput i => i ∈ defined_tool_calls st ∧ (i ∉ answered_tool_calls st) ∧
        defined_tool_calls st' = defined_tool_calls st ∧
        answered_tool_calls st' = {[i]} ∪ answered_tool_calls st
    | KOther => defined_tool_calls st' = defined_tool_calls st ∧
        answered_tool_calls st' = answered_tool_calls st
    end.
Proof.
  unfold ResponsesRequest.input_item, item_message, kind_of. destruct st' as [ms d a]. cbn.
  destruct (decide (get_str "type" item = Some "compaction")) as [->|N1].
  { decide_types. unfold compaction_item. destruct (_ ≫= as_str) as [capsule|]; cbn; [|refused].
    destruct (unseal capsule target) as [u|]; cbn; [|refused].
    split; [intros [= <- <- <-]; eauto|]. intros (m & Hm & -> & -> & ->). apply (inj Some) in Hm as <-. done. }
  rewrite bool_decide_eq_false_2 by done.
  destruct (decide (get_str "type" item = Some "function_call")) as [->|N2].
  { decide_types. unfold call_item.
    destruct (nonblank (get_either _ _ _ ≫= _)) as [call_id|]; cbn; [|refused].
    destruct (nonblank (get_str "name" item)) as [nm|]; cbn;
      [|case_bool_decide; refused].
    destruct (call_arguments parse_json print_json nm item) as [arguments|]; cbn;
      [|case_bool_decide; refused].
    case_bool_decide as Hd; [refused|].
    split; [intros [= <- <- <-]; eauto 10|]. intros (m & Hm & -> & _ & -> & ->). apply (inj Some) in Hm as <-. done. }
  rewrite !(bool_decide_eq_false_2 (get_str "type" item = Some "function_call")) by done.
  destruct (decide (get_str "type" item = Some "function_call_output")) as [->|N3].
  { decide_types. unfold output_item.
    destruct (nonblank (get_either _ _ _ ≫= _)) as [call_id|]; cbn; [|refused].
    case_bool_decide as Hd; cbn; [|refused].
    case_bool_decide as Ha; [refused|].
    split; [intros [= <- <- <-]; eauto 10|]. intros (m & Hm & -> & _ & _ & -> & ->). apply (inj Some) in Hm as <-. done. }
  rewrite !(bool_decide_eq_false_2 (get_str "type" item = Some "function_call_output")) by done.
  destruct (plain_message item) as [m|]; cbn; [|refused].
  split; [intros [= <- <- <-]; eauto|]. intros (m' & Hm & -> & -> & ->). apply (inj Some) in Hm as <-. done.
Qed.

Lemma fold_extends items : ∀ st st', try_fold input_item st items = Ok st' →
  ∃ ms, messages st' = messages st ++ ms.
Proof.
  induction items as [|i items IH]; intros st st'; cbn.
  - intros [= <-]. exists []. by rewrite app_nil_r.
  - intros (s2 & H1 & H2)%rbind_Ok. apply item_step in H1 as (m & _ & E1 & _).
    destruct (IH _ _ H2) as [ms ->]. rewrite E1. exists (m :: ms). by rewrite <- app_assoc.
Qed.

Lemma items_exact items : ∀ st ms,
  (∃ st', try_fold input_item st items = Ok st' ∧ messages st' = messages st ++ ms) ↔
  matched (defined_tool_calls st) (answered_tool_calls st) items ∧
  Forall2 (λ i m, item_message i = Some m) items ms.
Proof.
  induction items as [|item items IH]; intros st ms; cbn [try_fold matched].
  - split.
    + intros (st' & [= <-] & E). rewrite <- (app_nil_r (messages st)) in E at 1.
      apply app_inv_head in E as <-. done.
    + intros [_ H]. inversion H. exists st. by rewrite app_nil_r.
  - split.
    + intros (st' & H & E). apply rbind_Ok in H as (st1 & H1 & H2).
      apply item_step in H1 as (m & Hm & E1 & Hk).
      assert (∃ ms', ms = m :: ms' ∧ messages st' = messages st1 ++ ms') as (ms' & -> & E2).
      { destruct (fold_extends _ _ _ H2) as [ms' E2].
        exists ms'. split; [|done]. rewrite E2, E1, <- app_assoc in E. by apply app_inv_head in E. }
      destruct (IH st1 ms') as [IH1 _]. destruct (IH1 (ex_intro _ st' (conj H2 E2))) as [Hmt Hf].
      split; [|by constructor]. destruct (kind_of item); naive_solver congruence.
    + intros [Hmt Hf]. inversion Hf as [|? m ? ms' Hm Hf']. subst.
      set (st1 := {| messages := messages st ++ [m];
        defined_tool_calls := match kind_of item with KCall i => {[i]} ∪ defined_tool_calls st | _ => defined_tool_calls st end;
        answered_tool_calls := match kind_of item with KOutput i => {[i]} ∪ answered_tool_calls st | _ => answered_tool_calls st end |}).
      assert (H1 : input_item st item = Ok st1).
      { apply item_step. exists m. split_and!; [done..|]. unfold st1. cbn. destruct (kind_of item); naive_solver. }
      destruct (IH st1 ms') as [_ IH2]. destruct IH2 as (st' & H2 & E2).
      { split; [|done]. unfold st1. cbn. destruct (kind_of item); naive_solver. }
      exists st'. rewrite H1. cbn. split; [done|]. rewrite E2. unfold st1. cbn. by rewrite <- app_assoc.
Qed.
End exact.

(** ** What an accepted request looks like *)

(** The calls a chat message makes, and the call it answers. *)
Definition call_ids (m : Value) : list string := omap (get_str "id") (default [] (get_array "tool_calls" m)).
Definition answer_id (m : Value) : option string := get_str "tool_call_id" m.

(** Images come with their bytes. *)
Definition inline_image (part : Value) : Prop :=
  get_str "type" part = Some "image_url" →
  ∃ url, (get "image_url" part ≫= get_str "url") = Some url ∧ is_Some (split_data_url url).
Definition inline_images (m : Value) : Prop := Forall inline_image (default [] (get_array "content" m)).

Lemma image_part_inline part i : image_part part = Ok i → inline_image i.
Proof.
  unfold image_part. intros (url & _ & H)%rbind_Ok. case_match; [done|].
  destruct (split_data_url url) eqn:E; [|done]. apply (inj Ok) in H as <-. intros _.
  exists url. split; [reflexivity|]. by rewrite E.
Qed.

Lemma parts_inline item p : parts_of item = Ok p → Forall inline_image (image_parts p).
Proof.
  unfold parts_of. destruct (get "content" item) as [[| | |s|parts|]|]; intros H;
    try (apply (inj Ok) in H as <-; constructor).
  revert H. apply (try_fold_ind (λ p, Forall inline_image (image_parts p))); [|constructor].
  intros q part q' _ Hq. unfold add_part.
  assert (Ht : ∀ t, Forall inline_image (image_parts (add_text q t))) by by intros [].
  destruct (get_str "type" part); [|by intros [= <-]].
  case_match; [by intros [= <-]|]. case_match; [|repeat case_match; by intros [= <-]].
  intros (i & Hi & Heq)%rbind_Ok. apply (inj Ok) in Heq as <-. cbn. apply Forall_app. split; [done|].
  constructor; [by eapply image_part_inline|constructor].
Qed.

Lemma inline_text t : inline_image (obj [("type", str "text"); ("text", str t)]).
Proof. intros H. discriminate H. Qed.

Lemma plain_fields item m : plain_message item = Ok m →
  call_ids m = [] ∧ answer_id m = None ∧ inline_images m.
Proof.
  unfold plain_message. intros (p & Hp & H)%rbind_Ok. apply parts_inline in Hp.
  set (msg := obj _) in H.
  assert (Hm : (∀ k, k ∉ ["reasoning_content"; "reasoning_signature"; "reasoning_redacted"] → get k m = get k msg)).
  { intros k Hk. rewrite !elem_of_cons in Hk. apply (inj Ok) in H as <-. repeat case_match;
      rewrite ?get_set_ne, ?get_set_some_ne by naive_solver; done. }
  unfold call_ids, answer_id, inline_images, get_array, get_str.
  rewrite !Hm by (rewrite !elem_of_cons, elem_of_nil; naive_solver).
  split_and!; [reflexivity..|]. change (get "content" msg) with (Some (message_content p)). cbn.
  unfold message_content. destruct (image_parts p) as [|i l] eqn:Ei; [constructor|].
  cbn. apply Forall_app. split; [|done].
  destruct (is_empty (text_parts p)); constructor; [apply inline_text|constructor].
Qed.

Lemma plain_role item m : plain_message item = Ok m →
  get_str "role" m = Some (default "user" (get_str "role" item)).
Proof.
  unfold plain_message. intros (p & _ & H)%rbind_Ok. apply (inj Ok) in H as <-. unfold get_str.
  destruct (bool_decide _); [|reflexivity].
  destruct (reasoning_redacted p); rewrite ?get_set_ne, ?get_set_some_ne by done; reflexivity.
Qed.

(** A message item that claims the role of a tool. *)
Definition tool_claim (item : Value) : Prop :=
  kind_of item = KOther ∧ get_str "role" item = Some "tool".

Section sound.
Context (parse_json : string → result string Value) (print_json : Value → string).
Context (unseal : string → string → result string string).
Abbreviation item_message := (item_message parse_json print_json unseal).

Lemma message_fields target item m : item_message target item = Some m → inline_images m ∧
  match kind_of item with
  | KCall i => call_ids m = [i] ∧ answer_id m = None
  | KOutput i => call_ids m = [] ∧ answer_id m = Some i
  | KOther => call_ids m = [] ∧ answer_id m = None
  end.
Proof.
  unfold ResponsesRequestProps.item_message, kind_of.
  destruct (decide (get_str "type" item = Some "compaction")) as [->|N1].
  { decide_types. destruct (_ ≫= as_str) as [c|]; cbn; [|done].
    destruct (unseal c target); [|done]. intros Hm. apply (inj Some) in Hm as <-.
    repeat split; try reflexivity. constructor. }
  rewrite (bool_decide_eq_false_2 (get_str "type" item = Some "compaction")) by done.
  destruct (decide (get_str "type" item = Some "function_call")) as [->|N2].
  { decide_types. destruct (nonblank (get_either _ _ _ ≫= _)) as [c|]; cbn; [|done].
    destruct (nonblank _) as [nm|]; cbn; [|done]. destruct (call_arguments _ _ _ _); [|done].
    intros Hm. apply (inj Some) in Hm as <-. repeat split; try reflexivity. constructor. }
  rewrite (bool_decide_eq_false_2 (get_str "type" item = Some "function_call")) by done.
  destruct (decide (get_str "type" item = Some "function_call_output")) as [->|N3].
  { decide_types. destruct (nonblank _) as [c|]; cbn; [|done].
    intros Hm. apply (inj Some) in Hm as <-. unfold output_message, inline_images, call_ids, answer_id, get_array, get_str.
    case_match; rewrite ?get_set_ne by done; repeat split; try reflexivity; constructor. }
  rewrite (bool_decide_eq_false_2 (get_str "type" item = Some "function_call_output")) by done.
  destruct (plain_message item) as [m'|] eqn:E; [|done]. intros [= <-].
  apply plain_fields in E. naive_solver.
Qed.

(** Where a tool message without a call id comes from. *)
Lemma message_claim target item m : item_message target item = Some m →
  get_str "role" m = Some "tool" → answer_id m = None → tool_claim item.
Proof.
  intros Hm Hr Ha. pose proof (message_fields _ _ _ Hm) as [_ Hk]. revert Hm. unfold tool_claim.
  unfold ResponsesRequestProps.item_message, kind_of in *.
  destruct (decide (get_str "type" item = Some "compaction")) as [->|N1].
  { clear Hk. intros Hm. exfalso. revert Hm. decide_types. destruct (_ ≫= as_str); cbn; [|done]. destruct (unseal _ _); [|done].
    intros H'. apply (inj Some) in H' as <-. discriminate Hr. }
  rewrite (bool_decide_eq_false_2 (get_str "type" item = Some "compaction")) by done.
  destruct (decide (get_str "type" item = Some "function_call")) as [->|N2].
  { clear Hk. intros Hm. exfalso. revert Hm. decide_types. destruct (nonblank (get_either _ _ _ ≫= _)); cbn; [|done].
    destruct (nonblank _); cbn; [|done]. destruct (call_arguments _ _ _ _); [|done].
    intros H'. apply (inj Some) in H' as <-. discriminate Hr. }
  rewrite !(bool_decide_eq_false_2 (get_str "type" item = Some "function_call")) in * by done.
  destruct (decide (get_str "type" item = Some "function_call_output")) as [E|N3].
  { rewrite (bool_decide_eq_true_2 _ E) in Hk. destruct Hk; congruence. }
  rewrite !(bool_decide_eq_false_2 (get_str "type" item = Some "function_call_output")) by done.
  destruct (plain_message item) as [m'|] eqn:E; [|done]. intros [= <-].
  apply plain_role in E. rewrite E in Hr. injection Hr as Hr. split; [done|].
  destruct (get_str "role" item); [by cbn in Hr; subst|discriminate Hr].
Qed.

(** Calls are new, answers are new and come after their call. *)
Definition history_sound (d a : gset string) (ms : list Value) : Prop :=
  NoDup (ms ≫= call_ids) ∧ (∀ i, i ∈ (ms ≫= call_ids) → (i ∉ d)) ∧
  NoDup (omap answer_id ms) ∧ (∀ i, i ∈ omap answer_id ms → (i ∉ a)) ∧
  (∀ pre m post i, ms = pre ++ m :: post → answer_id m = Some i → i ∈ d ∨ i ∈ (pre ≫= call_ids)).

Lemma matched_sound target items : ∀ d a ms, matched d a items →
  Forall2 (λ i m, item_message target i = Some m) items ms → history_sound d a ms.
Proof.
  induction items as [|item items IH]; intros d a ms Hm Hf; inversion Hf as [|? m ? ms' Hi Hf']; subst.
  { split_and!; try (intros; exact (NoDup_nil_2)); try (intros ? []%elem_of_nil). intros [] ? ? ?; done. }
  destruct (message_fields _ _ _ Hi) as [_ Hk]. cbn [matched] in Hm. unfold history_sound.
  rewrite bind_cons. cbn [omap list_omap].
  assert (Hpre : ∀ d' : gset string,
    (∀ j, answer_id m = Some j → j ∈ d) → (∀ j, j ∈ d' → j ∈ d ∨ j ∈ call_ids m) →
    (∀ pre m' post j, ms' = pre ++ m' :: post → answer_id m' = Some j → j ∈ d' ∨ j ∈ (pre ≫= call_ids)) →
    ∀ pre m' post j, m :: ms' = pre ++ m' :: post → answer_id m' = Some j → j ∈ d ∨ j ∈ (pre ≫= call_ids)).
  { intros d' Ha Hd Hs [|x pre] m' post j [= <- ->] Hj; [left; auto|]. rewrite bind_cons, elem_of_app.
    destruct (Hs pre m' post j eq_refl Hj) as [Hin|]; [|auto]. apply Hd in Hin. tauto. }
  destruct (kind_of item) as [i|i|]; destruct Hk as [Hc Ha]; rewrite Hc, Ha in *; cbn [app].
  - destruct Hm as [Hn Hm]. destruct (IH _ _ _ Hm Hf') as (H1 & H2 & H3 & H4 & H5). split_and!; try done.
    + constructor; [|done]. intros Hin. apply H2 in Hin. set_solver.
    + intros j [->|Hj]%elem_of_cons; [done|]. apply H2 in Hj. set_solver.
    + apply (Hpre ({[i]} ∪ d)); [done|set_solver|done].
  - destruct Hm as (Hd & Hn & Hm). destruct (IH _ _ _ Hm Hf') as (H1 & H2 & H3 & H4 & H5). split_and!; try done.
    + constructor; [|done]. intros Hin. apply H4 in Hin. set_solver.
    + intros j [->|Hj]%elem_of_cons; [done|]. apply H4 in Hj. set_solver.
    + apply (Hpre d); [by intros j [= <-]|auto|done].
  - destruct (IH _ _ _ Hm Hf') as (H1 & H2 & H3 & H4 & H5). split_and!; try done.
    apply (Hpre d); [done|auto|done].
Qed.

Context (debug_json : Value → string).
Abbreviation responses_to_openai := (responses_to_openai parse_json print_json debug_json unseal).
Abbreviation input_messages := (input_messages parse_json print_json debug_json unseal).

Lemma chat_messages o chat : responses_to_openai (VObject o) = Ok chat →
  ∃ ms, input_messages o = Ok ms ∧ get_array "messages" chat = Some ms ∧ refusals o = Ok tt ∧
        ∃ ts, map_tools o = Ok ts.
Proof.
  unfold ResponsesRequest.responses_to_openai. cbn [as_object ok_or].
  intros (o' & Ho & H)%rbind_Ok. apply (inj Ok) in Ho as <-.
  apply rbind_Ok in H as ([] & Hr & H). apply rbind_Ok in H as (ts & Ht & H). cbv zeta in H.
  apply rbind_Ok in H as (ms & Hms & H). apply (inj Ok) in H as <-. exists ms.
  split_and!; [done| |done|by exists ts]. unfold get_array.
  rewrite !get_set_some_ne by done. destruct ts; rewrite ?get_set_ne by done; reflexivity.
Qed.

Lemma messages_of_items o items ms : obj_get "input" o = Some (VArray items) →
  let target := default "" (obj_get "model" o ≫= as_str) in
  input_messages o = Ok (system_message o ++ ms) ↔
  matched ∅ ∅ items ∧ Forall2 (λ i m, item_message target i = Some m) items ms.
Proof.
  intros Hi target. unfold ResponsesRequest.input_messages. rewrite Hi. fold target.
  pose proof (items_exact parse_json print_json unseal target items
    {| messages := system_message o; defined_tool_calls := ∅; answered_tool_calls := ∅ |} ms) as Hx.
  cbn [messages defined_tool_calls answered_tool_calls] in Hx. rewrite <- Hx. split.
  - intros H. apply rfmap_Ok in H as (st & H1 & H2). by exists st.
  - intros (st & -> & H2). cbn. by rewrite H2.
Qed.

Lemma system_fields o : Forall (λ m, call_ids m = [] ∧ answer_id m = None ∧ inline_images m) (system_message o).
Proof.
  unfold system_message. destruct (_ ≫= as_str) as [s|]; [|constructor].
  destruct (is_empty s); constructor; [|constructor]. repeat split; try reflexivity. constructor.
Qed.

(** Messages in front that take no part in the history. *)
Lemma history_after sys ms : Forall (λ m, call_ids m = [] ∧ answer_id m = None ∧ inline_images m) sys →
  history_sound ∅ ∅ ms → history_sound ∅ ∅ (sys ++ ms).
Proof.
  intros Hs. revert ms. induction Hs as [|m sys (Hc & Ha & _) _ IH]; intros ms H; [done|].
  destruct (IH ms H) as (H1 & H2 & H3 & H4 & H5). unfold history_sound. cbn [app]. rewrite bind_cons, Hc.
  cbn [omap list_omap app]. rewrite Ha. split_and!; try done.
  intros [|x pre] m' post i [= <- E] Hi; [congruence|]. rewrite bind_cons, Hc. by apply (H5 pre m' post).
Qed.

Lemma accepted_history o ms : input_messages o = Ok ms → history_sound ∅ ∅ ms ∧ Forall inline_images ms.
Proof.
  intros Hms.
  pose proof (system_fields o) as Hsys.
  assert (Hno : ∀ ms', Forall (λ m, call_ids m = [] ∧ answer_id m = None ∧ inline_images m) ms' →
    history_sound ∅ ∅ ms' ∧ Forall inline_images ms').
  { intros ms' H'. split; [|eapply Forall_impl; [exact H'|]; naive_solver].
    rewrite <- (app_nil_r ms'). apply history_after; [done|]. split_and!; try (by constructor); try set_solver.
    intros [] ? ? ? [=]. }
  destruct (obj_get "input" o) as [[| | |s|items|]|] eqn:Ei;
    unfold ResponsesRequest.input_messages in Hms; rewrite Ei in Hms; try done.
  - apply (inj Ok) in Hms as <-. apply Hno. cbn. apply Forall_app. split; [done|].
    constructor; [|constructor]. repeat split; try reflexivity. constructor.
  - pose proof Hms as Hf. apply rfmap_Ok in Hf as (st & Hf & Est). apply fold_extends in Hf as [ms' E].
    cbn in E. rewrite E in Est. subst ms.
    assert (Hm : input_messages o = Ok (system_message o ++ ms')).
    { unfold ResponsesRequest.input_messages. by rewrite Ei. }
    apply (messages_of_items o items ms' Ei) in Hm as [Hmt Hf2].
    split; [apply history_after; [done|]; by eapply matched_sound|].
    apply Forall_app. split; [eapply Forall_impl; [exact Hsys|]; naive_solver|].
    clear -Hf2. induction Hf2 as [|i m l ms Hi _ IH]; constructor; [|done]. by eapply message_fields.
  - apply (inj Ok) in Hms as <-. by apply Hno.
Qed.

(** Every tool message carries the id of its call, but for message items that claim the
    role themselves. *)
Definition tools_named (o : Map) (ms : list Value) : Prop :=
  ∀ m, m ∈ ms → get_str "role" m = Some "tool" → is_Some (answer_id m) ∨
    ∃ items item, obj_get "input" o = Some (VArray items) ∧ item ∈ items ∧ tool_claim item.

Lemma system_role o m : m ∈ system_message o → get_str "role" m = Some "system".
Proof.
  unfold system_message. destruct (_ ≫= as_str) as [s|]; [|by intros ?%elem_of_nil].
  destruct (is_empty s); [by intros ?%elem_of_nil|]. by intros ->%list_elem_of_singleton.
Qed.

Lemma accepted_named o ms : input_messages o = Ok ms → tools_named o ms.
Proof.
  intros Hms m Hin Hr. assert (Hsys : (m ∉ system_message o)).
  { intros Hm%system_role. congruence. }
  unfold ResponsesRequest.input_messages in Hms. unfold tools_named.
  destruct (obj_get "input" o) as [[| | |s|items|]|] eqn:Ei; try done.
  - apply (inj Ok) in Hms as <-. cbn in Hin. apply elem_of_app in Hin as [Hin|Hin]; [done|].
    apply list_elem_of_singleton in Hin as ->. discriminate Hr.
  - pose proof Hms as Hf. apply rfmap_Ok in Hf as (st & Hf & Est). apply fold_extends in Hf as [ms' E].
    cbn in E. rewrite E in Est. subst ms. apply elem_of_app in Hin as [Hin|Hin]; [done|].
    assert (Hm : input_messages o = Ok (system_message o ++ ms')).
    { unfold ResponsesRequest.input_messages. by rewrite Ei. }
    apply (messages_of_items o items ms' Ei) in Hm as [_ Hf2].
    apply list_elem_of_lookup in Hin as (k & Hk).
    destruct (Forall2_lookup_r _ _ _ _ _ Hf2 Hk) as (item & Hitem & Hmsg).
    destruct (answer_id m) as [i|] eqn:Ha; [left; by eexists|]. right. exists items, item.
    split_and!; [done|by apply list_elem_of_lookup; exists k|by eapply message_claim].
  - apply (inj Ok) in Hms as <-. done.
Qed.

(** C40: What an accepted Responses request turns into.  Every accepted request becomes a chat
    request in which no call id is used twice, no call is answered twice, and every result
    that names a call comes after that call; every image comes with its bytes, never as a
    remote address.  These are the results the code checks: each tool message names its
    call, unless it stems from an input item that is itself a message with role [tool],
    and such items are passed on unchecked ([tool_role_unchecked]).  For a request with
    input items the converse holds too: once the request's options and tools pass, it is
    accepted exactly when the calls and outputs among its items match and each item
    translates on its own, and the messages are those translations, in order, behind the
    instructions. *)
Theorem responses_request_sound (o : Map) :
  (∀ chat, responses_to_openai (VObject o) = Ok chat →
     ∃ ms, get_array "messages" chat = Some ms ∧ history_sound ∅ ∅ ms ∧ tools_named o ms ∧
           Forall inline_images ms) ∧
  (∀ items ms, obj_get "input" o = Some (VArray items) →
     let target := default "" (obj_get "model" o ≫= as_str) in
     (∃ chat, responses_to_openai (VObject o) = Ok chat ∧
              get_array "messages" chat = Some (system_message o ++ ms)) ↔
     refusals o = Ok tt ∧ (∃ tools, map_tools o = Ok tools) ∧ matched ∅ ∅ items ∧
     Forall2 (λ i m, item_message target i = Some m) items ms).
Proof.
  split.
  - intros chat H. apply chat_messages in H as (ms & Hms & Hg & _). exists ms.
    destruct (accepted_history o ms Hms). split_and!; [done..|by apply accepted_named|done].
  - intros items ms Hi. cbv zeta. pose proof (messages_of_items o items ms Hi) as Hx. cbv zeta in Hx.
    rewrite <- Hx. split.
    + intros (chat & H & Hg). apply chat_messages in H as (ms' & Hms & Hg' & Hr & Ht). naive_solver.
    + intros (Hr & (ts & Ht) & Hms). unfold ResponsesRequest.responses_to_openai. cbn [as_object ok_or].
      eexists. split.
      * cbn [mbind result_bind]. rewrite Hr. cbn [mbind result_bind]. rewrite Ht. cbn [mbind result_bind]. rewrite Hms. reflexivity.
      * unfold get_array. rewrite !get_set_some_ne by done. destruct ts; rewrite ?get_set_ne by done; reflexivity.
Qed.
End sound.

(** ** Capsules open again *)

Section capsules.
Context (encode_base64 : string → string) (decode_base64 : string → result string string)
        (sha256 : string → string) (seal open : string → string → string → result string string)
        (write_payload : CompactionPayload → string)
        (read_payload : string → result string CompactionPayload).

Lemma substring_all s : String.substring 0 (String.length s) s = s.
Proof. induction s as [|a s IH]; [done|]. cbn. by rewrite IH. Qed.

Lemma substring_prefix s t : String.substring 0 (String.length s) (s +:+ t) = s.
Proof.
  induction s as [|a s IH]; [by destruct t|]. change (String a s +:+ t) with (String a (s +:+ t)).
  cbn. by rewrite IH.
Qed.

Lemma substring_suffix s t : String.substring (String.length s) (String.length t) (s +:+ t) = t.
Proof.
  induction s as [|a s IH]; [apply substring_all|]. change (String a s +:+ t) with (String a (s +:+ t)).
  cbn. exact IH.
Qed.

(** A capsule opens to the summary that was sealed, for the model it was sealed for (or when
    no model is asked for), and for no other model.  Of the libraries: base64 and the
    record's codec read back what they write, and a sealed text is 16 bytes longer, opens
    under its key and nonce, and has a nonce of 12 bytes. *)
Lemma capsule_roundtrip nonce now text model expected capsule
  (Hb64 : ∀ s, decode_base64 (encode_base64 s) = Ok s)
  (Hcodec : ∀ p, read_payload (write_payload p) = Ok p)
  (Hopen : ∀ k n m c, seal k n m = Ok c → open k n c = Ok m ∧ strlen c = strlen m + 16)
  (Hnonce : String.length nonce = 12%nat) :
  seal_compaction_capsule encode_base64 sha256 seal write_payload (Ok nonce) now text model = Ok capsule →
  unseal_compaction_capsule_for_model decode_base64 sha256 open read_payload capsule expected =
    if is_empty expected || bool_decide (model = expected) then Ok text
    else Err ("model mismatch: capsule sealed for '" +:+ model +:+ "' but requested for '"
              +:+ expected +:+ "'").
Proof.
  unfold seal_compaction_capsule, unseal_compaction_capsule_for_model, unseal_payload. cbn [mbind result_bind].
  destruct (seal _ _ _) as [c|] eqn:Es; [|done]. cbn [mbind result_bind]. intros Hcap.
  apply (inj Ok) in Hcap as <-. apply Hopen in Es as [Hc Hlen].
  assert (strip_prefix COMPACTION_CAPSULE_PREFIX (COMPACTION_CAPSULE_PREFIX +:+ encode_base64 (nonce +:+ c))
          = Some (encode_base64 (nonce +:+ c))) as -> by reflexivity.
  rewrite Hb64. cbn [mbind result_bind].
  assert (Hn : strlen nonce = 12) by (unfold strlen; by rewrite Hnonce).
  rewrite (proj2 (Z.ltb_ge _ _)) by (rewrite strlen_app, Hn, Hlen; pose proof (strlen_nonneg (write_payload {| summary := text; cp_model := model; created_at := now |})); lia).
  assert (Hl : String.length (nonce +:+ c) = (12 + String.length c)%nat).
  { apply (f_equal Z.to_nat) in Hn. pose proof (strlen_app nonce c) as E. unfold strlen in E. lia. }
  rewrite Hl, <- Hnonce, substring_prefix. replace (_ + _ - _)%nat with (String.length c) by lia.
  rewrite substring_suffix, Hc. cbn. rewrite Hcodec. cbn.
  destruct (is_empty expected); cbn; [done|]. by case_bool_decide.
Qed.
End capsules.

(** ** Requests *)

Module ResponsesRequestDemo.
Definition parse (s : string) : result string Value := Ok (obj []).
Definition unsealed (capsule model : string) : result string string := Err "no capsule".
Definition run (items : list Value) : result ResponsesError Value :=
  responses_to_openai parse (λ _, "{}") (λ _, "") unsealed
    (obj [("model", str "m"); ("instructions", str "be brief"); ("input", VArray items)]).

Definition call (i : string) : Value :=
  obj [("type", str "function_call"); ("call_id", str i); ("name", str "f"); ("arguments", str "{}")].
Definition answer (i : string) : Value :=
  obj [("type", str "function_call_output"); ("call_id", str i); ("output", str "3")].

Definition roles (r : result ResponsesError Value) : list (option string) :=
  match r with Ok chat => get_str "role" <$> default [] (get_array "messages" chat) | Err _ => [] end.

Example matched_history : roles (run [call "a"; call "b"; answer "b"; answer "a"])
  = [Some "system"; Some "assistant"; Some "assistant"; Some "tool"; Some "tool"].
Proof. vm_compute. reflexivity. Qed.

Example answer_first : run [answer "a"; call "a"]
  = Err (invalid_input "unmatched function_call_output for call_id: 'a' (no preceding function_call)").
Proof. vm_compute. reflexivity. Qed.

(** An item of an earlier response that carries reasoning becomes an empty user message. *)
Example reasoning_item_is_a_user_turn :
  run [obj [("id", str "rs_0"); ("type", str "reasoning");
            ("summary", VArray [obj [("type", str "summary_text"); ("text", str "hm")]])]]
  = Ok (obj [("model", str "m"); ("stream", VBool false);
             ("messages", VArray [obj [("role", str "system"); ("content", str "be brief")];
                                  obj [("role", str "user"); ("content", str "")]])]).
Proof. vm_compute. reflexivity. Qed.

(** A message that claims the role of a tool is not held to the history. *)
Example tool_role_unchecked :
  roles (run [obj [("type", str "message"); ("role", str "tool"); ("content", str "42")]])
  = [Some "system"; Some "tool"].
Proof. vm_compute. reflexivity. Qed.
End ResponsesRequestDemo.
