(* ===== verification/ClaudeStream.v ===== *)
(** * Anthropic streams (crates/gateway/src/compat/claude.rs, lines 1-256 and 1005-1570)

    [AnthropicDecoder] turns the events of an upstream Messages stream into the shared events,
    [AnthropicStreamRenderer] turns the shared events into a Messages stream for a client.
    Operations return the events or frames they push, and the next state.

    [parse_json] is [serde_json]'s parser, [print_json] its printer.  [server_blocks] is a
    hash map in the source, whose iteration order is not specified; it is searched for the
    block with a given id, and here for the oldest such block. *)

From Stdlib Require Import Ascii.
From stdpp Require Import base strings list gmap.
From S2P Require Import Prelude RustStr Json Sse SseProps Wire.
Import RustStr Sse Wire Json JsonMake.
Open Scope Z_scope.

Module ClaudeStream.

Definition strip_custom_prefix (name : string) : string := default name (strip_prefix "custom_" name).

(** ** Web searches the upstream ran *)

Definition nl (s : string) : string := s +:+ String LF "".

Definition search_result (result : Value) : string :=
  match as_str (idx "url" result) with
  | None => ""
  | Some url =>
      let title := default url (as_str (idx "title" result)) in
      nl ("- [" +:+ title +:+ "](" +:+ url +:+ ")")
  end.

Definition web_search_result_text (block : Value) (query : option string) : option string :=
  let text := String LF (nl match query with
                            | Some query => "[web_search: " +:+ query +:+ "]"
                            | None => "[web_search]"
                            end) in
  match idx "content" block with
  | VArray results => Some (nl (text +:+ String.concat "" (search_result <$> results)))
  | error =>
      code ← as_str (idx "error_code" error);
      Some (nl (text +:+ nl ("- error: " +:+ code)))
  end.

(** ** The decoder *)

Record StreamDiagnostics := {
  message_id : option string;
  stop_reason : option string;
  output_tokens_reported : bool;
  text_deltas : Z;
  thinking_deltas : Z;
  tool_calls : Z;
}.

Definition no_diagnostics : StreamDiagnostics :=
  {| message_id := None; stop_reason := None; output_tokens_reported := false; text_deltas := 0;
     thinking_deltas := 0; tool_calls := 0 |}.

Definition has_visible_output (d : StreamDiagnostics) : bool := (0 <? text_deltas d) || (0 <? tool_calls d).

(** [text_deltas += a], and so on. *)
Definition count (d : StreamDiagnostics) (text thinking calls : Z) : StreamDiagnostics :=
  {| message_id := message_id d; stop_reason := stop_reason d;
     output_tokens_reported := output_tokens_reported d; text_deltas := text_deltas d + text;
     thinking_deltas := thinking_deltas d + thinking; tool_calls := tool_calls d + calls |}.

(** The token counters of a message. *)
Record Counts := {
  input_tokens : Z;
  output_tokens : Z;
  cache_read_tokens : Z;
  cache_write_tokens : Z;
  cache_read_tokens_known : bool;
  cache_write_tokens_known : bool;
}.

Record AnthropicDecoder := {
  started : bool;
  terminated : bool;
  counts : Counts;
  next_tool_index : Z;
  tool_blocks : gmap Z Z;
  server_blocks : list (Z * (string * string));
  diagnostics : StreamDiagnostics;
}.

Definition no_counts : Counts :=
  {| input_tokens := 0; output_tokens := 0; cache_read_tokens := 0; cache_write_tokens := 0;
     cache_read_tokens_known := false; cache_write_tokens_known := false |}.

Definition new_decoder : AnthropicDecoder :=
  {| started := false; terminated := false; counts := no_counts; next_tool_index := 0;
     tool_blocks := ∅; server_blocks := []; diagnostics := no_diagnostics |}.

Definition with_counts (d : AnthropicDecoder) (c : Counts) (g : StreamDiagnostics) : AnthropicDecoder :=
  {| started := started d; terminated := terminated d; counts := c; next_tool_index := next_tool_index d;
     tool_blocks := tool_blocks d; server_blocks := server_blocks d; diagnostics := g |}.
Definition with_ended (d : AnthropicDecoder) (s : bool) : AnthropicDecoder :=
  {| started := s; terminated := true; counts := counts d; next_tool_index := next_tool_index d;
     tool_blocks := tool_blocks d; server_blocks := server_blocks d; diagnostics := diagnostics d |}.
Definition with_blocks (d : AnthropicDecoder) (n : Z) (t : gmap Z Z)
    (s : list (Z * (string * string))) (g : StreamDiagnostics) : AnthropicDecoder :=
  {| started := started d; terminated := terminated d; counts := counts d; next_tool_index := n;
     tool_blocks := t; server_blocks := s; diagnostics := g |}.

(** [HashMap::insert] and an update in place, on entries in the order of their insertion. *)
Definition block_insert (i : Z) (b : string * string) (l : list (Z * (string * string))) :=
  filter (λ kb, kb.1 ≠ i) l ++ [(i, b)].
Definition block_get (i : Z) (l : list (Z * (string * string))) : option (string * string) :=
  snd <$> List.find (λ kb, kb.1 =? i) l.
Definition block_append (i : Z) (delta : string) (l : list (Z * (string * string))) :=
  (λ kb, if kb.1 =? i then (kb.1, (kb.2.1, kb.2.2 +:+ delta)) else kb) <$> l.

Definition u64_at (k : string) (v : Value) : option Z := as_u64 (idx k v).

Section decoder.
Context (parse_json : string → option Value).

Definition decode_message_start (value : Value) : list CodexEvent * AnthropicDecoder :=
  let usage := idx "usage" (idx "message" value) in
  let id := as_str (idx "id" (idx "message" value)) in
  ([Created (default "msg_anthropic" id)],
   {| started := true; terminated := false;
      counts := {| input_tokens := default 0 (u64_at "input_tokens" usage);
                   output_tokens := 0;
                   cache_read_tokens := default 0 (u64_at "cache_read_input_tokens" usage);
                   cache_write_tokens := default 0 (u64_at "cache_creation_input_tokens" usage);
                   cache_read_tokens_known := is_some (u64_at "cache_read_input_tokens" usage);
                   cache_write_tokens_known := is_some (u64_at "cache_creation_input_tokens" usage) |};
      next_tool_index := 0; tool_blocks := ∅; server_blocks := [];
      diagnostics := {| message_id := id; stop_reason := None; output_tokens_reported := false;
                        text_deltas := 0; thinking_deltas := 0; tool_calls := 0 |} |}).

Definition query_of (d : AnthropicDecoder) (block : Value) : option string :=
  kb ← List.find (λ kb, bool_decide (as_str (idx "tool_use_id" block) = Some kb.2.1)) (server_blocks d);
  input ← parse_json kb.2.2;
  as_str (idx "query" input).

Definition decode_block_start (d : AnthropicDecoder) (value : Value) : list CodexEvent * AnthropicDecoder :=
  let block := idx "content_block" value in
  let index := u64_at "index" value in
  if is_str "server_tool_use" (idx "type" block) then
    match index with
    | Some i =>
        let id := default "" (as_str (idx "id" block)) in
        ([], with_blocks d (next_tool_index d) (tool_blocks d)
               (block_insert i (id, "") (server_blocks d)) (diagnostics d))
    | None => ([], d)
    end
  else if is_str "web_search_tool_result" (idx "type" block) then
    match web_search_result_text block (query_of d block) with
    | Some text => ([TextDelta text],
                    with_counts d (counts d) (count (diagnostics d) 1 0 0))
    | None => ([], d)
    end
  else if is_str "tool_use" (idx "type" block) then
    let n := next_tool_index d in
    ([ToolCallBegin n (default "toolu_anthropic" (as_str (idx "id" block)))
        (default "tool" (strip_custom_prefix <$> as_str (idx "name" block)))],
     with_blocks d (n + 1) (match index with Some i => <[i := n]> (tool_blocks d) | None => tool_blocks d end)
       (server_blocks d) (count (diagnostics d) 0 0 1))
  else ([], d).

Definition decode_args (d : AnthropicDecoder) (value : Value) (delta : string)
  : list CodexEvent * AnthropicDecoder :=
  let index := u64_at "index" value in
  match index ≫= λ i, (i,.) <$> block_get i (server_blocks d) with
  | Some (i, _) =>
      ([], with_blocks d (next_tool_index d) (tool_blocks d)
             (block_append i delta (server_blocks d)) (diagnostics d))
  | None =>
      let output_index := match index with
                          | Some i => tool_blocks d !! i
                          | None => if next_tool_index d =? 0 then None else Some (next_tool_index d - 1)
                          end in
      (match output_index with Some o => [ToolArgsDelta o delta] | None => [] end, d)
  end.

Definition decode_delta (d : AnthropicDecoder) (value : Value) : list CodexEvent * AnthropicDecoder :=
  let delta := idx "delta" value in
  match as_str (idx "type" delta) with
  | Some kind =>
      if bool_decide (kind = "text_delta") then
        match as_str (idx "text" delta) with
        | Some text =>
            ([TextDelta text],
             if is_empty (trim text) then d else with_counts d (counts d) (count (diagnostics d) 1 0 0))
        | None => ([], d)
        end
      else if one_of kind ["thinking_delta"; "reasoning_delta"] then
        match or_else (as_str (idx "thinking" delta)) (as_str (idx "text" delta)) with
        | Some text => ([ReasoningDelta text], with_counts d (counts d) (count (diagnostics d) 0 1 0))
        | None => ([], d)
        end
      else if bool_decide (kind = "signature_delta") then
        (match as_str (idx "signature" delta) with Some s => [ReasoningSignature s] | None => [] end, d)
      else if bool_decide (kind = "input_json_delta") then
        match as_str (idx "partial_json" delta) with
        | Some partial => decode_args d value partial
        | None => ([], d)
        end
      else ([], d)
  | None => ([], d)
  end.

Definition decode_message_delta (d : AnthropicDecoder) (value : Value) : list CodexEvent * AnthropicDecoder :=
  let stop := pointer ["delta"; "stop_reason"] value ≫= as_str in
  let usage := idx "usage" value in
  let c := counts d in
  let read := u64_at "cache_read_input_tokens" usage in
  let write := u64_at "cache_creation_input_tokens" usage in
  (if bool_decide (stop = Some "max_tokens") then [OutputLimitReached] else [],
   with_counts d
     {| input_tokens := default (input_tokens c) (u64_at "input_tokens" usage);
        output_tokens := default 0 (u64_at "output_tokens" usage);
        cache_read_tokens := default (cache_read_tokens c) read;
        cache_write_tokens := default (cache_write_tokens c) write;
        cache_read_tokens_known := cache_read_tokens_known c || is_some read;
        cache_write_tokens_known := cache_write_tokens_known c || is_some write |}
     {| message_id := message_id (diagnostics d);
        stop_reason := or_else stop (stop_reason (diagnostics d));
        output_tokens_reported := is_some (u64_at "output_tokens" usage);
        text_deltas := text_deltas (diagnostics d); thinking_deltas := thinking_deltas (diagnostics d);
        tool_calls := tool_calls (diagnostics d) |}).

Definition usage_of (c : Counts) : Usage :=
  {| prompt_tokens := input_tokens c; completion_tokens := output_tokens c;
     total_tokens := wrapping_add_u64 (input_tokens c) (output_tokens c);
     cached_tokens := cache_read_tokens c; cached_tokens_known := cache_read_tokens_known c;
     reasoning_tokens := 0; Sse.cache_write_tokens := cache_write_tokens c;
     Sse.cache_write_tokens_known := cache_write_tokens_known c |}.

Definition decode_value (d : AnthropicDecoder) (value : Value) : list CodexEvent * AnthropicDecoder :=
  if terminated d && negb (is_str "message_start" (idx "type" value)) then ([], d)
  else match get_str "type" value with
       | Some kind =>
           if bool_decide (kind = "message_start") then decode_message_start value
           else if bool_decide (kind = "content_block_start") then decode_block_start d value
           else if bool_decide (kind = "content_block_delta") then decode_delta d value
           else if bool_decide (kind = "message_delta") then decode_message_delta d value
           else if bool_decide (kind = "message_stop") then
             ([Completed (Some (usage_of (counts d)))], with_ended d false)
           else if bool_decide (kind = "error") then
             ([Failed (default "Anthropic upstream error" (as_str (idx "message" (idx "error" value))))],
              with_ended d (started d))
           else ([], d)
       | None => ([], d)
       end.

Definition decode (d : AnthropicDecoder) (frame : string) : list CodexEvent * AnthropicDecoder :=
  match parse_json frame with Some value => decode_value d value | None => ([], d) end.

Definition finish (d : AnthropicDecoder) : list CodexEvent * AnthropicDecoder :=
  if terminated d then ([], d)
  else ([Failed "Anthropic stream ended before message_stop"], with_ended d false).

(** The frames of one call, in order. *)
Fixpoint decodes (d : AnthropicDecoder) (frames : list string) : list CodexEvent * AnthropicDecoder :=
  match frames with
  | [] => ([], d)
  | f :: frames =>
      let '(es, d) := decode d f in
      let '(es', d) := decodes d frames in (es ++ es', d)
  end.
End decoder.

(** ** Whole messages *)

Definition stop_reason_for (finish : string) : string :=
  if bool_decide (finish = "length") then "max_tokens"
  else if bool_decide (finish = "tool_calls") then "tool_use" else "end_turn".

Section payload.
Context (parse_json : string → option Value).

Definition tool_block (call : string * string * string) : Value :=
  let '(id, name, args) := call in
  obj [("type", str (if bool_decide (name = "web_search") then "server_tool_use" else "tool_use"));
       ("id", str id); ("name", str name); ("input", default (obj []) (parse_json args))].

Definition messages_payload_full (id model text : string) (calls : list (string * string * string))
    (finish : string) (usage : option Usage) (thinking signature : option string) : Value :=
  let content :=
    (if is_some thinking || is_some signature
     then [set_some "signature" (str <$> signature)
             (obj [("type", str "thinking"); ("thinking", str (default "" thinking))])]
     else [])
    ++ (if is_empty text then [] else [obj [("type", str "text"); ("text", str text)]])
    ++ (tool_block <$> calls) in
  obj [("id", str id); ("type", str "message"); ("role", str "assistant"); ("model", str model);
       ("content", VArray content); ("stop_reason", str (stop_reason_for finish));
       ("stop_sequence", nul);
       ("usage", obj [("input_tokens", uint (default 0 (prompt_tokens <$> usage)));
                      ("output_tokens", uint (default 0 (completion_tokens <$> usage)))])].

Definition messages_payload (id model text : string) (calls : list (string * string * string))
    (finish : string) (usage : option Usage) (signature : option string) : Value :=
  messages_payload_full id model text calls finish usage None signature.
End payload.

(** ** The renderer *)

Definition frame (kind : string) (fields : list (string * Value)) : Frame :=
  {| event_name := kind; payload := obj (("type", str kind) :: fields) |}.

Record AnthropicStreamRenderer := {
  r_id : string;
  r_model : string;
  r_started : bool;
  current_text_index : option Z;
  r_terminated : bool;
  tool_index : Z;
  next_content_index : Z;
  tool_indices : list (Z * Z); (* a B-tree: in the order of the keys *)
  closed_tools : gset Z;
  thinking_index : option Z;
  r_limit : bool;
}.

Definition new_renderer (model : string) (created : Z) : AnthropicStreamRenderer :=
  {| r_id := "msg_" +:+ show_i64 created; r_model := model; r_started := false;
     current_text_index := None; r_terminated := false; tool_index := 0; next_content_index := 0;
     tool_indices := []; closed_tools := ∅; thinking_index := None; r_limit := false |}.

Definition with_start (r : AnthropicStreamRenderer) (i : string) (s : bool) : AnthropicStreamRenderer :=
  {| r_id := i; r_model := r_model r; r_started := s; current_text_index := current_text_index r;
     r_terminated := r_terminated r; tool_index := tool_index r;
     next_content_index := next_content_index r; tool_indices := tool_indices r;
     closed_tools := closed_tools r; thinking_index := thinking_index r; r_limit := r_limit r |}.
Definition with_open (r : AnthropicStreamRenderer) (text thinking : option Z) (next : Z)
    : AnthropicStreamRenderer :=
  {| r_id := r_id r; r_model := r_model r; r_started := r_started r; current_text_index := text;
     r_terminated := r_terminated r; tool_index := tool_index r; next_content_index := next;
     tool_indices := tool_indices r; closed_tools := closed_tools r; thinking_index := thinking;
     r_limit := r_limit r |}.
Definition with_tools (r : AnthropicStreamRenderer) (n : Z) (next : Z) (t : list (Z * Z)) (c : gset Z)
    : AnthropicStreamRenderer :=
  {| r_id := r_id r; r_model := r_model r; r_started := r_started r;
     current_text_index := current_text_index r; r_terminated := r_terminated r; tool_index := n;
     next_content_index := next; tool_indices := t; closed_tools := c;
     thinking_index := thinking_index r; r_limit := r_limit r |}.
Definition with_end (r : AnthropicStreamRenderer) (t l : bool) : AnthropicStreamRenderer :=
  {| r_id := r_id r; r_model := r_model r; r_started := r_started r;
     current_text_index := current_text_index r; r_terminated := t; tool_index := tool_index r;
     next_content_index := next_content_index r; tool_indices := tool_indices r;
     closed_tools := closed_tools r; thinking_index := thinking_index r; r_limit := l |}.

Fixpoint index_insert (k v : Z) (m : list (Z * Z)) : list (Z * Z) :=
  match m with
  | [] => [(k, v)]
  | (j, w) :: m' =>
      if k <? j then (k, v) :: m else if k =? j then (k, v) :: m' else (j, w) :: index_insert k v m'
  end.
Definition index_get (k : Z) (m : list (Z * Z)) : option Z := snd <$> List.find (λ kv, kv.1 =? k) m.

Definition block_stop (index : Z) : Frame := frame "content_block_stop" [("index", uint index)].
Definition block_start (index : Z) (block : Value) : Frame :=
  frame "content_block_start" [("index", uint index); ("content_block", block)].
Definition block_delta (index : Z) (delta : Value) : Frame :=
  frame "content_block_delta" [("index", uint index); ("delta", delta)].

Abbreviation step := (list Frame * AnthropicStreamRenderer)%type.

Definition ensure_started (r : AnthropicStreamRenderer) : step :=
  if r_started r then ([], r)
  else ([frame "message_start"
           [("message", obj [("id", str (r_id r)); ("type", str "message"); ("role", str "assistant");
              ("content", VArray []); ("model", str (r_model r)); ("stop_reason", nul);
              ("stop_sequence", nul);
              ("usage", obj [("input_tokens", uint 0); ("output_tokens", uint 0)])])]],
        with_start r (r_id r) true).

Definition close_text (r : AnthropicStreamRenderer) : step :=
  match current_text_index r with
  | Some i => ([block_stop i], with_open r None (thinking_index r) (next_content_index r))
  | None => ([], r)
  end.

Definition close_thinking (r : AnthropicStreamRenderer) : step :=
  match thinking_index r with
  | Some i => ([block_stop i], with_open r (current_text_index r) None (next_content_index r))
  | None => ([], r)
  end.

(** The loop of [close_open_tools]: the stops, and the closed tools. *)
Fixpoint close_each (tools : list (Z * Z)) (closed : gset Z) : list Frame * gset Z :=
  match tools with
  | [] => ([], closed)
  | (o, i) :: tools =>
      if bool_decide (o ∈ closed) then close_each tools closed
      else let '(fs, closed) := close_each tools ({[o]} ∪ closed) in (block_stop i :: fs, closed)
  end.

Definition close_open_tools (r : AnthropicStreamRenderer) : step :=
  let '(fs, closed) := close_each (tool_indices r) (closed_tools r) in
  (fs, with_tools r (tool_index r) (next_content_index r) (tool_indices r) closed).

Definition ensure_thinking_block (r : AnthropicStreamRenderer) : list Frame * AnthropicStreamRenderer * Z :=
  match thinking_index r with
  | Some i => ([], r, i)
  | None =>
      let '(out, r) := close_open_tools r in
      let '(out', r) := close_text r in
      let i := next_content_index r in
      (out ++ out' ++ [block_start i (obj [("type", str "thinking"); ("thinking", str "");
                                           ("signature", str "")])],
       with_open r (current_text_index r) (Some i) (i + 1), i)
  end.

Definition open_text (r : AnthropicStreamRenderer) : list Frame * AnthropicStreamRenderer * Z :=
  match current_text_index r with
  | Some i => ([], r, i)
  | None =>
      let i := next_content_index r in
      ([block_start i (obj [("type", str "text"); ("text", str "")])],
       with_open r (Some i) (thinking_index r) (i + 1), i)
  end.

Definition close_all (r : AnthropicStreamRenderer) : step :=
  let '(a, r) := close_thinking r in
  let '(b, r) := close_text r in
  let '(c, r) := close_open_tools r in (a ++ b ++ c, r).

Definition stop_of (r : AnthropicStreamRenderer) : string :=
  if r_limit r then "max_tokens" else if 0 <? tool_index r then "tool_use" else "end_turn".

Definition render_event (r : AnthropicStreamRenderer) (event : CodexEvent) : step :=
  match event with
  | Created response_id => ([], if is_empty response_id then r else with_start r response_id (r_started r))
  | TextDelta text =>
      let '(a, r) := close_thinking r in
      let '(b, r) := close_open_tools r in
      let '(c, r, i) := open_text r in
      (a ++ b ++ c ++ [block_delta i (obj [("type", str "text_delta"); ("text", str text)])], r)
  | ReasoningDelta text =>
      let '(a, r, i) := ensure_thinking_block r in
      (a ++ [block_delta i (obj [("type", str "thinking_delta"); ("thinking", str text)])], r)
  | ReasoningSignature signature =>
      let '(a, r, i) := ensure_thinking_block r in
      (a ++ [block_delta i (obj [("type", str "signature_delta"); ("signature", str signature)])], r)
  | ReasoningRedacted => ([], r)
  | ToolCallBegin o cid nm =>
      let '(a, r) := close_thinking r in
      let '(b, r) := close_text r in
      let i := next_content_index r in
      (a ++ b ++ [block_start i (obj [("type", str "tool_use"); ("id", str cid); ("name", str nm);
                                      ("input", obj [])])],
       with_tools r (tool_index r + 1) (i + 1) (index_insert o i (tool_indices r)) (closed_tools r))
  | ToolArgsDelta o delta =>
      let i := default 1 (index_get o (tool_indices r)) in
      ([block_delta i (obj [("type", str "input_json_delta"); ("partial_json", str delta)])], r)
  | OutputLimitReached => ([], with_end r (r_terminated r) true)
  | Completed usage =>
      let '(a, r) := close_all r in
      (a ++ [frame "message_delta"
               [("delta", obj [("stop_reason", str (stop_of r)); ("stop_sequence", nul)]);
                ("usage", obj [("input_tokens", uint (default 0 (prompt_tokens <$> usage)));
                               ("output_tokens", uint (default 0 (completion_tokens <$> usage)))])];
             frame "message_stop" []],
       with_end r true (r_limit r))
  | Failed message =>
      let '(a, r) := close_all r in
      (a ++ [frame "error" [("error", obj [("type", str "api_error"); ("message", str message)])]],
       with_end r true (r_limit r))
  end.

Definition render (r : AnthropicStreamRenderer) (event : CodexEvent) : step :=
  if r_terminated r then ([], r)
  else
    let '(a, r) := ensure_started r in
    let '(b, r) := render_event r event in (a ++ b, r).

Definition close_unterminated (r : AnthropicStreamRenderer) : step :=
  if r_terminated r then ([], r) else render r (Failed "upstream stream ended before completion").

Fixpoint renders (r : AnthropicStreamRenderer) (events : list CodexEvent) : step :=
  match events with
  | [] => ([], r)
  | e :: events =>
      let '(out, r) := render r e in
      let '(out', r) := renders r events in (out ++ out', r)
  end.

(** [sse]. *)
Definition sse (print_json : Value → string) (f : Frame) : string :=
  event_text (event_name f) (print_json (payload f)).

(** ** A finished answer as a stream *)

(** What the loop of [render_anthropic_stream] keeps: whether the text block is open, the
    finish reason and the usage. *)
Definition replay_event (st : bool * string * option Usage) (event : CodexEvent)
  : list Frame * (bool * string * option Usage) :=
  let '(opened, finish, usage) := st in
  match event with
  | TextDelta text =>
      ((if opened then [] else [block_start 0 (obj [("type", str "text"); ("text", str "")])])
       ++ [block_delta 0 (obj [("type", str "text_delta"); ("text", str text)])], (true, finish, usage))
  | Completed u => ([], (opened, finish, u))
  | OutputLimitReached => ([], (opened, "length", usage))
  | ToolCallBegin _ _ _ | ToolArgsDelta _ _ =>
      ([], (opened, if bool_decide (finish = "length") then finish else "tool_calls", usage))
  | _ => ([], st)
  end.

Fixpoint replay_events (st : bool * string * option Usage) (events : list CodexEvent)
  : list Frame * (bool * string * option Usage) :=
  match events with
  | [] => ([], st)
  | e :: events =>
      let '(fs, st) := replay_event st e in
      let '(fs', st) := replay_events st events in (fs ++ fs', st)
  end.

Definition final_usage (events : list CodexEvent) : option Usage :=
  head (omap (λ e, match e with Completed u => u | _ => None end) events).

Definition render_anthropic_stream (events : list CodexEvent) (id model : string)
  : list Frame * option Usage :=
  let u := final_usage events in
  let '(fs, (opened, finish, usage)) := replay_events (false, "stop", None) events in
  ([frame "message_start"
      [("message", obj [("id", str id); ("type", str "message"); ("role", str "assistant");
         ("content", VArray []); ("model", str model); ("stop_reason", nul); ("stop_sequence", nul);
         ("usage", obj [("input_tokens", uint (default 0 (prompt_tokens <$> u)));
                        ("output_tokens", uint (default 0 (completion_tokens <$> u)))])])]]
   ++ fs ++ (if opened then [block_stop 0] else [])
   ++ [frame "message_delta"
         [("delta", obj [("stop_reason", str (stop_reason_for finish)); ("stop_sequence", nul)]);
          ("usage", obj [("output_tokens", uint (default 0 (completion_tokens <$> usage)))])];
       frame "message_stop" []], usage).

(** ** Token estimates *)

Definition system_to_text (system : Value) : option string :=
  match system with
  | VString s => Some s
  | VArray items => Some (String.concat "" (omap (get_str "text") items))
  | _ => None
  end.

Definition content_length (msg : Value) : Z :=
  match get "content" msg with
  | Some (VString s) => strlen s
  | Some (VArray blocks) => foldr Z.add 0 (strlen <$> omap (get_str "text") blocks)
  | _ => 0
  end.

(** [((chars as f64) / 4.0).ceil() as u64]: exact below 2^53. *)
Definition estimate_input_tokens (body : Value) : Z :=
  let chars := default 0 (strlen <$> (get "system" body ≫= system_to_text))
               + foldr Z.add 0 (content_length <$> default [] (get_array "messages" body)) in
  (chars + 3) / 4.

End ClaudeStream.
