(* ===== verification/ClaudeStreamProps.v ===== *)
(** * Messages streams follow the Messages protocol

    [Client] is what a client of the Messages API keeps while it reads a stream; [accept]
    refuses every event the protocol does not allow.  The renderer's streams are accepted. *)

From stdpp Require Import base numbers strings list gmap fin_maps.
From S2P Require Import Prelude RustStr Json Sse SseProps Wire ClaudeStream.
Import RustStr Sse Wire Json JsonMake ClaudeStream.
Open Scope Z_scope.

(** ** The protocol *)

Inductive BlockKind := BText | BThinking | BTool.
Inductive Phase := Waiting | Streaming | Closing | Closed.

Record Client := {
  phase : Phase;
  next_block : Z;
  blocks : gmap Z BlockKind;
}.

Definition fresh_client : Client := {| phase := Waiting; next_block := 0; blocks := ∅ |}.

Definition block_kind (t : string) : option BlockKind :=
  if bool_decide (t = "text") then Some BText
  else if bool_decide (t = "thinking") then Some BThinking
  else if bool_decide (t = "tool_use") then Some BTool else None.

(** The deltas a block takes. *)
Definition delta_fits (k : BlockKind) (t : string) : bool :=
  match k with
  | BText => bool_decide (t = "text_delta")
  | BThinking => one_of t ["thinking_delta"; "signature_delta"]
  | BTool => bool_decide (t = "input_json_delta")
  end.

#[export] Instance phase_eq_dec : EqDecision Phase.
Proof. solve_decision. Defined.
#[export] Instance block_kind_eq_dec : EqDecision BlockKind.
Proof. solve_decision. Defined.

Definition at_phase (p : Phase) (c : Client) : option unit := if bool_decide (phase c = p) then Some () else None.
Definition settled (c : Client) : option unit := if bool_decide (blocks c = ∅) then Some () else None.
Definition to_phase (c : Client) (p : Phase) : Client :=
  {| phase := p; next_block := next_block c; blocks := blocks c |}.

Definition accept (c : Client) (f : Frame) : option Client :=
  let v := payload f in
  let kind := event_name f in
  if negb (is_str kind (idx "type" v)) then None
  else if bool_decide (kind = "message_start") then _ ← at_phase Waiting c; Some (to_phase c Streaming)
  else if bool_decide (kind = "content_block_start") then
    _ ← at_phase Streaming c;
    i ← u64_at "index" v;
    k ← get_str "type" (idx "content_block" v) ≫= block_kind;
    if i =? next_block c
    then Some {| phase := phase c; next_block := i + 1; blocks := <[i := k]> (blocks c) |} else None
  else if bool_decide (kind = "content_block_delta") then
    _ ← at_phase Streaming c;
    i ← u64_at "index" v;
    k ← blocks c !! i;
    t ← get_str "type" (idx "delta" v);
    if delta_fits k t then Some c else None
  else if bool_decide (kind = "content_block_stop") then
    _ ← at_phase Streaming c;
    i ← u64_at "index" v;
    _ ← blocks c !! i;
    Some {| phase := phase c; next_block := next_block c; blocks := delete i (blocks c) |}
  else if bool_decide (kind = "message_delta") then
    _ ← at_phase Streaming c; _ ← settled c; Some (to_phase c Closing)
  else if bool_decide (kind = "message_stop") then _ ← at_phase Closing c; Some (to_phase c Closed)
  else if bool_decide (kind = "error") then
    _ ← at_phase Streaming c; _ ← settled c; Some (to_phase c Closed)
  else None.

Fixpoint accepts (c : Client) (fs : list Frame) : option Client :=
  match fs with
  | [] => Some c
  | f :: fs => c ← accept c f; accepts c fs
  end.

Lemma accepts_app fs gs c c1 : accepts c fs = Some c1 → accepts c (fs ++ gs) = accepts c1 gs.
Proof.
  revert c. induction fs as [|f fs IH]; intros c; cbn; [by intros [= ->]|].
  destruct (accept c f); [apply IH|done].
Qed.

(** ** The open blocks of the renderer *)

Definition open_tool (r : AnthropicStreamRenderer) (oi : Z * Z) : Prop := oi.1 ∉ closed_tools r.
#[export] Instance open_tool_dec r oi : Decision (open_tool r oi).
Proof. unfold open_tool. apply _. Defined.

Definition opens (r : AnthropicStreamRenderer) : list (Z * BlockKind) :=
  ((., BText) <$> option_list (current_text_index r)) ++
  ((., BThinking) <$> option_list (thinking_index r)) ++
  ((λ oi, (oi.2, BTool)) <$> filter (open_tool r) (tool_indices r)).

Record renders_to (r : AnthropicStreamRenderer) (c : Client) : Prop := {
  rt_live : r_terminated r = false;
  rt_phase : phase c = if r_started r then Streaming else Waiting;
  rt_next : next_block c = next_content_index r;
  rt_blocks : blocks c = list_to_map (opens r);
  rt_distinct : NoDup (opens r).*1;
  rt_old : Forall (λ i, i < next_content_index r) (opens r).*1;
  rt_keys : NoDup (tool_indices r).*1;
}.

Lemma renders_to_new m c : renders_to (new_renderer m c) fresh_client.
Proof. split; try done; constructor. Qed.

(** *** Stops *)

Definition stopped (c : Client) (l : list Z) : Client :=
  {| phase := phase c; next_block := next_block c; blocks := foldr delete (blocks c) l |}.

Lemma accept_stop_eq c i : accept c (block_stop i) =
  (_ ← at_phase Streaming c; _ ← blocks c !! i; Some (stopped c [i])).
Proof. reflexivity. Qed.

Lemma accept_stop c i : phase c = Streaming → is_Some (blocks c !! i) →
  accept c (block_stop i) = Some (stopped c [i]).
Proof.
  intros Hp [k Hk]. rewrite accept_stop_eq. unfold at_phase. rewrite Hp. cbn. by rewrite Hk.
Qed.

Lemma accepts_stops (l : list Z) : ∀ c, phase c = Streaming → NoDup l → Forall (λ i, is_Some (blocks c !! i)) l →
  accepts c (block_stop <$> l) = Some (stopped c (reverse l)).
Proof.
  induction l as [|i l IH]; intros c Hp Hd Hl; [by destruct c|].
  apply NoDup_cons in Hd as [Hi Hd]. apply list.Forall_cons in Hl as [Hs Hl].
  rewrite fmap_cons. cbn [accepts]. rewrite accept_stop by done. cbn [mbind option_bind].
  rewrite IH; [|done|done|].
  - rewrite reverse_cons. unfold stopped. cbn. by rewrite foldr_app.
  - rewrite list.Forall_forall in Hl |- *. intros j Hj. cbn.
    rewrite lookup_delete_ne by set_solver. by apply Hl.
Qed.

Lemma foldr_delete_map (l : list (Z * BlockKind)) (k : list (Z * BlockKind)) (js : list Z) :
  NoDup (l ++ k).*1 → js ≡ₚ l.*1 → foldr delete (list_to_map (l ++ k) : gmap Z BlockKind) js = list_to_map k.
Proof.
  intros Hd Hj. apply map_eq. intros i. rewrite fmap_app in Hd. apply NoDup_app in Hd as (Hl & Hlk & Hk).
  destruct (decide (i ∈ js)) as [Hi|Hi].
  - assert (foldr delete (list_to_map (l ++ k) : gmap Z BlockKind) js !! i = None) as ->.
    { clear -Hi. induction js as [|j js IH]; [by apply not_elem_of_nil in Hi|]. cbn.
      destruct (decide (i = j)) as [->|]; [by rewrite lookup_delete_eq|].
      rewrite lookup_delete_ne by done. apply IH. set_solver. }
    symmetry. apply not_elem_of_list_to_map_1. apply Hlk. by rewrite <- Hj.
  - assert (foldr delete (list_to_map (l ++ k) : gmap Z BlockKind) js !! i = (list_to_map (l ++ k) : gmap Z BlockKind) !! i) as ->.
    { clear -Hi. induction js as [|j js IH]; [done|]. cbn. rewrite lookup_delete_ne by set_solver. apply IH. set_solver. }
    rewrite list_to_map_app, lookup_union.
    rewrite (not_elem_of_list_to_map_1 l i) by (by rewrite <- Hj). by destruct (list_to_map k !! i).
Qed.

(** A step that only stops blocks. *)
Record closes (r : AnthropicStreamRenderer) (fs : list Frame) (r' : AnthropicStreamRenderer) : Prop := {
  cl_stops : ∃ l, fs = block_stop <$> l.*1 ∧ opens r ≡ₚ l ++ opens r';
  cl_next : next_content_index r' = next_content_index r;
  cl_started : r_started r' = r_started r;
  cl_live : r_terminated r' = r_terminated r;
  cl_tools : tool_indices r' = tool_indices r;
  cl_limit : r_limit r' = r_limit r;
}.

Lemma renders_to_closes r fs r' c : renders_to r c → r_started r = true → closes r fs r' →
  ∃ c', accepts c fs = Some c' ∧ renders_to r' c'.
Proof.
  intros [] Hs [(l & -> & Hl) N S T O _]. rewrite Hs in *.
  assert (Hd : NoDup (l ++ opens r').*1) by by rewrite <- Hl.
  assert (Hb : blocks c = list_to_map (l ++ opens r')) by (rewrite rt_blocks0; by apply list_to_map_proper).
  exists (stopped c (reverse l.*1)). split.
  - apply accepts_stops; [done|rewrite fmap_app in Hd; by apply NoDup_app in Hd as [? _]|].
    apply list.Forall_forall. intros i Hi. rewrite Hb. apply list_elem_of_fmap in Hi as ([j k] & -> & Hi).
    exists k. cbn. apply elem_of_list_to_map_1; [done|]. apply elem_of_app. by left.
  - split; cbn; rewrite ?S; try congruence.
    + rewrite Hb. apply foldr_delete_map; [done|]. apply reverse_Permutation.
    + rewrite fmap_app in Hd. by apply NoDup_app in Hd as (_ & _ & ?).
    + rewrite N. rewrite Hl, fmap_app in rt_old0. by apply Forall_app in rt_old0 as [_ ?].
Qed.

Lemma closes_refl r : closes r [] r.
Proof. split; try done. by exists []. Qed.

Lemma closes_trans r fs r1 gs r2 : closes r fs r1 → closes r1 gs r2 → closes r (fs ++ gs) r2.
Proof.
  intros [(l & -> & Hl) ? ? ? ? ?] [(k & -> & Hk) ? ? ? ? ?]. split; try congruence.
  exists (l ++ k). split; [by rewrite !fmap_app|]. by rewrite Hl, Hk, app_assoc.
Qed.

Lemma close_text_closes r fs r' : close_text r = (fs, r') →
  closes r fs r' ∧ current_text_index r' = None ∧ thinking_index r' = thinking_index r ∧
  closed_tools r' = closed_tools r.
Proof.
  unfold close_text. destruct (current_text_index r) as [i|] eqn:E; intros [= <- <-].
  - split_and!; try done. split; try done. exists [(i, BText)]. split; [done|]. unfold opens. by rewrite E.
  - split_and!; try done. apply closes_refl.
Qed.

Lemma close_thinking_closes r fs r' : close_thinking r = (fs, r') →
  closes r fs r' ∧ thinking_index r' = None ∧ current_text_index r' = current_text_index r ∧
  closed_tools r' = closed_tools r.
Proof.
  unfold close_thinking. destruct (thinking_index r) as [i|] eqn:E; intros [= <- <-].
  - split_and!; try done. split; try done. exists [(i, BThinking)]. split; [done|]. unfold opens. rewrite E. cbn.
    destruct (current_text_index r); cbn; [apply perm_swap|done].
  - split_and!; try done. apply closes_refl.
Qed.

Lemma filter_agree {A} (P Q : A → Prop) `{!∀ x, Decision (P x), !∀ x, Decision (Q x)} (l : list A) :
  (∀ x, x ∈ l → P x ↔ Q x) → filter P l = filter Q l.
Proof.
  induction l as [|x l IH]; intros Hl; [done|].
  assert (Hx := Hl x (list_elem_of_here _ _)). assert (IHl : filter P l = filter Q l).
  { apply IH. intros y Hy. apply Hl. by right. }
  destruct (decide (P x)) as [HP|HP].
  - rewrite (filter_cons_True P), (filter_cons_True Q) by tauto. by rewrite IHl.
  - rewrite (filter_cons_False P), (filter_cons_False Q) by tauto. done.
Qed.

Lemma filter_nothing {A} (P : A → Prop) `{!∀ x, Decision (P x)} (l : list A) :
  (∀ x, x ∈ l → ¬ P x) → filter P l = [].
Proof.
  induction l as [|x l IH]; intros Hl; [done|]. rewrite filter_cons_False by (apply Hl; left).
  apply IH. intros y Hy. apply Hl. by right.
Qed.

Lemma close_each_spec ts : ∀ closed, NoDup ts.*1 →
  close_each ts closed =
    (block_stop <$> (filter (λ oi, oi.1 ∉ closed) ts).*2, list_to_set ts.*1 ∪ closed).
Proof.
  induction ts as [|[o i] ts IH]; intros closed Hd; cbn [close_each fmap list_fmap].
  { f_equal. set_solver. }
  apply NoDup_cons in Hd as [Ho Hd]. case_bool_decide as Hin.
  - rewrite IH by done. rewrite filter_cons_False by (cbn; tauto). f_equal. cbn. set_solver.
  - rewrite IH by done. rewrite filter_cons_True by (cbn; tauto). cbn. f_equal; [|set_solver].
    do 2 f_equal. apply (f_equal (fmap (M := list) snd)). apply filter_agree. intros [o' i'] Hx. cbn.
    assert (o' ≠ o); [|set_solver]. intros ->. apply Ho. by apply (list_elem_of_fmap_2 fst _ (o, i')).
Qed.

Lemma close_open_tools_closes r fs r' : NoDup (tool_indices r).*1 → close_open_tools r = (fs, r') →
  closes r fs r' ∧ thinking_index r' = thinking_index r ∧ current_text_index r' = current_text_index r ∧
  closed_tools r' = list_to_set (tool_indices r).*1 ∪ closed_tools r.
Proof.
  intros Hd. unfold close_open_tools. rewrite close_each_spec by done. intros [= <- <-].
  split_and!; try done. split; try done.
  exists ((λ oi, (oi.2, BTool)) <$> filter (open_tool r) (tool_indices r)). split.
  - apply (f_equal (fmap (M := list) block_stop)). by rewrite <- list_fmap_compose.
  - unfold opens. cbn [current_text_index thinking_index tool_indices with_tools].
    assert (Hnone : filter (open_tool (with_tools r (tool_index r) (next_content_index r) (tool_indices r)
              (list_to_set (tool_indices r).*1 ∪ closed_tools r))) (tool_indices r) = []).
    { apply filter_nothing. intros [o i] Hin. unfold open_tool. cbn. apply (list_elem_of_fmap_2 fst) in Hin. set_solver. }
    rewrite Hnone. cbn. rewrite app_nil_r, app_assoc. apply Permutation_app_comm.
Qed.

(** *** Starts and deltas *)

Lemma renders_to_start r c i k f r' : renders_to r c → r_started r = true →
  accept c f = (_ ← at_phase Streaming c;
                if i =? next_block c
                then Some {| phase := phase c; next_block := i + 1; blocks := <[i := k]> (blocks c) |}
                else None) →
  i = next_content_index r → next_content_index r' = i + 1 → opens r' ≡ₚ (i, k) :: opens r →
  r_started r' = true → r_terminated r' = false → NoDup (tool_indices r').*1 →
  ∃ c', accepts c [f] = Some c' ∧ renders_to r' c'.
Proof.
  intros [] Hs Ha -> Hn Ho Hs' Ht Hk. rewrite Hs in *. cbn [accepts]. rewrite Ha.
  unfold at_phase. rewrite rt_phase0, rt_next0, Z.eqb_refl. cbn. eexists. split; [done|].
  assert (Hd : NoDup ((next_content_index r, k) :: opens r).*1).
  { cbn. apply NoDup_cons. split; [|done]. intros Hin. rewrite list.Forall_forall in rt_old0.
    specialize (rt_old0 _ Hin). lia. }
  assert (Hd' : NoDup (opens r').*1) by by rewrite Ho.
  split; cbn; rewrite ?Hs'; try congruence.
  - rewrite rt_blocks0. by rewrite (list_to_map_proper (opens r') _ Hd' Ho).
  - rewrite Ho, Hn. cbn. constructor; [lia|]. eapply Forall_impl; [exact rt_old0|]. cbn. lia.
Qed.

Lemma renders_to_delta r c i k f t : renders_to r c → r_started r = true → (i, k) ∈ opens r →
  accept c f = (_ ← at_phase Streaming c; k ← blocks c !! i; if delta_fits k t then Some c else None) →
  delta_fits k t = true → accepts c [f] = Some c.
Proof.
  intros [] Hs Hin Ha Hf. rewrite Hs in *. cbn [accepts]. rewrite Ha. unfold at_phase. rewrite rt_phase0. cbn.
  rewrite rt_blocks0. rewrite (elem_of_list_to_map_1 _ i k) by done. cbn. by rewrite Hf.
Qed.

(** ** The events the protocol can carry *)

(** Calls begin once; arguments come while their call is open: text and reasoning close the
    calls before them. *)
Fixpoint calls_live (begun open : gset Z) (events : list CodexEvent) : Prop :=
  match events with
  | [] => True
  | ToolCallBegin o _ _ :: events => (o ∉ begun) ∧ calls_live ({[o]} ∪ begun) ({[o]} ∪ open) events
  | ToolArgsDelta o _ :: events => o ∈ open ∧ calls_live begun open events
  | (TextDelta _ | ReasoningDelta _ | ReasoningSignature _) :: events => calls_live begun ∅ events
  | _ :: events => calls_live begun open events
  end.

(** The calls as the renderer has them. *)
Definition knows (r : AnthropicStreamRenderer) (begun open : gset Z) : Prop :=
  (∀ o, o ∈ begun ↔ o ∈ (tool_indices r).*1) ∧
  (∀ o, o ∈ open → o ∈ (tool_indices r).*1 ∧ (o ∉ closed_tools r)) ∧
  (∀ o, o ∈ closed_tools r → o ∈ (tool_indices r).*1).

Lemma index_insert_new k v m : (k ∉ m.*1) → index_insert k v m ≡ₚ (k, v) :: m.
Proof.
  induction m as [|[j w] m IH]; intros Hk; cbn; [done|]. cbn in Hk. apply not_elem_of_cons in Hk as [Hkj Hk].
  destruct (k <? j); [done|]. rewrite (proj2 (Z.eqb_neq k j)) by done. rewrite IH by done. apply perm_swap.
Qed.

Lemma index_get_elem o m : o ∈ m.*1 → ∃ i, index_get o m = Some i ∧ (o, i) ∈ m.
Proof.
  induction m as [|[j w] m IH]; cbn; intros Ho; [by apply not_elem_of_nil in Ho|].
  unfold index_get. cbn. destruct (Z.eqb_spec j o) as [->|Hn].
  - exists w. split; [done|left].
  - apply elem_of_cons in Ho as [->|Ho]; [done|]. destruct (IH Ho) as (i & Hi & Hin).
    exists i. split; [exact Hi|by right].
Qed.

(** What the steps keep of the tools. *)
Record keeps (r r' : AnthropicStreamRenderer) : Prop := {
  kp_tools : tool_indices r' = tool_indices r;
  kp_started : r_started r' = r_started r;
  kp_closed : ∀ o, o ∈ closed_tools r' → o ∈ (tool_indices r).*1 ∨ o ∈ closed_tools r;
}.

Lemma keeps_trans r r1 r2 : keeps r r1 → keeps r1 r2 → keeps r r2.
Proof. intros [T1 S1 C1] [T2 S2 C2]. rewrite T1 in *. split; [congruence..|]. naive_solver. Qed.

Lemma knows_keeps r r' begun open : knows r begun open → keeps r r' → knows r' begun ∅.
Proof.
  intros (H1 & H2 & H3) [T S C]. unfold knows. rewrite T. split_and!; [done|set_solver|].
  intros o [?|?]%C; auto.
Qed.

Lemma open_text_step r c fs r' i : renders_to r c → r_started r = true → open_text r = (fs, r', i) →
  ∃ c', accepts c fs = Some c' ∧ renders_to r' c' ∧ (i, BText) ∈ opens r' ∧ keeps r r'.
Proof.
  intros H Hs. unfold open_text. destruct (current_text_index r) as [j|] eqn:E; intros [= <- <- <-].
  - exists c. split_and!; [done|done| |split; auto]. unfold opens. rewrite E. left.
  - destruct (renders_to_start r c (next_content_index r) BText
      (block_start (next_content_index r) (obj [("type", str "text"); ("text", str "")]))
      (with_open r (Some (next_content_index r)) (thinking_index r) (next_content_index r + 1)) H Hs)
      as (c' & Hc & H'); try done; [..|by exists c'; split_and!; [done|done|left|split; auto]].
    + unfold opens. cbn. by rewrite E.
    + apply H.
    + apply H.
Qed.

Lemma thinking_step r c fs r' i : renders_to r c → r_started r = true →
  ensure_thinking_block r = (fs, r', i) →
  ∃ c', accepts c fs = Some c' ∧ renders_to r' c' ∧ (i, BThinking) ∈ opens r' ∧ keeps r r'.
Proof.
  intros H Hs. unfold ensure_thinking_block. destruct (thinking_index r) as [j|] eqn:E.
  { intros [= <- <- <-]. exists c. split_and!; [done|done| |split; auto].
    unfold opens. rewrite E. apply elem_of_app. right. left. }
  destruct (close_open_tools r) as [a r1] eqn:E1. destruct (close_text r1) as [b r2] eqn:E2.
  intros [= <- <- <-].
  destruct (close_open_tools_closes _ _ _ (rt_keys _ _ H) E1) as (C1 & T1 & X1 & D1).
  destruct (close_text_closes _ _ _ E2) as (C2 & X2 & T2 & D2).
  pose proof (closes_trans _ _ _ _ _ C1 C2) as C. pose proof (cl_started _ _ _ C) as Hs2. rewrite Hs in Hs2.
  destruct (renders_to_closes _ _ _ _ H Hs C) as (c1 & Hc1 & H1).
  set (n := next_content_index r2) in *.
  set (f := block_start n (obj [("type", str "thinking"); ("thinking", str ""); ("signature", str "")])).
  destruct (renders_to_start r2 c1 n BThinking f (with_open r2 (current_text_index r2) (Some n) (n + 1)) H1 Hs2)
    as (c' & Hc & H'); try done.
  + unfold opens. cbn. by rewrite X2, T2, T1, E.
  + apply H1.
  + apply H1.
  + exists c'. rewrite app_assoc, (accepts_app _ _ _ _ Hc1). split_and!; [done|done| |].
    * unfold opens. cbn. apply elem_of_app. right. left.
    * split; cbn; [apply C|by rewrite Hs, Hs2|]. intros o. rewrite D2, D1. set_solver.
Qed.

Lemma close_all_closes r fs r' : NoDup (tool_indices r).*1 → close_all r = (fs, r') →
  closes r fs r' ∧ opens r' = [] ∧ tool_index r' = tool_index r.
Proof.
  intros Hd. unfold close_all. destruct (close_thinking r) as [a r1] eqn:E1.
  destruct (close_text r1) as [b r2] eqn:E2. destruct (close_open_tools r2) as [d r3] eqn:E3.
  intros [= <- <-]. destruct (close_thinking_closes _ _ _ E1) as (C1 & T1 & X1 & D1).
  destruct (close_text_closes _ _ _ E2) as (C2 & X2 & T2 & D2).
  assert (Hd2 : NoDup (tool_indices r2).*1) by by rewrite (cl_tools _ _ _ C2), (cl_tools _ _ _ C1).
  destruct (close_open_tools_closes _ _ _ Hd2 E3) as (C3 & T3 & X3 & D3).
  split_and!.
  - eapply closes_trans; [exact C1|]. by eapply closes_trans.
  - unfold opens. rewrite X3, X2, T3, T2, T1. cbn. rewrite filter_nothing; [done|].
    intros [o i] Hin. unfold open_tool. rewrite D3. rewrite (cl_tools _ _ _ C3) in Hin.
    apply (list_elem_of_fmap_2 fst) in Hin. cbn in *. set_solver.
  - revert E1 E2 E3. unfold close_thinking, close_text, close_open_tools.
    destruct (thinking_index r), (close_each _ _); intros [= <- <-]; destruct (current_text_index _);
      intros [= <- <-]; intros [= <- <-]; done.
Qed.

(** ** The renderer's streams are accepted *)

(** The sets of calls after an event. *)
Definition calls_after (begun open : gset Z) (e : CodexEvent) : gset Z * gset Z :=
  match e with
  | ToolCallBegin o _ _ => ({[o]} ∪ begun, {[o]} ∪ open)
  | TextDelta _ | ReasoningDelta _ | ReasoningSignature _ => (begun, ∅)
  | _ => (begun, open)
  end.

Lemma calls_live_cons begun open e es : calls_live begun open (e :: es) →
  calls_live begun open [e] ∧ calls_live (calls_after begun open e).1 (calls_after begun open e).2 es.
Proof. destruct e; cbn; tauto. Qed.

Lemma render_event_step r c e fs r' begun open : renders_to r c → r_started r = true →
  is_terminal e = false → knows r begun open → calls_live begun open [e] → render_event r e = (fs, r') →
  ∃ c', accepts c fs = Some c' ∧ renders_to r' c' ∧ r_started r' = true ∧
        knows r' (calls_after begun open e).1 (calls_after begun open e).2.
Proof.
  intros H Hs He Hk Hl. destruct e as [x|x|x|x| |o ci nm|o x| |u|x]; try done; cbn [render_event].
  - destruct (is_empty x); intros [= <- <-]; exists c; [done|].
    split_and!; [done| |done|done]. destruct H. by split.
  - destruct (close_thinking r) as [a r1] eqn:E1. destruct (close_open_tools r1) as [b r2] eqn:E2.
    destruct (open_text r2) as [[d r3] i] eqn:E3. intros [= <- <-].
    destruct (close_thinking_closes _ _ _ E1) as (C1 & T1 & X1 & D1).
    assert (Hd1 : NoDup (tool_indices r1).*1) by (rewrite (cl_tools _ _ _ C1); apply H).
    destruct (close_open_tools_closes _ _ _ Hd1 E2) as (C2 & T2 & X2 & D2).
    pose proof (closes_trans _ _ _ _ _ C1 C2) as C. pose proof (cl_started _ _ _ C) as Hs2. rewrite Hs in Hs2.
    destruct (renders_to_closes _ _ _ _ H Hs C) as (c1 & Hc1 & H1).
    destruct (open_text_step _ _ _ _ _ H1 Hs2 E3) as (c2 & Hc2 & H2 & Hin & K).
    exists c2. rewrite app_assoc, (accepts_app _ _ _ _ Hc1), (accepts_app _ _ _ _ Hc2).
    assert (Hs3 : r_started r3 = true) by by rewrite (kp_started _ _ K).
    split_and!; [by eapply renders_to_delta|done|done|].
    eapply knows_keeps; [exact Hk|]. eapply keeps_trans; [|exact K].
    split; [apply C|by rewrite Hs|]. intros p. rewrite D2, D1, (cl_tools _ _ _ C1). set_solver.
  - destruct (ensure_thinking_block r) as [[a r1] i] eqn:E1. intros [= <- <-].
    destruct (thinking_step _ _ _ _ _ H Hs E1) as (c1 & Hc1 & H1 & Hin & K).
    exists c1. rewrite (accepts_app _ _ _ _ Hc1). assert (Hs1 : r_started r1 = true) by by rewrite (kp_started _ _ K).
    split_and!; [by eapply renders_to_delta|done|done|by eapply knows_keeps].
  - destruct (ensure_thinking_block r) as [[a r1] i] eqn:E1. intros [= <- <-].
    destruct (thinking_step _ _ _ _ _ H Hs E1) as (c1 & Hc1 & H1 & Hin & K).
    exists c1. rewrite (accepts_app _ _ _ _ Hc1). assert (Hs1 : r_started r1 = true) by by rewrite (kp_started _ _ K).
    split_and!; [by eapply renders_to_delta|done|done|by eapply knows_keeps].
  - intros [= <- <-]. by exists c.
  - destruct (close_thinking r) as [a r1] eqn:E1. destruct (close_text r1) as [b r2] eqn:E2.
    intros [= <- <-]. destruct (close_thinking_closes _ _ _ E1) as (C1 & T1 & X1 & D1).
    destruct (close_text_closes _ _ _ E2) as (C2 & X2 & T2 & D2).
    pose proof (closes_trans _ _ _ _ _ C1 C2) as C. pose proof (cl_started _ _ _ C) as Hs2. rewrite Hs in Hs2.
    destruct (renders_to_closes _ _ _ _ H Hs C) as (c1 & Hc1 & H1).
    destruct Hk as (K1 & K2 & K3). destruct Hl as [Hn _]. rewrite K1 in Hn.
    pose proof (cl_tools _ _ _ C) as Ht. rewrite <- Ht in Hn.
    pose proof (index_insert_new o (next_content_index r2) _ Hn) as Hi.
    assert (Ho : o ∉ closed_tools r2) by (rewrite D2, D1; intros Hin; apply K3 in Hin; by rewrite Ht in Hn).
    set (n := next_content_index r2) in *.
    set (f := block_start n (obj [("type", str "tool_use"); ("id", str ci); ("name", str nm); ("input", obj [])])).
    destruct (renders_to_start r2 c1 n BTool f
      (with_tools r2 (tool_index r2 + 1) (n + 1) (index_insert o n (tool_indices r2)) (closed_tools r2)) H1 Hs2)
      as (c' & Hc & H'); try done.
    + unfold opens. cbn. rewrite (filter_Permutation (open_tool _) _ _ Hi).
      rewrite filter_cons_True by done. rewrite X2. cbn. destruct (thinking_index r2); cbn; [|done]. apply perm_swap.
    + apply H1.
    + cbn. rewrite Hi. cbn. apply NoDup_cons. split; [done|apply H1].
    + exists c'. rewrite app_assoc, (accepts_app _ _ _ _ Hc1). split_and!; [done|done|done|].
      assert (Hi1 : ∀ p, p ∈ (index_insert o n (tool_indices r2)).*1 ↔ p = o ∨ p ∈ (tool_indices r).*1).
      { intros p. rewrite Hi, Ht. cbn. apply elem_of_cons. }
      unfold knows. cbn. setoid_rewrite Hi1. split_and!; [set_solver|..].
      * intros p [->%elem_of_singleton|Hp]%elem_of_union; [by split; [left|]|].
        destruct (K2 p Hp). rewrite D2, D1. split; [by right|done].
      * intros p. rewrite D2, D1. intros Hp. right. by apply K3.
  - destruct Hk as (K1 & K2 & K3). destruct Hl as [Ho _]. destruct (K2 o Ho) as [Hin Hn].
    destruct (index_get_elem _ _ Hin) as (i & Hi & Hm). rewrite Hi. cbn [default]. intros [= <- <-].
    exists c. split_and!; [|done|done|done]. eapply (renders_to_delta r c i BTool); [done|done| |reflexivity|reflexivity].
    unfold opens. rewrite !elem_of_app. right. right. apply list_elem_of_fmap. exists (o, i). split; [done|].
    by apply list_elem_of_filter.
  - intros [= <- <-]. exists c. split_and!; [done| |done|done]. destruct H. by split.
Qed.

Lemma ensure_started_step r c fs r' : renders_to r c → ensure_started r = (fs, r') →
  ∃ c', accepts c fs = Some c' ∧ renders_to r' c' ∧ r_started r' = true ∧ ∀ b o, knows r b o → knows r' b o.
Proof.
  intros H. unfold ensure_started. destruct (r_started r) eqn:E; intros [= <- <-]; [by exists c|].
  exists (to_phase c Streaming). split_and!; try done.
  - destruct H. rewrite E in rt_phase0. cbn [accepts].
    assert (∀ m, accept c (frame "message_start" [("message", m)]) = (_ ← at_phase Waiting c; Some (to_phase c Streaming))) as -> by reflexivity.
    unfold at_phase. by rewrite rt_phase0.
  - destruct H. by split.
Qed.

Lemma renders_step es : ∀ r c fs r' begun open, renders_to r c → Forall (λ e, is_terminal e = false) es →
  knows r begun open → calls_live begun open es → renders r es = (fs, r') →
  ∃ c', accepts c fs = Some c' ∧ renders_to r' c'.
Proof.
  induction es as [|e es IH]; intros r c fs r' begun open H Hes Hk Hl; cbn [renders].
  { intros [= <- <-]. by exists c. }
  apply list.Forall_cons in Hes as [He Hes]. apply calls_live_cons in Hl as [Hl1 Hl].
  unfold render. rewrite (rt_live _ _ H).
  destruct (ensure_started r) as [a r1] eqn:E1. destruct (render_event r1 e) as [b r2] eqn:E2.
  destruct (renders r2 es) as [d r3] eqn:E3. intros [= <- <-].
  destruct (ensure_started_step _ _ _ _ H E1) as (c1 & Hc1 & H1 & Hs1 & K1).
  destruct (render_event_step _ _ _ _ _ _ _ H1 Hs1 He (K1 _ _ Hk) Hl1 E2) as (c2 & Hc2 & H2 & Hs2 & K2).
  destruct (IH _ _ _ _ _ _ H2 Hes K2 Hl E3) as (c3 & Hc3 & H3).
  exists c3. by rewrite <- app_assoc, (accepts_app _ _ _ _ Hc1), (accepts_app _ _ _ _ Hc2).
Qed.

Lemma messages_renders_app es fs r : renders r (es ++ fs) =
  let '(o, r1) := renders r es in let '(o', r2) := renders r1 fs in (o ++ o', r2).
Proof.
  revert r. induction es as [|e es IH]; intros r; cbn; [by destruct (renders r fs)|].
  destruct (render r e) as [o r1]. rewrite IH. destruct (renders r1 es) as [o1 r2].
  destruct (renders r2 fs) as [o2 r3]. by rewrite app_assoc.
Qed.

(** The last event, on a live renderer. *)
Lemma render_last r c last fs r' : renders_to r c → is_terminal last = true → render r last = (fs, r') →
  ∃ c', accepts c fs = Some c' ∧ phase c' = Closed ∧ blocks c' = ∅ ∧ r_terminated r' = true.
Proof.
  intros H Hl. unfold render. rewrite (rt_live _ _ H). destruct (ensure_started r) as [a r1] eqn:E1.
  destruct (ensure_started_step _ _ _ _ H E1) as (c1 & Hc1 & H1 & Hs1 & _).
  destruct (close_all r1) as [b r2] eqn:E2.
  destruct (close_all_closes _ _ _ (rt_keys _ _ H1) E2) as (C & O & _).
  destruct (renders_to_closes _ _ _ _ H1 Hs1 C) as (c2 & Hc2 & H2).
  pose proof (cl_started _ _ _ C) as Hs2. rewrite Hs1 in Hs2.
  destruct H2 as [? Hp ? Hb ? ? ?]. rewrite Hs2 in Hp. rewrite O in Hb. cbn in Hb.
  intros Er. exists (to_phase c2 Closed). revert Er.
  destruct last as [| | | | | | | |u|x]; try done; unfold render_event; rewrite E2; intros [= <- <-];
    rewrite (accepts_app _ _ _ _ Hc1), (accepts_app _ _ _ _ Hc2); (split; [|done]); cbn [accepts].
  - assert (∀ d u, accept c2 (frame "message_delta" [("delta", d); ("usage", u)]) =
      (_ ← at_phase Streaming c2; _ ← settled c2; Some (to_phase c2 Closing))) as -> by reflexivity.
    unfold at_phase, settled. rewrite Hp, Hb. reflexivity.
  - assert (∀ d, accept c2 (frame "error" [("error", d)]) =
      (_ ← at_phase Streaming c2; _ ← settled c2; Some (to_phase c2 Closed))) as -> by reflexivity.
    unfold at_phase, settled. rewrite Hp, Hb. reflexivity.
Qed.

(** C31: What a client of the Messages surface receives is a well-formed Messages stream.  For
    the events of a response in which every call index begins at most once and tool arguments
    come only while their call is open (text, reasoning and signatures close the calls before
    them), followed by the event that ends it - the side condition [calls_live] - the stream
    starts with [message_start]; blocks start at indices 0, 1, 2, ...; every delta goes to an
    open block of its kind; every block is stopped exactly once; the stream ends with
    [message_delta] and [message_stop], or with [error], when no block is open; and after it
    the renderer sends nothing.  (Neither condition can be dropped: [repeated_call_unstopped]
    and [stray_arguments_refused].) *)
Theorem messages_stream_wellformed (m : string) (t : Z) (es : list CodexEvent) (last : CodexEvent)
  (Hes : Forall (λ e, is_terminal e = false) es) (Hlast : is_terminal last = true)
  (Hcalls : calls_live ∅ ∅ es) :
  let run := renders (new_renderer m t) (es ++ [last]) in
  (∃ c, accepts fresh_client run.1 = Some c ∧ phase c = Closed ∧ blocks c = ∅) ∧
  ∀ more, renders run.2 more = ([], run.2).
Proof.
  cbv zeta. rewrite messages_renders_app. destruct (renders (new_renderer m t) es) as [o1 r1] eqn:E1.
  assert (Hk : knows (new_renderer m t) ∅ ∅) by (split_and!; set_solver).
  destruct (renders_step _ _ _ _ _ _ _ (renders_to_new m t) Hes Hk Hcalls E1) as (c1 & Hc1 & H1).
  cbn [renders]. destruct (render r1 last) as [o2 r2] eqn:E2. rewrite app_nil_r.
  destruct (render_last _ _ _ _ _ H1 Hlast E2) as (c2 & Hc2 & Hp & Hb & Ht).
  cbn [fst snd]. split.
  - exists c2. by rewrite (accepts_app _ _ _ _ Hc1).
  - induction more as [|e more IH]; [done|]. cbn [renders]. unfold render at 1. rewrite Ht. by rewrite IH.
Qed.

Module MessagesDemo.
Definition events : list CodexEvent :=
  [Created "r"; ReasoningDelta "hm"; ReasoningSignature "s"; TextDelta "hi"; ToolCallBegin 3 "c1" "f";
   ToolCallBegin 1 "c2" "g"; ToolArgsDelta 3 "{}"; ToolArgsDelta 1 "{}"; TextDelta "bye"].

Lemma messages_wellformed_witness :
  ∃ c, accepts fresh_client (renders (new_renderer "m" 7) (events ++ [Completed None])).1 = Some c ∧
       phase c = Closed ∧ blocks c = ∅.
Proof.
  refine (proj1 (messages_stream_wellformed "m" 7 events (Completed None) _ eq_refl _)).
  - repeat (constructor; [reflexivity|]). constructor.
  - cbn. split_and!; set_solver.
Defined.

(** The upstream's response id comes after [message_start] was sent with another. *)
Example created_id_unsent :
  (renders (new_renderer "m" 7) [Created "resp_1"]).1 = (ensure_started (new_renderer "m" 7)).1 ∧
  r_id (renders (new_renderer "m" 7) [Created "resp_1"]).2 = "resp_1".
Proof. vm_compute. split; reflexivity. Qed.

(** A call index that begins twice leaves its first block open at the end. *)
Example repeated_call_unstopped :
  let out := (renders (new_renderer "m" 7)
                [ToolCallBegin 0 "a" "f"; ToolCallBegin 0 "b" "g"; Completed None]).1 in
  event_name <$> out = ["message_start"; "content_block_start"; "content_block_start";
                        "content_block_stop"; "message_delta"; "message_stop"] ∧
  accepts fresh_client out = None.
Proof. vm_compute. split; reflexivity. Qed.

(** Arguments of a call that did not begin go to block 1, which need not exist. *)
Example stray_arguments_refused :
  accepts fresh_client (renders (new_renderer "m" 7) [TextDelta "hi"; ToolArgsDelta 5 "{}"]).1 = None.
Proof. vm_compute. reflexivity. Qed.
End MessagesDemo.
