(* ===== verification/ClaudeDecode.v ===== *)
(** * A Messages stream decodes to the response it was rendered from

    Rendering events as Messages frames and decoding the payloads ([ClaudeStream]) gives the
    same answer as the events. *)

From stdpp Require Import base numbers strings list gmap.
From S2P Require Import Prelude RustStr Json Sse SseProps Render RenderProps ResponsesDecode Wire ClaudeStream ClaudeStreamProps.
Import RustStr Json JsonMake Sse Render Wire ClaudeStream.
Open Scope Z_scope.

Section decode.
Context (parse_json : string → option Value).
Abbreviation decode_value := (ClaudeStream.decode_value parse_json).

Fixpoint decode_all (d : AnthropicDecoder) (fs : list Frame) : list CodexEvent * AnthropicDecoder :=
  match fs with
  | [] => ([], d)
  | f :: fs =>
      let '(es, d) := decode_value d (payload f) in
      let '(es', d) := decode_all d fs in (es ++ es', d)
  end.

Lemma decode_all_app fs gs d : decode_all d (fs ++ gs) =
  let '(es, d1) := decode_all d fs in let '(es', d2) := decode_all d1 gs in (es ++ es', d2).
Proof.
  revert d. induction fs as [|f fs IH]; intros d; cbn; [by destruct (decode_all d gs)|].
  destruct (decode_value d (payload f)) as [es d1]. rewrite IH. destruct (decode_all d1 fs) as [es1 d2].
  destruct (decode_all d2 gs) as [es2 d3]. by rewrite app_assoc.
Qed.

(** ** What each frame decodes to *)

Ltac live d H := destruct d; cbn in H; subst; reflexivity.

Section live.
Context (d : AnthropicDecoder) (Hd : terminated d = false).

Lemma decode_stop i : decode_value d (payload (block_stop i)) = ([], d).
Proof. live d Hd. Qed.

Lemma decode_text_start i : decode_value d (payload (block_start i (obj [("type", str "text"); ("text", str "")]))) = ([], d).
Proof. live d Hd. Qed.

Lemma decode_thinking_start i :
  decode_value d (payload (block_start i (obj [("type", str "thinking"); ("thinking", str ""); ("signature", str "")]))) = ([], d).
Proof. live d Hd. Qed.

Lemma decode_block_text i x :
  decode_value d (payload (block_delta i (obj [("type", str "text_delta"); ("text", str x)])))
  = ([TextDelta x], if is_empty (trim x) then d else with_counts d (counts d) (count (diagnostics d) 1 0 0)).
Proof. live d Hd. Qed.

Lemma decode_thinking_delta i x :
  decode_value d (payload (block_delta i (obj [("type", str "thinking_delta"); ("thinking", str x)])))
  = ([ReasoningDelta x], with_counts d (counts d) (count (diagnostics d) 0 1 0)).
Proof. live d Hd. Qed.

Lemma decode_signature_delta i x :
  decode_value d (payload (block_delta i (obj [("type", str "signature_delta"); ("signature", str x)])))
  = ([ReasoningSignature x], d).
Proof. live d Hd. Qed.

Lemma decode_tool_start i ci nm :
  decode_value d (payload (block_start i (obj [("type", str "tool_use"); ("id", str ci); ("name", str nm); ("input", obj [])])))
  = ([ToolCallBegin (next_tool_index d) ci (strip_custom_prefix nm)],
     with_blocks d (next_tool_index d + 1) (<[i := next_tool_index d]> (tool_blocks d)) (server_blocks d)
       (count (diagnostics d) 0 0 1)).
Proof. live d Hd. Qed.

Lemma decode_args_delta i x :
  decode_value d (payload (block_delta i (obj [("type", str "input_json_delta"); ("partial_json", str x)])))
  = decode_args d (payload (block_delta i (obj [("type", str "input_json_delta"); ("partial_json", str x)]))) x.
Proof. live d Hd. Qed.

Lemma decode_args_known i x n : server_blocks d = [] → tool_blocks d !! i = Some n →
  decode_value d (payload (block_delta i (obj [("type", str "input_json_delta"); ("partial_json", str x)])))
  = ([ToolArgsDelta n x], d).
Proof.
  intros Hs Ht. rewrite decode_args_delta. unfold decode_args.
  change (u64_at "index" _) with (Some i). cbn [mbind option_bind]. rewrite Hs. cbn. by rewrite Ht.
Qed.

Definition end_frames (stop : string) (p c : Z) : list Frame :=
  [frame "message_delta" [("delta", obj [("stop_reason", str stop); ("stop_sequence", nul)]);
                          ("usage", obj [("input_tokens", uint p); ("output_tokens", uint c)])];
   frame "message_stop" []].

(** The usage of a message without cache counts. *)
Definition plain_usage (p c : Z) : Usage :=
  {| prompt_tokens := p; completion_tokens := c; total_tokens := wrapping_add_u64 p c;
     cached_tokens := 0; cached_tokens_known := false; reasoning_tokens := 0;
     Sse.cache_write_tokens := 0; Sse.cache_write_tokens_known := false |}.

Lemma decode_ends stop p c : counts d = no_counts →
  (decode_all d (end_frames stop p c)).1
  = (if bool_decide (Some stop = Some "max_tokens") then [OutputLimitReached] else [])
    ++ [Completed (Some (plain_usage p c))].
Proof. intros Hc. destruct d as [s t cs n tb sb g]. cbn in Hd, Hc. subst. reflexivity. Qed.

Lemma decode_error msg :
  decode_all d [frame "error" [("error", obj [("type", str "api_error"); ("message", str msg)])]]
  = ([Failed msg], with_ended d (started d)).
Proof. live d Hd. Qed.
End live.

Lemma decode_stops (l : list Z) d : terminated d = false → decode_all d (block_stop <$> l) = ([], d).
Proof.
  intros Hd. induction l as [|i l IH]; [done|]. rewrite fmap_cons. cbn [decode_all].
  by rewrite decode_stop, IH by done.
Qed.

Lemma decode_closes r fs r' d : closes r fs r' → terminated d = false → decode_all d fs = ([], d).
Proof. intros [(l & -> & _) _ _ _ _ _] Hd. by apply decode_stops. Qed.

Lemma decode_silent fs gs d : decode_all d fs = ([], d) → decode_all d (fs ++ gs) = decode_all d gs.
Proof. intros H. rewrite decode_all_app, H. by destruct (decode_all d gs). Qed.

(** ** The renderer between the aggregators of what it read and of what it sent *)

Record carried (r : AnthropicStreamRenderer) (d : AnthropicDecoder) (a a' : Aggregator) : Prop := {
  ca_live : r_terminated r = false;
  ca_open : terminated d = false;
  ca_counts : counts d = no_counts;
  ca_server : server_blocks d = [];
  ca_keys : NoDup (tool_indices r).*1;
  ca_text : text a' = text a;
  ca_reasoning : reasoning a' = reasoning a;
  ca_signature : Render.reasoning_signature a' = Render.reasoning_signature a;
  ca_calls : calls (Render.tools a') = calls (Render.tools a);
  ca_sent : output_index <$> Render.tools a' = seqZ 0 (Z.of_nat (length (Render.tools a)));
  ca_next : next_tool_index d = Z.of_nat (length (Render.tools a));
  ca_distinct : NoDup (output_index <$> Render.tools a);
  ca_known : ∀ o, o ∈ (tool_indices r).*1 ↔ o ∈ (output_index <$> Render.tools a);
  ca_blocks : ∀ p o, (output_index <$> Render.tools a) !! p = Some o →
    ∃ i, (o, i) ∈ tool_indices r ∧ i < next_content_index r ∧ tool_blocks d !! i = Some (Z.of_nat p);
  ca_limit : ag_limit a = r_limit r ∧ ag_limit a' = false;
  ca_fresh : r_started r = false → Render.tools a = [];
  ca_failure : ag_failure a = None ∧ ag_failure a' = None;
}.

Lemma carried_new m t mm cc : carried (new_renderer m t) new_decoder (ag_new mm cc) (ag_new mm cc).
Proof. split; try done; try constructor; set_solver. Qed.

(** Steps the aggregators do not see. *)
Lemma carried_same r r' d d' a a' b b' : carried r d a a' →
  r_terminated r' = false → terminated d' = false → counts d' = no_counts →
  server_blocks d' = server_blocks d → next_tool_index d' = next_tool_index d → tool_blocks d' = tool_blocks d →
  tool_indices r' = tool_indices r → r_limit r' = r_limit r → (r_started r' = false → r_started r = false) → next_content_index r ≤ next_content_index r' →
  text b = text a → text b' = text a' → reasoning b = reasoning a → reasoning b' = reasoning a' →
  Render.reasoning_signature b = Render.reasoning_signature a → Render.reasoning_signature b' = Render.reasoning_signature a' →
  Render.tools b = Render.tools a → Render.tools b' = Render.tools a' →
  ag_limit b = ag_limit a → ag_limit b' = ag_limit a' → ag_failure b = ag_failure a → ag_failure b' = ag_failure a' →
  carried r' d' b b'.
Proof.
  intros [] ? ? ? ? ? ? Ht ? ? ? ? ? ? ? ? ? T T' ? ? ? ?. split; rewrite ?Ht, ?T, ?T'; try congruence; try done.
  - intros p o Hp. destruct (ca_blocks0 p o Hp) as (i & ? & ? & ?). exists i. split_and!; [done|lia|congruence].
  - auto.
Qed.

Lemma carried_push r d a a' e : carried r d a a' →
  match e with TextDelta _ | ReasoningDelta _ | ReasoningSignature _ => True | _ => False end →
  carried r d (ag_push a e) (ag_push a' e).
Proof. intros [] He. destruct a, a', e; try done; cbn in *; split; cbn; try congruence; done. Qed.

Lemma seqZ_last n : seqZ 0 (Z.of_nat (S n)) = seqZ 0 (Z.of_nat n) ++ [Z.of_nat n].
Proof. by rewrite seqZ_S. Qed.

Lemma carried_begin r d a a' o ci nm i g : carried r d a a' → (o ∉ (output_index <$> Render.tools a)) →
  r_started r = true → i = next_content_index r →
  carried (with_tools r (tool_index r + 1) (i + 1) (ClaudeStream.index_insert o i (tool_indices r)) (closed_tools r))
    (with_blocks d (next_tool_index d + 1) (<[i := next_tool_index d]> (tool_blocks d)) (server_blocks d) g)
    (ag_push a (ToolCallBegin o ci nm)) (ag_push a' (ToolCallBegin (next_tool_index d) ci nm)).
Proof.
  intros [] Ho Hs ->. rewrite <- ca_known0 in Ho. pose proof (index_insert_new o (next_content_index r) _ Ho) as Hi.
  destruct a as [i1 m1 c1 t1 g1 n1 s1 ts1 u1 f1 l1], a' as [i2 m2 c2 t2 g2 n2 s2 ts2 u2 f2 l2]. cbn in *.
  split; cbn; try done.
  - rewrite Hi. cbn. by apply NoDup_cons.
  - unfold calls in *. by rewrite !fmap_app, ca_calls0.
  - rewrite fmap_app, ca_sent0, length_app, ca_next0. cbn. by rewrite Nat.add_1_r, seqZ_last.
  - rewrite length_app, ca_next0. cbn. lia.
  - rewrite fmap_app. apply NoDup_app. split_and!; [done| |apply NoDup_singleton].
    intros y Hy Hn. apply list_elem_of_singleton in Hn as ->. apply ca_known0 in Hy. done.
  - intros p. rewrite Hi, fmap_app. cbn. rewrite elem_of_cons, elem_of_app, list_elem_of_singleton, ca_known0. cbn. tauto.
  - intros p q. rewrite fmap_app, lookup_app_Some. intros [Hp|[Hl Hp]].
    + destruct (ca_blocks0 p q Hp) as (j & Hj & Hlt & Hb). exists j. rewrite Hi, lookup_insert_ne by lia.
      split_and!; [by right|lia|done].
    + apply list_lookup_singleton_Some in Hp as [Hp <-]. rewrite length_fmap in *. exists (next_content_index r).
      rewrite Hi, lookup_insert_eq. split_and!; [left|lia|]. rewrite ca_next0. f_equal. lia.
  - intros Hf. congruence.
Qed.

Lemma index_get_unique o i m : NoDup m.*1 → (o, i) ∈ m → index_get o m = Some i.
Proof.
  induction m as [|[j w] m IH]; cbn; intros Hd Hin; [by apply not_elem_of_nil in Hin|].
  apply NoDup_cons in Hd as [Hj Hd]. unfold index_get. cbn. apply elem_of_cons in Hin as [[= -> ->]|Hin].
  - by rewrite Z.eqb_refl.
  - destruct (Z.eqb_spec j o) as [->|]; [|by apply IH].
    exfalso. apply Hj. by apply (list_elem_of_fmap_2 fst _ (o, i)).
Qed.

Lemma carried_args r d a a' o x : carried r d a a' → o ∈ (output_index <$> Render.tools a) →
  ∃ i n, index_get o (tool_indices r) = Some i ∧ tool_blocks d !! i = Some n ∧
    carried r d (ag_push a (ToolArgsDelta o x)) (ag_push a' (ToolArgsDelta n x)).
Proof.
  intros H Ho. destruct (position_elem o _ Ho) as [p Hp]. pose proof Hp as Hpo.
  apply position_Some in Hpo as (o' & Ho' & E & _). apply Z.eqb_eq in E as ->.
  destruct (ca_blocks _ _ _ _ H p o Ho') as (i & Hi & _ & Hb).
  exists i, (Z.of_nat p). split_and!; [apply index_get_unique; [apply H|done]|done|].
  assert (Hlt : (p < length (Render.tools a))%nat).
  { apply lookup_lt_Some in Ho'. by rewrite length_fmap in Ho'. }
  assert (Hq : position (λ j, j =? Z.of_nat p) (output_index <$> Render.tools a') = Some p).
  { rewrite (ca_sent _ _ _ _ H). apply position_NoDup; [apply NoDup_seqZ|]. apply lookup_seqZ. lia. }
  destruct (update_tool_position _ (Render.add_args x) _ _ Hp) as (ta & Hta & Hua).
  destruct (update_tool_position _ (Render.add_args x) _ _ Hq) as (tb & Htb & Hub).
  assert (Ec : (call_id tb, name tb, arguments tb) = (call_id ta, name ta, arguments ta)).
  { pose proof (f_equal (.!! p) (ca_calls _ _ _ _ H)) as E. unfold calls in E. cbn in E.
    rewrite !list_lookup_fmap, Hta, Htb in E. cbn in E. congruence. }
  assert (Ho1 : output_index <$> <[p := add_args x ta]> (Render.tools a) = output_index <$> Render.tools a).
  { rewrite list_fmap_insert. cbn. apply list_insert_id. by rewrite list_lookup_fmap, Hta. }
  assert (Ho2 : output_index <$> <[p := add_args x tb]> (Render.tools a') = output_index <$> Render.tools a').
  { rewrite list_fmap_insert. cbn. apply list_insert_id. by rewrite list_lookup_fmap, Htb. }
  destruct H, a as [i1 m1 c1 t1 g1 n1 s1 ts1 u1 f1 l1], a' as [i2 m2 c2 t2 g2 n2 s2 ts2 u2 f2 l2]. cbn in *.
  split; cbn; rewrite ?Hua, ?Hub; cbn; rewrite ?Ho1, ?Ho2, ?length_insert; try done.
  - unfold calls in *. rewrite !list_fmap_insert, ca_calls0. f_equal. cbn. congruence.
  - intros Hs. rewrite ca_fresh0 in Hta by done. done.
Qed.

Lemma carried_closes r fs r' d a a' : carried r d a a' → closes r fs r' → carried r' d a a'.
Proof.
  intros H C. eapply carried_same; try exact H; try done; try apply C; try apply H.
  - rewrite (cl_live _ _ _ C). apply H.
  - by rewrite (cl_started _ _ _ C).
  - by rewrite (cl_next _ _ _ C).
Qed.

(** Opening a block of text or thinking. *)
Lemma carried_open r d a a' t th n : carried r d a a' → next_content_index r ≤ n → carried (with_open r t th n) d a a'.
Proof. intros H Hn. eapply carried_same; try exact H; try done; apply H. Qed.

Lemma carried_diag r d a a' g : carried r d a a' → carried r (with_counts d (counts d) g) a a'.
Proof. intros H. eapply carried_same; try exact H; try done; apply H. Qed.

Lemma started_step r d a a' fs r' : carried r d a a' → ensure_started r = (fs, r') →
  ∃ d', (decode_all d fs).2 = d' ∧ carried r' d' a (foldl ag_push a' (decode_all d fs).1) ∧
        r_started r' = true.
Proof.
  intros H. unfold ensure_started. destruct (r_started r) eqn:E; intros [= <- <-]; cbn [decode_all].
  { by exists d. }
  set (v := payload _). assert (Ev : decode_value d v = decode_message_start v).
  { destruct d as [s t cs n tb sb g]. pose proof (ca_open _ _ _ _ H) as Hd. cbn in Hd. subst. reflexivity. }
  rewrite Ev. unfold decode_message_start. cbn [fst snd app foldl]. eexists. split; [done|]. split; [|done].
  pose proof (ca_fresh _ _ _ _ H E) as Hf.
  destruct H, a as [i1 m1 c1 t1 g1 n1 s1 ts1 u1 f1 l1], a' as [i2 m2 c2 t2 g2 n2 s2 ts2 u2 f2 l2]. cbn in *.
  rewrite Hf in *. split; cbn; try done.
Qed.

Lemma thinking_carried r d a a' fs r' i : carried r d a a' → r_started r = true →
  ensure_thinking_block r = (fs, r', i) → carried r' d a a' ∧ decode_all d fs = ([], d) ∧ r_started r' = true.
Proof.
  intros H Hs. pose proof (ca_open _ _ _ _ H) as Hd. unfold ensure_thinking_block.
  destruct (thinking_index r) as [j|]; [by intros [= <- <- <-]|].
  destruct (close_open_tools r) as [c1 r1] eqn:E1. destruct (close_text r1) as [c2 r2] eqn:E2. intros [= <- <- <-].
  destruct (close_open_tools_closes _ _ _ (ca_keys _ _ _ _ H) E1) as (C1 & _).
  destruct (close_text_closes _ _ _ E2) as (C2 & _).
  pose proof (carried_closes _ _ _ _ _ _ (carried_closes _ _ _ _ _ _ H C1) C2) as H2.
  rewrite (decode_silent _ _ _ (decode_closes _ _ _ _ C1 Hd)), (decode_silent _ _ _ (decode_closes _ _ _ _ C2 Hd)). cbn [decode_all].
  rewrite decode_thinking_start by done. split_and!; [apply carried_open; [done|lia]|done|].
  cbn. by rewrite (cl_started _ _ _ C2), (cl_started _ _ _ C1).
Qed.

(** The events of a response a Messages client understands: calls that begin once, arguments
    of calls that began, and names without the prefix of imported tools. *)
Definition plain_name (e : CodexEvent) : bool :=
  match e with ToolCallBegin _ _ nm => bool_decide (strip_custom_prefix nm = nm) | _ => true end.

Lemma carried_step r d a a' e fs r' : carried r d a a' → r_started r = true → is_terminal e = false →
  tools_ok (output_index <$> Render.tools a) [e] → plain_name e = true → render_event r e = (fs, r') →
  let run := decode_all d fs in
  carried r' run.2 (ag_push a e) (foldl ag_push a' run.1) ∧ r_started r' = true ∧
  output_index <$> Render.tools (ag_push a e) = match e with
                                                | ToolCallBegin i _ _ => (output_index <$> Render.tools a) ++ [i]
                                                | _ => output_index <$> Render.tools a
                                                end.
Proof.
  intros H Hs He Hok Hn. cbv zeta. pose proof (ca_open _ _ _ _ H) as Hd.
  destruct e as [x|x|x|x| |o ci nm|o x| |u|x]; try done; cbn [render_event].
  - intros [= <- <-]. split_and!; [|by destruct (is_empty x)|by destruct a].
    cbn. eapply carried_same; try exact H; try done; try apply H; try (by destruct a).
    all: destruct (is_empty x); try done; apply H.
  - destruct (close_thinking r) as [c1 r1] eqn:E1. destruct (close_open_tools r1) as [c2 r2] eqn:E2.
    destruct (open_text r2) as [[c3 r3] i] eqn:E3. intros [= <- <-].
    destruct (close_thinking_closes _ _ _ E1) as (C1 & _).
    pose proof (carried_closes _ _ _ _ _ _ H C1) as H1.
    destruct (close_open_tools_closes _ _ _ (ca_keys _ _ _ _ H1) E2) as (C2 & _).
    pose proof (carried_closes _ _ _ _ _ _ H1 C2) as H2.
    rewrite (decode_silent _ _ _ (decode_closes _ _ _ _ C1 Hd)), (decode_silent _ _ _ (decode_closes _ _ _ _ C2 Hd)).
    assert (H3 : carried r3 d a a' ∧ decode_all d c3 = ([], d) ∧ r_started r3 = true).
    { assert (Hs2 : r_started r2 = true) by by rewrite (cl_started _ _ _ C2), (cl_started _ _ _ C1).
      revert E3. unfold open_text. destruct (current_text_index r2); intros [= <- <- <-]; [done|].
      split_and!; [apply carried_open; [done|lia]| |done]. cbn [decode_all]. by rewrite decode_text_start. }
    destruct H3 as (H3 & D3 & Hs3). rewrite (decode_silent _ _ _ D3). cbn [decode_all]. rewrite decode_block_text by done. cbn [app fst snd foldl].
    split_and!; [|done|by destruct a]. apply carried_push; [|done].
    destruct (is_empty (trim x)); [done|by apply carried_diag].
  - destruct (ensure_thinking_block r) as [[c1 r1] i] eqn:E1. intros [= <- <-].
    destruct (thinking_carried _ _ _ _ _ _ _ H Hs E1) as (H1 & D1 & Hs1). rewrite (decode_silent _ _ _ D1). cbn [decode_all].
    rewrite decode_thinking_delta by done. cbn [app fst snd foldl]. split_and!; [|done|by destruct a].
    apply carried_push; [by apply carried_diag|done].
  - destruct (ensure_thinking_block r) as [[c1 r1] i] eqn:E1. intros [= <- <-].
    destruct (thinking_carried _ _ _ _ _ _ _ H Hs E1) as (H1 & D1 & Hs1). rewrite (decode_silent _ _ _ D1). cbn [decode_all].
    rewrite decode_signature_delta by done. cbn [app fst snd foldl]. split_and!; [|done|by destruct a].
    by apply carried_push.
  - intros [= <- <-]. cbn. split_and!; [|done|by destruct a].
    eapply carried_same; try exact H; try done; try apply H; by destruct a.
  - destruct (close_thinking r) as [c1 r1] eqn:E1. destruct (close_text r1) as [c2 r2] eqn:E2.
    intros [= <- <-]. destruct (close_thinking_closes _ _ _ E1) as (C1 & _).
    destruct (close_text_closes _ _ _ E2) as (C2 & _).
    pose proof (carried_closes _ _ _ _ _ _ (carried_closes _ _ _ _ _ _ H C1) C2) as H2.
    rewrite (decode_silent _ _ _ (decode_closes _ _ _ _ C1 Hd)), (decode_silent _ _ _ (decode_closes _ _ _ _ C2 Hd)). cbn [decode_all].
    rewrite decode_tool_start by done. cbn [app fst snd foldl].
    unfold plain_name in Hn. apply bool_decide_eq_true in Hn. rewrite Hn.
    assert (Hs2 : r_started r2 = true) by by rewrite (cl_started _ _ _ C2), (cl_started _ _ _ C1).
    destruct Hok as [Hok _]. split_and!; [by apply carried_begin|done|]. destruct a. cbn. by rewrite fmap_app.
  - intros [= <- <-]. destruct Hok as [Hok _]. destruct (carried_args _ _ _ _ o x H Hok) as (i & n & Hi & Hb & H1).
    rewrite Hi. cbn [default decode_all]. rewrite (decode_args_known _ Hd _ _ n) by (done || apply H).
    cbn [app fst snd foldl]. split_and!; [done|done|].
    destruct (position_elem o _ Hok) as [p Hp]. destruct (update_tool_position _ (Render.add_args x) _ _ Hp) as (ta & Hta & Hua).
    destruct a. cbn in *. rewrite Hua. cbn. rewrite list_fmap_insert. cbn. apply list_insert_id. by rewrite list_lookup_fmap, Hta.
  - intros [= <- <-]. cbn. split_and!; [|done|by destruct a].
    destruct H as [? ? ? ? ? ? ? ? ? ? ? ? ? ? [L La] ? ?]. destruct a. cbn in *. by split.
Qed.

Lemma carried_render r d a a' e fs r' : carried r d a a' → is_terminal e = false →
  tools_ok (output_index <$> Render.tools a) [e] → plain_name e = true → ClaudeStream.render r e = (fs, r') →
  let run := decode_all d fs in
  carried r' run.2 (ag_push a e) (foldl ag_push a' run.1) ∧
  output_index <$> Render.tools (ag_push a e) = match e with
                                                | ToolCallBegin i _ _ => (output_index <$> Render.tools a) ++ [i]
                                                | _ => output_index <$> Render.tools a
                                                end.
Proof.
  intros H He Hok Hn. cbv zeta. unfold ClaudeStream.render. rewrite (ca_live _ _ _ _ H).
  destruct (ensure_started r) as [b r1] eqn:E1. destruct (render_event r1 e) as [c r2] eqn:E2. intros [= <- <-].
  destruct (started_step _ _ _ _ _ _ H E1) as (d1 & Hd1 & H1 & Hs1).
  destruct (carried_step _ _ _ _ _ _ _ H1 Hs1 He Hok Hn E2) as (H2 & _ & Ho).
  rewrite decode_all_app. destruct (decode_all d b) as [es1 d1']. cbn [fst snd] in *. subst d1'.
  destruct (decode_all d1 c) as [es2 d2]. cbn [fst snd] in *. by rewrite foldl_app.
Qed.

Lemma carried_renders es : ∀ r d a a' fs r', carried r d a a' → Forall (λ e, is_terminal e = false) es →
  tools_ok (output_index <$> Render.tools a) es → Forall (λ e, plain_name e = true) es →
  ClaudeStream.renders r es = (fs, r') →
  let run := decode_all d fs in carried r' run.2 (foldl ag_push a es) (foldl ag_push a' run.1).
Proof.
  induction es as [|e es IH]; intros r d a a' fs r' H Hes Hok Hn; cbv zeta; cbn [ClaudeStream.renders foldl].
  { by intros [= <- <-]. }
  apply list.Forall_cons in Hes as [He Hes], Hn as [Hn1 Hn]. apply tools_ok_cons in Hok as [Hok1 Hok].
  destruct (ClaudeStream.render r e) as [b r1] eqn:E1. destruct (ClaudeStream.renders r1 es) as [c r2] eqn:E2.
  intros [= <- <-]. destruct (carried_render _ _ _ _ _ _ _ H He Hok1 Hn1 E1) as [H1 Ho].
  rewrite decode_all_app. destruct (decode_all d b) as [es1 d1]. cbn [fst snd] in *.
  specialize (IH r1 d1 _ _ c r2 H1 Hes). rewrite Ho in IH.
  assert (Hok' : tools_ok match e with ToolCallBegin i _ _ => (output_index <$> Render.tools a) ++ [i] | _ => output_index <$> Render.tools a end es) by by destruct e.
  specialize (IH Hok' Hn E2). cbv zeta in IH. destruct (decode_all d1 c) as [es2 d2]. cbn [fst snd] in *.
  by rewrite foldl_app.
Qed.

(** What the aggregator of the decoded stream shares with that of the events: a message
    carries the prompt and the completion tokens, nothing else of the usage. *)
Definition same_answer (last : CodexEvent) (a a' : Aggregator) : Prop :=
  text a' = text a ∧ reasoning a' = reasoning a ∧
  Render.reasoning_signature a' = Render.reasoning_signature a ∧
  calls (Render.tools a') = calls (Render.tools a) ∧ ag_failure a' = ag_failure a ∧
  match last with
  | Completed u => ag_limit a' = ag_limit a ∧
      ag_usage a' = Some (plain_usage (default 0 (prompt_tokens <$> u)) (default 0 (completion_tokens <$> u)))
  | _ => True
  end.

Lemma carried_last r d a a' last fs r' : carried r d a a' → is_terminal last = true →
  ClaudeStream.render r last = (fs, r') → same_answer last (ag_push a last) (foldl ag_push a' (decode_all d fs).1).
Proof.
  intros H Hl. unfold ClaudeStream.render. rewrite (ca_live _ _ _ _ H).
  destruct (ensure_started r) as [b r1] eqn:E1. destruct (started_step _ _ _ _ _ _ H E1) as (d1 & Hd1 & H1 & Hs1).
  destruct (close_all r1) as [c r2] eqn:E2.
  destruct (close_all_closes _ _ _ (ca_keys _ _ _ _ H1) E2) as (C & _).
  pose proof (carried_closes _ _ _ _ _ _ H1 C) as H2. pose proof (ca_open _ _ _ _ H2) as Ho.
  assert (Hsplit : ∀ gs, (decode_all d (b ++ c ++ gs)).1 = (decode_all d b).1 ++ (decode_all d1 gs).1).
  { intros gs. rewrite decode_all_app. destruct (decode_all d b) as [es1 d1']. cbn [fst snd] in *. subst d1'.
    rewrite (decode_silent _ _ _ (decode_closes _ _ _ _ C Ho)). by destruct (decode_all d1 gs). }
  destruct last as [| | | | | | | |u|x]; try done; unfold render_event; rewrite E2; intros [= <- <-];
    rewrite Hsplit, foldl_app; revert H2; generalize (foldl ag_push a' (decode_all d b).1); clear; intros b H2.
  - change ([_; _]) with (end_frames (stop_of r2) (default 0 (prompt_tokens <$> u)) (default 0 (completion_tokens <$> u))).
    rewrite decode_ends by apply H2. destruct H2 as [? ? ? ? ? ? ? ? ? ? ? ? ? ? [L La] ? [F F']].
    assert (Hst : bool_decide (Some (stop_of r2) = Some "max_tokens") = r_limit r2).
    { unfold stop_of. destruct (r_limit r2); [done|]. by destruct (0 <? tool_index r2). }
    rewrite Hst, <- L. rewrite foldl_app. destruct a as [? ? ? ? ? ? ? ? ? ? l], b. cbn in *.
    destruct l; unfold same_answer; cbn; repeat split; try done; congruence.
  - rewrite decode_error by apply H2. destruct H2 as [? ? ? ? ? ? ? ? ? ? ? ? ? ? ? ? [F F']].
    destruct a, b. cbn in *. unfold same_answer; cbn; repeat split; try done; congruence.
Qed.

Lemma messages_decode_agrees m t mm cc es last :
  Forall (λ e, is_terminal e = false) es → is_terminal last = true → tools_ok [] es →
  Forall (λ e, plain_name e = true) es →
  same_answer last (foldl ag_push (ag_new mm cc) (es ++ [last]))
    (foldl ag_push (ag_new mm cc)
       (decode_all new_decoder (ClaudeStream.renders (new_renderer m t) (es ++ [last])).1).1).
Proof.
  intros Hes Hl Hok Hn. rewrite messages_renders_app. destruct (ClaudeStream.renders (new_renderer m t) es) as [o1 r1] eqn:E1.
  pose proof (carried_renders _ _ _ _ _ _ _ (carried_new m t mm cc) Hes Hok Hn E1) as H1. cbv zeta in H1.
  cbn [ClaudeStream.renders]. destruct (ClaudeStream.render r1 last) as [o2 r2] eqn:E2. rewrite app_nil_r.
  cbn [fst]. rewrite decode_all_app. destruct (decode_all new_decoder o1) as [es1 d1]. cbn [fst snd] in *.
  pose proof (carried_last _ _ _ _ _ _ _ H1 Hl E2) as H2. destruct (decode_all d1 o2) as [es2 d2]. cbn [fst snd] in *.
  by rewrite !foldl_app.
Qed.
End decode.
