(* ===== verification/Preamble.v ===== *)
(** * Opening upstream streams (crates/gateway/src/compat/mod.rs, lines 118-617)

    Before the first byte of a reply is committed to a client, the start of the upstream
    stream is held back until it shows content: an upstream that answers 200 and then nothing
    usable can still be failed over.  Held bytes are released unchanged.

    The upstream is the list of what its polls give - chunks, or the error that breaks it
    off -, and [polls] the number of polls of a hold that come back before its deadline.
    [parse_json] is [serde_json]'s parser. *)

From Stdlib Require Import Ascii.
From stdpp Require Import base strings list numbers.
From S2P Require Import Prelude RustStr Json Sse.
Import RustStr Sse Json JsonMake.
Open Scope Z_scope.

Module Preamble.

(** ** Text *)

Definition REPLACEMENT : string := String "239" (String "191" (String "189" "")).

(** [String::from_utf8_lossy]: the longest start of a character that breaks off, or a byte
    that starts none, becomes one U+FFFD. *)
Fixpoint from_utf8_lossy (s : string) : string :=
  match s with
  | EmptyString => ""
  | String a s1 =>
      if byte_in 0 127 a then String a (from_utf8_lossy s1)
      else if byte_in 194 223 a then
        match s1 with
        | String b s2 =>
            if cont_byte b then String a (String b (from_utf8_lossy s2))
            else REPLACEMENT +:+ from_utf8_lossy s1
        | EmptyString => REPLACEMENT
        end
      else if byte_in 224 239 a then
        match s1 with
        | String b s2 =>
            if (if byte_of a =? 224 then byte_in 160 191 b
                else if byte_of a =? 237 then byte_in 128 159 b else cont_byte b)
            then match s2 with
                 | String c s3 =>
                     if cont_byte c then String a (String b (String c (from_utf8_lossy s3)))
                     else REPLACEMENT +:+ from_utf8_lossy s2
                 | EmptyString => REPLACEMENT
                 end
            else REPLACEMENT +:+ from_utf8_lossy s1
        | EmptyString => REPLACEMENT
        end
      else if byte_in 240 244 a then
        match s1 with
        | String b s2 =>
            if (if byte_of a =? 240 then byte_in 144 191 b
                else if byte_of a =? 244 then byte_in 128 143 b else cont_byte b)
            then match s2 with
                 | String c s3 =>
                     if cont_byte c then
                       match s3 with
                       | String d s4 =>
                           if cont_byte d
                           then String a (String b (String c (String d (from_utf8_lossy s4))))
                           else REPLACEMENT +:+ from_utf8_lossy s3
                       | EmptyString => REPLACEMENT
                       end
                     else REPLACEMENT +:+ from_utf8_lossy s2
                 | EmptyString => REPLACEMENT
                 end
            else REPLACEMENT +:+ from_utf8_lossy s1
        | EmptyString => REPLACEMENT
        end
      else REPLACEMENT +:+ from_utf8_lossy s1
  end.

(** [replace("\r\n", "\n")]. *)
Fixpoint crlf_to_lf (s : string) : string :=
  match s with
  | EmptyString => ""
  | String a s1 =>
      if bool_decide (a = CR) then
        match s1 with
        | String b s2 => if bool_decide (b = LF) then String LF (crlf_to_lf s2) else String a (crlf_to_lf s1)
        | EmptyString => String a ""
        end
      else String a (crlf_to_lf s1)
  end.

(** [split("\n\n")]: at least one piece. *)
Fixpoint split_blank (s : string) : list string :=
  match s with
  | EmptyString => [""]
  | String a s1 =>
      let on := match split_blank s1 with p :: ps => String a p :: ps | [] => [String a ""] end in
      match s1 with
      | String b s2 =>
          if bool_decide (a = LF) && bool_decide (b = LF) then "" :: split_blank s2 else on
      | EmptyString => on
      end
  end.

(** [str::lines]: a line that is ended may end in CR LF, and there is no line after the last
    end. *)
Definition strip_cr (s : string) : string := default s (strip_suffix (String CR "") s).
Fixpoint ended_lines (pieces : list string) : list string :=
  match pieces with
  | [] => []
  | [p] => if is_empty p then [] else [p]
  | p :: pieces => strip_cr p :: ended_lines pieces
  end.
Definition lines (s : string) : list string := ended_lines (split LF s).

(** The [data:] lines of a frame, joined. *)
Definition frame_data (frame : string) : string :=
  String.concat "" (trim_start <$> omap (strip_prefix "data:") (lines frame)).

(** The frames that are complete: all but what follows the last blank line. *)
Definition complete_frames (buf : string) : list string :=
  removelast (split_blank (crlf_to_lf (from_utf8_lossy buf))).

(** ** Is it an event stream? *)

Definition is_ascii_whitespace (a : ascii) : bool :=
  one_of (String a "") [" "; String "009" ""; String LF ""; String "012" ""; String CR ""].

Fixpoint skip_whitespace (s : string) : string :=
  match s with
  | String a s' => if is_ascii_whitespace a then skip_whitespace s' else s
  | EmptyString => ""
  end.

Definition looks_like_sse (bytes : string) : bool :=
  let start := skip_whitespace bytes in
  is_empty start
  || existsb (λ marker, starts_with start marker || starts_with marker start)
       ["event:"; "data:"; ": "; "retry:"].

Definition preview (bytes : string) : string :=
  trim (replace_char LF " " (replace_char CR " " (from_utf8_lossy (String.substring 0 80 bytes)))).

Inductive Protocol := Codex | Antigravity | Anthropic | Kiro | Cursor | Devin.

Definition protocol_as_str (p : Protocol) : string :=
  match p with
  | Codex => "codex" | Antigravity => "antigravity" | Anthropic => "anthropic" | Kiro => "kiro"
  | Cursor => "cursor" | Devin => "devin"
  end.

(** The polls of an upstream; the end of the list is the end of the stream. *)
Abbreviation Upstream := (list (result string string)).

Definition is_binary (p : Protocol) : bool := match p with Kiro | Cursor | Devin => true | _ => false end.

Definition open_stream (protocol : Protocol) (upstream : Upstream) : result string (string * Upstream) :=
  match upstream with
  | Ok first :: rest =>
      if is_binary protocol || looks_like_sse first then Ok (first, rest)
      else Err ("upstream body is not an event stream: " +:+ preview first)
  | Err err :: _ => Err err
  | [] => Err "upstream body is not an event stream: empty response"
  end.

Section classify.
Context (parse_json : string → option Value).

(** ** Anthropic preambles *)

Definition ANTHROPIC_PREAMBLE_CAP : Z := 1024 * 1024.

Inductive AnthropicPreamble := APending | AServed | AFailed (reason : string).

Definition empty_message_reason (text : string) : string :=
  let values := omap (λ frame, parse_json (frame_data frame)) (split_blank text) in
  let deltas := filter (λ v, is_str "message_delta" (idx "type" v) = true) values in
  let stop_reason := default "<missing>"
                       (head (omap (λ v, as_str (idx "stop_reason" (idx "delta" v))) deltas)) in
  "unavailable: upstream message ended without text or tool calls (stop_reason=" +:+ stop_reason +:+ ")".

Definition error_verdict (value : Value) : AnthropicPreamble :=
  let error := get "error" value in
  let kind := default "" (error ≫= get_str "type") in
  let message := default "upstream error" (error ≫= get_str "message") in
  let failed code := AFailed (code +:+ ": " +:+ message) in
  if bool_decide (kind = "rate_limit_error") then failed "resource_exhausted"
  else if one_of kind ["overloaded_error"; "api_error"] then failed "unavailable"
  else if bool_decide (kind = "permission_error") then failed "permission_denied"
  else if bool_decide (message = "Request not allowed") then failed "permission_denied"
  else AServed.

(** What one frame says; [None] is [continue]. *)
Definition anthropic_frame (text frame : string) : option AnthropicPreamble :=
  match parse_json (frame_data frame) with
  | None =>
      if is_empty (trim frame) || forallb (λ l, starts_with l ":") (lines frame) then None else Some AServed
  | Some value =>
      match get_str "type" value with
      | Some kind =>
          if one_of kind ["message_start"; "ping"; "message_delta"; "content_block_stop"] then None
          else if bool_decide (kind = "content_block_start")
                  && (is_str "thinking" (idx "type" (idx "content_block" value))
                      || is_str "redacted_thinking" (idx "type" (idx "content_block" value))) then None
          else if bool_decide (kind = "content_block_delta")
                  && (is_str "thinking_delta" (idx "type" (idx "delta" value))
                      || is_str "signature_delta" (idx "type" (idx "delta" value))) then None
          else if bool_decide (kind = "message_stop") then Some (AFailed (empty_message_reason text))
          else if bool_decide (kind = "error") then Some (error_verdict value)
          else Some AServed
      | None => Some AServed
      end
  end.

Fixpoint anthropic_frames (text : string) (frames : list string) : AnthropicPreamble :=
  match frames with
  | [] => APending
  | f :: frames =>
      match anthropic_frame text f with Some v => v | None => anthropic_frames text frames end
  end.

Definition classify_anthropic_preamble (buf : string) : AnthropicPreamble :=
  anthropic_frames (crlf_to_lf (from_utf8_lossy buf)) (complete_frames buf).

(** What a hold gives: the bytes to release and what is left of the upstream. *)
Abbreviation Held := (result string (string * Upstream)).

Fixpoint hold_anthropic_preamble (polls : nat) (buf : string) (upstream : Upstream) : Held :=
  match classify_anthropic_preamble buf with
  | AFailed reason => Err reason
  | AServed => Ok (buf, upstream)
  | APending =>
      if ANTHROPIC_PREAMBLE_CAP <=? strlen buf then Ok (buf, upstream)
      else
        match polls with
        | O => Ok (buf, upstream)
        | S polls =>
            match upstream with
            | Ok chunk :: upstream => hold_anthropic_preamble polls (buf +:+ chunk) upstream
            | Err err :: _ => Err err
            | [] =>
                let buf := buf +:+ String LF (String LF "") in
                match classify_anthropic_preamble buf with
                | AFailed reason => Err reason
                | APending => Err "unavailable: upstream stream ended before any text or tool calls"
                | AServed => Ok (buf, [])
                end
            end
        end
  end.

(** ** Codex preambles *)

Definition CODEX_PREAMBLE_CAP : Z := 32 * 1024.

Inductive CodexPreamble := CPending | CServed | CEmpty.

Definition nonblank_text (k : string) (v : Value) : bool :=
  match get_str k v with Some text => negb (is_empty (trim text)) | None => false end.

Definition holder_content (part : Value) : bool :=
  nonblank_text "content" part || nonblank_text "refusal" part
  || match get_array "tool_calls" part with Some (_ :: _) => true | _ => false end.

Definition finished (choice : Value) : bool :=
  match get "finish_reason" choice with Some r => negb (is_null r) | None => false end.

(** The loop over the choices: [Some true] on content, [Some false] when one finished. *)
Fixpoint choices_content (choices : list Value) : bool :=
  match choices with
  | [] => false
  | choice :: choices =>
      if nonblank_text "text" choice then true
      else if existsb (λ holder, match get holder choice with Some part => holder_content part | None => false end)
                ["delta"; "message"] then true
      else if finished choice then false
      else choices_content choices
  end.

Definition output_has_content (item : Value) : bool :=
  bool_decide (get_str "type" item = Some "function_call")
  || match get_array "content" item with
     | Some parts => existsb (nonblank_text "text") parts
     | None => false
     end.

Definition nonempty_str (o : option Value) : bool :=
  match o ≫= as_str with Some s => negb (is_empty s) | None => false end.

Definition codex_frame_has_content (value : Value) : option bool :=
  if bool_decide (as_str value = Some "[DONE]") then Some false
  else match get_array "choices" value with
  | Some choices => Some (choices_content choices)
  | None =>
      kind ← get_str "type" value;
      if bool_decide (kind = "response.output_text.delta") then Some (nonempty_str (get "delta" value))
      else if bool_decide (kind = "response.output_item.added") then
        Some (bool_decide (pointer ["item"; "type"] value ≫= as_str = Some "function_call"))
      else if bool_decide (kind = "response.function_call_arguments.delta") then
        Some (nonempty_str (get "delta" value))
      else if one_of kind ["response.reasoning_summary_text.delta"; "response.reasoning_text.delta";
                           "response.created"; "response.in_progress"] then Some false
      else if bool_decide (kind = "response.completed") then
        Some (match pointer ["response"; "output"] value ≫= as_array with
              | Some items => existsb output_has_content items
              | None => false
              end)
      else if one_of kind ["response.incomplete"; "response.cancelled"] then Some false
      else if one_of kind ["error"; "response.failed"] then Some true
      else None
  end.

(** Does a frame without content end the turn? *)
Definition ends_turn (value : Value) : bool :=
  match get_str "type" value with
  | Some kind => one_of kind ["response.completed"; "response.incomplete"; "response.cancelled"]
  | None => false
  end
  || match get_array "choices" value with Some choices => existsb finished choices | None => false end.

Fixpoint codex_frames (terminal : bool) (frames : list string) : CodexPreamble :=
  match frames with
  | [] => if terminal then CEmpty else CPending
  | f :: frames =>
      let trimmed := trim (frame_data f) in
      if is_empty trimmed then codex_frames terminal frames
      else if bool_decide (trimmed = "[DONE]") then codex_frames true frames
      else match parse_json trimmed with
           | None => CServed
           | Some value =>
               if bool_decide (codex_frame_has_content value = Some true) then CServed
               else codex_frames (terminal || ends_turn value) frames
           end
  end.

Definition classify_codex_preamble (buf : string) : CodexPreamble := codex_frames false (complete_frames buf).

Definition EMPTY_RESPONSE : string := "empty_response: upstream stream ended without text or tool calls".

Fixpoint hold_codex_preamble (polls : nat) (buf : string) (upstream : Upstream) : Held :=
  match classify_codex_preamble buf with
  | CServed => Ok (buf, upstream)
  | CEmpty => Err EMPTY_RESPONSE
  | CPending =>
      if CODEX_PREAMBLE_CAP <=? strlen buf then Ok (buf, upstream)
      else
        match polls with
        | O => Ok (buf, upstream)
        | S polls =>
            match upstream with
            | Ok chunk :: upstream => hold_codex_preamble polls (buf +:+ chunk) upstream
            | Err err :: _ => Err err
            | [] => Err EMPTY_RESPONSE
            end
        end
  end.

Definition open_anthropic_stream (polls : nat) (upstream : Upstream) : Held :=
  p ← open_stream Anthropic upstream; hold_anthropic_preamble polls p.1 p.2.
Definition open_codex_stream (polls : nat) (upstream : Upstream) : Held :=
  p ← open_stream Codex upstream; hold_codex_preamble polls p.1 p.2.

(** ** Collected bodies *)

Definition MAX_NONSTREAM_RESPONSE_BYTES : Z := 64 * 1024 * 1024.

Definition extend_nonstream_bounded (raw chunk : string) : result string string :=
  if MAX_NONSTREAM_RESPONSE_BYTES <? strlen raw + strlen chunk
  then Err ("upstream non-streaming response exceeds the " +:+ show_u64 MAX_NONSTREAM_RESPONSE_BYTES
            +:+ "-byte limit")
  else Ok (raw +:+ chunk).

Fixpoint collect_rest (raw : string) (upstream : Upstream) : result string string :=
  match upstream with
  | [] => Ok raw
  | Ok chunk :: upstream => raw ← extend_nonstream_bounded raw chunk; collect_rest raw upstream
  | Err err :: _ => Err err
  end.
Definition collect_stream (first : string) (upstream : Upstream) : result string string :=
  raw ← extend_nonstream_bounded "" first; collect_rest raw upstream.

(** The model a line announces. *)
Definition line_model (line : string) : option string :=
  data ← strip_prefix "data:" line;
  value ← parse_json (trim data);
  kind ← get_str "type" value;
  if one_of kind ["response.created"; "response.completed"; "response.in_progress"] then
    model ← trim <$> (get "response" value ≫= get_str "model");
    if is_empty model then None else Some model
  else None.

Definition served_codex_model (buf : string) : option string :=
  if valid_utf8 buf then head (omap line_model (split_blank buf ≫= lines)) else None.
End classify.

End Preamble.

(** * Held streams are released whole

    Releasing a held stream loses and invents nothing; a verdict does not depend on how the
    bytes were cut; and a turn is only called empty when no frame of it had content. *)

Import RustStr Sse Json JsonMake Preamble.

(** ** Cuts *)

(** [u] starts as [s] does, up to a rest of [s] without line feeds. *)
Definition no_lf (s : string) : bool := all_bytes (λ a, negb (bool_decide (a = LF))) s.
Definition grows (s u : string) : Prop := ∃ p r v, s = p +:+ r ∧ u = p +:+ v ∧ no_lf r = true.

Lemma grows_nil u : grows "" u.
Proof. by exists "", "", u. Qed.

Lemma grows_tail s u : no_lf s = true → grows s u.
Proof. intros H. by exists "", s, u. Qed.

Lemma grows_cons a s u : grows s u → grows (String a s) (String a u).
Proof. intros (p & r & v & -> & -> & H). by exists (String a p), r, v. Qed.

Lemma grows_after p s u : grows s u → grows (p +:+ s) (p +:+ u).
Proof. intros (q & r & v & -> & -> & H). exists (p +:+ q), r, v. by rewrite !append_assoc. Qed.

Lemma lossy_grows n : ∀ s t, (String.length s ≤ n)%nat → grows (from_utf8_lossy s) (from_utf8_lossy (s +:+ t)).
Proof.
  induction n as [|n IH]; intros s t Hn.
  { destruct s; [apply grows_nil|cbn in Hn; lia]. }
  destruct s as [|a s1]; [apply grows_nil|]. cbn in Hn.
  change (String a s1 +:+ t) with (String a (s1 +:+ t)).
  assert (IH1 := IH s1 t ltac:(lia)). assert (Hr : no_lf REPLACEMENT = true) by reflexivity.
  cbn [from_utf8_lossy]. destruct (byte_in 0 127 a); [by apply grows_cons|].
  destruct (byte_in 194 223 a).
  { destruct s1 as [|b s2]; [by apply grows_tail|].
    change (String b s2 +:+ t) with (String b (s2 +:+ t)). cbv beta iota. change (String b s2 +:+ t) with (String b (s2 +:+ t)) in IH1.
    destruct (cont_byte b); [|by apply grows_after]. do 2 apply grows_cons. apply IH. cbn in Hn. lia. }
  destruct (byte_in 224 239 a).
  { destruct s1 as [|b s2]; [by apply grows_tail|].
    change (String b s2 +:+ t) with (String b (s2 +:+ t)). cbv beta iota. change (String b s2 +:+ t) with (String b (s2 +:+ t)) in IH1.
    destruct (if byte_of a =? 224 then _ else _); [|by apply grows_after].
    destruct s2 as [|c s3]; [by apply grows_tail|].
    assert (IH2 := IH (String c s3) t ltac:(cbn in *; lia)).
    change (String c s3 +:+ t) with (String c (s3 +:+ t)). cbv beta iota. change (String c s3 +:+ t) with (String c (s3 +:+ t)) in IH2.
    destruct (cont_byte c); [|by apply grows_after]. do 3 apply grows_cons. apply IH. cbn in Hn. lia. }
  destruct (byte_in 240 244 a); [|by apply grows_after].
  destruct s1 as [|b s2]; [by apply grows_tail|].
  change (String b s2 +:+ t) with (String b (s2 +:+ t)). cbv beta iota. change (String b s2 +:+ t) with (String b (s2 +:+ t)) in IH1.
  destruct (if byte_of a =? 240 then _ else _); [|by apply grows_after].
  destruct s2 as [|c s3]; [by apply grows_tail|].
  assert (IH2 := IH (String c s3) t ltac:(cbn in *; lia)).
  change (String c s3 +:+ t) with (String c (s3 +:+ t)). cbv beta iota. change (String c s3 +:+ t) with (String c (s3 +:+ t)) in IH2.
  destruct (cont_byte c); [|by apply grows_after].
  destruct s3 as [|d s4]; [by apply grows_tail|].
  assert (IH3 := IH (String d s4) t ltac:(cbn in *; lia)).
  change (String d s4 +:+ t) with (String d (s4 +:+ t)). cbv beta iota. change (String d s4 +:+ t) with (String d (s4 +:+ t)) in IH3.
  destruct (cont_byte d); [|by apply grows_after]. do 4 apply grows_cons. apply IH. cbn in Hn. lia.
Qed.

Lemma crlf_id r : no_lf r = true → crlf_to_lf r = r.
Proof.
  induction r as [|a r IH]; [done|]. cbn [no_lf all_bytes crlf_to_lf]. intros [Ha Hr]%andb_true_iff.
  specialize (IH Hr). destruct (bool_decide (a = CR)); [|by rewrite IH].
  destruct r as [|b r]; [done|]. cbn [all_bytes] in Hr. apply andb_true_iff in Hr as [Hb _].
  apply negb_true_iff in Hb. by rewrite Hb, IH.
Qed.

Lemma crlf_grows n : ∀ p r v, (String.length p ≤ n)%nat → no_lf r = true →
  grows (crlf_to_lf (p +:+ r)) (crlf_to_lf (p +:+ v)).
Proof.
  induction n as [|n IH]; intros p r v Hn Hr; (destruct p as [|a p]; [apply grows_tail; by rewrite crlf_id|]);
    [cbn in Hn; lia|]. cbn in Hn.
  change (String a p +:+ ?t) with (String a (p +:+ t)). cbn [crlf_to_lf].
  case_bool_decide as Ha; [|apply grows_cons, IH; [lia|done]].
  destruct p as [|b p].
  - change ("" +:+ ?t) with t. apply grows_tail. destruct r as [|b r]; [by subst|].
    pose proof Hr as Hb. cbn [no_lf all_bytes] in Hb. apply andb_true_iff in Hb as [Hb _].
    apply negb_true_iff in Hb. rewrite Hb, crlf_id by done. unfold no_lf. cbn [all_bytes]. fold no_lf. subst a. exact Hr.
  - change (String b p +:+ ?t) with (String b (p +:+ t)). cbv beta iota.
    case_bool_decide; [apply grows_cons, IH; [cbn in Hn; lia|done]|].
    apply grows_cons. apply (IH (String b p)); [cbn in *; lia|done].
Qed.

Lemma split_blank_cons s : ∃ p ps, split_blank s = p :: ps.
Proof.
  destruct s as [|a s]; [by eexists _, _|]. cbn. destruct s as [|b s]; [cbn; by eexists _, _|].
  destruct (bool_decide (a = LF) && bool_decide (b = LF)); [by eexists _, _|].
  destruct (split_blank (String b s)); by eexists _, _.
Qed.

Lemma split_blank_tail r : no_lf r = true → split_blank r = [r].
Proof.
  induction r as [|a r IH]; [done|]. unfold no_lf. cbn [all_bytes split_blank]. intros [Ha Hr]%andb_true_iff.
  rewrite (IH Hr). destruct r as [|b r]; [done|]. apply negb_true_iff in Ha. by rewrite Ha.
Qed.

(** One byte in front of a text that does not make a blank line. *)
Lemma split_blank_on a s : (∀ b s', s = String b s' → bool_decide (a = LF) && bool_decide (b = LF) = false) →
  split_blank (String a s) = match split_blank s with p :: ps => String a p :: ps | [] => [String a ""] end.
Proof. intros H. cbn [split_blank]. destruct s as [|b s]; [done|]. by rewrite (H b s eq_refl). Qed.

Definition closed_frames (s : string) : list string := removelast (split_blank s).

Lemma closed_frames_on a s u :
  (∀ b s', s = String b s' → bool_decide (a = LF) && bool_decide (b = LF) = false) →
  (∀ b u', u = String b u' → bool_decide (a = LF) && bool_decide (b = LF) = false) →
  closed_frames s `prefix_of` closed_frames u → closed_frames (String a s) `prefix_of` closed_frames (String a u).
Proof.
  intros Hs Hu. unfold closed_frames. rewrite (split_blank_on a s Hs), (split_blank_on a u Hu).
  destruct (split_blank s) as [|p [|p2 ps]]; [intros _; apply prefix_nil..|].
  destruct (split_blank u) as [|q [|q2 qs]]; cbn [removelast]; [by intros [? ?]..|].
  intros H. apply prefix_cons_inv_1 in H as Hq. apply prefix_cons_inv_2 in H. subst. by apply prefix_cons.
Qed.

Lemma closed_frames_grow n : ∀ p r v, (String.length p ≤ n)%nat → no_lf r = true →
  closed_frames (p +:+ r) `prefix_of` closed_frames (p +:+ v).
Proof.
  induction n as [|n IH]; intros p r v Hn Hr;
    (destruct p as [|a p]; [unfold closed_frames; change ("" +:+ r) with r; rewrite split_blank_tail by done; apply prefix_nil|]);
    [cbn in Hn; lia|]. cbn in Hn. change (String a p +:+ ?t) with (String a (p +:+ t)).
  destruct p as [|b p].
  - change ("" +:+ ?t) with t. unfold closed_frames at 1. rewrite split_blank_on.
    + rewrite split_blank_tail by done. apply prefix_nil.
    + intros b s' ->. cbn [no_lf all_bytes] in Hr. unfold no_lf in Hr. cbn [all_bytes] in Hr.
      apply andb_true_iff in Hr as [Hb _]. apply negb_true_iff in Hb. by rewrite Hb, andb_false_r.
  - destruct (bool_decide (a = LF) && bool_decide (b = LF)) eqn:E.
    + change (String b p +:+ ?t) with (String b (p +:+ t)). unfold closed_frames. cbn [split_blank]. rewrite E.
      destruct (split_blank_cons (p +:+ r)) as (x & xs & Hx), (split_blank_cons (p +:+ v)) as (y & ys & Hy).
      assert (H := IH p r v ltac:(cbn in Hn; lia) Hr). unfold closed_frames in H. rewrite Hx, Hy in *.
      change (removelast ("" :: x :: xs)) with ("" :: removelast (x :: xs)).
      change (removelast ("" :: y :: ys)) with ("" :: removelast (y :: ys)). by apply prefix_cons.
    + apply closed_frames_on; [| |apply (IH (String b p)); [cbn in *; lia|done]];
        intros b' s'; change (String b p +:+ ?t) with (String b (p +:+ t)); by intros [= <- _].
Qed.

(** The complete frames of a buffer stay as they are when more arrives, wherever it was cut. *)
Lemma complete_frames_grow buf more : complete_frames buf `prefix_of` complete_frames (buf +:+ more).
Proof.
  unfold complete_frames. destruct (lossy_grows (String.length buf) buf more ltac:(lia)) as (p & r & v & -> & -> & Hr).
  destruct (crlf_grows (String.length p) p r v ltac:(lia) Hr) as (p' & r' & v' & -> & -> & Hr').
  by apply (closed_frames_grow (String.length p')).
Qed.

(** ** Verdicts *)

Section verdicts.
Context (parse_json : string → option Value).
Abbreviation classify_codex_preamble := (classify_codex_preamble parse_json).
Abbreviation classify_anthropic_preamble := (classify_anthropic_preamble parse_json).
Abbreviation codex_frames := (codex_frames parse_json).
Abbreviation anthropic_frames := (anthropic_frames parse_json).
Abbreviation anthropic_frame := (anthropic_frame parse_json).

Lemma codex_frames_served fs gs : ∀ t, codex_frames t fs = CServed → codex_frames t (fs ++ gs) = CServed.
Proof.
  induction fs as [|f fs IH]; intros t; cbn [Preamble.codex_frames app]; [by destruct t|].
  repeat case_match; auto; done.
Qed.

(** The text is only quoted. *)
Lemma anthropic_frame_text t t' f :
  match anthropic_frame t f, anthropic_frame t' f with
  | None, None => True
  | Some (AFailed _), Some (AFailed _) => True
  | v, v' => v = v'
  end.
Proof.
  unfold Preamble.anthropic_frame. destruct (parse_json _) as [v|]; [|by destruct (is_empty (trim f) || _)].
  destruct (get_str "type" v); [|done].
  repeat match goal with |- context [if ?b then _ else _] => destruct b; try done end.
  by destruct (error_verdict v).
Qed.

Definition same_verdict (v v' : AnthropicPreamble) : Prop :=
  match v with
  | AServed => v' = AServed
  | AFailed _ => ∃ reason, v' = AFailed reason
  | APending => True
  end.

Lemma anthropic_frames_stable t t' fs gs : same_verdict (anthropic_frames t fs) (anthropic_frames t' (fs ++ gs)).
Proof.
  induction fs as [|f fs IH]; cbn [Preamble.anthropic_frames app]; [done|].
  pose proof (anthropic_frame_text t t' f) as H.
  destruct (anthropic_frame t f) as [[]|], (anthropic_frame t' f) as [[]|]; try done; try discriminate H; cbn; eauto.
  all: injection H as <-; eauto.
Qed.

(** A verdict on the start of an upstream stream does not depend on how the bytes were
    cut: the frames that are complete stay as they are when more bytes arrive - also when a
    chunk ends inside a character or between a CR and its LF -, so that a stream that was
    found served or failed is found so from any longer start of it too. *)
Theorem verdict_cut_independent (buf more : string) :
  complete_frames buf `prefix_of` complete_frames (buf +:+ more) ∧
  (classify_codex_preamble buf = CServed → classify_codex_preamble (buf +:+ more) = CServed) ∧
  same_verdict (classify_anthropic_preamble buf) (classify_anthropic_preamble (buf +:+ more)).
Proof.
  destruct (complete_frames_grow buf more) as [gs E]. split_and!.
  - by exists gs.
  - unfold Preamble.classify_codex_preamble. rewrite E. apply codex_frames_served.
  - unfold Preamble.classify_anthropic_preamble. rewrite E. apply anthropic_frames_stable.
Qed.

(** ** Holds *)

(** A frame that shows the stream is served: its payload has content, or is not JSON. *)
Definition bears (f : string) : Prop :=
  let data := trim (frame_data f) in
  is_empty data = false ∧ data ≠ "[DONE]" ∧
  match parse_json data with Some v => codex_frame_has_content v = Some true | None => True end.

Lemma codex_frames_exact fs : ∀ t, codex_frames t fs = CServed ↔ Exists bears fs.
Proof.
  induction fs as [|f fs IH]; intros t; cbn [Preamble.codex_frames].
  { destruct t; split; try done; by inversion 1. }
  rewrite Exists_cons. unfold bears at 1. cbv zeta.
  destruct (is_empty (trim (frame_data f))); [rewrite IH; naive_solver|].
  destruct (decide (trim (frame_data f) = "[DONE]")) as [E|E].
  { rewrite bool_decide_eq_true_2 by done. rewrite IH. naive_solver. }
  rewrite bool_decide_eq_false_2 by done. destruct (parse_json _) as [v|]; [|naive_solver].
  destruct (decide (codex_frame_has_content v = Some true)) as [C|C].
  - rewrite bool_decide_eq_true_2 by done. naive_solver.
  - rewrite bool_decide_eq_false_2 by done. rewrite IH. naive_solver.
Qed.

(** A hold took some chunks off the upstream. *)
Definition taken (first buf : string) (upstream rest : Upstream) : Prop :=
  ∃ chunks, upstream = (Ok <$> chunks) ++ rest ∧ buf = first +:+ String.concat "" chunks.

Lemma taken_none first upstream : taken first first upstream upstream.
Proof. exists []. split; [done|]. cbn. by rewrite append_nil_r. Qed.

Lemma taken_more first chunk buf upstream rest : taken (first +:+ chunk) buf upstream rest →
  taken first buf (Ok chunk :: upstream) rest.
Proof.
  intros (cs & -> & ->). exists (chunk :: cs). split; [done|].
  rewrite append_assoc. f_equal. destruct cs; cbn; by rewrite ?append_nil_r.
Qed.

Lemma hold_codex_taken upstream : ∀ polls first,
  match hold_codex_preamble parse_json polls first upstream with
  | Ok (buf, rest) => taken first buf upstream rest
  | Err e => Err e ∈ upstream ∨
             e = EMPTY_RESPONSE ∧ ∃ buf rest, taken first buf upstream rest ∧ ¬ Exists bears (complete_frames buf)
  end.
Proof.
  assert (Hb : ∀ buf, classify_codex_preamble buf ≠ CServed → ¬ Exists bears (complete_frames buf)).
  { intros buf. unfold Preamble.classify_codex_preamble. by rewrite codex_frames_exact. }
  induction upstream as [|[chunk|err] upstream IH]; intros polls first;
    destruct polls as [|polls]; cbn [hold_codex_preamble];
    destruct (classify_codex_preamble first) eqn:E; try apply taken_none;
    try (right; split; [done|]; exists first; eexists; split; [apply taken_none|apply Hb; by rewrite E]);
    destruct (CODEX_PREAMBLE_CAP <=? strlen first); try apply taken_none.
  - right. split; [done|]. exists first, []. split; [apply taken_none|apply Hb; by rewrite E].
  - specialize (IH polls (first +:+ chunk)). destruct (hold_codex_preamble _ _ _ _) as [[buf rest]|e].
    + by apply taken_more.
    + destruct IH as [Hin|(-> & buf & rest & Ht & Hn)]; [left; by right|].
      right. split; [done|]. exists buf, rest. split; [by apply taken_more|done].
  - left. left.
Qed.

Lemma hold_anthropic_taken upstream : ∀ polls first buf rest,
  hold_anthropic_preamble parse_json polls first upstream = Ok (buf, rest) →
  taken first buf upstream rest ∨
  rest = [] ∧ ∃ held, buf = held +:+ String LF (String LF "") ∧ taken first held upstream [].
Proof.
  induction upstream as [|[chunk|err] upstream IH]; intros polls first buf rest;
    destruct polls as [|polls]; cbn [hold_anthropic_preamble];
    destruct (classify_anthropic_preamble first) eqn:E; try done;
    try (intros [= <- <-]; left; apply taken_none);
    destruct (ANTHROPIC_PREAMBLE_CAP <=? strlen first); try done;
    try (intros [= <- <-]; left; apply taken_none).
  - destruct (classify_anthropic_preamble (first +:+ _)); try done. intros H. apply (inj Ok), (inj2 pair) in H as [<- <-].
    right. split; [done|]. exists first. split; [done|apply taken_none].
  - intros H. apply IH in H as [H|(-> & held & -> & H)]; [left; by apply taken_more|].
    right. split; [done|]. exists held. split; [done|by apply taken_more].
Qed.

Lemma open_stream_first protocol upstream first rest :
  open_stream protocol upstream = Ok (first, rest) → upstream = Ok first :: rest.
Proof. unfold open_stream. destruct upstream as [|[c|e] up]; try done. case_match; [|done]. by intros [= <- <-]. Qed.

(** Holding the start of a stream back is invisible.  Whatever the deadline is: when an
    upstream stream is opened, the bytes that are released and the rest of the stream are
    the upstream's bytes, in order - but for a blank line after an Anthropic stream that
    ended while it was held; and when a Codex stream is given up as empty, the bytes seen so
    far had no frame with text, a tool call, a refusal or an error. *)
Theorem held_stream_whole (polls : nat) (upstream : Upstream) :
  match open_codex_stream parse_json polls upstream with
  | Ok (buf, rest) => taken "" buf upstream rest
  | Err e => e = EMPTY_RESPONSE → Err e ∈ upstream ∨
             ∃ buf rest, taken "" buf upstream rest ∧ ¬ Exists bears (complete_frames buf)
  end ∧
  match open_anthropic_stream parse_json polls upstream with
  | Ok (buf, rest) =>
      taken "" buf upstream rest ∨
      rest = [] ∧ ∃ held, buf = held +:+ String LF (String LF "") ∧ taken "" held upstream []
  | Err _ => True
  end.
Proof.
  assert (Hfirst : ∀ first up buf rest, taken first buf up rest → taken "" buf (Ok first :: up) rest).
  { intros first up buf rest H. by apply taken_more. }
  split.
  - unfold open_codex_stream. destruct (open_stream Codex upstream) as [[first up]|e] eqn:E; cbn [mbind result_bind].
    + apply open_stream_first in E as ->. cbn [fst snd]. pose proof (hold_codex_taken up polls first) as H.
      destruct (hold_codex_preamble _ _ _ _) as [[buf rest]|e]; [by apply Hfirst|]. intros _.
      destruct H as [H|(-> & buf & rest & H & Hn)]; [left; by right|right]. exists buf, rest. by split; [apply Hfirst|].
    + intros ->. left. revert E. unfold open_stream. destruct upstream as [|[c|e] up]; try done.
      * by case_match.
      * intros [= ->]. left.
  - unfold open_anthropic_stream. destruct (open_stream Anthropic upstream) as [[first up]|e] eqn:E; cbn [mbind result_bind]; [|done].
    apply open_stream_first in E as ->. cbn [fst snd]. pose proof (hold_anthropic_taken up polls first) as H.
    destruct (hold_anthropic_preamble _ _ _ _) as [[buf rest]|e]; [|done].
    destruct (H buf rest eq_refl) as [Ht|(-> & held & -> & Ht)]; [left; by apply Hfirst|right].
    split; [done|]. exists held. by split; [|apply Hfirst].
Qed.
End verdicts.

(** ** Streams *)

Module PreambleDemo.
Definition parse (s : string) : option Value :=
  if bool_decide (s = "T") then
    Some (obj [("type", str "response.output_text.delta"); ("delta", str "hi")])
  else if bool_decide (s = "R") then
    Some (obj [("type", str "response.reasoning_text.delta"); ("delta", str "hm")])
  else None.
Definition line (s : string) : string := s +:+ String LF "".

(** Reasoning is held until text comes, in two chunks that cut a CR LF. *)
Example released : open_codex_stream parse 9
  [Ok (line (line "data: R") +:+ "data: T" +:+ String CR ""); Ok (String LF (String CR (String LF ""))); Ok "rest"]
  = Ok (line (line "data: R") +:+ "data: T" +:+ String CR (String LF (String CR (String LF ""))), [Ok "rest"]).
Proof. vm_compute. reflexivity. Qed.

(** A stream that ends without the last blank line is given up, although it has text. *)
Example unterminated_text_given_up : open_codex_stream parse 9 [Ok (line "data: T")] = Err EMPTY_RESPONSE.
Proof. vm_compute. reflexivity. Qed.
End PreambleDemo.
