(* ===== verification/Kiro.v ===== *)
(** * Kiro streams (crates/gateway/src/compat/kiro.rs, lines 254-501)

    [KiroDecoder] reads the two framings a Kiro upstream answers with - AWS event-stream
    frames, or bare JSON objects - from chunks cut anywhere, into the shared events.
    Operations return the events they push and the next decoder.

    [parse_json] is [serde_json]'s parser and [print_json] its printer.  The decoder's loops
    run on fuel that bounds their turns: every turn takes bytes off what it reads. *)

From Stdlib Require Import Ascii.
From stdpp Require Import base strings list.
From S2P Require Import Prelude RustStr Json Sse Preamble.
Import RustStr Sse Json JsonMake Preamble.
Open Scope Z_scope.

Module Kiro.

Definition MAX_KIRO_FRAME_BYTES : Z := 64 * 1024 * 1024.
Definition MAX_KIRO_JSON_BUFFER_BYTES : Z := 8 * 1024 * 1024.

Record KiroDecoder := {
  wire : string;
  framed : option bool;
  buffer : string;
  pending : string;
  completed : bool;
  current_tool : option (string * string * Z);
}.

Definition new : KiroDecoder :=
  {| wire := ""; framed := None; buffer := ""; pending := ""; completed := false; current_tool := None |}.

Definition with_wire (d : KiroDecoder) (w : string) : KiroDecoder :=
  {| wire := w; framed := framed d; buffer := buffer d; pending := pending d;
     completed := completed d; current_tool := current_tool d |}.
Definition with_framed (d : KiroDecoder) (f : bool) : KiroDecoder :=
  {| wire := wire d; framed := Some f; buffer := buffer d; pending := pending d;
     completed := completed d; current_tool := current_tool d |}.
Definition with_text (d : KiroDecoder) (b p : string) : KiroDecoder :=
  {| wire := wire d; framed := framed d; buffer := b; pending := p;
     completed := completed d; current_tool := current_tool d |}.
Definition with_tool (d : KiroDecoder) (t : option (string * string * Z)) : KiroDecoder :=
  {| wire := wire d; framed := framed d; buffer := buffer d; pending := pending d;
     completed := completed d; current_tool := t |}.
Definition ended (d : KiroDecoder) : KiroDecoder :=
  {| wire := wire d; framed := framed d; buffer := buffer d; pending := pending d;
     completed := true; current_tool := current_tool d |}.

Abbreviation step := (list CodexEvent * KiroDecoder)%type.

Definition fail (d : KiroDecoder) (message : string) : step := ([Failed message], ended d).

(** ** Text cut between characters *)

(** What [str::from_utf8] says: valid; invalid in the middle ([error_len] is known); or cut
    short in its last character, which starts at [valid_up_to]. *)
Inductive Utf8 := Valid | Invalid | Cut (valid_up_to : nat).

Definition ahead (n : nat) (u : Utf8) : Utf8 := match u with Cut k => Cut (n + k) | u => u end.

Fixpoint utf8_check (s : string) : Utf8 :=
  match s with
  | EmptyString => Valid
  | String a s1 =>
      if byte_in 0 127 a then ahead 1 (utf8_check s1)
      else if byte_in 194 223 a then
        match s1 with
        | String b s2 => if cont_byte b then ahead 2 (utf8_check s2) else Invalid
        | EmptyString => Cut 0
        end
      else if byte_in 224 239 a then
        match s1 with
        | String b s2 =>
            if (if byte_of a =? 224 then byte_in 160 191 b
                else if byte_of a =? 237 then byte_in 128 159 b else cont_byte b)
            then match s2 with
                 | String c s3 => if cont_byte c then ahead 3 (utf8_check s3) else Invalid
                 | EmptyString => Cut 0
                 end
            else Invalid
        | EmptyString => Cut 0
        end
      else if byte_in 240 244 a then
        match s1 with
        | String b s2 =>
            if (if byte_of a =? 240 then byte_in 144 191 b
                else if byte_of a =? 244 then byte_in 128 143 b else cont_byte b)
            then match s2 with
                 | String c s3 =>
                     if cont_byte c then
                       match s3 with
                       | String e s4 => if cont_byte e then ahead 4 (utf8_check s4) else Invalid
                       | EmptyString => Cut 0
                       end
                     else Invalid
                 | EmptyString => Cut 0
                 end
            else Invalid
        | EmptyString => Cut 0
        end
      else Invalid
  end.

Definition take_bytes (n : nat) (s : string) : string := String.substring 0 n s.
Definition drop_bytes (n : nat) (s : string) : string := String.substring n (String.length s - n) s.

(** The text that can be decoded, and the bytes held back. *)
Definition decode_text (bytes : string) : string * string :=
  match utf8_check bytes with
  | Valid => (bytes, "")
  | Invalid => (from_utf8_lossy bytes, "")
  | Cut n => (from_utf8_lossy (take_bytes n bytes), drop_bytes n bytes)
  end.

(** ** Objects in a text *)

Definition QUOTE : ascii := "034"%char.

(** The scan of [next_json_object] from an opening brace: the object, and what follows it. *)
Fixpoint object_end (depth : Z) (in_string escaped : bool) (s : string) : option (string * string) :=
  match s with
  | EmptyString => None
  | String a s =>
      let on depth in_string escaped :=
        '(o, rest) ← object_end depth in_string escaped s; Some (String a o, rest) in
      if in_string then
        if escaped then on depth true false
        else if bool_decide (a = "\"%char) then on depth true true
        else on depth (negb (bool_decide (a = QUOTE))) false
      else if bool_decide (a = QUOTE) then on depth true escaped
      else if bool_decide (a = "{"%char) then on (depth + 1) false escaped
      else if bool_decide (a = "}"%char) then
        if depth - 1 =? 0 then Some (String a "", s) else on (depth - 1) false escaped
      else on depth false escaped
  end.

Fixpoint next_json_object (input : string) : option (string * string) :=
  match input with
  | EmptyString => None
  | String a rest =>
      if bool_decide (a = "{"%char) then object_end 0 false false input else next_json_object rest
  end.

Definition kiro_error_message (value : Value) : option string :=
  head (omap (λ o, o ≫= as_str)
    [get "message" value; get "Message" value; pointer ["error"; "message"] value;
     get "__type" value; get "error" value]).

Section decoder.
Context (parse_json : string → option Value) (print_json : Value → string).

(** One object: its events, and whether it ended the stream. *)
Definition decode_object (d : KiroDecoder) (value : Value) : step :=
  if is_some (get "__type" value) || is_some (get "error" value) then
    fail d (default "Kiro upstream error" (kiro_error_message value))
  else match get_str "content" value with
  | Some content => ([TextDelta content], d)
  | None =>
  match get_str "name" value, get_str "toolUseId" value with
  | Some name, Some id =>
      let index := match current_tool d with Some (_, _, i) => i + 1 | None => 0 end in
      (ToolCallBegin index id name ::
       match get "input" value with
       | Some input => [ToolArgsDelta index (default (print_json input) (as_str input))]
       | None => []
       end, with_tool d (Some (id, name, index)))
  | _, _ =>
  match get_str "input" value with
  | Some input =>
      (match current_tool d with Some (_, _, i) => [ToolArgsDelta i input] | None => [] end, d)
  | None =>
  match get_str "text" value with
  | Some text => ([ReasoningDelta text], d)
  | None =>
  match get_str "signature" value with
  | Some sig => ([ReasoningSignature sig], d)
  | None =>
  if is_some (get "stopReason" value) then ([Completed None], ended d) else ([], d)
  end end end end end.

(** The loop over the complete objects of the buffer. *)
Fixpoint drain (fuel : nat) (d : KiroDecoder) : step :=
  match fuel with
  | O => ([], d)
  | S fuel =>
      match next_json_object (buffer d) with
      | None =>
          if MAX_KIRO_JSON_BUFFER_BYTES <? strlen (buffer d)
          then fail d "Kiro JSON buffer exceeds the size limit" else ([], d)
      | Some (candidate, rest) =>
          let d := with_text d rest (pending d) in
          match parse_json candidate with
          | None => fail d "Invalid Kiro JSON payload"
          | Some value =>
              let '(es, d) := decode_object d value in
              if completed d then (es, d)
              else let '(es', d) := drain fuel d in (es ++ es', d)
          end
      end
  end.

Definition decode_json (d : KiroDecoder) (bytes : string) : step :=
  let '(decoded, held) := decode_text (pending d +:+ bytes) in
  let d := with_text d (buffer d +:+ decoded) held in
  drain (S (String.length (buffer d))) d.

(** ** Frames *)

Definition byte_at (i : nat) (s : string) : Z :=
  match String.get i s with Some a => byte_of a | None => 0 end.
(** [from_be_bytes] of the bytes from [i]. *)
Definition u16_at (i : nat) (s : string) : Z := byte_at i s * 256 + byte_at (i + 1) s.
Definition u32_at (i : nat) (s : string) : Z := u16_at i s * 65536 + u16_at (i + 2) s.

(** The header loop, on the bytes from [cursor] to [header_end]: [None] is a malformed header,
    else the last error type. *)
Fixpoint read_headers (fuel : nat) (hs : string) (error_type : option string) : option (option string) :=
  match fuel with
  | O => Some error_type
  | S fuel =>
      if is_empty hs then Some error_type
      else
        let name_len := byte_at 0 hs in
        let hs := drop_bytes 1 hs in
        if (strlen hs <? name_len + 3) || negb (byte_at (Z.to_nat name_len) hs =? 7) then None
        else
          let name := take_bytes (Z.to_nat name_len) hs in
          let hs := drop_bytes (Z.to_nat (name_len + 1)) hs in
          let len := u16_at 0 hs in
          let hs := drop_bytes 2 hs in
          if strlen hs <? len then None
          else
            let value := take_bytes (Z.to_nat len) hs in
            read_headers fuel (drop_bytes (Z.to_nat len) hs)
              (if bool_decide (name = ":message-type")
                  && (bool_decide (value = "exception") || bool_decide (value = "error"))
               then Some (from_utf8_lossy value) else error_type)
  end.

(** A whole frame of [total] bytes with [headers] bytes of headers. *)
Definition decode_frame (d : KiroDecoder) (frame : string) (total headers : Z) : step :=
  match read_headers (S (Z.to_nat headers)) (take_bytes (Z.to_nat headers) (drop_bytes 12 frame)) None with
  | None => fail d "Invalid Kiro event-stream headers"
  | Some error_type =>
      let payload := take_bytes (Z.to_nat (total - 16 - headers)) (drop_bytes (Z.to_nat (12 + headers)) frame) in
      match error_type with
      | Some error_type =>
          let value := default Null (parse_json payload) in
          fail d (default error_type (kiro_error_message value))
      | None => decode_json d payload
      end
  end.

Fixpoint decode_wire (fuel : nat) (d : KiroDecoder) : step :=
  match fuel with
  | O => ([], d)
  | S fuel =>
      if (12 <=? strlen (wire d)) && negb (completed d) then
        let total := u32_at 0 (wire d) in
        let headers := u32_at 4 (wire d) in
        if MAX_KIRO_FRAME_BYTES <? total then fail d "Kiro frame exceeds the size limit"
        else if (total <? 16) || (total - 16 <? headers) then fail d "Invalid Kiro event-stream framing"
        else if strlen (wire d) <? total then ([], d)
        else
          let frame := take_bytes (Z.to_nat total) (wire d) in
          let d := with_wire d (drop_bytes (Z.to_nat total) (wire d)) in
          let '(es, d) := decode_frame d frame total headers in
          let '(es', d) := decode_wire fuel d in (es ++ es', d)
      else ([], d)
  end.

(** [u8::is_ascii_whitespace]. *)
Definition ascii_whitespace (a : ascii) : bool :=
  let b := byte_of a in (b =? 32) || (b =? 9) || (b =? 10) || (b =? 12) || (b =? 13).

Fixpoint first_visible (s : string) : option ascii :=
  match s with
  | EmptyString => None
  | String a s => if ascii_whitespace a then first_visible s else Some a
  end.

Definition decode (d : KiroDecoder) (bytes : string) : step :=
  if completed d then ([], d)
  else
    let d := with_wire d (wire d +:+ bytes) in
    let chosen := match framed d with
                  | Some f => Some f
                  | None => (λ a, negb (bool_decide (a = "{"%char))) <$> first_visible (wire d)
                  end in
    match chosen with
    | None =>
        if MAX_KIRO_FRAME_BYTES <? strlen (wire d)
        then fail d "Kiro stream exceeds the frame limit" else ([], d)
    | Some false => decode_json (with_wire (with_framed d false) "") (wire d)
    | Some true => decode_wire (S (String.length (wire d))) (with_framed d true)
    end.

Definition finish (d : KiroDecoder) : step :=
  if completed d then ([], d)
  else if negb (is_empty (wire d)) || negb (is_empty (pending d)) || negb (is_empty (trim (buffer d)))
  then fail d "Truncated Kiro stream"
  else ([Completed None], ended d).

Fixpoint decodes (d : KiroDecoder) (chunks : list string) : step :=
  match chunks with
  | [] => ([], d)
  | c :: chunks =>
      let '(es, d) := decode d c in
      let '(es', d) := decodes d chunks in (es ++ es', d)
  end.

(** A whole stream: its chunks, then its end. *)
Definition stream (chunks : list string) : list CodexEvent :=
  let '(es, d) := decodes new chunks in
  let '(es', _) := finish d in es ++ es'.
End decoder.

End Kiro.
