(* ===== verification/KiroProps.v ===== *)
(** * Kiro streams are read whole, however they are cut

    Every stream ends with exactly one event that ends it; what an event stream carries does
    not depend on how its bytes were cut into chunks; and the frames the protocol describes
    are read as the objects they carry. *)

From Stdlib Require Import Ascii.
From stdpp Require Import base numbers strings list.
From S2P Require Import Prelude RustStr Json Sse SseProps Preamble Kiro.
Import RustStr Sse Json JsonMake Preamble Kiro.
Open Scope Z_scope.

(** ** Bytes *)

Lemma take_all s : String.substring 0 (String.length s) s = s.
Proof. induction s as [|a s IH]; cbn; [done|]. by rewrite IH. Qed.

Lemma take_drop_bytes n : ∀ s, take_bytes n s +:+ drop_bytes n s = s.
Proof.
  induction n as [|n IH]; intros [|a s]; try done; unfold take_bytes, drop_bytes in *.
  - cbn. by rewrite take_all.
  - cbn [String.substring String.length Nat.sub]. change (String a ?x +:+ ?y) with (String a (x +:+ y)).
    by rewrite IH.
Qed.

Lemma take_bytes_app n : ∀ s t, (n ≤ String.length s)%nat → take_bytes n (s +:+ t) = take_bytes n s.
Proof.
  induction n as [|n IH]; intros [|a s] t Hn; cbn in Hn; try lia; try done.
  { by destruct t. }
  change (String a s +:+ t) with (String a (s +:+ t)). unfold take_bytes in *. cbn [String.substring].
  f_equal. apply IH. lia.
Qed.

Lemma drop_bytes_app n : ∀ s t, (n ≤ String.length s)%nat → drop_bytes n (s +:+ t) = drop_bytes n s +:+ t.
Proof.
  induction n as [|n IH]; intros [|a s] t Hn; cbn in Hn; try lia.
  - change ("" +:+ t) with t. unfold drop_bytes. rewrite Nat.sub_0_r. apply take_all.
  - unfold drop_bytes. rewrite !Nat.sub_0_r. by rewrite !take_all.
  - change (String a s +:+ t) with (String a (s +:+ t)). unfold drop_bytes in *. cbn [String.substring String.length Nat.sub].
    apply IH. lia.
Qed.

Lemma byte_at_app i : ∀ s t, (i < String.length s)%nat → byte_at i (s +:+ t) = byte_at i s.
Proof.
  unfold byte_at. induction i as [|i IH]; intros [|a s] t Hi; cbn in Hi; try lia; [done|].
  change (String a s +:+ t) with (String a (s +:+ t)). cbn [String.get]. apply IH. lia.
Qed.

Lemma u16_at_app i s t : (i + 2 ≤ String.length s)%nat → u16_at i (s +:+ t) = u16_at i s.
Proof. intros Hi. unfold u16_at. by rewrite !byte_at_app by lia. Qed.
Lemma u32_at_app i s t : (i + 4 ≤ String.length s)%nat → u32_at i (s +:+ t) = u32_at i s.
Proof. intros Hi. unfold u32_at. by rewrite !u16_at_app by lia. Qed.

Lemma length_append (s t : string) : String.length (s +:+ t) = (String.length s + String.length t)%nat.
Proof. induction s as [|a s IH]; [done|]. change (String a s +:+ t) with (String a (s +:+ t)). cbn. by rewrite IH. Qed.

Lemma length_take_drop n s : (n ≤ String.length s)%nat →
  String.length (take_bytes n s) = n ∧ String.length (drop_bytes n s) = (String.length s - n)%nat.
Proof.
  revert s. induction n as [|n IH]; intros [|a s] Hn; cbn in Hn; try lia; unfold take_bytes, drop_bytes in *.
  - done.
  - rewrite Nat.sub_0_r, take_all. done.
  - cbn [String.substring String.length Nat.sub]. destruct (IH s) as [H1 H2]; [lia|]. by rewrite H1, H2.
Qed.

Lemma take_bytes_exact s t : take_bytes (String.length s) (s +:+ t) = s.
Proof. rewrite take_bytes_app by done. apply take_all. Qed.
Lemma drop_bytes_exact s t : drop_bytes (String.length s) (s +:+ t) = t.
Proof.
  rewrite drop_bytes_app by done. unfold drop_bytes. rewrite Nat.sub_diag.
  assert (∀ n m, String.substring n 0 m = "") as ->; [|done].
  intros n m. revert n. induction m as [|a m IH]; intros [|n]; cbn; try done. 
Qed.

Section props.
Context (parse_json : string → option Value) (print_json : Value → string).
Abbreviation decode_object := (decode_object print_json).
Abbreviation drain := (drain parse_json print_json).
Abbreviation decode_json := (decode_json parse_json print_json).
Abbreviation decode_frame := (decode_frame parse_json print_json).
Abbreviation decode_wire := (decode_wire parse_json print_json).
Abbreviation decode := (Kiro.decode parse_json print_json).
Abbreviation decodes := (Kiro.decodes parse_json print_json).
Abbreviation stream := (Kiro.stream parse_json print_json).

(** ** One end *)

(** The events of a step: none that ends the stream, or one, the last, that completes the
    decoder. *)
Definition sound (s : list CodexEvent * KiroDecoder) : Prop :=
  if completed s.2 then closed s.1 else SseProps.pending s.1.

Lemma sound_fail d m : sound (fail d m).
Proof. apply (failed_closed [] m). by apply list.Forall_nil_2. Qed.

Lemma sound_seq es s : SseProps.pending es → sound s → sound (es ++ s.1, s.2).
Proof.
  intros He Hs. unfold sound in *. cbn. destruct (completed s.2); [by apply closed_app|by apply Forall_app].
Qed.

Lemma sound_more es d : completed d = false → SseProps.pending es → sound (es, d).
Proof. intros Hd He. unfold sound. cbn. by rewrite Hd. Qed.

Lemma decode_object_sound d v : completed d = false → sound (decode_object d v).
Proof.
  intros Hd. unfold Kiro.decode_object.
  repeat case_match; try apply sound_fail; try (apply sound_more; [done|]; by repeat constructor).
  all: exists [], (Completed None); split_and!; [done|by apply list.Forall_nil_2|done].
Qed.

Lemma drain_sound fuel : ∀ d, completed d = false → sound (drain fuel d).
Proof.
  induction fuel as [|fuel IH]; intros d Hd; cbn [Kiro.drain].
  { apply sound_more; [done|by apply list.Forall_nil_2]. }
  destruct (next_json_object (buffer d)) as [[candidate rest]|].
  - destruct (parse_json candidate) as [v|]; [|apply sound_fail].
    pose proof (decode_object_sound (with_text d rest (Kiro.pending d)) v Hd) as Hs.
    destruct (decode_object _ v) as [es d']. destruct (completed d') eqn:E; [done|].
    specialize (IH d' E). unfold sound in Hs. cbn in Hs. rewrite E in Hs.
    pose proof (sound_seq es _ Hs IH) as Hq. by destruct (drain fuel d').
  - destruct (_ <? _); [apply sound_fail|]. apply sound_more; [done|by apply list.Forall_nil_2].
Qed.

Lemma decode_json_sound d b : completed d = false → sound (decode_json d b).
Proof. intros Hd. unfold Kiro.decode_json. destruct (decode_text _) as [t h]. by apply drain_sound. Qed.

Lemma decode_frame_sound d f t h : completed d = false → sound (decode_frame d f t h).
Proof.
  intros Hd. unfold Kiro.decode_frame. destruct (read_headers _ _ _) as [[e|]|]; try apply sound_fail.
  by apply decode_json_sound.
Qed.

Lemma decode_wire_done fuel d : completed d = true → decode_wire fuel d = ([], d).
Proof. intros Hd. destruct fuel; cbn; [done|]. by rewrite Hd, andb_false_r. Qed.

Lemma decode_wire_sound fuel : ∀ d, completed d = false → sound (decode_wire fuel d).
Proof.
  induction fuel as [|fuel IH]; intros d Hd; cbn [Kiro.decode_wire];
    [apply sound_more; [done|by apply list.Forall_nil_2]|].
  destruct (_ && _); [|apply sound_more; [done|by apply list.Forall_nil_2]].
  destruct (_ <? _); [apply sound_fail|]. destruct (_ || _); [apply sound_fail|].
  destruct (_ <? _); [apply sound_more; [done|by apply list.Forall_nil_2]|].
  set (d0 := with_wire d _). assert (Hd0 : completed d0 = false) by done.
  pose proof (decode_frame_sound d0 (take_bytes (Z.to_nat (u32_at 0 (wire d))) (wire d))
    (u32_at 0 (wire d)) (u32_at 4 (wire d)) Hd0) as Hs.
  destruct (decode_frame d0 _ _ _) as [es d1]. destruct (completed d1) eqn:E.
  - rewrite decode_wire_done by done. rewrite app_nil_r. done.
  - specialize (IH d1 E). unfold sound in Hs. cbn in Hs. rewrite E in Hs.
    pose proof (sound_seq es _ Hs IH) as Hq. by destruct (decode_wire fuel d1).
Qed.

Lemma decode_sound d c : completed d = false → sound (decode d c).
Proof.
  intros Hd. unfold Kiro.decode. rewrite Hd. cbv zeta.
  destruct (match framed _ with Some f => _ | None => _ end) as [[]|].
  - by apply decode_wire_sound.
  - by apply decode_json_sound.
  - destruct (_ <? _); [apply sound_fail|]. apply sound_more; [done|by apply list.Forall_nil_2].
Qed.

Lemma decodes_done cs d : completed d = true → decodes d cs = ([], d).
Proof.
  intros Hd. induction cs as [|c cs IH]; [done|]. cbn. unfold Kiro.decode at 1. rewrite Hd. by rewrite IH.
Qed.

Lemma decodes_sound cs : ∀ d, completed d = false → sound (decodes d cs).
Proof.
  induction cs as [|c cs IH]; intros d Hd; cbn [Kiro.decodes]; [apply sound_more; [done|by apply list.Forall_nil_2]|].
  pose proof (decode_sound d c Hd) as Hs. destruct (decode d c) as [es d1]. destruct (completed d1) eqn:E.
  - rewrite decodes_done by done. by rewrite app_nil_r.
  - specialize (IH d1 E). unfold sound in Hs. cbn in Hs. rewrite E in Hs.
    pose proof (sound_seq es _ Hs IH) as Hq. by destruct (decodes d1 cs).
Qed.

(** A Kiro stream ends exactly once.  Whatever the bytes and however they are cut - frames
    or bare objects, malformed, too large, broken off in a character or in an object, going on
    after their end - the events read from it end with one event that completes or fails the
    response, and no other event of it does. *)
Theorem kiro_ends_once (chunks : list string) :
  ∃ es e, stream chunks = es ++ [e] ∧ Forall (λ e, is_terminal e = false) es ∧ is_terminal e = true.
Proof.
  unfold Kiro.stream. pose proof (decodes_sound chunks new eq_refl) as Hs.
  destruct (decodes new chunks) as [es d]. unfold sound in Hs. cbn in Hs. unfold finish.
  destruct (completed d); [by rewrite app_nil_r|].
  destruct (_ || _).
  - by apply failed_closed.
  - by exists es, (Completed None).
Qed.

(** ** Cuts *)

(** The steps on JSON leave the wire alone. *)
Definition lift (w : string) (s : list CodexEvent * KiroDecoder) : list CodexEvent * KiroDecoder :=
  (s.1, with_wire s.2 w).

Lemma decode_object_wire d w v : decode_object (with_wire d w) v = lift w (decode_object d v).
Proof. unfold Kiro.decode_object. cbn [current_tool with_wire]. by repeat case_match. Qed.

Lemma decode_object_completed d v : completed (decode_object (with_wire d "") v).2 = completed (decode_object d v).2.
Proof. by rewrite decode_object_wire. Qed.

Lemma drain_wire fuel w : ∀ d, drain fuel (with_wire d w) = lift w (drain fuel d).
Proof.
  induction fuel as [|fuel IH]; intros d; cbn [Kiro.drain]; [done|].
  cbn [buffer Kiro.pending with_wire]. destruct (next_json_object (buffer d)) as [[candidate rest]|].
  - destruct (parse_json candidate) as [v|]; [|done].
    change (with_text (with_wire d w) rest (Kiro.pending d)) with (with_wire (with_text d rest (Kiro.pending d)) w).
    rewrite decode_object_wire. destruct (decode_object _ v) as [es d']. unfold lift at 1. cbn [fst snd].
    cbn [completed with_wire]. destruct (completed d'); [done|]. rewrite IH. by destruct (drain fuel d').
  - by destruct (_ <? _).
Qed.

Lemma decode_json_wire d w b : decode_json (with_wire d w) b = lift w (decode_json d b).
Proof.
  unfold Kiro.decode_json. cbn [buffer Kiro.pending with_wire]. destruct (decode_text _) as [t h].
  change (with_text (with_wire d w) (buffer d +:+ t) h) with (with_wire (with_text d (buffer d +:+ t) h) w).
  apply drain_wire.
Qed.

Lemma decode_frame_wire d w f t h : decode_frame (with_wire d w) f t h = lift w (decode_frame d f t h).
Proof.
  unfold Kiro.decode_frame. destruct (read_headers _ _ _) as [[e|]|]; [done| |done]. apply decode_json_wire.
Qed.

Lemma lift_lift w w' s : lift w (lift w' s) = lift w s.
Proof. done. Qed.

(** Decoders that go on alike: the same, or both at their end. *)
Definition alike (d d' : KiroDecoder) : Prop := d = d' ∨ (completed d = true ∧ completed d' = true).

(** The loop with the fuel that is enough. *)
Definition read_wire (d : KiroDecoder) : list CodexEvent * KiroDecoder :=
  decode_wire (S (String.length (wire d))) d.

Lemma frame_length d : (MAX_KIRO_FRAME_BYTES <? u32_at 0 (wire d)) = false →
  (u32_at 0 (wire d) <? 16) || (u32_at 0 (wire d) - 16 <? u32_at 4 (wire d)) = false →
  (strlen (wire d) <? u32_at 0 (wire d)) = false →
  (16 ≤ Z.to_nat (u32_at 0 (wire d)) ≤ String.length (wire d))%nat.
Proof. intros _ [H _]%orb_false_iff. rewrite !Z.ltb_ge in *. unfold strlen. lia. Qed.

Lemma decode_frame_keeps d f t h : wire (decode_frame d f t h).2 = wire d.
Proof.
  assert (d = with_wire d (wire d)) as E by by destruct d. rewrite E at 1. by rewrite decode_frame_wire.
Qed.

Lemma decode_wire_fuel fuel : ∀ d, (String.length (wire d) < fuel)%nat → decode_wire fuel d = read_wire d.
Proof.
  unfold read_wire. intros d. remember (S (String.length (wire d))) as m eqn:Em.
  assert (Hm : (String.length (wire d) < m)%nat) by lia. clear Em. revert m d Hm.
  induction fuel as [|fuel IH]; intros m d Hm Hf; [lia|]. destruct m as [|m]; [lia|]. cbn [Kiro.decode_wire].
  destruct (_ && _); [|done]. destruct (_ <? _) eqn:E1; [done|]. destruct (_ || _) eqn:E2; [done|].
  destruct (strlen (wire d) <? _) eqn:E3; [done|]. pose proof (frame_length d E1 E2 E3) as Hl.
  set (d0 := with_wire d _). destruct (decode_frame d0 _ _ _) as [es d1] eqn:E4.
  assert (Hw : String.length (wire d1) = (String.length (wire d) - Z.to_nat (u32_at 0 (wire d)))%nat).
  { pose proof (decode_frame_keeps d0 (take_bytes (Z.to_nat (u32_at 0 (wire d))) (wire d))
      (u32_at 0 (wire d)) (u32_at 4 (wire d))) as Hk. rewrite E4 in Hk. cbn in Hk. rewrite Hk.
    destruct (length_take_drop (Z.to_nat (u32_at 0 (wire d))) (wire d)) as [_ H2]; [lia|exact H2]. }
  by rewrite (IH m d1) by lia.
Qed.

(** A turn of the loop on a frame that is there. *)
Lemma read_wire_frame d : completed d = false → 12 ≤ strlen (wire d) →
  (MAX_KIRO_FRAME_BYTES <? u32_at 0 (wire d)) = false →
  (u32_at 0 (wire d) <? 16) || (u32_at 0 (wire d) - 16 <? u32_at 4 (wire d)) = false →
  (strlen (wire d) <? u32_at 0 (wire d)) = false →
  read_wire d =
    let total := Z.to_nat (u32_at 0 (wire d)) in
    let '(es, d1) := decode_frame (with_wire d (drop_bytes total (wire d))) (take_bytes total (wire d))
                       (u32_at 0 (wire d)) (u32_at 4 (wire d)) in
    let '(es', d2) := read_wire d1 in (es ++ es', d2).
Proof.
  intros Hd Hw E1 E2 E3. unfold read_wire at 1. cbn [Kiro.decode_wire]. rewrite Hd, (proj2 (Z.leb_le _ _) Hw).
  cbn [andb negb]. rewrite E1, E2, E3. cbv zeta. pose proof (frame_length d E1 E2 E3) as Hl.
  set (d0 := with_wire d _). destruct (decode_frame d0 _ _ _) as [es d1] eqn:E4.
  rewrite decode_wire_fuel; [done|].
  pose proof (decode_frame_keeps d0 (take_bytes (Z.to_nat (u32_at 0 (wire d))) (wire d))
      (u32_at 0 (wire d)) (u32_at 4 (wire d))) as Hk. rewrite E4 in Hk. cbn in Hk. rewrite Hk.
  destruct (length_take_drop (Z.to_nat (u32_at 0 (wire d))) (wire d)) as [_ ->]; lia.
Qed.

Lemma read_wire_done d : completed d = true → read_wire d = ([], d).
Proof. apply decode_wire_done. Qed.

(** A frame that is refused, and a frame that is not there yet. *)
Lemma read_wire_refuses d : completed d = false → 12 ≤ strlen (wire d) →
  ((MAX_KIRO_FRAME_BYTES <? u32_at 0 (wire d)) = true ∨
   (u32_at 0 (wire d) <? 16) || (u32_at 0 (wire d) - 16 <? u32_at 4 (wire d)) = true) →
  read_wire d = fail d (if MAX_KIRO_FRAME_BYTES <? u32_at 0 (wire d)
                        then "Kiro frame exceeds the size limit" else "Invalid Kiro event-stream framing").
Proof.
  intros Hd Hl Hor. unfold read_wire. cbn [Kiro.decode_wire]. rewrite Hd, (proj2 (Z.leb_le _ _) Hl). cbn [andb negb].
  destruct (_ <? _) eqn:E; [done|]. destruct Hor as [?| ->]; done.
Qed.

Lemma read_wire_waits d : completed d = false →
  (12 <=? strlen (wire d)) = false ∨
  (MAX_KIRO_FRAME_BYTES <? u32_at 0 (wire d)) = false ∧
  (u32_at 0 (wire d) <? 16) || (u32_at 0 (wire d) - 16 <? u32_at 4 (wire d)) = false ∧
  (strlen (wire d) <? u32_at 0 (wire d)) = true →
  read_wire d = ([], d).
Proof.
  intros Hd H. unfold read_wire. cbn [Kiro.decode_wire]. rewrite Hd. destruct H as [->|(-> & -> & ->)]; [done|].
  by destruct (_ <=? _).
Qed.

(** A turn that ends the loop on what is there ends it on more bytes too, or more bytes are
    all it waits for. *)
Lemma read_wire_app n : ∀ d c, (String.length (wire d) ≤ n)%nat → completed d = false →
  ∃ d', alike d' (let '(_, d1) := read_wire d in
                  (read_wire (with_wire d1 (wire d1 +:+ c))).2) ∧
    read_wire (with_wire d (wire d +:+ c)) =
    (let '(es1, d1) := read_wire d in es1 ++ (read_wire (with_wire d1 (wire d1 +:+ c))).1, d').
Proof.
  induction n as [n IH] using lt_wf_ind. intros d c Hn Hd.
  destruct (12 <=? strlen (wire d)) eqn:E0.
  2:{ assert (read_wire d = ([], d)) as -> by (apply read_wire_waits; auto).
      eexists. split; [by left|]. by destruct (read_wire _). }
  apply Z.leb_le in E0. assert (H12 : (12 ≤ String.length (wire d))%nat) by (unfold strlen in E0; lia).
  set (dc := with_wire d (wire d +:+ c)).
  assert (Ht : u32_at 0 (wire dc) = u32_at 0 (wire d)) by (apply u32_at_app; lia).
  assert (Hh : u32_at 4 (wire dc) = u32_at 4 (wire d)) by (apply u32_at_app; lia).
  assert (Hlc : strlen (wire dc) = strlen (wire d) + strlen c) by apply strlen_app.
  pose proof (strlen_nonneg c) as Hc.
  destruct (MAX_KIRO_FRAME_BYTES <? u32_at 0 (wire d)) eqn:E1.
  { rewrite (read_wire_refuses d), (read_wire_refuses dc) by (rewrite ?Ht; auto; lia). rewrite Ht, E1. cbn [fail].
    exists (ended dc). split; [|by rewrite read_wire_done]. right. by rewrite read_wire_done. }
  destruct ((u32_at 0 (wire d) <? 16) || (u32_at 0 (wire d) - 16 <? u32_at 4 (wire d))) eqn:E2.
  { rewrite (read_wire_refuses d), (read_wire_refuses dc) by (rewrite ?Ht, ?Hh; auto; lia). rewrite Ht, E1. cbn [fail].
    exists (ended dc). split; [|by rewrite read_wire_done]. right. by rewrite read_wire_done. }
  destruct (strlen (wire d) <? u32_at 0 (wire d)) eqn:E3.
  { assert (read_wire d = ([], d)) as ->.
    { apply read_wire_waits; [done|]. right. by rewrite E1, E2, E3. }
    eexists. split; [by left|]. by destruct (read_wire _). }
  pose proof (frame_length d E1 E2 E3) as Hl.
  rewrite (read_wire_frame dc), Ht, Hh by (rewrite ?Ht, ?Hh; try done; lia || (apply Z.ltb_ge in E3; apply Z.ltb_ge; lia)).
  rewrite (read_wire_frame d) by done. cbv zeta.
  set (total := Z.to_nat (u32_at 0 (wire d))) in *. unfold dc. cbn [wire with_wire].
  rewrite take_bytes_app, drop_bytes_app by lia.
  change (with_wire (with_wire d (wire d +:+ c)) (drop_bytes total (wire d) +:+ c))
    with (with_wire (with_wire d (drop_bytes total (wire d))) (drop_bytes total (wire d) +:+ c)).
  rewrite (decode_frame_wire (with_wire d (drop_bytes total (wire d))) (drop_bytes total (wire d) +:+ c)).
  pose proof (decode_frame_keeps (with_wire d (drop_bytes total (wire d))) (take_bytes total (wire d))
    (u32_at 0 (wire d)) (u32_at 4 (wire d))) as Hk.
  destruct (decode_frame _ _ _ _) as [es d1]. unfold lift. cbn [fst snd] in *. cbn in Hk.
  rewrite <- Hk. destruct (completed d1) eqn:E5.
  - exists (with_wire d1 (wire d1 +:+ c)). rewrite (read_wire_done d1) by done.
    rewrite (read_wire_done (with_wire d1 _)) by done. split; [by left|]. by rewrite !app_nil_r.
  - destruct (IH (String.length (wire d1)) ltac:(rewrite Hk; destruct (length_take_drop total (wire d)); lia) d1 c ltac:(done) E5) as (d' & Ha & ->).
    exists d'. destruct (read_wire d1) as [es1 d2]. split; [done|]. by rewrite app_assoc.
Qed.

(** Nothing more can be read off the wire. *)
Definition settled (d : KiroDecoder) : Prop := (read_wire d).1 = [] ∧ alike d (read_wire d).2.

Lemma read_wire_settled d : completed d = false → settled (read_wire d).2.
Proof.
  intros Hd. destruct (read_wire_app (String.length (wire d)) d "" ltac:(done) Hd) as (d' & Ha & E).
  assert (∀ e, with_wire e (wire e +:+ "") = e) as Hid by (intros []; unfold with_wire; cbn; by rewrite append_nil_r).
  rewrite Hid in E. destruct (read_wire d) as [es1 d1] eqn:E1. rewrite Hid in E, Ha. injection E as E ->.
  split; [|done]. cbn [snd]. apply (f_equal length) in E. rewrite length_app in E. apply length_zero_iff_nil. lia.
Qed.

Lemma decode_framed d c : completed d = false → framed d = Some true →
  decode d c = read_wire (with_wire d (wire d +:+ c)).
Proof.
  intros Hd Hf. unfold Kiro.decode. rewrite Hd. cbn [framed with_wire]. rewrite Hf.
  assert (with_framed (with_wire d (wire d +:+ c)) true = with_wire d (wire d +:+ c)) as ->; [|done].
  unfold with_framed, with_wire. cbn. by rewrite Hf.
Qed.

Lemma decode_json_framed d b : framed (decode_json d b).2 = framed d.
Proof.
  assert (Ho : ∀ d v, framed (decode_object d v).2 = framed d).
  { intros e v. unfold Kiro.decode_object. by repeat case_match. }
  assert (Hd : ∀ fuel d, framed (drain fuel d).2 = framed d).
  { induction fuel as [|fuel IH]; intros e; cbn [Kiro.drain]; [done|].
    destruct (next_json_object (buffer e)) as [[candidate rest]|]; [|by destruct (_ <? _)].
    destruct (parse_json candidate) as [v|]; [|done]. pose proof (Ho (with_text e rest (Kiro.pending e)) v) as H.
    destruct (decode_object _ v) as [es e1]. destruct (completed e1); [done|]. specialize (IH e1).
    destruct (drain fuel e1). cbn in *. congruence. }
  unfold Kiro.decode_json. destruct (decode_text _). by rewrite Hd.
Qed.

Lemma read_wire_framed n : ∀ d, (String.length (wire d) ≤ n)%nat → framed (read_wire d).2 = framed d.
Proof.
  assert (Hf : ∀ d f t h, framed (decode_frame d f t h).2 = framed d).
  { intros d f t h. unfold Kiro.decode_frame. destruct (read_headers _ _ _) as [[]|]; [done| |done]. apply decode_json_framed. }
  assert (H : ∀ fuel d, framed (decode_wire fuel d).2 = framed d); [|by intros; apply H].
  induction fuel as [|fuel IH]; intros d; cbn [Kiro.decode_wire]; [done|].
  repeat (destruct (_ : bool); [done|]). destruct (_ && _); [|done]. repeat (destruct (_ : bool); [done|]).
  set (d0 := with_wire d _). pose proof (Hf d0 (take_bytes (Z.to_nat (u32_at 0 (wire d))) (wire d))
    (u32_at 0 (wire d)) (u32_at 4 (wire d))) as H. destruct (decode_frame d0 _ _ _) as [es d1].
  specialize (IH d1). destruct (decode_wire fuel d1). cbn in *. congruence.
Qed.

Lemma concat_cons c cs : String.concat "" (c :: cs) = c +:+ String.concat "" cs.
Proof. destruct cs; cbn; [by rewrite append_nil_r|done]. Qed.

Lemma decodes_framed cs : ∀ d, completed d = false → framed d = Some true → settled d →
  ∃ d', alike d' (read_wire (with_wire d (wire d +:+ String.concat "" cs))).2 ∧
    decodes d cs = ((read_wire (with_wire d (wire d +:+ String.concat "" cs))).1, d').
Proof.
  induction cs as [|c cs IH]; intros d Hd Hf [Hs1 Hs2]; cbn [Kiro.decodes].
  { cbn [String.concat]. rewrite append_nil_r. assert (with_wire d (wire d) = d) as -> by by destruct d.
    exists d. by rewrite Hs1. }
  rewrite concat_cons, decode_framed by done.
  set (dc := with_wire d (wire d +:+ c)). assert (Hdc : completed dc = false) by done.
  destruct (read_wire_app (String.length (wire dc)) dc (String.concat "" cs) ltac:(done) Hdc) as (d' & Ha & E).
  pose proof (read_wire_settled dc Hdc) as Hs. pose proof (read_wire_framed _ dc (Nat.le_refl _)) as Hfr.
  change (with_wire dc _) with (with_wire d ((wire d +:+ c) +:+ String.concat "" cs)) in E.
  rewrite append_assoc in E. rewrite E.
  destruct (read_wire dc) as [es d1]. cbn [fst snd] in *. destruct (completed d1) eqn:Ed1.
  - rewrite decodes_done by done. rewrite read_wire_done in Ha |- * by done. exists d1. split; [|done].
    right. split; [done|]. destruct Ha as [->|[? _]]; done.
  - destruct (IH d1 Ed1 ltac:(by rewrite Hfr) Hs) as (d2 & Ha2 & ->). exists d2. split; [|done].
    destruct Ha as [->|[H1 H2]]; [done|]. destruct Ha2 as [->|[H3 H4]]; right; done.
Qed.

Lemma decodes_blank cs : String.concat "" cs = "" → decodes new cs = ([], new).
Proof.
  induction cs as [|c cs IH]; [done|]. rewrite concat_cons. destruct c as [|a c]; [|done].
  intros H. cbn [Kiro.decodes]. change (decode new "") with ([] : list CodexEvent, new). cbv beta iota. by rewrite IH.
Qed.

(** A stream that starts with a byte of a frame. *)
Lemma stream_framed cs a rest : String.concat "" cs = String a rest → ascii_whitespace a = false →
  a ≠ "{"%char →
  stream cs = let run := read_wire (with_wire (with_framed new true) (String a rest)) in
              run.1 ++ (finish run.2).1.
Proof.
  intros Hc Hw Hb. cbv zeta. assert (Hr : ∃ d', alike d' (read_wire (with_wire (with_framed new true) (String a rest))).2 ∧
    decodes new cs = ((read_wire (with_wire (with_framed new true) (String a rest))).1, d')).
  { induction cs as [|c cs IH]; [done|]. rewrite concat_cons in Hc. destruct c as [|b c].
    - destruct (IH Hc) as (d' & Ha & E). exists d'. split; [done|]. cbn [Kiro.decodes].
      change (decode new "") with ([] : list CodexEvent, new). cbv beta iota. by rewrite E.
    - change (String b c +:+ ?x) with (String b (c +:+ x)) in Hc. injection Hc as -> <-.
      set (dc := with_wire (with_framed new true) (String a c)).
      assert (Hd : decode new (String a c) = read_wire dc).
      { unfold Kiro.decode. cbn [completed new wire with_wire framed]. change ("" +:+ String a c) with (String a c).
        cbn [first_visible]. rewrite Hw. cbn [fmap option_fmap option_map]. by rewrite bool_decide_false. }
      cbn [Kiro.decodes]. rewrite Hd. destruct (read_wire_app (String.length (wire dc)) dc (String.concat "" cs) ltac:(done) eq_refl) as (d' & Ha & E).
      change (with_wire dc _) with (with_wire (with_framed new true) (String a (c +:+ String.concat "" cs))) in E. rewrite E.
      pose proof (read_wire_settled dc eq_refl) as Hs. pose proof (read_wire_framed _ dc (Nat.le_refl _)) as Hfr.
      destruct (read_wire dc) as [es d1]. cbn [fst snd] in *. destruct (completed d1) eqn:Ed1.
      + rewrite decodes_done by done. rewrite read_wire_done in Ha |- * by done. exists d1. split; [|done].
        right. split; [done|]. destruct Ha as [->|[? _]]; done.
      + destruct (decodes_framed cs d1 Ed1 ltac:(by rewrite Hfr) Hs) as (d2 & Ha2 & ->). exists d2. split; [|done].
        destruct Ha as [->|[H1 H2]]; [done|]. destruct Ha2 as [->|[H3 H4]]; right; done. }
  destruct Hr as (d' & Ha & E). unfold Kiro.stream. rewrite E.
  destruct Ha as [->|[H1 H2]]; [by destruct (finish _)|]. unfold finish. by rewrite H1, H2.
Qed.
End props.

(** ** Frames as the protocol describes them *)

Definition byte (n : Z) : ascii := ascii_of_N (Z.to_N n).
Definition be16 (n : Z) : string := String (byte (n / 256)) (String (byte (n mod 256)) "").
Definition be32 (n : Z) : string := be16 (n / 65536) +:+ be16 (n mod 65536).

(** A message: its headers (all strings), an object, and the two checksums around them. *)
Record Message := {
  prelude_crc : string;
  headers : list (string * string);
  body : Value;
  message_crc : string;
}.

Definition header_bytes (h : string * string) : string :=
  String (byte (strlen h.1)) "" +:+ h.1 +:+ String (byte 7) "" +:+ be16 (strlen h.2) +:+ h.2.
Definition headers_bytes (hs : list (string * string)) : string := String.concat "" (header_bytes <$> hs).

Lemma byte_of_byte n : 0 ≤ n < 256 → byte_of (byte n) = n.
Proof. intros Hn. unfold byte_of, byte. rewrite N_ascii_embedding by lia. lia. Qed.

Lemma div_mod_range n q m : 0 < m → 0 ≤ n < q * m →
  0 ≤ n / m < q ∧ 0 ≤ n mod m < m ∧ n / m * m + n mod m = n.
Proof.
  intros Hm Hn. pose proof (Z.mod_pos_bound n m Hm). pose proof (Z.div_mod n m ltac:(lia)).
  assert (0 ≤ n / m) by (apply Z.div_pos; lia). assert (n / m < q) by (apply Z.div_lt_upper_bound; lia). lia.
Qed.

Lemma u16_be16 n s : 0 ≤ n < 65536 → u16_at 0 (be16 n +:+ s) = n.
Proof.
  intros Hn. unfold u16_at, byte_at, be16. change (String ?a (String ?b "") +:+ s) with (String a (String b s)).
  cbn [String.get Nat.add]. destruct (div_mod_range n 256 256) as (H1 & H2 & H3); [lia..|].
  rewrite !byte_of_byte; lia.
Qed.

Lemma u32_be32 n s : 0 ≤ n < 4294967296 → u32_at 0 (be32 n +:+ s) = n.
Proof.
  intros Hn. destruct (div_mod_range n 65536 65536) as (H1 & H2 & H3); [lia..|].
  unfold u32_at, be32. rewrite append_assoc. rewrite u16_be16 by lia.
  assert (∀ a b, u16_at (0 + 2) (be16 a +:+ b) = u16_at 0 b) as -> by done. rewrite u16_be16 by lia. lia.
Qed.

(** The error a message announces. *)
Definition error_step (e : option string) (h : string * string) : option string :=
  if bool_decide (h.1 = ":message-type") && (bool_decide (h.2 = "exception") || bool_decide (h.2 = "error"))
  then Some (from_utf8_lossy h.2) else e.
Definition error_type (hs : list (string * string)) : option string := foldl error_step None hs.

Definition header_fits (h : string * string) : Prop := strlen h.1 < 256 ∧ strlen h.2 < 65536.

Lemma drop_one a s : drop_bytes 1 (String a s) = s.
Proof. unfold drop_bytes. cbn [String.substring String.length Nat.sub]. rewrite Nat.sub_0_r. apply take_all. Qed.

Lemma to_nat_strlen s : Z.to_nat (strlen s) = String.length s.
Proof. unfold strlen. lia. Qed.

Lemma byte_at_exact s a t : byte_at (String.length s) (s +:+ String a t) = byte_of a.
Proof.
  unfold byte_at. induction s as [|b s IH]; [done|]. change (String b s +:+ ?x) with (String b (s +:+ x)).
  cbn [String.length String.get]. apply IH.
Qed.

Lemma drop_past s a t : drop_bytes (String.length s + 1) (s +:+ String a t) = t.
Proof.
  change (String a t) with (String a "" +:+ t). rewrite <- append_assoc.
  assert (String.length s + 1 = String.length (s +:+ String a ""))%nat as -> by (rewrite length_append; cbn; lia).
  apply drop_bytes_exact.
Qed.

Lemma read_headers_app hs : ∀ fuel e, Forall header_fits hs → (length hs < fuel)%nat →
  read_headers fuel (headers_bytes hs) e = Some (foldl error_step e hs).
Proof.
  induction hs as [|[n v] hs IH]; intros [|fuel] e Hf Hl; cbn [length] in Hl; try lia; [done|].
  apply list.Forall_cons in Hf as [[Hn Hv] Hf]. cbn [fst snd] in *. unfold headers_bytes. rewrite fmap_cons, concat_cons.
  fold (headers_bytes hs). unfold header_bytes. cbn [fst snd]. rewrite !append_assoc.
  set (rest := headers_bytes hs) in *. pose proof (strlen_nonneg n). pose proof (strlen_nonneg v).
  change (String (byte (strlen n)) "" +:+ ?x) with (String (byte (strlen n)) x). cbn [read_headers is_empty].
  rewrite drop_one. change (byte_at 0 (String ?a ?x)) with (byte_of a). rewrite byte_of_byte by lia.
  rewrite to_nat_strlen. change (String (byte 7) "" +:+ ?x) with (String (byte 7) x). rewrite byte_at_exact.
  rewrite byte_of_byte by lia.
  assert (Hlen : strlen (n +:+ String (byte 7) (be16 (strlen v) +:+ v +:+ rest)) = strlen n + 3 + strlen v + strlen rest).
  { rewrite strlen_app. change (String (byte 7) ?x) with (String (byte 7) "" +:+ x). rewrite !strlen_app.
    change (strlen (String (byte 7) "")) with 1. change (strlen (be16 _)) with 2. lia. }
  pose proof (strlen_nonneg rest). rewrite Hlen, (proj2 (Z.ltb_ge _ _)) by lia. cbn [negb orb Z.eqb].
  rewrite take_bytes_exact. replace (Z.to_nat (strlen n + 1)) with (String.length n + 1)%nat by (unfold strlen; lia).
  rewrite drop_past, u16_be16 by lia.
  assert (drop_bytes 2 (be16 (strlen v) +:+ v +:+ rest) = v +:+ rest) as -> by apply (drop_bytes_exact (be16 (strlen v))).
  rewrite strlen_app, (proj2 (Z.ltb_ge _ _)) by lia. rewrite to_nat_strlen, take_bytes_exact, drop_bytes_exact.
  cbn [foldl]. apply IH; [done|lia].
Qed.

Section messages.
Context (parse_json : string → option Value) (print_json : Value → string).
Abbreviation decode_object := (decode_object print_json).
Abbreviation read_wire := (read_wire parse_json print_json).
Abbreviation stream := (Kiro.stream parse_json print_json).

Definition headers_length (m : Message) : Z := strlen (headers_bytes (headers m)).
Definition total_length (m : Message) : Z := 16 + headers_length m + strlen (print_json (body m)).
Definition message_bytes (m : Message) : string :=
  be32 (total_length m) +:+ be32 (headers_length m) +:+ prelude_crc m +:+ headers_bytes (headers m)
  +:+ print_json (body m) +:+ message_crc m.

(** What is relied on of a message: it fits the protocol's field widths and the decoder's
    limit, and its text is one object that the JSON library reads back. *)
Definition sendable (m : Message) : Prop :=
  String.length (prelude_crc m) = 4%nat ∧ String.length (message_crc m) = 4%nat ∧
  Forall header_fits (headers m) ∧ total_length m ≤ MAX_KIRO_FRAME_BYTES ∧
  utf8_check (print_json (body m)) = Valid ∧
  next_json_object (print_json (body m)) = Some (print_json (body m), "") ∧
  parse_json (print_json (body m)) = Some (body m).

(** ** What the messages say *)

Definition message_step (d : KiroDecoder) (m : Message) : list CodexEvent * KiroDecoder :=
  match error_type (headers m) with
  | Some ty => fail d (default ty (kiro_error_message (body m)))
  | None => decode_object d (body m)
  end.

Fixpoint read_messages (d : KiroDecoder) (ms : list Message) : list CodexEvent * KiroDecoder :=
  match ms with
  | [] => ([], d)
  | m :: ms =>
      let '(es, d) := message_step d m in
      if completed d then (es, d)
      else let '(es', d) := read_messages d ms in (es ++ es', d)
  end.

Definition clean (d : KiroDecoder) : Prop := buffer d = "" ∧ Kiro.pending d = "".

Lemma decode_object_clean d v : clean d → clean (decode_object d v).2.
Proof. intros Hd. unfold Kiro.decode_object. by repeat case_match. Qed.

Lemma decode_json_object d m : sendable m → clean d →
  decode_json parse_json print_json d (print_json (body m)) = decode_object d (body m).
Proof.
  intros (_ & _ & _ & _ & Hu & Ho & Hp) Hd. pose proof Hd as [Hb Hk]. unfold Kiro.decode_json. rewrite Hk, Hb.
  change ("" +:+ ?x) with x. unfold decode_text. rewrite Hu. change ("" +:+ ?x) with x.
  set (text := print_json (body m)) in *. cbn [buffer with_text]. cbn [Kiro.drain buffer with_text Kiro.pending].
  rewrite Ho, Hp. change (with_text (with_text d text "") "" "") with (with_text d "" "").
  assert (with_text d "" "" = d) as -> by (destruct d; unfold with_text, clean in *; cbn in *; by rewrite Hb, Hk).
  pose proof (decode_object_clean d (body m) Hd) as [Hc _]. destruct (decode_object d (body m)) as [es d1].
  destruct (completed d1); [done|]. destruct text as [|a text]; [done|]. cbn [String.length Kiro.drain].
  cbn in Hc. rewrite Hc. cbn [next_json_object]. change (MAX_KIRO_JSON_BUFFER_BYTES <? strlen "") with false.
  cbv beta iota. by rewrite app_nil_r.
Qed.

Lemma length_be32 n : String.length (be32 n) = 4%nat.
Proof. done. Qed.

(** The parts of a frame. *)
Lemma message_length m : sendable m → strlen (message_bytes m) = total_length m.
Proof.
  intros (Hp & Hq & _). assert (strlen (prelude_crc m) = 4) as Hp' by (unfold strlen; lia).
  assert (strlen (message_crc m) = 4) as Hq' by (unfold strlen; lia).
  unfold message_bytes. rewrite !strlen_app. change (strlen (be32 _)) with 4.
  rewrite Hp', Hq'. unfold total_length, headers_length. change (strlen (be32 _)) with 4. lia.
Qed.

Lemma message_headers m : sendable m →
  drop_bytes 12 (message_bytes m) = headers_bytes (headers m) +:+ print_json (body m) +:+ message_crc m.
Proof.
  intros (Hp & _). unfold message_bytes. rewrite <- (append_assoc (be32 _) (prelude_crc m)), <- append_assoc.
  set (p := be32 _ +:+ be32 _ +:+ prelude_crc m).
  assert (12%nat = String.length p) as -> by (unfold p; rewrite !length_append, Hp, !length_be32; done).
  apply drop_bytes_exact.
Qed.

Lemma drop_drop i j s : (i + j ≤ String.length s)%nat → drop_bytes (i + j) s = drop_bytes j (drop_bytes i s).
Proof.
  revert s. induction i as [|i IH]; intros s H; cbn [Nat.add].
  - assert (drop_bytes 0 s = s) as ->; [|done]. unfold drop_bytes. by rewrite Nat.sub_0_r, take_all.
  - destruct s as [|a s]; cbn in H; [lia|]. unfold drop_bytes in *. cbn [String.substring String.length Nat.sub]. apply IH. lia.
Qed.

Lemma message_payload m : sendable m →
  take_bytes (Z.to_nat (total_length m - 16 - headers_length m))
     (drop_bytes (Z.to_nat (12 + headers_length m)) (message_bytes m)) = print_json (body m).
Proof.
  intros Hm. pose proof (message_length m Hm) as Hl.
  pose proof (strlen_nonneg (print_json (body m))) as Hb0.
  replace (Z.to_nat (12 + headers_length m)) with (12 + String.length (headers_bytes (headers m)))%nat
    by (unfold headers_length, strlen; lia).
  replace (Z.to_nat (total_length m - 16 - headers_length m)) with (String.length (print_json (body m)))
    by (unfold total_length, strlen; lia).
  rewrite drop_drop; [by rewrite message_headers, drop_bytes_exact, take_bytes_exact|].
  unfold total_length, headers_length, strlen in *. lia.
Qed.

Lemma headers_fuel hs : (length hs ≤ String.length (headers_bytes hs))%nat.
Proof.
  induction hs as [|h hs IH]; [cbn; lia|]. unfold headers_bytes. rewrite fmap_cons, concat_cons, length_append.
  fold (headers_bytes hs). cbn [length]. unfold header_bytes.
  change (String (byte (strlen h.1)) "" +:+ ?x) with (String (byte (strlen h.1)) x). cbn [String.length]. lia.
Qed.

Lemma message_lengths m rest : sendable m →
  u32_at 0 (message_bytes m +:+ rest) = total_length m ∧ u32_at 4 (message_bytes m +:+ rest) = headers_length m ∧
  16 ≤ total_length m ≤ MAX_KIRO_FRAME_BYTES ∧ headers_length m ≤ total_length m - 16.
Proof.
  intros (_ & _ & _ & Hmax & _). assert (MAX_KIRO_FRAME_BYTES < 4294967296) by by vm_compute.
  pose proof (strlen_nonneg (headers_bytes (headers m))) as Hh0.
  pose proof (strlen_nonneg (print_json (body m))) as Hb0.
  unfold total_length, headers_length in *. split_and!; try lia.
  - unfold message_bytes. rewrite !append_assoc. apply u32_be32. unfold total_length, headers_length. lia.
  - unfold message_bytes. rewrite !append_assoc.
    assert (∀ n s, u32_at 4 (be32 n +:+ s) = u32_at 0 s) as -> by done. apply u32_be32. unfold headers_length. lia.
Qed.

Lemma read_message d m rest : sendable m → clean d → completed d = false → wire d = message_bytes m +:+ rest →
  read_wire d = let '(es, d1) := message_step (with_wire d rest) m in
                let '(es', d2) := read_wire d1 in (es ++ es', d2).
Proof.
  intros Hm Hc Hd Hw. destruct (message_lengths m rest Hm) as (Ht & Hh & Hb & Hhb). rewrite <- Hw in Ht, Hh.
  pose proof (strlen_nonneg rest) as Hr0.
  assert (Hwl : strlen (wire d) = total_length m + strlen rest) by by rewrite Hw, strlen_app, message_length.
  rewrite read_wire_frame.
  2: done.
  2: rewrite Hwl; lia.
  2: rewrite Ht; apply Z.ltb_ge; lia.
  2: rewrite Ht, Hh; apply orb_false_iff; rewrite !Z.ltb_ge; lia.
  2: rewrite Hwl, Ht; apply Z.ltb_ge; lia.
  cbv zeta. rewrite Ht, Hh. assert (Hn : Z.to_nat (total_length m) = String.length (message_bytes m)).
  { rewrite <- message_length by done. apply to_nat_strlen. }
  rewrite Hn, Hw, take_bytes_exact, drop_bytes_exact. unfold decode_frame.
  rewrite message_headers by done. unfold headers_length at 1 2. rewrite to_nat_strlen, take_bytes_exact.
  rewrite read_headers_app; [|apply Hm|apply Nat.lt_succ_r, headers_fuel].
  rewrite message_payload by done. unfold message_step, error_type. destruct (foldl error_step None (headers m)) as [ty|].
  - destruct Hm as (_ & _ & _ & _ & _ & _ & ->). done.
  - by rewrite decode_json_object.
Qed.

(** Decoders between messages that differ in how they got there. *)
Definition same (d d' : KiroDecoder) : Prop :=
  current_tool d = current_tool d' ∧ completed d = completed d'.

Lemma message_step_same d d' m : same d d' →
  (message_step d m).1 = (message_step d' m).1 ∧ same (message_step d m).2 (message_step d' m).2.
Proof.
  intros [Ht Hc]. unfold message_step, Kiro.decode_object, same, fail.
  destruct (error_type (headers m)); [done|]. rewrite Ht.
  repeat case_match; cbn; split_and!; congruence.
Qed.

Lemma message_step_keeps d m : clean d → clean (message_step d m).2 ∧ wire (message_step d m).2 = wire d.
Proof.
  intros Hd. unfold message_step. destruct (error_type (headers m)); [done|]. split; [by apply decode_object_clean|].
  unfold Kiro.decode_object. by repeat case_match.
Qed.

Lemma read_wire_messages ms : ∀ d r, Forall sendable ms → clean d → completed d = false → same d r →
  wire d = String.concat "" (message_bytes <$> ms) →
  (read_wire d).1 = (read_messages r ms).1 ∧ same (read_wire d).2 (read_messages r ms).2 ∧
  (completed (read_wire d).2 = false → clean (read_wire d).2 ∧ wire (read_wire d).2 = "").
Proof.
  induction ms as [|m ms IH]; intros d r Hms Hc Hd Hs Hw.
  { assert (read_wire d = ([], d)) as ->; [|done]. apply read_wire_waits; [done|]. left. by rewrite Hw. }
  apply list.Forall_cons in Hms as [Hm Hms]. rewrite fmap_cons, concat_cons in Hw.
  rewrite (read_message d m _ Hm Hc Hd Hw). cbn [read_messages].
  set (d0 := with_wire d _). assert (Hc0 : clean d0) by done. assert (Hs0 : same d0 r) by done.
  destruct (message_step_same d0 r m Hs0) as [He Hs1]. destruct (message_step_keeps d0 m Hc0) as [Hc1 Hw1].
  destruct (message_step d0 m) as [es d1], (message_step r m) as [es2 r1]. cbn [fst snd] in *. subst es2.
  pose proof Hs1 as [_ Hcc]. rewrite <- Hcc. destruct (completed d1) eqn:E.
  - rewrite read_wire_done by done. cbn [fst snd]. rewrite app_nil_r. split_and!; [done|done|]. by rewrite E.
  - destruct (IH d1 r1 Hms Hc1 E Hs1 Hw1) as (Ha & Hb & Hz).
    destruct (read_wire d1) as [es3 d3], (read_messages r1 ms) as [es4 r4]. cbn [fst snd] in *. by rewrite Ha.
Qed.

(** C26: A Kiro event stream is read as the objects its messages carry, however its bytes are
    cut.  For any messages - headers within the protocol's widths, a length within the
    decoder's limit of 64 MiB per frame, a body the JSON library writes as one object of valid
    UTF-8 and reads back - and any cut of their bytes into chunks, also in the middle of a
    length, a header or a character, the events are those of the bodies in order; a message
    whose headers announce an exception fails the response with the body's message; nothing
    is read past the event that ends the stream, and a stream that carries none ends
    complete. *)
Theorem kiro_messages_read (ms : list Message) (chunks : list string)
  (Hms : Forall sendable ms) (Hcut : String.concat "" chunks = String.concat "" (message_bytes <$> ms)) :
  let run := read_messages new ms in
  stream chunks = run.1 ++ (if completed run.2 then [] else [Completed None]).
Proof.
  cbv zeta. destruct ms as [|m ms].
  { unfold Kiro.stream. rewrite decodes_blank by done. done. }
  pose proof (list.Forall_cons_1 _ _ _ Hms) as [Hm _]. destruct (message_lengths m "" Hm) as (_ & _ & Hb & _).
  assert (Hb' : total_length m < 83886080) by (assert (MAX_KIRO_FRAME_BYTES < 83886080) by (by vm_compute); lia).
  assert (Hr : ∃ rest, String.concat "" (message_bytes <$> m :: ms) = String (byte (total_length m / 65536 / 256)) rest).
  { rewrite fmap_cons, concat_cons. unfold message_bytes at 1, be32 at 1, be16 at 1. eexists. reflexivity. }
  assert (0 ≤ total_length m / 65536 / 256 < 5).
  { rewrite Z.div_div by lia. split; [apply Z.div_pos; lia|apply Z.div_lt_upper_bound; lia]. }
  destruct Hr as [rest Hr]. rewrite Hr in Hcut.
  assert (Hbyte := byte_of_byte (total_length m / 65536 / 256) ltac:(lia)).
  rewrite (stream_framed parse_json print_json chunks _ rest Hcut).
  2: { unfold ascii_whitespace. rewrite Hbyte, !orb_false_iff, !Z.eqb_neq. lia. }
  2: { intros Heq. rewrite Heq in Hbyte. change (byte_of "{"%char) with 123 in Hbyte. lia. }
  cbv zeta. rewrite <- Hr.
  set (d := with_wire (with_framed new true) _).
  destruct (read_wire_messages (m :: ms) d new Hms) as (-> & Hs & Hz); [done..|].
  destruct Hs as [_ Hcc]. f_equal. unfold finish. rewrite Hcc in *.
  destruct (completed (read_messages new (m :: ms)).2); [done|].
  destruct (Hz eq_refl) as [[-> ->] ->]. done.
Qed.
End messages.

Module KiroDemo.
Definition hi : Value := obj [("content", str "hi")].
Definition print_json (v : Value) : string := if value_eqb v hi then "{hi}" else "{}".
Definition parse_json (s : string) : option Value :=
  if bool_decide (s = "{hi}") then Some hi else Some (obj []).
Definition message : Message :=
  {| prelude_crc := "crc1"; headers := [(":message-type", "event")]; body := hi; message_crc := "crc2" |}.
Definition chunks : list string :=
  let bytes := message_bytes print_json message in [take_bytes 7 bytes; drop_bytes 7 bytes].

Lemma kiro_messages_witness :
  Kiro.stream parse_json print_json chunks = [TextDelta "hi"; Completed None].
Proof.
  refine (kiro_messages_read parse_json print_json [message] chunks _ _).
  - apply list.Forall_singleton. split_and!; try (vm_compute; reflexivity).
    + repeat constructor; vm_compute; reflexivity.
    + vm_compute. discriminate.
  - vm_compute. reflexivity.
Defined.
End KiroDemo.
