(* ===== verification/GeminiDecode.v ===== *)
(** * Gemini streams (crates/gateway/src/compat/gemini.rs, lines 1513-1702)

    [GeminiDecoder] turns the frames of an Antigravity or Gemini upstream into the shared
    events.  A thought signature that arrives with a call is parked in the replay scope of the
    request; the calls of [remember] a frame makes are returned beside its events, in order.

    [parse_json] is [serde_json]'s parser, [print_json] its printer, [uuid] the identifiers
    drawn for calls that come without one. *)

From stdpp Require Import base strings list.
From S2P Require Import Prelude RustStr Json Sse SignatureLedger.
Import RustStr Sse Json JsonMake.
Open Scope Z_scope.

Module GeminiDecode.

Record GeminiDecoder := {
  tool_index : Z;
  usage : option Usage;
  completed : bool;
  saw_finish_reason : bool;
  pending_signature : option string;
  replay : option Ledger.ReplayScope;
}.

Definition new (r : option Ledger.ReplayScope) : GeminiDecoder :=
  {| tool_index := 0; usage := None; completed := false; saw_finish_reason := false;
     pending_signature := None; replay := r |}.

Definition with_tools (d : GeminiDecoder) (n : Z) : GeminiDecoder :=
  {| tool_index := n; usage := usage d; completed := completed d;
     saw_finish_reason := saw_finish_reason d; pending_signature := pending_signature d; replay := replay d |}.
Definition with_usage (d : GeminiDecoder) (u : option Usage) : GeminiDecoder :=
  {| tool_index := tool_index d; usage := u; completed := completed d;
     saw_finish_reason := saw_finish_reason d; pending_signature := pending_signature d; replay := replay d |}.
Definition with_signature (d : GeminiDecoder) (s : option string) : GeminiDecoder :=
  {| tool_index := tool_index d; usage := usage d; completed := completed d;
     saw_finish_reason := saw_finish_reason d; pending_signature := s; replay := replay d |}.
Definition with_end (d : GeminiDecoder) (c f : bool) : GeminiDecoder :=
  {| tool_index := tool_index d; usage := usage d; completed := c; saw_finish_reason := f;
     pending_signature := pending_signature d; replay := replay d |}.

(** A call of [remember]. *)
Record Parked := {
  parked_scope : Ledger.ReplayScope;
  parked_call : string;
  parked_name : string;
  parked_arguments : string;
  parked_signature : string;
}.

(** What a step returns: the events and the calls of [remember] it makes, and the decoder. *)
Abbreviation step := (list CodexEvent * list Parked * GeminiDecoder)%type.

Definition token_count (k : string) (v : Value) : option Z := get k v ≫= as_u64.

Definition usage_of (metadata : Value) : Usage :=
  let prompt := default 0 (token_count "promptTokenCount" metadata) in
  let completion := default 0 (token_count "candidatesTokenCount" metadata) in
  let cached := token_count "cachedContentTokenCount" metadata in
  {| prompt_tokens := prompt; completion_tokens := completion;
     total_tokens := default (wrapping_add_u64 prompt completion) (token_count "totalTokenCount" metadata);
     cached_tokens := default 0 cached; cached_tokens_known := is_some cached;
     reasoning_tokens := default 0 (token_count "thoughtsTokenCount" metadata);
     cache_write_tokens := 0; cache_write_tokens_known := false |}.

Definition nonempty (s : string) : option string := if is_empty s then None else Some s.

Section decoder.
Context (parse_json : string → option Value) (print_json : Value → string) (uuid : Z → string).

(** [uuid] by the index of the call it is drawn for. *)
Definition synthetic_call_id (index : Z) (name : string) : string := "call_" +:+ name +:+ "_" +:+ uuid index.

Definition decode_call (d : GeminiDecoder) (part call : Value) : step :=
  let name := default "" (get_str "name" call) in
  let args := default "{}" (print_json <$> get "args" call) in
  let index := tool_index d in
  let signature := or_else (get_str "thoughtSignature" part) (pending_signature d) in
  let call_id := default (synthetic_call_id index name) (get_str "id" call ≫= nonempty) in
  ([ToolCallBegin index call_id name; ToolArgsDelta index args],
   match replay d, signature with
   | Some scope, Some signature =>
       [{| parked_scope := scope; parked_call := call_id; parked_name := name;
           parked_arguments := args; parked_signature := signature |}]
   | _, _ => []
   end,
   with_tools d (index + 1)).

Definition decode_text (d : GeminiDecoder) (part : Value) : list CodexEvent * GeminiDecoder :=
  match get_str "text" part with
  | Some text =>
      if default false (get_bool "thought" part) then ([ReasoningDelta text], d)
      else if is_empty text then ([], d)
      else ([TextDelta text], with_signature d None)
  | None => ([], d)
  end.

Definition decode_part (d : GeminiDecoder) (part : Value) : step :=
  match get "functionCall" part with
  | Some call => decode_call d part call
  | None =>
      match get_str "thoughtSignature" part with
      | Some sig =>
          let d := with_signature d (Some sig) in
          match get "text" part with
          | None => ([ReasoningSignature sig], [], d)
          | Some _ => let '(es, d) := decode_text d part in (ReasoningSignature sig :: es, [], d)
          end
      | None => let '(es, d) := decode_text d part in (es, [], d)
      end
  end.

Fixpoint decode_parts (d : GeminiDecoder) (parts : list Value) : step :=
  match parts with
  | [] => ([], [], d)
  | p :: parts =>
      let '(es, ps, d) := decode_part d p in
      let '(es', ps', d) := decode_parts d parts in (es ++ es', ps ++ ps', d)
  end.

Definition decode_candidate (d : GeminiDecoder) (candidate : Value) : step :=
  let '(es, ps, d) :=
    decode_parts d (default [] (get "content" candidate ≫= get_array "parts")) in
  match get_str "finishReason" candidate with
  | Some reason =>
      (es ++ (if bool_decide (reason = "MAX_TOKENS") then [OutputLimitReached] else []), ps,
       with_end d (completed d) true)
  | None => (es, ps, d)
  end.

Definition decode_value (d : GeminiDecoder) (value : Value) : step :=
  let response := default value (get "response" value) in
  match or_else (get "error" value) (get "error" response) with
  | Some err =>
      ([Failed (default "upstream error" (get_str "message" err))], [], with_end d true (saw_finish_reason d))
  | None =>
      let created := match get_str "responseId" response with Some id => [Created id] | None => [] end in
      let d := match get "usageMetadata" response with
               | Some metadata => with_usage d (Some (usage_of metadata))
               | None => d
               end in
      match get_array "candidates" response ≫= head with
      | None => (created, [], d)
      | Some candidate =>
          let '(es, ps, d) := decode_candidate d candidate in (created ++ es, ps, d)
      end
  end.

Definition decode (d : GeminiDecoder) (payload : string) : step :=
  if completed d || negb (valid_utf8 payload) then ([], [], d)
  else
    let text := trim payload in
    if is_empty text || bool_decide (text = "[DONE]") then ([], [], d)
    else match parse_json text with Some value => decode_value d value | None => ([], [], d) end.

Definition finish (d : GeminiDecoder) : list CodexEvent * GeminiDecoder :=
  if completed d then ([], d)
  else if saw_finish_reason d
  then ([Completed (usage d)], with_usage (with_end d true true) None)
  else ([Failed "stream truncated before finish reason"], with_end d true false).

Fixpoint decodes (d : GeminiDecoder) (frames : list string) : step :=
  match frames with
  | [] => ([], [], d)
  | f :: frames =>
      let '(es, ps, d) := decode d f in
      let '(es', ps', d) := decodes d frames in (es ++ es', ps ++ ps', d)
  end.
End decoder.

(** The ledger after the calls of [remember]. *)
Definition park (reprint : string → option string) (now : Z) (l : Ledger.SignatureLedger) (ps : list Parked)
  : Ledger.SignatureLedger :=
  foldl (λ l p, Ledger.remember reprint l (parked_scope p) (parked_call p) (parked_name p)
                  (parked_arguments p) (parked_signature p) now) l ps.

End GeminiDecode.
