(* ===== verification/Compat.v ===== *)
(** * Translating a reply (crates/gateway/src/compat/mod.rs, lines 619-1221)

    A reply comes from an upstream in one of six protocols and goes to a client in one of five
    shapes.  [ProtocolParser] reads the upstream's bytes as shared events, [StreamRenderer]
    writes events as frames; [streaming_body] runs the one into the other as the upstream
    delivers, [collect_stream_with_replies], [aggregate] and [anthropic_response] do it for a
    reply that is sent whole.

    The streaming part is written against two interfaces: [Source] for what is read,
    [Surface] for what is written.  The decoders of Cursor and Devin are a [Decoder] each: the
    messages they read are those of generated protobuf code. *)

From Stdlib Require Import Ascii.
From stdpp Require Import base strings list.
From S2P Require Import Prelude RustStr Json Sse Wire Render ResponsesStream ClaudeStream Preamble Kiro SignatureLedger GeminiDecode.
Import RustStr Sse Json JsonMake Preamble.
Open Scope Z_scope.

Module Compat.

(** ** What is read *)

(** [DevinOutcome]: what the relay keeps of a Devin stream. *)
Record DevinOutcome := {
  outcome_usage : option Usage;
  actual_model_uid : option string;
  outcome_stop_reason : option Z;
  error_code : option string;
  error_message : option string;
  outcome_terminated : bool;
}.

(** Bytes in, events out, and what is known once they are over. *)
Class Source (S : Type) := {
  source_push : S → string → list CodexEvent * S;
  source_finish : S → list CodexEvent * S;
  source_outcome : S → option DevinOutcome;
}.

(** A decoder of its own framing. *)
Class Decoder (D : Type) := {
  raw_new : D;
  raw_decode : D → string → list CodexEvent * D;
  raw_finish : D → list CodexEvent * D;
}.

Definition push_limit_failure (r : option SseLimitError) : list CodexEvent :=
  match r with Some error => [Failed (limit_message error)] | None => [] end.

Section parser.
Context (parse_json : string → option Value) (print_json : Value → string) (uuid : Z → string).
Context {Cu De : Type} {cursor : Decoder Cu} {devin : Decoder De} (outcome : De → DevinOutcome).

(** One parser per protocol; the Antigravity one with what it has parked for replay. *)
Inductive ProtocolParser :=
  | CodexParser (sse : SseParser)
  | AntigravityParser (sse : SseParser) (gemini : GeminiDecode.GeminiDecoder) (parked : list GeminiDecode.Parked)
  | AnthropicParser (sse : SseParser) (anthropic : ClaudeStream.AnthropicDecoder)
  | KiroParser (kiro : Kiro.KiroDecoder)
  | CursorParser (cursor : Cu)
  | DevinParser (devin : De).

Definition with_parts (protocol : Protocol) (replay : option Ledger.ReplayScope) : ProtocolParser :=
  match protocol with
  | Codex => CodexParser initial
  | Antigravity => AntigravityParser initial (GeminiDecode.new replay) []
  | Anthropic => AnthropicParser initial ClaudeStream.new_decoder
  | Preamble.Kiro => KiroParser Kiro.new
  | Cursor => CursorParser raw_new
  | Devin => DevinParser raw_new
  end.

Definition parser_push (p : ProtocolParser) (chunk : string) : list CodexEvent * ProtocolParser :=
  match p with
  | CodexParser sse => let '(es, sse) := push parse_json sse chunk in (es, CodexParser sse)
  | AntigravityParser sse d ps =>
      let '(frames, sse, r) := push_raw_data sse chunk in
      let '(es, ps', d) := GeminiDecode.decodes parse_json print_json uuid d frames in
      (es ++ push_limit_failure r, AntigravityParser sse d (ps ++ ps'))
  | AnthropicParser sse d =>
      let '(frames, sse, r) := push_raw_data sse chunk in
      let '(es, d) := ClaudeStream.decodes parse_json d frames in
      (es ++ push_limit_failure r, AnthropicParser sse d)
  | KiroParser d => let '(es, d) := Kiro.decode parse_json print_json d chunk in (es, KiroParser d)
  | CursorParser d => let '(es, d) := raw_decode d chunk in (es, CursorParser d)
  | DevinParser d => let '(es, d) := raw_decode d chunk in (es, DevinParser d)
  end.

Definition parser_finish (p : ProtocolParser) : list CodexEvent * ProtocolParser :=
  match p with
  | CodexParser sse => let '(es, sse) := finish parse_json sse in (es, CodexParser sse)
  | AntigravityParser sse d ps =>
      let '(frames, sse, r) := finish_raw_data sse in
      let '(es, ps', d) := GeminiDecode.decodes parse_json print_json uuid d frames in
      let '(es', d) := GeminiDecode.finish d in
      (es ++ push_limit_failure r ++ es', AntigravityParser sse d (ps ++ ps'))
  | AnthropicParser sse d =>
      let '(frames, sse, r) := finish_raw_data sse in
      let '(es, d) := ClaudeStream.decodes parse_json d frames in
      let '(es', d) := ClaudeStream.finish d in
      (es ++ push_limit_failure r ++ es', AnthropicParser sse d)
  | KiroParser d => let '(es, d) := Kiro.finish d in (es, KiroParser d)
  | CursorParser d => let '(es, d) := raw_finish d in (es, CursorParser d)
  | DevinParser d => let '(es, d) := raw_finish d in (es, DevinParser d)
  end.

(** [parser.devin.as_ref().map(|d| d.outcome().clone())]. *)
Definition parser_outcome (p : ProtocolParser) : option DevinOutcome :=
  match p with DevinParser d => Some (outcome d) | _ => None end.

#[export] Instance parser_source : Source ProtocolParser :=
  {| source_push := parser_push; source_finish := parser_finish; source_outcome := parser_outcome |}.
End parser.
Arguments ProtocolParser : clear implicits.

(** ** What is written *)

Class Surface (R F : Type) := {
  surface_render : R → CodexEvent → list F * R;
  surface_close : R → list F * R;
  surface_terminated : R → bool;
}.

Inductive ReplyShape := Chat | TextCompletion | ShapeGemini | ShapeAnthropic | ShapeResponses.

(** What a renderer queues; [frame_bytes] is what is sent. *)
Inductive StreamFrame :=
  | ChatFrame (f : Render.Frame)
  | GeminiFrame (f : Render.Frame)
  | MessagesFrame (f : Wire.Frame)
  | ResponsesFrame (f : Wire.Frame).

Inductive StreamRenderer :=
  | OpenAi (r : Render.ChunkRenderer)
  | Gemini (r : Render.GeminiChunkRenderer)
  | AnthropicMessages (r : ClaudeStream.AnthropicStreamRenderer)
  | Responses (r : ResponsesStream.Renderer).

Definition over {F G R Q} (f : F → G) (q : R → Q) (s : list F * R) : list G * Q := (f <$> s.1, q s.2).

Section renderer.
Context (parse_json : string → option Value) (print_json : Value → string).
Context (recall : string → string → string → option string).

Definition frame_bytes (f : StreamFrame) : string :=
  match f with
  | ChatFrame f | GeminiFrame f => Render.bytes_of print_json f
  | MessagesFrame f | ResponsesFrame f => Wire.frame_text print_json f
  end.

Definition new_renderer (shape : ReplyShape) (model : string) (created : Z) (include_usage : bool) : StreamRenderer :=
  match shape with
  | ShapeGemini => Gemini (Render.gemini_new model created)
  | ShapeAnthropic => AnthropicMessages (ClaudeStream.new_renderer model created)
  | ShapeResponses => Responses (ResponsesStream.new model created)
  | Chat | TextCompletion => OpenAi (Render.chunk_new model created include_usage)
  end.

Definition stream_render (r : StreamRenderer) (e : CodexEvent) : list StreamFrame * StreamRenderer :=
  match r with
  | OpenAi r => over ChatFrame OpenAi (Render.render r e)
  | Gemini r => over GeminiFrame Gemini (Render.gemini_render parse_json print_json recall r e)
  | AnthropicMessages r => over MessagesFrame AnthropicMessages (ClaudeStream.render r e)
  | Responses r => over ResponsesFrame Responses (ResponsesStream.render parse_json r e)
  end.

Definition stream_close (r : StreamRenderer) : list StreamFrame * StreamRenderer :=
  match r with
  | OpenAi r => over ChatFrame OpenAi (Render.close_unterminated r)
  | Gemini r => over GeminiFrame Gemini (Render.gemini_close parse_json print_json recall r)
  | AnthropicMessages r => over MessagesFrame AnthropicMessages (ClaudeStream.close_unterminated r)
  | Responses r => over ResponsesFrame Responses (ResponsesStream.close_unterminated parse_json r)
  end.

Definition stream_terminated (r : StreamRenderer) : bool :=
  match r with
  | OpenAi r => Render.terminated r
  | Gemini r => Render.g_terminated r
  | AnthropicMessages r => ClaudeStream.r_terminated r
  | Responses r => ResponsesStream.terminated r
  end.

#[export] Instance renderer_surface : Surface StreamRenderer StreamFrame :=
  {| surface_render := stream_render; surface_close := stream_close; surface_terminated := stream_terminated |}.
End renderer.

(** ** Metering *)

Record ResponseTokenUsage := {
  input_tokens : Z;
  output_tokens : Z;
  cached_input_tokens : Z;
  cached_input_tokens_known : bool;
  cache_write_tokens : Z;
  cache_write_tokens_known : bool;
  reasoning_tokens : Z;
}.

Definition metered (u : Usage) : ResponseTokenUsage :=
  {| input_tokens := prompt_tokens u; output_tokens := completion_tokens u;
     cached_input_tokens := cached_tokens u; cached_input_tokens_known := cached_tokens_known u;
     cache_write_tokens := Sse.cache_write_tokens u;
     cache_write_tokens_known := Sse.cache_write_tokens_known u;
     reasoning_tokens := Sse.reasoning_tokens u |}.

(** ** Streaming *)

Section streaming.
Context {S R F : Type} {source : Source S} {surface : Surface R F}.

(** [TranslateState], with the two cells the relay reads afterwards. *)
Record TranslateState := {
  parser : S;
  renderer : R;
  pending : list F;
  drained : bool;
  captured : option ResponseTokenUsage;
  devin_outcome : option DevinOutcome;
}.

Definition with_parser (st : TranslateState) (p : S) : TranslateState :=
  {| parser := p; renderer := renderer st; pending := pending st; drained := drained st;
     captured := captured st; devin_outcome := devin_outcome st |}.
Definition with_output (st : TranslateState) (r : R) (fs : list F) (u : option ResponseTokenUsage) : TranslateState :=
  {| parser := parser st; renderer := r; pending := fs; drained := drained st;
     captured := u; devin_outcome := devin_outcome st |}.
Definition with_drained (st : TranslateState) : TranslateState :=
  {| parser := parser st; renderer := renderer st; pending := pending st; drained := true;
     captured := captured st; devin_outcome := devin_outcome st |}.

Definition capture_devin_outcome (st : TranslateState) : TranslateState :=
  {| parser := parser st; renderer := renderer st; pending := pending st; drained := drained st;
     captured := captured st;
     devin_outcome := match source_outcome (parser st) with Some o => Some o | None => devin_outcome st end |}.

Definition capture_stream_usage (e : CodexEvent) (u : option ResponseTokenUsage) : option ResponseTokenUsage :=
  match e with Completed (Some usage) => Some (metered usage) | _ => u end.

Definition handle_stream_event (st : TranslateState) (e : CodexEvent) : TranslateState :=
  if surface_terminated (renderer st) then st
  else
    let '(out, r) := surface_render (renderer st) e in
    with_output st r (pending st ++ out) (capture_stream_usage e (captured st)).

Definition handle_events (st : TranslateState) (es : list CodexEvent) : TranslateState :=
  foldl handle_stream_event st es.

Definition feed_chunk (st : TranslateState) (chunk : string) : TranslateState :=
  let '(es, p) := source_push (parser st) chunk in handle_events (with_parser st p) es.

Definition error_frames (r : R) (message : string) : list F * R :=
  if surface_terminated r then ([], r) else surface_render r (Failed message).

(** The arms of the poll of an upstream that is over. *)
Definition break_off (st : TranslateState) (err : string) : TranslateState :=
  let st := with_drained st in
  let '(out, r) := error_frames (renderer st) err in
  capture_devin_outcome (with_output st r (pending st ++ out) (captured st)).

Definition end_stream (st : TranslateState) : TranslateState :=
  let '(es, p) := source_finish (parser st) in
  let st := handle_events (with_parser (with_drained st) p) es in
  let '(out, r) := surface_close (renderer st) in
  capture_devin_outcome (with_output st r (pending st ++ out) (captured st)).

(** A poll of the body: a frame, and what it goes on with; or the end. *)
Inductive Polled := Next (f : F) (up : Upstream) (st : TranslateState) | Over (st : TranslateState).

(** A turn of the loop that finds a frame queued, or is over. *)
Definition pop_front (up : Upstream) (st : TranslateState) (on : Polled) : Polled :=
  match pending st with
  | f :: fs => Next f up (with_output st (renderer st) fs (captured st))
  | [] => if drained st || surface_terminated (renderer st) then Over (capture_devin_outcome st) else on
  end.

Fixpoint poll (up : Upstream) (st : TranslateState) : Polled :=
  pop_front up st
    match up with
    | Ok chunk :: up => poll up (feed_chunk st chunk)
    | Err err :: up => let st := break_off st err in pop_front up st (Over st)
    | [] => let st := end_stream st in pop_front [] st (Over st)
    end.

(** The frames of the first [n] polls, and the state the body is left in when it ended. *)
Fixpoint polls (n : nat) (up : Upstream) (st : TranslateState) : list F * option TranslateState :=
  match n with
  | O => ([], None)
  | Datatypes.S n =>
      match poll up st with
      | Over st => ([], Some st)
      | Next f up st => let '(fs, o) := polls n up st in (f :: fs, o)
      end
  end.

Definition opened (p : S) (r : R) (first : string) : TranslateState :=
  feed_chunk {| parser := p; renderer := r; pending := []; drained := false; captured := None;
                devin_outcome := None |} first.

(** ** Collecting *)

(** The usage and whether a failure was seen, after the events of one call. *)
Definition record_event (st : option ResponseTokenUsage * bool) (e : CodexEvent)
  : option ResponseTokenUsage * bool :=
  match e with
  | Completed (Some usage) => (Some (metered usage), st.2)
  | Failed _ => (st.1, true)
  | _ => st
  end.
Definition record_collected_events (usage : option ResponseTokenUsage) (es : list CodexEvent)
  : option ResponseTokenUsage * bool :=
  foldl record_event (usage, false) es.

Definition Collected : Type := string * option ResponseTokenUsage * option DevinOutcome.

Fixpoint collect_from (p : S) (raw : string) (usage : option ResponseTokenUsage) (failed : bool)
    (up : Upstream) : result string Collected :=
  if failed then Ok (raw, usage, source_outcome p)
  else
    match up with
    | [] =>
        let '(es, p) := source_finish p in
        Ok (raw, (record_collected_events usage es).1, source_outcome p)
    | Err err :: _ => Err err
    | Ok chunk :: up =>
        raw ← extend_nonstream_bounded raw chunk;
        let '(es, p) := source_push p chunk in
        let '(usage, failed) := record_collected_events usage es in
        collect_from p raw usage failed up
    end.

Definition collect_stream_with_replies (p : S) (first : string) (up : Upstream) : result string Collected :=
  raw ← extend_nonstream_bounded "" first;
  let '(es, p) := source_push p first in
  let '(usage, failed) := record_collected_events None es in
  collect_from p raw usage failed up.

(** A reply that is there as a whole. *)
Definition events_of (p : S) (raw : string) : list CodexEvent * S :=
  let '(es, p) := source_push p raw in
  let '(es', p) := source_finish p in (es ++ es', p).
End streaming.
Arguments TranslateState : clear implicits.

(** ** Whole replies *)

Section whole.
Context (parse_json : string → option Value) (print_json : Value → string) (uuid : Z → string).
Context {Cu De : Type} {cursor : Decoder Cu} {devin : Decoder De} (outcome : De → DevinOutcome).
#[local] Existing Instance parser_source.

(** The events of a whole body, and the parser after it. *)
Definition parse_whole (protocol : Protocol) (replay : option Ledger.ReplayScope) (raw : string)
  : list CodexEvent * ProtocolParser Cu De :=
  events_of (source := parser_source parse_json print_json uuid outcome) (with_parts protocol replay) raw.

Definition parked_of (p : ProtocolParser Cu De) : list GeminiDecode.Parked :=
  match p with AntigravityParser _ _ ps => ps | _ => [] end.

Definition in_memory : Ledger.SignatureLedger :=
  {| Ledger.store := Ledger.new Ledger.DEFAULT_MAX_ENTRIES Ledger.DEFAULT_MAX_BYTES;
     Ledger.dirty := false; Ledger.writes := 0; Ledger.hits := 0; Ledger.misses := 0 |}.

(** The answers of a ledger that has parked [ps]. *)
Definition recall_parked (now : Z) (scope : Ledger.ReplayScope) (ps : list GeminiDecode.Parked)
    (id name args : string) : option string :=
  let reprint s := print_json <$> parse_json s in
  (Ledger.recall reprint (GeminiDecode.park reprint now in_memory ps) scope id name args now).1.

(** [None] is the panic of [into_gemini]. *)
Definition aggregate (now : Z) (raw model : string) (created : Z) (protocol : Protocol) (shape : ReplyShape)
  : option (result string Value) :=
  let scope := {| Ledger.scope_model := model; Ledger.session_id := "" |} in
  let '(es, p) := parse_whole protocol (Some scope) raw in
  let a := foldl Render.ag_push (Render.ag_new model created) es in
  match Render.ag_failure a with
  | Some message => Some (Err message)
  | None =>
      match shape with
      | Chat | ShapeAnthropic => Some (Ok (Render.into_completion a))
      | TextCompletion => Some (Ok (Render.into_text_completion a))
      | ShapeGemini => Render.into_gemini parse_json print_json (recall_parked now scope (parked_of p)) a
      | ShapeResponses =>
          Some (ResponsesStream.responses_response parse_json (Render.native_events a)
                  (Render.ag_model a) (Render.ag_created a))
      end
  end.

Record Response := { status : Z; headers : list (string * string); response_body : string }.

(** [BTreeMap<u64, (String, String, String)>]: entries in key order. *)
Abbreviation Calls := (list (Z * (string * string * string))).
Fixpoint calls_insert (k : Z) (v : string * string * string) (m : Calls) : Calls :=
  match m with
  | [] => [(k, v)]
  | (j, w) :: m' =>
      if k <? j then (k, v) :: m else if k =? j then (k, v) :: m' else (j, w) :: calls_insert k v m'
  end.
Definition add_delta (delta : string) (call : string * string * string) : string * string * string :=
  let '(id, name, args) := call in (id, name, args +:+ delta).
Fixpoint on_last (f : string * string * string → string * string * string) (m : Calls) : Calls :=
  match m with
  | [] => []
  | [(k, v)] => [(k, f v)]
  | kv :: m => kv :: on_last f m
  end.
Definition push_delta (i : Z) (delta : string) (m : Calls) : Calls :=
  if existsb (λ kv, kv.1 =? i) m
  then (λ kv, if kv.1 =? i then (kv.1, add_delta delta kv.2) else kv) <$> m
  else on_last (add_delta delta) m.

(** The variables of the loop of [anthropic_response]. *)
Record Answer := {
  a_text : string;
  a_thinking : string;
  a_usage : option Usage;
  a_calls : Calls;
  a_finish : string;
  a_signature : option string;
}.

Definition no_answer : Answer :=
  {| a_text := ""; a_thinking := ""; a_usage := None; a_calls := []; a_finish := "stop"; a_signature := None |}.

Definition answer_event (a : Answer) (e : CodexEvent) : Answer :=
  let '(Build_Answer t th u c f s) := a in
  match e with
  | TextDelta d => Build_Answer (t +:+ d) th u c f s
  | ReasoningDelta d => Build_Answer t (th +:+ d) u c f s
  | ReasoningSignature sig => Build_Answer t th u c f (Some sig)
  | Completed usage => Build_Answer t th usage c f s
  | OutputLimitReached => Build_Answer t th u c "length" s
  | ToolCallBegin i id name =>
      Build_Answer t th u (calls_insert i (id, name, "") c)
        (if bool_decide (f = "length") then f else "tool_calls") s
  | ToolArgsDelta i delta => Build_Answer t th u (push_delta i delta c) f s
  | _ => a
  end.

Definition first_failure (es : list CodexEvent) : option string :=
  head (omap (λ e, match e with Failed m => Some m | _ => None end) es).

Definition answer_payload (id model : string) (a : Answer) : Value :=
  ClaudeStream.messages_payload_full parse_json id model (a_text a) (a_calls a).*2 (a_finish a) (a_usage a)
    (if is_empty (a_thinking a) then None else Some (a_thinking a)) (a_signature a).

Definition anthropic_response (raw model : string) (created : Z) (protocol : Protocol) (stream : bool) : Response :=
  let '(es, _) := parse_whole protocol None raw in
  match first_failure es with
  | Some message =>
      {| status := 502; headers := [("content-type", "application/json")];
         response_body := print_json (obj [("type", str "error");
           ("error", obj [("type", str "api_error"); ("message", str message)])]) |}
  | None =>
      let id := "msg_" +:+ show_i64 created in
      if stream then
        let '(fs, _) := ClaudeStream.render_anthropic_stream es id model in
        {| status := 200; headers := [("content-type", "text/event-stream"); ("cache-control", "no-cache")];
           response_body := Wire.wire print_json fs |}
      else
        {| status := 200; headers := [("content-type", "application/json")];
           response_body := print_json (answer_payload id model (foldl answer_event no_answer es)) |}
  end.

(** [serde_json::to_writer] to a buffer does not fail. *)
Definition error_stream_body (message : string) : string :=
  Render.bytes_of print_json
    (Render.Payload (obj [("error", obj [("message", str message); ("type", str "upstream_error")])]))
  +:+ Render.bytes_of print_json Render.Done.

(** ** The body of a streamed reply *)

Definition streaming_body (recall : string → string → string → option string)
    (first : string) (up : Upstream) (model : string) (created : Z) (include_usage : bool)
    (shape : ReplyShape) (protocol : Protocol) (replay : option Ledger.ReplayScope) (n : nat)
  : list StreamFrame * option (TranslateState (ProtocolParser Cu De) StreamRenderer StreamFrame) :=
  polls (source := parser_source parse_json print_json uuid outcome)
    (surface := renderer_surface parse_json print_json recall) n up
    (opened (source := parser_source parse_json print_json uuid outcome)
       (surface := renderer_surface parse_json print_json recall)
       (with_parts protocol replay) (new_renderer shape model created include_usage) first).
End whole.

End Compat.
