(* ===== verification/CompatProps.v ===== *)
(** * Streamed replies

    Against the interfaces of [Compat]: the body of a streamed reply is the rendering of the
    events read so far, it ends after finitely many polls, with exactly one closing frame, and
    it meters what a collected reply meters.  The four surfaces and the parsers discharge the
    interfaces' laws. *)

From stdpp Require Import base numbers strings list.
From S2P Require Import Prelude RustStr Json Sse SseProps Wire Render RenderProps ResponsesStream ResponsesProps ClaudeStream ClaudeStreamProps Preamble Kiro KiroProps SignatureLedger GeminiDecode Compat.
Import RustStr Json JsonMake Sse Preamble Compat.
Open Scope Z_scope.

(** ** The laws of a surface *)

Definition ends_once {F} (ends : F → bool) (out : list F) : Prop :=
  ∃ fs f, out = fs ++ [f] ∧ Forall (λ f, ends f = false) fs ∧ ends f = true.
Definition goes_on {F} (ends : F → bool) (out : list F) : Prop := Forall (λ f, ends f = false) out.

Class SurfaceLaws (R F : Type) (ends : F → bool) {surface : Surface R F} := {
  live_event : ∀ r e, surface_terminated r = false →
    if is_terminal e
    then surface_terminated (surface_render r e).2 = true ∧ ends_once ends (surface_render r e).1
    else surface_terminated (surface_render r e).2 = false ∧ goes_on ends (surface_render r e).1;
  over_close : ∀ r, surface_terminated r = true → (surface_close r).1 = [];
  live_close : ∀ r, surface_terminated r = false → ends_once ends (surface_close r).1;
}.

Lemma ends_once_app {F} (ends : F → bool) fs gs : goes_on ends fs → ends_once ends gs → ends_once ends (fs ++ gs).
Proof.
  intros Hf (gs' & g & -> & Hg & He). exists (fs ++ gs'), g. rewrite app_assoc.
  split_and!; [done|by apply list.Forall_app|done].
Qed.

Lemma ends_once_fmap {F G} (h : F → G) (ends : F → bool) (ends' : G → bool) fs :
  (∀ f, ends' (h f) = ends f) → ends_once ends fs → ends_once ends' (h <$> fs).
Proof.
  intros Hh (gs & g & -> & Hg & He). exists (h <$> gs), (h g). rewrite fmap_app. split_and!; [done| |by rewrite Hh].
  apply list.Forall_fmap. eapply Forall_impl; [exact Hg|]. intros f Hf. cbn. by rewrite Hh.
Qed.

Lemma goes_on_fmap {F G} (h : F → G) (ends : F → bool) (ends' : G → bool) fs :
  (∀ f, ends' (h f) = ends f) → goes_on ends fs → goes_on ends' (h <$> fs).
Proof.
  intros Hh Hg. apply list.Forall_fmap. eapply Forall_impl; [exact Hg|]. intros f Hf. cbn. by rewrite Hh.
Qed.

(** ** The body against the interfaces *)

Section body.
Context {S R F : Type} {source : Source S} {surface : Surface R F}.
Abbreviation State := (TranslateState S R F).

(** What the frames queued by events are, the renderer after them and what was metered. *)
Fixpoint deliver (r : R) (u : option ResponseTokenUsage) (es : list CodexEvent)
  : list F * R * option ResponseTokenUsage :=
  match es with
  | [] => ([], r, u)
  | e :: es =>
      if surface_terminated r then ([], r, u)
      else
        let '(o, r) := surface_render r e in
        let '(o', r, u) := deliver r (capture_stream_usage e u) es in (o ++ o', r, u)
  end.

Lemma deliver_over r u es : surface_terminated r = true → deliver r u es = ([], r, u).
Proof. intros Hr. destruct es; cbn; [done|]. by rewrite Hr. Qed.

Lemma deliver_app es es' r u :
  deliver r u (es ++ es') =
  let '(o, r1, u1) := deliver r u es in
  let '(o', r2, u2) := deliver r1 u1 es' in (o ++ o', r2, u2).
Proof.
  revert r u. induction es as [|e es IH]; intros r u; cbn [app deliver].
  { by destruct (deliver r u es') as [[]]. }
  destruct (surface_terminated r) eqn:E; [by rewrite deliver_over|].
  destruct (surface_render r e) as [o r1]. rewrite IH. destruct (deliver r1 _ es) as [[o1 r2] u2].
  destruct (deliver r2 u2 es') as [[o2 r3] u3]. by rewrite app_assoc.
Qed.

Lemma handle_events_deliver es : ∀ st : State,
  handle_events st es =
  let '(o, r, u) := deliver (renderer st) (captured st) es in with_output st r (pending st ++ o) u.
Proof.
  assert (Hid : ∀ st : State, with_output st (renderer st) (pending st ++ []) (captured st) = st)
    by (intros []; unfold with_output; cbn; by rewrite app_nil_r).
  unfold handle_events. induction es as [|e es IH]; intros st; cbn [foldl deliver]; [by rewrite Hid|].
  rewrite IH. unfold handle_stream_event. destruct (surface_terminated (renderer st)) eqn:E.
  { rewrite deliver_over by done. by rewrite Hid. }
  destruct (surface_render (renderer st) e) as [o r]. cbn [renderer captured pending with_output].
  destruct (deliver r _ es) as [[o1 r1] u1]. unfold with_output. cbn. by rewrite app_assoc.
Qed.

(** The whole body, by what the upstream delivers. *)
Definition shipped (st : State) : State := with_output st (renderer st) [] (captured st).

Fixpoint body (up : Upstream) (st : State) : list F * State :=
  if drained st || surface_terminated (renderer st) then (pending st, capture_devin_outcome (shipped st))
  else
    let '(fs, st') :=
      match up with
      | Ok chunk :: up => body up (feed_chunk (shipped st) chunk)
      | Err err :: up =>
          let st := break_off (shipped st) err in (pending st, capture_devin_outcome (shipped st))
      | [] => let st := end_stream (shipped st) in (pending st, capture_devin_outcome (shipped st))
      end in
    (pending st ++ fs, st').

Lemma body_queue up (st : State) f fs : pending st = f :: fs →
  body up st = let '(gs, st') := body up (with_output st (renderer st) fs (captured st)) in (f :: gs, st').
Proof.
  intros Hp. destruct up as [|[c|err] up]; cbn [body]; cbn [drained renderer with_output pending]; rewrite Hp;
    destruct (drained st || surface_terminated (renderer st)); try done;
    change (shipped (with_output st (renderer st) fs (captured st))) with (shipped st).
  - by destruct (body up _).
Qed.

Lemma polls_over n up (st : State) : polls (Datatypes.S n) up st =
  match poll up st with Over st => ([], Some st) | Next f up st => let '(fs, o) := polls n up st in (f :: fs, o) end.
Proof. done. Qed.

(** Frames that are queued after the upstream is over. *)
Lemma polls_drained fs : ∀ n up (st : State), pending st = fs → drained st = true → (length fs < n)%nat →
  polls n up st = (fs, Some (capture_devin_outcome (shipped st))).
Proof.
  induction fs as [|f fs IH]; intros [|n] up st Hp Hd Hn; cbn in Hn; try lia; rewrite polls_over.
  - assert (poll up st = Over (capture_devin_outcome st)) as ->.
    { destruct up as [|[|]]; cbn [poll]; unfold pop_front; by rewrite Hp, Hd. }
    destruct st. cbn in Hp. by subst.
  - assert (poll up st = Next f up (with_output st (renderer st) fs (captured st))) as ->.
    { destruct up as [|[|]]; cbn [poll]; unfold pop_front; by rewrite Hp. }
    rewrite (IH n up) by (done || lia). done.
Qed.

Lemma break_off_drained (st : State) err : drained (break_off st err) = true.
Proof. unfold break_off. by destruct (error_frames _ _). Qed.

Lemma handle_events_drained es (st : State) : drained (handle_events st es) = drained st.
Proof. rewrite handle_events_deliver. by destruct (deliver _ _ _) as [[]]. Qed.

Lemma end_stream_drained (st : State) : drained (end_stream st) = true.
Proof.
  unfold end_stream. destruct (source_finish _) as [es p].
  pose proof (handle_events_drained es (with_parser (with_drained st) p)) as H.
  destruct (surface_close _) as [o r]. exact H.
Qed.

(** A turn with nothing queued. *)
Definition turn (up : Upstream) (st : State) : Polled :=
  match up with
  | Ok chunk :: up => poll up (feed_chunk st chunk)
  | Err err :: up => let st := break_off st err in pop_front up st (Over st)
  | [] => let st := end_stream st in pop_front [] st (Over st)
  end.

Lemma poll_turn up (st : State) : poll up st = pop_front up st (turn up st).
Proof. by destruct up as [|[|]]. Qed.

Lemma polls_pop n up (st : State) : (length (pending st) < Datatypes.S n)%nat → drained st = true →
  (match pop_front up st (Over st) with
   | Over st => ([], Some st)
   | Next f up st => let '(fs, o) := polls n up st in (f :: fs, o)
   end) = (pending st, Some (capture_devin_outcome (shipped st))).
Proof.
  intros Hn Hd. rewrite <- (polls_drained (pending st) (Datatypes.S n) up st) by done.
  rewrite polls_over, poll_turn. unfold pop_front. destruct (pending st); [|done]. by rewrite Hd.
Qed.

Lemma polls_body up : ∀ n (st : State), (length (body up st).1 < n)%nat →
  polls n up st = ((body up st).1, Some (body up st).2).
Proof.
  induction up as [|x up IHup]; intros n st; remember (pending st) as fs eqn:Hp; revert n st Hp.
  all: induction fs as [|f fs IH]; intros [|n] st Hp Hn; try lia; symmetry in Hp.
  2,4: rewrite (body_queue _ _ _ _ Hp) in *; rewrite polls_over, poll_turn; unfold pop_front; rewrite Hp;
    specialize (IH n (with_output st (renderer st) fs (captured st)) eq_refl);
    destruct (body _ (with_output _ _ _ _)) as [gs st']; cbn in Hn; by rewrite IH by (cbn; lia).
  all: rewrite polls_over, poll_turn; unfold pop_front; rewrite Hp; cbn [body] in *;
    assert (Hship : shipped st = st) by (destruct st; cbn in Hp; by subst); rewrite Hp, ?Hship in *;
    destruct (drained st || surface_terminated (renderer st)) eqn:E; [done|cbn [turn]].
  - rewrite polls_pop; [by destruct (end_stream st)| |by apply end_stream_drained]. exact Hn.
  - destruct x as [c|err].
    + specialize (IHup (Datatypes.S n) (feed_chunk st c)). destruct (body up (feed_chunk st c)) as [gs st'].
      cbn in Hn. rewrite <- polls_over. by rewrite IHup.
    + rewrite polls_pop; [by destruct (break_off st err)| |by apply break_off_drained]. exact Hn.
Qed.
End body.

(** ** One closing frame *)

Section closes.
Context {S R F : Type} {source : Source S} {surface : Surface R F}.
Context (ends : F → bool) {laws : SurfaceLaws R F ends}.
Abbreviation State := (TranslateState S R F).

Definition over_or_on (out : list F) (r : R) : Prop :=
  if surface_terminated r then ends_once ends out else goes_on ends out.

Lemma deliver_shape es : ∀ r u out, surface_terminated r = false → goes_on ends out →
  over_or_on (out ++ (deliver r u es).1.1) (deliver r u es).1.2.
Proof.
  induction es as [|e es IH]; intros r u out Hr Ho; cbn [deliver].
  { cbn. unfold over_or_on. by rewrite Hr, app_nil_r. }
  rewrite Hr. pose proof (live_event r e Hr) as Hl. destruct (surface_render r e) as [o r1]. cbn [fst snd] in Hl.
  destruct (is_terminal e); destruct Hl as [Ht Hf].
  - rewrite deliver_over by done. cbn. unfold over_or_on. rewrite Ht, app_nil_r. by apply ends_once_app.
  - specialize (IH r1 (capture_stream_usage e u) (out ++ o) Ht). destruct (deliver r1 _ es) as [[o1 r2] u2].
    cbn [fst snd] in *. rewrite <- app_assoc in IH. apply IH. by apply list.Forall_app.
Qed.

Lemma feed_chunk_shape (st : State) out c : surface_terminated (renderer st) = false → pending st = [] →
  goes_on ends out →
  over_or_on (out ++ pending (feed_chunk st c)) (renderer (feed_chunk st c)) ∧ drained (feed_chunk st c) = drained st.
Proof.
  intros Hr Hp Ho. unfold feed_chunk. destruct (source_push (parser st) c) as [es p]. rewrite handle_events_deliver.
  cbn [renderer captured pending with_parser]. rewrite Hp.
  pose proof (deliver_shape es (renderer st) (captured st) out Hr Ho) as H.
  destruct (deliver _ _ es) as [[o r] u]. done.
Qed.

Lemma body_shape up : ∀ (st : State) out, drained st = false →
  over_or_on (out ++ pending st) (renderer st) → ends_once ends (out ++ (body up st).1).
Proof.
  induction up as [|[c|err] up IH]; intros st out Hd Hs; cbn [body]; rewrite Hd; cbn [orb];
    unfold over_or_on in Hs; destruct (surface_terminated (renderer st)) eqn:Er; try done.
  - unfold end_stream. destruct (source_finish _) as [es p]. rewrite handle_events_deliver.
    cbn [shipped renderer captured pending with_parser with_drained with_output].
    pose proof (deliver_shape es (renderer st) (captured st) (out ++ pending st) Er Hs) as H.
    destruct (deliver _ _ es) as [[o r] u]. cbn [fst snd renderer pending with_output] in *. unfold over_or_on in H.
    rewrite <- app_assoc in H. destruct (surface_terminated r) eqn:E.
    + pose proof (over_close r E) as Hc. destruct (surface_close r) as [o2 r2]. cbn in *. subst o2. by rewrite app_nil_r.
    + pose proof (live_close r E) as Hc. destruct (surface_close r) as [o2 r2]. cbn in *.
      rewrite !app_assoc. rewrite !app_assoc in H. by apply ends_once_app.
  - assert (Hst : renderer (shipped st) = renderer st) by done.
    destruct (feed_chunk_shape (shipped st) (out ++ pending st) c Er eq_refl Hs) as [H1 H2].
    specialize (IH (feed_chunk (shipped st) c) (out ++ pending st) ltac:(by rewrite H2) H1).
    destruct (body up _) as [fs st']. cbn in *. by rewrite app_assoc.
  - unfold break_off, error_frames. cbn [shipped renderer pending with_drained with_output].
    pose proof (live_event (renderer st) (Failed err) Er) as [_ Hl]. rewrite Er.
    destruct (surface_render _ _) as [o r]. cbn in *. rewrite app_assoc. by apply ends_once_app.
Qed.

Lemma opened_shape p r first : surface_terminated r = false →
  drained (opened p r first) = false ∧
  over_or_on (pending (opened p r first)) (renderer (opened (S := S) p r first)).
Proof.
  intros Hr. unfold opened. set (st := Build_TranslateState _ _ _ _ _ _).
  destruct (feed_chunk_shape st [] first Hr eq_refl ltac:(by apply list.Forall_nil_2)) as [H1 H2]. split; [by rewrite H2|exact H1].
Qed.

(** ** The body is the rendering of what is read *)

(** The events of a source that delivers [chunks] and ends. *)
Fixpoint source_events (p : S) (chunks : list string) : list CodexEvent :=
  match chunks with
  | [] => (source_finish p).1
  | c :: chunks => let '(es, p) := source_push p c in es ++ source_events p chunks
  end.

(** The frames of a reply with these events, and what it meters. *)
Definition rendered (r : R) (u : option ResponseTokenUsage) (es : list CodexEvent)
  : list F * option ResponseTokenUsage :=
  let '(o, r, u) := deliver r u es in (o ++ (surface_close r).1, u).

Lemma rendered_over r u es : surface_terminated r = true → rendered r u es = ([], u).
Proof. intros Hr. unfold rendered. rewrite deliver_over by done. by rewrite over_close. Qed.

Lemma rendered_app r u es es' :
  rendered r u (es ++ es') =
  let '(o, r1, u1) := deliver r u es in let '(o', u2) := rendered r1 u1 es' in (o ++ o', u2).
Proof.
  unfold rendered. rewrite deliver_app. destruct (deliver r u es) as [[o r1] u1].
  destruct (deliver r1 u1 es') as [[o' r2] u2]. by rewrite app_assoc.
Qed.

Lemma body_rendered chunks : ∀ st : State, drained st = false →
  let run := body (Ok <$> chunks) st in
  let all := rendered (renderer st) (captured st) (source_events (parser st) chunks) in
  run.1 = pending st ++ all.1 ∧ captured run.2 = all.2.
Proof.
  cbv zeta. induction chunks as [|c chunks IH]; intros st Hd; cbn [fmap list_fmap body source_events];
    rewrite Hd; cbn [orb]; destruct (surface_terminated (renderer st)) eqn:Er;
    try (rewrite rendered_over by done; cbn; by rewrite app_nil_r).
  - unfold end_stream. cbn [shipped parser with_output]. destruct (source_finish _) as [es p].
    rewrite handle_events_deliver.
    cbn [shipped renderer captured pending with_parser with_drained with_output fst]. unfold rendered.
    destruct (deliver _ _ es) as [[o r] u]. cbn [renderer with_output]. by destruct (surface_close r) as [o2 r2].
  - unfold feed_chunk. cbn [shipped parser with_output]. destruct (source_push (parser st) c) as [es p].
    rewrite rendered_app, handle_events_deliver. cbn [shipped renderer captured pending with_parser with_output].
    destruct (deliver (renderer st) (captured st) es) as [[o r] u]. cbn [app].
    match goal with |- context [body _ ?x] => specialize (IH x Hd); destruct (body (Ok <$> chunks) x) as [fs st'] end.
    cbn [renderer captured pending parser with_parser with_output shipped fst snd] in IH.
    destruct (rendered r u (source_events p chunks)) as [o' u2]. cbn in *. destruct IH as [-> ->]. by rewrite app_assoc.
Qed.

Lemma opened_rendered p r first chunks : surface_terminated r = false →
  let run := body (Ok <$> chunks) (opened p r first) in
  let all := rendered r None (source_events p (first :: chunks)) in
  run.1 = all.1 ∧ captured run.2 = all.2.
Proof.
  intros Hr. cbv zeta. destruct (opened_shape p r first Hr) as [Hd _].
  destruct (body_rendered chunks (opened p r first) Hd) as [H1 H2]. rewrite H1, H2. clear H1 H2.
  unfold opened, feed_chunk. cbn [parser source_events]. destruct (source_push p first) as [es p1].
  rewrite handle_events_deliver, rendered_app. cbn [renderer captured pending with_parser].
  destruct (deliver r None es) as [[o r1] u]. cbn [renderer captured pending parser with_parser with_output app].
  by destruct (rendered r1 u (source_events p1 chunks)).
Qed.
End closes.

(** ** The surfaces keep the laws *)

(** Frames known by their names. *)
Ltac go_on :=
  unfold goes_on in *; cbn [fst snd] in *; rewrite ?list.Forall_app; repeat split;
  repeat (apply list.Forall_nil_2 || assumption || (apply list.Forall_cons_2; [reflexivity|])).

(** The events that end a Messages stream. *)
Definition ends_messages (f : Wire.Frame) : bool := one_of (Wire.event_name f) ["message_stop"; "error"].

Section messages.
Import ClaudeStream.

(** The events that go on with it, and a property they all have. *)
Definition ON : list string :=
  ["message_start"; "content_block_start"; "content_block_delta"; "content_block_stop"; "message_delta"].
Context (Q : Wire.Frame → Prop) (HQ : ∀ k fields, one_of k ON = true → Q (frame k fields)).

Definition last_frame (f : Wire.Frame) : Prop :=
  f = frame "message_stop" [] ∨ ∃ m, f = frame "error" [("error", m)].

Ltac all_on :=
  cbn [fst snd] in *; rewrite ?list.Forall_app; repeat split;
  repeat (apply list.Forall_nil_2 || assumption || (apply list.Forall_cons_2; [by apply HQ|])).

Lemma close_each_on ts : ∀ closed, Forall Q (close_each ts closed).1.
Proof.
  induction ts as [|[o i] ts IH]; intros closed; cbn; [by apply list.Forall_nil_2|].
  destruct (bool_decide _); [apply IH|]. specialize (IH ({[o]} ∪ closed)). destruct (close_each ts _).
  all_on.
Qed.

Lemma close_open_tools_on r : Forall Q (close_open_tools r).1 ∧ r_terminated (close_open_tools r).2 = r_terminated r.
Proof.
  unfold close_open_tools. pose proof (close_each_on (tool_indices r) (closed_tools r)) as H.
  destruct (close_each _ _). done.
Qed.
Lemma close_text_on r : Forall Q (close_text r).1 ∧ r_terminated (close_text r).2 = r_terminated r.
Proof. unfold close_text. destruct (current_text_index r); split; try done; all_on. Qed.
Lemma close_thinking_on r : Forall Q (close_thinking r).1 ∧ r_terminated (close_thinking r).2 = r_terminated r.
Proof. unfold close_thinking. destruct (thinking_index r); split; try done; all_on. Qed.
Lemma ensure_started_on r : Forall Q (ensure_started r).1 ∧ r_terminated (ensure_started r).2 = r_terminated r.
Proof. unfold ensure_started. destruct (r_started r); split; try done; all_on. Qed.
Lemma open_text_on r : Forall Q (ClaudeStream.open_text r).1.1 ∧ r_terminated (ClaudeStream.open_text r).1.2 = r_terminated r.
Proof. unfold ClaudeStream.open_text. destruct (current_text_index r); split; try done; all_on. Qed.

Lemma thinking_on r : Forall Q (ensure_thinking_block r).1.1 ∧
  r_terminated (ensure_thinking_block r).1.2 = r_terminated r.
Proof.
  unfold ensure_thinking_block. destruct (thinking_index r); [split; [all_on|done]|].
  pose proof (close_open_tools_on r) as [H1 T1]. destruct (close_open_tools r) as [a r1].
  pose proof (close_text_on r1) as [H2 T2]. destruct (close_text r1) as [b r2]. cbn in *. split; [all_on|congruence].
Qed.

Lemma close_all_on r : Forall Q (close_all r).1 ∧ r_terminated (close_all r).2 = r_terminated r.
Proof.
  unfold close_all. pose proof (close_thinking_on r) as [H1 T1]. destruct (close_thinking r) as [a r1].
  pose proof (close_text_on r1) as [H2 T2]. destruct (close_text r1) as [b r2].
  pose proof (close_open_tools_on r2) as [H3 T3]. destruct (close_open_tools r2) as [d r3]. cbn in *.
  split; [all_on|congruence].
Qed.

Lemma messages_frames r e : r_terminated r = false →
  if is_terminal e
  then r_terminated (ClaudeStream.render r e).2 = true ∧
       ∃ fs f, (ClaudeStream.render r e).1 = fs ++ [f] ∧ Forall Q fs ∧ last_frame f
  else r_terminated (ClaudeStream.render r e).2 = false ∧ Forall Q (ClaudeStream.render r e).1.
Proof.
  intros Hr. unfold ClaudeStream.render. rewrite Hr.
  pose proof (ensure_started_on r) as [H0 T0]. destruct (ensure_started r) as [a r0]. cbn [fst snd] in *. rewrite Hr in T0.
  destruct e as [x|x|x|x| |o ci nm|o x| |u|x]; cbn [is_terminal render_event].
  - destruct (is_empty x); (split; [done|]); all_on.
  - pose proof (close_thinking_on r0) as [H1 T1]. destruct (close_thinking r0) as [b r1].
    pose proof (close_open_tools_on r1) as [H2 T2]. destruct (close_open_tools r1) as [c r2].
    pose proof (open_text_on r2) as [H3 T3]. destruct (ClaudeStream.open_text r2) as [[d r3] i]. cbn in *.
    split; [congruence|all_on].
  - pose proof (thinking_on r0) as [H1 T1]. destruct (ensure_thinking_block r0) as [[b r1] i]. cbn in *. split; [congruence|all_on].
  - pose proof (thinking_on r0) as [H1 T1]. destruct (ensure_thinking_block r0) as [[b r1] i]. cbn in *. split; [congruence|all_on].
  - split; [done|all_on].
  - pose proof (close_thinking_on r0) as [H1 T1]. destruct (close_thinking r0) as [b r1].
    pose proof (close_text_on r1) as [H2 T2]. destruct (close_text r1) as [c r2]. cbn in *. split; [congruence|all_on].
  - split; [done|all_on].
  - split; [done|all_on].
  - pose proof (close_all_on r0) as [H1 T1]. destruct (close_all r0) as [b r1]. split; [done|].
    eexists (a ++ b ++ [_]), _. cbn [fst]. rewrite <- !app_assoc. split; [reflexivity|]. split; [all_on|by left].
  - pose proof (close_all_on r0) as [H1 T1]. destruct (close_all r0) as [b r1]. split; [done|].
    eexists (a ++ b), _. cbn [fst]. rewrite <- !app_assoc. split; [reflexivity|]. split; [all_on|right; by eexists].
Qed.
End messages.

Lemma messages_event r e : ClaudeStream.r_terminated r = false →
  if is_terminal e
  then ClaudeStream.r_terminated (ClaudeStream.render r e).2 = true ∧ ends_once ends_messages (ClaudeStream.render r e).1
  else ClaudeStream.r_terminated (ClaudeStream.render r e).2 = false ∧ goes_on ends_messages (ClaudeStream.render r e).1.
Proof.
  intros Hr. assert (HQ : ∀ k fields, one_of k ON = true → ends_messages (ClaudeStream.frame k fields) = false).
  { intros k fields Hk. apply bool_decide_eq_true, list_elem_of_In in Hk.
    by repeat (destruct Hk as [<-|Hk]; [reflexivity|]). }
  pose proof (messages_frames (λ f, ends_messages f = false) HQ r e Hr) as H. destruct (is_terminal e); [|done].
  destruct H as [Ht (fs & f & -> & Hf & Hk)]. split; [done|]. exists fs, f.
  split_and!; [done|done|]. by destruct Hk as [->|[m ->]].
Qed.

Section responses.
Context (parse_json : string → option Value).
Import ResponsesStream.
Abbreviation ends := ResponsesProps.ends.

Lemma created_go_on r : goes_on ends (ensure_created_frame r).1 ∧ terminated (ensure_created_frame r).2 = terminated r.
Proof. unfold ensure_created_frame. destruct (created_sent r); split; try done; go_on. Qed.
Lemma reasoning_go_on r : goes_on ends (ensure_reasoning_item r).1.1 ∧ terminated (ensure_reasoning_item r).1.2 = terminated r.
Proof.
  unfold ensure_reasoning_item. pose proof (created_go_on r) as [H1 T1]. destruct (ensure_created_frame r) as [a r1].
  cbn in *. destruct (reasoning_index r1); split; try done; go_on.
Qed.
Lemma text_done_go_on r : goes_on ends (close_text_item r).1 ∧ terminated (close_text_item r).2 = terminated r.
Proof. unfold close_text_item. destruct (text_state r); split; try done; go_on. Qed.
Lemma text_open_go_on r : goes_on ends (open_text r).1.1.1 ∧ terminated (open_text r).1.1.2 = terminated r.
Proof. unfold open_text. destruct (text_state r); split; try done; go_on. Qed.
Lemma close_tools_go_on status ts : goes_on ends (close_tools parse_json status ts).1.
Proof.
  induction ts as [|t ts IH]; cbn [close_tools]; [go_on|]. unfold close_tool_item. destruct (close_tools parse_json status ts).
  destruct (args_done_emitted t), (item_done_emitted t); go_on.
Qed.
Lemma close_items_go_on r : goes_on ends (close_items parse_json r).1 ∧ terminated (close_items parse_json r).2 = terminated r.
Proof.
  unfold close_items. pose proof (text_done_go_on r) as [H1 T1]. destruct (close_text_item r) as [a r1].
  pose proof (close_tools_go_on (item_status r1) (tools r1)) as H2. destruct (close_tools _ _ _).
  split; [|done]. unfold close_reasoning_item. destruct (reasoning_index r); go_on.
Qed.

Lemma unstamped_event r e : terminated r = false →
  let run := render_unstamped parse_json r e in
  if is_terminal e then terminated run.2 = true ∧ ends_once ends run.1
  else terminated run.2 = false ∧ goes_on ends run.1.
Proof.
  intros Hr. cbv zeta. unfold render_unstamped. rewrite Hr.
  destruct e as [x|x|x|x| |o ci nm|o x| |u|x]; cbn [is_terminal].
  - match goal with |- context [ensure_created_frame ?q] =>
      pose proof (created_go_on q) as [H1 T1]; destruct (ensure_created_frame q) end.
    cbn in *. split; [|done]. rewrite T1. by destruct (is_empty x).
  - pose proof (created_go_on r) as [H1 T1]. destruct (ensure_created_frame r) as [a r1].
    pose proof (text_open_go_on r1) as [H2 T2]. destruct (open_text r1) as [[[b r2] i] index]. cbn in *.
    split; [congruence|go_on].
  - pose proof (reasoning_go_on r) as [H1 T1]. destruct (ensure_reasoning_item r) as [[a r1] i]. cbn in *. split; [congruence|go_on].
  - pose proof (reasoning_go_on r) as [H1 T1]. destruct (ensure_reasoning_item r) as [[a r1] i]. cbn in *. split; [congruence|go_on].
  - pose proof (reasoning_go_on r) as [H1 T1]. destruct (ensure_reasoning_item r) as [[a r1] i]. cbn in *. split; [congruence|go_on].
  - pose proof (created_go_on r) as [H1 T1]. destruct (ensure_created_frame r) as [a r1].
    pose proof (text_done_go_on r1) as [H2 T2]. destruct (close_text_item r1) as [b r2]. cbn in *. split; [congruence|go_on].
  - pose proof (created_go_on r) as [H1 T1]. destruct (ensure_created_frame r) as [a r1]. cbn in *.
    destruct (push_args o x (tools r1)) as [[t ts]|]; cbn; (split; [congruence|go_on]).
  - split; [done|go_on].
  - pose proof (created_go_on r) as [H1 T1]. destruct (ensure_created_frame r) as [a r1].
    pose proof (close_items_go_on r1) as [H2 T2]. destruct (close_items parse_json r1) as [b r2]. cbn in *. split; [done|].
    apply ends_once_app; [done|]. apply ends_once_app; [done|]. eexists [], _. split; [done|]. split; [go_on|].
    by destruct (output_limit_reached r2).
  - pose proof (close_items_go_on r) as [H2 T2]. destruct (close_items parse_json r) as [b r2]. cbn in *. split; [done|].
    apply ends_once_app; [done|]. eexists [], _. split; [done|]. split; [go_on|done].
Qed.

Lemma responses_event r e : terminated r = false →
  let run := render parse_json r e in
  if is_terminal e then terminated run.2 = true ∧ ends_once ends run.1
  else terminated run.2 = false ∧ goes_on ends run.1.
Proof.
  intros Hr. pose proof (unstamped_event r e Hr) as H. cbv zeta in *. unfold render.
  destruct (render_unstamped parse_json r e) as [out r1]. cbn [fst snd] in H.
  destruct (stamp_sequence out (next_sequence r1)) as [fs n] eqn:E. cbn.
  destruct (is_terminal e); destruct H as [Ht H]; (split; [done|]).
  - destruct H as (gs & g & -> & Hg & He). destruct (stamp_snoc gs g (next_sequence r1)) as (fs' & f' & k & H1 & H2 & ->).
    rewrite E in H1. cbn in H1. exists fs', (stamp_frame k g). split_and!; [done| |done]. rewrite <- H2. by apply stamp_goes_on.
  - assert (fs = (stamp_sequence out (next_sequence r1)).1) as -> by by rewrite E. by apply stamp_goes_on.
Qed.

Lemma responses_over r e : terminated r = true → (render parse_json r e).1 = [].
Proof. intros Hr. unfold render, render_unstamped. by rewrite Hr. Qed.
End responses.

(** The frame that closes the reply, on the surface it belongs to. *)
Definition closing (f : StreamFrame) : bool :=
  match f with
  | ChatFrame f => is_done f
  | GeminiFrame f => ends_gemini f
  | MessagesFrame f => ends_messages f
  | ResponsesFrame f => ResponsesProps.ends f
  end.

Section laws.
Context (parse_json : string → option Value) (print_json : Value → string).
Context (recall : string → string → string → option string).
#[local] Existing Instance renderer_surface.

Lemma chat_event r e : Render.terminated r = false →
  if is_terminal e then Render.terminated (Render.render r e).2 = true ∧ ends_once is_done (Render.render r e).1
  else Render.terminated (Render.render r e).2 = false ∧ goes_on is_done (Render.render r e).1.
Proof.
  intros Hr. destruct (Render.render r e) as [out r'] eqn:E. pose proof (render_shape _ _ _ _ Hr E) as H.
  destruct (is_terminal e); [|done]. destruct H as [Ht (fs & -> & Hf)]. split; [done|]. by exists fs, Render.Done.
Qed.

#[export] Instance renderer_laws :
  @SurfaceLaws StreamRenderer StreamFrame closing (renderer_surface parse_json print_json recall).
Proof.
  split.
  - intros [r|r|r|r] e Hr; cbn in Hr |- *; unfold over; cbn [fst snd].
    + pose proof (chat_event r e Hr) as H. destruct (is_terminal e); destruct H; (split; [done|]);
        [by eapply ends_once_fmap|by eapply goes_on_fmap].
    + destruct (Render.gemini_render parse_json print_json recall r e) as [out r'] eqn:E.
      pose proof (gemini_render_shape parse_json print_json recall _ _ _ _ Hr E) as H.
      destruct (is_terminal e); destruct H; (split; [done|]); [by eapply ends_once_fmap|by eapply goes_on_fmap].
    + pose proof (messages_event r e Hr) as H. destruct (is_terminal e); destruct H; (split; [done|]);
        [by eapply ends_once_fmap|by eapply goes_on_fmap].
    + pose proof (responses_event parse_json r e Hr) as H. cbv zeta in H. destruct (is_terminal e); destruct H; (split; [done|]);
        [by eapply ends_once_fmap|by eapply goes_on_fmap].
  - intros [r|r|r|r] Hr; cbn in Hr |- *.
    + unfold Render.close_unterminated. by rewrite Hr.
    + unfold Render.gemini_close. by rewrite Hr.
    + unfold ClaudeStream.close_unterminated. by rewrite Hr.
    + unfold ResponsesStream.close_unterminated. by rewrite responses_over.
  - intros [r|r|r|r] Hr; cbn in Hr |- *.
    + unfold Render.close_unterminated. rewrite Hr. eapply ends_once_fmap; [done|]. by apply (chat_event r (Failed _)).
    + unfold Render.gemini_close. rewrite Hr. eapply ends_once_fmap; [done|].
      destruct (Render.gemini_finish parse_json print_json recall r None) as [out r'] eqn:E.
      by destruct (gemini_finish_shape parse_json print_json recall _ _ _ _ Hr E).
    + unfold ClaudeStream.close_unterminated. rewrite Hr. eapply ends_once_fmap; [done|]. by apply (messages_event r (Failed _)).
    + eapply ends_once_fmap; [done|]. by apply (responses_event parse_json r (Failed _)).
Qed.
End laws.
