(* ===== verification/StreamProps.v ===== *)
(** * The bodies of streamed replies

    The theorems of [CompatProps] at the parsers and surfaces of the gateway: a streamed reply
    ends, and closes once; it is the rendering of the events the upstream sent, however their
    bytes were cut; and it meters what a collected reply meters. *)

From stdpp Require Import base numbers strings list gmap.
From S2P Require Import Prelude RustStr Json Sse SseProps Render RenderProps Preamble Kiro KiroProps SignatureLedger GeminiDecode Compat CompatProps Wire ResponsesDecode ClaudeStream ClaudeStreamProps ClaudeDecode.
Import RustStr Json JsonMake Sse Preamble Compat.
Open Scope Z_scope.

(** ** Sources that end once *)

(** While [alive] a source gives events that do not end the response, or the last ones; then
    it gives nothing. *)
Class SourceLaws (S : Type) (steady : S → Prop) (alive : S → bool) {source : Source S} := {
  steady_push : ∀ p c, steady p → steady (source_push p c).2;
  alive_push : ∀ p c, steady p → alive p = true →
    if alive (source_push p c).2 then SseProps.pending (source_push p c).1 else closed (source_push p c).1;
  alive_finish : ∀ p, steady p → alive p = true → closed (source_finish p).1;
  dead_push : ∀ p c, steady p → alive p = false →
    (source_push p c).1 = [] ∧ alive (source_push p c).2 = false;
  dead_finish : ∀ p, steady p → alive p = false → (source_finish p).1 = [];
}.

Section metering.
Context {S R F : Type} {source : Source S} {surface : Surface R F}.
Context (ends : F → bool) {laws : SurfaceLaws R F ends}.
Context (steady : S → Prop) (alive : S → bool) {source_laws : SourceLaws S steady alive}.
Abbreviation State := (TranslateState S R F).

Lemma source_events_dead chunks : ∀ p, steady p → alive p = false → source_events p chunks = [].
Proof.
  induction chunks as [|c chunks IH]; intros p Hs Ha; cbn [source_events]; [by apply dead_finish|].
  destruct (dead_push p c Hs Ha) as [H1 H2]. pose proof (steady_push p c Hs) as H3.
  destruct (source_push p c) as [es p1]. cbn in *. subst es. by apply IH.
Qed.

Lemma source_events_closed chunks : ∀ p, steady p → alive p = true → closed (source_events p chunks).
Proof.
  induction chunks as [|c chunks IH]; intros p Hs Ha; cbn [source_events]; [by apply alive_finish|].
  pose proof (alive_push p c Hs Ha) as H1. pose proof (steady_push p c Hs) as H2.
  destruct (source_push p c) as [es p1]. cbn [fst snd] in *. destruct (alive p1) eqn:E.
  - apply closed_app; [done|by apply IH].
  - rewrite source_events_dead by done. by rewrite app_nil_r.
Qed.

(** What events deliver when they do not end the response, and when they do. *)
Lemma deliver_pending es : ∀ r u, surface_terminated r = false → SseProps.pending es →
  surface_terminated (deliver r u es).1.2 = false ∧ (deliver r u es).2 = u.
Proof.
  induction es as [|e es IH]; intros r u Hr He; cbn [deliver]; [done|]. rewrite Hr.
  apply list.Forall_cons in He as [He Hes]. pose proof (live_event r e Hr) as Hl. rewrite He in Hl.
  destruct (surface_render r e) as [o r1]. destruct Hl as [Ht _]. cbn in Ht.
  destruct (IH r1 (capture_stream_usage e u) Ht Hes) as [H1 H2].
  destruct (deliver r1 _ es) as [[o1 r2] u2]. cbn in *. split; [done|]. rewrite H2. by destruct e as [| | | | | | | | [] |].
Qed.

Lemma deliver_closed es r : surface_terminated r = false → closed es →
  surface_terminated (deliver r None es).1.2 = true ∧
  (deliver r None es).2 = (record_collected_events None es).1.
Proof.
  intros Hr (es' & e & -> & Hp & He). rewrite deliver_app.
  destruct (deliver_pending es' r None Hr Hp) as [H1 H2].
  destruct (deliver r None es') as [[o1 r1] u1]. cbn in H1, H2. subst u1. cbn [deliver]. rewrite H1.
  pose proof (live_event r1 e H1) as Hl. rewrite He in Hl. destruct (surface_render r1 e) as [o2 r2].
  destruct Hl as [Ht _]. cbn in Ht. cbn. split; [done|]. unfold record_collected_events. rewrite foldl_app. cbn [foldl].
  assert (foldl record_event (None, false) es' = (None, false)) as ->.
  { clear -Hp. induction es' as [|x es' IH]; [done|]. apply list.Forall_cons in Hp as [Hx Hp]. cbn [foldl].
    destruct x; try done; by apply IH. }
  by destruct e as [| | | | | | | | [] |].
Qed.

Lemma record_pending es u : SseProps.pending es → record_collected_events u es = (u, false).
Proof.
  unfold record_collected_events. induction es as [|e es IH]; intros He; [done|].
  apply list.Forall_cons in He as [He Hes]. cbn [foldl]. destruct e; try done; by apply IH.
Qed.

(** A collector whose source is over keeps what it metered. *)
Lemma collect_dead up : ∀ p raw u failed res, steady p → alive p = false →
  collect_from p raw u failed up = Ok res → res.1.2 = u.
Proof.
  induction up as [|[c|err] up IH]; intros p raw u [] res Hs Ha; cbn [collect_from];
    try (intros [= <-]; done); try done.
  - pose proof (dead_finish p Hs Ha) as H. destruct (source_finish p) as [es p1]. cbn in H. subst. by intros [= <-].
  - intros (raw1 & _ & Hc)%rbind_Ok. destruct (dead_push p c Hs Ha) as [H1 H2]. pose proof (steady_push p c Hs) as H3.
    destruct (source_push p c) as [es p1]. cbn in *. subst es. cbn in Hc. by eapply IH.
Qed.

Lemma body_over up (st : State) : surface_terminated (renderer st) = true →
  captured (body up st).2 = captured st.
Proof. intros Hr. destruct up as [|[]]; cbn [body]; by rewrite Hr, orb_true_r. Qed.

Lemma collect_meters up : ∀ (st : State) raw res, steady (parser st) → alive (parser st) = true →
  drained st = false → surface_terminated (renderer st) = false → captured st = None →
  collect_from (parser st) raw None false up = Ok res → captured (body up st).2 = res.1.2.
Proof.
  induction up as [|[c|err] up IH]; intros st raw res Hs Ha Hd Hr Hc; cbn [collect_from body];
    rewrite ?Hd, ?Hr; cbn [orb]; [| |done].
  - unfold end_stream. cbn [shipped parser with_output]. pose proof (alive_finish _ Hs Ha) as H.
    destruct (source_finish (parser st)) as [es p]. intros [= <-]. cbn [fst snd].
    rewrite handle_events_deliver. cbn [shipped renderer captured pending with_parser with_drained with_output].
    rewrite Hc. destruct (deliver_closed es (renderer st) Hr H) as [_ Hu].
    destruct (deliver (renderer st) None es) as [[o r] u]. cbn [renderer with_output]. destruct (surface_close r). exact Hu.
  - intros (raw1 & _ & Hcol)%rbind_Ok. pose proof (alive_push _ c Hs Ha) as Hp. pose proof (steady_push _ c Hs) as Hs1.
    unfold feed_chunk. cbn [shipped parser with_output].
    destruct (source_push (parser st) c) as [es p]. cbn [fst snd] in *.
    rewrite handle_events_deliver. cbn [shipped renderer captured pending with_parser with_drained with_output].
    rewrite Hc. destruct (alive p) eqn:Ea.
    + rewrite record_pending in Hcol by done. destruct (deliver_pending es (renderer st) None Hr Hp) as [Ht Hu].
      destruct (deliver (renderer st) None es) as [[o r] u]. cbn [fst snd] in Ht, Hu.
      match goal with |- context [body up ?x] => specialize (IH x raw1 res Hs1 Ea Hd Ht Hu Hcol); destruct (body up x) end.
      exact IH.
    + destruct (deliver_closed es (renderer st) Hr Hp) as [Ht Hu].
      destruct (record_collected_events None es) as [u1 failed]. apply collect_dead in Hcol; [|done|done].
      destruct (deliver (renderer st) None es) as [[o r] u]. cbn [fst snd] in Ht, Hu.
      match goal with |- context [body up ?x] => pose proof (body_over up x Ht) as Hb; destruct (body up x) end.
      cbn in *. congruence.
Qed.
End metering.

(** ** The gateway's replies *)

Section replies.
Context (parse_json : string → option Value) (print_json : Value → string) (uuid : Z → string).
Context {Cu De : Type} {cursor : Decoder Cu} {devin : Decoder De} (outcome : De → DevinOutcome).
Context (recall : string → string → string → option string).
Abbreviation Parser := (ProtocolParser Cu De).
#[local] Instance the_source : Source Parser := parser_source parse_json print_json uuid outcome.
#[local] Instance the_surface : Surface StreamRenderer StreamFrame := renderer_surface parse_json print_json recall.
#[local] Instance the_laws : SurfaceLaws StreamRenderer StreamFrame closing := renderer_laws parse_json print_json recall.
Abbreviation streaming_body := (@Compat.streaming_body parse_json print_json uuid Cu De cursor devin outcome recall).
Abbreviation render_event := (stream_render parse_json print_json recall).

Lemma new_renderer_live shape model created usage :
  surface_terminated (new_renderer shape model created usage) = false.
Proof. by destruct shape. Qed.

(** C24: A streamed reply ends, and tells the client so exactly once.  Whatever the upstream
    protocol, the shape the client asked for and what the upstream delivers - good bytes or
    bad, in any chunks, ended, broken off by an error at any point, or going on after the end
    of the response - the body is over after finitely many polls, and of its frames exactly
    the last is one that closes the stream on the client's surface. *)
Theorem streamed_reply_closes (first : string) (up : Upstream) (model : string) (created : Z)
  (include_usage : bool) (shape : ReplyShape) (protocol : Protocol) (replay : option Ledger.ReplayScope) :
  ∃ fs st,
    (∀ n, (length fs < n)%nat →
       streaming_body first up model created include_usage shape protocol replay n = (fs, Some st)) ∧
    ∃ sent last, fs = sent ++ [last] ∧ Forall (λ f, closing f = false) sent ∧ closing last = true.
Proof.
  set (st0 := opened (with_parts protocol replay : Parser) (new_renderer shape model created include_usage) first).
  exists (body up st0).1, (body up st0).2. split.
  - intros n Hn. by apply polls_body.
  - destruct (opened_shape closing (with_parts protocol replay : Parser) _ first
      (new_renderer_live shape model created include_usage)) as [Hd Hs].
    exact (body_shape closing up st0 [] Hd Hs).
Qed.

(** The rendering of a list of events. *)
Fixpoint render_all (r : StreamRenderer) (es : list CodexEvent) : list StreamFrame * StreamRenderer :=
  match es with
  | [] => ([], r)
  | e :: es =>
      let '(o, r) := render_event r e in
      let '(o', r) := render_all r es in (o ++ o', r)
  end.

Lemma deliver_render_all es : ∀ r u, surface_terminated r = false → SseProps.pending es →
  (deliver r u es).1 = render_all r es.
Proof.
  induction es as [|e es IH]; intros r u Hr He; cbn [deliver render_all]; [done|]. rewrite Hr.
  apply list.Forall_cons in He as [He Hes]. pose proof (live_event r e Hr) as Hl. rewrite He in Hl.
  change (surface_render r e) with (render_event r e) in *. destruct (render_event r e) as [o r1].
  destruct Hl as [Ht _]. specialize (IH r1 (capture_stream_usage e u) Ht Hes). destruct (deliver r1 _ es) as [[o1 r2] u2].
  cbn [fst] in IH. by rewrite <- IH.
Qed.

Lemma rendered_closed es r : surface_terminated r = false → closed es →
  (rendered r None es).1 = (render_all r es).1 ∧ (rendered r None es).2 = (record_collected_events None es).1.
Proof.
  intros Hr Hc. unfold rendered. destruct (deliver_closed closing es r Hr Hc) as [Ht Hu].
  assert (Hd : (deliver r None es).1 = render_all r es).
  { destruct Hc as (es' & e & -> & Hp & He). rewrite deliver_app.
    pose proof (deliver_render_all es' r None Hr Hp) as H1. destruct (deliver_pending closing es' r None Hr Hp) as [H2 _].
    destruct (deliver r None es') as [[o1 r1] u1]. cbn [fst snd] in H1, H2.
    assert (Happ : ∀ l k q, render_all q (l ++ k) = let '(a, q1) := render_all q l in let '(b, q2) := render_all q1 k in (a ++ b, q2)).
    { induction l as [|x l IH]; intros k q; cbn [app render_all]; [by destruct (render_all q k)|].
      destruct (render_event q x) as [a q1]. rewrite IH. destruct (render_all q1 l) as [b q2].
      destruct (render_all q2 k) as [d q3]. by rewrite app_assoc. }
    rewrite Happ, <- H1. cbn [deliver render_all]. rewrite H2. change (surface_render r1 e) with (render_event r1 e).
    by destruct (render_event r1 e). }
  destruct (deliver r None es) as [[o r1] u]. cbn [fst snd] in *. rewrite <- Hd, (over_close r1 Ht), app_nil_r. done.
Qed.

Lemma codex_events cs : ∀ p, source_events (CodexParser p : Parser) cs =
  let '(es, p) := pushes parse_json p cs in es ++ (finish parse_json p).1.
Proof.
  induction cs as [|c cs IH]; intros p; cbn [source_events].
  - cbn. by destruct (finish parse_json p).
  - change (source_push (CodexParser p) c) with (parser_push parse_json print_json uuid (CodexParser p : Parser) c).
    cbn [parser_push pushes]. destruct (push parse_json p c) as [es p1]. rewrite IH.
    destruct (pushes parse_json p1 cs) as [es' p2]. by rewrite app_assoc.
Qed.

Lemma codex_stream cs : source_events (with_parts Codex None : Parser) cs = stream parse_json cs.
Proof.
  change (with_parts Codex None) with (CodexParser initial : Parser). rewrite codex_events. unfold stream.
  destruct (pushes parse_json initial cs) as [es p]. by destruct (finish parse_json p).
Qed.

(** C23: What a client of a Codex upstream is streamed depends on the bytes the upstream sent,
    and not on how they arrived.  For every cut of the upstream's body into chunks, on every
    client surface, the frames sent are the rendering of the events the body holds as a whole,
    one after the other, and the usage recorded is that of its completion. *)
Theorem streamed_reply_renders (first : string) (chunks : list string) (model : string) (created : Z)
  (include_usage : bool) (shape : ReplyShape) :
  let es := stream parse_json [String.concat "" (first :: chunks)] in
  let fs := (render_all (new_renderer shape model created include_usage) es).1 in
  ∃ st, captured st = (record_collected_events None es).1 ∧
    ∀ n, (length fs < n)%nat →
      streaming_body first (Ok <$> chunks) model created include_usage shape Codex None n = (fs, Some st).
Proof.
  cbv zeta. assert (stream parse_json [String.concat "" (first :: chunks)] = stream parse_json (first :: chunks)) as ->
    by by rewrite !stream_one.
  rewrite <- codex_stream.
  set (r := new_renderer shape model created include_usage).
  assert (Hr : surface_terminated r = false) by apply new_renderer_live.
  destruct (opened_rendered closing (with_parts Codex None : Parser) r first chunks Hr) as [H1 H2].
  assert (Hc : closed (source_events (with_parts Codex None : Parser) (first :: chunks))).
  { rewrite codex_stream. apply stream_shape. }
  destruct (rendered_closed _ r Hr Hc) as [H3 H4]. rewrite H3 in H1. rewrite H4 in H2.
  eexists. split; [exact H2|]. rewrite <- H1. intros n Hn. by apply polls_body.
Qed.

(** ** Metering *)

Definition steady (p : Parser) : Prop :=
  match p with
  | CodexParser sse => terminal sse = false → Sse.failure sse = None
  | KiroParser _ => True
  | _ => False
  end.
Definition alive (p : Parser) : bool :=
  match p with
  | CodexParser sse => negb (terminal sse)
  | KiroParser d => negb (Kiro.completed d)
  | _ => false
  end.

#[local] Instance parser_laws : SourceLaws Parser steady alive.
Proof.
  assert (Hterm : ∀ sse c, terminal sse = true → push parse_json sse c = ([], sse)) by (intros; by apply push_terminal).
  split.
  - intros [sse| | |d| |] c Hs; try done; cbn.
    + destruct (terminal sse) eqn:Et.
      * rewrite Hterm by done. cbn. by rewrite Et.
      * destruct (push parse_json sse c) as [es q] eqn:E.
        destruct (push_closed parse_json _ _ _ _ (conj (Hs Et) Et) E) as [[[Hf _] _]|[Ht _]]; cbn; [done|]. by rewrite Ht.
    + by destruct (Kiro.decode parse_json print_json d c).
  - intros [sse| | |d| |] c Hs Ha; try done; cbn in *.
    + apply negb_true_iff in Ha. destruct (push parse_json sse c) as [es q] eqn:E.
      destruct (push_closed parse_json _ _ _ _ (conj (Hs Ha) Ha) E) as [[[_ Ht] He]|[Ht He]]; cbn; by rewrite Ht.
    + apply negb_true_iff in Ha. pose proof (decode_sound parse_json print_json d c Ha) as H. unfold sound in H.
      destruct (Kiro.decode parse_json print_json d c) as [es q]. cbn in *. by destruct (Kiro.completed q).
  - intros [sse| | |d| |] Hs Ha; try done; cbn in *; apply negb_true_iff in Ha.
    + pose proof (finish_closed parse_json sse (conj (Hs Ha) Ha)) as H. by destruct (finish parse_json sse).
    + unfold Kiro.finish. rewrite Ha. destruct (_ || _); cbn; [apply (failed_closed []); by apply list.Forall_nil_2|].
      exists [], (Completed None). split_and!; [done|by apply list.Forall_nil_2|done].
  - intros [sse| | |d| |] c Hs Ha; try done; cbn in *; apply negb_false_iff in Ha.
    + rewrite Hterm by done. cbn. by rewrite Ha.
    + unfold Kiro.decode. rewrite Ha. cbn. by rewrite Ha.
  - intros [sse| | |d| |] Hs Ha; try done; cbn in *; apply negb_false_iff in Ha.
    + unfold finish. by rewrite Ha.
    + unfold Kiro.finish. by rewrite Ha.
Qed.

(** C30: Streaming a reply and collecting it meter the same.  When a Codex or Kiro upstream's
    reply can be collected, the token usage recorded for it is the one recorded when the same
    chunks are streamed to a client, on any surface. *)
Theorem streamed_usage_collected (first : string) (up : Upstream) (model : string) (created : Z)
  (include_usage : bool) (shape : ReplyShape) (protocol : Protocol) (raw : string)
  (usage : option ResponseTokenUsage) (o : option DevinOutcome)
  (Hprotocol : protocol = Codex ∨ protocol = Preamble.Kiro)
  (Hcollect : collect_stream_with_replies (with_parts protocol None : Parser) first up = Ok (raw, usage, o)) :
  ∃ fs st, captured st = usage ∧ ∀ n, (length fs < n)%nat →
    streaming_body first up model created include_usage shape protocol None n = (fs, Some st).
Proof.
  set (p := with_parts protocol None : Parser) in *. set (r := new_renderer shape model created include_usage).
  assert (Hr : surface_terminated r = false) by apply new_renderer_live.
  assert (Hs : steady p) by by destruct Hprotocol as [->| ->]. assert (Ha : alive p = true) by by destruct Hprotocol as [->| ->].
  exists (body up (opened p r first)).1, (body up (opened p r first)).2. split; [|intros n Hn; by apply polls_body].
  set (st := {| parser := p; renderer := r; pending := []; drained := false; captured := None; devin_outcome := None |} : TranslateState Parser StreamRenderer StreamFrame).
  change (collect_from p "" None false (Ok first :: up) = Ok (raw, usage, o)) in Hcollect.
  pose proof (collect_meters closing steady alive (Ok first :: up) st "" (raw, usage, o) Hs Ha eq_refl Hr eq_refl Hcollect) as H.
  cbn [fst snd] in H. rewrite <- H. cbn [body drained st renderer]. rewrite Hr. cbn [orb].
  change (feed_chunk (shipped st) first) with (opened p r first). by destruct (body up (opened p r first)).
Qed.
End replies.

(** *** Witnesses *)

Module ReplyDemo.
Definition parse_json (s : string) : option Value :=
  if bool_decide (s = "text") then Some (obj [("type", str "response.output_text.delta"); ("delta", str "hi")])
  else if bool_decide (s = "end")
  then Some (obj [("type", str "response.completed");
                  ("response", obj [("usage", obj [("input_tokens", uint 3); ("output_tokens", uint 1)])])])
  else None.

(** Decoders for the protocols the example does not use. *)
#[local] Instance no_decoder : Decoder unit :=
  {| raw_new := (); raw_decode _ _ := ([], ()); raw_finish _ := ([], ()) |}.
Definition no_outcome (_ : unit) : DevinOutcome :=
  {| outcome_usage := None; actual_model_uid := None; outcome_stop_reason := None; error_code := None;
     error_message := None; outcome_terminated := false |}.

Definition nl2 : string := String LF (String LF "").
Definition usage : option ResponseTokenUsage :=
  Some (metered (parse_usage (obj [("input_tokens", uint 3); ("output_tokens", uint 1)]))).
Definition print_json (v : Value) : string := "{}".
Definition uuid (n : Z) : string := "u".
Definition upstream : Upstream := [Ok ("xt" +:+ nl2 +:+ "data: end" +:+ nl2)].

Lemma streamed_usage_witness :
  ∃ fs st, captured st = usage ∧ ∀ n, (length fs < n)%nat →
    Compat.streaming_body parse_json print_json uuid (Cu := unit) no_outcome (λ _ _ _, None) "data: te" upstream "m" 7 true Chat Codex None n
    = (fs, Some st).
Proof.
  refine (streamed_usage_collected parse_json print_json uuid (Cu := unit) no_outcome (λ _ _ _, None) "data: te" upstream "m" 7 true
    Chat Codex ("data: text" +:+ nl2 +:+ "data: end" +:+ nl2) usage None (or_introl eq_refl) _).
  vm_compute. reflexivity.
Defined.
End ReplyDemo.

(** * A Messages stream reads back over the wire

    What the gateway streams to a client of the Messages API, the gateway's own reader of
    Anthropic upstreams reads as the response it was rendered from. *)

Import RustStr Json JsonMake Sse Render Wire ClaudeStream Preamble Compat.

Section messages.
Context (parse_json : string → option Value) (print_json : Value → string) (uuid : Z → string).
Context {Cu De : Type} {cursor : Decoder Cu} {devin : Decoder De} (outcome : De → DevinOutcome).
Abbreviation Parser := (ProtocolParser Cu De).
#[local] Instance message_source : Source Parser := parser_source parse_json print_json uuid outcome.
Abbreviation codec := (Wire.codec parse_json print_json).
Abbreviation decode_all := (ClaudeDecode.decode_all parse_json).

(** The frames of a cut stream are those of the whole. *)
Lemma anthropic_cut cs : ∀ sse d frames sse', Sse.failure sse = None →
  feed sse (String.concat "" cs) = (frames, sse', None) →
  source_events (AnthropicParser sse d : Parser) cs =
  let '(es, d') := decodes parse_json d frames in
  es ++ (parser_finish parse_json print_json uuid (AnthropicParser sse' d' : Parser)).1.
Proof.
  induction cs as [|c cs IH]; intros sse d frames sse' Hf Hfeed.
  { cbn in Hfeed. injection Hfeed as <- <-. reflexivity. }
  assert (Hc : String.concat "" (c :: cs) = c +:+ String.concat "" cs) by (destruct cs; cbn; by rewrite ?append_nil_r).
  rewrite Hc, feed_app in Hfeed. destruct (feed sse c) as [[fs p1] [e|]] eqn:E1; [done|].
  pose proof (feed_failure _ _ _ _ _ Hf E1) as Hf1. destruct (feed p1 _) as [[fs2 p2] e2] eqn:E2.
  injection Hfeed as <- <- ->. cbn [source_events].
  assert (source_push (AnthropicParser sse d : Parser) c =
    let '(es, d') := decodes parse_json d fs in (es ++ [], AnthropicParser p1 d')) as ->.
  { cbn. unfold push_raw_data. by rewrite Hf, E1. }
  assert (Hd : ∀ l k q, decodes parse_json q (l ++ k) = let '(a, q1) := decodes parse_json q l in
     let '(b, q2) := decodes parse_json q1 k in (a ++ b, q2)).
  { induction l as [|x l IHl]; intros k q; cbn; [by destruct (decodes parse_json q k)|].
    destruct (ClaudeStream.decode parse_json q x) as [a q1]. rewrite IHl. destruct (decodes parse_json q1 l) as [b q2].
    destruct (decodes parse_json q2 k) as [b' q3]. by rewrite app_assoc. }
  rewrite Hd. destruct (decodes parse_json d fs) as [es1 d1]. rewrite app_nil_r.
  rewrite (IH p1 d1 fs2 p2 Hf1 E2). destruct (decodes parse_json d1 fs2) as [es2 d2]. by rewrite app_assoc.
Qed.

(** Payloads that read back decode as the values they print. *)
Lemma decodes_codec fs : ∀ d, Forall codec (payload <$> fs) →
  decodes parse_json d (print_json ∘ payload <$> fs) = decode_all d fs.
Proof.
  induction fs as [|f fs IH]; intros d Hc; [done|]. rewrite fmap_cons in Hc. apply list.Forall_cons in Hc as [Hf Hc].
  rewrite fmap_cons. cbn [decodes ClaudeDecode.decode_all]. unfold ClaudeStream.decode. cbn [compose]. destruct Hf as [Hf _]. change ((print_json ∘ payload) f) with (print_json (payload f)). rewrite Hf.
  destruct (decode_value parse_json d (payload f)) as [es d1]. by rewrite IH.
Qed.

Definition message_names (f : Frame) : Prop := line_name (event_name f).

Lemma on_names k fields : one_of k ON = true → message_names (frame k fields).
Proof.
  intros Hk. apply bool_decide_eq_true, list_elem_of_In in Hk.
  by repeat (destruct Hk as [<-|Hk]; [split; [reflexivity|by vm_compute]|]).
Qed.

Lemma last_names f : last_frame f → message_names f.
Proof. intros [->|[m ->]]; split; first [reflexivity|by vm_compute]. Qed.

(** The frames of a response: their names are lines, and the last ends it. *)
Lemma renders_names es : ∀ r, r_terminated r = false → Forall (λ e, is_terminal e = false) es →
  Forall message_names (ClaudeStream.renders r es).1 ∧ r_terminated (ClaudeStream.renders r es).2 = false.
Proof.
  induction es as [|e es IH]; intros r Hr Hes; cbn [ClaudeStream.renders]; [by split; [apply list.Forall_nil_2|]|].
  apply list.Forall_cons in Hes as [He Hes]. pose proof (messages_frames message_names on_names r e Hr) as H.
  rewrite He in H. destruct (ClaudeStream.render r e) as [a r1]. destruct H as [Ht Ha].
  destruct (IH r1 Ht Hes) as [Hb Hr2]. destruct (ClaudeStream.renders r1 es) as [b r2]. cbn in *.
  split; [by apply list.Forall_app|done].
Qed.

Lemma decode_last d f : last_frame f → terminated (decode_value parse_json d (payload f)).2 = true.
Proof.
  intros Hf. destruct (terminated d) eqn:E.
  - assert (decode_value parse_json d (payload f) = ([], d)) as ->; [|done].
    unfold decode_value. rewrite E. by destruct Hf as [->|[m ->]].
  - destruct Hf as [->|[m ->]]; unfold decode_value; rewrite E; reflexivity.
Qed.

(** C35: What is sent as a Messages stream reads back as the response it was rendered from.
    Take the events of a response - text, reasoning with its signature, tool calls whose
    indices each begin once, with arguments only for calls that began, then a completion or a
    failure -, render them as Messages events, write them to the wire, cut the bytes anywhere,
    read them with the parser of Anthropic upstreams and aggregate the events: text,
    reasoning, signature, tool calls with their arguments and the failure, if any, are those
    of aggregating the events directly.  When the response completed, so is the output limit,
    and of the usage the prompt and the completion tokens are; when it failed, the error frame
    carries neither.  Of the JSON library it is asked that the payloads sent print as one line
    within the limits and read back; of the tool names, that they do not start with the prefix
    the reader strips. *)
Theorem messages_stream_rereads (m mm : string) (t cc : Z) (es : list CodexEvent)
  (last : CodexEvent) (chunks : list string)
  (Hes : Forall (λ e, is_terminal e = false) es) (Hlast : is_terminal last = true)
  (Hok : tools_ok [] es) (Hnames : Forall (λ e, plain_name e = true) es)
  (Hcodec : Forall codec (payload <$> (ClaudeStream.renders (ClaudeStream.new_renderer m t) (es ++ [last])).1))
  (Hchunks : String.concat "" chunks = wire print_json (ClaudeStream.renders (ClaudeStream.new_renderer m t) (es ++ [last])).1) :
  same_answer last (foldl ag_push (ag_new mm cc) (es ++ [last]))
    (foldl ag_push (ag_new mm cc) (source_events (with_parts Anthropic None : Parser) chunks)).
Proof.
  pose proof (messages_decode_agrees parse_json m t mm cc es last Hes Hlast Hok Hnames) as Ha.
  assert (Hout : Forall message_names (ClaudeStream.renders (ClaudeStream.new_renderer m t) (es ++ [last])).1 ∧
    terminated (decode_all new_decoder (ClaudeStream.renders (ClaudeStream.new_renderer m t) (es ++ [last])).1).2 = true).
  { rewrite messages_renders_app. destruct (renders_names es (ClaudeStream.new_renderer m t) eq_refl Hes) as [H1 H2].
    destruct (ClaudeStream.renders (ClaudeStream.new_renderer m t) es) as [a r1]. cbn [ClaudeStream.renders].
    pose proof (messages_frames message_names on_names r1 last H2) as H3. rewrite Hlast in H3.
    destruct (ClaudeStream.render r1 last) as [b r2]. cbn [fst snd] in H3. destruct H3 as [_ (fs & f & -> & Hf & Hl)]. cbn [fst].
    rewrite app_nil_r, app_assoc. split.
    - rewrite !list.Forall_app. split_and!; [done|done|]. constructor; [by apply last_names|by apply list.Forall_nil_2].
    - rewrite decode_all_app. destruct (decode_all new_decoder (a ++ fs)) as [es1 d1]. cbn [ClaudeDecode.decode_all].
      pose proof (decode_last d1 f Hl) as Ht. by destruct (decode_value parse_json d1 (payload f)). }
  set (out := (ClaudeStream.renders (ClaudeStream.new_renderer m t) (es ++ [last])).1) in *. destruct Hout as [Hn Ht].
  destruct (feed_wire parse_json print_json out initial) as (p & Hfeed & (Hb & Hdat & Hf & _) & _); [by split_and!|done|done|].
  rewrite <- Hchunks in Hfeed. change (with_parts Anthropic None) with (AnthropicParser initial new_decoder : Parser).
  rewrite (anthropic_cut chunks initial new_decoder _ _ eq_refl Hfeed), decodes_codec by done.
  destruct (decode_all new_decoder out) as [es1 d1]. cbn [fst snd] in *.
  assert ((parser_finish parse_json print_json uuid (AnthropicParser p d1 : Parser)).1 = []) as ->; [|by rewrite app_nil_r].
  cbn [parser_finish]. unfold finish_raw_data. rewrite Hf, Hb. cbn [is_empty]. unfold consume_line. cbn [is_empty]. rewrite Hdat.
  cbn [is_empty decodes app]. unfold ClaudeStream.finish. by rewrite Ht.
Qed.
End messages.

(** ** The events of [MessagesDemo] over the wire *)

Module MessagesWireDemo.
Definition events : list CodexEvent := MessagesDemo.events.
Definition last : CodexEvent := Completed None.
Definition out : list Frame :=
  Eval vm_compute in (ClaudeStream.renders (ClaudeStream.new_renderer "m" 7) (events ++ [last])).1.

(** A payload as its position. *)
Definition print_json (v : Value) : string :=
  default "?" (show_u64 ∘ Z.of_nat <$> position (λ f, value_eqb (payload f) v) out).
Definition parse_json (s : string) : option Value :=
  payload <$> List.find (λ f, bool_decide (print_json (payload f) = s)) out.
Definition uuid (n : Z) : string := "u".

#[local] Instance no_decoder : Decoder unit :=
  {| raw_new := (); raw_decode _ _ := ([], ()); raw_finish _ := ([], ()) |}.
Definition no_outcome (_ : unit) : DevinOutcome :=
  {| outcome_usage := None; actual_model_uid := None; outcome_stop_reason := None; error_code := None;
     error_message := None; outcome_terminated := false |}.
#[local] Instance demo_source : Source (ProtocolParser unit unit) := parser_source parse_json print_json uuid no_outcome.

Definition chunks : list string := ["event: mess"; String.substring 11 4000 (wire print_json out)].

Lemma messages_rereads_witness :
  same_answer last (foldl ag_push (ag_new "m" 7) (events ++ [last]))
    (foldl ag_push (ag_new "m" 7) (source_events (with_parts Anthropic None : ProtocolParser unit unit) chunks)).
Proof.
  refine (messages_stream_rereads parse_json print_json uuid no_outcome "m" "m" 7 7 events last chunks _ eq_refl _ _ _ _).
  - repeat (constructor; [reflexivity|]). constructor.
  - cbn. split_and!; try exact I; apply (bool_decide_unpack _); vm_compute; exact I.
  - repeat (constructor; [reflexivity|]). constructor.
  - let l := eval vm_compute in (payload <$> out) in
      assert (E : payload <$> (ClaudeStream.renders (ClaudeStream.new_renderer "m" 7) (events ++ [last])).1 = l)
        by (vm_compute; reflexivity).
    rewrite E. repeat (constructor; [split_and!; [vm_compute; reflexivity..|vm_compute; discriminate|vm_compute; discriminate]|]).
    constructor.
  - vm_compute. reflexivity.
Defined.
End MessagesWireDemo.
