(* ===== verification/ClaudeRequest.v ===== *)
(** * Messages requests (crates/gateway/src/compat/claude.rs, lines 259-1003 and 1029-1127)

    A Messages request becomes a chat request ([anthropic_to_openai]), a chat request becomes
    a Messages request ([openai_to_anthropic_with_capability]), and a whole Messages answer
    becomes a chat completion ([anthropic_json_to_openai]); then what is done to a Messages
    request on its way out: thinking, the system instruction, cache breakpoints.

    Parameters: [parse_json] and [print_json] are [serde_json], [decode_base64] the standard
    engine, [show_error] the [Display] of a translation error, [capability_of] the compiled-in
    catalog.  A panic - [i64::clamp] on an empty range - is [None]. *)

From Stdlib Require Import Ascii SpecFloat.
From stdpp Require Import base strings list.
From S2P Require Import Prelude RustStr F64 Json RegistryTypes ToolSchema Sse Wire Request ResponsesRequest ClaudeStream.
Import Registry RustStr Json JsonMake Request ClaudeStream.
Open Scope Z_scope.

Module ClaudeRequest.

(** [json!(1.0)] *)
Definition ONE : Value := VNumber (Float (F64.f64_of_Z 1)).

(** [value.as_f64()], as the number [json!] makes of it. *)
Definition as_f64 (v : Value) : option Value :=
  match v with
  | VNumber (PosInt n) | VNumber (NegInt n) => Some (VNumber (Float (F64.f64_of_Z n)))
  | VNumber (Float f) => Some (VNumber (Float f))
  | _ => None
  end.

(** [value.get(k).filter(|v| v.is_object())]. *)
Definition get_object (k : string) (v : Value) : option Value :=
  match get k v with Some (VObject m) => Some (VObject m) | _ => None end.

(** ** Messages to chat *)

Definition data_url (media_type data : string) : string := "data:" +:+ media_type +:+ ";base64," +:+ data.

(** A block or a result item that holds an image's bytes. *)
Definition image_url (block : Value) : option Value :=
  let source := idx "source" block in
  if is_str "base64" (idx "type" source) then
    Some (obj [("type", str "image_url");
               ("image_url", obj [("url", str (data_url
                  (default "application/octet-stream" (as_str (idx "media_type" source)))
                  (default "" (as_str (idx "data" source)))))])])
  else None.

(** What the blocks of a message are sorted into. *)
Record Parts := {
  text_parts : list string;
  image_parts : list Value;
  tool_calls : list Value;
  tool_results : list Value;
  thinking_parts : list string;
  signature : option string;
  redacted : bool;
}.

Definition no_parts : Parts :=
  {| text_parts := []; image_parts := []; tool_calls := []; tool_results := []; thinking_parts := [];
     signature := None; redacted := false |}.

Definition result_content (content : Value) : Value :=
  match content with
  | VArray items =>
      VArray ((λ item, if is_str "image" (idx "type" item) then default item (image_url item) else item) <$> items)
  | other => other
  end.

Section translate.
Context (parse_json : string → option Value) (print_json : Value → string).

Definition use_call (block : Value) : Value :=
  obj [("id", str (default "" (get_str "id" block))); ("type", str "function");
       ("function", obj [("name", str (default "" (get_str "name" block)));
                         ("arguments", str (print_json (default (obj []) (get "input" block))))])].

Definition result_message (block : Value) : Value :=
  set_some "is_error" (VBool <$> get_bool "is_error" block)
    (set_some "cache_control" (get "cache_control" block)
       (obj [("role", str "tool"); ("tool_call_id", str (default "" (get_str "tool_use_id" block)));
             ("content", result_content (default (str "") (get "content" block)));
             ("x_anthropic_tool_result", VBool true)])).

Definition read_block (p : Parts) (block : Value) : Parts :=
  let '(Build_Parts t i c r th s rd) := p in
  match get_str "type" block with
  | Some kind =>
      if bool_decide (kind = "text") then
        Build_Parts (t ++ option_list (get_str "text" block)) i c r th s rd
      else if bool_decide (kind = "image") then
        Build_Parts t (i ++ option_list (image_url block)) c r th s rd
      else if bool_decide (kind = "thinking") then
        Build_Parts t i c r (th ++ option_list (get_str "thinking" block)) (or_else (get_str "signature" block) s) rd
      else if bool_decide (kind = "redacted_thinking") then
        Build_Parts t i c r th (or_else (get_str "data" block) s) true
      else if bool_decide (kind = "tool_use") then Build_Parts t i (c ++ [use_call block]) r th s rd
      else if bool_decide (kind = "tool_result") then Build_Parts t i c (r ++ [result_message block]) th s rd
      else p
  | None => p
  end.

Definition parts_of (content : option Value) : Parts :=
  match content with
  | Some (VString s) =>
      {| text_parts := [s]; image_parts := []; tool_calls := []; tool_results := []; thinking_parts := [];
         signature := None; redacted := false |}
  | Some (VArray blocks) => foldl read_block no_parts blocks
  | _ => no_parts
  end.

Definition nonempty {A} (l : list A) : bool := match l with [] => false | _ => true end.
Definition joined (l : list string) : Value := str (String.concat "" l).

(** The message before the results of the same turn. *)
Definition turn_message (role : string) (p : Parts) : list Value :=
  if bool_decide (role = "assistant")
     && (nonempty (tool_calls p) || nonempty (thinking_parts p) || is_some (signature p) || redacted p) then
    let m := obj [("role", str "assistant"); ("content", joined (text_parts p))] in
    let m := if nonempty (tool_calls p) then set "tool_calls" (VArray (tool_calls p)) m else m in
    let m := if nonempty (thinking_parts p) then set "reasoning_content" (joined (thinking_parts p)) m else m in
    let m := set_some "reasoning_signature" (str <$> signature p) m in
    [if redacted p then set "reasoning_redacted" (VBool true) m else m]
  else if nonempty (tool_calls p) then
    [obj [("role", str "assistant"); ("content", joined (text_parts p)); ("tool_calls", VArray (tool_calls p))]]
  else if nonempty (text_parts p) || nonempty (image_parts p) then
    [obj [("role", str role);
          ("content", if nonempty (image_parts p)
                      then VArray ((if nonempty (text_parts p)
                                    then [obj [("type", str "text"); ("text", joined (text_parts p))]] else [])
                                   ++ image_parts p)
                      else joined (text_parts p))]]
  else [].

Definition chat_messages (msg : Value) : list Value :=
  let p := parts_of (get "content" msg) in
  turn_message (default "user" (get_str "role" msg)) p ++ tool_results p.

Definition system_messages (body : Value) : list Value :=
  match get "system" body ≫= system_to_text with
  | Some text => if is_empty text then [] else [obj [("role", str "system"); ("content", str text)]]
  | None => []
  end.

Definition chat_tool (t : Value) : Value :=
  obj [("type", str "function");
       ("function", obj [("name", str (default "" (get_str "name" t)));
                         ("description", str (default "" (get_str "description" t)));
                         ("parameters", default (obj []) (get "input_schema" t))])].

Definition chat_tool_choice (choice : Value) : result string Value :=
  match as_str (idx "type" choice) with
  | Some kind =>
      if bool_decide (kind = "auto") then Ok (str "auto")
      else if bool_decide (kind = "none") then Ok (str "none")
      else if bool_decide (kind = "any") then Ok (str "required")
      else if bool_decide (kind = "tool") then
        match as_str (idx "name" choice) with
        | Some name =>
            if is_empty name then Err "tool_choice tool requires a name"
            else Ok (obj [("type", str "function"); ("function", obj [("name", str name)])])
        | None => Err "tool_choice tool requires a name"
        end
      else Err "unsupported Anthropic tool_choice"
  | None => Err "unsupported Anthropic tool_choice"
  end.

(** The options that follow the choice of a tool. *)
Definition choose_tool (body out : Value) : result string Value :=
  match get "tool_choice" body with
  | None => Ok out
  | Some choice =>
      mapped ← chat_tool_choice choice;
      let out := set "tool_choice" mapped out in
      match get "disable_parallel_tool_use" choice with
      | None => Ok out
      | Some disabled =>
          b ← ok_or "disable_parallel_tool_use must be boolean" (as_bool disabled);
          Ok (set "parallel_tool_calls" (VBool (negb b)) out)
      end
  end.

Definition anthropic_to_openai (body : Value) : result string Value :=
  model ← ok_or "missing model" (get_str "model" body);
  messages ← ok_or "missing messages" (get_array "messages" body);
  let out := obj [("model", str model);
                  ("messages", VArray (system_messages body ++ (messages ≫= chat_messages)))] in
  let out := set_some "max_tokens" (int <$> (get "max_tokens" body ≫= as_i64)) out in
  let out := set_some "temperature" (get "temperature" body ≫= as_f64) out in
  let out := set_some "top_p" (get "top_p" body ≫= as_f64) out in
  let out := set_some "stream" (VBool <$> get_bool "stream" body) out in
  let out := match get_array "tools" body with
             | Some (t :: ts) => set "tools" (VArray (chat_tool <$> t :: ts)) out
             | _ => out
             end in
  choose_tool body out.

(** ** Chat to Messages *)

Definition anthropic_tool_name (name : string) : string :=
  if starts_with name "custom_" || one_of name ["web_search"; "code_execution"; "text_editor"; "computer"]
  then name else "custom_" +:+ name.

Definition content_text (content : Value) : option string :=
  match content with
  | VString text => Some text
  | VArray parts =>
      Some (String.concat "" (omap (λ part, if is_str "text" (idx "type" part) then as_str (idx "text" part) else None) parts))
  | _ => None
  end.

Definition CLAUDE_IMAGE_TYPES : list string := ["image/png"; "image/jpeg"; "image/gif"; "image/webp"].

Section media.
Context (decode_base64 : string → option string).

Definition image_block (part : Value) : result string Value :=
  url ← ok_or "image_url.url must be a string: unsupported media"
          (or_else (as_str (idx "url" (idx "image_url" part))) (as_str (idx "image_url" part)));
  match ResponsesRequest.split_data_url url with
  | Some (media_type, data) =>
      if one_of media_type CLAUDE_IMAGE_TYPES then
        Ok (obj [("type", str "image");
                 ("source", obj [("type", str "base64"); ("media_type", str media_type); ("data", str data)])])
      else Err ("unsupported image media type " +:+ media_type +:+ ": unsupported media")
  | None =>
      if starts_with url "https://" || starts_with url "http://" then
        Ok (obj [("type", str "image"); ("source", obj [("type", str "url"); ("url", str url)])])
      else Err "image_url must be a data URL or http(s) URL: unsupported media"
  end.

Definition document_block (part : Value) : result string Value :=
  let file := idx "file" part in
  url ← ok_or "file.file_data must be a data URL string: unsupported media" (as_str (idx "file_data" file));
  md ← ok_or "file.file_data must be a base64 data URL: unsupported media" (ResponsesRequest.split_data_url url);
  let '(media_type, data) := md in
  source ←
    (if bool_decide (media_type = "application/pdf") then
       Ok (obj [("type", str "base64"); ("media_type", str media_type); ("data", str data)])
     else if bool_decide (media_type = "text/plain") then
       bytes ← ok_or "file.file_data is not valid base64: unsupported media" (decode_base64 data);
       if valid_utf8 bytes
       then Ok (obj [("type", str "text"); ("media_type", str media_type); ("data", str bytes)])
       else Err "text document is not UTF-8: unsupported media"
     else Err ("unsupported document media type " +:+ media_type +:+ ": unsupported media"));
  Ok (set_some "title" (str <$> as_str (idx "filename" file))
        (obj [("type", str "document"); ("source", source)])).

Definition content_block (part : Value) : result string Value :=
  match as_str (idx "type" part) with
  | Some kind =>
      if bool_decide (kind = "text") then
        Ok (obj [("type", str "text"); ("text", str (default "" (as_str (idx "text" part))))])
      else if bool_decide (kind = "image_url") then image_block part
      else if bool_decide (kind = "file") then document_block part
      else if one_of kind ["image"; "document"; "tool_result"; "tool_use"] then Ok part
      else Err ("unsupported content part type " +:+ kind +:+ ": unsupported media")
  | None => Err "content part missing type: unsupported media"
  end.

Definition openai_content_to_anthropic (part : Value) : result string Value :=
  block ← content_block part;
  Ok (set_some "cache_control" (get_object "cache_control" part) block).

(** [iter().map(f).collect::<Result<Vec<_>, _>>()]. *)
Fixpoint try_map {A B} (f : A → result string B) (l : list A) : result string (list B) :=
  match l with
  | [] => Ok []
  | x :: l => y ← f x; ys ← try_map f l; Ok (y :: ys)
  end.

(** The messages so far: the system's blocks, and the conversation. *)
Record Conversation := { system : list Value; conversation : list Value }.

Definition user_turn (block : Value) : Value := obj [("role", str "user"); ("content", VArray [block])].

Definition add_instruction (st : Conversation) (message : Value) : Conversation :=
  match get "content" message ≫= content_text with
  | None => st
  | Some text =>
      let block := set_some "cache_control" (get_object "cache_control" message)
                     (obj [("type", str "text"); ("text", str text)]) in
      match conversation st with
      | [] => {| system := system st ++ [block]; conversation := [] |}
      | out => {| system := system st; conversation := out ++ [user_turn block] |}
      end
  end.

(** [out.last_mut().filter(..)] and a block pushed to its content. *)
Definition push_result (out : list Value) (block : Value) : list Value :=
  match last out with
  | Some l =>
      match (if is_str "user" (idx "role" l) then get_array "content" l else None) with
      | Some content => removelast out ++ [set "content" (VArray (content ++ [block])) l]
      | None => out ++ [user_turn block]
      end
  | None => out ++ [user_turn block]
  end.

Definition result_block (message : Value) : result string Value :=
  content ← match get "content" message with
            | Some (VArray parts) => VArray <$> try_map openai_content_to_anthropic parts
            | Some content => Ok content
            | None => Ok (str "")
            end;
  Ok (set_some "cache_control" (get "cache_control" message)
        (obj [("type", str "tool_result");
              ("tool_use_id", str (default "" (get_str "tool_call_id" message)));
              ("content", content)])).

Definition use_block (call : Value) : Value :=
  let function := idx "function" call in
  obj [("type", str "tool_use"); ("id", idx "id" call);
       ("name", str (anthropic_tool_name (default "tool" (as_str (idx "name" function)))));
       ("input", default (obj []) (as_str (idx "arguments" function) ≫= parse_json))].

(** What [retain] keeps: Anthropic refuses an empty text block. *)
Definition worth_sending (block : Value) : bool :=
  negb (bool_decide (get_str "type" block = Some "text"))
  || match get_str "text" block with Some text => negb (is_empty text) | None => false end.

Definition turn_content (message : Value) : result string (list Value) :=
  content ← match get "content" message with
            | Some (VString text) => Ok [obj [("type", str "text"); ("text", str text)]]
            | Some (VArray blocks) => try_map openai_content_to_anthropic blocks
            | _ => Ok []
            end;
  let calls := default [] (get_array "tool_calls" message) in
  Ok (filter (λ b, worth_sending b = true) (content ++ (use_block <$> calls))).

Definition add_message (st : Conversation) (message : Value) : result string Conversation :=
  let role := default "user" (get_str "role" message) in
  if one_of role ["system"; "developer"] then Ok (add_instruction st message)
  else if bool_decide (role = "tool") then
    block ← result_block message;
    Ok {| system := system st; conversation := push_result (conversation st) block |}
  else
    content ← turn_content message;
    Ok match content with
       | [] => st
       | _ => {| system := system st;
                 conversation := conversation st ++ [obj [("role", str role); ("content", VArray content)]] |}
       end.

(** A tool with a function, by its position. *)
Definition claude_tool (index : nat) (tool function : Value) : result string Value :=
  if bool_decide (as_str (idx "name" function) = Some "web_search") then
    Ok (obj [("type", str "web_search_20250305"); ("name", str "web_search")])
  else
    match ToolSchema.anthropic_schema (get "parameters" function) with
    | Err error => Err ("tools[" +:+ show_u64 (Z.of_nat index) +:+ "].function.parameters: " +:+ error)
    | Ok schema =>
        Ok (set_some "cache_control" (get_object "cache_control" tool)
              (obj [("name", str (anthropic_tool_name (default "tool" (as_str (idx "name" function)))));
                    ("description", idx "description" function); ("input_schema", schema)]))
    end.

Fixpoint claude_tools (index : nat) (tools : list Value) : result string (list Value) :=
  match tools with
  | [] => Ok []
  | tool :: tools =>
      match get "function" tool with
      | None => claude_tools (S index) tools
      | Some function =>
          t ← claude_tool index tool function;
          ts ← claude_tools (S index) tools;
          Ok (t :: ts)
      end
  end.

Definition check_response_format (model : string) (body : Value) : result string () :=
  match get "response_format" body with
  | None | Some Null => Ok tt
  | Some rf =>
      match get_str "type" rf with
      | Some kind =>
          if bool_decide (kind = "text") then Ok tt
          else if one_of kind ["json_schema"; "json_object"] then
            Err ("Claude model '" +:+ model +:+ "' has no catalog-advertised native structured-output capability: unsupported option conflict")
          else Err "unsupported response_format type or shape"
      | None => Err "unsupported response_format type or shape"
      end
  end.

Definition claude_tool_choice (body : Value) : result string (option Value) :=
  match get "tool_choice" body with
  | None => Ok None
  | Some (VString kind) =>
      if bool_decide (kind = "auto") then Ok (Some (obj [("type", str "auto")]))
      else if bool_decide (kind = "none") then Ok (Some (obj [("type", str "none")]))
      else if bool_decide (kind = "required") then Ok (Some (obj [("type", str "any")]))
      else Err "unsupported OpenAI tool_choice"
  | Some choice =>
      if is_str "function" (idx "type" choice) then
        match as_str (idx "name" (idx "function" choice)) with
        | Some name =>
            if is_empty name then Err "tool_choice function requires a name"
            else Ok (Some (obj [("type", str "tool"); ("name", str (anthropic_tool_name name))]))
        | None => Err "tool_choice function requires a name"
        end
      else Err "unsupported OpenAI tool_choice"
  end.

Definition with_parallel (body : Value) (choice : option Value) : result string (option Value) :=
  match get "parallel_tool_calls" body with
  | None => Ok choice
  | Some parallel =>
      b ← ok_or "parallel_tool_calls must be boolean" (as_bool parallel);
      Ok (Some (set "disable_parallel_tool_use" (VBool (negb b)) (default (obj [("type", str "auto")]) choice)))
  end.

Definition system_value (blocks : list Value) : option Value :=
  match blocks with
  | [] => None
  | _ =>
      Some (if existsb (λ b, is_some (get "cache_control" b)) blocks then VArray blocks
            else str (String.concat (String Sse.LF (String Sse.LF "")) (omap (λ b, as_str (idx "text" b)) blocks)))
  end.

Definition DEFAULT_MAX_TOKENS : Z := 32768.

(** The request before thinking is applied to it. *)
Definition claude_base (raw_model : string) (body : Value) : result string Value :=
  check_response_format raw_model body ≫= λ _,
  messages ← ok_or "missing messages" (get_array "messages" body);
  st ← try_fold add_message {| system := []; conversation := [] |} messages;
  tools ← claude_tools 0 (default [] (get_array "tools" body));
  choice ← claude_tool_choice body;
  choice ← with_parallel body choice;
  let result := obj [("model", str raw_model); ("messages", VArray (conversation st));
                     ("max_tokens", uint (default DEFAULT_MAX_TOKENS (get "max_tokens" body ≫= as_u64)));
                     ("stream", VBool (default false (get_bool "stream" body)))] in
  let result := set_some "system" (system_value (system st)) result in
  let result := if nonempty tools then set "tools" (VArray tools) result else result in
  Ok (set_some "tool_choice" choice result).
End media.

(** ** Thinking *)

Section thinking.
Context (decode_base64 : string → option string) (show_error : TranslateError → string).
Context (capability_of : string → string → result string ThinkingCapability).

Definition is_adaptive (capability : ThinkingCapability) : bool :=
  match capability with Supported s => nonempty (levels s) | _ => false end.

Definition budget_range (capability : ThinkingCapability) : Z * Z :=
  match capability with
  | Supported s => (th_min s, th_max s)
  | ThinkingUnknown => (1024, 128000)
  | Unsupported => (0, 0)
  end.

Definition OUT_OF_RANGE : string := "out of range integral type conversion attempted".

(** The budget of a mode; [None] is the panic of [clamp]. *)
Definition apply_budget (capability : ThinkingCapability) (budget : Z) (result : Value)
  : option (Prelude.result string (bool * Value)) :=
  let '(minimum, maximum) := budget_range capability in
  budget ← clamp budget minimum maximum;
  Some (
    if budget <? 0 then Err OUT_OF_RANGE
    else
      let max_tokens := default DEFAULT_MAX_TOKENS (as_u64 (idx "max_tokens" result)) in
      if minimum <? 0 then Err OUT_OF_RANGE
      else if max_tokens <=? minimum then
        Err "max_tokens cannot accommodate Claude minimum thinking budget: unsupported option conflict"
      else Ok (true, set "thinking" (obj [("type", str "enabled");
                                          ("budget_tokens", uint (Z.min budget (max_tokens - 1)))]) result)).

Definition apply_mode (mode : ThinkingMode) (capability : ThinkingCapability) (result : Value)
  : option (Prelude.result string (bool * Value)) :=
  match mode with
  | ModeNone => Some (Ok (false, set "thinking" (obj [("type", str "disabled")]) result))
  | ModeAuto =>
      Some (Ok (true, set "thinking"
                  (obj [("type", str (if is_adaptive capability then "adaptive" else "enabled"))]) result))
  | ModeLevel level =>
      if is_adaptive capability then
        Some (Ok (true, set "output_config" (obj [("effort", str level)])
                          (set "thinking" (obj [("type", str "adaptive")]) result)))
      else apply_budget capability (level_budget level) result
  | ModeBudget budget => apply_budget capability budget result
  end.

Definition apply_thinking_mode (raw_model : string) (body : Value) (capability : ThinkingCapability)
    (result : Value) : option (Prelude.result string (bool * Value)) :=
  match thinking_mode raw_model body with
  | Err e => Some (Err (show_error e))
  | Ok None => Some (Ok (false, result))
  | Ok (Some mode) =>
      mode ← target_thinking_mode show_error mode capability true;
      match mode with
      | Err e => Some (Err e)
      | Ok mode => apply_mode mode capability result
      end
  end.

(** The options that are passed on; thinking takes the temperature 1. *)
Definition pass_options (body : Value) (thinking : bool) (result : Value) : Value :=
  let result := set_some "temperature"
                  ((λ v, if thinking then ONE else v) <$> get "temperature" body) result in
  let result := set_some "top_p" (get "top_p" body) result in
  set_some "stop_sequences" (get "stop_sequences" body) result.

Definition openai_to_anthropic_with_capability (body : Value) (capability : ThinkingCapability)
  : option (Prelude.result string Value) :=
  match get_str "model" body with
  | None => Some (Err "missing model")
  | Some raw_model =>
      match parse_model_suffix raw_model with
      | Err e => Some (Err (show_error e))
      | Ok (model, _) =>
          match claude_base decode_base64 model body with
          | Err e => Some (Err e)
          | Ok result =>
              r ← apply_thinking_mode raw_model body capability result;
              Some ('(thinking, result) ← r; Ok (pass_options body thinking result))
          end
      end
  end.

Definition openai_to_anthropic (body : Value) : option (Prelude.result string Value) :=
  match get_str "model" body with
  | None => Some (Err "missing model")
  | Some model =>
      match capability_of model "claude" with
      | Err e => Some (Err e)
      | Ok capability => openai_to_anthropic_with_capability body capability
      end
  end.

(** [object.remove(k)]. *)
Definition without (k : string) (v : Value) : Value :=
  match v with VObject m => VObject (obj_remove k m) | v => v end.

Definition apply_native_thinking_suffix (requested_model upstream_model : string) (body : Value)
  : option (Prelude.result string Value) :=
  match parse_model_suffix requested_model with
  | Err e => Some (Err (show_error e))
  | Ok (_, None) => Some (Ok body)
  | Ok (_, Some _) =>
      match capability_of requested_model "claude" with
      | Err e => Some (Err e)
      | Ok capability =>
          r ← apply_thinking_mode requested_model body capability
                (without "output_config" (without "thinking" body));
          Some ('(enabled, out) ← r;
                let out := if enabled && is_some (get "temperature" out) then set "temperature" ONE out else out in
                match parse_model_suffix upstream_model with
                | Err e => Err (show_error e)
                | Ok (bare, _) => Ok (set "model" (str bare) out)
                end)
      end
  end.
End thinking.

(** ** On the way out *)

Definition CLAUDE_CODE_SYSTEM_INSTRUCTION : string :=
  "You are a Claude agent, built on Anthropic's Claude Agent SDK.".

Definition instruction_block : Value := obj [("type", str "text"); ("text", str CLAUDE_CODE_SYSTEM_INSTRUCTION)].

Definition carries_instruction (item : Value) : bool :=
  match get_str "text" item with Some t => contains t CLAUDE_CODE_SYSTEM_INSTRUCTION | None => false end.

Definition ensure_claude_code_system_instruction (body : Value) : Value :=
  match get "system" body with
  | Some (VArray arr) =>
      if existsb carries_instruction arr then body else set "system" (VArray (instruction_block :: arr)) body
  | Some (VString s) =>
      if contains s CLAUDE_CODE_SYSTEM_INSTRUCTION then body
      else set "system" (str (CLAUDE_CODE_SYSTEM_INSTRUCTION +:+ String Sse.LF (String Sse.LF s))) body
  | None | Some Null => set "system" (VArray [instruction_block]) body
  | _ => body
  end.

Definition ephemeral : Value := obj [("type", str "ephemeral")].

(** The last block that is no thinking, if it is an object. *)
Fixpoint mark_first (blocks : list Value) : list Value :=
  match blocks with
  | [] => []
  | b :: blocks =>
      if match get_str "type" b with Some k => one_of k ["thinking"; "redacted_thinking"] | None => false end
      then b :: mark_first blocks
      else (match b with VObject m => VObject (obj_insert "cache_control" ephemeral m) | v => v end) :: blocks
  end.
Definition mark_last (blocks : list Value) : list Value := reverse (mark_first (reverse blocks)).

Definition mark_message (message : Value) : Value :=
  match get "content" message with
  | Some (VString text) =>
      if is_empty text then message
      else set "content" (VArray [obj [("type", str "text"); ("text", str text); ("cache_control", ephemeral)]]) message
  | Some (VArray blocks) => set "content" (VArray (mark_last blocks)) message
  | _ => message
  end.

Definition apply_prompt_cache_breakpoints (body : Value) : Value :=
  if contains (print_json body) (String "034" ("cache_control" +:+ String "034" "")) then body
  else
    match get_array "messages" body with
    | Some messages =>
        match last messages with
        | Some message => set "messages" (VArray (removelast messages ++ [mark_message message])) body
        | None => body
        end
    | None => body
    end.

(** ** Whole answers *)

Definition answer_text (content : list Value) (block : Value) : option string :=
  match as_str (idx "type" block) with
  | Some kind =>
      if bool_decide (kind = "text") then as_str (idx "text" block)
      else if bool_decide (kind = "web_search_tool_result") then
        let query := b ← List.find (λ b, is_str "server_tool_use" (idx "type" b)
                                         && value_eqb (idx "id" b) (idx "tool_use_id" block)) content;
                     as_str (idx "query" (idx "input" b)) in
        web_search_result_text block query
      else None
  | None => None
  end.

Definition answer_call (block : Value) : Value :=
  obj [("id", idx "id" block); ("type", str "function");
       ("function", obj [("name", str (default "tool" (strip_custom_prefix <$> as_str (idx "name" block))));
                         ("arguments", str (print_json (idx "input" block)))])].

Definition answer_usage (usage : Value) : Value :=
  let prompt := default 0 (u64_at "input_tokens" usage) in
  let completion := default 0 (u64_at "output_tokens" usage) in
  let read := u64_at "cache_read_input_tokens" usage in
  let write := u64_at "cache_creation_input_tokens" usage in
  let out := obj [("prompt_tokens", uint prompt); ("completion_tokens", uint completion);
                  ("total_tokens", uint (wrapping_add_u64 prompt completion))] in
  if is_some read || is_some write then
    let out := set_some "cache_read_input_tokens" (uint <$> read) out in
    let out := set_some "cache_creation_input_tokens" (uint <$> write) out in
    let details := insert_some "cached_tokens" (uint <$> read) [] in
    let details := insert_some "cache_creation_tokens" (uint <$> write) details in
    let details := insert_some "cache_write_tokens" (uint <$> write) details in
    set "prompt_tokens_details" (VObject details) out
  else out.

Definition anthropic_json_to_openai (body : Value) (model : string) (created : Z) : Value :=
  let content := default [] (get_array "content" body) in
  let of_kind k := filter (λ b, is_str k (idx "type" b) = true) content in
  let text := String.concat "" (omap (answer_text content) content) in
  let reasoning := String.concat "" (omap (λ b, as_str (idx "thinking" b)) (of_kind "thinking")) in
  let calls := answer_call <$> of_kind "tool_use" in
  let message := obj [("role", str "assistant"); ("content", str text)] in
  let message := if is_empty reasoning then message else set "reasoning_content" (str reasoning) message in
  let message := if nonempty calls then set "tool_calls" (VArray calls) message else message in
  let finish := match as_str (idx "stop_reason" body) with
                | Some r => if bool_decide (r = "max_tokens") then "length"
                            else if bool_decide (r = "tool_use") then "tool_calls" else "stop"
                | None => "stop"
                end in
  obj [("id", default (str ("chatcmpl-" +:+ show_i64 created)) (get "id" body));
       ("object", str "chat.completion"); ("created", int created); ("model", str model);
       ("choices", VArray [obj [("index", uint 0); ("message", message); ("finish_reason", str finish)]]);
       ("usage", answer_usage (idx "usage" body))].
End translate.

End ClaudeRequest.
