(* ===== verification/ClaudeRequestProps.v ===== *)
(** * Messages requests that are sent

    What every accepted request satisfies - the thinking budget fits, no blank turn is sent,
    the tool history keeps its order - and that a Messages conversation survives the way
    through the chat form. *)

From stdpp Require Import base strings list.
From S2P Require Import Prelude RustStr F64 Json RegistryTypes ToolSchema Request ResponsesRequest ClaudeStream ClaudeRequest.
Import Registry RustStr Json JsonMake Request ClaudeStream ClaudeRequest.
Open Scope Z_scope.

(** ** Reading built objects *)

Lemma as_str_idx k v : as_str (idx k v) = get_str k v.
Proof. unfold idx, get_str. by destruct (get k v). Qed.

Lemma get_str_set_ne k j v o : k ≠ j → get_str k (set j v o) = get_str k o.
Proof. intros. unfold get_str. by rewrite get_set_ne. Qed.
Lemma get_str_set_some_ne k j ov o : k ≠ j → get_str k (set_some j ov o) = get_str k o.
Proof. intros. unfold get_str. by rewrite get_set_some_ne. Qed.
Lemma idx_set_some_ne k j ov o : k ≠ j → idx k (set_some j ov o) = idx k o.
Proof. intros. unfold idx. by rewrite get_set_some_ne. Qed.
Lemma get_array_set_some_ne k j ov o : k ≠ j → get_array k (set_some j ov o) = get_array k o.
Proof. intros. unfold get_array. by rewrite get_set_some_ne. Qed.

(** ** The tool history *)

(** What a conversation says of tools: a use, or a result, by its id. *)
Inductive ToolRef := Used (id : Value) | Returned (id : Value).

Definition block_refs (b : Value) : list ToolRef :=
  match get_str "type" b with
  | Some k => if bool_decide (k = "tool_use") then [Used (idx "id" b)]
              else if bool_decide (k = "tool_result") then [Returned (idx "tool_use_id" b)] else []
  | None => []
  end.

Definition sent_refs (m : Value) : list ToolRef := default [] (get_array "content" m) ≫= block_refs.

(** The same, of a chat message. *)
Definition chat_refs (m : Value) : list ToolRef :=
  let role := default "user" (get_str "role" m) in
  if one_of role ["system"; "developer"] then []
  else if bool_decide (role = "tool") then [Returned (str (default "" (get_str "tool_call_id" m)))]
  else (match get "content" m with Some (VArray blocks) => blocks ≫= block_refs | _ => [] end)
       ++ ((λ c, Used (idx "id" c)) <$> default [] (get_array "tool_calls" m)).

Lemma block_refs_set_some ov b : block_refs (set_some "cache_control" ov b) = block_refs b.
Proof. unfold block_refs. by rewrite get_str_set_some_ne, !idx_set_some_ne by done. Qed.

Lemma block_refs_other b : get_str "type" b ≠ Some "tool_use" → get_str "type" b ≠ Some "tool_result" → block_refs b = [].
Proof.
  unfold block_refs. destruct (get_str "type" b) as [k|]; [|done]. intros.
  rewrite !bool_decide_eq_false_2 by congruence. done.
Qed.

(** ** A content part *)

Section parts.
Context (decode_base64 : string → option string).
Abbreviation to_block := (openai_content_to_anthropic decode_base64).

Lemma image_block_type part b : image_block part = Ok b → get_str "type" b = Some "image".
Proof.
  unfold image_block. intros (url & _ & H)%rbind_Ok.
  destruct (ResponsesRequest.split_data_url url) as [[mt d]|].
  - destruct (one_of mt _); [|done]. by apply (inj Ok) in H as <-.
  - destruct (_ || _); [|done]. by apply (inj Ok) in H as <-.
Qed.

Lemma document_block_type part b : document_block decode_base64 part = Ok b → get_str "type" b = Some "document".
Proof.
  unfold document_block. intros (url & _ & H)%rbind_Ok. apply rbind_Ok in H as ([mt d] & _ & H).
  apply rbind_Ok in H as (source & _ & H). apply (inj Ok) in H as <-.
  by rewrite get_str_set_some_ne.
Qed.

(** A part keeps what it says of tools. *)
Lemma part_refs part b : to_block part = Ok b → block_refs b = block_refs part.
Proof.
  unfold openai_content_to_anthropic. intros (b' & H & Hb)%rbind_Ok. apply (inj Ok) in Hb as <-.
  rewrite block_refs_set_some. revert H. unfold content_block. rewrite as_str_idx.
  destruct (get_str "type" part) as [k|] eqn:Hk; [|done]. repeat case_bool_decide; subst.
  - intros [= <-]. by rewrite (block_refs_other part) by congruence.
  - intros Hi%image_block_type. by rewrite !block_refs_other by congruence.
  - intros Hi%document_block_type. by rewrite !block_refs_other by congruence.
  - destruct (one_of _ _); [|done]. by intros [= <-].
Qed.

Lemma parts_refs parts bs : try_map to_block parts = Ok bs → bs ≫= block_refs = parts ≫= block_refs.
Proof.
  revert bs. induction parts as [|p parts IH]; intros bs; cbn [try_map]; [by intros [= <-]|].
  intros (b & Hb & H)%rbind_Ok. apply rbind_Ok in H as (bs' & Hbs & H). apply (inj Ok) in H as <-.
  by rewrite !bind_cons, (IH _ Hbs), (part_refs _ _ Hb).
Qed.
End parts.

(** ** The conversation *)

(** A turn that can be sent: not empty, and no blank text in it. *)
Definition sendable (m : Value) : Prop :=
  ∃ content, get_array "content" m = Some content ∧ content ≠ [] ∧ Forall (λ b, worth_sending b = true) content.

(** An instruction says something. *)
Definition says_something (m : Value) : Prop :=
  one_of (default "user" (get_str "role" m)) ["system"; "developer"] = true →
  get "content" m ≫= content_text ≠ Some "".

Lemma worth_sending_other b : get_str "type" b ≠ Some "text" → worth_sending b = true.
Proof. intros. unfold worth_sending. by rewrite bool_decide_eq_false_2. Qed.

Lemma refs_filter bs : filter (λ b, worth_sending b = true) bs ≫= block_refs = bs ≫= block_refs.
Proof.
  induction bs as [|b bs IH]; [done|]. rewrite filter_cons, bind_cons. destruct (decide _) as [|Hb].
  - by rewrite bind_cons, IH.
  - rewrite IH. destruct (decide (get_str "type" b = Some "text")) as [Ht|Ht].
    + by rewrite (block_refs_other b) by congruence.
    + by destruct Hb; apply worth_sending_other.
Qed.

Lemma push_result_last out b :
  (∃ init l content, out = init ++ [l] ∧ get_array "content" l = Some content ∧
     push_result out b = init ++ [set "content" (VArray (content ++ [b])) l]) ∨
  push_result out b = out ++ [user_turn b].
Proof.
  unfold push_result. destruct (last out) as [l|] eqn:Hl; [|by right].
  destruct (is_str _ _); [|by right]. destruct (get_array "content" l) as [content|] eqn:Hc; [|by right].
  left. apply last_Some in Hl as [init ->]. exists init, l, content. by rewrite removelast_last.
Qed.

Lemma get_array_set_content l content c' :
  get_array "content" l = Some content → get_array "content" (set "content" (VArray c') l) = Some c'.
Proof.
  destruct l; try done. intros _. unfold get_array. rewrite get_set. by rewrite bool_decide_eq_true_2.
Qed.

Lemma sent_refs_turn r bs : sent_refs (obj [("role", r); ("content", VArray bs)]) = bs ≫= block_refs.
Proof. done. Qed.

Lemma push_result_refs out b : push_result out b ≫= sent_refs = (out ≫= sent_refs) ++ block_refs b.
Proof.
  destruct (push_result_last out b) as [(init & l & content & -> & Hc & ->)| ->]; rewrite !bind_app, !bind_singleton.
  - rewrite <- app_assoc. f_equal. unfold sent_refs.
    rewrite (get_array_set_content _ _ _ Hc), Hc. cbn [from_option]. unfold Datatypes.id. by rewrite bind_app, bind_singleton.
  - f_equal. unfold user_turn. by rewrite sent_refs_turn, bind_singleton.
Qed.

Lemma push_result_sendable out b :
  worth_sending b = true → Forall sendable out → Forall sendable (push_result out b).
Proof.
  intros Hb Hout. destruct (push_result_last out b) as [(init & l & content & -> & Hc & ->)| ->].
  - apply Forall_app in Hout as [Hi Hl]. apply Forall_app; split; [done|]. apply Forall_singleton in Hl as (c & Hc' & Hn & Hf).
    rewrite Hc in Hc'. injection Hc' as <-. apply Forall_singleton. exists (content ++ [b]).
    split_and!; [by eapply get_array_set_content|by destruct content|]. apply Forall_app; split; [done|by apply Forall_singleton].
  - apply Forall_app; split; [done|]. apply Forall_singleton. exists [b]. by repeat constructor.
Qed.

Section walk.
Context (parse_json : string → option Value) (decode_base64 : string → option string).
Abbreviation add := (add_message parse_json decode_base64).

Lemma result_block_shape m b : result_block decode_base64 m = Ok b →
  get_str "type" b = Some "tool_result" ∧ idx "tool_use_id" b = str (default "" (get_str "tool_call_id" m)).
Proof.
  unfold result_block. intros (content & _ & H)%rbind_Ok. apply (inj Ok) in H as <-.
  by rewrite get_str_set_some_ne, idx_set_some_ne by done.
Qed.

Lemma turn_content_refs m content :
  turn_content parse_json decode_base64 m = Ok content →
  one_of (default "user" (get_str "role" m)) ["system"; "developer"] = false →
  default "user" (get_str "role" m) ≠ "tool" → content ≫= block_refs = chat_refs m.
Proof.
  unfold turn_content, chat_refs. intros (bs & Hbs & H)%rbind_Ok. apply (inj Ok) in H as <-. intros -> Hrole.
  rewrite bool_decide_eq_false_2 by done. rewrite refs_filter, bind_app. f_equal.
  - destruct (get "content" m) as [[]|]; try (by apply (inj Ok) in Hbs as <-). by eapply parts_refs.
  - by induction (default [] (get_array "tool_calls" m)) as [|c cs IH]; [|rewrite fmap_cons, bind_cons, IH].
Qed.

Lemma add_message_refs st m st' :
  add st m = Ok st' → conversation st' ≫= sent_refs = (conversation st ≫= sent_refs) ++ chat_refs m.
Proof.
  unfold add_message. destruct (one_of _ _) eqn:Hsys.
  { unfold chat_refs. rewrite Hsys, app_nil_r. intros [= <-]. unfold add_instruction.
    destruct (get "content" m ≫= content_text) as [text|]; [|done].
    destruct (conversation st) as [|c cs]; [done|]. cbn [conversation].
    unfold user_turn. by rewrite bind_app, bind_singleton, sent_refs_turn, bind_singleton, block_refs_set_some, app_nil_r. }
  case_bool_decide as Htool.
  { intros (b & Hb & H)%rbind_Ok. apply (inj Ok) in H as <-. cbn [conversation]. rewrite push_result_refs. f_equal.
    apply result_block_shape in Hb as [Ht Hi]. unfold block_refs, chat_refs. rewrite Ht, Hi, Hsys, Htool. done. }
  intros (content & Hc & H)%rbind_Ok. apply (inj Ok) in H as <-.
  rewrite <- (turn_content_refs _ _ Hc Hsys Htool). destruct content as [|b bs]; [by rewrite app_nil_r|].
  cbn [conversation]. rewrite bind_app, bind_singleton. done.
Qed.

Lemma add_message_sendable st m st' :
  says_something m → add st m = Ok st' → Forall sendable (conversation st) → Forall sendable (conversation st').
Proof.
  unfold add_message, says_something. intros Hsay. destruct (one_of _ _) eqn:Hsys.
  { specialize (Hsay eq_refl). intros [= <-] Hf. unfold add_instruction.
    destruct (get "content" m ≫= content_text) as [text|]; [|done].
    destruct (conversation st) as [|c cs]; [constructor|]. cbn [conversation].
    apply Forall_app; split; [done|]. apply Forall_singleton. eexists [_]; split_and!; [done|done|].
    apply Forall_singleton. unfold worth_sending. rewrite !get_str_set_some_ne by done. cbn.
    destruct text; [done|]. by rewrite orb_true_r. }
  case_bool_decide as Htool.
  { intros (b & Hb & H)%rbind_Ok Hf. apply (inj Ok) in H as <-. apply push_result_sendable; [|done].
    apply result_block_shape in Hb as [Ht _]. apply worth_sending_other. by rewrite Ht. }
  intros (content & Hc & H)%rbind_Ok Hf. apply (inj Ok) in H as <-.
  destruct content as [|b bs] eqn:Hcs; [done|]. rewrite <- Hcs in *. cbn [conversation].
  apply Forall_app; split; [done|]. apply Forall_singleton. exists content. split_and!; [done|by rewrite Hcs|].
  unfold turn_content in Hc. apply rbind_Ok in Hc as (bs' & _ & H). apply (inj Ok) in H as <-.
  apply list.Forall_forall. by intros x [? _]%list_elem_of_filter.
Qed.

Lemma walk_refs ms st st' : try_fold add st ms = Ok st' →
  conversation st' ≫= sent_refs = (conversation st ≫= sent_refs) ++ (ms ≫= chat_refs).
Proof.
  revert st. induction ms as [|m ms IH]; intros st; cbn [try_fold].
  - intros [= <-]. by rewrite app_nil_r.
  - intros (st1 & Hm & H)%rbind_Ok. by rewrite (IH _ H), (add_message_refs _ _ _ Hm), bind_cons, app_assoc.
Qed.
End walk.

(** ** Thinking *)

(** Thinking is off; or the temperature is left alone or one, and either the model decides
    on its own how much to think, or there is a budget that is in the model's range and
    leaves room for an answer. *)
Definition thinking_admissible (capability : ThinkingCapability) (max_tokens : Z) (t : Value) (temperature : option Value) : Prop :=
  t = obj [("type", str "disabled")] ∨
  ((∀ v, temperature = Some v → v = ONE) ∧
   (t = obj [("type", str (if is_adaptive capability then "adaptive" else "enabled"))] ∨
    ∃ n, t = obj [("type", str "enabled"); ("budget_tokens", uint n)] ∧ 0 ≤ n < max_tokens ∧
         (budget_range capability).1 ≤ n ≤ (budget_range capability).2)).

Section thinking.
Context (capability : ThinkingCapability) (max_tokens : Z).

(** What a mode leaves behind. *)
Definition mode_applied (o : Map) (on : bool) (r : Value) : Prop :=
  ∃ o', r = VObject o' ∧ (∀ k, k ≠ "thinking" → k ≠ "output_config" → get k r = get k (VObject o)) ∧
    ∀ t, get "thinking" r = Some t → ∀ temperature, (on = true → ∀ v, temperature = Some v → v = ONE) →
      thinking_admissible capability max_tokens t temperature.

Lemma set_thinking_applied o on t :
  (∀ temperature, (on = true → ∀ v, temperature = Some v → v = ONE) → thinking_admissible capability max_tokens t temperature) →
  mode_applied o on (set "thinking" t (VObject o)).
Proof.
  intros Ht. eexists; split_and!; [done|intros; by rewrite get_set_ne|].
  intros t'. rewrite get_set, bool_decide_eq_true_2 by done. intros [= <-]. apply Ht.
Qed.

Lemma apply_budget_applied budget o on r :
  get "max_tokens" (VObject o) = Some (uint max_tokens) →
  apply_budget capability budget (VObject o) = Some (Ok (on, r)) → mode_applied o on r.
Proof.
  intros Hm. unfold apply_budget. destruct (budget_range capability) as [lo hi] eqn:Hr. unfold clamp.
  destruct (Z.leb_spec lo hi) as [Hlh|]; [|done]. unfold idx. rewrite Hm. cbn. intros [= H].
  repeat case_match; try done. bool_to_prop. injection H as <- <-. apply (set_thinking_applied o).
  intros temp Htemp. right. split; [by apply Htemp|]. right.
  eexists; split; [done|]. rewrite Hr. cbn. lia.
Qed.

Lemma apply_mode_applied mode o on r :
  get "max_tokens" (VObject o) = Some (uint max_tokens) →
  apply_mode mode capability (VObject o) = Some (Ok (on, r)) → mode_applied o on r.
Proof.
  intros Hm. destruct mode as [| |budget|level]; cbn [apply_mode].
  - intros [= <- <-]. apply (set_thinking_applied o). by left.
  - intros [= <- <-]. apply (set_thinking_applied o). right. split; [auto|]. by left.
  - by apply apply_budget_applied.
  - destruct (is_adaptive capability) eqn:Had; [|by apply apply_budget_applied].
    intros H. assert (on = true ∧ r = set "output_config" (obj [("effort", str level)])
                        (set "thinking" (obj [("type", str "adaptive")]) (VObject o))) as [-> ->] by (by injection H).
    destruct (set_thinking_applied o true (obj [("type", str "adaptive")])) as (o' & Ho & Hk & Ht).
    { right. split; [auto|]. left. by rewrite Had. }
    eexists; split_and!; [by rewrite Ho|intros; rewrite get_set_ne by done; auto|].
    intros t. rewrite get_set_ne by done. apply Ht.
Qed.

Lemma apply_thinking_applied show_error raw_model body o on r :
  get "max_tokens" (VObject o) = Some (uint max_tokens) → get "thinking" (VObject o) = None →
  apply_thinking_mode show_error raw_model body capability (VObject o) = Some (Ok (on, r)) → mode_applied o on r.
Proof.
  intros Hm Hn. unfold apply_thinking_mode. destruct (thinking_mode raw_model body) as [[mode|]|e]; [| |done].
  - destruct (target_thinking_mode _ _ _ _) as [[mode'|e]|]; [|done|done]. by apply apply_mode_applied.
  - intros [= <- <-]. exists o. split_and!; [done|done|]. intros t. by rewrite Hn.
Qed.
End thinking.

(** ** Accepted requests *)

Section accepted.
Context (parse_json : string → option Value) (decode_base64 : string → option string) (show_error : TranslateError → string).

Lemma set_object k v o : is_Some (as_object o) → is_Some (as_object (set k v o)).
Proof. destruct o; cbn; [by intros []..|done]. Qed.
Lemma set_some_object k ov o : is_Some (as_object o) → is_Some (as_object (set_some k ov o)).
Proof. destruct ov; [apply set_object|done]. Qed.

Lemma claude_base_shape model body r : claude_base parse_json decode_base64 model body = Ok r →
  ∃ ms st m, get_array "messages" body = Some ms ∧
    try_fold (add_message parse_json decode_base64) {| system := []; conversation := [] |} ms = Ok st ∧
    is_Some (as_object r) ∧ get "messages" r = Some (VArray (conversation st)) ∧ get "max_tokens" r = Some (uint m) ∧
    get "thinking" r = None ∧ get "temperature" r = None.
Proof.
  unfold claude_base. intros ([] & _ & H)%rbind_Ok. apply rbind_Ok in H as (ms & Hms & H).
  apply rbind_Ok in H as (st & Hst & H). apply rbind_Ok in H as (tools & _ & H).
  apply rbind_Ok in H as (choice & _ & H). apply rbind_Ok in H as (choice' & _ & H). apply (inj Ok) in H as <-.
  apply ok_or_Ok in Hms. eexists ms, st, _. split; [done|]. split; [done|]. split.
  - apply set_some_object. destruct (nonempty tools); [apply set_object|]; by apply set_some_object.
  - rewrite !get_set_some_ne by done. destruct (nonempty tools); rewrite ?get_set_ne, ?get_set_some_ne by done; done.
Qed.

(** C21: What every accepted Messages request satisfies.  If no system or developer message
    of the chat request is an empty text, each message sent has content and no blank text;
    the uses and results of tools are those of the chat request in their order; and what it
    says of thinking, when it says something, is one of three things: it is off; it is left
    to the model, with no budget (enabled, or adaptive for a model with thinking levels);
    or it is enabled with a budget in the model's range and below [max_tokens].  In the
    last two cases a temperature, if there is one, is one. *)
Theorem claude_request_sound body capability out :
  openai_to_anthropic_with_capability parse_json decode_base64 show_error body capability = Some (Ok out) →
  Forall says_something (default [] (get_array "messages" body)) →
  ∃ sent max_tokens,
    get "messages" out = Some (VArray sent) ∧ get "max_tokens" out = Some (uint max_tokens) ∧
    Forall sendable sent ∧
    sent ≫= sent_refs = default [] (get_array "messages" body) ≫= chat_refs ∧
    ∀ t, get "thinking" out = Some t → thinking_admissible capability max_tokens t (get "temperature" out).
Proof.
  unfold openai_to_anthropic_with_capability. destruct (get_str "model" body) as [raw|]; [|done].
  destruct (parse_model_suffix raw) as [[model sfx]|]; [|done].
  destruct (claude_base _ _ _ _) as [r|e] eqn:Hbase; [|done].
  apply claude_base_shape in Hbase as (ms & st & m & -> & Hst & Ho & Hmsg & Hmax & Hth & Htemp).
  destruct r as [| | | | |o]; try by destruct Ho. cbn [from_option].
  destruct (apply_thinking_mode _ _ _ _ _) as [[[on r]|e]|] eqn:Happ; [|done|done].
  apply (apply_thinking_applied _ m) in Happ as (o' & -> & Hk & Ht); [|done|done]. intros [= <-] Hsay.
  exists (conversation st), m. unfold pass_options. rewrite !get_set_some_ne, !Hk by done. split_and!; [done|done| | |].
  - eapply (try_fold_ind (λ st, Forall sendable (conversation st))), Hst; [|constructor].
    intros s x s' Hx Hs Hadd. eapply add_message_sendable; [|done|done]. rewrite list.Forall_forall in Hsay. by apply Hsay.
  - apply (walk_refs _ _ _ _ _ Hst).
  - intros t Htt. apply Ht; [done|]. intros Hon v. rewrite Hon.
    destruct (get "temperature" body) as [w|]; cbn [fmap option_fmap option_map set_some].
    + rewrite get_set, bool_decide_eq_true_2 by done. by intros [= <-].
    + by rewrite Hk, Htemp.
Qed.
End accepted.

(** ** A conversation in the Messages form *)

Inductive Part := PText (text : string) | PImage (media_type data : string).
Inductive Answer := Plain (text : string) | Rich (parts : list Part).
Record CallResult := { result_id : string; result_answer : Answer; result_cache : option Value }.


Definition text_value (s : string) : Value := obj [("type", str "text"); ("text", str s)].
Definition image_value (i : string * string) : Value :=
  obj [("type", str "image");
       ("source", obj [("type", str "base64"); ("media_type", str i.1); ("data", str i.2)])].
Definition part_value (p : Part) : Value :=
  match p with PText s => text_value s | PImage mt d => image_value (mt, d) end.
Definition result_value (r : CallResult) : Value :=
  set_some "cache_control" (result_cache r)
    (obj [("type", str "tool_result"); ("tool_use_id", str (result_id r));
          ("content", match result_answer r with Plain s => str s | Rich ps => VArray (part_value <$> ps) end)]).

Definition turn_value (role : string) (content : list Value) : Value :=
  obj [("role", str role); ("content", VArray content)].




(** ** The same in the chat form *)

Definition url_value (i : string * string) : Value :=
  obj [("type", str "image_url"); ("image_url", obj [("url", str (data_url i.1 i.2))])].
Definition chat_part (p : Part) : Value :=
  match p with PText s => text_value s | PImage mt d => url_value (mt, d) end.

Section chat_form.
Context (parse_json : string → option Value) (print_json : Value → string).
Context (decode_base64 : string → option string) (show_error : TranslateError → string).


Definition chat_result (r : CallResult) : Value :=
  set_some "cache_control" (result_cache r)
    (obj [("role", str "tool"); ("tool_call_id", str (result_id r));
          ("content", match result_answer r with Plain s => str s | Rich ps => VArray (chat_part <$> ps) end);
          ("x_anthropic_tool_result", VBool true)]).


(** *** Into the chat form *)










(** *** And back *)

Abbreviation add := (add_message parse_json decode_base64).
Abbreviation to_block := (openai_content_to_anthropic decode_base64).





















End chat_form.

Module ClaudeRequestDemo.

Definition no_base64 (s : string) : option string := None.
Definition silent (e : TranslateError) : string := "".

(** [serde_json] on the one argument object of the demo. *)
Definition SAMPLE : Value := obj [("city", str "Oslo")].
Definition SAMPLE_TEXT : string := "{'city':'Oslo'}".
Definition show_sample (v : Value) : string := if value_eqb v SAMPLE then SAMPLE_TEXT else "null".
Definition read_sample (s : string) : option Value := if bool_decide (s = SAMPLE_TEXT) then Some SAMPLE else None.

Definition CAPABILITY : ThinkingCapability :=
  Supported {| th_min := 1024; th_max := 64000; zero_allowed := true; dynamic_allowed := false; levels := [] |}.

(** A chat request that thinks, with a call, its result and a late instruction. *)
Definition CHAT : Value :=
  obj [("model", str "claude-sonnet(30000)"); ("temperature", uint 0); ("max_tokens", uint 8192);
       ("messages", VArray
          [obj [("role", str "user"); ("content", str "Weather?")];
           obj [("role", str "assistant"); ("content", str "");
                ("tool_calls", VArray [obj [("id", str "c1");
                   ("function", obj [("name", str "weather"); ("arguments", str SAMPLE_TEXT)])]])];
           obj [("role", str "tool"); ("tool_call_id", str "c1"); ("content", str "rain")];
           obj [("role", str "system"); ("content", str "Be brief.")]])].

Definition SENT : Value := Eval vm_compute in
  match openai_to_anthropic_with_capability read_sample no_base64 silent CHAT CAPABILITY with
  | Some (Ok out) => out | _ => Null end.

Example chat_thinks : get "thinking" SENT = Some (obj [("type", str "enabled"); ("budget_tokens", uint 8191)])
  ∧ get "temperature" SENT = Some ONE.
Proof. split; vm_compute; reflexivity. Qed.

(** Applies [claude_request_sound] to the chat request. *)
Lemma claude_request_witness :
  openai_to_anthropic_with_capability read_sample no_base64 silent CHAT CAPABILITY = Some (Ok SENT) ∧
  ∃ sent max_tokens,
    get "messages" SENT = Some (VArray sent) ∧ get "max_tokens" SENT = Some (uint max_tokens) ∧
    Forall sendable sent ∧
    sent ≫= sent_refs = default [] (get_array "messages" CHAT) ≫= chat_refs ∧
    ∀ t, get "thinking" SENT = Some t → thinking_admissible CAPABILITY max_tokens t (get "temperature" SENT).
Proof.
  assert (openai_to_anthropic_with_capability read_sample no_base64 silent CHAT CAPABILITY = Some (Ok SENT)) as H
    by (vm_compute; reflexivity).
  split; [exact H|]. apply (claude_request_sound read_sample no_base64 silent CHAT CAPABILITY SENT H).
  repeat (apply Forall_cons; split; [intros Hr; first [discriminate Hr|vm_compute; discriminate]|]). apply Forall_nil_2.
Defined.



(** What a result says of its failure is lost on the way back. *)
Example result_error_lost :
  let block := obj [("type", str "tool_result"); ("tool_use_id", str "c1"); ("content", str "no"); ("is_error", VBool true)] in
  get "is_error" (result_message block) = Some (VBool true) ∧
  result_block no_base64 (result_message block)
  = Ok (obj [("type", str "tool_result"); ("tool_use_id", str "c1"); ("content", str "no")]).
Proof. split; vm_compute; reflexivity. Qed.

(** A late instruction that says nothing is sent as a blank text block. *)
Example blank_instruction_sent :
  conversation (add_instruction {| system := []; conversation := [turn_value "user" [text_value "Hi"]] |}
                  (obj [("role", str "system"); ("content", str "")]))
  = [turn_value "user" [text_value "Hi"]; turn_value "user" [text_value ""]] ∧ worth_sending (text_value "") = false.
Proof. split; vm_compute; reflexivity. Qed.

(** What a user says along with a result is put before the result, between it and its call. *)
Example text_before_result :
  chat_messages show_sample (turn_value "user"
    [result_value {| result_id := "c1"; result_answer := Plain "rain"; result_cache := None |}; text_value "And now?"])
  = [obj [("role", str "user"); ("content", str "And now?")];
     chat_result {| result_id := "c1"; result_answer := Plain "rain"; result_cache := None |}].
Proof. vm_compute; reflexivity. Qed.
End ClaudeRequestDemo.
