(* ===== verification/Warmup.v ===== *)
(** * Warming accounts up (crates/gateway/src/warmup.rs)

    A probe is a one-token request that starts an account's quota window.  Modelled are the
    policy, when an account is due, the probe's effects on the account, and the runner: its
    history, its in-flight probes tagged with generations, and the workers around it as a
    step relation in which prunes, callers and completions interleave freely.

    The clock is read once per decision: [now] in seconds, [local_hour] of the day, and
    instants of the monotonic clock in nanoseconds.  Parameters: the access token of an
    account, the host of a URL, [serde_json], the environment, and what the network did. *)

From Stdlib Require Import Ascii.
From stdpp Require Import gmap strings list.
From S2P Require Import Prelude F64 RustStr Json RegistryTypes RegistrySnapshot Types Scheduler Usage AffinityStore ClineUsage Account AccountModels RelayRoute RelayCooldown.
Import F64 RustStr Usage Account Models Route.
Open Scope Z_scope.

Module Warmup.

Definition LIMIT : nat := 4.
Definition PROBE_LOG_WINDOW_SECS : Z := 24 * 3600.

(** ** Policies (management/settings.rs) *)

Record WarmupProviderPolicy := {
  pp_enabled : bool;
  pp_model : option string;
  pp_idle_secs : Z;         (* u64 *)
  pp_min_interval_secs : Z; (* u64 *)
}.

Inductive WarmupAccountPolicy :=
  | Inherit
  | Off
  | Custom (model : option string) (idle_secs min_interval_secs : Z).

Record EffectiveWarmupPolicy := {
  p_enabled : bool;
  p_model : option string;
  p_idle_secs : Z;
  p_min_interval_secs : Z;
}.

Record WarmupSettings := {
  w_providers : gmap string WarmupProviderPolicy;
  w_accounts : gmap string WarmupAccountPolicy;
}.

Definition default_warmup_idle_secs : Z := 3600.
Definition default_warmup_min_interval_secs : Z := 300.

Definition default_policy : WarmupProviderPolicy :=
  {| pp_enabled := false; pp_model := None; pp_idle_secs := default_warmup_idle_secs;
     pp_min_interval_secs := default_warmup_min_interval_secs |}.

Definition effective_provider_policy (w : WarmupSettings) (provider : string) : WarmupProviderPolicy :=
  default default_policy (w_providers w !! provider).

Definition effective_account_policy (w : WarmupSettings) (provider account_id : string) : EffectiveWarmupPolicy :=
  let p := effective_provider_policy w provider in
  match default Inherit (w_accounts w !! account_id) with
  | Inherit => {| p_enabled := pp_enabled p; p_model := pp_model p; p_idle_secs := pp_idle_secs p;
                  p_min_interval_secs := pp_min_interval_secs p |}
  | Off => {| p_enabled := false; p_model := None; p_idle_secs := pp_idle_secs p;
              p_min_interval_secs := pp_min_interval_secs p |}
  | Custom model idle min => {| p_enabled := true; p_model := model; p_idle_secs := idle; p_min_interval_secs := min |}
  end.

(** [WarmupProviderPolicy::validate], [WarmupAccountPolicy::validate]: whether it succeeds. *)
Definition intervals_ok (idle_secs min_interval_secs : Z) : bool :=
  (1 <=? idle_secs) && (idle_secs <=? 86400) && (1 <=? min_interval_secs) && (min_interval_secs <=? 604800).
Definition policy_valid (p : WarmupProviderPolicy) : bool := intervals_ok (pp_idle_secs p) (pp_min_interval_secs p).
Definition account_policy_valid (p : WarmupAccountPolicy) : bool :=
  match p with Inherit | Off => true | Custom _ idle min => intervals_ok idle min end.
Definition settings_valid (w : WarmupSettings) : bool :=
  forallb policy_valid (btree_values (w_providers w)) && forallb account_policy_valid (btree_values (w_accounts w)).

(** ** The runner *)

Record WarmupResult := {
  id : string;
  provider : string;
  ok : bool;
  status : Z;     (* u16 *)
  latency_ms : Z; (* u64 *)
  probed_model : option string;
  stream_validated : bool;
  detail : option string;
}.

(** The instant of the last attempt, its time, and the last result. *)
Abbreviation WarmupHistoryEntry := (Z * Z * option WarmupResult)%type.

(** An in-flight probe: who waits for it waits for worker [flight]. *)
Record FlightEntry := { generation : Z; (* u64 *) flight : nat }.

Record WarmupInner := {
  active : option (gset string);
  entries : gmap string WarmupHistoryEntry;
  probe_log : gmap string (list Z);
  flights : gmap string FlightEntry;
  flight_generation : Z; (* u64 *)
}.

Definition new_inner : WarmupInner :=
  {| active := None; entries := ∅; probe_log := ∅; flights := ∅; flight_generation := 0 |}.

Definition admits (i : WarmupInner) (x : string) : bool :=
  match active i with None => true | Some a => bool_decide (x ∈ a) end.

Definition retain_accounts (i : WarmupInner) (a : gset string) : nat * WarmupInner :=
  let keep {A} (m : gmap string A) : gmap string A := filter (λ kv, kv.1 ∈ a) m in
  let i' := {| active := Some a; entries := keep (entries i); probe_log := keep (probe_log i);
               flights := keep (flights i); flight_generation := flight_generation i |} in
  (((size (entries i) - size (entries i')) + (size (flights i) - size (flights i')))%nat, i').

(** [while log.front() is old { pop_front }]. *)
Fixpoint drop_old (cutoff : Z) (log : list Z) : list Z :=
  match log with
  | t :: log' => if t <=? cutoff then drop_old cutoff log' else log
  | [] => []
  end.

Definition record_probe (i : WarmupInner) (x : string) (record : WarmupHistoryEntry) : bool * WarmupInner :=
  if negb (admits i x) then (false, i)
  else
    let at_unix := record.1.2 in
    let log := default [] (probe_log i !! x) ++ [at_unix] in
    (true, {| active := active i; entries := <[x := record]> (entries i);
              probe_log := <[x := drop_old (at_unix - PROBE_LOG_WINDOW_SECS) log]> (probe_log i);
              flights := flights i; flight_generation := flight_generation i |}).

Definition probes_last_24h (i : WarmupInner) (x : string) (now_unix : Z) : nat :=
  match probe_log i !! x with
  | None => 0
  | Some log => length (filter (λ t, now_unix - PROBE_LOG_WINDOW_SECS < t) log)
  end.

Definition with_flights (i : WarmupInner) (f : gmap string FlightEntry) (g : Z) : WarmupInner :=
  {| active := active i; entries := entries i; probe_log := probe_log i; flights := f; flight_generation := g |}.

Definition finish_flight (i : WarmupInner) (x : string) (g : Z) : WarmupInner :=
  match flights i !! x with
  | Some e => if generation e =? g then with_flights i (delete x (flights i)) (flight_generation i) else i
  | None => i
  end.

Definition tracked_accounts (i : WarmupInner) : list string := btree_keys (entries i).

(** [record.2 = Some(out)], where the record still is. *)
Definition set_result (i : WarmupInner) (x : string) (out : WarmupResult) : WarmupInner :=
  match entries i !! x with
  | Some (at_, at_unix, _) =>
      {| active := active i; entries := <[x := (at_, at_unix, Some out)]> (entries i);
         probe_log := probe_log i; flights := flights i; flight_generation := flight_generation i |}
  | None => i
  end.

(** What [run] decides under the lock. *)
Inductive Boarding := AccountRemoved | InFlight | Joined (flight : nat) | Launched (generation : Z) (flight : nat).

(** [next] is the worker a launch spawns. *)
Definition board (i : WarmupInner) (x : string) (automatic : bool) (next : nat) : Boarding * WarmupInner :=
  if negb (admits i x) then (AccountRemoved, i)
  else match flights i !! x with
       | Some e => ((if automatic then InFlight else Joined (flight e)), i)
       | None =>
           let g := wrapping_add_u64 (flight_generation i) 1 in
           (Launched g next, with_flights i (<[x := {| generation := g; flight := next |}]> (flights i)) g)
       end.

Definition result (m : AccountMember) (d : string) : WarmupResult :=
  {| id := member_id m; provider := provider_name m; ok := false; status := 0; latency_ms := 0;
     probed_model := None; stream_validated := false; detail := Some d |}.
Definition nobody (x d : string) : WarmupResult :=
  {| id := x; provider := ""; ok := false; status := 0; latency_ms := 0; probed_model := None;
     stream_validated := false; detail := Some d |}.

(** ** Which accounts are due *)

Section decisions.
Context (url_host : string → option string) (embedded : Snapshot.RegistrySnapshot).
Context (access_token : AccountMember → string).

Definition supported (m : AccountMember) : bool :=
  let p := provider_name m in
  if one_of p ["codex"; "antigravity"; "cline"] then true
  else if eqs p "claude" then negb (is_some (relay_api_key m)) else false.

Definition serves_chat (provider : string) (entry : string * Registry.ProviderBinding) : bool :=
  eqs entry.1 provider
  && (bool_decide (Registry.capabilities entry.2 = ∅) || bool_decide (Chat ∈ Registry.capabilities entry.2)).

Definition model_matches (provider : string) (entry : string * Registry.ModelDescriptor) : bool :=
  (existsb (serves_chat provider) (btree_entries (Registry.bindings entry.2))
   || (eqs provider "cline" && (contains entry.1 "gemini" || contains entry.1 "deepseek" || contains entry.1 "glm")))
  && (negb (eqs provider "claude") || starts_with entry.1 "claude-haiku").

Definition available_models (st : AppState) (m : AccountMember) : list string :=
  if negb (supported m) then []
  else
    let reg := registry (pool st) in
    fst <$> filter (λ e, model_matches (provider_name m) e && supports_model_in url_host embedded m reg e.1 = true)
              (btree_entries (Snapshot.models reg)).

Definition group_derived (m : AccountMember) : bool :=
  match member_health m with
  | Cooldown until => eqs (provider_name m) "antigravity" && existsb (Z.eqb until) (btree_values (group_cooldowns m))
  | _ => false
  end.

Definition bucket_spent (model : string) (now : Z) (b : QuotaBucket) : bool :=
  bool_decide (bucket_id b = Some model)
  && f64_geb (default (f64_of_Z 0) (bucket_used_percent b)) (f64_of_Z 100)
  && (now <? default 0 (bucket_reset_at b)).

Definition all_buckets (u : AccountUsage) : list QuotaBucket := groups u ≫= buckets.

Definition eligibility (st : AppState) (m : AccountMember) (model : string) (now : Z) : option string :=
  let u := usage_snapshot_at m now in
  if negb (active_requests m =? 0) then Some "account_active"
  else if is_manually_disabled m then Some "disabled"
  else if eqs (provider_name m) "claude" && is_some (claude_suspected_accounts (settings st) !! member_id m)
  then Some "suspected"
  else if negb (is_available (member_health m) (now * 1000)) && negb (group_derived m) then Some "account_unavailable"
  else if negb (Scheduler.permits (scheduler st) (member_id m)) then Some "scheduler_disabled"
  else if negb (group_available m model (now * 1000)) || benched (group_cooldowns m) model (now * 1000)
  then Some "cooldown_model_quota"
  else if existsb (bucket_spent model now) (all_buckets u) then Some "cooldown_model_quota"
  else if eqs (provider_name m) "codex" && is_codex_hard_limit_reached u then Some "codex_hard_spend_limit_reached"
  else if eqs (provider_name m) "codex" && negb (is_codex_account_credit_enabled (settings st) (member_id m))
          && is_codex_included_quota_exhausted u (Some model) now
  then Some "credits_off_quota_exhausted"
  else if is_empty (access_token m) then Some "no_access_token"
  else None.

(** [Some r] is [(true, Some(r))], [None] is [(false, None)]. *)
Definition ahead (now : Z) (reset : option Z) : option Z :=
  let r := default 0 reset in if now <? r then Some r else None.

Definition session_bucket (group : string) (b : QuotaBucket) : bool :=
  (match bucket_id b with Some i => starts_with i group | None => false end
   || match bucket_display_name b with Some n => contains (to_ascii_lowercase n) group | None => false end)
  && (bool_decide (bucket_window b = Some "5h")
      || match bucket_id b with Some i => contains i "5h" | None => false end).

(** The first of the buckets whose reset is ahead. *)
Definition first_ahead (p : QuotaBucket → bool) (now : Z) (bs : list QuotaBucket) : option Z :=
  head (omap (λ b, if p b then ahead now (bucket_reset_at b) else None) bs).

Definition is_quota_window_active (m : AccountMember) (model : string) (now : Z) : option Z :=
  let u := usage_snapshot_at m now in
  let p := provider_name m in
  if eqs p "antigravity" then
    first_ahead (session_bucket (default "gemini" (quota_group_for m model))) now (all_buckets u)
  else if eqs p "cline" then
    let group := default model (quota_group_for m model) in
    match (until ← group_cooldowns m !! group; if now * 1000 <? until then Some (Z.quot until 1000) else None) with
    | Some r => Some r
    | None =>
        match (t ← Cline.existing (cline_trackers m) model; ahead now (Some (Cline.estimated_reset_unix t))) with
        | Some r => Some r
        | None => first_ahead (λ b, bool_decide (bucket_id b = Some model)) now (all_buckets u)
        end
    end
  else ahead now (window_reset_at (primary u)).

Definition codex_display_window_active (u : AccountUsage) (now : Z) : option Z :=
  w ← List.find (λ w, bool_decide (window_minutes w = Some 300)) [primary u; secondary u];
  minutes ← window_minutes w;
  after ← reset_after_seconds w;
  reset_at ← window_reset_at w;
  if (now <? reset_at) && (after <? clamp_i64 (minutes * 60)) then Some reset_at else None.

Definition WINDOW_SECS : Z := 5 * 3600.

Definition resolve_window_state (i : WarmupInner) (m : AccountMember) (model : string) (now : Z) : option Z :=
  match is_quota_window_active m model now with
  | Some r => Some r
  | None =>
      match entries i !! member_id m with
      | Some (_, attempt_unix, Some res) =>
          if ok res && (now <? attempt_unix + WINDOW_SECS) then Some (attempt_unix + WINDOW_SECS) else None
      | _ => None
      end
  end.

Definition in_quiet_hours (local_hour : Z) : bool := (1 <=? local_hour) && (local_hour <? 8).
Definition CLAUDE_JITTER_MIN_SECS : Z := 180.
Definition CLAUDE_JITTER_SPAN_SECS : Z := 1320.

Definition claude_probe_jitter_secs (account_id : string) (reset_unix : Z) : Z :=
  CLAUDE_JITTER_MIN_SECS
  + Affinity.fnv1a64 (Affinity.bytes_of (account_id +:+ show_i64 reset_unix)) mod CLAUDE_JITTER_SPAN_SECS.

Definition probed_since (i : WarmupInner) (x : string) (reset_unix : Z) : bool :=
  match entries i !! x with
  | Some (_, at_unix, Some res) => (reset_unix <=? at_unix) && ok res
  | _ => false
  end.

Definition claude_probe_due (i : WarmupInner) (m : AccountMember) (reset_unix : option Z) (now local_hour : Z) : bool :=
  match reset_unix with
  | Some reset =>
      if negb (0 <? reset) then false
      else if (now <? reset) || in_quiet_hours local_hour then false
      else if now <? reset + claude_probe_jitter_secs (member_id m) reset then false
      else negb (probed_since i (member_id m) reset)
  | None => false
  end.

(** The model a probe uses: the policy's, or the first whose window is closed and that is
    eligible, or the first. *)
Definition select_model (st : AppState) (p : EffectiveWarmupPolicy) (m : AccountMember) (now : Z) : option string :=
  let models := available_models st m in
  selected ← match p_model p with
             | Some model => Some model
             | None =>
                 match List.find (λ x, negb (is_some (is_quota_window_active m x now))
                                       && negb (is_some (eligibility st m x now))) models with
                 | Some x => Some x
                 | None => head models
                 end
             end;
  if bool_decide (selected ∈ models) then Some selected else None.

Definition RECENT_NS : Z := 60 * 10 ^ 9.

(** [duration_since] saturates at zero. *)
Definition attempted_recently (i : WarmupInner) (x : string) (time : Z) : bool :=
  match entries i !! x with Some (at_, _, _) => Z.max 0 (time - at_) <? RECENT_NS | None => false end.

Definition due_at (st : AppState) (w : WarmupSettings) (i : WarmupInner) (m : AccountMember) (time now local_hour : Z) : bool :=
  let p := effective_account_policy w (provider_name m) (member_id m) in
  if negb (p_enabled p) then false
  else if negb (active_requests m =? 0) then false
  else match select_model st p m now with
       | None => false
       | Some model =>
           if is_some (eligibility st m model now) then false
           else if attempted_recently i (member_id m) time then false
           else if is_some (resolve_window_state i m model now) then false
           else if eqs (provider_name m) "claude" then
             claude_probe_due i m (window_reset_at (primary (usage_snapshot_at m now))) now local_hour
           else true
       end.

(** What the status page says of an account: why it is skipped, and when it is next due. *)
Definition skip_reason (st : AppState) (w : WarmupSettings) (i : WarmupInner) (m : AccountMember) (now : Z)
  : option string * option Z :=
  let p := effective_account_policy w (provider_name m) (member_id m) in
  let models := available_models st m in
  let model := match p_model p with Some x => Some x | None => head models end in
  let window := x ← model;
                if eqs (provider_name m) "codex" then codex_display_window_active (usage_snapshot_at m now) now
                else resolve_window_state i m x now in
  let skip := if negb (supported m) then Some "unsupported"
              else match model with
                   | Some x => if negb (bool_decide (x ∈ models)) then Some "model_unavailable"
                               else match eligibility st m x now with
                                    | Some reason => Some reason
                                    | None => if is_some window then Some "window_active" else None
                                    end
                   | None => Some "model_unavailable"
                   end in
  (skip, if p_enabled p then
           if bool_decide (skip = Some "window_active") then window
           else if negb (is_some skip) then Some now else None
         else None).

(** ** The probe *)

(** [value[0]]. *)
Definition at0 (v : Json.Value) : Json.Value := match v with Json.VArray (x :: _) => x | _ => Json.Null end.
Definition visible (v : Json.Value) : bool := match Json.as_str v with Some s => negb (is_empty s) | None => false end.
Definition str_in (v : Json.Value) (l : list string) : bool := match Json.as_str v with Some s => one_of s l | None => false end.

(** What the frames of a stream have shown. *)
Record Seen := { content : bool; terminal : bool; error : bool }.

Definition see_frame (provider : string) (s : Seen) (v : Json.Value) : Seen :=
  let type := JsonMake.idx "type" v in
  let error' := error s || is_some (Json.get "error" v) || str_in type ["error"; "response.failed"; "response.incomplete"] in
  if eqs provider "codex" then
    {| content := content s || (str_in type ["response.output_text.delta"; "response.text.delta"] && visible (JsonMake.idx "delta" v));
       terminal := terminal s || (JsonMake.is_str "response.completed" type
                                  && JsonMake.is_str "completed" (JsonMake.idx "status" (JsonMake.idx "response" v)));
       error := error' |}
  else if eqs provider "cline" then
    let choice := at0 (JsonMake.idx "choices" v) in
    let delta := JsonMake.idx "delta" choice in
    {| content := content s || visible (JsonMake.idx "content" delta) || visible (JsonMake.idx "reasoning" delta)
                  || visible (JsonMake.idx "reasoning_content" delta);
       terminal := terminal s || str_in (JsonMake.idx "finish_reason" choice) ["stop"; "length"];
       error := error' |}
  else if eqs provider "claude" then
    {| content := content s || visible (JsonMake.idx "text" (JsonMake.idx "delta" v))
                  || match Json.as_u64 (JsonMake.idx "output_tokens" (JsonMake.idx "usage" v)) with
                     | Some n => 0 <? n | None => false end;
       terminal := terminal s || JsonMake.is_str "message_stop" type;
       error := error' |}
  else if eqs provider "antigravity" then
    let candidate := at0 (JsonMake.idx "candidates" (default v (Json.get "response" v))) in
    {| content := content s || match JsonMake.idx "parts" (JsonMake.idx "content" candidate) with
                               | Json.VArray parts => existsb (λ p, visible (JsonMake.idx "text" p)) parts
                               | _ => false
                               end;
       terminal := terminal s || str_in (JsonMake.idx "finishReason" candidate) ["STOP"; "MAX_TOKENS"];
       error := error' |}
  else {| content := content s; terminal := terminal s; error := true |}.

(** [str::lines]. *)
Definition lines (s : string) : list string :=
  let strip l := default l (strip_suffix (String (ascii_of_nat 13) "") l) in
  let ps := split (ascii_of_nat 10) s in
  (strip <$> removelast ps) ++ match last ps with Some l => if is_empty l then [] else [l] | None => [] end.

Section network.
Context (parse_json : string → option Json.Value) (from_slice : string → option Json.Value).
Context (env : string → option string).

(** The lines of an event stream; [None] is a line that is no JSON. *)
Fixpoint see_lines (provider : string) (s : Seen) (ls : list string) : option Seen :=
  match ls with
  | [] => Some s
  | l :: ls =>
      match strip_prefix "data:" l with
      | None => see_lines provider s ls
      | Some data =>
          if eqs (trim data) "[DONE]" then see_lines provider s ls
          else v ← parse_json (trim data); see_lines provider (see_frame provider s v) ls
      end
  end.

Definition unseen : Seen := {| content := false; terminal := false; error := false |}.

Definition validate (body provider : string) : bool :=
  if negb (valid_utf8 body) then false
  else
    let seen :=
      if starts_with (trim_start body) "{" then
        if negb (eqs provider "antigravity") then None
        else see_frame provider unseen <$> parse_json body
      else see_lines provider unseen (lines body) in
    match seen with Some s => content s && terminal s && negb (error s) | None => false end.

Definition MAX_BODY : Z := 1024 * 1024.

(** The body, chunk by chunk: an error of the stream, or too much of it, ends the probe. *)
Fixpoint read_body (bytes : string) (chunks : list (Prelude.result string string)) : Prelude.result string string :=
  match chunks with
  | [] => Ok bytes
  | Err e :: _ => Err e
  | Ok c :: chunks => if MAX_BODY <? strlen bytes + strlen c then Err "response_too_large" else read_body (bytes +:+ c) chunks
  end.

Record Response := {
  resp_status : Z;
  resp_headers : list (string * option string);
  resp_chunks : list (Prelude.result string string);
}.

(** A quota group is benched, or else the account, unless it is out of service anyway. *)
Definition bench_probe (m : AccountMember) (quota_model : string) (deadline : Z) : AccountMember :=
  match set_group_cooldown m quota_model deadline with
  | (true, m') => m'
  | (false, m') =>
      match member_health m' with
      | Available => set_health m' (Cooldown deadline)
      | Cooldown until => set_health m' (Cooldown (Z.max until deadline))
      | AuthFailed | Disabled => m'
      end
  end.

(** Status 429: the quota that is spent and until when, with what a Cline cap leaves in the
    trackers and on the display. *)
Definition spent_quota (m : AccountMember) (model body : string) (header_deadline now : Z) : string * Z * AccountMember :=
  match (if eqs (provider_name m) "cline" then Cooldown.parse_cline_cap_error from_slice body else None) with
  | Some (cap_model, secs) =>
      let m := Cooldown.note_cap env m cap_model (Cooldown.cap_deadline env m cap_model now secs) now in
      let m := with_trackers m (Cline.for_model env (cline_trackers m) cap_model).2 in
      (cap_model, Cooldown.cap_deadline env m cap_model now secs * 1000, m)
  | None => (model, header_deadline, m)
  end.

Definition probe_limited (m : AccountMember) (model body : string) (header_deadline now : Z) : AccountMember :=
  let '(quota_model, deadline, m) := spent_quota m model body header_deadline now in
  let m := bench_probe m quota_model deadline in
  if eqs quota_model model then m else (set_group_cooldown m model deadline).2.

(** An answer, once its body has been read. *)
Definition answered (m : AccountMember) (model : string) (r : Response) (now : Z)
  : AccountMember * Prelude.result string (Z * bool) :=
  match read_body "" (resp_chunks r) with
  | Err e => (m, Err e)
  | Ok body =>
      let m := if resp_status r =? 429
               then probe_limited m model body (Cooldown.cooldown_deadline_from_headers (resp_headers r) (now * 1000)) now
               else m in
      let m := if resp_status r =? 401 then set_health m AuthFailed else m in
      (m, Ok (resp_status r, (200 <=? resp_status r) && (resp_status r <? 300) && validate body (provider_name m)))
  end.

(** What came of the exchange: no client or no connection, an answer that is no 401, or a 401
    and the refresh after it - which fails for good or not, or gives another answer. *)
Inductive Exchange :=
  | NotSent (reason : string)
  | Answer (r : Response)
  | RefreshFailed (auth_failure : bool)
  | AfterRefresh (r : Prelude.result string Response).

Definition exchange (m : AccountMember) (model : string) (x : Exchange) (now : Z)
  : AccountMember * Prelude.result string (Z * bool) :=
  match x with
  | NotSent e | AfterRefresh (Err e) => (m, Err e)
  | Answer r | AfterRefresh (Ok r) => answered m model r now
  | RefreshFailed auth => (if auth then set_health m AuthFailed else m, Ok (401, false))
  end.

(** The exchange within its 30 seconds, or the end of them, or of the process. *)
Inductive Completion := Completed (x : Exchange) | TimedOut | ShutDown.

Definition conclude (m : AccountMember) (model : string) (c : Completion) (now latency : Z) : AccountMember * WarmupResult :=
  let out (okay : bool) (st : Z) (d : option string) :=
    {| id := member_id m; provider := provider_name m; ok := okay; status := st; latency_ms := latency;
       probed_model := Some model; stream_validated := okay; detail := d |} in
  match c with
  | TimedOut => (m, out false 0 (Some "timeout"))
  | ShutDown => (m, out false 0 (Some "shutdown"))
  | Completed x =>
      match exchange m model x now with
      | (m, Err e) => (m, out false 0 (Some e))
      | (m, Ok (st, valid)) =>
          let m := if valid && eqs (provider_name m) "cline"
                   then with_trackers m (Cline.update_model env (cline_trackers m) model (λ t, Cline.anchor_window t now))
                   else m in
          (m, out valid st (if valid then None else Some "invalid_upstream_response"))
      end
  end.
End network.

(** [execute] up to the probe: why there is none, or the account and the model. *)
Definition prepare (st : AppState) (w : WarmupSettings) (i : WarmupInner) (x : string) (automatic : bool)
    (time now local_hour : Z) : WarmupResult + AccountMember * string :=
  match List.find (λ m, eqs (member_id m) x) (members (pool st)) with
  | None => inl (nobody x "account_not_found")
  | Some m =>
      if negb (supported m) then inl (result m "unsupported")
      else if automatic && negb (due_at st w i m time now local_hour) then inl (result m "not_due")
      else match select_model st (effective_account_policy w (provider_name m) (member_id m)) m now with
           | None => inl (result m "model_unavailable")
           | Some model =>
               match eligibility st m model now with
               | Some reason => inl (result m reason)
               | None => inr (m, model)
               end
           end
  end.

(** The probe recorded, with the last result until it has its own; reading that result and
    recording are one step here. *)
Definition start_probe (i : WarmupInner) (x : string) (time now : Z) : bool * WarmupInner :=
  record_probe i x (time, now, entries i !! x ≫= snd).
End decisions.

(** ** Workers

    A launch spawns a worker, which waits for one of [LIMIT] permits, probes or skips,
    retires its flight and only then publishes its result.  A worker whose [execute] panics
    is dead: it gives its permit back, retires nothing, and those who wait for it get the
    fallback [worker_failed].  The pool, the settings and the accounts change freely
    between the steps. *)

Inductive Phase := Waiting | Probing | Settled (out : WarmupResult) | Published (out : WarmupResult) | Dead.

Record Worker := { worker_id : string; worker_generation : Z; worker_automatic : bool; phase : Phase }.

Record System := { inner_state : WarmupInner; workers : list Worker }.

Definition set_phase (w : Worker) (p : Phase) : Worker :=
  {| worker_id := worker_id w; worker_generation := worker_generation w;
     worker_automatic := worker_automatic w; phase := p |}.

Definition holds_permit (w : Worker) : bool := match phase w with Probing => true | _ => false end.
Definition probing (ws : list Worker) : nat := length (filter (λ w, holds_permit w = true) ws).

(** What [rx.await.unwrap_or(fallback)] gives those who joined, once it gives something. *)
Definition awaited (w : Worker) (fallback : WarmupResult) : option WarmupResult :=
  match phase w with Published out => Some out | Dead => Some fallback | _ => None end.

Definition boot : System := {| inner_state := new_inner; workers := [] |}.

Inductive step : System → System → Prop :=
  | step_retain s a :
      step s {| inner_state := (retain_accounts (inner_state s) a).2; workers := workers s |}
  | step_run_launched s m automatic g n i' :
      board (inner_state s) (member_id m) automatic (length (workers s)) = (Launched g n, i') →
      step s {| inner_state := i';
                workers := workers s ++ [{| worker_id := member_id m; worker_generation := g;
                                            worker_automatic := automatic; phase := Waiting |}] |}
  | step_skip s n w out :
      workers s !! n = Some w → phase w = Waiting →
      step s {| inner_state := inner_state s; workers := <[n := set_phase w (Settled out)]> (workers s) |}
  | step_probe s n w time now b i' :
      workers s !! n = Some w → phase w = Waiting → (probing (workers s) < LIMIT)%nat →
      start_probe (inner_state s) (worker_id w) time now = (b, i') →
      step s {| inner_state := i'; workers := <[n := set_phase w Probing]> (workers s) |}
  | step_result s n w out :
      workers s !! n = Some w → phase w = Probing →
      step s {| inner_state := set_result (inner_state s) (worker_id w) out;
                workers := <[n := set_phase w (Settled out)]> (workers s) |}
  | step_publish s n w out :
      workers s !! n = Some w → phase w = Settled out →
      step s {| inner_state := finish_flight (inner_state s) (worker_id w) (worker_generation w);
                workers := <[n := set_phase w (Published out)]> (workers s) |}
  | step_die s n w :
      workers s !! n = Some w → phase w = Waiting ∨ phase w = Probing →
      step s {| inner_state := inner_state s; workers := <[n := set_phase w Dead]> (workers s) |}.

End Warmup.
