(* ===== verification/WarmupProps.v ===== *)
(** * Warmup: in-flight probes, the probe log, and when an account rests

    The runner under every interleaving of prunes, callers and completions; what the log of
    probes counts; and that an account that was warmed up, or refused for its quota, is left
    alone. *)

From stdpp Require Import gmap strings list relations.
From S2P Require Import Prelude F64 RustStr Json RegistryTypes RegistrySnapshot Types Scheduler Usage AffinityStore ClineUsage Account AccountModels RelayRoute RelayCooldown Warmup.
Import RustStr Usage Account Models Route Warmup.
Open Scope Z_scope.

(** ** Workers and flights *)

Definition published (w : Worker) : Prop := ∃ out, phase w = Published out.

(** Nothing is kept of an account that left the pool. *)
Definition tidy (i : WarmupInner) : Prop :=
  ∀ x, is_Some (entries i !! x) ∨ is_Some (probe_log i !! x) ∨ is_Some (flights i !! x) → admits i x = true.

Record consistent (s : System) : Prop := {
  (** who joins a flight waits for a worker of that account that has not published *)
  c_live : ∀ x e, flights (inner_state s) !! x = Some e →
    ∃ w, workers s !! flight e = Some w ∧ worker_id w = x ∧ worker_generation w = generation e ∧ ¬ published w;
  c_tags : ∀ n w, workers s !! n = Some w → worker_generation w = wrap_u64 (Z.of_nat n + 1);
  c_counter : flight_generation (inner_state s) = wrap_u64 (Z.of_nat (length (workers s)));
  c_tidy : tidy (inner_state s);
  c_permits : (probing (workers s) ≤ LIMIT)%nat;
}.

Lemma boot_consistent : consistent boot.
Proof.
  split; try done. unfold probing, LIMIT. cbn. lia.
Qed.

(** A worker that changes its phase keeps its name. *)
Lemma set_phase_lookup (ws : list Worker) n w p k v :
  ws !! n = Some w → <[n := set_phase w p]> ws !! k = Some v →
  (k = n ∧ v = set_phase w p) ∨ (k ≠ n ∧ ws !! k = Some v).
Proof.
  intros Hn. destruct (decide (k = n)) as [->|Hne].
  - rewrite list_lookup_insert_eq by (by eapply lookup_lt_Some). intros [= <-]. by left.
  - rewrite list_lookup_insert_ne by done. by right.
Qed.

Lemma set_phase_tags (ws : list Worker) n w p :
  (∀ k v, ws !! k = Some v → worker_generation v = wrap_u64 (Z.of_nat k + 1)) → ws !! n = Some w →
  ∀ k v, <[n := set_phase w p]> ws !! k = Some v → worker_generation v = wrap_u64 (Z.of_nat k + 1).
Proof.
  intros Htags Hn k v Hk. destruct (set_phase_lookup _ _ _ _ _ _ Hn Hk) as [[-> ->]|[_ Hv]]; [|by apply Htags].
  apply (Htags _ _ Hn).
Qed.

(** The permits, worker by worker. *)
Lemma probing_insert (ws : list Worker) n w p : ws !! n = Some w →
  (probing (<[n := set_phase w p]> ws) + (if holds_permit w then 1 else 0)
   = probing ws + (if holds_permit (set_phase w p) then 1 else 0))%nat.
Proof.
  intros Hn. unfold probing. rewrite insert_take_drop by (by eapply lookup_lt_Some).
  rewrite <- (take_drop_middle ws n w Hn) at 3. rewrite !filter_app, !length_app, !filter_cons.
  destruct (holds_permit w) eqn:Hw, (holds_permit (set_phase w p)) eqn:Hp; repeat case_decide; try congruence; cbn [length]; lia.
Qed.

(** *** The operations keep the runner tidy *)

Lemma retain_tidy i a : tidy (retain_accounts i a).2.
Proof.
  intros x Hx. unfold admits. cbn. apply bool_decide_eq_true_2.
  destruct Hx as [[y Hy]|[[y Hy]|[y Hy]]]; cbn in Hy; by apply map_lookup_filter_Some in Hy as [_ ?].
Qed.

Lemma record_probe_tidy i x r : tidy i → tidy (record_probe i x r).2.
Proof.
  intros Ht. unfold record_probe. destruct (admits i x) eqn:Ha; [|done]. cbn [negb snd]. intros y Hy.
  change (admits i y = true). destruct (decide (y = x)) as [->|Hne]; [done|]. apply Ht. cbn in Hy.
  by rewrite !lookup_insert_ne in Hy by done.
Qed.

Lemma set_result_tidy i x out : tidy i → tidy (set_result i x out).
Proof.
  intros Ht. unfold set_result. destruct (entries i !! x) as [[[at_ u] r]|] eqn:Hx; [|done]. intros y Hy.
  change (admits i y = true). destruct (decide (y = x)) as [->|Hne]; [apply Ht; by left|]. apply Ht. cbn in Hy.
  by rewrite !lookup_insert_ne in Hy by done.
Qed.

Lemma finish_flight_lookup i x g y e :
  flights (finish_flight i x g) !! y = Some e →
  flights i !! y = Some e ∧ (y = x → generation e ≠ g).
Proof.
  unfold finish_flight. destruct (flights i !! x) as [e'|] eqn:Hx; [|naive_solver].
  destruct (Z.eqb_spec (generation e') g) as [Hg|Hg]; cbn.
  - rewrite lookup_delete_Some. naive_solver.
  - intros Hy. split; [done|]. intros ->. congruence.
Qed.

Lemma finish_tidy i x g : tidy i → tidy (finish_flight i x g).
Proof.
  intros Ht y Hy. assert (admits (finish_flight i x g) y = admits i y ∧ entries (finish_flight i x g) = entries i
    ∧ probe_log (finish_flight i x g) = probe_log i) as (-> & He & Hl).
  { unfold finish_flight. destruct (flights i !! x); [|done]. by destruct (_ =? _). }
  apply Ht. rewrite He, Hl in Hy. destruct Hy as [?|[?|[e Hy]]]; [by left|by right; left|].
  right; right. apply finish_flight_lookup in Hy as [-> _]. done.
Qed.

Lemma board_launched i x automatic next g n i' : board i x automatic next = (Launched g n, i') →
  admits i x = true ∧ flights i !! x = None ∧ n = next ∧ g = wrapping_add_u64 (flight_generation i) 1 ∧
  i' = with_flights i (<[x := {| generation := g; flight := next |}]> (flights i)) g.
Proof.
  unfold board. destruct (admits i x); [|done]. destruct (flights i !! x); [by destruct automatic|].
  cbn. intros [= <- <- <-]. done.
Qed.

Lemma start_probe_flights i x t n b i' : start_probe i x t n = (b, i') →
  flights i' = flights i ∧ flight_generation i' = flight_generation i ∧ (tidy i → tidy i').
Proof.
  unfold start_probe. intros H. split_and!.
  - revert H. unfold record_probe. destruct (negb _); by intros [= _ <-].
  - revert H. unfold record_probe. destruct (negb _); by intros [= _ <-].
  - intros Ht. apply (record_probe_tidy _ x (t, n, entries i !! x ≫= snd)) in Ht. by rewrite H in Ht.
Qed.

Lemma set_result_flights i x out :
  flights (set_result i x out) = flights i ∧ flight_generation (set_result i x out) = flight_generation i.
Proof. unfold set_result. destruct (entries i !! x) as [[[? ?] ?]|]; done. Qed.

Lemma finish_generation i x g : flight_generation (finish_flight i x g) = flight_generation i.
Proof. unfold finish_flight. destruct (flights i !! x); [|done]. by destruct (_ =? _). Qed.

(** *** Every step keeps the system consistent *)

Lemma launch_consistent s m automatic g n i' :
  consistent s → board (inner_state s) (member_id m) automatic (length (workers s)) = (Launched g n, i') →
  consistent {| inner_state := i';
                workers := workers s ++ [{| worker_id := member_id m; worker_generation := g;
                                            worker_automatic := automatic; phase := Waiting |}] |}.
Proof.
  intros [Hlive Htags Hcount Htidy Hperm] (Ha & Hno & -> & -> & ->)%board_launched.
  assert (wrapping_add_u64 (flight_generation (inner_state s)) 1 = wrap_u64 (Z.of_nat (length (workers s)) + 1)) as Hg.
  { rewrite Hcount. unfold wrapping_add_u64, wrap_u64. by rewrite Zplus_mod_idemp_l. }
  rewrite Hg. split; cbn.
  - intros x e. destruct (decide (x = member_id m)) as [->|Hne].
    + rewrite lookup_insert_eq. intros [= <-]. cbn. eexists. rewrite list_lookup_middle by done.
      split_and!; [done|done|done|by intros [? ?]].
    + rewrite lookup_insert_ne by done. intros (w & Hw & ?)%Hlive. exists w. by rewrite (lookup_app_l_Some _ _ _ _ Hw).
  - intros k v [Hk|[Hge Hk]]%lookup_app_Some; [by apply Htags|]. apply list_lookup_singleton_Some in Hk as [Hk <-].
    cbn [worker_generation]. by replace k with (length (workers s)) by lia.
  - rewrite length_app. cbn [length]. by rewrite Nat2Z.inj_add.
  - intros x Hx. change (admits (inner_state s) x = true). destruct (decide (x = member_id m)) as [->|Hne]; [done|].
    apply Htidy. cbn in Hx. by rewrite lookup_insert_ne in Hx by done.
  - unfold probing in *. rewrite filter_app, length_app.
    replace (filter _ [_]) with (@nil Worker) by done. cbn [length]. by rewrite Nat.add_0_r.
Qed.

(** A worker moves on, and the flights stay or lose its own. *)
Lemma move_consistent s n w p i' :
  consistent s → workers s !! n = Some w →
  flight_generation i' = flight_generation (inner_state s) → tidy i' →
  (∀ x e, flights i' !! x = Some e → flights (inner_state s) !! x = Some e) →
  (∀ out, p = Published out → ∀ x e, flights i' !! x = Some e → flight e ≠ n) →
  (holds_permit (set_phase w p) = true → (probing (workers s) < LIMIT)%nat) →
  consistent {| inner_state := i'; workers := <[n := set_phase w p]> (workers s) |}.
Proof.
  intros [Hlive Htags Hcount Htidy Hperm] Hn Hg Ht Hsub Hpub Hroom. split; cbn [inner_state workers].
  - intros x e He. destruct (Hlive x e (Hsub x e He)) as (v & Hv & Hid & Hgen & Hnp).
    destruct (decide (flight e = n)) as [<-|Hne].
    + rewrite Hn in Hv. injection Hv as <-. exists (set_phase w p).
      rewrite list_lookup_insert_eq by (by eapply lookup_lt_Some). split_and!; [done..|].
      intros [out Hout]. by destruct (Hpub out Hout x e He).
    + exists v. by rewrite list_lookup_insert_ne.
  - by apply set_phase_tags.
  - by rewrite Hg, length_insert.
  - done.
  - pose proof (probing_insert _ _ _ p Hn) as Hpi. destruct (holds_permit (set_phase w p)).
    + specialize (Hroom eq_refl). destruct (holds_permit w); lia.
    + destruct (holds_permit w); lia.
Qed.

Lemma step_consistent s s' : step s s' → consistent s → consistent s'.
Proof.
  intros Hs Hc. pose proof Hc as [Hlive Htags Hcount Htidy Hperm]. destruct Hs.
  - split; [|done|done|apply retain_tidy|done]. intros x e [He _]%map_lookup_filter_Some. by apply Hlive.
  - by eapply launch_consistent.
  - by eapply move_consistent.
  - apply start_probe_flights in H2 as (Hf & Hg & Ht).
    eapply move_consistent; [done|done|done|by apply Ht|by rewrite Hf|done|done].
  - destruct (set_result_flights (inner_state s) (worker_id w) out) as [Hf Hg].
    eapply move_consistent; [done|done|done|by apply set_result_tidy|by rewrite Hf|done|done].
  - eapply move_consistent; [done|done|apply finish_generation|by apply finish_tidy| | |done].
    + by intros x e [? _]%finish_flight_lookup.
    + intros out' _ x e [He Hne]%finish_flight_lookup <-. destruct (Hlive x e He) as (v & Hv & Hid & Hgen & _).
      rewrite H in Hv. injection Hv as <-. by destruct (Hne (eq_sym Hid)).
  - by eapply move_consistent.
Qed.

(** C32: In every state the warmup runner reaches, however prunes, callers, completions and
    workers that panic interleave: whoever joins a flight waits for a worker of that account
    that has yet to publish (or has died, when the flight gives the fallback result);
    nothing is held of an account that left the pool; no more than [LIMIT] probes run; and -
    while generations have not wrapped round - a worker that completes removes no flight but
    its own. *)
Theorem warmup_flights_sound s :
  rtc step boot s →
  (∀ x e, flights (inner_state s) !! x = Some e →
     ∃ w, workers s !! flight e = Some w ∧ worker_id w = x ∧ worker_generation w = generation e ∧ ¬ published w) ∧
  tidy (inner_state s) ∧
  (probing (workers s) ≤ LIMIT)%nat ∧
  (Z.of_nat (length (workers s)) < 2 ^ 64 →
   ∀ n w x e, workers s !! n = Some w → flights (inner_state s) !! x = Some e → flight e ≠ n →
     flights (finish_flight (inner_state s) (worker_id w) (worker_generation w)) !! x = Some e).
Proof.
  intros Hs. assert (consistent s) as [Hlive Htags Hcount Htidy Hperm].
  { apply (@rtc_ind_r _ step consistent boot); [apply boot_consistent| |done]. intros; by eapply step_consistent. }
  split_and!; [done|done|done|]. intros Hlen n w x e Hn He Hne.
  destruct (Hlive x e He) as (v & Hv & Hid & Hgen & _). unfold finish_flight.
  destruct (flights (inner_state s) !! worker_id w) as [e'|] eqn:He'; [|done].
  destruct (Z.eqb_spec (generation e') (worker_generation w)) as [Hg|]; [|done]. cbn.
  apply lookup_delete_Some. split; [|done]. intros Hx. rewrite Hx, He in He'. injection He' as <-.
  destruct Hne. apply lookup_lt_Some in Hv as Hlt, Hn as Hlt'. rewrite <- Hgen, (Htags _ _ Hv), (Htags _ _ Hn) in Hg.
  rewrite !wrap_u64_small in Hg by (unfold is_u64, u64_max; lia). lia.
Qed.

(** ** The probe log *)

(** Probes recorded one after another. *)
Definition record_many (i : WarmupInner) (ps : list (string * WarmupHistoryEntry)) : WarmupInner :=
  foldl (λ i p, (record_probe i p.1 p.2).2) i ps.

Definition within (now t : Z) : Prop := now - PROBE_LOG_WINDOW_SECS < t.
#[local] Instance within_dec now t : Decision (within now t) := decide (now - PROBE_LOG_WINDOW_SECS < t).

Lemma drop_old_within now cutoff log : cutoff ≤ now - PROBE_LOG_WINDOW_SECS →
  filter (within now) (drop_old cutoff log) = filter (within now) log.
Proof.
  intros Hc. induction log as [|t log IH]; [done|]. cbn [drop_old]. destruct (Z.leb_spec t cutoff); [|done].
  rewrite IH, filter_cons. by rewrite decide_False by (unfold within; lia).
Qed.

(** The log never forgets a probe that still counts. *)
Lemma log_within ps x now : (∀ p, p ∈ ps → p.2.1.2 ≤ now) →
  active (record_many new_inner ps) = None ∧
  filter (within now) (default [] (probe_log (record_many new_inner ps) !! x))
  = filter (within now) ((λ p, p.2.1.2) <$> filter (λ p, p.1 = x) ps).
Proof.
  induction ps as [|[y r] ps IH] using rev_ind; intros Hle; [done|].
  destruct IH as [Ha Hl]; [intros p Hp; apply Hle, elem_of_app; by left|].
  unfold record_many. rewrite foldl_app. fold (record_many new_inner ps). cbn [foldl fst snd].
  unfold record_probe, admits. rewrite Ha. cbn [negb snd active probe_log]. split; [done|].
  rewrite filter_app, fmap_app, filter_app, <- Hl, filter_cons. cbn [fst].
  destruct (decide (y = x)) as [->|Hne].
  - rewrite lookup_insert_eq. cbn [from_option]. unfold Datatypes.id. rewrite drop_old_within, filter_app; [done|].
    specialize (Hle (x, r)). cbn in Hle. assert (r.1.2 ≤ now); [apply Hle, elem_of_app; right; left|lia].
  - rewrite lookup_insert_ne by done. cbn. by rewrite app_nil_r.
Qed.

(** What [probes_last_24h] reports is the number of probes of the account in the last day,
    though the log is trimmed as it grows. *)
Theorem probes_counted ps x now : (∀ p, p ∈ ps → p.2.1.2 ≤ now) →
  probes_last_24h (record_many new_inner ps) x now
  = length (filter (λ p, now - PROBE_LOG_WINDOW_SECS < p.2.1.2) (filter (λ p, p.1 = x) ps)).
Proof.
  intros Hle. destruct (log_within ps x now Hle) as [_ Hl]. unfold probes_last_24h.
  transitivity (length (filter (within now) (default [] (probe_log (record_many new_inner ps) !! x)))).
  { by destruct (_ !! x). }
  rewrite Hl. clear. induction (filter _ ps) as [|p l IH]; [done|]. rewrite fmap_cons, !filter_cons.
  unfold within at 1. destruct (decide _); cbn [length]; by rewrite IH.
Qed.

(** ** Rest *)

Section rest.
Context (url_host : string → option string) (embedded : Snapshot.RegistrySnapshot) (access_token : AccountMember → string).
Context (parse_json from_slice : string → option Json.Value) (env : string → option string).
Abbreviation eligibility := (eligibility access_token).
Abbreviation due_at := (due_at url_host embedded access_token).

Lemma ineligible_group st m model now : group_available m model (now * 1000) = false → eligibility st m model now ≠ None.
Proof. intros Hg. unfold Warmup.eligibility. rewrite Hg. by repeat (case_match; try done). Qed.

Lemma ineligible_health st m model now :
  is_available (member_health m) (now * 1000) = false → group_derived m = false → eligibility st m model now ≠ None.
Proof. intros Hh Hg. unfold Warmup.eligibility. rewrite Hh, Hg. by repeat (case_match; try done). Qed.

(** A quota group that is benched stays benched until then. *)
Lemma group_cooldown_unavailable m model g D now :
  quota_group_for m model = Some g → now < D → group_available (set_group_cooldown m model D).2 model now = false.
Proof.
  intros Hg Hnow. unfold set_group_cooldown. rewrite Hg. cbn [snd]. unfold group_available.
  destruct (benched _ _ _); [done|]. change (quota_group_for (with_benches _ _ _ _) model) with (quota_group_for m model).
  rewrite Hg. cbn [group_cooldowns with_benches]. unfold bench. rewrite lookup_insert_eq.
  apply Z.leb_gt. lia.
Qed.

Lemma bench_probe_inner m q D : inner (bench_probe m q D) = inner m.
Proof.
  unfold bench_probe, set_group_cooldown. destruct (quota_group_for m q); [done|]. by destruct (member_health m).
Qed.

Lemma spent_quota_inner m model body hd now : inner (spent_quota from_slice env m model body hd now).2 = inner m.
Proof.
  unfold spent_quota. destruct (eqs _ _); [|done]. destruct (Cooldown.parse_cline_cap_error _ _) as [[q secs]|]; [|done].
  cbn. unfold Cooldown.note_cap, Cooldown.record_cline_quota_bucket. cbn. done.
Qed.

Lemma provider_of m m' model : inner m' = inner m →
  provider_name m' = provider_name m ∧ quota_group_for m' model = quota_group_for m model.
Proof. intros H. unfold quota_group_for, provider_name. by rewrite H. Qed.

(** A refused probe benches what its next probe would look at. *)
Lemma limited_rests st m model body hd now0 now :
  now * 1000 < (spent_quota from_slice env m model body hd now0).1.2 →
  eligibility st (probe_limited from_slice env m model body hd now0) model now ≠ None.
Proof.
  unfold probe_limited. pose proof (spent_quota_inner m model body hd now0) as Hi.
  destruct (spent_quota from_slice env m model body hd now0) as [[q D] m1] eqn:Hs. cbn [fst snd] in *. intros Hnow.
  destruct (quota_group_for m1 model) as [g|] eqn:Hg.
  - apply ineligible_group. unfold eqs. case_bool_decide as Hq.
    + subst q. unfold bench_probe. pose proof (group_cooldown_unavailable m1 model g D _ Hg Hnow) as Hu.
      unfold set_group_cooldown in *. by rewrite Hg in *.
    + apply (group_cooldown_unavailable _ _ g); [|done].
      rewrite <- Hg. apply provider_of, bench_probe_inner.
  - destruct (provider_of m1 m model (eq_sym Hi)) as [Hp Hg']. rewrite Hg in Hg'.
    assert (provider_name m ≠ "cline" ∧ provider_name m ≠ "antigravity") as [Hcl Han].
    { unfold quota_group_for, model_quota_group, eqs in Hg'. repeat case_bool_decide; try done.
      repeat case_match; done. }
    assert (q = model ∧ m1 = m) as [-> ->].
    { unfold spent_quota, eqs in Hs. rewrite bool_decide_eq_false_2 in Hs by done. by injection Hs. }
    unfold eqs. rewrite bool_decide_eq_true_2 by done. unfold bench_probe, set_group_cooldown. rewrite Hg.
    apply ineligible_health.
    + destruct (member_health m) eqn:Hh; cbn; rewrite ?Hh; try done; apply Z.leb_gt; lia.
    + unfold group_derived, eqs. destruct (member_health m) eqn:Hh; cbn; rewrite ?Hh; try done;
        by rewrite bool_decide_eq_false_2.
Qed.

Lemma due_not st w i m time now hour :
  attempted_recently i (member_id m) time = true ∨ (∀ model, is_Some (resolve_window_state i m model now)) →
  due_at st w i m time now hour = false.
Proof.
  intros H. unfold Warmup.due_at. destruct (negb (p_enabled _)); [done|]. destruct (negb (_ =? 0)); [done|].
  destruct (select_model _ _ _ _ _ _ _) as [model|]; [|done]. destruct (is_some (eligibility _ _ _ _)); [done|].
  destruct H as [->|H]; [done|]. destruct (attempted_recently _ _ _); [done|]. by destruct (H model) as [r ->].
Qed.

Lemma warm_window i m model now at_ u out :
  entries i !! member_id m = Some (at_, u, Some out) → ok out = true → now < u + WINDOW_SECS →
  is_Some (resolve_window_state i m model now).
Proof.
  intros He Hok Hnow. unfold resolve_window_state. destruct (is_quota_window_active m model now); [done|].
  rewrite He, Hok. cbn [andb]. by rewrite (proj2 (Z.ltb_lt _ _) Hnow).
Qed.

Lemma probe_entry i x t0 now0 i1 out : start_probe i x t0 now0 = (true, i1) →
  entries (set_result i1 x out) !! x = Some (t0, now0, Some out).
Proof.
  unfold start_probe, record_probe. destruct (negb _); [done|]. intros [= <-]. unfold set_result. cbn [entries].
  rewrite lookup_insert_eq. cbn [entries]. by rewrite lookup_insert_eq.
Qed.

(** The answer an exchange ended with. *)
Definition answer_of (c : Completion) : option Response :=
  match c with Completed (Answer r) | Completed (AfterRefresh (Ok r)) => Some r | _ => None end.

(** C28: An account that was probed is left alone.  For a minute whatever came of it; for the
    five hours of the window if the probe succeeded; and after an answer 429 whose body
    could be read to its end within 1 MiB (the side condition [read_body ... = Ok body])
    the account is not eligible for the model that was probed until the quota it is out of
    is back.  (A 429 whose body breaks off or is larger benches nothing, see
    [broken_429_benches_nothing]; only the minute's rest holds then.) *)
Theorem warmup_rests i m t0 now0 i1 model c latency m' out :
  start_probe i (member_id m) t0 now0 = (true, i1) →
  conclude parse_json from_slice env m model c now0 latency = (m', out) →
  (∀ st w a time now hour, member_id a = member_id m →
     time < t0 + RECENT_NS ∨ (ok out = true ∧ now < now0 + WINDOW_SECS) →
     due_at st w (set_result i1 (member_id m) out) a time now hour = false) ∧
  (∀ r body, answer_of c = Some r → resp_status r = 429 → read_body "" (resp_chunks r) = Ok body →
     ok out = false ∧
     ∀ st now,
       now * 1000 < (spent_quota from_slice env m model body
                       (Cooldown.cooldown_deadline_from_headers (resp_headers r) (now0 * 1000)) now0).1.2 →
       eligibility st m' model now ≠ None).
Proof.
  intros Hstart Hc. pose proof (probe_entry _ _ _ _ _ out Hstart) as He. split.
  - intros st w a time now hour Ha [Ht|[Hok Hn]]; apply due_not.
    + left. unfold attempted_recently. rewrite Ha, He. apply Z.ltb_lt. unfold RECENT_NS in *. lia.
    + right. intros x. eapply warm_window; [rewrite Ha; exact He|done|done].
  - intros r body Hr Hst Hbody.
    assert (exchange parse_json from_slice env m model
              match c with Completed x => x | _ => NotSent "" end now0 = answered parse_json from_slice env m model r now0 ∧
            ∃ x, c = Completed x) as [Hx [x ->]].
    { destruct c as [[| | |[]]| |]; cbn in Hr; try done; injection Hr as ->; (split; [done|by eexists]). }
    unfold conclude in Hc. rewrite Hx in Hc. unfold answered in Hc. rewrite Hbody, Hst in Hc. cbn in Hc.
    injection Hc as <- <-. split; [done|]. intros st now Hnow. by apply limited_rests.
Qed.

(** The intervals of a policy are stored and validated but decide nothing. *)
Theorem intervals_unused st providers accounts x model idle min idle' min' i m time now hour :
  due_at st {| w_providers := providers; w_accounts := <[x := Custom model idle min]> accounts |} i m time now hour
  = due_at st {| w_providers := providers; w_accounts := <[x := Custom model idle' min']> accounts |} i m time now hour.
Proof.
  unfold Warmup.due_at, effective_account_policy, effective_provider_policy. cbn [w_accounts w_providers].
  destruct (decide (member_id m = x)) as [<-|Hne]; [by rewrite !lookup_insert_eq|by rewrite !lookup_insert_ne].
Qed.
End rest.

Module WarmupDemo.

Definition ACCOUNT : AccountMember := for_test_with_id "codex-1" Codex 0.

Definition waiting (g : Z) : Worker :=
  {| worker_id := "codex-1"; worker_generation := g; worker_automatic := false; phase := Waiting |}.

(** The account is probed, leaves the pool, comes back and is probed again. *)
Definition AGAIN : System :=
  {| inner_state := {| active := Some {["codex-1"]}; entries := ∅; probe_log := ∅;
                       flights := {["codex-1" := {| generation := 2; flight := 1 |}]}; flight_generation := 2 |};
     workers := [waiting 1; waiting 2] |}.

Lemma again_reached : rtc step boot AGAIN.
Proof.
  eapply rtc_l; [by eapply (step_run_launched boot ACCOUNT false)|].
  eapply rtc_l; [apply (step_retain _ ∅)|].
  eapply rtc_l; [apply (step_retain _ {["codex-1"]})|].
  eapply rtc_l; [by eapply (step_run_launched _ ACCOUNT false)|].
  match goal with |- rtc step ?s AGAIN => replace s with AGAIN by (vm_compute; reflexivity) end. apply rtc_refl.
Qed.

(** Applies [warmup_flights_sound] there: the first worker does not take the second's flight. *)
Lemma warmup_flights_witness :
  rtc step boot AGAIN ∧
  flights (finish_flight (inner_state AGAIN) "codex-1" 1) !! "codex-1" = Some {| generation := 2; flight := 1 |}.
Proof.
  split; [exact again_reached|].
  destruct (warmup_flights_sound AGAIN again_reached) as (_ & _ & _ & H).
  refine (H _ 0%nat (waiting 1) "codex-1" {| generation := 2; flight := 1 |} _ _ _).
  - vm_compute. reflexivity.
  - reflexivity.
  - vm_compute. reflexivity.
  - discriminate.
Defined.

(** A worker that dies leaves its flight behind: nobody launches another while the account
    stays in the pool, and everyone who joins gets the fallback. *)
Definition STUCK : System :=
  {| inner_state := inner_state AGAIN; workers := [waiting 1; set_phase (waiting 2) Dead] |}.

Theorem dead_worker_keeps_flight fallback next :
  rtc step boot STUCK ∧
  (board (inner_state STUCK) "codex-1" true next).1 = InFlight ∧
  (board (inner_state STUCK) "codex-1" false next).1 = Joined 1 ∧
  workers STUCK !! 1%nat ≫= (λ w, awaited w fallback) = Some fallback.
Proof.
  split_and!; [|vm_compute; reflexivity..]. eapply rtc_r; [exact again_reached|].
  apply (step_die AGAIN 1 (waiting 2)); [reflexivity|by left].
Qed.

Definition nothing {A B} (a : A) : option B := None.
Definition LIMITED : Completion :=
  Completed (Answer {| resp_status := 429; resp_headers := [("retry-after", Some "120")]; resp_chunks := [] |}).

Definition PROBED : WarmupInner := (start_probe new_inner "codex-1" 5 1000).2.
Definition REFUSED : AccountMember * WarmupResult := conclude nothing nothing nothing ACCOUNT "gpt-5" LIMITED 1000 40.

(** Applies [warmup_rests] to a probe that is refused for two minutes. *)
Lemma warmup_rests_witness :
  start_probe new_inner "codex-1" 5 1000 = (true, PROBED) ∧
  ok REFUSED.2 = false ∧
  (∀ url_host embedded token st w time now hour, time < 5 + RECENT_NS →
     due_at url_host embedded token st w (set_result PROBED "codex-1" REFUSED.2) REFUSED.1 time now hour = false) ∧
  (∀ token st now, now < 1120 → eligibility token st REFUSED.1 "gpt-5" now ≠ None).
Proof.
  assert (start_probe new_inner (member_id ACCOUNT) 5 1000 = (true, PROBED)) as Hs by (vm_compute; reflexivity).
  assert (conclude nothing nothing nothing ACCOUNT "gpt-5" LIMITED 1000 40 = (REFUSED.1, REFUSED.2)) as Hc
    by (vm_compute; reflexivity).
  split; [exact Hs|]. split; [vm_compute; reflexivity|]. split.
  - intros url_host embedded token st w time now hour Ht.
    apply (warmup_rests url_host embedded token nothing nothing nothing new_inner ACCOUNT 5 1000 PROBED "gpt-5" LIMITED 40 _ _ Hs Hc);
      [vm_compute; reflexivity|by left].
  - intros token st now Hn.
    refine (proj2 (proj2 (warmup_rests nothing
      {| Snapshot.version := 0; Snapshot.snap_source := Discovered; Snapshot.models := ∅; Snapshot.providers := ∅;
         Snapshot.aliases := ∅; Snapshot.exclusions := ∅ |} token nothing nothing nothing new_inner ACCOUNT 5 1000 PROBED "gpt-5" LIMITED 40 _ _ Hs Hc)
      _ "" eq_refl eq_refl eq_refl) st now _).
    change (now * 1000 < 1120000). lia.
Defined.

(** The same refusal with a body that breaks off. *)
Definition BROKEN : Completion :=
  Completed (Answer {| resp_status := 429; resp_headers := [("retry-after", Some "120")];
                       resp_chunks := [Ok "{"; Err "connection reset"] |}).

Theorem broken_429_benches_nothing token st now :
  let r := conclude nothing nothing nothing ACCOUNT "gpt-5" BROKEN 1000 40 in
  ok r.2 = false ∧ eligibility token st r.1 "gpt-5" now = eligibility token st ACCOUNT "gpt-5" now.
Proof. split; [vm_compute; reflexivity|reflexivity]. Qed.
End WarmupDemo.
