(* ===== verification/Egress.v ===== *)
(** * Egress (crates/gateway/src/proxy_policy.rs, state.rs, loopback_guard.rs)

    Which way the requests of an account leave: the policy of its provider, the override of its
    credential, the URL of a sticky session that is rotated at a phase of its own, and the
    cache of the clients that were built for such URLs.

    Parameters: [parse_url] is the [url] crate, [hash64] the standard library's
    [DefaultHasher], [proxy_all] whether [reqwest] can build a client for a proxy, and
    [qa_loopback_only] the environment variable of that name. *)

From Stdlib Require Import Ascii.
From stdpp Require Import gmap strings list relations.
From S2P Require Import Prelude RustStr AffinityStore.
Import RustStr.
Open Scope Z_scope.

Module Egress.

(** ** Literal loopback addresses *)

Inductive IpAddr := V4 (octets : list Z) | V6 (groups : list Z).

(** Decimal, at most three digits, no leading zero. *)
Definition parse_octet (s : string) : option Z :=
  if negb (all_bytes is_ascii_digit s) || (3 <? strlen s) then None
  else match s with
       | String "0" (String _ _) => None
       | _ => parse_magnitude 255 s
       end.

Definition parse_v4 (s : string) : option (list Z) :=
  let parts := split "." s in
  if bool_decide (length parts = 4%nat) then mapM parse_octet parts else None.

Definition hex_val (a : ascii) : option Z :=
  if is_ascii_digit a then digit_val a
  else let b := byte_of (to_lower a) in if (97 <=? b) && (b <=? 102) then Some (b - 87) else None.

Definition parse_group (s : string) : option Z :=
  if is_empty s || (4 <? strlen s) then None
  else foldl (λ acc d, z ← acc; v ← d; Some (16 * z + v)) (Some 0) (hex_val <$> String.list_ascii_of_string s).

(** Groups between colons; the last two may be written as an IPv4 address. *)
Fixpoint parse_groups (v4_last : bool) (parts : list string) : option (list Z) :=
  match parts with
  | [] => Some []
  | [p] =>
      match parse_group p with
      | Some g => Some [g]
      | None => if v4_last then o ← parse_v4 p;
                                match o with [a; b; c; d] => Some [256 * a + b; 256 * c + d] | _ => None end
                else None
      end
  | p :: parts => g ← parse_group p; gs ← parse_groups v4_last parts; Some (g :: gs)
  end.

Definition groups_of (v4_last : bool) (s : string) : option (list Z) :=
  if is_empty s then Some [] else parse_groups v4_last (split ":" s).

(** The text before and after the first ["::"]. *)
Fixpoint split_elision (s : string) : option (string * string) :=
  match s with
  | EmptyString => None
  | String a s' =>
      match strip_prefix "::" s with
      | Some rest => Some ("", rest)
      | None => '(l, r) ← split_elision s'; Some (String a l, r)
      end
  end.

Definition parse_v6 (s : string) : option (list Z) :=
  match split_elision s with
  | None => gs ← groups_of true s; if bool_decide (length gs = 8%nat) then Some gs else None
  | Some (h, t) =>
      hs ← groups_of false h; ts ← groups_of true t;
      if bool_decide (length hs + length ts <= 7)%nat
      then Some (hs ++ replicate (8 - length hs - length ts) 0 ++ ts) else None
  end.

Definition parse_ip (s : string) : option IpAddr :=
  match parse_v4 s with Some o => Some (V4 o) | None => V6 <$> parse_v6 s end.

Definition is_loopback (ip : IpAddr) : bool :=
  match ip with
  | V4 (a :: _) => a =? 127
  | V4 [] => false
  | V6 gs => bool_decide (gs = [0; 0; 0; 0; 0; 0; 0; 1])
  end.

Definition is_literal_loopback_host (host : string) : bool :=
  let clean := trim_end_matches "]" (trim_start_matches "[" (trim host)) in
  match parse_ip clean with Some ip => is_loopback ip | None => false end.

(** ** Policies *)

Record ProviderProxyPolicy := { enabled : bool; sticky : bool; ttl_secs : Z; (* u64 *) policy_url : string }.

Record ProxySettings := { proxy_url : string; proxy_providers : gmap string ProviderProxyPolicy }.

Record ProxyRuntime := { global_proxy_url : string; providers : gmap string ProviderProxyPolicy }.

Definition runtime_from_settings (s : ProxySettings) : ProxyRuntime :=
  {| global_proxy_url := trim (proxy_url s); providers := proxy_providers s |}.

Definition scoped_routing_active (r : ProxyRuntime) : bool := existsb enabled (btree_values (providers r)).

Definition is_direct_or_none (url : string) : bool :=
  let t := trim url in
  eq_ignore_ascii_case t "direct" || eq_ignore_ascii_case t "none" || eq_ignore_ascii_case t "no_proxy".

Definition base_proxy_url (s : ProxySettings) : option string :=
  if existsb enabled (btree_values (proxy_providers s)) then None
  else let u := trim (proxy_url s) in if is_empty u || is_direct_or_none u then None else Some u.

Definition token_endpoint_bypasses_egress_proxy (provider : string) : bool := eq_ignore_ascii_case provider "xai".

Record Url := { scheme : string; host_str : option string; port : option Z; path : string }.

Definition is_literal_loopback_url (u : Url) : bool :=
  match host_str u with Some h => is_literal_loopback_host h | None => false end.

Inductive UrlError := NotAUrl | UnsupportedScheme (scheme : string) | MissingHost | NotLoopback.

(** *** Session ids *)

Definition is_ascii_alphanumeric (a : ascii) : bool := is_ascii_digit a || ascii_upper a || ascii_lower a.
Definition session_byte (a : ascii) : bool :=
  is_ascii_alphanumeric a || bool_decide (a = "_"%char) || bool_decide (a = "-"%char).

(** A character of the id, or a dash. *)
Definition session_char (c : string) : ascii :=
  match c with String a EmptyString => if session_byte a then a else "-"%char | _ => "-"%char end.

(** [{:08x}] of a [u32]. *)
Definition hex_digit (z : Z) : ascii := ascii_of_N (Z.to_N (if z <? 10 then z + 48 else z + 87)).
Definition hex8 (z : Z) : string :=
  String.string_of_list_ascii ((λ i, hex_digit (Z.shiftr z (4 * i) mod 16)) <$> [7; 6; 5; 4; 3; 2; 1; 0]).

Definition aliases (k n : string) : bool :=
  bool_decide (k = n) || bool_decide (k = "openai" ∧ n = "codex") || bool_decide (k = "codex" ∧ n = "openai")
  || bool_decide (k = "claude-code" ∧ n = "claude") || bool_decide (k = "claude" ∧ n = "claude-code").

Section urls.
Context (parse_url : string → option Url) (hash64 : string → Z) (proxy_all : string → bool) (qa_loopback_only : bool).

Definition sanitize_session_id (raw : string) : string :=
  let s := String.string_of_list_ascii (session_char <$> split_chars raw) in
  if 48 <? strlen s then String.substring 0 32 s +:+ "-" +:+ hex8 (hash64 raw mod 2 ^ 32)
  else if is_empty s then "default" else s.

Definition session_phase_offset (session_id : string) (ttl : Z) : Z :=
  Affinity.fnv1a64 (Affinity.bytes_of session_id) mod ttl.

Definition session_bucket (session_id : string) (ttl now : Z) : Z :=
  wrapping_add_u64 now (session_phase_offset session_id ttl) / ttl.

Definition session_username (member_id : string) (sticky : bool) (ttl now : Z) : string :=
  if sticky then
    let s := sanitize_session_id member_id in
    if ttl =? 0 then "sess=" +:+ s +:+ ";any=1"
    else "sess=" +:+ s +:+ "-b" +:+ show_u64 (session_bucket s ttl now) +:+ ";any=1"
  else "any=1".

Definition format_session_proxy_url (base member_id : string) (sticky : bool) (ttl now : Z) : string :=
  match parse_url base with
  | None => base
  | Some u =>
      scheme u +:+ "://" +:+ session_username member_id sticky ttl now +:+ ":x@"
      +:+ default "127.0.0.1" (host_str u)
      +:+ match port u with Some p => ":" +:+ show_u64 p | None => "" end
      +:+ (if is_empty (path u) then "/" else path u)
  end.

Definition policy_for (r : ProxyRuntime) (provider_name : string) : option ProviderProxyPolicy :=
  let norm := to_ascii_lowercase (trim provider_name) in
  let found := match providers r !! norm with
               | Some p => Some p
               | None => snd <$> List.find (λ kv, aliases (to_ascii_lowercase (trim kv.1)) norm) (btree_entries (providers r))
               end in
  p ← found; if enabled p then Some p else None.

Definition session_proxy_url (r : ProxyRuntime) (provider_name member_id : string) (now : Z) : option string :=
  p ← policy_for r provider_name;
  raw ← (if negb (is_empty (trim (policy_url p))) then Some (trim (policy_url p))
         else if negb (is_empty (global_proxy_url r)) then Some (global_proxy_url r) else None);
  Some (if is_direct_or_none raw then "direct"
        else format_session_proxy_url raw member_id (sticky p) (ttl_secs p) now).

Definition validate_proxy_url_candidate (url : string) : result UrlError unit :=
  let t := trim url in
  if is_empty t || is_direct_or_none t then Ok tt
  else match parse_url t with
       | None => Err NotAUrl
       | Some u =>
           if negb (one_of (scheme u) ["http"; "https"; "socks5"; "socks5h"]) then Err (UnsupportedScheme (scheme u))
           else if negb (is_some (host_str u)) then Err MissingHost
           else if qa_loopback_only && negb (is_literal_loopback_url u) then Err NotLoopback
           else Ok tt
       end.

(** ** Clients *)

(** What tells clients apart: the proxy they use, and whether they are Devin's, which speak
    HTTP/1.1 and follow no redirects. *)
Record Client := { via : option string; no_redirects : bool }.

Definition build_client (no_redirects : bool) (proxy_url : option string) : option Client :=
  match proxy_url with
  | Some u =>
      if negb (is_ok (validate_proxy_url_candidate u)) then None
      else if is_empty (trim u) || is_direct_or_none u then Some {| via := None; no_redirects := no_redirects |}
      else if proxy_all (trim u) then Some {| via := Some (trim u); no_redirects := no_redirects |} else None
  | None => Some {| via := None; no_redirects := no_redirects |}
  end.

Record ProxySnapshot := {
  runtime : ProxyRuntime;
  default_client : Client;
  direct_client : Client;
  devin_default_client : Client;
  devin_direct_client : Client;
}.

(** [validate_proxy_settings] on the proxies, the first URL that is refused. *)
Definition validate_proxies (s : ProxySettings) : bool :=
  (is_empty (trim (proxy_url s)) || is_ok (validate_proxy_url_candidate (proxy_url s)))
  && forallb (λ p, negb (enabled p) || is_empty (trim (policy_url p)) || is_ok (validate_proxy_url_candidate (policy_url p)))
       (btree_values (proxy_providers s)).

Definition snapshot_from_settings (s : ProxySettings) : option ProxySnapshot :=
  if negb (validate_proxies s) then None
  else
    d ← build_client false (base_proxy_url s); n ← build_client false None;
    dd ← build_client true (base_proxy_url s); dn ← build_client true None;
    Some {| runtime := runtime_from_settings s; default_client := d; direct_client := n;
            devin_default_client := dd; devin_direct_client := dn |}.

(** *** The cache *)

Record ProxyClientCache := {
  active : option (gset string);
  generation : Z; (* u64 *)
  clients : gmap string Client;
}.

Definition empty_cache : ProxyClientCache := {| active := None; generation := 0; clients := ∅ |}.

Definition cache_admits (c : ProxyClientCache) (member_id : string) : bool :=
  match active c with None => true | Some a => bool_decide (member_id ∈ a) end.

Definition proxy_client_owner (key : string) : option string := split "|" key !! 1%nat.

Definition clear_clients (c : ProxyClientCache) : ProxyClientCache :=
  {| active := active c; generation := wrapping_add_u64 (generation c) 1; clients := ∅ |}.

Definition retain_members (c : ProxyClientCache) (a : gset string) : ProxyClientCache :=
  {| active := Some a; generation := generation c;
     clients := filter (λ kv, match proxy_client_owner kv.1 with Some i => bool_decide (i ∈ a) | None => false end = true)
                  (clients c) |}.

Definition replace_scoped_generation (c : ProxyClientCache) (g : Z) (key scope member_id : string) (client : Client)
  : ProxyClientCache :=
  if negb (generation c =? g) || negb (cache_admits c member_id) then c
  else {| active := active c; generation := generation c;
          clients := <[key := client]>
                       (filter (λ kv, kv.1 = key ∨ starts_with kv.1 scope = false) (clients c)) |}.

Definition scope_of (provider member_id : string) : string := provider +:+ "|" +:+ member_id +:+ "|".
Definition key_of (provider member_id url : string) : string := scope_of provider member_id +:+ url.

(** The URL a request leaves by: the credential's, or the policy's. *)
Definition effective_proxy_url (devin : bool) (r : ProxyRuntime) (provider member_id : string)
    (credential_proxy : option string) (now : Z) : option string :=
  match credential_proxy with
  | Some cred =>
      let t := trim cred in
      if negb (is_empty t) then
        Some (if is_direct_or_none t then "direct"
              else if devin then t else format_session_proxy_url t member_id false 0 now)
      else session_proxy_url r provider member_id now
  | None => session_proxy_url r provider member_id now
  end.

(** [try_client_for_target_at_with_override] and, with [devin], its twin for Devin: the
    client, or that none can be built, and the cache. *)
Definition try_client (devin : bool) (snapshot : ProxySnapshot) (c : ProxyClientCache) (provider member_id : string)
    (credential_proxy : option string) (now : Z) : option Client * ProxyClientCache :=
  let direct := if devin then devin_direct_client snapshot else direct_client snapshot in
  let shared := if devin then devin_default_client snapshot else default_client snapshot in
  match effective_proxy_url devin (runtime snapshot) provider member_id credential_proxy now with
  | None => (Some (if scoped_routing_active (runtime snapshot) then direct else shared), c)
  | Some u =>
      if is_direct_or_none u then (Some direct, c)
      else match clients c !! key_of provider member_id u with
           | Some client => (Some client, c)
           | None =>
               match build_client devin (Some u) with
               | Some client =>
                   (Some client, replace_scoped_generation c (generation c) (key_of provider member_id u)
                                   (scope_of provider member_id) member_id client)
               | None => (None, c)
               end
           end
  end.

(** [ClaudeEgressClients::build]: the clients of the accounts with an egress of their own,
    [None] for an entry no client can be built for. *)
Definition claude_egress_build (entries : gmap string string) : gmap string (option Client) :=
  (λ url, build_client false (Some url)) <$> entries.

(** [try_client_for_member] and, with [devin], [devin_client_for_member], which does not
    look at those clients; [claude] is whether the account's kind is Claude. *)
Definition try_client_for_member (devin claude : bool) (egress : gmap string (option Client))
    (snapshot : ProxySnapshot) (c : ProxyClientCache) (provider member_id : string)
    (credential_proxy : option string) (now : Z) : option Client * ProxyClientCache :=
  match (if negb devin && claude then egress !! member_id else None) with
  | Some (Some client) => (Some client, c)
  | _ => try_client devin snapshot c provider member_id credential_proxy now
  end.

(** What other threads do to the cache between a lookup and an insertion; [g] is the
    generation read before. *)
Inductive cache_step : ProxyClientCache → ProxyClientCache → Prop :=
  | cache_clear c : cache_step c (clear_clients c)
  | cache_retain c a : cache_step c (retain_members c a)
  | cache_put c g provider member_id u devin client :
      contains provider "|" = false → contains member_id "|" = false →
      is_direct_or_none u = false → build_client devin (Some u) = Some client →
      cache_step c (replace_scoped_generation c g (key_of provider member_id u) (scope_of provider member_id) member_id client).
End urls.

(** ** Supervision *)

Definition egress_url (url : string) : bool :=
  let u := to_ascii_lowercase (trim url) in contains u "127.0.0.1:3128" || contains u "localhost:3128".

(** Elsewhere than on macOS. *)
Definition is_supervision_needed (r : ProxyRuntime) : bool :=
  egress_url (global_proxy_url r)
  || existsb (λ p, enabled p && (egress_url (policy_url p)
                                 || (is_empty (trim (policy_url p)) && egress_url (global_proxy_url r))))
       (btree_values (providers r)).

End Egress.

Import Egress.

(** ** Keys of the cache *)

Abbreviation plain s := (contains s "|" = false).

Lemma plain_cons a s : plain (String a s) → a ≠ "|"%char ∧ plain s.
Proof.
  change (contains (String a s) "|") with (starts_with (String a s) "|" || contains s "|").
  intros [H ?]%orb_false_iff. split; [|done]. intros ->. done.
Qed.

Lemma bar_cut a b s t : plain a → plain b → a +:+ String "|" s = b +:+ String "|" t → a = b ∧ s = t.
Proof.
  revert b. induction a as [|x a IH]; intros [|y b] Ha Hb E.
  - by injection E.
  - apply plain_cons in Hb as [Hy _]. by injection E as <- _.
  - apply plain_cons in Ha as [Hx _]. by injection E as -> _.
  - apply plain_cons in Ha as [_ Ha], Hb as [_ Hb]. injection E as -> E. by destruct (IH b Ha Hb E) as [-> ->].
Qed.

Lemma key_of_bars p m u : key_of p m u = p +:+ String "|" (m +:+ String "|" u).
Proof. unfold key_of, scope_of. by rewrite !append_assoc. Qed.

Lemma key_inj p m u p' m' u' : plain p → plain m → plain p' → plain m' →
  key_of p m u = key_of p' m' u' → p = p' ∧ m = m' ∧ u = u'.
Proof.
  intros Hp Hm Hp' Hm'. rewrite !key_of_bars. intros [-> E]%bar_cut; [|done|done].
  apply bar_cut in E as [-> ->]; done.
Qed.

Lemma key_in_scope p m u p' m' : plain p → plain m → plain p' → plain m' →
  starts_with (key_of p m u) (scope_of p' m') = true → p = p' ∧ m = m'.
Proof.
  intros Hp Hm Hp' Hm' [r E]%starts_with_iff. change (scope_of p' m' +:+ r) with (key_of p' m' r) in E.
  apply key_inj in E; naive_solver.
Qed.

Lemma split_bar a s : plain a → split "|" (a +:+ String "|" s) = a :: split "|" s.
Proof.
  induction a as [|x a IH]; intros Ha; [done|]. apply plain_cons in Ha as [Hx Ha].
  change ((String x a) +:+ String "|" s) with (String x (a +:+ String "|" s)). cbn [split].
  rewrite bool_decide_eq_false_2 by done. by rewrite IH.
Qed.

Lemma owner_of_key p m u : plain p → plain m → proxy_client_owner (key_of p m u) = Some m.
Proof. intros Hp Hm. unfold proxy_client_owner. by rewrite key_of_bars, !split_bar. Qed.

(** ** What the cache holds *)

Section cache.
Context (parse_url : string → option Url) (hash64 : string → Z) (proxy_all : string → bool) (qa_loopback_only : bool).
Abbreviation build := (build_client parse_url proxy_all qa_loopback_only).
Abbreviation cache_step := (cache_step parse_url proxy_all qa_loopback_only).

(** Every client was built for the URL of its key, belongs to a live account, and is the
    only one of its provider and account. *)
Definition cache_sound (c : ProxyClientCache) : Prop :=
  (∀ k cl, clients c !! k = Some cl → ∃ p m u dv,
     k = key_of p m u ∧ plain p ∧ plain m ∧ build dv (Some u) = Some cl ∧ cache_admits c m = true) ∧
  (∀ p m u u', plain p → plain m → is_Some (clients c !! key_of p m u) → is_Some (clients c !! key_of p m u') → u = u').

Lemma retain_sound c a : cache_sound c → cache_sound (retain_members c a).
Proof.
  intros [Hs Hu]. split.
  - intros k cl [Hk Ho]%map_lookup_filter_Some. cbn [fst] in Ho. destruct (Hs k cl Hk) as (p & m & u & dv & -> & Hp & Hm & Hb & _).
    rewrite owner_of_key in Ho by done. by exists p, m, u, dv.
  - intros p m u u' Hp Hm [x [Hx _]%map_lookup_filter_Some] [y [Hy _]%map_lookup_filter_Some]. apply (Hu p m u u' Hp Hm); [by exists x|by exists y].
Qed.

Lemma put_sound c g p m u dv cl :
  plain p → plain m → build dv (Some u) = Some cl → cache_sound c →
  cache_sound (replace_scoped_generation c g (key_of p m u) (scope_of p m) m cl).
Proof.
  intros Hp Hm Hb Hc. pose proof Hc as [Hs Hu]. unfold replace_scoped_generation.
  destruct (generation c =? g); [|done]. destruct (cache_admits c m) eqn:Ha; [|done]. cbn [negb orb].
  assert (∀ p' m' u' x, plain p' → plain m' → key_of p' m' u' ≠ key_of p m u →
    filter (λ kv : string * Client, kv.1 = key_of p m u ∨ starts_with kv.1 (scope_of p m) = false) (clients c)
      !! key_of p' m' u' = Some x → clients c !! key_of p' m' u' = Some x ∧ (p', m') ≠ (p, m)) as Hkeep.
  { intros p' m' u' x Hp' Hm' Hne [Hx [?|Hsc]]%map_lookup_filter_Some; [done|]. split; [done|]. intros [= -> ->].
    cbn in Hsc. rewrite (proj2 (starts_with_iff _ _)) in Hsc by (by exists u'). done. }
  split; cbn [clients].
  - intros k x. destruct (decide (k = key_of p m u)) as [->|Hne].
    + rewrite lookup_insert_eq. intros [= <-]. by exists p, m, u, dv.
    + rewrite lookup_insert_ne by done. intros [Hx _]%map_lookup_filter_Some. by apply Hs.
  - intros p' m' u1 u2 Hp' Hm'. destruct (decide ((p', m') = (p, m))) as [[= -> ->]|Hne].
    + assert (∀ v, is_Some (<[key_of p m u := cl]> (filter (λ kv : string * Client,
        kv.1 = key_of p m u ∨ starts_with kv.1 (scope_of p m) = false) (clients c)) !! key_of p m v) → v = u) as Hv.
      { intros v [x Hx]. destruct (decide (key_of p m v = key_of p m u)) as [E|E].
        - apply key_inj in E; naive_solver.
        - rewrite lookup_insert_ne in Hx by done. by destruct (Hkeep p m v x Hp' Hm' E Hx). }
      intros H1 H2. by rewrite (Hv u1 H1), (Hv u2 H2).
    + assert (∀ v, key_of p' m' v ≠ key_of p m u) as Hd by (intros v E; apply key_inj in E; naive_solver).
      intros [x Hx] [y Hy]. rewrite lookup_insert_ne in Hx, Hy by (intros E; by apply (Hd _ (eq_sym E))).
      apply Hkeep in Hx as [Hx _], Hy as [Hy _]; try done.
      apply (Hu p' m' u1 u2 Hp' Hm'); [by exists x|by exists y].
Qed.

Lemma reachable_sound c : rtc cache_step empty_cache c → cache_sound c.
Proof.
  intros Hr. apply (@rtc_ind_r _ cache_step cache_sound empty_cache); [| |done].
  - split; [intros k cl|intros p m u u' _ _ [x Hx]]; by rewrite ?lookup_empty in *.
  - intros c1 c2 _ Hstep Hc. destruct Hstep; [|by apply retain_sound|by eapply put_sound].
    split; [intros k cl|intros p m u u' _ _ [x Hx]]; cbn [clients clear_clients] in *; by rewrite ?lookup_empty in *.
Qed.

(** The proxy a request has to leave by, if a client can be built for it. *)
Definition configured (devin : bool) (s : ProxySettings) (provider member_id : string) (credential_proxy : option string) (now : Z)
  : option (option string) :=
  let r := runtime_from_settings s in
  match effective_proxy_url parse_url hash64 devin r provider member_id credential_proxy now with
  | None => Some (if scoped_routing_active r then None else base_proxy_url s)
  | Some u => if is_direct_or_none u then Some None else via <$> build devin (Some u)
  end.

Lemma build_via dv u cl : build dv (Some u) = Some cl → is_direct_or_none u = false →
  via cl = if is_empty (trim u) then None else Some (trim u).
Proof.
  cbn [build_client]. destruct (negb _); [done|]. intros H Hd. rewrite Hd, orb_false_r in H.
  destruct (is_empty (trim u)); [by injection H as <-|]. destruct (proxy_all _); [by injection H as <-|done].
Qed.

Lemma base_proxy_trimmed s u : base_proxy_url s = Some u →
  u = trim u ∧ is_empty u = false ∧ is_direct_or_none u = false.
Proof.
  unfold base_proxy_url. destruct (existsb _ _); [done|].
  destruct (is_empty (trim _)) eqn:He; [done|]. destruct (is_direct_or_none (trim _)) eqn:Hd; [done|].
  cbn. intros [= <-]. by rewrite trim_idemp.
Qed.

Lemma snapshot_clients s snap :
  snapshot_from_settings parse_url proxy_all qa_loopback_only s = Some snap →
  runtime snap = runtime_from_settings s ∧
  via (direct_client snap) = None ∧ via (devin_direct_client snap) = None ∧
  via (default_client snap) = base_proxy_url s ∧ via (devin_default_client snap) = base_proxy_url s.
Proof.
  unfold snapshot_from_settings. destruct (negb _); [done|].
  assert (∀ dv cl, build dv (base_proxy_url s) = Some cl → via cl = base_proxy_url s) as Hb.
  { intros dv cl. destruct (base_proxy_url s) as [u|] eqn:Hu; [|by intros [= <-]].
    destruct (base_proxy_trimmed _ _ Hu) as (Ht & He & Hd). intros ->%build_via; [|done]. by rewrite <- Ht, He. }
  destruct (build false (base_proxy_url s)) as [d|] eqn:H1; [|done].
  destruct (build true (base_proxy_url s)) as [dd|] eqn:H2; [|done]. cbn. intros [= <-]. cbn. eauto 10.
Qed.

(** A client found in the cache, or built. *)
Lemma try_client_exact s snap c devin provider member_id credential_proxy now :
  snapshot_from_settings parse_url proxy_all qa_loopback_only s = Some snap →
  rtc cache_step empty_cache c → plain provider → plain member_id →
  let '(r, c') := try_client parse_url hash64 proxy_all qa_loopback_only devin snap c provider member_id credential_proxy now in
  via <$> r = configured devin s provider member_id credential_proxy now ∧
  rtc cache_step empty_cache c' ∧
  ∀ u u', is_Some (clients c' !! key_of provider member_id u) → is_Some (clients c' !! key_of provider member_id u') → u = u'.
Proof.
  intros Hsnap Hc Hp Hm. destruct (snapshot_clients _ _ Hsnap) as (Hr & Hdi & Hddi & Hde & Hdde).
  destruct (try_client _ _ _ _ _ _ _ _ _ _ _) as [r c'] eqn:Ht.
  assert (via <$> r = configured devin s provider member_id credential_proxy now ∧ rtc cache_step empty_cache c') as [Hv Hc'].
  { revert Ht. unfold try_client, configured. rewrite Hr.
    destruct (effective_proxy_url _ _ _ _ _ _ _ _) as [u|].
    2:{ intros [= <- <-]. split; [|done]. by destruct (scoped_routing_active _), devin; cbn; rewrite ?Hdi, ?Hddi, ?Hde, ?Hdde. }
    destruct (is_direct_or_none u) eqn:Hd.
    { intros [= <- <-]. split; [|done]. by destruct devin; cbn; rewrite ?Hdi, ?Hddi. }
    destruct (clients c !! _) as [cl|] eqn:Hcl.
    - intros [= <- <-]. split; [|done].
      destruct (proj1 (reachable_sound c Hc) _ _ Hcl) as (p & m & u' & dv & E & Hp' & Hm' & Hb & _).
      apply key_inj in E as (-> & -> & ->); [|done..]. cbn. rewrite (build_via _ _ _ Hb Hd).
      cbn [build_client] in *. destruct (negb _); [done|]. rewrite Hd, orb_false_r in *.
      destruct (is_empty (trim u')); [done|]. by destruct (proxy_all _).
    - destruct (build devin (Some u)) as [cl|] eqn:Hb; intros [= <- <-]; (split; [done|]); [|done].
      eapply rtc_r; [done|]. by eapply cache_put. }
  split_and!; [done|done|]. intros u u'. by apply (proj2 (reachable_sound c' Hc')).
Qed.

(** The proxy configured for a request of an account: of a Claude account with an egress of
    its own that can be built, that one. *)
Definition configured_for (devin claude : bool) (s : ProxySettings) (entries : gmap string string)
    (provider member_id : string) (credential_proxy : option string) (now : Z) : option (option string) :=
  match (if negb devin && claude then entries !! member_id else None) with
  | Some url =>
      if build false (Some url) then
        Some (if is_empty (trim url) || is_direct_or_none url then None else Some (trim url))
      else configured devin s provider member_id credential_proxy now
  | None => configured devin s provider member_id credential_proxy now
  end.

Lemma egress_via url cl : build false (Some url) = Some cl →
  via cl = if is_empty (trim url) || is_direct_or_none url then None else Some (trim url).
Proof.
  cbn [build_client]. destruct (negb _); [done|]. destruct (_ || _); [by intros [= <-]|].
  destruct (proxy_all _); [by intros [= <-]|done].
Qed.

(** C37: Caching clients never changes the way out.  Whatever requests of other accounts,
    prunes of the pool and changes of the settings did to the cache before, a request of an
    account gets a client that leaves exactly by the proxy configured for it - for a Claude
    account its own egress, if it has one that can be built, and otherwise its credential's,
    its provider's, or the shared one - and none if that cannot be built: never a direct one
    in its place.  The cache it leaves behind is one of those, with at most one client per
    provider and account.  Side conditions: provider names and account ids, of this request
    and of the others that filled the cache, contain no [|].  (A Claude account whose own
    egress cannot be built is not served: the [claude_egress_invalid] of [RelayRoute] takes
    it out of the candidates before a client is asked for.) *)
Theorem egress_exact s snap entries c devin claude provider member_id credential_proxy now :
  snapshot_from_settings parse_url proxy_all qa_loopback_only s = Some snap →
  rtc cache_step empty_cache c → plain provider → plain member_id →
  let egress := claude_egress_build parse_url proxy_all qa_loopback_only entries in
  let '(r, c') := try_client_for_member parse_url hash64 proxy_all qa_loopback_only devin claude egress
                    snap c provider member_id credential_proxy now in
  via <$> r = configured_for devin claude s entries provider member_id credential_proxy now ∧
  rtc cache_step empty_cache c' ∧
  ∀ u u', is_Some (clients c' !! key_of provider member_id u) → is_Some (clients c' !! key_of provider member_id u') → u = u'.
Proof.
  intros Hsnap Hc Hp Hm. cbv zeta. unfold try_client_for_member, configured_for, claude_egress_build.
  pose proof (try_client_exact s snap c devin provider member_id credential_proxy now Hsnap Hc Hp Hm) as Ht.
  destruct (negb devin && claude); [|exact Ht]. rewrite lookup_fmap.
  destruct (entries !! member_id) as [url|]; [|exact Ht]. cbn [fmap option_fmap option_map].
  destruct (build false (Some url)) as [cl|] eqn:Hb; [|exact Ht].
  split_and!; [cbn; by rewrite (egress_via _ _ Hb)|done|]. intros u u'. by apply (proj2 (reachable_sound c Hc)).
Qed.
End cache.

(** ** Sticky sessions *)

(** The phase of a session rotates it at one instant of every window. *)
Lemma bucket_changes_once off ttl t : 0 < ttl →
  ∃ s, t < s ≤ t + ttl ∧ ∀ x, t < x ≤ t + ttl → ((x + off) / ttl ≠ (x - 1 + off) / ttl ↔ x = s).
Proof.
  intros Ht. pose proof (Z.div_mod (t + off) ttl ltac:(lia)) as Hdm. pose proof (Z.mod_pos_bound (t + off) ttl Ht) as Hb.
  set (q := (t + off) / ttl) in *. set (m := (t + off) mod ttl) in *. exists (t + ttl - m). split; [lia|]. intros x Hx.
  destruct (Z.lt_trichotomy x (t + ttl - m)) as [Hlt|[->|Hgt]].
  - assert ((x + off) / ttl = q) as -> by (symmetry; apply (Z.div_unique_pos _ _ _ (x + off - ttl * q)); lia).
    assert ((x - 1 + off) / ttl = q) as -> by (symmetry; apply (Z.div_unique_pos _ _ _ (x - 1 + off - ttl * q)); lia). lia.
  - assert ((t + ttl - m + off) / ttl = q + 1) as -> by (symmetry; apply (Z.div_unique_pos _ _ _ 0); lia).
    assert ((t + ttl - m - 1 + off) / ttl = q) as -> by (symmetry; apply (Z.div_unique_pos _ _ _ (ttl - 1)); lia). lia.
  - assert ((x + off) / ttl = q + 1) as -> by (symmetry; apply (Z.div_unique_pos _ _ _ (x + off - ttl * (q + 1))); lia).
    assert ((x - 1 + off) / ttl = q + 1) as -> by (symmetry; apply (Z.div_unique_pos _ _ _ (x - 1 + off - ttl * (q + 1))); lia). lia.
Qed.

Section sessions.
Context (hash64 : string → Z).

Lemma append_inv_head p s t : p +:+ s = p +:+ t → s = t.
Proof. apply append_same_length. done. Qed.

Lemma username_bucket m ttl x y :
  ttl ≠ 0 → is_u64 (session_bucket (sanitize_session_id hash64 m) ttl x) → is_u64 (session_bucket (sanitize_session_id hash64 m) ttl y) →
  session_username hash64 m true ttl x = session_username hash64 m true ttl y ↔
  session_bucket (sanitize_session_id hash64 m) ttl x = session_bucket (sanitize_session_id hash64 m) ttl y.
Proof.
  intros Ht Hx Hy. unfold session_username. rewrite (proj2 (Z.eqb_neq _ _) Ht). split; [|by intros ->].
  intros E%append_inv_head%append_inv_head%append_inv_head. change ";any=1" with (String ";" "any=1") in E.
  apply digits_cut in E as [E _]; [|by apply show_u64_digits..|done]. by apply show_u64_inj in E.
Qed.

Lemma session_bucket_exact s ttl x : 0 < ttl → 0 ≤ x → x + ttl ≤ u64_max →
  session_bucket s ttl x = (x + session_phase_offset s ttl) / ttl ∧ is_u64 (session_bucket s ttl x).
Proof.
  intros Ht Hx Hm. pose proof (Z.mod_pos_bound (Affinity.fnv1a64 (Affinity.bytes_of s)) ttl Ht) as Ho.
  unfold session_bucket, wrapping_add_u64. fold (session_phase_offset s ttl) in Ho.
  assert (is_u64 (x + session_phase_offset s ttl)) as Hu by (unfold is_u64; lia).
  rewrite wrap_u64_small by done. split; [done|]. unfold is_u64 in *. split; [apply Z.div_pos; lia|].
  transitivity (x + session_phase_offset s ttl); [|lia]. apply Z.div_le_upper_bound; [done|]. nia.
Qed.

(** A sticky session is renewed at exactly one second of every [ttl] seconds. *)
Theorem sticky_rotates_once m ttl t : 0 < ttl → 0 ≤ t → t + 2 * ttl ≤ u64_max →
  ∃ s, t < s ≤ t + ttl ∧ ∀ x, t < x ≤ t + ttl →
    (session_username hash64 m true ttl x ≠ session_username hash64 m true ttl (x - 1) ↔ x = s).
Proof.
  intros Ht H0 Hm. destruct (bucket_changes_once (session_phase_offset (sanitize_session_id hash64 m) ttl) ttl t Ht) as (s & Hs & Hx).
  exists s. split; [done|]. intros x Hr. rewrite <- (Hx x Hr).
  destruct (session_bucket_exact (sanitize_session_id hash64 m) ttl x) as [E1 U1]; [lia..|].
  destruct (session_bucket_exact (sanitize_session_id hash64 m) ttl (x - 1)) as [E2 U2]; [lia..|].
  by rewrite username_bucket, E1, E2 by (done || lia).
Qed.

(** *** Session ids *)

Lemma all_bytes_list p l : all_bytes p (String.string_of_list_ascii l) = true ↔ Forall (λ a, p a = true) l.
Proof.
  induction l as [|a l IH]; cbn; [by split|]. rewrite andb_true_iff, IH, Forall_cons. done.
Qed.

Lemma all_bytes_prefix p n s : all_bytes p s = true → all_bytes p (String.substring 0 n s) = true.
Proof.
  revert n. induction s as [|a s IH]; intros [|n]; cbn; [done..|]. intros [-> Hs]%andb_true_iff. by apply IH.
Qed.

Lemma substring_length n s : (n ≤ String.length s)%nat → String.length (String.substring 0 n s) = n.
Proof. revert s. induction n as [|n IH]; intros [|a s]; cbn; try lia. intros. rewrite IH; lia. Qed.

Lemma session_char_ok c : session_byte (session_char c) = true.
Proof. unfold session_char. destruct c as [|a [|b c]]; [done| |done]. by destruct (session_byte a) eqn:E. Qed.

Lemma hex_digit_ok z : 0 ≤ z < 16 → session_byte (hex_digit z) = true.
Proof.
  intros Hz. assert (z ∈ [0;1;2;3;4;5;6;7;8;9;10;11;12;13;14;15]) as Hin.
  { rewrite !list_elem_of_In. cbn. lia. }
  apply list_elem_of_In in Hin. cbn in Hin. by repeat destruct Hin as [<-|Hin].
Qed.

(** The name of a session cannot break out of the user part of the proxy's URL: it has
    between one and 48 characters, letters, digits, underscores and dashes. *)
Theorem session_id_safe raw :
  all_bytes session_byte (sanitize_session_id hash64 raw) = true ∧ 1 ≤ strlen (sanitize_session_id hash64 raw) ≤ 48.
Proof.
  unfold sanitize_session_id. set (s := String.string_of_list_ascii _).
  assert (all_bytes session_byte s = true) as Hs.
  { apply all_bytes_list, Forall_fmap, list.Forall_forall. intros c _. apply session_char_ok. }
  destruct (Z.ltb_spec 48 (strlen s)) as [Hl|Hl].
  - assert (all_bytes session_byte (hex8 (hash64 raw mod 2 ^ 32)) = true ∧ strlen (hex8 (hash64 raw mod 2 ^ 32)) = 8) as [Hh Hn].
    { split; [|done]. apply all_bytes_list, Forall_fmap, list.Forall_forall. intros i _.
      apply hex_digit_ok. apply Z.mod_pos_bound. lia. }
    rewrite !all_bytes_app, (all_bytes_prefix _ 32 s Hs), Hh. split; [done|].
    rewrite !strlen_app, Hn. unfold strlen in *. rewrite substring_length by lia. cbn. lia.
  - destruct (is_empty s) eqn:He; [by split|]. split; [done|]. split; [|done].
    destruct s as [|a s']; [done|]. unfold strlen. cbn. lia.
Qed.
End sessions.

Module EgressDemo.

Definition parse_local (s : string) : option Url :=
  if starts_with s "http://" then Some {| scheme := "http"; host_str := Some "127.0.0.1"; port := Some 3128; path := "/" |} else None.
Definition no_hash (s : string) : Z := 0.
Definition any_proxy (s : string) : bool := true.

Definition SETTINGS : ProxySettings :=
  {| proxy_url := "http://127.0.0.1:3128";
     proxy_providers := {["devin" := {| enabled := true; sticky := true; ttl_secs := 600; policy_url := "" |}]} |}.

Definition SNAP : ProxySnapshot := Eval vm_compute in
  match snapshot_from_settings parse_local any_proxy false SETTINGS with
  | Some s => s
  | None => {| runtime := runtime_from_settings SETTINGS; default_client := {| via := None; no_redirects := false |};
               direct_client := {| via := None; no_redirects := false |};
               devin_default_client := {| via := None; no_redirects := true |};
               devin_direct_client := {| via := None; no_redirects := true |} |}
  end.

Definition attempt (devin : bool) (c : ProxyClientCache) (provider : string) : option Client * ProxyClientCache :=
  try_client parse_local no_hash any_proxy false devin SNAP c provider "acc1" None 1000.

Definition ENTRIES : gmap string string := {["claude-1" := "http://127.0.0.1:9000"]}.

(** A Claude account with an egress of its own leaves by it, and fills no cache. *)
Example own_egress_first :
  let r := try_client_for_member parse_local no_hash any_proxy false false true
             (claude_egress_build parse_local any_proxy false ENTRIES) SNAP empty_cache "claude" "claude-1"
             (Some "http://127.0.0.1:7000") 1000 in
  via <$> r.1 = Some (Some "http://127.0.0.1:9000") ∧ r.2 = empty_cache.
Proof. split; vm_compute; reflexivity. Qed.

(** Applies [egress_exact] to the first request of an account of the opted-in provider. *)
Lemma egress_exact_witness :
  snapshot_from_settings parse_local any_proxy false SETTINGS = Some SNAP ∧
  via <$> (attempt true empty_cache "devin").1 = Some (Some "http://sess=acc1-b1;any=1:x@127.0.0.1:3128/") ∧
  rtc (cache_step parse_local any_proxy false) empty_cache (attempt true empty_cache "devin").2.
Proof.
  assert (snapshot_from_settings parse_local any_proxy false SETTINGS = Some SNAP) as Hs by (vm_compute; reflexivity).
  split; [exact Hs|].
  pose proof (egress_exact parse_local no_hash any_proxy false SETTINGS SNAP ENTRIES empty_cache true false
                "devin" "acc1" None 1000 Hs (rtc_refl _ _) eq_refl eq_refl) as H. cbv zeta in H.
  change (try_client_for_member _ _ _ _ _ _ _ _ _ _ _ _ _) with (attempt true empty_cache "devin") in H.
  destruct (attempt true empty_cache "devin") as [r c'] eqn:E. cbn [fst snd]. destruct H as (Hv & Hc & _).
  split; [|exact Hc]. rewrite Hv. vm_compute. reflexivity.
Defined.

(** The provider that did not opt in leaves directly. *)
Example other_provider_direct : (attempt false empty_cache "codex").1 = Some {| via := None; no_redirects := false |}.
Proof. vm_compute. reflexivity. Qed.

(** The two kinds of clients share their keys: once the plain client of a Devin account is
    cached, asking for Devin's own gives the plain one, which follows redirects. *)
Example devin_gets_plain_client :
  let c := (attempt false empty_cache "devin").2 in
  no_redirects <$> (attempt true c "devin").1 = Some false ∧ no_redirects <$> (attempt true empty_cache "devin").1 = Some true.
Proof. split; vm_compute; reflexivity. Qed.

Example loopbacks :
  is_literal_loopback_host " [::1] " = true ∧ is_literal_loopback_host "127.3.0.1" = true ∧
  is_literal_loopback_host "localhost" = false ∧ is_literal_loopback_host "::ffff:127.0.0.1" = false ∧
  is_literal_loopback_host "127.0.0.01" = false ∧ is_literal_loopback_host "0:0:0:0:0:0:0:1" = true.
Proof. split_and!; vm_compute; reflexivity. Qed.
End EgressDemo.
